(* ===== verification/_CoqProject ===== *)
-Q . S2P
Prelude.v
Float64.v
Division.v
LuaNum.v
Ledger.v
LedgerFacts.v
LedgerSafety.v
LedgerProps.v
RedisLedger.v
RedisView.v
RedisSim.v
RedisProps.v
RedisRefine.v
Region.v
RegionSafety.v
Limiter.v
Wire.v
Lease.v
Policies.v
Config.v
Decide.v
Hub.v
HubProps.v
Isolation.v
LeaseProtocol.v
LeaseSafety.v
LeaseSteps.v
Reserve.v
LocalProps.v
Batch.v
DecideService.v
DecideProps.v
Rls.v
TtlCache.v
Tiers.v
GoLib.v
TextForms.v
Startup.v
DecideHttp.v
Upstream.v
Edge.v
EdgeLimits.v
JwtKeys.v
EdgeProps.v
EdgeCache.v
RedisResponses.v
Gateway.v
ConfigFile.v
ConfigCheck.v
ConfigAccepted.v
ConfigLoad.v
LoadProps.v
JsonSchema.v
HubConfig.v
ConfigProps.v
ConfigRoundtrip.v
ControlPlane.v
ConfigDiff.v
AdminApi.v
AdminProps.v
KeyLife.v
KeyRaces.v
Cli.v
Analytics.v
AnalyticsProps.v
EdgeAnalytics.v
Overview.v
OverviewProps.v
AnalyticsApi.v
AnalyticsServed.v
Readiness.v
Contract.v
