(* ===== verification/Prelude.v ===== *)
(** * Gate: a verification of the distributed rate limiter and API gateway

    Gate limits requests with quotas that are shared by many edges.  A hub
    owns the quotas: its ledger counts the tokens granted per limit and window.
    An edge leases tokens from the hub in advance and admits requests from what
    it holds, so that most requests make no call.  Regions split a quota between
    their hubs and lend to each other.  The decision service answers checks for
    other programs from the same quotas.  Operators write a configuration file,
    the hub compiles and serves it, and a control plane pushes changes to the
    edges.  Edges send an event per request to the analytics server.

    The development translates the Go sources under src/ into executable
    definitions, with the names of the sources where they are free, and proves
    what the parts promise.  State is passed explicitly, a mutable object is a
    record, an error is a value of [result] or [option], a clock reading is an
    argument, and code that runs concurrently is a step relation whose steps are
    the sections the code makes atomic.

    ** Files and sources

    - This file: 64-bit integers with their wrap-around ([%i64]), durations,
      [result], sums, and the lemmas, tactics and hints all files share.
      [Float64], [Division], [LuaNum]: binary64 numbers, of Go and of Lua.
      [GoLib]: functions of Go's library on strings, numbers, headers and paths.
    - [Ledger] (packages/ledger: ledger.go, args.go, mem.go, region.go) with
      [LedgerFacts], [LedgerSafety], [LedgerProps] and [Isolation].
      [RedisLedger] (redis.go): the Lua scripts and the calls around them, with
      [RedisView], [RedisSim], [RedisProps] and [RedisRefine].
    - [Region] (packages/region) and [RegionSafety].
    - [Limiter] (packages/limiter: limiter.go, local.go, concurrency.go,
      redis_counter.go), [LocalProps], [Lease] (lease.go), [Reserve]
      (reserve.go), [Batch] (batch.go).
    - [Wire] (messages and quota_lease_validation.go), [Hub]
      (packages/hub/quota_lease_server.go) and [HubProps].  [LeaseProtocol],
      [LeaseSafety] and [LeaseSteps] put edges and hub together.
    - [Policies], [Config] (packages/common/types), [HubConfig]
      (packages/hub/config.go); [ConfigFile], [ConfigCheck], [ConfigLoad]
      (packages/config: schema.go and compile.go, validate.go, load.go) with
      [ConfigAccepted], [ConfigProps], [ConfigRoundtrip] and [LoadProps];
      [TextForms] (duration.go, rate.go) and [JsonSchema] (jsonschema.go).
    - [ControlPlane] (packages/hub/controlplane.go, packages/edge/follow.go),
      [ConfigDiff] (config_diff.go), [Tiers] (tier stores and caches of hub and
      edge), [AdminApi] (packages/hub/server.go, keys.go, packages/keys) with
      [AdminProps], [KeyLife] and [KeyRaces].
    - [Decide], [DecideService], [DecideHttp] (packages/decide: decide.go,
      service.go, http.go) with [DecideProps]; [Rls] (packages/rls).
    - [Edge], [EdgeLimits], [EdgeCache], [TtlCache], [Upstream], [Gateway],
      [JwtKeys], [EdgeAnalytics] (packages/edge: config.go, route.go and auth.go;
      ratelimit.go; cache.go; ttlcache.go; upstream.go and proxy.go; server.go;
      jwt.go; analytics.go) with [EdgeProps]; [RedisResponses] (the store of
      cache.go in Redis).
    - [Analytics], [Overview], [AnalyticsApi], [Contract] (packages/analytics:
      server.go, overview.go, contract.go and scaling.go, store.go) with
      [AnalyticsProps], [OverviewProps] and [AnalyticsServed].
    - [Startup] (packages/common/config/env.go, internal/app: appkit, and the
      configurations, checks and credentials of the four applications),
      [Readiness] (packages/common/ready, request IDs of packages/common/httpx,
      readiness in packages/edge/server.go and internal/app, the stream of
      packages/edge/hubclient.go), [Cli] (cmd/gate, packages/config/migrate.go,
      internal/app/devstack).

    ** What the theorems show

    - Quotas are kept.  The ledger never grants a window more than its limit and
      what was given back; edges, whatever interleaves and whatever messages are
      lost or repeated, never admit more together; nor do regions.  Counters of
      different quotas are different.  A return takes effect once.
    - The scripts on a Redis server answer as the ledger in the process.  The
      server is a class of which only documented behaviour is assumed.
    - The limiter interface is a class with laws.  Reservations are all or
      nothing and are settled at the actual cost against those laws, which the
      local limiter satisfies.  Batched lease requests are all answered, as if
      they had been sent one by one.
    - A request reaches an upstream only through routing, authentication and
      metering.  The limits an edge checks are those the hub leases for.  Token
      keys follow their issuer.  Caches replay what was stored, within budget.
    - A configuration file is read with every problem reported, accepted files
      load, and files survive being written back, durations to the nanosecond.
      The published schema admits exactly the documents of the configuration's
      types.  Changes reach every edge and drop exactly the cached responses
      they make stale.
    - Only the admin token changes keys and configuration; an issued secret
      works while it is its record's secret and not after.  A command of gate
      ctl reaches its handler, for the key that was named.
    - A process that starts speaks plaintext to its own machine only.  An edge
      opens with its first configuration and stays open; analytics is ready when
      its dependencies are; events arrive in order across reconnections.
    - Summaries and the overview count every event once; ingestion accounts
      for every message.

    Theorems with hypotheses have a witness on a concrete input.  Several
    theorems show where the code does not do what it means to, such as
    [KeyRaces], [Tiers.late_lookup_undoes_push] or [DecideHttp.wait_of_wraps].

    ** Bounds and fuel

    Counters are [float64]: sums are exact up to 2^53, which bounds quotas and
    debts; at most 2^40 - 1 steps are made in the sequences about quotas.  The
    Redis scripts are compared for quotas up to 2^40, counters up to 2^50 and up
    to 4096 edges of a quota.  Charges of the lease protocol are below 2^62,
    costs of the local limiter up to 2^61, the budget of a cache shard up to
    2^58; beyond them [int64] wraps, as [LocalProps] shows.

    Fuel is the code's own bound where it has one: 64 retries of a miss, the
    retries of a store.  Elsewhere it is what the loop can use: the entries of a
    shard for eviction, the length of a string for templates and replacements,
    16 digits of a hexadecimal number, the length of a path and one, the buckets
    of a window and one.  The walk over a document ends with fuel above the rank
    of its root, and for no fuel if it merges itself.  A waiting check ends
    after the attempts that fit in its wait, 3001 over HTTP.  A duration has at
    most 20 digits and is read in as many components as it has characters; the
    schema of the configuration nests less than 16 deep; an IPv6 address has at
    most 8 groups, one turn each; a command line takes a turn per argument; a
    document without aliases is walked with its number of nodes and one.

    ** Not modelled

    - Third-party code is a parameter: hashes and signatures, JSON, YAML,
      base64, regular expressions, gRPC, NATS, ClickHouse and Prometheus, and
      [httputil.ReverseProxy].  So are random draws and the order of Go maps.
    - The unary calls of the edge's hub client (packages/edge/hubclient.go)
      forward to generated code.  The check of a token's signature and claims is
      made by a library.
    - SQL that computes in ClickHouse (packages/analytics/store.go and
      overview_clickhouse.go): the database does the work.
    - Telemetry and tracing, which influence nothing; packages/common/startup,
      which no program uses; generated messages.
    - The wiring of the applications (internal/app): which goroutine runs what,
      the order of a shutdown, the banner and echo server of gate dev, and what
      gate prints.  Start-up is modelled as to what it refuses, how connections
      are secured and when a process is ready.
    - Everything under src/testing, which tests and measures the program.
    - Data races on memory: steps are atomic as the locks of the code make them.
      The counters of one call or turn move with it in [EdgeAnalytics]. *)

From stdpp Require Export gmap strings list fin_maps pretty.
From Stdlib Require Export ZArith Lia.
From Stdlib Require Import Ascii.

#[export] Set Default Proof Using "Type".

(** ** Machine integers *)

(** Go's [int64]: a [Z] kept in range by wrapping every operation.  *)
Definition int64_min : Z := -9223372036854775808.
Definition int64_max : Z := 9223372036854775807.
Definition wrap64 (z : Z) : Z := (z + 2 ^ 63) `mod` 2 ^ 64 - 2 ^ 63.
Definition is_int64 (z : Z) : Prop := (int64_min ≤ z ≤ int64_max)%Z.

Definition i64_add (a b : Z) : Z := wrap64 (a + b).
Definition i64_sub (a b : Z) : Z := wrap64 (a - b).
Definition i64_mul (a b : Z) : Z := wrap64 (a * b).
Definition i64_opp (a : Z) : Z := wrap64 (- a).
(** Go's [/] and [%] on signed integers truncate towards zero. *)
Definition i64_div (a b : Z) : Z := wrap64 (Z.quot a b).
Definition i64_rem (a b : Z) : Z := Z.rem a b.

Declare Scope i64_scope.
Delimit Scope i64_scope with i64.
#[global] Arguments i64_add (a b)%_i64_scope.
#[global] Arguments i64_sub (a b)%_i64_scope.
#[global] Arguments i64_mul (a b)%_i64_scope.
#[global] Arguments i64_div (a b)%_i64_scope.
Infix "+" := i64_add : i64_scope.
Infix "-" := i64_sub : i64_scope.
Infix "*" := i64_mul : i64_scope.
Infix "/" := i64_div : i64_scope.

Create HintDb gate discriminated.

Lemma wrap64_small z : is_int64 z → wrap64 z = z.
Proof. unfold is_int64, wrap64, int64_min, int64_max. intros. rewrite Z.mod_small; lia. Qed.

Lemma wrap64_range z : is_int64 (wrap64 z).
Proof.
  unfold is_int64, wrap64, int64_min, int64_max.
  pose proof (Z.mod_pos_bound (z + 2 ^ 63) (2 ^ 64)). lia.
Qed.

Lemma wrap64_mod z : (wrap64 z `mod` 2 ^ 64 = z `mod` 2 ^ 64)%Z.
Proof. unfold wrap64. rewrite Zminus_mod_idemp_l. f_equal. lia. Qed.

Lemma wrap64_congr a b : (a `mod` 2 ^ 64 = b `mod` 2 ^ 64 → wrap64 a = wrap64 b)%Z.
Proof.
  intros E. unfold wrap64. rewrite <- (Zplus_mod_idemp_l a), <- (Zplus_mod_idemp_l b). by rewrite E.
Qed.

Lemma wrap64_add_l a b : (wrap64 (wrap64 a + b) = wrap64 (a + b))%Z.
Proof. apply wrap64_congr. rewrite <- Zplus_mod_idemp_l, wrap64_mod. by rewrite Zplus_mod_idemp_l. Qed.

Lemma wrap64_add a b : (wrap64 (wrap64 a + wrap64 b) = wrap64 (a + b))%Z.
Proof. rewrite wrap64_add_l, Z.add_comm, wrap64_add_l. f_equal. lia. Qed.

(** [i64] replaces wrapped operations by the operations on [Z] wherever [lia]
    sees that the result is in range. *)
Ltac i64_unfold :=
  unfold i64_add, i64_sub, i64_mul, i64_opp, i64_div, i64_rem in *.
Ltac i64_range := unfold is_int64, int64_min, int64_max in *; try lia; try nia.
Ltac i64_simp :=
  i64_unfold;
  repeat (rewrite wrap64_small by (i64_range)).

Lemma quot_div_pos a b : (0 ≤ a)%Z → (0 < b)%Z → Z.quot a b = (a `div` b)%Z.
Proof. intros. apply Z.quot_div_nonneg; lia. Qed.

(** ** Go integers and durations *)

(** [time.Duration] is a number of nanoseconds in an [int64]. *)
Definition Millisecond : Z := 1000000.
Definition Second : Z := 1000000000.
Definition Minute : Z := 60000000000.
Definition Hour : Z := 3600000000000.

(** [d.Milliseconds()]. *)
Definition Milliseconds (d : Z) : Z := (d / Millisecond)%i64.

(** [strconv.FormatInt(n, 10)]. *)
Definition itoa (n : Z) : string := pretty n.

(** ** Errors *)

(** A Go call that returns [(value, error)]. *)
Inductive result (E A : Type) : Type :=
| Ok (a : A)
| Err (e : E).
Arguments Ok {E A} _.
Arguments Err {E A} _.

(** ** Strings as character lists *)

Fixpoint chars (s : string) : list Ascii.ascii :=
  match s with
  | EmptyString => []
  | String c s => c :: chars s
  end.

Lemma chars_app s t : chars (s +:+ t) = chars s ++ chars t.
Proof. induction s as [|c s IH]; [done|]. by change (c :: chars (s +:+ t) = c :: (chars s ++ chars t)); rewrite IH. Qed.

#[export] Instance chars_inj : Inj (=) (=) chars.
Proof. intros s. induction s as [|c s IH]; intros [|d t] E; simplify_eq/=; [done|]. f_equal; auto. Qed.

(** White space, for ASCII strings. *)
Definition is_space (c : ascii) : bool :=
  (c =? " ")%char || (c =? "009")%char || (c =? "010")%char || (c =? "011")%char
  || (c =? "012")%char || (c =? "013")%char.

Fixpoint trim_left (s : string) : string :=
  match s with
  | String c s' => if is_space c then trim_left s' else s
  | EmptyString => EmptyString
  end.

Fixpoint trim_right (s : string) : string :=
  match s with
  | EmptyString => EmptyString
  | String c s' =>
      match trim_right s' with
      | EmptyString => if is_space c then EmptyString else String c EmptyString
      | t => String c t
      end
  end.

(** [strings.TrimSpace]. *)
Definition TrimSpace (s : string) : string := trim_right (trim_left s).

Definition has_char (c : Ascii.ascii) (s : string) : Prop := c ∈ chars s.

#[export] Instance has_char_dec c s : Decision (has_char c s).
Proof. unfold has_char. apply _. Defined.

Lemma trim_left_id s : match chars s with c :: _ => is_space c = false | [] => True end → trim_left s = s.
Proof. destruct s as [|c s]; [done|]. cbn. by intros ->. Qed.

Lemma trim_right_id s : forallb (λ c, negb (is_space c)) (chars s) = true → trim_right s = s.
Proof.
  induction s as [|c s IH]; [done|]. cbn [chars forallb]. intros [Hc%negb_true_iff Hs]%andb_true_iff.
  cbn [trim_right]. rewrite IH by done. destruct s; [by rewrite Hc|done].
Qed.

Lemma TrimSpace_id s : forallb (λ c, negb (is_space c)) (chars s) = true → TrimSpace s = s.
Proof.
  intros H. unfold TrimSpace. rewrite trim_left_id; [by apply trim_right_id|].
  destruct (chars s) as [|c l]; [done|]. cbn in H. apply andb_true_iff in H as [H _]. by apply negb_true_iff.
Qed.

Lemma has_char_app c a b : has_char c (a +:+ b) ↔ has_char c a ∨ has_char c b.
Proof. unfold has_char. by rewrite chars_app, elem_of_app. Qed.

Lemma forallb_elem {A} (f : A → bool) l x : forallb f l = true → x ∈ l → f x = true.
Proof. rewrite forallb_forall. intros H Hx. by apply H, list_elem_of_In. Qed.

(** Decide whether a literal contains a character. *)
Ltac no_char :=
  match goal with |- ¬ ?P => refine (bool_decide_eq_false_1 P _); vm_compute; reflexivity end.
Ltac yes_char :=
  match goal with |- ?P => refine (bool_decide_eq_true_1 P _); vm_compute; reflexivity end.

(** A separator that occurs in neither tail (or neither head) splits a string
    in one way only. *)
Lemma split_last {A} (c : A) (a b x y : list A) :
  c ∉ x → c ∉ y → a ++ c :: x = b ++ c :: y → a = b ∧ x = y.
Proof.
  intros Hx Hy. revert b. induction a as [|a0 a IH]; intros [|b0 b] E; cbn [app] in E.
  - by injection E.
  - injection E as -> ->. exfalso. apply Hx, elem_of_app. right. apply elem_of_cons. by left.
  - injection E as -> <-. exfalso. apply Hy, elem_of_app. right. apply elem_of_cons. by left.
  - injection E as -> E. destruct (IH _ E) as [-> ->]. done.
Qed.

Lemma split_first {A} (c : A) (a b x y : list A) :
  c ∉ a → c ∉ b → a ++ c :: x = b ++ c :: y → a = b ∧ x = y.
Proof.
  revert b. induction a as [|a0 a IH]; intros [|b0 b] Ha Hb E; cbn [app] in E.
  - by injection E.
  - injection E as -> _. exfalso. apply Hb, elem_of_cons. by left.
  - injection E as -> _. exfalso. apply Ha, elem_of_cons. by left.
  - injection E as -> E. apply not_elem_of_cons in Ha as [_ Ha], Hb as [_ Hb].
    destruct (IH b Ha Hb E) as [-> ->]. done.
Qed.

(** Decimal digits contain no separator. *)
Definition is_sep (c : Ascii.ascii) : Prop :=
  (c = ":" ∨ c = "{" ∨ c = "}" ∨ c = "_" ∨ c = "/" ∨ c = "=" ∨ c = "000" ∨ c = "#")%char.

Lemma pretty_N_char_sep c n : is_sep c → pretty_N_char n ≠ c.
Proof.
  unfold is_sep, pretty_N_char. intros Hc.
  repeat case_match; intros <-; naive_solver.
Qed.

Lemma pretty_N_go_sep c n s : is_sep c → ¬ has_char c s → ¬ has_char c (pretty_N_go n s).
Proof.
  intros Hc. revert s. induction (N.lt_wf_0 n) as [n _ IH]; intros s Hs.
  destruct (decide (n = 0%N)) as [->|Hn]; [done|].
  rewrite pretty_N_go_step by lia. apply IH; [apply N.div_lt; lia|].
  unfold has_char in *. cbn. intros [E|?]%elem_of_cons; [|done].
  by apply (pretty_N_char_sep c (n `mod` 10)%N).
Qed.

Lemma itoa_sep c n : is_sep c → ¬ has_char c (itoa n).
Proof.
  intros Hc. assert (Hp : ∀ p, ¬ has_char c (pretty (Npos p))).
  { intros p. unfold pretty, pretty_N. case_decide; [done|].
    apply pretty_N_go_sep; [done|]. unfold has_char. cbn. set_solver. }
  unfold itoa, pretty, pretty_Z. destruct n as [|p|p].
  - unfold has_char, is_sep in *. cbn. set_solver.
  - apply Hp.
  - unfold has_char in *. cbn. intros [->|?]%elem_of_cons.
    + unfold is_sep in Hc. naive_solver.
    + by apply (Hp p).
Qed.

#[export] Instance itoa_inj : Inj (=) (=) itoa.
Proof. unfold itoa. apply _. Qed.

(** [String.eqb] decided as a proposition. *)
Lemma eqb_spec_str (a b : string) : (a =? b)%string = true ↔ a = b.
Proof. apply String.eqb_eq. Qed.

(** ** Sums over lists *)

Local Open Scope Z_scope.

Definition sumZ {A} (f : A → Z) (l : list A) : Z := foldr (λ x n, f x + n) 0 l.

Lemma sumZ_perm {A} (f : A → Z) l l' : l ≡ₚ l' → sumZ f l = sumZ f l'.
Proof. unfold sumZ. induction 1; cbn; lia. Qed.

Lemma sumZ_add {A} (f g : A → Z) l : sumZ (λ x, f x + g x) l = sumZ f l + sumZ g l.
Proof. unfold sumZ. induction l; cbn; lia. Qed.

Lemma sumZ_le {A} (f g : A → Z) l : (∀ x, x ∈ l → f x ≤ g x) → sumZ f l ≤ sumZ g l.
Proof.
  unfold sumZ. induction l as [|x l IH]; intros H; cbn; [done|].
  pose proof (H x (list_elem_of_here _ _)). specialize (IH (λ y Hy, H y (list_elem_of_further _ _ _ Hy))).
  cbn in IH. lia.
Qed.

Lemma sumZ_ext {A} (f g : A → Z) l : (∀ x, x ∈ l → f x = g x) → sumZ f l = sumZ g l.
Proof. intros H. apply Z.le_antisymm; apply sumZ_le; intros x Hx; rewrite (H x Hx); done. Qed.

Lemma sumZ_nonneg {A} (f : A → Z) l : (∀ x, x ∈ l → 0 ≤ f x) → 0 ≤ sumZ f l.
Proof.
  intros H. transitivity (sumZ (λ _ : A, 0) l); [|by apply sumZ_le].
  clear. unfold sumZ. induction l; cbn; lia.
Qed.

(** Changing one term. *)
Lemma sumZ_update {A} `{EqDecision A} (f g : A → Z) l x :
  NoDup l → x ∈ l → (∀ y, y ≠ x → g y = f y) → sumZ g l = sumZ f l - f x + g x.
Proof.
  intros Hnd Hx Heq. induction Hnd as [|y l Hy Hnd IH]; [by apply elem_of_nil in Hx|].
  apply elem_of_cons in Hx as [->|Hx]; cbn.
  - assert (E : sumZ g l = sumZ f l) by (apply sumZ_ext; intros z Hz; apply Heq; by intros ->).
    unfold sumZ in *. lia.
  - specialize (IH Hx). assert (g y = f y) by (apply Heq; by intros ->). unfold sumZ in *. lia.
Qed.

Lemma sumZ_app {A} (f : A → Z) l l' : sumZ f (l ++ l') = sumZ f l + sumZ f l'.
Proof. unfold sumZ. induction l as [|x l IH]; cbn; [done|]. rewrite IH. lia. Qed.

Lemma sumZ_cons {A} (f : A → Z) x l : sumZ f (x :: l) = f x + sumZ f l.
Proof. done. Qed.

Lemma sumZ_fmap {A B} (f : B → Z) (g : A → B) l : sumZ f (g <$> l) = sumZ (λ x, f (g x)) l.
Proof. induction l as [|x l IH]; [done|]. rewrite fmap_cons, !sumZ_cons. by rewrite IH. Qed.

Lemma sumZ_insert {A} (f : A → Z) l i x y :
  l !! i = Some x → sumZ f (<[i := y]> l) = sumZ f l - f x + f y.
Proof.
  revert i. induction l as [|z l IH]; intros [|i] Hi; cbn in *; simplify_eq; [lia|].
  change (f z + sumZ f (<[i := y]> l) = f z + sumZ f l - f x + f y). rewrite (IH i) by done. lia.
Qed.

Lemma sumZ_delete {A} (f : A → Z) l i x :
  l !! i = Some x → sumZ f (delete i l) = sumZ f l - f x.
Proof.
  revert i. induction l as [|z l IH]; intros [|i] Hi; cbn in *; simplify_eq.
  - change (sumZ f l = f x + sumZ f l - f x). lia.
  - change (f z + sumZ f (delete i l) = f z + sumZ f l - f x). rewrite (IH i) by done. lia.
Qed.

Lemma sumZ_lookup_le {A} (f : A → Z) l i x :
  (∀ y, y ∈ l → 0 ≤ f y) → l !! i = Some x → f x ≤ sumZ f l.
Proof.
  intros Hf Hi. pose proof (sumZ_delete f l i x Hi) as E.
  assert (0 ≤ sumZ f (delete i l)).
  { apply sumZ_nonneg. intros y Hy. apply Hf. rewrite (delete_Permutation l i x Hi). by right. }
  lia.
Qed.

Lemma sumZ_map_insert {A} (f : string * A → Z) (m : gmap string A) i x :
  sumZ f (map_to_list (<[i := x]> m)) = f (i, x) + sumZ f (map_to_list (delete i m)).
Proof.
  rewrite <- insert_delete_eq. rewrite (sumZ_perm f _ _ (map_to_list_insert (delete i m) i x ltac:(apply lookup_delete_eq))).
  done.
Qed.

Lemma sumZ_map_delete {A} (f : string * A → Z) (m : gmap string A) i :
  sumZ f (map_to_list m) =
  match m !! i with Some x => f (i, x) | None => 0 end + sumZ f (map_to_list (delete i m)).
Proof.
  destruct (m !! i) as [x|] eqn:E.
  - by rewrite <- sumZ_map_insert, insert_id.
  - by rewrite delete_id.
Qed.

Lemma sumZ_omap {A B} (f : B → Z) (g : A → option B) l :
  sumZ f (omap g l) = sumZ (λ x, match g x with Some y => f y | None => 0 end) l.
Proof.
  unfold sumZ. induction l as [|x l IH]; cbn; [done|]. destruct (g x); cbn; by rewrite IH.
Qed.
