(* ===== verification/Float64.v ===== *)
(** * IEEE-754 binary64, as Go's [float64]

    The program counts in [int64] but stores counters, TATs and rates as
    [float64] ([packages/ledger/mem.go]: [vals map[string]float64]).  This file
    instantiates the Standard Library's executable specification of IEEE-754
    at binary64 and proves the facts the ledger's arithmetic rests on:
    integers of magnitude at most [2^53] are represented exactly, conversion
    back returns them, and sums that stay in that range are exact. *)

From S2P Require Import Prelude.
From Stdlib Require Import SpecFloat.

Local Open Scope Z_scope.

Abbreviation float64 := spec_float.

Definition f64_add : float64 → float64 → float64 := SFadd 53 1024.
Definition f64_sub : float64 → float64 → float64 := SFsub 53 1024.
Definition f64_mul : float64 → float64 → float64 := SFmul 53 1024.
Definition f64_div : float64 → float64 → float64 := SFdiv 53 1024.
Definition f64_ltb : float64 → float64 → bool := SFltb.
Definition f64_leb : float64 → float64 → bool := SFleb.
Definition f64_eqb : float64 → float64 → bool := SFeqb.
Definition f64_neg : float64 → float64 := SFopp.

(** [float64(n)]: round to nearest, ties to even. *)
Definition f64_of_int (n : Z) : float64 := binary_normalize 53 1024 n 0 false.

(** [m * 2^e] rounded to binary64: how a decimal constant is written here. *)
Definition f64_dyadic (m e : Z) : float64 := binary_normalize 53 1024 m e false.

(** [math.Floor] and [math.Ceil] ([Ceil x = -Floor (-x)]). *)
Definition f64_floor (x : float64) : float64 :=
  match x with
  | S754_finite s m e =>
      if 0 <=? e then x
      else binary_normalize 53 1024 (Z.shiftl (cond_Zopp s (Zpos m)) e) 0 s
  | _ => x
  end.
Definition f64_ceil (x : float64) : float64 := f64_neg (f64_floor (f64_neg x)).

(** [int64(x)] truncates towards zero.  Go leaves the result of an
    out-of-range conversion to the platform; on amd64 it is the smallest
    [int64]. *)
Definition f64_to_int (x : float64) : Z :=
  match x with
  | S754_zero _ => 0
  | S754_finite s m e =>
      let z := cond_Zopp s (Z.shiftl (Zpos m) e) in
      if (int64_min <=? z) && (z <=? int64_max) then z else int64_min
  | _ => int64_min
  end.

Definition f64_zero : float64 := S754_zero false.

(** [d.Seconds()]: whole seconds plus the fraction, as the time package adds
    them. *)
Definition Duration_Seconds (d : Z) : float64 :=
  f64_add (f64_of_int (d / Second)%i64)
          (f64_div (f64_of_int (i64_rem d Second)) (f64_of_int 1000000000)).

Definition f64_is_nan (x : float64) : bool := match x with S754_nan => true | _ => false end.
Definition f64_signbit (x : float64) : bool :=
  match x with
  | S754_zero s | S754_infinity s | S754_finite s _ _ => s
  | S754_nan => false
  end.

(** [math.Min] and [math.Max], with their special cases. *)
Definition f64_min (x y : float64) : float64 :=
  match x, y with
  | S754_infinity true, _ | _, S754_infinity true => S754_infinity true
  | S754_nan, _ | _, S754_nan => S754_nan
  | S754_zero s, S754_zero _ => if s then x else y
  | _, _ => if f64_ltb x y then x else y
  end.

Definition f64_max (x y : float64) : float64 :=
  match x, y with
  | S754_infinity false, _ | _, S754_infinity false => S754_infinity false
  | S754_nan, _ | _, S754_nan => S754_nan
  | S754_zero s, S754_zero _ => if s then y else x
  | _, _ => if f64_ltb y x then x else y
  end.

#[export] Instance location_eq_dec : EqDecision location.
Proof. solve_decision. Defined.

(** ** Shifts *)

Lemma iter_pos_nat {A} (f : A → A) p x : iter_pos f p x = Nat.iter (Pos.to_nat p) f x.
Proof.
  revert x. induction p as [p IH|p IH|]; intros x; cbn [iter_pos].
  - rewrite !IH, Pos2Nat.inj_xI, Nat.iter_succ_r. cbn [Nat.mul Nat.add].
    rewrite Nat.add_0_r, Nat.iter_add. done.
  - rewrite !IH, Pos2Nat.inj_xO. cbn [Nat.mul]. rewrite Nat.add_0_r, Nat.iter_add. done.
  - done.
Qed.

Lemma digits2_log2 p : Zpos (digits2_pos p) = Z.log2 (Zpos p) + 1.
Proof.
  induction p as [p IH|p IH|]; cbn [digits2_pos]; [..|done].
  - rewrite Pos2Z.inj_succ, IH, (Pos2Z.inj_xI p), Z.log2_succ_double by lia. lia.
  - rewrite Pos2Z.inj_succ, IH, (Pos2Z.inj_xO p), Z.log2_double by lia. lia.
Qed.

Lemma shr_1_m mrs : 0 ≤ shr_m mrs → shr_m (shr_1 mrs) = shr_m mrs `div` 2.
Proof.
  destruct mrs as [[|[p|p|]|p] r s]; cbn; intros; try lia; try done.
  - rewrite (Pos2Z.inj_xI p). rewrite <- (Z.div_unique_pos _ 2 (Zpos p) 1); lia.
  - rewrite (Pos2Z.inj_xO p). rewrite <- (Z.div_unique_pos _ 2 (Zpos p) 0); lia.
Qed.

Lemma shr_iter_m n mrs :
  0 ≤ shr_m mrs → shr_m (Nat.iter n shr_1 mrs) = shr_m mrs `div` 2 ^ Z.of_nat n.
Proof.
  intros Hm. induction n as [|n IH]; [by rewrite Z.div_1_r|].
  rewrite Nat.iter_succ, shr_1_m; rewrite IH.
  - rewrite Z.div_div by lia. f_equal. rewrite Nat2Z.inj_succ, Z.pow_succ_r; lia.
  - apply Z.div_pos; lia.
Qed.

Lemma shr_iter_exact n m :
  0 < m → Nat.iter n shr_1 (Build_shr_record (m * 2 ^ Z.of_nat n) false false)
          = Build_shr_record m false false.
Proof.
  revert m. induction n as [|n IH]; intros m Hm.
  - cbn. by rewrite Z.mul_1_r.
  - rewrite Nat.iter_succ. rewrite Nat2Z.inj_succ, Z.pow_succ_r by lia.
    replace (m * (2 * 2 ^ Z.of_nat n)) with ((2 * m) * 2 ^ Z.of_nat n) by ring.
    rewrite IH by lia. destruct m as [|p|p]; try lia. done.
Qed.

Abbreviation fexp64 := (fexp 53 1024).

Lemma fexp64_unfold e : fexp64 e = Z.max (e - 53) (-1074).
Proof. reflexivity. Qed.

(** ** Exact rounding *)

Section exact.
Variables (m m' : positive) (e : Z).
Abbreviation k := (fexp64 (Zpos (digits2_pos m) + e)).

Lemma shr_fexp_exact :
  e ≤ k → Zpos m = Zpos m' * 2 ^ (k - e) →
  shr_fexp 53 1024 (Zpos m) e loc_Exact = (Build_shr_record (Zpos m') false false, k).
Proof.
  intros Hle Hm. unfold shr_fexp, shr. cbn [shr_record_of_loc Zdigits2].
  destruct (k - e) as [|p|p] eqn:Hd; [| |lia].
  - rewrite Hm, Z.mul_1_r. f_equal. lia.
  - f_equal; [|lia].
    rewrite iter_pos_nat, Hm, <- (positive_nat_Z p). apply shr_iter_exact. lia.
Qed.

Lemma round_aux_exact s :
  e ≤ k → k ≤ 971 → Zpos m = Zpos m' * 2 ^ (k - e) →
  binary_round_aux 53 1024 s (Zpos m) e loc_Exact = S754_finite s m' k.
Proof.
  intros Hle Hk Hm. unfold binary_round_aux.
  rewrite shr_fexp_exact by done. cbn [shr_m loc_of_shr_record round_nearest_even].
  assert (Hdig : Zpos (digits2_pos m') + k = Zpos (digits2_pos m) + e).
  { pose proof (f_equal Z.log2 Hm) as Hlog. rewrite Z.log2_mul_pow2 in Hlog by lia.
    rewrite (digits2_log2 m'). pose proof (digits2_log2 m). lia. }
  unfold shr_fexp at 1. cbn [Zdigits2 shr_record_of_loc].
  rewrite Hdig, Z.sub_diag. cbn [shr shr_m].
  rewrite (proj2 (Z.leb_le _ _)); [done|]. lia.
Qed.
End exact.

Lemma pos_iter_xO m d : Zpos (Pos.iter xO m d) = Zpos m * 2 ^ Zpos d.
Proof.
  induction d as [|d IH] using Pos.peano_ind; [cbn; lia|].
  rewrite Pos.iter_succ, Pos2Z.inj_xO, IH, Pos2Z.inj_succ, Z.pow_succ_r; lia.
Qed.

(** A number that fits the mantissa is not rounded: [round_exact] covers both
    directions of the shift to the canonical exponent. *)
Lemma round_exact s m e m' :
  let k := fexp64 (Zpos (digits2_pos m) + e) in
  k ≤ 971 →
  (e ≤ k → Zpos m = Zpos m' * 2 ^ (k - e)) →
  (k < e → Zpos m' = Zpos m * 2 ^ (e - k)) →
  binary_round 53 1024 s m e = S754_finite s m' k.
Proof.
  intros k Hk Hr Hl. unfold binary_round, shl_align. fold k.
  destruct (Z.le_gt_cases e k) as [Hle|Hgt].
  - assert (Heq : match k - e with Zneg d => (Pos.iter xO m d, k) | _ => (m, e) end = (m, e))
      by (destruct (k - e) eqn:E; [done..|lia]).
    rewrite Heq. apply round_aux_exact; auto.
  - destruct (k - e) as [|p|p] eqn:E; try lia.
    specialize (Hl Hgt). replace (e - k) with (Zpos p) in Hl by lia.
    rewrite <- pos_iter_xO in Hl. injection Hl as ->.
    assert (Hdig : Zpos (digits2_pos (Pos.iter xO m p)) + k = Zpos (digits2_pos m) + e).
    { rewrite (digits2_log2 (Pos.iter xO m p)), pos_iter_xO, Z.log2_mul_pow2 by lia.
      pose proof (digits2_log2 m). lia. }
    transitivity (S754_finite s (Pos.iter xO m p)
                    (fexp64 (Zpos (digits2_pos (Pos.iter xO m p)) + k))).
    + apply round_aux_exact; rewrite Hdig; fold k; [lia|done|]. rewrite Z.sub_diag. lia.
    + by rewrite Hdig.
Qed.

(** ** Integers *)

(** The mantissa and exponent of an integer with at most 53 significant bits. *)
Definition norm_m (n : Z) : Z := Z.shiftl n (52 - Z.log2 n).
Definition norm_e (n : Z) : Z := Z.log2 n - 52.

(** [is_val m e n]: [m * 2^e] is the integer [n]. *)
Definition is_val (m e n : Z) : Prop :=
  (0 ≤ e → n = m * 2 ^ e) ∧ (e < 0 → m = n * 2 ^ (- e)).

Definition f64_max_int : Z := 9007199254740992.

Lemma is_val_log2 m e n : 0 < m → 0 < n → is_val m e n → Z.log2 n = Z.log2 m + e.
Proof.
  intros Hm Hn [Hp Hneg]. destruct (Z.le_gt_cases 0 e) as [He|He].
  - rewrite Hp, Z.log2_mul_pow2 by lia. lia.
  - rewrite Hneg by lia. rewrite Z.log2_mul_pow2 by lia. lia.
Qed.

Lemma log2_max_int n : 0 < n ≤ f64_max_int → 0 ≤ Z.log2 n ≤ 53 ∧ (Z.log2 n = 53 → n = f64_max_int).
Proof.
  unfold f64_max_int. intros [Hn Hle]. split.
  - split; [apply Z.log2_nonneg|]. apply (Z.log2_le_mono n (2 ^ 53)). lia.
  - intros E. pose proof (Z.log2_spec n Hn) as [Hl _]. rewrite E in Hl. lia.
Qed.

Lemma norm_m_pos n : 0 < n ≤ f64_max_int → 0 < norm_m n.
Proof.
  intros Hn. destruct (log2_max_int n Hn) as [[H0 Hl] Heq]. unfold norm_m.
  destruct (decide (Z.log2 n = 53)) as [E|E].
  - rewrite (Heq E). by vm_compute.
  - rewrite Z.shiftl_mul_pow2 by lia. apply Z.mul_pos_pos; lia.
Qed.

Lemma norm_is_val n : 0 < n ≤ f64_max_int → is_val (norm_m n) (norm_e n) n.
Proof.
  intros Hn. destruct (log2_max_int n Hn) as [[H0 Hl] Heq]. unfold norm_m, norm_e, is_val.
  destruct (decide (Z.log2 n = 53)) as [E|E].
  - rewrite (Heq E). split; vm_compute; congruence.
  - split; intros He.
    + assert (E52 : Z.log2 n = 52) by lia. rewrite E52, Z.shiftl_mul_pow2 by lia. cbn. lia.
    + rewrite Z.shiftl_mul_pow2 by lia. f_equal. f_equal. lia.
Qed.

Section integers.
Variables (m : positive) (e n : Z).
Hypothesis Hn : 0 < n ≤ f64_max_int.
Hypothesis Hv : is_val (Zpos m) e n.

Lemma digits_val : fexp64 (Zpos (digits2_pos m) + e) = norm_e n.
Proof using Hn Hv.
  destruct (log2_max_int n Hn) as [[H0 Hl] Heq].
  rewrite fexp64_unfold, digits2_log2. unfold norm_e.
  rewrite (is_val_log2 (Zpos m) e n) by (done || lia).
  rewrite (is_val_log2 (Zpos m) e n) in H0 by (done || lia). lia.
Qed.

(** Two ways of writing the same number agree after alignment. *)
Lemma val_align :
  (e ≤ norm_e n → Zpos m = norm_m n * 2 ^ (norm_e n - e)) ∧
  (norm_e n < e → norm_m n = Zpos m * 2 ^ (e - norm_e n)).
Proof using Hn Hv.
  destruct (norm_is_val n Hn) as [Hp Hneg]. destruct Hv as [Hvp Hvn].
  revert Hp Hneg. generalize (norm_m n) as M, (norm_e n) as k. intros M k Hp Hneg.
  assert (Hmul : ∀ a b, 0 ≤ a → 0 ≤ b → 2 ^ (a + b) = 2 ^ a * 2 ^ b)
    by (intros; apply Z.pow_add_r; lia).
  destruct (Z.le_gt_cases 0 e) as [He|He]; destruct (Z.le_gt_cases 0 k) as [Hk|Hk];
    split; intros Hle; try lia.
  - specialize (Hvp He). specialize (Hp Hk).
    replace k with ((k - e) + e) in Hp by lia. rewrite Hmul in Hp by lia.
    apply (Z.mul_reg_r _ _ (2 ^ e)); lia.
  - specialize (Hvp He). specialize (Hp Hk).
    replace e with ((e - k) + k) in Hvp by lia. rewrite Hmul in Hvp by lia.
    apply (Z.mul_reg_r _ _ (2 ^ k)); lia.
  - rewrite (Hneg Hk), (Hvp He), <- Z.mul_assoc, <- Hmul by lia. by rewrite Z.add_opp_r.
  - rewrite (Hvn He), (Hp Hk), <- Z.mul_assoc, <- Hmul by lia. by rewrite Z.add_opp_r.
  - rewrite (Hvn He), (Hneg Hk), <- Z.mul_assoc, <- Hmul by lia. do 2 f_equal; lia.
  - rewrite (Hneg Hk), (Hvn He), <- Z.mul_assoc, <- Hmul by lia. do 2 f_equal; lia.
Qed.

Lemma norm_e_le : norm_e n ≤ 971.
Proof using Hn. destruct (log2_max_int n Hn). unfold norm_e. lia. Qed.

Lemma round_int s :
  binary_round 53 1024 s m e = S754_finite s (Z.to_pos (norm_m n)) (norm_e n).
Proof using Hn Hv.
  pose proof val_align as [Hr Hl]. pose proof norm_e_le. pose proof (norm_m_pos n Hn).
  rewrite <- digits_val in *. apply round_exact; rewrite ?Z2Pos.id by done; auto.
Qed.

Lemma round_aux_int s :
  e ≤ norm_e n →
  binary_round_aux 53 1024 s (Zpos m) e loc_Exact
  = S754_finite s (Z.to_pos (norm_m n)) (norm_e n).
Proof using Hn Hv.
  pose proof val_align as [Hr Hl]. pose proof norm_e_le. pose proof (norm_m_pos n Hn).
  rewrite <- digits_val in *. intros. apply round_aux_exact; rewrite ?Z2Pos.id by done; auto.
Qed.
End integers.

Definition f64_small (n : Z) : Prop := - f64_max_int ≤ n ≤ f64_max_int.

Lemma is_val_opp z e n : is_val z e n → is_val (- z) e (- n).
Proof. intros [Hp Hn]. split; intros He; [rewrite Hp by done|rewrite Hn by done]; ring. Qed.

Lemma is_val_add z1 z2 e n1 n2 :
  is_val z1 e n1 → is_val z2 e n2 → is_val (z1 + z2) e (n1 + n2).
Proof.
  intros [Hp1 Hn1] [Hp2 Hn2]. split; intros He.
  - rewrite Hp1, Hp2 by done. ring.
  - rewrite Hn1, Hn2 by done. ring.
Qed.

Lemma is_val_align z e e' n : e' ≤ e → is_val z e n → is_val (z * 2 ^ (e - e')) e' n.
Proof.
  intros Hle [Hp Hn]. split; intros He.
  - rewrite Hp, <- Z.mul_assoc, <- Z.pow_add_r by lia. do 2 f_equal; lia.
  - destruct (Z.le_gt_cases 0 e) as [He0|He0].
    + rewrite Hp, <- Z.mul_assoc, <- Z.pow_add_r by lia. do 2 f_equal; lia.
    + rewrite Hn, <- Z.mul_assoc, <- Z.pow_add_r by lia. do 2 f_equal; lia.
Qed.

Lemma is_val_sgn z e n : is_val z e n → Z.sgn z = Z.sgn n.
Proof.
  intros [Hp Hn]. destruct (Z.le_gt_cases 0 e) as [He|He].
  - rewrite Hp, Z.sgn_mul by done. rewrite (Z.sgn_pos (2 ^ e)) by lia. lia.
  - rewrite Hn, Z.sgn_mul by done. rewrite (Z.sgn_pos (2 ^ (- e))) by lia. lia.
Qed.

Lemma is_val_0 n : is_val n 0 n.
Proof. split; intros; lia. Qed.

Lemma round_pos_val s p e n :
  0 < n ≤ f64_max_int → is_val (Zpos p) e n →
  binary_round 53 1024 s p e = binary_round 53 1024 s (Z.to_pos n) 0.
Proof.
  intros Hn Hv. rewrite (round_int p e n) by done. rewrite (round_int _ 0 n); try done.
  rewrite Z2Pos.id by lia. apply is_val_0.
Qed.

(** Every way of writing a small integer as [z * 2^e] rounds to [float64(n)]. *)
Lemma normalize_val z e n :
  f64_small n → is_val z e n → binary_normalize 53 1024 z e false = f64_of_int n.
Proof.
  unfold f64_small. intros Hn Hv. pose proof (is_val_sgn _ _ _ Hv) as Hs.
  unfold f64_of_int. destruct z as [|p|p], n as [|q|q]; try done; cbn [binary_normalize].
  - rewrite (round_pos_val _ _ _ (Zpos q)) by (done || lia). done.
  - apply is_val_opp in Hv. cbn [Z.opp] in Hv.
    rewrite (round_pos_val _ _ _ (Zpos q)) by (done || lia). done.
Qed.

Lemma f64_of_int_finite n :
  f64_small n → n ≠ 0 →
  ∃ s m e, f64_of_int n = S754_finite s m e ∧ is_val (cond_Zopp s (Zpos m)) e n.
Proof.
  unfold f64_small. intros Hn Hnz. destruct n as [|q|q]; [done|..].
  - assert (Hq : 0 < Zpos q ≤ f64_max_int) by lia.
    exists false, (Z.to_pos (norm_m (Zpos q))), (norm_e (Zpos q)). split.
    + apply round_int; [done|apply is_val_0].
    + cbn. rewrite Z2Pos.id by (by apply norm_m_pos). by apply norm_is_val.
  - assert (Hq : 0 < Zpos q ≤ f64_max_int) by lia.
    exists true, (Z.to_pos (norm_m (Zpos q))), (norm_e (Zpos q)). split.
    + apply round_int; [done|apply is_val_0].
    + cbn [cond_Zopp]. rewrite Z2Pos.id by (by apply norm_m_pos).
      apply (is_val_opp _ _ (Zpos q)). by apply norm_is_val.
Qed.

Lemma f64_of_int_0 : f64_of_int 0 = f64_zero.
Proof. done. Qed.

Lemma is_val_shiftl m e n : 0 ≤ m → is_val m e n → Z.shiftl m e = n.
Proof.
  intros Hm [Hp Hn]. destruct (Z.le_gt_cases 0 e) as [He|He].
  - rewrite Z.shiftl_mul_pow2 by done. symmetry. by apply Hp.
  - rewrite Hn by done. rewrite Z.shiftl_div_pow2 by lia. apply Z.div_mul. lia.
Qed.

(** Conversion to [float64] and back is the identity up to [2^53]. *)
Lemma f64_to_of_int n : f64_small n → f64_to_int (f64_of_int n) = n.
Proof.
  intros Hn. destruct (decide (n = 0)) as [->|Hnz]; [done|].
  destruct (f64_of_int_finite n Hn Hnz) as (s & m & e & -> & Hv). cbn [f64_to_int].
  assert (Hz : cond_Zopp s (Z.shiftl (Zpos m) e) = n).
  { destruct s; cbn [cond_Zopp] in *.
    - apply is_val_opp in Hv. rewrite Z.opp_involutive in Hv.
      rewrite (is_val_shiftl _ _ (- n)); [lia|lia|done].
    - apply is_val_shiftl; [lia|done]. }
  rewrite Hz. unfold f64_small, f64_max_int, int64_min, int64_max in *.
  rewrite !(proj2 (Z.leb_le _ _)) by lia. done.
Qed.

Lemma f64_of_int_inj a b : f64_small a → f64_small b → f64_of_int a = f64_of_int b → a = b.
Proof. intros Ha Hb E. rewrite <- (f64_to_of_int a Ha), E. by apply f64_to_of_int. Qed.

Lemma shl_align_val m e e' : e' ≤ e → Zpos (fst (shl_align m e e')) = Zpos m * 2 ^ (e - e').
Proof.
  intros Hle. unfold shl_align. destruct (e' - e) as [|p|p] eqn:E; cbn [fst]; try lia.
  - replace (e - e') with 0 by lia. lia.
  - rewrite pos_iter_xO. do 2 f_equal; lia.
Qed.

Lemma align_val s m e e' n :
  e' ≤ e → is_val (cond_Zopp s (Zpos m)) e n →
  is_val (cond_Zopp s (Zpos (fst (shl_align m e e')))) e' n.
Proof.
  intros Hle Hv. rewrite shl_align_val by done.
  replace (cond_Zopp s (Zpos m * 2 ^ (e - e'))) with (cond_Zopp s (Zpos m) * 2 ^ (e - e'))
    by (destruct s; cbn [cond_Zopp]; ring).
  by apply is_val_align.
Qed.

(** Sums and differences of integers are exact while they stay within [2^53]. *)
Lemma f64_add_int a b :
  f64_small a → f64_small b → f64_small (a + b) →
  f64_add (f64_of_int a) (f64_of_int b) = f64_of_int (a + b).
Proof.
  intros Ha Hb Hab.
  destruct (decide (a = 0)) as [->|Ha0].
  { destruct (decide (b = 0)) as [->|Hb0]; [done|].
    destruct (f64_of_int_finite b Hb Hb0) as (s & m & e & E & Hv).
    cbn [Z.add]. rewrite E. done. }
  destruct (f64_of_int_finite a Ha Ha0) as (sa & ma & ea & Ea & Hva).
  destruct (decide (b = 0)) as [->|Hb0]; [rewrite Z.add_0_r, Ea; done|].
  destruct (f64_of_int_finite b Hb Hb0) as (sb & mb & eb & Eb & Hvb).
  rewrite Ea, Eb. cbn [f64_add SFadd]. unfold f64_add, SFadd.
  apply normalize_val; [done|]. apply is_val_add; apply align_val; (done || lia).
Qed.

Lemma f64_sub_int a b :
  f64_small a → f64_small b → f64_small (a - b) →
  f64_sub (f64_of_int a) (f64_of_int b) = f64_of_int (a - b).
Proof.
  intros Ha Hb Hab.
  destruct (decide (b = 0)) as [->|Hb0].
  { rewrite Z.sub_0_r. destruct (decide (a = 0)) as [->|Ha0]; [done|].
    destruct (f64_of_int_finite a Ha Ha0) as (s & m & e & E & Hv). by rewrite E. }
  destruct (f64_of_int_finite b Hb Hb0) as (sb & mb & eb & Eb & Hvb).
  destruct (decide (a = 0)) as [->|Ha0].
  { unfold f64_small in Hb, Hab. rewrite Z.sub_0_l in *. destruct b as [|q|q]; [done|..];
      cbv beta iota delta [f64_of_int f64_sub Z.opp binary_normalize];
      assert (Hq : 0 < Zpos q ≤ f64_max_int) by lia;
      rewrite !(round_int q 0 (Zpos q) Hq (is_val_0 _)); reflexivity. }
  destruct (f64_of_int_finite a Ha Ha0) as (sa & ma & ea & Ea & Hva).
  rewrite Ea, Eb. unfold f64_sub, SFsub.
  apply normalize_val; [done|]. rewrite <- Z.add_opp_r, <- (Z.add_opp_r a b).
  apply is_val_add; [|apply is_val_opp]; apply align_val; (done || lia).
Qed.

(** ** Rounding does not cross an integer

    [val_le m e n]: [m * 2^e <= n].  A nonnegative quantity that is at most an
    integer [n <= 2^53] is still at most [n] after rounding. *)

Definition val_le (m e n : Z) : Prop :=
  (0 ≤ e → m * 2 ^ e ≤ n) ∧ (e < 0 → m ≤ n * 2 ^ (- e)).

Definition in_0_n (x : float64) (n : Z) : Prop :=
  match x with
  | S754_zero false => True
  | S754_finite false m e => val_le (Zpos m) e n
  | _ => False
  end.

Lemma pow2_split a b : 0 ≤ a → 0 ≤ b → 2 ^ (a + b) = 2 ^ a * 2 ^ b.
Proof. intros. apply Z.pow_add_r; lia. Qed.

Lemma val_le_shr m e n d : 0 ≤ d → val_le m (e + d) n ↔ val_le (m * 2 ^ d) e n.
Proof.
  intros Hd. unfold val_le. assert (0 < 2 ^ d) by lia.
  destruct (Z.le_gt_cases 0 e) as [He|He]; [|destruct (Z.le_gt_cases 0 (e + d)) as [Hed|Hed]].
  - assert (E : m * 2 ^ (e + d) = m * 2 ^ d * 2 ^ e) by (rewrite pow2_split by lia; ring).
    split; intros [H1 H2]; split; intros; try lia; specialize (H1 ltac:(lia)); lia.
  - assert (E : m * 2 ^ d = m * 2 ^ (e + d) * 2 ^ (- e)).
    { rewrite <- Z.mul_assoc, <- pow2_split by lia. do 2 f_equal; lia. }
    assert (0 < 2 ^ (- e)) by lia. rewrite E.
    split; intros [H1 H2]; split; intros; try lia.
    + apply Z.mul_le_mono_nonneg_r; [lia|]. by apply H1.
    + specialize (H2 He). by apply Z.mul_le_mono_pos_r in H2.
  - assert (E : n * 2 ^ (- e) = n * 2 ^ (- (e + d)) * 2 ^ d).
    { rewrite <- Z.mul_assoc, <- pow2_split by lia. do 2 f_equal; lia. }
    rewrite E. split; intros [H1 H2]; split; intros; try lia.
    + apply Z.mul_le_mono_nonneg_r; [lia|]. by apply H2.
    + specialize (H2 He). by apply Z.mul_le_mono_pos_r in H2.
Qed.

Lemma val_le_mono m m' e n : m ≤ m' → val_le m' e n → val_le m e n.
Proof.
  intros Hm [H1 H2]. split; intros He; [specialize (H1 He)|specialize (H2 He); lia].
  assert (0 < 2 ^ e) by lia. nia.
Qed.

(** The exponent a quantity at most [n] is rounded at divides [n]. *)
Lemma round_exp_small m e n :
  0 < m → 0 < n ≤ f64_max_int → val_le m e n →
  let k := fexp64 (Z.log2 m + 1 + e) in
  k ≤ 0 ∨ (k = 1 ∧ n = f64_max_int).
Proof.
  intros Hm Hn Hv. cbn zeta. rewrite fexp64_unfold.
  destruct (Z.le_gt_cases (Z.log2 m + e) 52) as [Hle|Hgt]; [left; lia|].
  pose proof (Z.log2_spec m Hm) as [Hl _]. right.
  apply (val_le_mono _ _ _ _ Hl) in Hv.
  assert (Hn2 : 2 ^ (Z.log2 m + e) ≤ n).
  { destruct Hv as [H1 H2]. destruct (Z.le_gt_cases 0 e) as [He|He].
    - rewrite pow2_split by (pose proof (Z.log2_nonneg m); lia). by apply H1.
    - specialize (H2 He). replace (Z.log2 m) with ((Z.log2 m + e) + - e) in H2 at 1 by lia.
      rewrite pow2_split in H2 by lia. apply Z.mul_le_mono_pos_r in H2; [done|lia]. }
  unfold f64_max_int in *.
  assert (Z.log2 m + e < 54).
  { destruct (Z.lt_ge_cases (Z.log2 m + e) 54); [done|].
    assert (2 ^ 54 ≤ 2 ^ (Z.log2 m + e)) by (apply Z.pow_le_mono_r; lia). lia. }
  assert (E : Z.log2 m + e = 53) by lia. rewrite E in Hn2. split; lia.
Qed.

Lemma shr_fexp_m m e l :
  0 ≤ m →
  let d := Z.max 0 (fexp64 (Zdigits2 m + e) - e) in
  shr_m (fst (shr_fexp 53 1024 m e l)) = m `div` 2 ^ d ∧ snd (shr_fexp 53 1024 m e l) = e + d.
Proof.
  intros Hm. cbn zeta. unfold shr_fexp, shr.
  assert (Hrec : shr_m (shr_record_of_loc m l) = m) by (by destruct l as [|[]]).
  destruct (fexp64 (Zdigits2 m + e) - e) as [|p|p]; cbn [fst snd].
  - rewrite Hrec, Z.div_1_r. lia.
  - rewrite iter_pos_nat, shr_iter_m by (rewrite Hrec; lia). rewrite Hrec, positive_nat_Z. done.
  - rewrite Hrec. cbn. rewrite Z.div_1_r. lia.
Qed.

Lemma val_le_div m e n d : 0 ≤ m → 0 ≤ d → val_le m e n → val_le (m `div` 2 ^ d) (e + d) n.
Proof.
  intros Hm Hd Hv. apply val_le_shr; [done|]. eapply val_le_mono; [|done].
  rewrite Z.mul_comm. apply Z.mul_div_le. lia.
Qed.

Lemma val_le_exp m e n : 0 < m → 0 < n ≤ f64_max_int → val_le m e n → e ≤ 53.
Proof.
  unfold f64_max_int. intros Hm Hn [H1 _]. destruct (Z.le_gt_cases e 53) as [|Hgt]; [done|].
  specialize (H1 ltac:(lia)). assert (2 ^ 54 ≤ 2 ^ e) by (apply Z.pow_le_mono_r; lia). nia.
Qed.

(** The renormalisation after rounding keeps the bound. *)
Lemma renorm_le m e n :
  0 ≤ m → 0 < n ≤ f64_max_int → val_le m e n →
  in_0_n (let '(mrs, e') := shr_fexp 53 1024 m e loc_Exact in
          match shr_m mrs with
          | Z0 => S754_zero false
          | Zpos m => if Z.leb e' (Z.sub 1024 53) then S754_finite false m e' else S754_infinity false
          | _ => S754_nan
          end) n.
Proof.
  intros Hm Hn Hv. pose proof (shr_fexp_m m e loc_Exact Hm) as [Hsm Hse].
  set (d := Z.max 0 _) in *. pose proof (val_le_div m e n d Hm ltac:(lia) Hv) as Hd.
  assert (Hp : 0 ≤ m `div` 2 ^ d) by (apply Z.div_pos; lia).
  destruct (shr_fexp 53 1024 m e loc_Exact) as [mrs e']. cbn [fst snd] in *. subst e'.
  rewrite <- Hsm in Hd, Hp. destruct (shr_m mrs) as [|q|q]; [done| |lia].
  pose proof (val_le_exp (Zpos q) (e + d) n ltac:(lia) Hn Hd).
  rewrite (proj2 (Z.leb_le _ _)) by lia. done.
Qed.

Lemma round_nearest_even_le m l n e :
  val_le m e n → (l ≠ loc_Exact → val_le (m + 1) e n) → val_le (round_nearest_even m l) e n.
Proof.
  intros Hm Hl. destruct l as [|[]]; cbn; try done; [destruct (Z.even m); [done|]|]; by apply Hl.
Qed.

Lemma round_nearest_even_pos m l : 0 ≤ m → 0 ≤ round_nearest_even m l.
Proof. destruct l as [|[]]; cbn; try lia. destruct (Z.even m); lia. Qed.

Lemma loc_of_record m l : loc_of_shr_record (shr_record_of_loc m l) = l.
Proof. by destruct l as [|[]]. Qed.

(** An integer [n] seen at an exponent that divides it. *)
Lemma val_le_at k n N m d :
  0 ≤ d → is_val N k n → val_le m (k - d) n ↔ m ≤ N * 2 ^ d.
Proof.
  intros Hd [Hp Hneg]. unfold val_le.
  destruct (Z.le_gt_cases 0 k) as [Hk|Hk].
  - specialize (Hp Hk). subst n. destruct (Z.le_gt_cases 0 (k - d)) as [Hkd|Hkd].
    + assert (E : N * 2 ^ k = N * 2 ^ d * 2 ^ (k - d)).
      { rewrite <- Z.mul_assoc, <- pow2_split by lia. do 2 f_equal; lia. }
      rewrite E. split.
      * intros [H1 _]. specialize (H1 Hkd). apply Z.mul_le_mono_pos_r in H1; [done|lia].
      * intros Hm. split; [|lia]. intros _. apply Z.mul_le_mono_nonneg_r; [lia|done].
    + assert (E : N * 2 ^ k * 2 ^ (- (k - d)) = N * 2 ^ d).
      { rewrite <- Z.mul_assoc, <- pow2_split by lia. do 2 f_equal; lia. }
      rewrite E. split; [intros [_ H2]; by apply H2|]. intros Hm. split; [lia|done].
  - specialize (Hneg Hk). subst N.
    assert (E : n * 2 ^ (- (k - d)) = n * 2 ^ (- k) * 2 ^ d).
    { rewrite <- Z.mul_assoc, <- pow2_split by lia. do 2 f_equal; lia. }
    rewrite E. split; [intros [_ H2]; apply H2; lia|]. intros Hm. split; [lia|done].
Qed.

Lemma divides_at k n : 0 < n → k ≤ 0 ∨ (k = 1 ∧ n = f64_max_int) → ∃ N, is_val N k n.
Proof.
  intros Hn [Hk|[-> ->]].
  - exists (n * 2 ^ (- k)). destruct (Z.eq_dec k 0) as [->|]; split; intros; lia.
  - exists 4503599627370496. split; vm_compute; congruence.
Qed.

Lemma round_aux_le m e l n :
  0 < m → 0 < n ≤ f64_max_int → val_le m e n → (l ≠ loc_Exact → val_le (m + 1) e n) →
  in_0_n (binary_round_aux 53 1024 false m e l) n.
Proof.
  intros Hm Hn Hv Hl. unfold binary_round_aux.
  pose proof (round_exp_small m e n Hm Hn Hv) as Hk. cbn zeta in Hk.
  pose proof (shr_fexp_m m e l ltac:(lia)) as [Hsm Hse].
  assert (Hdig : Zdigits2 m = Z.log2 m + 1) by (destruct m; [lia|apply digits2_log2|lia]).
  rewrite <- Hdig in Hk. unfold shr_fexp in *. rewrite Hdig in *.
  set (k := fexp64 (Z.log2 m + 1 + e)) in *.
  destruct (shr (shr_record_of_loc m l) e (k - e)) as [mrs e1] eqn:Hs. cbn [fst snd] in *.
  apply renorm_le; [apply round_nearest_even_pos; rewrite Hsm; apply Z.div_pos; lia|done|].
  subst e1. rewrite Hsm. unfold shr in Hs.
  destruct (Z.le_gt_cases k e) as [Hle|Hgt].
  - rewrite Z.max_l in * by lia. rewrite Z.div_1_r, Z.add_0_r in *.
    assert (mrs = shr_record_of_loc m l) as -> by (destruct (k - e) eqn:E; [congruence|lia|congruence]).
    rewrite loc_of_record. by apply round_nearest_even_le.
  - rewrite Z.max_r in * by lia. replace (e + (k - e)) with k by lia.
    destruct (divides_at k n ltac:(lia) Hk) as [N HN].
    pose proof (val_le_at k n N m (k - e) ltac:(lia) HN) as Hat.
    pose proof (val_le_at k n N (m + 1) (k - e) ltac:(lia) HN) as Hat1.
    replace (k - (k - e)) with e in Hat, Hat1 by lia. apply Hat in Hv. rewrite Hat1 in Hl.
    pose proof (val_le_at k n N) as H0. specialize (λ x, H0 x 0 ltac:(lia) HN) as H0.
    rewrite Z.sub_0_r, Z.pow_0_r, Z.mul_1_r in H0.
    assert (Hpow : 0 < 2 ^ (k - e)) by lia.
    apply round_nearest_even_le; [apply H0|intros Hinex; apply H0].
    + apply Z.div_le_upper_bound; lia.
    + apply Z.le_succ_l. apply Z.nle_gt. intros HNle.
      assert (Hge : N * 2 ^ (k - e) ≤ m).
      { etrans; [apply Z.mul_le_mono_nonneg_r; [lia|exact HNle]|].
        rewrite Z.mul_comm. apply Z.mul_div_le. lia. }
      assert (Em : m = N * 2 ^ (k - e)) by lia.
      destruct (decide (l = loc_Exact)) as [->|Hlne]; [|specialize (Hl Hlne); lia].
      apply Hinex. destruct (k - e) as [|p|p] eqn:Ed; try lia.
      injection Hs as <-. rewrite iter_pos_nat, Em, <- (positive_nat_Z p).
      cbn [shr_record_of_loc]. rewrite shr_iter_exact; [done|]. nia.
Qed.

(** ** Fractions of a window *)

Lemma f64_of_int_pos n :
  0 < n ≤ f64_max_int → ∃ m e, f64_of_int n = S754_finite false m e ∧ is_val (Zpos m) e n.
Proof.
  intros Hn. destruct n as [|q|q]; try lia.
  exists (Z.to_pos (norm_m (Zpos q))), (norm_e (Zpos q)). split.
  - by apply round_int; [|apply is_val_0].
  - rewrite Z2Pos.id by (by apply norm_m_pos). by apply norm_is_val.
Qed.

Lemma is_val_lt m1 e1 x m2 e2 w e' :
  is_val m1 e1 x → is_val m2 e2 w → x < w → 0 ≤ e1 - e2 - e' → e' < 0 →
  m1 * 2 ^ (e1 - e2 - e') < m2 * 2 ^ (- e').
Proof.
  intros H1 H2 Hlt Hs He'. set (e0 := Z.min (Z.min e1 e2) (-1)).
  apply (is_val_align _ _ e0) in H1; [|lia]. apply (is_val_align _ _ e0) in H2; [|lia].
  destruct H1 as [_ H1], H2 as [_ H2]. specialize (H1 ltac:(lia)). specialize (H2 ltac:(lia)).
  assert (Hpow : 0 < 2 ^ (- e0)) by lia.
  assert (Hcmp : m1 * 2 ^ (e1 - e0) < m2 * 2 ^ (e2 - e0)) by (rewrite H1, H2; nia).
  clear H1 H2. set (c := e0 - e2 - e').
  destruct (Z.le_gt_cases 0 c) as [Hc|Hc].
  - replace (e1 - e2 - e') with ((e1 - e0) + c) by lia. replace (- e') with ((e2 - e0) + c) by lia.
    rewrite !pow2_split, !Z.mul_assoc by lia. apply Z.mul_lt_mono_pos_r; [lia|done].
  - replace (e1 - e0) with ((e1 - e2 - e') + - c) in Hcmp by lia.
    replace (e2 - e0) with ((- e') + - c) in Hcmp by lia.
    rewrite !pow2_split, !Z.mul_assoc in Hcmp by lia. apply Z.mul_lt_mono_pos_r in Hcmp; [done|lia].
Qed.

Lemma new_location_exact b r : new_location b r ≠ loc_Exact → r ≠ 0.
Proof.
  unfold new_location, new_location_even, new_location_odd. intros H ->. apply H.
  by destruct (Z.even b).
Qed.

(** [x / w] with [0 <= x < w] rounds into [0, 1]. *)
Lemma f64_div_le_1 x w :
  0 ≤ x < w → w ≤ f64_max_int → in_0_n (f64_div (f64_of_int x) (f64_of_int w)) 1.
Proof.
  intros Hx Hw. destruct (f64_of_int_pos w ltac:(lia)) as (m2 & e2 & -> & H2).
  destruct (decide (x = 0)) as [->|Hx0]; [done|].
  destruct (f64_of_int_pos x ltac:(lia)) as (m1 & e1 & -> & H1).
  unfold f64_div, SFdiv, SFdiv_core_binary. cbn [Zdigits2 xorb].
  pose proof (is_val_log2 (Zpos m1) e1 x ltac:(lia) ltac:(lia) H1) as L1.
  pose proof (is_val_log2 (Zpos m2) e2 w ltac:(lia) ltac:(lia) H2) as L2.
  rewrite !digits2_log2, fexp64_unfold.
  pose proof (Z.log2_nonneg x). pose proof (Z.log2_nonneg w).
  pose proof (Z.log2_le_mono x w ltac:(lia)).
  assert (Z.log2 w ≤ 53) by (apply (log2_max_int w); lia).
  set (e' := Z.min _ (e1 - e2)).
  assert (He' : e' < 0 ∧ e' ≤ Z.log2 (Zpos m1) + e1 - Z.log2 (Zpos m2) - e2 - 53
                ∧ 0 ≤ e1 - e2 - e') by lia.
  clearbody e'. destruct He' as (He'0 & He'1 & Hs).
  assert (Em : match e1 - e2 - e' with Z0 => Zpos m1 | Zpos _ => Z.shiftl (Zpos m1) (e1 - e2 - e')
               | Zneg _ => 0 end = Zpos m1 * 2 ^ (e1 - e2 - e')).
  { destruct (e1 - e2 - e') eqn:Es; [lia|by rewrite Z.shiftl_mul_pow2 by lia|lia]. }
  rewrite Em. clear Em.
  pose proof (is_val_lt _ _ _ _ _ _ e' H1 H2 ltac:(lia) Hs He'0) as Hlt.
  set (M := Zpos m1 * 2 ^ (e1 - e2 - e')) in *.
  pose proof (Z_div_mod M (Zpos m2) ltac:(lia)) as Hdm.
  destruct (Z.div_eucl M (Zpos m2)) as [q r]. destruct Hdm as [EM Hr].
  assert (Hq : 0 < q).
  { assert (HM : Zpos m2 < M).
    { pose proof (Z.log2_spec (Zpos m2) ltac:(lia)) as [_ Hm2].
      pose proof (Z.log2_spec (Zpos m1) ltac:(lia)) as [Hm1 _].
      eapply Z.lt_le_trans; [exact Hm2|]. unfold M.
      etrans; [|apply Z.mul_le_mono_nonneg_r; [lia|exact Hm1]].
      rewrite <- pow2_split by (pose proof (Z.log2_nonneg (Zpos m1)); lia).
      apply Z.pow_le_mono_r; lia. }
    nia. }
  assert (Hq1 : q + 1 ≤ 1 * 2 ^ (- e')) by nia.
  apply round_aux_le; [done|unfold f64_max_int; lia|split; lia|]. intros _. split; lia.
Qed.

Lemma in_0_n_normalize z e n :
  0 ≤ z → 0 < n ≤ f64_max_int → val_le z e n → in_0_n (binary_normalize 53 1024 z e false) n.
Proof.
  intros Hz Hn Hv. destruct z as [|m|m]; [done| |lia]. cbn [binary_normalize].
  unfold binary_round. set (k := fexp64 _).
  destruct (shl_align m e k) as [mz ez] eqn:E. unfold shl_align in E.
  apply round_aux_le; [done|done| |by intros []].
  destruct (k - e) as [|p|p] eqn:Ek; injection E as <- <-; try done.
  rewrite pos_iter_xO. replace e with (k + Zpos p) in Hv by lia.
  apply val_le_shr in Hv; [done|lia].
Qed.

(** [1 - f] for [f] in [0, 1]. *)
Lemma f64_one_sub x : in_0_n x 1 → in_0_n (f64_sub (f64_of_int 1) x) 1.
Proof.
  intros Hx. destruct (f64_of_int_pos 1 ltac:(unfold f64_max_int; lia)) as (m1 & e1 & -> & H1).
  destruct x as [[]|[]| |[] m e]; cbn in Hx; try done.
  - unfold f64_sub, SFsub. cbn. destruct H1 as [Hp Hneg]. split; intros He.
    + rewrite <- Hp by done. lia.
    + rewrite Hneg by done. lia.
  - unfold f64_sub, SFsub. set (ez := Z.min e1 e).
    apply (is_val_align _ _ ez) in H1; [|lia].
    rewrite !shl_align_val by lia. cbn [cond_Zopp].
    replace e with (ez + (e - ez)) in Hx by lia. apply val_le_shr in Hx; [|lia].
    assert (Hone : val_le (Zpos m1 * 2 ^ (e1 - ez)) ez 1 ∧
                   Zpos m * 2 ^ (e - ez) ≤ Zpos m1 * 2 ^ (e1 - ez)).
    { destruct H1 as [Hp Hneg]. destruct Hx as [Hx1 Hx2].
      destruct (Z.le_gt_cases 0 ez) as [He|He].
      - specialize (Hp He). specialize (Hx1 He). assert (0 < 2 ^ ez) by lia.
        split; [split; lia|]. apply Z.mul_le_mono_pos_r with (2 ^ ez); lia.
      - specialize (Hneg He). specialize (Hx2 He). split; [split; lia|lia]. }
    destruct Hone as [Hv Hle]. apply in_0_n_normalize; [lia|unfold f64_max_int; lia|].
    eapply val_le_mono; [|exact Hv]. lia.
Qed.

Lemma val_le_mul m1 e1 n m2 e2 :
  0 < m1 → 0 < m2 → is_val m1 e1 n → val_le m2 e2 1 → val_le (m1 * m2) (e1 + e2) n.
Proof.
  intros Hm1 Hm2 Hv1 Hv2. pose proof (is_val_sgn _ _ _ Hv1) as Hsg.
  set (e0 := Z.min (Z.min e1 e2) (-1)).
  apply (is_val_align _ _ e0) in Hv1; [|lia]. destruct Hv1 as [_ Hv1].
  specialize (Hv1 ltac:(lia)).
  replace e2 with (e0 + (e2 - e0)) in Hv2 by lia. apply val_le_shr in Hv2; [|lia].
  destruct Hv2 as [_ Hv2]. specialize (Hv2 ltac:(lia)).
  replace (e1 + e2) with ((e0 + e0) + ((e1 - e0) + (e2 - e0))) by lia.
  apply val_le_shr; [lia|]. split; [lia|]. intros _.
  replace (- (e0 + e0)) with (- e0 + - e0) by lia. rewrite !pow2_split by lia.
  transitivity ((m1 * 2 ^ (e1 - e0)) * (m2 * 2 ^ (e2 - e0))); [lia|].
  rewrite Hv1. assert (0 < 2 ^ (- e0)) by lia. assert (0 < n) by lia. nia.
Qed.

(** [n * y] for [y] in [0, 1]. *)
Lemma f64_mul_le n y :
  0 ≤ n ≤ f64_max_int → in_0_n y 1 → in_0_n (f64_mul (f64_of_int n) y) (Z.max n 1).
Proof.
  intros Hn Hy. destruct (decide (n = 0)) as [->|Hn0].
  { destruct y as [[]|[]| |[] m e]; cbn in Hy; done. }
  destruct (f64_of_int_pos n ltac:(lia)) as (m1 & e1 & -> & H1).
  rewrite Z.max_l by lia.
  destruct y as [[]|[]| |[] m e]; cbn in Hy; try done.
  unfold f64_mul, SFmul. cbn [xorb]. rewrite Pos2Z.inj_mul.
  apply round_aux_le; [done|lia| |by intros []]. by apply val_le_mul.
Qed.

Lemma neg_normalize_neg z :
  - f64_max_int ≤ z ≤ 0 → f64_neg (binary_normalize 53 1024 z 0 true) = f64_of_int (- z).
Proof.
  intros Hz. destruct z as [|q|q]; [done|lia|].
  cbv beta iota delta [f64_of_int Z.opp binary_normalize].
  assert (Hq : 0 < Zpos q ≤ f64_max_int) by lia.
  rewrite !(round_int q 0 (Zpos q) Hq (is_val_0 _)). done.
Qed.

(** Rounding up a quantity in [0, n] stays in [0, n]. *)
Lemma f64_ceil_le x n :
  0 < n ≤ f64_max_int → in_0_n x n → 0 ≤ f64_to_int (f64_ceil x) ≤ n.
Proof.
  intros Hn Hx. destruct x as [[]|[]| |[] m e]; cbn in Hx; try done; [cbn; lia|].
  unfold f64_ceil. cbn [f64_neg SFopp negb f64_floor].
  destruct (Z.leb_spec 0 e) as [He|He].
  - cbn [f64_neg SFopp negb f64_to_int cond_Zopp]. destruct Hx as [Hx _]. specialize (Hx He).
    rewrite Z.shiftl_mul_pow2 by done. assert (0 < 2 ^ e) by lia.
    assert (0 < Zpos m * 2 ^ e) by nia.
    unfold int64_min, int64_max, f64_max_int in *. rewrite !(proj2 (Z.leb_le _ _)) by lia. cbn. lia.
  - cbn [cond_Zopp]. destruct Hx as [_ Hx]. specialize (Hx He).
    assert (Hc : - n ≤ Z.shiftl (- Zpos m) e ≤ 0).
    { rewrite Z.shiftl_div_pow2 by lia. assert (0 < 2 ^ (- e)) by lia. split.
      - apply Z.div_le_lower_bound; lia.
      - apply Z.lt_succ_r, Z.div_lt_upper_bound; lia. }
    fold f64_neg. rewrite neg_normalize_neg by lia.
    rewrite f64_to_of_int by (unfold f64_small; lia). lia.
Qed.

(** The weight of the previous window in a sliding window's count: at least
    zero and at most what that window granted, whatever the rounding. *)
Lemma sliding_carry prev x w :
  0 ≤ prev ≤ f64_max_int → 0 ≤ x < w → w ≤ f64_max_int →
  0 ≤ f64_to_int (f64_ceil (f64_mul (f64_of_int prev)
        (f64_sub (f64_of_int 1) (f64_div (f64_of_int x) (f64_of_int w))))) ≤ Z.max prev 1.
Proof.
  intros Hp Hx Hw. apply f64_ceil_le; [unfold f64_max_int in *; lia|].
  by apply f64_mul_le, f64_one_sub, f64_div_le_1.
Qed.

(** Rounding down a quantity in [0, n] stays in [0, n]. *)
Lemma f64_floor_le x n :
  0 < n ≤ f64_max_int → in_0_n x n → 0 ≤ f64_to_int (f64_floor x) ≤ n.
Proof.
  intros Hn Hx. destruct x as [[]|[]| |[] m e]; cbn in Hx; try done; [cbn; lia|].
  cbn [f64_floor]. destruct (Z.leb_spec 0 e) as [He|He].
  - cbn [f64_to_int cond_Zopp]. destruct Hx as [Hx _]. specialize (Hx He).
    rewrite Z.shiftl_mul_pow2 by done. assert (0 < 2 ^ e) by lia.
    assert (0 < Zpos m * 2 ^ e) by nia.
    unfold int64_min, int64_max, f64_max_int in *. rewrite !(proj2 (Z.leb_le _ _)) by lia. cbn. lia.
  - cbn [cond_Zopp]. destruct Hx as [_ Hx]. specialize (Hx He).
    assert (Hc : 0 ≤ Z.shiftl (Zpos m) e ≤ n).
    { rewrite Z.shiftl_div_pow2 by lia. assert (0 < 2 ^ (- e)) by lia. split.
      - apply Z.div_pos; lia.
      - apply Z.div_le_upper_bound; lia. }
    fold (f64_of_int (Z.shiftl (Zpos m) e)). rewrite f64_to_of_int; [lia|unfold f64_small; lia].
Qed.

(** A number of the format: what every operation returns. *)
Definition f64_valid (x : float64) : Prop := valid_binary 53 1024 x = true.

Lemma canonical_lt_one m e :
  f64_valid (S754_finite false m e) → f64_ltb (S754_finite false m e) (f64_of_int 1) = true →
  val_le (Zpos m) e 1.
Proof.
  unfold f64_valid. cbn [valid_binary]. unfold bounded, canonical_mantissa. intros Hv Hlt.
  apply andb_true_iff in Hv as [Hv _]. apply Z.eqb_eq in Hv.
  rewrite digits2_log2, fexp64_unfold in Hv.
  pose proof (Z.log2_spec (Zpos m) ltac:(lia)) as [_ Hm]. rewrite <- Z.add_1_r in Hm.
  change (f64_of_int 1) with (S754_finite false 4503599627370496 (-52)) in Hlt.
  unfold f64_ltb, SFltb, SFcompare in Hlt.
  assert (He : e < -52 ∨ (e = -52 ∧ Zpos m < 4503599627370496)).
  { destruct (Z.compare_spec e (-52)) as [E|E|E]; [right|by left|done]. split; [done|].
    destruct (Pos.compare_cont Eq m 4503599627370496) eqn:Ec; try done. }
  split; intros He'; [lia|].
  assert (Hp : 2 ^ 53 ≤ 2 ^ (- e) ∨ (e = -52 ∧ Zpos m < 2 ^ 52)).
  { destruct He as [He|[-> He]]; [left; apply Z.pow_le_mono_r; lia|right; split; [done|lia]]. }
  assert (Hlog : Z.log2 (Zpos m) + 1 ≤ 53) by lia.
  pose proof (Z.pow_le_mono_r 2 (Z.log2 (Zpos m) + 1) 53 ltac:(lia) Hlog).
  destruct Hp as [Hp|[-> Hp]]; lia.
Qed.

(** [math.Max(0, math.Min(x, 1))] is in [0, 1]. *)
Lemma f64_clamp_01 x :
  f64_valid x → f64_is_nan x = false → in_0_n (f64_max f64_zero (f64_min x (f64_of_int 1))) 1.
Proof.
  intros Hv Hn. change (f64_of_int 1) with (S754_finite false 4503599627370496 (-52)).
  assert (H1 : in_0_n (S754_finite false 4503599627370496 (-52)) 1) by (split; cbn; lia).
  destruct x as [[]|[]| |[] m e]; try done.
  pose proof (canonical_lt_one m e Hv) as Hlt.
  change (f64_of_int 1) with (S754_finite false 4503599627370496 (-52)) in Hlt.
  unfold f64_min. destruct (f64_ltb _ _) eqn:E; [|done]. cbn. by apply Hlt.
Qed.

Lemma f64_to_int_range x : is_int64 (f64_to_int x).
Proof.
  unfold is_int64. destruct x as [| | |s m e]; cbn [f64_to_int]; try (unfold int64_min, int64_max; lia).
  cbv zeta. destruct (_ && _) eqn:E; [|unfold int64_min, int64_max; lia].
  apply andb_true_iff in E as [E1 E2]. lia.
Qed.
