(* ===== verification/Division.v ===== *)
(** * Whole quotients computed in binary64

    Lua has no integers: a script computes the number of a window as
    [math.floor(now / win)].  For [0 < b ≤ a < 2^53] that is [a div b]: the
    quotient is rounded, but never across the next whole number. *)

From S2P Require Import Prelude Float64.
From Stdlib Require Import SpecFloat.

Local Open Scope Z_scope.

Lemma f64_normalize_nonzero n s : n ≠ 0 → binary_normalize 53 1024 n 0 s = f64_of_int n.
Proof. by destruct n. Qed.

Lemma f64_of_int_log2_52 n :
  0 < n ≤ f64_max_int → Z.log2 n = 52 → f64_of_int n = S754_finite false (Z.to_pos n) 0.
Proof.
  intros Hn Hl. unfold f64_of_int. destruct n as [|p|p]; [lia| |lia]. cbn [binary_normalize].
  rewrite (round_int p 0 (Zpos p)) by (done || apply is_val_0).
  unfold norm_m, norm_e. by rewrite Hl, Z.shiftl_0_r.
Qed.

(** The bit a shift drops last. *)
Lemma shr_1_r mrs : 0 ≤ shr_m mrs → shr_r (shr_1 mrs) = Z.odd (shr_m mrs).
Proof. by destruct mrs as [[|[p|p|]|p] r s]. Qed.

Lemma round_up_bit m l n :
  0 ≤ m →
  let mrs := Nat.iter (S n) shr_1 (shr_record_of_loc m l) in
  round_nearest_even (shr_m mrs) (loc_of_shr_record mrs) ≠ shr_m mrs → Z.odd (m `div` 2 ^ Z.of_nat n) = true.
Proof.
  intros Hm mrs. unfold mrs. rewrite Nat.iter_succ.
  assert (Hrec : shr_m (shr_record_of_loc m l) = m) by (by destruct l as [|[]]).
  assert (Hi : shr_m (Nat.iter n shr_1 (shr_record_of_loc m l)) = m `div` 2 ^ Z.of_nat n)
    by (by rewrite shr_iter_m; rewrite Hrec).
  assert (Hnn : 0 ≤ m `div` 2 ^ Z.of_nat n) by (apply Z.div_pos; lia).
  rewrite <-Hi in *. rewrite <-shr_1_r by done. generalize (shr_1 (Nat.iter n shr_1 (shr_record_of_loc m l))).
  intros [m' [] s]; cbn; [done|]. by destruct s.
Qed.

Lemma odd_half m n : 0 ≤ m → Z.odd (m `div` 2 ^ Z.of_nat n) = true →
  (2 * (m `div` 2 ^ Z.of_nat (S n)) + 1) * 2 ^ Z.of_nat n ≤ m.
Proof.
  intros Hm Ho. pose proof (Z.mul_div_le m (2 ^ Z.of_nat n) ltac:(lia)) as Hle.
  assert (E : m `div` 2 ^ Z.of_nat (S n) = m `div` 2 ^ Z.of_nat n `div` 2).
  { rewrite Z.div_div by lia. f_equal. rewrite Nat2Z.inj_succ, Z.pow_succ_r; lia. }
  rewrite E. set (x := m `div` 2 ^ Z.of_nat n) in *. pose proof (Z.div_mod x 2 ltac:(lia)) as Hx.
  rewrite Zmod_odd, Ho in Hx. rewrite <-Hx. lia.
Qed.

Lemma new_location_half b r :
  0 < b → 0 ≤ r < b → new_location b r = loc_Inexact Eq ∨ new_location b r = loc_Inexact Gt → b ≤ 2 * r.
Proof.
  intros Hb Hr. unfold new_location, new_location_even, new_location_odd.
  destruct (Z.even b); destruct (Z.eqb_spec r 0); [by intros []| |by intros []|].
  - destruct (Z.compare_spec (2 * r) b); intros [[=]|[=]]; lia.
  - destruct (Z.compare_spec (2 * r + 1) b); intros [[=]|[=]]; lia.
Qed.

Section quotient.
Variables a b k : Z.
Hypothesis Hb : 0 < b.
Hypothesis Ha : b ≤ a < f64_max_int.
Hypothesis Hk : k = a `div` b.

Lemma k_bounds : 0 < k ∧ k * b ≤ a ∧ a ≤ (k + 1) * b - 1 ∧ k < f64_max_int.
Proof using All.
  pose proof (Z.div_mod a b ltac:(lia)). pose proof (Z.mod_pos_bound a b ltac:(lia)).
  rewrite <-Hk in *. assert (0 < k) by (subst k; apply Z.div_str_pos; lia). repeat split; nia.
Qed.

(** The mantissa of the quotient and what is left of it. *)
Variables q L : Z.
Hypothesis HL : 0 < L.
Hypothesis Hlow : q * b ≤ a * 2 ^ L.
Hypothesis Hup : a * 2 ^ L < (q + 1) * b.

Lemma q_bounds : k * 2 ^ L ≤ q < (k + 1) * 2 ^ L.
Proof using All.
  pose proof k_bounds as (H0 & H1 & H2 & _). assert (0 < 2 ^ L) by lia. split.
  - assert (k * 2 ^ L * b < (q + 1) * b) by nia. assert (k * 2 ^ L < q + 1) by nia. lia.
  - assert (q * b < (k + 1) * 2 ^ L * b) by nia. nia.
Qed.

Lemma q_log2 : Z.log2 q = Z.log2 k + L.
Proof using All.
  pose proof k_bounds as (H0 & _). pose proof q_bounds as [Hq1 Hq2].
  pose proof (Z.log2_spec k H0) as [Hl1 Hl2]. pose proof (Z.log2_nonneg k).
  apply Z.log2_unique; [lia|]. rewrite <-Z.add_succ_l, !Z.pow_add_r by lia.
  assert (0 < 2 ^ L) by lia. split; nia.
Qed.

(** Rounded to 53 bits, at the exponent of [k]. *)
Variable l : location.
Hypothesis Hloc : l = loc_Inexact Eq ∨ l = loc_Inexact Gt → (2 * q + 1) * b ≤ 2 * (a * 2 ^ L).
Let K := Z.log2 k - 52.
Hypothesis HK : 0 ≤ K + L.

Lemma k_log2 : 0 ≤ Z.log2 k ≤ 52 ∧ 2 ^ Z.log2 k ≤ k ∧ k + 1 ≤ 2 ^ (Z.log2 k + 1).
Proof using All.
  pose proof (k_bounds) as (H0 & _ & _ & Hlt). pose proof (Z.log2_spec k H0) as [H1 H2].
  pose proof (Z.log2_nonneg k). assert (Z.log2 k < 53) by (apply Z.log2_lt_pow2; [lia|exact Hlt]).
  rewrite Z.add_1_r. lia.
Qed.

Definition mrs : shr_record := Nat.iter (Z.to_nat (K + L)) shr_1 (shr_record_of_loc q l).

Lemma mrs_m : shr_m mrs = q `div` 2 ^ (K + L).
Proof using All.
  pose proof q_bounds. pose proof k_bounds. unfold mrs.
  assert (Hrec : shr_m (shr_record_of_loc q l) = q) by (by destruct l as [|[]]).
  rewrite shr_iter_m by (rewrite Hrec; nia). by rewrite Hrec, Z2Nat.id by lia.
Qed.

(** Rounding up means that at least half a unit was dropped. *)
Lemma mrs_up :
  round_nearest_even (shr_m mrs) (loc_of_shr_record mrs) ≠ shr_m mrs →
  (2 * shr_m mrs + 1) * 2 ^ (K + L) * b ≤ 2 * (a * 2 ^ L).
Proof using All.
  intros Hup'. pose proof mrs_m as Hm. assert (Hq : 0 ≤ q) by (pose proof q_bounds; pose proof k_bounds; nia).
  destruct (Z.to_nat (K + L)) as [|n] eqn:En.
  - assert (E0 : K + L = 0) by lia. rewrite E0, Z.div_1_r in Hm. rewrite Hm, E0, Z.mul_1_r. apply Hloc.
    assert (Emrs : mrs = shr_record_of_loc q l) by (unfold mrs; by rewrite En).
    rewrite Emrs, loc_of_record in Hup'. destruct l as [|[]]; cbn in Hup'; try done; auto.
  - assert (EK : K + L = Z.of_nat (S n)) by lia.
    unfold mrs in Hup'. rewrite En in Hup'. apply (round_up_bit q l n Hq) in Hup'. apply odd_half in Hup'; [|done].
    rewrite Hm, EK. rewrite Nat2Z.inj_succ, Z.pow_succ_r in * by lia. nia.
Qed.

Definition R : Z := round_nearest_even (shr_m mrs) (loc_of_shr_record mrs).

Lemma R_bounds : k * 2 ^ (- K) ≤ R < (k + 1) * 2 ^ (- K).
Proof using All.
  pose proof k_bounds as (H0 & H1 & H2 & H3). pose proof k_log2 as (Hl & Hp1 & Hp2).
  pose proof q_bounds as [Hq1 Hq2]. pose proof mrs_m as Hm. pose proof mrs_up as Hu. fold R in Hu.
  assert (EL : 2 ^ L = 2 ^ (- K) * 2 ^ (K + L)) by (rewrite <-Z.pow_add_r by lia; f_equal; lia).
  assert (Hpos : 0 < 2 ^ (K + L)) by lia. assert (HposK : 0 < 2 ^ (- K)) by lia.
  assert (Hm1 : k * 2 ^ (- K) ≤ shr_m mrs) by (rewrite Hm; apply Z.div_le_lower_bound; [lia|]; rewrite EL in Hq1; nia).
  assert (Hm2 : shr_m mrs < (k + 1) * 2 ^ (- K)).
  { rewrite Hm. apply Z.div_lt_upper_bound; [lia|]. rewrite EL in Hq2. nia. }
  assert (HR : R = shr_m mrs ∨ R = shr_m mrs + 1).
  { unfold R. destruct (loc_of_shr_record mrs) as [|[]]; cbn; auto. destruct (Z.even _); auto. }
  split; [lia|]. destruct HR as [->|HR]; [done|]. destruct (Z.lt_trichotomy R ((k + 1) * 2 ^ (- K))) as [|[HRe|]]; [done| |lia].
  exfalso. specialize (Hu ltac:(lia)).
  assert (Hb2 : 2 * 2 ^ (- K) ≤ b).
  { assert (E : shr_m mrs = (k + 1) * 2 ^ (- K) - 1) by lia. rewrite E, EL in Hu.
    assert (HA : a * (2 ^ (- K) * 2 ^ (K + L)) ≤ ((k + 1) * b - 1) * (2 ^ (- K) * 2 ^ (K + L))) by (apply Z.mul_le_mono_nonneg_r; nia).
    set (u := 2 ^ (- K)) in *. set (v := 2 ^ (K + L)) in *.
    assert (Hv : (2 * ((k + 1) * u - 1) + 1) * v * b ≤ 2 * (((k + 1) * b - 1) * (u * v))) by lia.
    assert (Hv' : v * (2 * u) ≤ v * b) by lia. by apply Z.mul_le_mono_pos_l in Hv'. }
  assert (E2 : 2 * 2 ^ (- K) * 2 ^ Z.log2 k = f64_max_int).
  { rewrite <-Z.pow_succ_r, <-Z.pow_add_r by lia. unfold K. replace (Z.succ (- (Z.log2 k - 52)) + Z.log2 k) with 53 by lia. done. }
  assert (2 * 2 ^ (- K) * 2 ^ Z.log2 k ≤ b * k) by (apply Z.mul_le_mono_nonneg; lia). lia.
Qed.

Lemma R_log2 : 0 < R ∧ Z.log2 R = 52.
Proof using All.
  pose proof R_bounds as [H1 H2]. pose proof k_log2 as (Hl & Hp1 & Hp2).
  assert (E1 : 2 ^ Z.log2 k * 2 ^ (- K) = 2 ^ 52) by (rewrite <-Z.pow_add_r by lia; f_equal; unfold K; lia).
  assert (E2 : 2 ^ (Z.log2 k + 1) * 2 ^ (- K) = 2 ^ 53) by (rewrite <-Z.pow_add_r by lia; f_equal; unfold K; lia).
  assert (0 < 2 ^ (- K)) by lia.
  assert (2 ^ 52 ≤ R) by (rewrite <-E1; etrans; [|exact H1]; apply Z.mul_le_mono_nonneg_r; lia).
  assert (R < 2 ^ 53) by (rewrite <-E2; eapply Z.lt_le_trans; [exact H2|]; apply Z.mul_le_mono_nonneg_r; lia).
  split; [lia|]. apply Z.log2_unique; lia.
Qed.

Lemma round_quotient : binary_round_aux 53 1024 false q (- L) l = S754_finite false (Z.to_pos R) K.
Proof using All.
  pose proof q_log2 as Hlq. pose proof k_log2 as (Hl & _). pose proof R_log2 as [HR0 HR].
  assert (Hq : 0 < q) by (pose proof q_bounds; pose proof k_bounds; nia).
  assert (Hdig : ∀ z, 0 < z → Zdigits2 z = Z.log2 z + 1) by (intros [|z|z] Hz; [lia|apply digits2_log2|lia]).
  unfold binary_round_aux, shr_fexp. rewrite Hdig, Hlq by done.
  assert (EK : fexp64 (Z.log2 k + L + 1 + - L) - - L = K + L) by (rewrite fexp64_unfold; unfold K; lia).
  rewrite EK.
  assert (Es : shr (shr_record_of_loc q l) (- L) (K + L) = (mrs, K)).
  { unfold shr, mrs. destruct (K + L) as [|p|p] eqn:E; [|rewrite iter_pos_nat|lia]; cbn [Z.to_nat Nat.iter].
    - f_equal. lia.
    - f_equal. lia. }
  rewrite Es. fold R. rewrite Hdig, HR by done.
  assert (E0 : fexp64 (52 + 1 + K) - K = 0) by (rewrite fexp64_unfold; unfold K; lia).
  rewrite E0. cbn [shr]. assert (Hrec : shr_m (shr_record_of_loc R loc_Exact) = R) by done. rewrite Hrec.
  destruct R as [|p|p]; [lia| |lia]. rewrite (proj2 (Z.leb_le _ _)) by (unfold K; lia). done.
Qed.

Lemma floor_quotient : f64_floor (binary_round_aux 53 1024 false q (- L) l) = f64_of_int k.
Proof using All.
  rewrite round_quotient. pose proof R_log2 as [HR0 _]. pose proof R_bounds as [H1 H2].
  pose proof k_log2 as (Hl & _). pose proof k_bounds as (Hk0 & _ & _ & Hkm).
  unfold f64_floor. cbn [cond_Zopp]. rewrite Z2Pos.id by done.
  destruct (Z.leb_spec 0 K) as [HK0|HK0].
  - assert (K = 0) as E0 by (unfold K in *; lia). rewrite E0 in *. cbn in H1, H2.
    assert (R = k) as -> by lia. symmetry. apply f64_of_int_log2_52; unfold K in *; lia.
  - assert (Es : Z.shiftl R K = k).
    { rewrite <-(Z.opp_involutive K), Z.shiftl_opp_r, Z.shiftr_div_pow2 by lia. symmetry.
      apply (Z.div_unique_pos _ _ _ (R - k * 2 ^ (- K))); lia. }
    rewrite Es. apply f64_normalize_nonzero. lia.
Qed.
End quotient.

Lemma is_val_cross m1 e1 a m2 e2 b L :
  is_val m1 e1 a → is_val m2 e2 b → 0 ≤ e1 - e2 + L → 0 < L →
  m1 * 2 ^ (e1 - e2 + L) * b = a * 2 ^ L * m2.
Proof.
  intros H1 H2 Hs HL. set (e0 := Z.min (Z.min e1 e2) (-1)).
  apply (is_val_align _ _ e0) in H1; [|lia]. apply (is_val_align _ _ e0) in H2; [|lia].
  destruct H1 as [_ H1], H2 as [_ H2]. specialize (H1 ltac:(lia)). specialize (H2 ltac:(lia)).
  apply (Z.mul_reg_r _ _ (2 ^ (- e0))); [lia|].
  transitivity (m1 * 2 ^ (e1 - e2 + L) * (b * 2 ^ (- e0))); [ring|]. rewrite <-H2.
  transitivity ((a * 2 ^ (- e0)) * 2 ^ L * m2); [|ring]. rewrite <-H1.
  transitivity (m1 * m2 * (2 ^ (e1 - e2 + L) * 2 ^ (e2 - e0))); [ring|].
  transitivity (m1 * m2 * (2 ^ (e1 - e0) * 2 ^ L)); [|ring]. f_equal.
  rewrite <-!Z.pow_add_r by lia. f_equal. lia.
Qed.

Lemma quotient_log2 a b : 0 < b → b ≤ a → Z.log2 a ≤ Z.log2 (a `div` b) + Z.log2 b + 1.
Proof.
  intros Hb Ha. assert (Hk : 0 < a `div` b) by (apply Z.div_str_pos; lia).
  pose proof (Z.log2_spec (a `div` b) Hk) as [_ H1]. pose proof (Z.log2_spec b Hb) as [_ H2].
  pose proof (Z.div_mod a b ltac:(lia)). pose proof (Z.mod_pos_bound a b ltac:(lia)).
  pose proof (Z.log2_nonneg (a `div` b)). pose proof (Z.log2_nonneg b).
  apply Z.lt_succ_r, Z.log2_lt_pow2; [lia|].
  replace (Z.succ (Z.log2 (a `div` b) + Z.log2 b + 1)) with (Z.succ (Z.log2 (a `div` b)) + Z.succ (Z.log2 b)) by lia.
  rewrite Z.pow_add_r by lia. nia.
Qed.

(** The floor of a quotient of whole numbers. *)
Lemma f64_floor_div_int a b :
  0 < b → b ≤ a < f64_max_int →
  f64_floor (f64_div (f64_of_int a) (f64_of_int b)) = f64_of_int (a `div` b).
Proof.
  intros Hb Ha.
  destruct (f64_of_int_pos a ltac:(lia)) as (m1 & e1 & -> & H1).
  destruct (f64_of_int_pos b ltac:(lia)) as (m2 & e2 & -> & H2).
  unfold f64_div, SFdiv, SFdiv_core_binary. cbn [Zdigits2 xorb].
  pose proof (is_val_log2 (Zpos m1) e1 a ltac:(lia) ltac:(lia) H1) as L1.
  pose proof (is_val_log2 (Zpos m2) e2 b ltac:(lia) ltac:(lia) H2) as L2.
  rewrite !digits2_log2, fexp64_unfold. set (e' := Z.min _ (e1 - e2)).
  assert (Hla : Z.log2 a < 53) by (apply Z.log2_lt_pow2; [lia|apply Ha]).
  pose proof (Z.log2_nonneg b). pose proof (Z.log2_le_mono b a ltac:(lia)).
  pose proof (quotient_log2 a b Hb ltac:(lia)) as Hlk.
  assert (He' : e' < 0 ∧ e' ≤ Z.log2 a - Z.log2 b - 53 ∧ 0 ≤ e1 - e2 - e') by (unfold e'; lia).
  clearbody e'. destruct He' as (He0 & He1 & Hs).
  assert (Em : match e1 - e2 - e' with Z0 => Zpos m1 | Zpos _ => Z.shiftl (Zpos m1) (e1 - e2 - e')
               | Zneg _ => 0 end = Zpos m1 * 2 ^ (e1 - e2 + - e')).
  { destruct (e1 - e2 - e') eqn:Es; [|rewrite Z.shiftl_mul_pow2 by lia; do 2 f_equal; lia|lia].
    replace (e1 - e2 + - e') with 0 by lia. lia. }
  rewrite Em. clear Em. pose proof (is_val_cross _ _ _ _ _ _ (- e') H1 H2 ltac:(lia) ltac:(lia)) as Hx.
  set (M := Zpos m1 * 2 ^ (e1 - e2 + - e')) in *.
  pose proof (Z_div_mod M (Zpos m2) ltac:(lia)) as Hdm.
  destruct (Z.div_eucl M (Zpos m2)) as [q r]. destruct Hdm as [EM Hr].
  assert (Hcan : ∀ x y, x * Zpos m2 ≤ y * Zpos m2 → x ≤ y) by (intros; nia).
  replace e' with (- - e') by lia. apply (floor_quotient a b (a `div` b)); try done; [lia|..|lia].
  - apply Hcan. rewrite <-Hx, EM. nia.
  - apply Z.nle_gt. intros Hle. assert (a * 2 ^ (- e') * Zpos m2 < (q + 1) * b * Zpos m2); [|nia].
    rewrite <-Hx, EM. nia.
  - intros Hl%new_location_half; [|lia|lia]. apply Hcan.
    rewrite <-(Z.mul_assoc 2), <-Hx, EM. nia.
Qed.
