(* ===== verification/LuaNum.v ===== *)
(** * Lua numbers

    The ledger's Redis scripts run on Lua 5.1, whose only numbers are
    binary64.  This file models what the scripts use of them, and shows that
    on whole numbers up to 2^53 the arithmetic of a script is exact: it
    computes what the [int64] arithmetic of the in-process ledger computes. *)

From S2P Require Import Prelude Float64 Division.
From Stdlib Require Import SpecFloat.

Local Open Scope Z_scope.

(** [math.min] and [math.max] of two numbers. *)
Definition lua_min (x y : float64) : float64 := if f64_ltb y x then y else x.
Definition lua_max (x y : float64) : float64 := if f64_ltb x y then y else x.

(** [tonumber] of a decimal integer; the rate is formatted with the shortest
    digits that read back as the same number. *)
Definition tonumber (n : Z) : float64 := f64_of_int n.

(** A number put into a key, a command's argument or a reply.  Concatenation
    prints 14 significant digits, so whole numbers below 10^14 in full. *)
Definition lua_int (x : float64) : Z := f64_to_int x.
Definition lua_tostring (x : float64) : string := itoa (lua_int x).

(** A number that is exactly the [int64] it truncates to, and below 2^53. *)
#[export] Instance float64_eq_dec : EqDecision float64.
Proof. solve_decision. Defined.

Definition f64_whole (x : float64) : bool :=
  bool_decide (x = f64_of_int (f64_to_int x)) && (Z.abs (f64_to_int x) <=? f64_max_int).

(** ** Exactness on whole numbers *)

Lemma f64_whole_spec x : f64_whole x = true → x = f64_of_int (f64_to_int x) ∧ f64_small (f64_to_int x).
Proof.
  intros [E%bool_decide_eq_true H%Z.leb_le]%andb_true_iff. split; [done|]. unfold f64_small. lia.
Qed.

Lemma f64_of_int_norm n :
  0 < n ≤ f64_max_int → f64_of_int n = S754_finite false (Z.to_pos (norm_m n)) (norm_e n).
Proof.
  intros Hn. destruct n as [|p|p]; [lia| |lia]. unfold f64_of_int. cbn [binary_normalize].
  apply round_int; [done|apply is_val_0].
Qed.

Lemma f64_neg_int n : n ≠ 0 → f64_small n → f64_neg (f64_of_int n) = f64_of_int (- n).
Proof.
  intros Hn Hs. unfold f64_small in Hs. destruct n as [|p|p]; [done|..]; unfold f64_of_int;
    [change (- Zpos p) with (Zneg p)|change (- Zneg p) with (Zpos p)];
    cbn [binary_normalize]; by rewrite !(round_int p 0 (Zpos p)) by (apply is_val_0 || lia).
Qed.

Lemma norm_compare a b :
  0 < a ≤ f64_max_int → 0 < b ≤ f64_max_int →
  match norm_e a ?= norm_e b with
  | Eq => Pos.compare_cont Eq (Z.to_pos (norm_m a)) (Z.to_pos (norm_m b))
  | c => c
  end = (a ?= b).
Proof.
  intros Ha Hb. unfold norm_e. pose proof (norm_m_pos a Ha). pose proof (norm_m_pos b Hb).
  destruct (log2_max_int a Ha) as [La Ea], (log2_max_int b Hb) as [Lb Eb].
  destruct (Z.compare_spec (Z.log2 a - 52) (Z.log2 b - 52)) as [E|E|E].
  - assert (El : Z.log2 a = Z.log2 b) by lia.
    change (Pos.compare_cont Eq ?x ?y) with (x ?= y)%positive.
    rewrite <-Z2Pos.inj_compare by done. unfold norm_m. rewrite El.
    destruct (decide (Z.log2 b = 53)) as [E53|]; [rewrite Ea, Eb by lia; apply Z.compare_refl|].
    rewrite !Z.shiftl_mul_pow2 by lia. symmetry. apply Zmult_compare_compat_r. lia.
  - symmetry. apply Z.compare_lt_iff. apply Z.log2_lt_cancel. lia.
  - symmetry. apply Z.compare_gt_iff. apply Z.log2_lt_cancel. lia.
Qed.

Lemma f64_compare_int a b :
  f64_small a → f64_small b → SFcompare (f64_of_int a) (f64_of_int b) = Some (a ?= b).
Proof.
  unfold f64_small. intros Ha Hb.
  assert (Hneg : ∀ p, Zpos p ≤ f64_max_int → f64_of_int (Zneg p)
            = S754_finite true (Z.to_pos (norm_m (Zpos p))) (norm_e (Zpos p))).
  { intros p Hp. unfold f64_of_int. cbn [binary_normalize]. apply round_int; [lia|apply is_val_0]. }
  destruct a as [|p|p], b as [|q|q]; rewrite ?f64_of_int_0, ?Hneg by lia;
    rewrite ?(f64_of_int_norm (Zpos _)) by lia; cbn [SFcompare f64_zero]; try done.
  - rewrite <-(norm_compare (Zpos p) (Zpos q)) by lia. by destruct (norm_e _ ?= norm_e _).
  - change (Zneg p ?= Zneg q) with (CompOpp (Zpos p ?= Zpos q)).
    rewrite <-(norm_compare (Zpos p) (Zpos q)) by lia. by destruct (norm_e _ ?= norm_e _).
Qed.

Lemma f64_ltb_int a b : f64_small a → f64_small b → f64_ltb (f64_of_int a) (f64_of_int b) = (a <? b).
Proof. intros Ha Hb. unfold f64_ltb, SFltb. rewrite f64_compare_int by done. done. Qed.

Lemma f64_leb_int a b : f64_small a → f64_small b → f64_leb (f64_of_int a) (f64_of_int b) = (a <=? b).
Proof. intros Ha Hb. unfold f64_leb, SFleb. rewrite f64_compare_int by done. done. Qed.

Lemma f64_eqb_int a b : f64_small a → f64_small b → f64_eqb (f64_of_int a) (f64_of_int b) = (a =? b).
Proof.
  intros Ha Hb. unfold f64_eqb, SFeqb. rewrite f64_compare_int by done.
  by rewrite Z.eqb_compare.
Qed.

Lemma lua_min_int a b :
  f64_small a → f64_small b → lua_min (f64_of_int a) (f64_of_int b) = f64_of_int (Z.min a b).
Proof.
  intros Ha Hb. unfold lua_min. rewrite f64_ltb_int by done.
  destruct (Z.ltb_spec b a); f_equal; lia.
Qed.

Lemma lua_max_int a b :
  f64_small a → f64_small b → lua_max (f64_of_int a) (f64_of_int b) = f64_of_int (Z.max a b).
Proof.
  intros Ha Hb. unfold lua_max. rewrite f64_ltb_int by done.
  destruct (Z.ltb_spec a b); f_equal; lia.
Qed.

Lemma is_val_mul m1 e1 a m2 e2 b :
  is_val m1 e1 a → is_val m2 e2 b → is_val (m1 * m2) (e1 + e2) (a * b).
Proof.
  intros H1 H2. set (k1 := Z.min e1 0). set (k2 := Z.min e2 0).
  apply (is_val_align _ _ k1) in H1; [|lia]. apply (is_val_align _ _ k2) in H2; [|lia].
  assert (E1 : m1 * 2 ^ (e1 - k1) = a * 2 ^ (- k1)).
  { destruct H1 as [Hp Hn]. destruct (Z.le_gt_cases 0 k1); [|by apply Hn].
    replace k1 with 0 in * by lia. rewrite (Hp ltac:(lia)). cbn. lia. }
  assert (E2 : m2 * 2 ^ (e2 - k2) = b * 2 ^ (- k2)).
  { destruct H2 as [Hp Hn]. destruct (Z.le_gt_cases 0 k2); [|by apply Hn].
    replace k2 with 0 in * by lia. rewrite (Hp ltac:(lia)). cbn. lia. }
  assert (E : m1 * m2 * 2 ^ (e1 + e2 - k1 - k2) = a * b * 2 ^ (- k1 - k2)).
  { replace (e1 + e2 - k1 - k2) with ((e1 - k1) + (e2 - k2)) by lia.
    replace (- k1 - k2) with (- k1 + - k2) by lia. rewrite !Z.pow_add_r by lia.
    transitivity ((m1 * 2 ^ (e1 - k1)) * (m2 * 2 ^ (e2 - k2))); [ring|]. rewrite E1, E2. ring. }
  split; intros He; apply (Z.mul_reg_r _ _ (2 ^ (- k1 - k2))); try lia.
  - rewrite <-E, <-(Z.mul_assoc (m1 * m2) (2 ^ (e1 + e2))), <-Z.pow_add_r by lia. f_equal. f_equal. lia.
  - transitivity (a * b * 2 ^ (- k1 - k2) * 2 ^ (- (e1 + e2))); [|ring].
    rewrite <-E, <-(Z.mul_assoc (m1 * m2) (2 ^ _)), <-Z.pow_add_r by lia. f_equal. f_equal. lia.
Qed.

Lemma f64_mul_pos a b :
  0 < a ≤ f64_max_int → 0 < b ≤ f64_max_int → a * b ≤ f64_max_int →
  ∀ s, binary_round_aux 53 1024 s (Zpos (Z.to_pos (norm_m a) * Z.to_pos (norm_m b)))
         (norm_e a + norm_e b) loc_Exact
       = S754_finite s (Z.to_pos (norm_m (a * b))) (norm_e (a * b)).
Proof.
  intros Ha Hb Hab s. pose proof (norm_m_pos a Ha). pose proof (norm_m_pos b Hb).
  apply round_aux_int; [nia|rewrite Pos2Z.inj_mul, !Z2Pos.id by done; by apply is_val_mul; apply norm_is_val|].
  destruct (log2_max_int a Ha) as [La _], (log2_max_int b Hb) as [Lb _]. unfold norm_e.
  pose proof (Z.log2_mul_below a b ltac:(lia) ltac:(lia)). lia.
Qed.

Lemma f64_mul_int a b :
  0 ≤ a → 0 ≤ b → f64_small a → f64_small b → f64_small (a * b) →
  f64_mul (f64_of_int a) (f64_of_int b) = f64_of_int (a * b).
Proof.
  intros Ha Hb Hsa Hsb Hab. unfold f64_small in *.
  destruct (decide (a = 0)) as [->|]; [|destruct (decide (b = 0)) as [->|]].
  - rewrite f64_of_int_0. destruct (decide (b = 0)) as [->|]; [done|].
    by rewrite (f64_of_int_norm b) by lia.
  - rewrite Z.mul_0_r, f64_of_int_0. by rewrite (f64_of_int_norm a) by lia.
  - rewrite !f64_of_int_norm by nia. unfold f64_mul. cbn [SFmul xorb]. apply f64_mul_pos; lia.
Qed.

(** [math.floor] of a quotient below the first whole one: the microseconds of
    a clock reading that is not yet a millisecond. *)
Lemma f64_floor_below_ms u :
  0 ≤ u < 1000 → f64_floor (f64_div (f64_of_int u) (f64_of_int 1000)) = f64_of_int 0.
Proof.
  intros Hu.
  assert (Hall : forallb (λ n, bool_decide (f64_floor (f64_div (f64_of_int (Z.of_nat n)) (f64_of_int 1000))
                                      = f64_of_int 0)) (seq 0 1000) = true).
  { vm_compute. done. }
  rewrite forallb_forall in Hall. specialize (Hall (Z.to_nat u)).
  rewrite Z2Nat.id in Hall by lia. apply bool_decide_eq_true in Hall; [done|].
  apply in_seq. lia.
Qed.

Lemma f64_floor_ms u :
  0 ≤ u < f64_max_int →
  f64_floor (f64_div (f64_of_int u) (f64_of_int 1000)) = f64_of_int (u `div` 1000).
Proof.
  intros Hu. destruct (Z.lt_ge_cases u 1000).
  - rewrite f64_floor_below_ms by lia. by rewrite Z.div_small by lia.
  - apply f64_floor_div_int; lia.
Qed.

(** ** Script values that are [int64]s

    [num x n]: the Lua number [x] is exactly the integer [n].  Each operation of
    the scripts preserves this, against the [int64] operation the in-process
    ledger performs in its place, as long as the result stays below 2^53. *)
Definition num (x : float64) (n : Z) : Prop := x = f64_of_int n ∧ f64_small n.

Lemma small_int64 n : f64_small n → wrap64 n = n.
Proof. intros Hn. apply wrap64_small. unfold f64_small, f64_max_int, is_int64, int64_min, int64_max in *. lia. Qed.

Lemma num_of_int n : f64_small n → num (tonumber n) n.
Proof. done. Qed.

Lemma num_int x n : num x n → lua_int x = n.
Proof. intros [-> Hn]. by apply f64_to_of_int. Qed.

Lemma num_tostring x n : num x n → lua_tostring x = itoa n.
Proof. intros H. unfold lua_tostring. by rewrite (num_int x n). Qed.

Lemma num_whole x : f64_whole x = true → num x (f64_to_int x).
Proof. apply f64_whole_spec. Qed.

Lemma num_add x y a b : num x a → num y b → f64_small (a + b) → num (f64_add x y) (a + b)%i64.
Proof.
  intros [-> Ha] [-> Hb] Hs. unfold i64_add. rewrite small_int64, f64_add_int by done. done.
Qed.

Lemma num_sub x y a b : num x a → num y b → f64_small (a - b) → num (f64_sub x y) (a - b)%i64.
Proof.
  intros [-> Ha] [-> Hb] Hs. unfold i64_sub. rewrite small_int64, f64_sub_int by done. done.
Qed.

Lemma num_mul x y a b :
  num x a → num y b → 0 ≤ a → 0 ≤ b → f64_small (a * b) → num (f64_mul x y) (a * b)%i64.
Proof.
  intros [-> Ha] [-> Hb] Ha0 Hb0 Hs. unfold i64_mul. rewrite small_int64, f64_mul_int by done. done.
Qed.

Lemma num_floor_div x y a b :
  num x a → num y b → 0 < b → b ≤ a < f64_max_int → num (f64_floor (f64_div x y)) (a / b)%i64.
Proof.
  intros [-> Ha] [-> Hb] Hb0 Hab. rewrite f64_floor_div_int by done.
  assert (Hd : f64_small (a `div` b)).
  { unfold f64_small in *. split; [etrans; [|apply Z.div_pos]; lia|].
    etrans; [apply (Z.div_le_mono a (a * b)); nia|]. rewrite Z.div_mul; lia. }
  unfold i64_div. rewrite quot_div_pos, small_int64 by (done || lia). done.
Qed.

Lemma num_min x y a b : num x a → num y b → num (lua_min x y) (Z.min a b).
Proof.
  intros [-> Ha] [-> Hb]. split; [by apply lua_min_int|]. by destruct (Z.min_spec a b) as [[_ ->]|[_ ->]].
Qed.

Lemma num_max x y a b : num x a → num y b → num (lua_max x y) (Z.max a b).
Proof.
  intros [-> Ha] [-> Hb]. split; [by apply lua_max_int|]. by destruct (Z.max_spec a b) as [[_ ->]|[_ ->]].
Qed.

Lemma num_ltb x y a b : num x a → num y b → f64_ltb x y = (a <? b).
Proof. intros [-> Ha] [-> Hb]. by apply f64_ltb_int. Qed.

Lemma num_leb x y a b : num x a → num y b → f64_leb x y = (a <=? b).
Proof. intros [-> Ha] [-> Hb]. by apply f64_leb_int. Qed.

Lemma num_eqb x y a b : num x a → num y b → f64_eqb x y = (a =? b).
Proof. intros [-> Ha] [-> Hb]. by apply f64_eqb_int. Qed.

Lemma num_if (c : bool) x y a b : num x a → num y b → num (if c then x else y) (if c then a else b).
Proof. by destruct c. Qed.
