(* ===== verification/Ledger.v ===== *)
(** * The quota ledger ([packages/ledger])

    How many tokens have been granted, for which limit, in which window:
    [ledger.go] (limits, references, keys, grant sizing), [args.go] (the
    reduction of a call to numbers) and [mem.go] (the in-process ledger, whose
    algorithm the Redis script mirrors).  Methods of [*Mem] take the ledger
    before the call, and the clock reading where the code calls [m.now()], and
    return the ledger after it. *)

From S2P Require Import Prelude Float64.

Local Open Scope Z_scope.

(** ** Limits and references ([ledger.go]) *)

Definition Algo := string.
Definition FixedWindow : Algo := "fixed_window".
Definition SlidingWindow : Algo := "sliding_window".
Definition TokenBucket : Algo := "token_bucket".

Definition Algo_Valid (a : Algo) : bool :=
  (a =? "")%string || (a =? FixedWindow)%string
  || (a =? SlidingWindow)%string || (a =? TokenBucket)%string.

Definition Algo_Or (a : Algo) : Algo := if (a =? "")%string then FixedWindow else a.

Record Spec := mkSpec {
  spec_Algo : Algo;
  spec_Limit : Z;
  spec_Window : Z; (* time.Duration *)
  spec_Rate : float64;
}.

Definition Spec_Period (s : Spec) : Z :=
  if (Algo_Or (spec_Algo s) =? TokenBucket)%string then
    if f64_leb (spec_Rate s) f64_zero then Second
    else f64_to_int (f64_mul (f64_div (f64_of_int (spec_Limit s)) (spec_Rate s))
                             (f64_of_int Second))
  else Z.max (spec_Window s) Second.

Record Ref := mkRef {
  ref_Scope : string;
  ref_Service : string;
  ref_Limit : string;
  ref_Subject : string;
  ref_Parent : string;
}.

Definition Ref_Key (r : Ref) (algo : Algo) : string :=
  let tagged := if (ref_Parent r =? "")%string then ref_Subject r
                else "org:" +:+ ref_Parent r in
  let limit := if (ref_Limit r =? "")%string then "tier" else ref_Limit r in
  "gate:{" +:+ ref_Scope r +:+ ":" +:+ ref_Service r +:+ ":" +:+ tagged +:+ "}:" +:+ limit +:+
  (if (ref_Parent r =? "")%string then "" else ":" +:+ ref_Subject r) +:+
  ":" +:+ Algo_Or algo.

Definition Ref_ParentKey (r : Ref) (algo : Algo) : string :=
  "gate:{" +:+ ref_Scope r +:+ ":" +:+ ref_Service r +:+ ":org:" +:+ ref_Parent r +:+
  "}:org:" +:+ Algo_Or algo.

Record GrantArgs := mkGrantArgs {
  ga_Requested : Z;
  ga_EdgeID : string;
  ga_Horizon : Z; (* time.Duration *)
  ga_ObservedRate : float64;
  ga_MinGrant : Z;
  ga_MaxGrant : Z;
  ga_Parent : option Spec;
  ga_Regional : bool;
  ga_AllocBase : Z;
}.

Record Grant := mkGrant {
  g_Granted : Z;
  g_Remaining : Z;
  g_WindowID : Z;
  g_ExpiresIn : Z;  (* time.Duration *)
  g_ResetIn : Z;    (* time.Duration *)
  g_RetryAfter : Z; (* time.Duration *)
  g_ActiveEdges : Z;
  g_ParentWindowID : Z;
}.

Record Return := mkReturn {
  ret_Ref : Ref;
  ret_Spec : Spec;
  ret_Parent : option Spec;
  ret_WindowID : Z;
  ret_ParentWindowID : Z;
  ret_Tokens : Z;
}.

(** Errors of the package: the one it defines, and those of a Redis client. *)
Inductive error := ErrBadSpec | ErrOther (msg : string).

Definition Spec_validate (s : Spec) : option error :=
  if negb (Algo_Valid (spec_Algo s)) || (spec_Limit s <=? 0) then Some ErrBadSpec
  else if (Algo_Or (spec_Algo s) =? TokenBucket)%string && f64_leb (spec_Rate s) f64_zero
  then Some ErrBadSpec
  else None.

(** The constant [0.999]. *)
Definition f64_0_999 : float64 := f64_dyadic 8998192055486251 (-53).

Definition GrantArgs_target (a : GrantArgs) : Z :=
  let want := ga_Requested a in
  let want :=
    if (0 <? ga_Horizon a) && f64_ltb f64_zero (ga_ObservedRate a) then
      Z.max want (f64_to_int (f64_add (f64_mul (ga_ObservedRate a) (Duration_Seconds (ga_Horizon a)))
                                      f64_0_999))
    else want in
  let want := if 0 <? ga_MinGrant a then Z.max want (ga_MinGrant a) else want in
  let want := if 0 <? ga_MaxGrant a then Z.min want (ga_MaxGrant a) else want in
  Z.max want 1.

(** ** Reduction to numbers ([args.go]) *)

Definition bankerCapPct : Z := 25.

Record grantInput := mkGrantInput {
  in_algo : Algo;
  in_key : string;
  in_limit : Z;
  in_win : Z; (* ms *)
  in_rate : float64;
  in_target : Z;
  in_edge : string;
  in_activeMs : Z;
  in_ttl : Z; (* ms *)
  in_parentKey : string;
  in_plimit : Z;
  in_pwin : Z;
  in_allocBase : Z;
}.

Definition windowMs (s : Spec) : Z := Milliseconds (Z.max (spec_Window s) Second).

Definition winKey (base : string) (wid : Z) : string := base +:+ ":" +:+ itoa wid.

Definition prepare (ref : Ref) (spec : Spec) (args : GrantArgs) : result error grantInput :=
  match Spec_validate spec with
  | Some e => Err e
  | None =>
      let target := GrantArgs_target args in
      let target :=
        if spec_Limit spec <? target
        then Z.min target (Z.max 1 (spec_Limit spec * bankerCapPct / 100)%i64)
        else target in
      let mk parentKey plimit pwin :=
        {| in_algo := Algo_Or (spec_Algo spec);
           in_key := Ref_Key ref (spec_Algo spec);
           in_limit := spec_Limit spec;
           in_win := windowMs spec;
           in_rate := spec_Rate spec;
           in_target := target;
           in_edge := ga_EdgeID args;
           in_activeMs := Milliseconds (Z.max (2 * ga_Horizon args)%i64 (2 * Second)%i64);
           in_ttl := if 0 <? ga_Horizon args then Milliseconds (ga_Horizon args)
                     else Milliseconds Second;
           in_parentKey := parentKey;
           in_plimit := plimit;
           in_pwin := pwin;
           in_allocBase := if ga_Regional args then ga_AllocBase args else -1 |} in
      if ga_Regional args
         && (negb (Algo_Or (spec_Algo spec) =? FixedWindow)%string || (ga_AllocBase args <? 0))
      then Err ErrBadSpec
      else
        match ga_Parent args with
        | Some p =>
            if (ref_Parent ref =? "")%string then Ok (mk "" 0 0)
            else if (spec_Limit p <=? 0) || negb (Algo_Or (spec_Algo p) =? FixedWindow)%string
            then Err ErrBadSpec
            else Ok (mk (Ref_ParentKey ref FixedWindow) (spec_Limit p) (windowMs p))
        | None => Ok (mk "" 0 0)
        end
  end.

(** [in.result]: the script's eight integers as a [Grant]. *)
Definition grantInput_result
  (granted remaining wid expires reset retry active pwid : Z) : Grant :=
  {| g_Granted := granted;
     g_Remaining := Z.max 0 remaining;
     g_WindowID := wid;
     g_ExpiresIn := (expires * Millisecond)%i64;
     g_ResetIn := (Z.max 0 reset * Millisecond)%i64;
     g_RetryAfter := (retry * Millisecond)%i64;
     g_ActiveEdges := active;
     g_ParentWindowID := pwid |}.

Record returnInput := mkReturnInput {
  ri_algo : Algo;
  ri_key : string;
  ri_win : Z;
  ri_rate : float64;
  ri_wid : Z;
  ri_tokens : Z;
  ri_parentKey : string;
  ri_pwin : Z;
  ri_pwid : Z;
  ri_dedupeKey : string;
  ri_dedupeTTL : Z;
}.

Definition prepareReturn (r : Return) (dedupe : string) : result error returnInput :=
  match Spec_validate (ret_Spec r) with
  | Some e => Err e
  | None =>
      let key := Ref_Key (ret_Ref r) (spec_Algo (ret_Spec r)) in
      let '(parentKey, pwin, pwid, period) :=
        match ret_Parent r with
        | Some p =>
            if (ref_Parent (ret_Ref r) =? "")%string then ("", 0, 0, Spec_Period (ret_Spec r))
            else (Ref_ParentKey (ret_Ref r) FixedWindow, windowMs p, ret_ParentWindowID r,
                  Z.max (Spec_Period (ret_Spec r)) (Spec_Period p))
        | None => ("", 0, 0, Spec_Period (ret_Spec r))
        end in
      Ok {| ri_algo := Algo_Or (spec_Algo (ret_Spec r));
            ri_key := key;
            ri_win := windowMs (ret_Spec r);
            ri_rate := spec_Rate (ret_Spec r);
            ri_wid := ret_WindowID r;
            ri_tokens := ret_Tokens r;
            ri_parentKey := parentKey;
            ri_pwin := pwin;
            ri_pwid := pwid;
            ri_dedupeKey := if (dedupe =? "")%string then "" else key +:+ ":ret:" +:+ dedupe;
            ri_dedupeTTL := if (dedupe =? "")%string then 0
                            else (2 * Milliseconds (Z.max period Second))%i64 |}
  end.

(** ** The in-memory ledger ([mem.go]) *)

Record Mem := mkMem {
  vals : gmap string float64;           (* counters and GCRA TATs (whole ms) *)
  edges : gmap string (gmap string Z);
  deduped : gset string;                (* the keys of map[string]bool that are true *)
}.

Definition NewMem : Mem := {| vals := ∅; edges := ∅; deduped := ∅ |}.

Definition set_val (k : string) (v : float64) (m : Mem) : Mem :=
  {| vals := <[k := v]> (vals m); edges := edges m; deduped := deduped m |}.

Definition set_edges (k : string) (s : gmap string Z) (m : Mem) : Mem :=
  {| vals := vals m; edges := <[k := s]> (edges m); deduped := deduped m |}.

Definition mark_deduped (k : string) (m : Mem) : Mem :=
  {| vals := vals m; edges := edges m; deduped := {[k]} ∪ deduped m |}.

Definition Mem_getInt (m : Mem) (key : string) (def : Z) : Z :=
  match vals m !! key with
  | Some v => f64_to_int v
  | None => def
  end.

(** [m.vals[key] += v] on a map whose missing entries read as zero. *)
Definition add_val (key : string) (v : float64) (m : Mem) : Mem :=
  set_val key (f64_add (default f64_zero (vals m !! key)) v) m.

Definition Mem_Used (m : Mem) (now : Z) (ref : Ref) (spec : Spec) : Z :=
  match vals m !! winKey (Ref_Key ref (spec_Algo spec)) (now / windowMs spec)%i64 with
  | Some v => f64_to_int v
  | None => 0
  end.

(** The local variables of [Mem.Grant] that the choice of algorithm fills. *)
Record grantLocals := mkLocals {
  gl_limit : Z; (* in.limit, replaced by a regional allocation *)
  gl_avail : Z;
  gl_wid : Z;
  gl_reset : Z;
  gl_expires : Z;
  gl_tat : Z;
  gl_prev : Z;
  gl_cur : Z;
  gl_f : float64;
  gl_key : string;
}.

Definition allocKey (base : string) (wid : Z) : string := base +:+ ":alloc:" +:+ itoa wid.

Definition grant_algo (m : Mem) (now : Z) (inp : grantInput) : grantLocals :=
  if (in_algo inp =? TokenBucket)%string then
    let T := f64_div (f64_of_int 1000) (in_rate inp) in
    let tau := f64_mul (f64_of_int (in_limit inp)) T in
    let tat := Z.max (Mem_getInt m (in_key inp) now) now in
    {| gl_limit := in_limit inp;
       gl_avail := f64_to_int (f64_floor (f64_div
                     (f64_sub (f64_add (f64_of_int now) tau) (f64_of_int tat)) T));
       gl_wid := 0; gl_reset := 0; gl_expires := in_ttl inp; gl_tat := tat;
       gl_prev := 0; gl_cur := 0; gl_f := f64_zero; gl_key := in_key inp |}
  else
    let wid := (now / in_win inp)%i64 in
    let reset := ((wid + 1) * in_win inp - now)%i64 in
    let limit := if 0 <=? in_allocBase inp
                 then (in_allocBase inp + Mem_getInt m (allocKey (in_key inp) wid) 0)%i64
                 else in_limit inp in
    let cur := Mem_getInt m (winKey (in_key inp) wid) 0 in
    let '(prev, f, used) :=
      if (in_algo inp =? SlidingWindow)%string then
        let prev := Mem_getInt m (winKey (in_key inp) (wid - 1)%i64) 0 in
        let f := f64_div (f64_of_int (now - wid * in_win inp)%i64) (f64_of_int (in_win inp)) in
        (prev, f,
         (cur + f64_to_int (f64_ceil (f64_mul (f64_of_int prev) (f64_sub (f64_of_int 1) f))))%i64)
      else (0, f64_zero, cur) in
    {| gl_limit := limit;
       gl_avail := (limit - used)%i64;
       gl_wid := wid; gl_reset := reset; gl_expires := reset; gl_tat := 0;
       gl_prev := prev; gl_cur := cur; gl_f := f; gl_key := winKey (in_key inp) wid |}.

(** The enclosing (organisation) quota. *)
Record parentLocals := mkParent {
  pl_pkey : string;
  pl_pwid : Z;
  pl_preset : Z;
  pl_binds : bool;
  pl_avail : Z;
  pl_expires : Z;
}.

Definition grant_parent (m : Mem) (now : Z) (inp : grantInput) (g : grantLocals) : parentLocals :=
  if (in_parentKey inp =? "")%string then
    {| pl_pkey := ""; pl_pwid := 0; pl_preset := 0; pl_binds := false;
       pl_avail := gl_avail g; pl_expires := gl_expires g |}
  else
    let pwid := (now / in_pwin inp)%i64 in
    let pkey := winKey (in_parentKey inp) pwid in
    let preset := ((pwid + 1) * in_pwin inp - now)%i64 in
    let pavail := (in_plimit inp - Mem_getInt m pkey 0)%i64 in
    {| pl_pkey := pkey; pl_pwid := pwid; pl_preset := preset;
       pl_binds := pavail <? gl_avail g;
       pl_avail := if pavail <? gl_avail g then pavail else gl_avail g;
       pl_expires := Z.min (gl_expires g) preset |}.

(** One pass over the edges seen for a quota: count the active ones and, while
    the set holds more than 64, drop the stale ones. *)
Fixpoint count_edges (now activeMs : Z) (order : list (string * Z)) (set : gmap string Z) (n : Z)
  : Z * gmap string Z :=
  match order with
  | [] => (n, set)
  | (e, at_) :: rest =>
      if (now - activeMs)%i64 <? at_ then count_edges now activeMs rest set (n + 1)
      else if 64 <? Z.of_nat (size set)
      then count_edges now activeMs rest (delete e set) n
      else count_edges now activeMs rest set n
  end.

Section range_order.
(** Go iterates over a map in an unspecified order. *)
Variable range : gmap string Z → list (string * Z).

(** Near the end of a quota, register the asking edge and count the active
    ones. *)
Definition grant_endgame (m : Mem) (now : Z) (inp : grantInput) (avail : Z) : Z * Mem :=
  if negb (in_edge inp =? "")%string && (avail <? (64 * in_target inp)%i64) then
    let set := <[in_edge inp := now]> (default ∅ (edges m !! in_key inp)) in
    let '(n, set') := count_edges now (in_activeMs inp) (range set) set 0 in
    (n, set_edges (in_key inp) set' m)
  else (1, m).

(** When nothing is available: how long until capacity returns. *)
Definition grant_retry (now : Z) (inp : grantInput) (g : grantLocals) (p : parentLocals) : Z :=
  if pl_binds p then Z.min (Z.max (in_pwin inp / 10)%i64 500) (pl_preset p)
  else if (in_algo inp =? TokenBucket)%string then
    let T := f64_div (f64_of_int 1000) (in_rate inp) in
    Z.max (f64_to_int (f64_ceil (f64_sub (f64_sub (f64_add (f64_of_int (gl_tat g)) T)
                                                  (f64_mul (f64_of_int (gl_limit g)) T))
                                         (f64_of_int now)))) 1
  else if (in_algo inp =? SlidingWindow)%string && (0 <? gl_prev g) && (gl_cur g <? gl_limit g) then
    let fneed := f64_sub (f64_of_int 1)
                   (f64_div (f64_of_int (gl_limit g - 1 - gl_cur g)%i64) (f64_of_int (gl_prev g))) in
    Z.min (Z.max (f64_to_int (f64_ceil (f64_mul (f64_sub fneed (gl_f g)) (f64_of_int (in_win inp)))))
                 10) (gl_reset g)
  else Z.min (Z.max (in_win inp / 10)%i64 500) (gl_reset g).

Definition grant_input (m : Mem) (now : Z) (inp : grantInput) : Grant * Mem :=
  let g := grant_algo m now inp in
  let p := grant_parent m now inp g in
  let avail := pl_avail p in
  let '(n, m) := grant_endgame m now inp avail in
  if avail <=? 0 then
    let reset := if (in_algo inp =? TokenBucket)%string then (gl_tat g - now)%i64 else gl_reset g in
    (grantInput_result 0 0 (gl_wid g) (pl_expires p) reset (grant_retry now inp g p) n (pl_pwid p), m)
  else
    let target := if avail <? (n * in_target inp)%i64
                  then ((avail + n - 1) / n)%i64 else in_target inp in
    let grant := Z.min target avail in
    let '(reset, m) :=
      if (in_algo inp =? TokenBucket)%string then
        let T := f64_div (f64_of_int 1000) (in_rate inp) in
        let tat := f64_to_int (f64_ceil (f64_add (f64_of_int (gl_tat g))
                                                 (f64_mul (f64_of_int grant) T))) in
        ((tat - now)%i64, set_val (gl_key g) (f64_of_int tat) m)
      else (gl_reset g, add_val (gl_key g) (f64_of_int grant) m) in
    let m := if (pl_pkey p =? "")%string then m else add_val (pl_pkey p) (f64_of_int grant) m in
    (grantInput_result grant (avail - grant)%i64 (gl_wid g) (pl_expires p) reset 0 n (pl_pwid p), m).

Definition Mem_Grant (m : Mem) (now : Z) (ref : Ref) (spec : Spec) (args : GrantArgs)
  : result error Grant * Mem :=
  match prepare ref spec args with
  | Err e => (Err e, m)
  | Ok inp => let '(g, m) := grant_input m now inp in (Ok g, m)
  end.

(** [GrantAll] over a ledger without batching: one grant after another, each
    reading the clock. *)
Record BatchItem := mkBatchItem { bi_Ref : Ref; bi_Spec : Spec; bi_Args : GrantArgs }.

Fixpoint GrantAll (m : Mem) (items : list (Z * BatchItem)) : list (result error Grant) * Mem :=
  match items with
  | [] => ([], m)
  | (now, it) :: rest =>
      let '(r, m) := Mem_Grant m now (bi_Ref it) (bi_Spec it) (bi_Args it) in
      let '(rs, m) := GrantAll m rest in
      (r :: rs, m)
  end.
End range_order.

Definition Mem_credit (key : string) (tokens : Z) (m : Mem) : Mem :=
  let used := Mem_getInt m key 0 in
  set_val key (f64_of_int (used - Z.min tokens used)%i64) m.

(** The body of [Mem.Return]'s loop for one prepared return. *)
Definition return_input (m : Mem) (now : Z) (inp : returnInput) : Mem :=
  if negb (ri_dedupeKey inp =? "")%string && bool_decide (ri_dedupeKey inp ∈ deduped m) then m
  else
    let m := if (ri_dedupeKey inp =? "")%string then m else mark_deduped (ri_dedupeKey inp) m in
    let m :=
      if (ri_algo inp =? TokenBucket)%string then
        let T := f64_div (f64_of_int 1000) (ri_rate inp) in
        let tat := Z.max (Mem_getInt m (ri_key inp) now) now in
        let tat := f64_to_int (f64_ceil (f64_sub (f64_of_int tat)
                                                 (f64_mul (f64_of_int (ri_tokens inp)) T))) in
        set_val (ri_key inp) (f64_of_int (Z.max tat now)) m
      else if (now / ri_win inp)%i64 =? ri_wid inp
      then Mem_credit (winKey (ri_key inp) (ri_wid inp)) (ri_tokens inp) m
      else m in
    if negb (ri_parentKey inp =? "")%string && ((now / ri_pwin inp)%i64 =? ri_pwid inp)
    then Mem_credit (winKey (ri_parentKey inp) (ri_pwid inp)) (ri_tokens inp) m
    else m.

(** An invalid item ends the call; the items before it stay applied. *)
Fixpoint Mem_Return (m : Mem) (now : Z) (dedupe : string) (returns : list Return)
  : option error * Mem :=
  match returns with
  | [] => (None, m)
  | r :: rest =>
      match prepareReturn r dedupe with
      | Err e => (Some e, m)
      | Ok inp => Mem_Return (return_input m now inp) now dedupe rest
      end
  end.

Definition Mem_ActiveEdges (m : Mem) (ref : Ref) (spec : Spec) : gset string :=
  dom (default ∅ (edges m !! Ref_Key ref (spec_Algo spec))).

(** ** Regional allocation ([region.go]) *)

Definition lendKey (base id : string) : string := base +:+ ":lend:" +:+ id.
Definition creditKey (base id : string) : string := base +:+ ":credit:" +:+ id.

(** [Lend] reads the clock twice: for the window test and for the pace. *)
Definition Mem_Lend (m : Mem) (now now' : Z) (ref : Ref) (spec : Spec)
  (base wid want margin : Z) (id : string) : result error Z * Mem :=
  if negb (Algo_Or (spec_Algo spec) =? FixedWindow)%string then (Err ErrBadSpec, m)
  else
    let win := windowMs spec in
    if negb ((now / win)%i64 =? wid) then (Ok 0, m)
    else
      let key := Ref_Key ref (spec_Algo spec) in
      match vals m !! lendKey key id with
      | Some v => (Ok (f64_to_int v), m)
      | None =>
          let ak := allocKey key wid in
          let alloc := (base + Mem_getInt m ak 0)%i64 in
          let used := Mem_getInt m (winKey key wid) 0 in
          let elapsed := (now' - wid * win)%i64 in
          let margin := Z.max margin
            (f64_to_int (f64_ceil (f64_div (f64_of_int (used * (win - elapsed))%i64)
                                           (f64_of_int (Z.max elapsed 1))))) in
          let give := Z.max (Z.min want (alloc - used - margin)%i64) 0 in
          let m := set_val ak (f64_sub (default f64_zero (vals m !! ak)) (f64_of_int give)) m in
          (Ok give, set_val (lendKey key id) (f64_of_int give) m)
      end.

Definition Mem_Credit (m : Mem) (now : Z) (ref : Ref) (spec : Spec) (wid amount : Z) (id : string)
  : result error bool * Mem :=
  if negb (Algo_Or (spec_Algo spec) =? FixedWindow)%string then (Err ErrBadSpec, m)
  else if negb ((now / windowMs spec)%i64 =? wid) then (Ok false, m)
  else
    let key := Ref_Key ref (spec_Algo spec) in
    if bool_decide (creditKey key id ∈ deduped m) then (Ok false, m)
    else
      let m := mark_deduped (creditKey key id) m in
      (Ok true, add_val (allocKey key wid) (f64_of_int amount) m).

Definition Mem_Allocation (m : Mem) (ref : Ref) (spec : Spec) (wid : Z) : Z :=
  Mem_getInt m (allocKey (Ref_Key ref (spec_Algo spec)) wid) 0.

Definition WindowOf (spec : Spec) (tMs : Z) : Z := (tMs / windowMs spec)%i64.
