(* ===== verification/LedgerFacts.v ===== *)
(** * Facts about the ledger's operations

    Which key a counter lives under, and what one grant or one return does to
    the counters: the functional behaviour of [Mem.Grant] and [Mem.Return] on
    every branch, for all three algorithms. *)

From S2P Require Import Prelude Float64 Ledger.
From Stdlib Require Import Ascii.

Local Open Scope Z_scope.

(** ** Key space *)

Definition algos : list string := [FixedWindow; SlidingWindow; TokenBucket].

(** A base key: it ends with the algorithm's name. *)
Definition is_base (b : string) : Prop :=
  ∃ p a, b = p +:+ ":" +:+ a ∧ a ∈ algos.

Lemma append_assoc (a b c : string) : (a +:+ b) +:+ c = a +:+ (b +:+ c).
Proof. apply (inj chars). by rewrite !chars_app, (assoc (++)). Qed.

Lemma Algo_Or_algos a : Algo_Valid a = true → Algo_Or a ∈ algos.
Proof.
  unfold Algo_Valid, Algo_Or, algos. intros Hv.
  destruct (a =? "")%string; [set_solver|].
  cbn [orb] in Hv. apply orb_true_iff in Hv as [[Hv|Hv]%orb_true_iff|Hv];
    apply String.eqb_eq in Hv; subst; set_solver.
Qed.

Lemma is_base_app p b : is_base b → is_base (p +:+ b).
Proof.
  intros (q & a & -> & Ha). exists (p +:+ q), a. split; [|done]. by rewrite append_assoc.
Qed.

Lemma is_base_algo a : Algo_Valid a = true → is_base (":" +:+ Algo_Or a).
Proof. exists "", (Algo_Or a). split; [done|]. by apply Algo_Or_algos. Qed.

Lemma Ref_Key_base r a : Algo_Valid a = true → is_base (Ref_Key r a).
Proof. intros Hv. unfold Ref_Key. repeat first [by apply is_base_algo | apply is_base_app]. Qed.

Lemma Ref_ParentKey_base r a : Algo_Valid a = true → is_base (Ref_ParentKey r a).
Proof.
  intros Hv. unfold Ref_ParentKey. change "}:org:" with ("}:org" +:+ ":").
  rewrite (append_assoc "}:org"). repeat first [by apply is_base_algo | apply is_base_app].
Qed.

Lemma colon_sep : is_sep ":".
Proof. by left. Qed.

Lemma underscore_sep : is_sep "_".
Proof. unfold is_sep. naive_solver. Qed.

(** Two keys of the form [base:tail] with no colon in the tails. *)
Lemma tail_inj a b x y :
  ¬ has_char ":" x → ¬ has_char ":" y → a +:+ ":" +:+ x = b +:+ ":" +:+ y → a = b ∧ x = y.
Proof.
  intros Hx Hy E. apply (f_equal chars) in E. rewrite !chars_app in E.
  apply (split_last ":"%char) in E as [E1 E2]; [|done..]. by apply (inj chars) in E1, E2.
Qed.

Lemma algos_no_colon a : a ∈ algos → ¬ has_char ":" a.
Proof. unfold algos. rewrite !elem_of_cons. intros [->|[->|[->|[]%elem_of_nil]]]; no_char. Qed.

Lemma algos_underscore a : a ∈ algos → has_char "_" a.
Proof. unfold algos. rewrite !elem_of_cons. intros [->|[->|[->|[]%elem_of_nil]]]; yes_char. Qed.

Lemma base_tail b p x : is_base b → ¬ has_char ":" x → b = p +:+ ":" +:+ x → x ∈ algos.
Proof.
  intros (q & a & -> & Ha) Hx E. apply tail_inj in E as [_ <-]; [done|by apply algos_no_colon|done].
Qed.

Lemma winKey_inj b w b' w' : winKey b w = winKey b' w' → b = b' ∧ w = w'.
Proof.
  unfold winKey. intros [-> E]%tail_inj; [|apply itoa_sep, colon_sep..].
  split; [done|]. by apply (inj itoa).
Qed.

Lemma winKey_not_base b b' w : is_base b → b ≠ winKey b' w.
Proof.
  intros Hb E. assert (Ha : itoa w ∈ algos)
    by (eapply base_tail; [done|apply itoa_sep, colon_sep|exact E]).
  apply algos_underscore in Ha. by apply (itoa_sep "_" w underscore_sep).
Qed.

Lemma allocKey_winKey b w : allocKey b w = winKey (b +:+ ":alloc") w.
Proof. unfold allocKey, winKey. by rewrite append_assoc. Qed.

Lemma allocKey_inj b w b' w' : allocKey b w = allocKey b' w' → b = b' ∧ w = w'.
Proof.
  rewrite !allocKey_winKey. intros [E ->]%winKey_inj. split; [|done].
  apply (f_equal chars) in E. rewrite !chars_app in E. apply app_inj_2 in E as [E _]; [|done].
  by apply (inj chars).
Qed.

Lemma base_not_suffix b b' (x : string) :
  is_base b → ¬ has_char ":" x → ¬ has_char "_" x → b ≠ b' +:+ ":" +:+ x.
Proof. intros Hb Hx Hu E. apply Hu, algos_underscore. by eapply base_tail. Qed.

Lemma allocKey_winKey_ne b w b' w' : is_base b → winKey b w ≠ allocKey b' w'.
Proof.
  intros Hb. rewrite allocKey_winKey. intros [E _]%winKey_inj. revert E.
  change ":alloc" with (":" +:+ "alloc"). apply base_not_suffix; [done|..]; no_char.
Qed.

Lemma lendKey_winKey_ne b w b' id : is_base b → ¬ has_char ":" id → winKey b w ≠ lendKey b' id.
Proof.
  intros Hb Hid. unfold winKey, lendKey. change (b' +:+ ":lend:" +:+ id) with (b' +:+ (":lend" +:+ ":") +:+ id).
  rewrite append_assoc, <- (append_assoc b'). intros [E _]%tail_inj; [|apply itoa_sep, colon_sep|done].
  revert E. change ":lend" with (":" +:+ "lend"). apply base_not_suffix; [done|..]; no_char.
Qed.

Lemma lendKey_allocKey_ne b w b' id : ¬ has_char ":" id → allocKey b w ≠ lendKey b' id.
Proof.
  intros Hid. rewrite allocKey_winKey. unfold winKey, lendKey.
  change (b' +:+ ":lend:" +:+ id) with (b' +:+ (":lend" +:+ ":") +:+ id).
  rewrite (append_assoc ":lend"), <- (append_assoc b').
  intros [E _]%tail_inj; [|apply itoa_sep, colon_sep|done]. revert E.
  change ":lend" with (":" +:+ "lend"). change ":alloc" with (":" +:+ "alloc").
  intros [_ [=]]%tail_inj; no_char.
Qed.

Lemma lendKey_inj b b' id id' :
  ¬ has_char ":" id → ¬ has_char ":" id' → lendKey b id = lendKey b' id' → b = b' ∧ id = id'.
Proof.
  intros Hi Hi'. unfold lendKey. change ":lend:" with (":lend" +:+ ":").
  rewrite !(append_assoc ":lend"), <- !(append_assoc _ ":lend").
  intros [E ->]%tail_inj; [|done..]. split; [|done]. apply (f_equal chars) in E.
  rewrite !chars_app in E. apply app_inj_2 in E as [E _]; [|done]. by apply (inj chars).
Qed.


Lemma append_inj_l a x y : a +:+ x = a +:+ y → x = y.
Proof.
  intros E. apply (f_equal chars) in E. rewrite !chars_app in E.
  apply app_inv_head in E. by apply (inj chars).
Qed.

(** A quota and the organisation budget around it never share a counter. *)
Lemma Ref_ParentKey_ne r a :
  Algo_Valid a = true → (ref_Parent r =? "")%string = false →
  Ref_Key r a ≠ Ref_ParentKey r FixedWindow.
Proof.
  intros Hv Hp. unfold Ref_Key, Ref_ParentKey. rewrite Hp.
  set (limit := if (ref_Limit r =? "")%string then "tier" else ref_Limit r).
  change ":org:" with (":" +:+ "org:"). change "}:org:" with ("}:" +:+ "org:").
  rewrite !(append_assoc ":" "org:"), !(append_assoc "}:" "org:"), !(append_assoc "org:").
  intros E. do 8 apply append_inj_l in E. change "org:" with ("org" +:+ ":") in E.
  rewrite (append_assoc "org"), <- (append_assoc limit) in E.
  apply tail_inj in E as [E _].
  - assert (Hc : has_char ":" "org") by (rewrite <- E, !has_char_app; right; left; yes_char).
    by assert (Hn : ¬ has_char ":" "org") by no_char.
  - by apply algos_no_colon, Algo_Or_algos.
  - no_char.
Qed.

(** ** Reduction to numbers *)

(** A call the ledger accepts, and the numbers both implementations use. *)
Record prepared (ref : Ref) (spec : Spec) (args : GrantArgs) (inp : grantInput) : Prop := {
  pr_algo : in_algo inp = Algo_Or (spec_Algo spec);
  pr_valid : Algo_Valid (spec_Algo spec) = true;
  pr_key : in_key inp = Ref_Key ref (spec_Algo spec);
  pr_limit : in_limit inp = spec_Limit spec;
  pr_limit_pos : 0 < spec_Limit spec;
  pr_win : in_win inp = windowMs spec;
  pr_target : 1 ≤ in_target inp;
  pr_target_le : in_target inp ≤ spec_Limit spec;
  pr_alloc : in_allocBase inp = if ga_Regional args then ga_AllocBase args else -1;
  pr_alloc_ok : ga_Regional args = true →
                in_algo inp = FixedWindow ∧ 0 ≤ ga_AllocBase args;
  pr_edge : in_edge inp = ga_EdgeID args;
  pr_parent :
    (in_parentKey inp = "" ∧ (ref_Parent ref = "" ∨ ga_Parent args = None)) ∨
    (∃ p, ga_Parent args = Some p ∧ (ref_Parent ref =? "")%string = false ∧
          in_parentKey inp = Ref_ParentKey ref FixedWindow ∧
          in_plimit inp = spec_Limit p ∧ 0 < spec_Limit p ∧ in_pwin inp = windowMs p);
}.

Lemma GrantArgs_target_pos a : 1 ≤ GrantArgs_target a.
Proof. unfold GrantArgs_target. lia. Qed.

(** No request, however large, is sized above the whole quota. *)
Lemma prepare_target_le limit target :
  0 < limit → limit ≤ 368934881474191032 → 1 ≤ target →
  1 ≤ (if limit <? target then Z.min target (Z.max 1 (limit * bankerCapPct / 100)%i64) else target)
    ≤ limit.
Proof.
  intros Hl Hmax Ht. destruct (Z.ltb_spec limit target) as [Hlt|Hge]; [|lia].
  unfold bankerCapPct, i64_div, i64_mul. rewrite (wrap64_small (limit * 25)) by i64_range.
  rewrite quot_div_pos by lia.
  assert (0 ≤ (limit * 25) `div` 100 ≤ limit).
  { split; [apply Z.div_pos; lia|]. apply Z.div_le_upper_bound; lia. }
  rewrite wrap64_small by i64_range. lia.
Qed.

Lemma Spec_validate_None s :
  Spec_validate s = None → Algo_Valid (spec_Algo s) = true ∧ 0 < spec_Limit s.
Proof.
  unfold Spec_validate. destruct (Algo_Valid (spec_Algo s)); cbn [negb orb]; [|done].
  destruct (Z.leb_spec (spec_Limit s) 0); [done|]. done.
Qed.

Lemma prepare_prepared ref spec args inp :
  spec_Limit spec ≤ 368934881474191032 →
  prepare ref spec args = Ok inp → prepared ref spec args inp.
Proof.
  intros Hmax. unfold prepare. destruct (Spec_validate spec) eqn:Hval; [done|].
  apply Spec_validate_None in Hval as [Hv Hpos].
  pose proof (prepare_target_le _ _ Hpos Hmax (GrantArgs_target_pos args)) as Ht.
  cbv zeta. revert Ht. generalize (if spec_Limit spec <? GrantArgs_target args
    then Z.min (GrantArgs_target args) (Z.max 1 (spec_Limit spec * bankerCapPct / 100)%i64)
    else GrantArgs_target args) as t. intros t Ht.
  destruct (ga_Regional args && _) eqn:Hreg; [done|].
  assert (Hal : ga_Regional args = true →
                Algo_Or (spec_Algo spec) = FixedWindow ∧ 0 ≤ ga_AllocBase args).
  { intros Hr. rewrite Hr in Hreg. cbn [andb] in Hreg. apply orb_false_iff in Hreg as [Ha Hb].
    apply negb_false_iff, String.eqb_eq in Ha. split; [done|]. lia. }
  destruct (ga_Parent args) as [p|] eqn:Hp.
  - destruct (ref_Parent ref =? "")%string eqn:Hrp.
    + intros [= <-]. split; cbn; try done; try lia. left. apply String.eqb_eq in Hrp. auto.
    + clear Hreg. destruct (_ || _) eqn:Hpok; [done|]. apply orb_false_iff in Hpok as [Hpl _].
      intros [= <-]. split; cbn; try done; try lia. right. exists p. split_and!; (done || lia).
  - intros [= <-]. split; cbn; try done; try lia. auto.
Qed.

(** Windows last at least a second, so their length in milliseconds is
    positive. *)
Lemma windowMs_pos s : is_int64 (spec_Window s) → 1000 ≤ windowMs s ≤ 9223372036854.
Proof.
  intros Hw. unfold windowMs, Milliseconds, i64_div, Millisecond, Second.
  assert (Hm : 1000000000 ≤ Z.max (spec_Window s) 1000000000 ≤ int64_max) by i64_range.
  rewrite quot_div_pos by lia.
  assert (1000 ≤ Z.max (spec_Window s) 1000000000 `div` 1000000 ≤ 9223372036854).
  { split; [apply Z.div_le_lower_bound; lia|].
    pose proof (Z.div_le_mono (Z.max (spec_Window s) 1000000000) int64_max 1000000) as Hd.
    change (int64_max `div` 1000000) with 9223372036854 in Hd. lia. }
  rewrite wrap64_small by i64_range. done.
Qed.

(** ** Counters *)

(** [holds m k n]: the ledger's value under [k] reads as the integer [n]
    (a missing entry reads as zero), exactly. *)
Definition holds (m : Mem) (k : string) (n : Z) : Prop :=
  default f64_zero (vals m !! k) = f64_of_int n ∧ f64_small n.

Lemma f64_small_0 : f64_small 0.
Proof. unfold f64_small, f64_max_int. lia. Qed.

Lemma holds_getInt m k n : holds m k n → Mem_getInt m k 0 = n.
Proof.
  intros [E Hn]. unfold Mem_getInt. destruct (vals m !! k) as [v|]; cbn in E.
  - subst v. by apply f64_to_of_int.
  - rewrite <- f64_of_int_0 in E. apply f64_of_int_inj; [apply f64_small_0|done..].
Qed.

Lemma holds_inj m k n n' : holds m k n → holds m k n' → n = n'.
Proof. intros H1%holds_getInt H2%holds_getInt. congruence. Qed.

Lemma holds_empty m k : vals m !! k = None → holds m k 0.
Proof. intros E. split; [by rewrite E|apply f64_small_0]. Qed.

Lemma holds_set m k n : f64_small n → holds (set_val k (f64_of_int n) m) k n.
Proof. intros Hn. split; [|done]. cbn. by rewrite lookup_insert_eq. Qed.

Lemma holds_add m k n g :
  holds m k n → f64_small g → f64_small (n + g) → holds (add_val k (f64_of_int g) m) k (n + g).
Proof.
  intros [E Hn] Hg Hng. unfold add_val. rewrite E, f64_add_int by done. by apply holds_set.
Qed.

Lemma holds_vals m m' k n : vals m' !! k = vals m !! k → holds m k n → holds m' k n.
Proof. unfold holds. by intros ->. Qed.

Lemma vals_set_ne m k k' v : k ≠ k' → vals (set_val k v m) !! k' = vals m !! k'.
Proof. apply lookup_insert_ne. Qed.

Lemma vals_add_ne m k k' v : k ≠ k' → vals (add_val k v m) !! k' = vals m !! k'.
Proof. apply lookup_insert_ne. Qed.

#[export] Hint Resolve f64_small_0 holds_set holds_empty : gate.

(** ** The endgame count *)

Definition is_active (now act : Z) (ea : string * Z) : Prop := (now - act)%i64 < snd ea.

#[export] Instance is_active_dec now act ea : Decision (is_active now act ea).
Proof. unfold is_active. apply _. Defined.

Section endgame.
Variable range : gmap string Z → list (string * Z).
Hypothesis range_perm : ∀ s, range s ≡ₚ map_to_list s.

Lemma grant_endgame_vals m now inp avail :
  vals (snd (grant_endgame range m now inp avail)) = vals m ∧
  deduped (snd (grant_endgame range m now inp avail)) = deduped m.
Proof.
  unfold grant_endgame. destruct (_ && _); [|done]. by destruct (count_edges _ _ _ _ _).
Qed.

Lemma count_edges_n now act l s n :
  fst (count_edges now act l s n) =
  n + Z.of_nat (length (filter (is_active now act) l)).
Proof.
  revert s n. induction l as [|[e a] l IH]; intros s n; cbn [count_edges]; [cbn; lia|].
  rewrite filter_cons. unfold is_active at 1. cbn [snd].
  destruct (Z.ltb_spec (now - act)%i64 a); case_decide; try lia.
  - rewrite IH. cbn [length]. lia.
  - destruct (64 <? Z.of_nat (size s)); by rewrite IH.
Qed.

(** The asking edge is always counted, so the split never divides by zero. *)
Lemma grant_endgame_n m now inp avail :
  (now - in_activeMs inp)%i64 < now →
  1 ≤ fst (grant_endgame range m now inp avail) ≤
    Z.of_nat (size (default ∅ (edges m !! in_key inp))) + 1.
Proof using range_perm.
  intros Hact. unfold grant_endgame. destruct (_ && _); [|cbn; lia].
  set (s := <[in_edge inp := now]> (default ∅ (edges m !! in_key inp))).
  pose proof (count_edges_n now (in_activeMs inp) (range s) s 0) as Hn.
  destruct (count_edges _ _ _ _ _) as [n s'] eqn:E. cbn [fst] in *. rewrite Hn.
  split.
  - assert (Hin : (in_edge inp, now) ∈
      filter (is_active now (in_activeMs inp)) (range s)).
    { apply list_elem_of_filter. split; [done|]. rewrite range_perm.
      apply elem_of_map_to_list. apply lookup_insert_eq. }
    destruct (filter _ (range s)); [by apply elem_of_nil in Hin|]. cbn [length]. lia.
  - assert (Hlen : (length (filter (is_active now (in_activeMs inp)) (range s))
                    ≤ S (size (default ∅ (edges m !! in_key inp))))%nat); [|lia].
    etrans; [apply length_filter|]. rewrite range_perm, length_map_to_list.
    unfold s. rewrite map_size_insert. destruct (_ !! in_edge inp); cbn; lia.
Qed.
End endgame.

(** ** One grant *)

(** Milliseconds of a plausible clock: exact as a [float64]. *)
Definition clock_ok (now : Z) : Prop := 0 ≤ now ≤ f64_max_int.
Definition win_ok (win : Z) : Prop := 1000 ≤ win ≤ 9223372036854.

Ltac bounds :=
  unfold clock_ok, win_ok, f64_small, f64_max_int, is_int64, int64_min, int64_max in *; lia.

Lemma window_div now win :
  clock_ok now → win_ok win → (now / win)%i64 = now `div` win ∧ 0 ≤ now `div` win ≤ now.
Proof.
  intros Hn Hw. assert (H0 : 0 ≤ now `div` win ≤ now).
  { split; [apply Z.div_pos; bounds|]. apply Z.div_le_upper_bound; [bounds|].
    unfold clock_ok, win_ok in *. nia. }
  split; [|done]. unfold i64_div. rewrite quot_div_pos by bounds. apply wrap64_small. bounds.
Qed.

(** The end of the window containing [now] is after it, by at most a window. *)
Lemma window_reset now win wid :
  clock_ok now → win_ok win → wid = now `div` win →
  ((wid + 1) * win - now)%i64 = (wid + 1) * win - now ∧ 1 ≤ (wid + 1) * win - now ≤ win.
Proof.
  intros Hn Hw ->. destruct (window_div now win Hn Hw) as [_ H0].
  assert (Hr : 1 ≤ (now `div` win + 1) * win - now ≤ win).
  { pose proof (Z.div_mod now win ltac:(bounds)). pose proof (Z.mod_pos_bound now win ltac:(bounds)).
    lia. }
  split; [|done]. unfold i64_sub, i64_mul, i64_add.
  rewrite (wrap64_small (now `div` win + 1)) by bounds.
  rewrite (wrap64_small ((now `div` win + 1) * win)) by bounds.
  apply wrap64_small. bounds.
Qed.

(** The quota a grant is measured against: the limit, or the region's
    allocation of it. *)
Definition eff_limit (m : Mem) (now : Z) (inp : grantInput) : Z :=
  if 0 <=? in_allocBase inp
  then in_allocBase inp + Mem_getInt m (allocKey (in_key inp) (now `div` in_win inp)) 0
  else in_limit inp.

Section window.
Variables (m : Mem) (now : Z) (inp : grantInput).
Hypothesis Hnow : clock_ok now.
Hypothesis Hwin : win_ok (in_win inp).
Hypothesis Halgo : (in_algo inp =? TokenBucket)%string = false.

Lemma grant_algo_wid : gl_wid (grant_algo m now inp) = now `div` in_win inp.
Proof using Hnow Hwin Halgo.
  unfold grant_algo. rewrite Halgo. destruct (window_div now (in_win inp)) as [-> _]; try done.
  by destruct (in_algo inp =? SlidingWindow)%string.
Qed.

Lemma grant_algo_key :
  gl_key (grant_algo m now inp) = winKey (in_key inp) (now `div` in_win inp).
Proof using Hnow Hwin Halgo.
  unfold grant_algo. rewrite Halgo. destruct (window_div now (in_win inp)) as [-> _]; try done.
  by destruct (in_algo inp =? SlidingWindow)%string.
Qed.

Lemma grant_algo_reset :
  gl_reset (grant_algo m now inp) = (now `div` in_win inp + 1) * in_win inp - now ∧
  gl_expires (grant_algo m now inp) = gl_reset (grant_algo m now inp).
Proof using Hnow Hwin Halgo.
  unfold grant_algo. rewrite Halgo. destruct (window_div now (in_win inp)) as [-> _]; try done.
  destruct (window_reset now (in_win inp) _ Hnow Hwin eq_refl) as [-> _].
  by destruct (in_algo inp =? SlidingWindow)%string.
Qed.

(** A fixed window offers what is left of the limit. *)
Lemma grant_algo_avail_fixed u :
  (in_algo inp =? SlidingWindow)%string = false →
  holds m (winKey (in_key inp) (now `div` in_win inp)) u →
  f64_small (eff_limit m now inp) →
  is_int64 (Mem_getInt m (allocKey (in_key inp) (now `div` in_win inp)) 0) →
  gl_avail (grant_algo m now inp) = eff_limit m now inp - u.
Proof using Hnow Hwin Halgo.
  intros Hs Hu Heff Hal. unfold grant_algo. rewrite Halgo, Hs.
  destruct (window_div now (in_win inp)) as [-> _]; try done.
  cbn [gl_avail]. rewrite (holds_getInt _ _ _ Hu). destruct Hu as [_ Hu].
  unfold eff_limit in *. destruct (0 <=? in_allocBase inp).
  - unfold i64_add, i64_sub. rewrite (wrap64_small (_ + _)) by bounds. apply wrap64_small. bounds.
  - unfold i64_sub. apply wrap64_small. bounds.
Qed.

(** A sliding window also counts what still overlaps of the previous one,
    a weight between nothing and everything it granted. *)
Lemma grant_algo_avail_sliding u prev :
  (in_algo inp =? SlidingWindow)%string = true →
  (0 <=? in_allocBase inp) = false →
  holds m (winKey (in_key inp) (now `div` in_win inp)) u → 0 ≤ u →
  holds m (winKey (in_key inp) (now `div` in_win inp - 1)) prev → 0 ≤ prev →
  f64_small (in_limit inp) →
  ∃ carry, 0 ≤ carry ≤ Z.max prev 1 ∧
    gl_avail (grant_algo m now inp) = in_limit inp - (u + carry).
Proof using Hnow Hwin Halgo.
  intros Hs Hal Hu Hu0 Hp Hp0 Hlim. unfold grant_algo. rewrite Halgo, Hs, Hal.
  destruct (window_div now (in_win inp)) as [-> Hw]; try done.
  assert (Hx : 0 ≤ now - now `div` in_win inp * in_win inp < in_win inp).
  { pose proof (Z.div_mod now (in_win inp) ltac:(bounds)).
    pose proof (Z.mod_pos_bound now (in_win inp) ltac:(bounds)). lia. }
  assert (E1 : (now `div` in_win inp - 1)%i64 = now `div` in_win inp - 1)
    by (apply wrap64_small; bounds).
  assert (E2 : (now - now `div` in_win inp * in_win inp)%i64
               = now - now `div` in_win inp * in_win inp).
  { unfold i64_sub, i64_mul. rewrite (wrap64_small (_ * _)) by bounds. apply wrap64_small. bounds. }
  cbn [gl_avail]. rewrite E1, E2, (holds_getInt _ _ _ Hu), (holds_getInt _ _ _ Hp).
  destruct Hu as [_ Hus], Hp as [_ Hps].
  pose proof (sliding_carry prev _ _ ltac:(bounds) Hx ltac:(bounds)) as Hc.
  set (carry := f64_to_int _) in *. exists carry. split; [done|].
  unfold i64_sub, i64_add. rewrite (wrap64_small (u + carry)) by bounds. apply wrap64_small. bounds.
Qed.
End window.

(** The split never rounds a grant down to nothing. *)
Lemma split_target avail n target :
  1 ≤ avail ≤ f64_max_int → 1 ≤ n ≤ 1099511627776 → 1 ≤ target →
  1 ≤ Z.min (if avail <? (n * target)%i64 then ((avail + n - 1) / n)%i64 else target) avail ≤ avail.
Proof.
  intros Ha Hn Ht. destruct (avail <? _); [|lia].
  unfold i64_div, i64_sub, i64_add. rewrite (wrap64_small (avail + n)) by bounds.
  rewrite (wrap64_small (avail + n - 1)) by bounds. rewrite quot_div_pos by lia.
  assert (1 ≤ (avail + n - 1) `div` n ≤ avail + n).
  { split; [apply Z.div_le_lower_bound; lia|apply Z.div_le_upper_bound; nia]. }
  rewrite wrap64_small by bounds. lia.
Qed.

(** What a grant does to the ledger's values. *)
Record granted_by (m m' : Mem) (inp : grantInput) (key pkey : string) (avail granted : Z) : Prop := {
  gb_range : 0 ≤ granted;
  gb_none : avail ≤ 0 → granted = 0;
  gb_some : 0 < avail → 1 ≤ granted ≤ avail;
  gb_vals : vals m' =
    (if granted =? 0 then vals m
     else
       let m1 := add_val key (f64_of_int granted) m in
       vals (if (pkey =? "")%string then m1 else add_val pkey (f64_of_int granted) m1));
  gb_dedup : deduped m' = deduped m;
}.

Section grant.
Variable range : gmap string Z → list (string * Z).
Hypothesis range_perm : ∀ s, range s ≡ₚ map_to_list s.

Lemma grant_input_window m now inp :
  let g := grant_algo m now inp in
  let p := grant_parent m now inp g in
  let '(gr, m') := grant_input range m now inp in
  clock_ok now → (in_algo inp =? TokenBucket)%string = false →
  (now - in_activeMs inp)%i64 < now →
  1 ≤ in_target inp → pl_avail p ≤ f64_max_int →
  Z.of_nat (size (default ∅ (edges m !! in_key inp))) < 1099511627776 →
  granted_by m m' inp (gl_key g) (pl_pkey p) (pl_avail p) (g_Granted gr) ∧
  g_WindowID gr = gl_wid g ∧
  g_ExpiresIn gr = (pl_expires p * Millisecond)%i64 ∧
  g_ResetIn gr = (Z.max 0 (gl_reset g) * Millisecond)%i64 ∧
  g_ParentWindowID gr = pl_pwid p.
Proof using range_perm.
  intros g p. unfold grant_input. fold g. fold p.
  pose proof (grant_endgame_n range range_perm m now inp (pl_avail p)) as Hn.
  pose proof (grant_endgame_vals range m now inp (pl_avail p)) as [Hv Hd].
  destruct (grant_endgame range m now inp (pl_avail p)) as [n m0]. cbn [fst snd] in *.
  destruct (Z.leb_spec (pl_avail p) 0) as [Hle|Hgt].
  - intros Hnow Halgo Hact Ht Hav Hsz. rewrite Halgo. cbn. split_and!; try done.
    split; cbn; try done; lia.
  - destruct (in_algo inp =? TokenBucket)%string eqn:Htb; [done|].
    intros Hnow _ Hact Ht Hav Hsz. specialize (Hn Hact).
    pose proof (split_target (pl_avail p) n (in_target inp)) as Hst.
    set (t := if pl_avail p <? (n * in_target inp)%i64 then _ else _) in *.
    cbn. split_and!; try done. split; try lia.
    + rewrite (proj2 (Z.eqb_neq _ _)) by lia. cbv zeta. unfold add_val, set_val.
      rewrite <- Hv. by destruct (pl_pkey p =? "")%string.
    + unfold add_val, set_val. by destruct (pl_pkey p =? "")%string.
Qed.
End grant.

(** ** What one call does to one counter *)

Section effects.
Variable range : gmap string Z → list (string * Z).
Hypothesis range_perm : ∀ s, range s ≡ₚ map_to_list s.

(** A grant changes only the counter it charges, its parent's, and (for a
    token bucket) the bucket itself. *)
Lemma grant_input_frame m now inp k :
  let g := grant_algo m now inp in
  k ≠ gl_key g → (in_parentKey inp ≠ "" → k ≠ pl_pkey (grant_parent m now inp g)) →
  vals (snd (grant_input range m now inp)) !! k = vals m !! k.
Proof.
  intros g Hk Hpk. unfold grant_input. fold g.
  set (p := grant_parent m now inp g) in *.
  pose proof (grant_endgame_vals range m now inp (pl_avail p)) as [Hv _].
  destruct (grant_endgame range m now inp (pl_avail p)) as [n m0]. cbn [snd] in Hv.
  destruct (pl_avail p <=? 0); cbn [snd]; [by rewrite Hv|].
  assert (Hpp : (pl_pkey p =? "")%string = false → k ≠ pl_pkey p).
  { unfold p, grant_parent in *. destruct (in_parentKey inp =? "")%string eqn:E; [done|].
    intros _. apply Hpk. intros E'. by rewrite E' in E. }
  destruct (in_algo inp =? TokenBucket)%string;
    destruct (pl_pkey p =? "")%string eqn:E; cbn [snd];
    rewrite ?vals_add_ne by (intros <-; by apply Hpp);
    rewrite ?vals_set_ne, ?vals_add_ne, ?Hv by (intros <-; by apply Hk); done.
Qed.

Lemma grant_input_deduped m now inp :
  deduped (snd (grant_input range m now inp)) = deduped m.
Proof.
  unfold grant_input. set (g := grant_algo m now inp). set (p := grant_parent m now inp g).
  pose proof (grant_endgame_vals range m now inp (pl_avail p)) as [_ Hd].
  destruct (grant_endgame range m now inp (pl_avail p)) as [n m0]. cbn [snd] in Hd.
  destruct (pl_avail p <=? 0); [done|].
  destruct (in_algo inp =? TokenBucket)%string; by destruct (pl_pkey p =? "")%string.
Qed.

(** The sets of edges grow by at most one entry per grant. *)
Lemma count_edges_subset now act l s n : snd (count_edges now act l s n) ⊆ s.
Proof.
  revert s n. induction l as [|[e a] l IH]; intros s n; cbn [count_edges]; [done|].
  destruct (_ <? a); [apply IH|]. destruct (64 <? _); [|apply IH].
  etrans; [apply IH|]. apply delete_subseteq.
Qed.

Definition edges_bounded (N : Z) (m : Mem) : Prop :=
  ∀ k, Z.of_nat (size (default ∅ (edges m !! k))) ≤ N.

Lemma grant_endgame_edges N m now inp avail :
  edges_bounded N m → edges_bounded (N + 1) (snd (grant_endgame range m now inp avail)).
Proof.
  intros HN k. unfold grant_endgame. destruct (_ && _); [|cbn; specialize (HN k); lia].
  set (s := <[in_edge inp := now]> _).
  pose proof (count_edges_subset now (in_activeMs inp) (range s) s 0) as Hsub.
  destruct (count_edges _ _ _ _ _) as [n s']. cbn [snd edges set_edges] in *.
  rewrite lookup_insert. case_decide as Hk; [|specialize (HN k); lia]. subst k. cbn [default].
  assert (Hs' : (size s' ≤ size s)%nat).
  { by apply map_subseteq_size. }
  specialize (HN (in_key inp)). unfold s in Hs'. rewrite map_size_insert in Hs'.
  change (id s') with s'. revert HN Hs'.
  generalize (size (default ∅ (edges m !! in_key inp))) as z. intros z HN Hs'.
  destruct (_ !! in_edge inp); unfold id in Hs'; lia.
Qed.

Lemma grant_input_edges m now inp :
  edges (snd (grant_input range m now inp)) =
  edges (snd (grant_endgame range m now inp
                (pl_avail (grant_parent m now inp (grant_algo m now inp))))).
Proof.
  unfold grant_input. set (g := grant_algo m now inp). set (p := grant_parent m now inp g).
  destruct (grant_endgame range m now inp (pl_avail p)) as [n m0].
  destruct (pl_avail p <=? 0); [done|].
  destruct (in_algo inp =? TokenBucket)%string; by destruct (pl_pkey p =? "")%string.
Qed.
End effects.
