(* ===== verification/LedgerSafety.v ===== *)
(** * No window is granted more than its quota

    The ledger as a state machine: any sequence of grants, returns, loans and
    credits, on any quotas, in any order and at any times.  For one counter
    (one quota in one window, or an organisation's budget in one window) the
    calls that name it are exactly accounted for, and the total it has granted
    never exceeds the limit it is granted under. *)

From S2P Require Import Prelude Float64 Ledger LedgerFacts.
From Stdlib Require Import Ascii.

Local Open Scope Z_scope.

Section effects.
Variable range : gmap string Z → list (string * Z).
Hypothesis range_perm : ∀ s, range s ≡ₚ map_to_list s.

(** How much a grant hands out, for every algorithm. *)
Lemma grant_input_granted m now inp :
  let avail := pl_avail (grant_parent m now inp (grant_algo m now inp)) in
  let granted := g_Granted (fst (grant_input range m now inp)) in
  (now - in_activeMs inp)%i64 < now → 1 ≤ in_target inp → avail ≤ f64_max_int →
  edges_bounded 1099511627775 m →
  0 ≤ granted ∧ (avail ≤ 0 → granted = 0) ∧ (0 < avail → 1 ≤ granted ≤ avail).
Proof using range_perm.
  intros avail granted Hact Ht Hav Hsz. unfold granted, grant_input. fold avail.
  pose proof (grant_endgame_n range range_perm m now inp avail Hact) as Hn.
  destruct (grant_endgame range m now inp avail) as [n m0]. cbn [fst] in Hn.
  specialize (Hsz (in_key inp)).
  destruct (Z.leb_spec avail 0) as [Hle|Hgt]; [cbn; lia|].
  pose proof (split_target avail n (in_target inp) ltac:(lia) ltac:(lia) Ht) as Hst.
  destruct (in_algo inp =? TokenBucket)%string; cbn; lia.
Qed.

(** The parent's counter moves with the grant. *)
Lemma grant_input_parent m now inp u :
  let pkey := winKey (in_parentKey inp) (now `div` in_pwin inp) in
  let granted := g_Granted (fst (grant_input range m now inp)) in
  in_parentKey inp ≠ "" → clock_ok now → win_ok (in_pwin inp) →
  pkey ≠ gl_key (grant_algo m now inp) →
  (now - in_activeMs inp)%i64 < now → 1 ≤ in_target inp →
  edges_bounded 1099511627775 m →
  holds m pkey u → 0 ≤ u → 0 < in_plimit inp ≤ f64_max_int →
  0 ≤ granted ∧ (0 < granted → u + granted ≤ in_plimit inp) ∧
  holds (snd (grant_input range m now inp)) pkey (u + granted).
Proof using range_perm.
  intros pkey granted Hpk Hnow Hw Hne Hact Ht Hsz Hu Hu0 Hpl.
  set (g := grant_algo m now inp) in *. set (p := grant_parent m now inp g).
  assert (Hpe : (in_parentKey inp =? "")%string = false) by (by apply String.eqb_neq).
  assert (Hp : pl_pkey p = pkey ∧ pl_avail p ≤ in_plimit inp - u).
  { unfold p, grant_parent. rewrite Hpe. destruct (window_div now _ Hnow Hw) as [-> _].
    cbn. split; [done|]. fold pkey. rewrite (holds_getInt _ _ _ Hu).
    assert (Es : (in_plimit inp - u)%i64 = in_plimit inp - u)
      by (destruct Hu; apply wrap64_small; bounds).
    rewrite Es. destruct (Z.ltb_spec (in_plimit inp - u) (gl_avail g)); lia. }
  destruct Hp as [Hpkey Hav].
  pose proof (grant_input_granted m now inp Hact Ht ltac:(fold g; fold p; lia) Hsz)
    as (Hg0 & Hgn & Hgs). fold g p granted in Hg0, Hgn, Hgs.
  assert (Hle : 0 < granted → u + granted ≤ in_plimit inp).
  { intros. destruct (Z.le_gt_cases (pl_avail p) 0); [lia|]. specialize (Hgs ltac:(lia)). lia. }
  split_and!; [done..|]. unfold granted, grant_input in *. fold g p in Hle, Hg0, Hgn, Hgs |- *.
  pose proof (grant_endgame_vals range m now inp (pl_avail p)) as [Hv _].
  destruct (grant_endgame range m now inp (pl_avail p)) as [n m0]. cbn [snd] in Hv.
  destruct (pl_avail p <=? 0).
  { cbn. rewrite Z.add_0_r. eapply holds_vals; [|exact Hu]. by rewrite Hv. }
  assert (Hpk0 : (pl_pkey p =? "")%string = false).
  { rewrite Hpkey. apply String.eqb_neq. unfold pkey, winKey. intros E.
    apply (f_equal chars) in E. rewrite !chars_app in E. by destruct (chars (in_parentKey inp)). }
  rewrite Hpk0, Hpkey in *.
  destruct (in_algo inp =? TokenBucket)%string; cbn [fst snd grantInput_result g_Granted] in *;
    (apply holds_add; [|destruct Hu; bounds..]);
    (eapply holds_vals; [|exact Hu]);
    rewrite ?vals_set_ne, ?vals_add_ne by (intros E; by apply Hne); by rewrite Hv.
Qed.

(** The quota's own counter moves with the grant, and what the algorithm
    counted as available bounds it. *)
Lemma grant_input_main m now inp u L :
  let key := winKey (in_key inp) (now `div` in_win inp) in
  let granted := g_Granted (fst (grant_input range m now inp)) in
  (in_algo inp =? TokenBucket)%string = false → clock_ok now → win_ok (in_win inp) →
  (in_parentKey inp ≠ "" → key ≠ winKey (in_parentKey inp) (now / in_pwin inp)%i64) →
  (now - in_activeMs inp)%i64 < now → 1 ≤ in_target inp →
  edges_bounded 1099511627775 m →
  holds m key u → 0 ≤ u → L ≤ f64_max_int →
  gl_avail (grant_algo m now inp) ≤ L - u →
  0 ≤ granted ∧ (0 < granted → u + granted ≤ L) ∧
  holds (snd (grant_input range m now inp)) key (u + granted).
Proof using range_perm.
  intros key granted Halgo Hnow Hw Hne Hact Ht Hsz Hu Hu0 HL Hgl.
  set (g := grant_algo m now inp) in *. set (p := grant_parent m now inp g).
  assert (Hav : pl_avail p ≤ L - u).
  { unfold p, grant_parent. destruct (in_parentKey inp =? "")%string; [done|]. cbn.
    destruct (Z.ltb_spec (in_plimit inp - Mem_getInt m (winKey (in_parentKey inp)
      (now / in_pwin inp)%i64) 0)%i64 (gl_avail g)); lia. }
  pose proof (grant_input_granted m now inp Hact Ht ltac:(fold g; fold p; lia) Hsz)
    as (Hg0 & Hgn & Hgs). fold g p granted in Hg0, Hgn, Hgs.
  assert (Hle : 0 < granted → u + granted ≤ L).
  { intros. destruct (Z.le_gt_cases (pl_avail p) 0); [lia|]. specialize (Hgs ltac:(lia)). lia. }
  split_and!; [done..|].
  assert (Hpp : (pl_pkey p =? "")%string = false → pl_pkey p ≠ key).
  { unfold p, grant_parent. destruct (in_parentKey inp =? "")%string eqn:E; [done|].
    cbn. intros _ E'. apply (Hne ltac:(by apply String.eqb_neq)). done. }
  assert (Hkey : gl_key g = key) by (by apply grant_algo_key).
  unfold granted, grant_input in *. fold g p in Hle, Hg0, Hgn, Hgs |- *.
  pose proof (grant_endgame_vals range m now inp (pl_avail p)) as [Hv _].
  destruct (grant_endgame range m now inp (pl_avail p)) as [n m0]. cbn [snd] in Hv.
  destruct (pl_avail p <=? 0).
  { cbn. rewrite Z.add_0_r. eapply holds_vals; [|exact Hu]. by rewrite Hv. }
  rewrite Halgo, Hkey in *. cbn [fst snd grantInput_result g_Granted] in *.
  assert (Hadd : holds (add_val key (f64_of_int (Z.min
     (if pl_avail p <? (n * in_target inp)%i64 then ((pl_avail p + n - 1) / n)%i64 else in_target inp)
     (pl_avail p))) m0) key (u + Z.min
     (if pl_avail p <? (n * in_target inp)%i64 then ((pl_avail p + n - 1) / n)%i64 else in_target inp)
     (pl_avail p))).
  { apply holds_add; [|destruct Hu; bounds..]. eapply holds_vals; [|exact Hu]. by rewrite Hv. }
  destruct (pl_pkey p =? "")%string eqn:E; [done|].
  eapply holds_vals; [|exact Hadd]. apply vals_add_ne. by apply Hpp.
Qed.
End effects.

(** ** Returns, loans and credits *)

Lemma Mem_credit_spec m k tokens u :
  holds m k u → 0 ≤ u → u + Z.max 0 (- tokens) ≤ f64_max_int →
  ∃ u', holds (Mem_credit k tokens m) k u' ∧ 0 ≤ u' ≤ u + Z.max 0 (- tokens) ∧ u - tokens ≤ u'.
Proof.
  intros Hu Hu0 Ht. unfold Mem_credit. rewrite (holds_getInt _ _ _ Hu). destruct Hu as [_ Hs].
  exists (u - Z.min tokens u). unfold i64_sub. rewrite wrap64_small by bounds.
  split; [apply holds_set; bounds|lia].
Qed.

Lemma Mem_credit_ne m k k' tokens : k ≠ k' → vals (Mem_credit k tokens m) !! k' = vals m !! k'.
Proof. apply vals_set_ne. Qed.

(** The tokens a prepared return gives back to the counter of [b] in window
    [w], or charges to it as debt when negative: those it names for it, unless
    the ledger has seen the return before. *)
Definition return_to (b : string) (w : Z) (m : Mem) (now : Z) (inp : returnInput) : Z :=
  if negb (ri_dedupeKey inp =? "")%string && bool_decide (ri_dedupeKey inp ∈ deduped m) then 0
  else
    (if negb (ri_algo inp =? TokenBucket)%string && ((now / ri_win inp)%i64 =? ri_wid inp)
        && (ri_key inp =? b)%string && (ri_wid inp =? w) then ri_tokens inp else 0) +
    (if (negb (ri_parentKey inp =? "")%string && ((now / ri_pwin inp)%i64 =? ri_pwid inp))
        && (ri_parentKey inp =? b)%string && (ri_pwid inp =? w) then ri_tokens inp else 0).

(** A conditional credit to some counter, seen from one counter. *)
Lemma credit_effect m b w k wid (c : bool) tokens u :
  let t := if c && (k =? b)%string && (wid =? w) then tokens else 0 in
  holds m (winKey b w) u → 0 ≤ u → u + Z.max 0 (- t) ≤ f64_max_int →
  ∃ u', holds (if c then Mem_credit (winKey k wid) tokens m else m) (winKey b w) u' ∧
    0 ≤ u' ≤ u + Z.max 0 (- t) ∧ u - t ≤ u'.
Proof.
  intros t Hu Hu0 Ht. destruct c.
  2:{ exists u. split; [done|]. cbn in *. lia. }
  destruct (decide (winKey k wid = winKey b w)) as [E|Hne].
  - rewrite E. apply winKey_inj in E as [-> ->]. revert Ht. unfold t.
    rewrite String.eqb_refl, Z.eqb_refl. by apply Mem_credit_spec.
  - assert (t = 0) as ->.
    { unfold t. destruct (String.eqb_spec k b) as [->|], (Z.eqb_spec wid w) as [->|]; done. }
    exists u. split; [|lia]. eapply holds_vals; [by apply Mem_credit_ne|done].
Qed.

Lemma return_input_effect m now inp b w u :
  let t := return_to b w m now inp in
  is_base (ri_key inp) → ri_parentKey inp ≠ ri_key inp →
  holds m (winKey b w) u → 0 ≤ u → u + Z.max 0 (- t) ≤ f64_max_int →
  ∃ u', holds (return_input m now inp) (winKey b w) u' ∧
    0 ≤ u' ≤ u + Z.max 0 (- t) ∧ u - t ≤ u'.
Proof.
  intros t Hb Hpk Hu Hu0 Ht. unfold return_input. revert t Ht. unfold return_to.
  destruct (negb (ri_dedupeKey inp =? "")%string && bool_decide _);
    [exists u; split; [done|lia]|]. cbv zeta.
  set (m1 := if (ri_dedupeKey inp =? "")%string then m else mark_deduped (ri_dedupeKey inp) m).
  assert (Hu1 : holds m1 (winKey b w) u).
  { eapply holds_vals; [|exact Hu]. unfold m1. by destruct (ri_dedupeKey inp =? "")%string. }
  set (m2 := if (ri_algo inp =? TokenBucket)%string then _ else _).
  set (t1 := if _ && (ri_wid inp =? w) then ri_tokens inp else 0).
  set (t2 := if _ && (ri_pwid inp =? w) then ri_tokens inp else 0). intros Ht.
  assert (Hz : t1 = 0 ∨ t2 = 0).
  { unfold t1, t2. destruct (String.eqb_spec (ri_key inp) b) as [E1|],
      (String.eqb_spec (ri_parentKey inp) b) as [E2|]; rewrite ?andb_false_r; auto.
    destruct Hpk. by rewrite E1, E2. }
  assert (H2 : ∃ u2, holds m2 (winKey b w) u2 ∧ 0 ≤ u2 ≤ u + Z.max 0 (- t1) ∧ u - t1 ≤ u2).
  { unfold m2, t1 in *. destruct (ri_algo inp =? TokenBucket)%string eqn:Ea; cbn [negb andb] in *.
    - exists u. split; [|lia]. eapply holds_vals; [|exact Hu1]. apply vals_set_ne.
      by apply winKey_not_base.
    - apply credit_effect; [done..|lia]. }
  destruct H2 as (u2 & Hu2 & Hb2 & Hl2).
  destruct (credit_effect m2 b w (ri_parentKey inp) (ri_pwid inp)
    (negb (ri_parentKey inp =? "")%string && ((now / ri_pwin inp)%i64 =? ri_pwid inp))
    (ri_tokens inp) u2) as (u3 & Hu3 & Hb3 & Hl3); [done|lia|fold t2; lia|].
  exists u3. fold t2 in Hb3, Hl3. split; [done|]. lia.
Qed.

Lemma return_input_edges m now inp : edges (return_input m now inp) = edges m.
Proof. unfold return_input, Mem_credit. repeat case_match; done. Qed.

Lemma prepareReturn_facts r dedupe inp :
  prepareReturn r dedupe = Ok inp →
  is_base (ri_key inp) ∧ ri_tokens inp = ret_Tokens r ∧
  ri_key inp = Ref_Key (ret_Ref r) (spec_Algo (ret_Spec r)) ∧
  ri_algo inp = Algo_Or (spec_Algo (ret_Spec r)) ∧ ri_wid inp = ret_WindowID r ∧
  ri_dedupeKey inp = (if (dedupe =? "")%string then "" else ri_key inp +:+ ":ret:" +:+ dedupe) ∧
  ri_parentKey inp ≠ ri_key inp.
Proof.
  unfold prepareReturn. destruct (Spec_validate (ret_Spec r)) eqn:Hv; [done|].
  apply Spec_validate_None in Hv as [Hv _].
  destruct (ret_Parent r) as [p|]; [destruct (ref_Parent (ret_Ref r) =? "")%string eqn:Hrp|];
    intros [= <-]; split_and!; try done; try (by apply Ref_Key_base).
  symmetry. by apply Ref_ParentKey_ne.
Qed.

Lemma Mem_Lend_frame m now now' ref spec base wid want margin id b w :
  is_base b → ¬ has_char ":" id →
  vals (snd (Mem_Lend m now now' ref spec base wid want margin id)) !! winKey b w
  = vals m !! winKey b w.
Proof.
  intros Hb Hid. unfold Mem_Lend. repeat case_match; try done. cbn [snd].
  rewrite vals_set_ne by (symmetry; by apply lendKey_winKey_ne).
  apply vals_set_ne. symmetry. by apply allocKey_winKey_ne.
Qed.

Lemma Mem_Credit_frame m now ref spec wid amount id b w :
  is_base b →
  vals (snd (Mem_Credit m now ref spec wid amount id)) !! winKey b w = vals m !! winKey b w.
Proof.
  intros Hb. unfold Mem_Credit. repeat case_match; try done. cbn [snd].
  rewrite vals_add_ne; [done|]. symmetry. by apply allocKey_winKey_ne.
Qed.

Lemma Mem_Lend_edges m now now' ref spec base wid want margin id :
  edges (snd (Mem_Lend m now now' ref spec base wid want margin id)) = edges m.
Proof. unfold Mem_Lend. by repeat case_match. Qed.

Lemma Mem_Credit_edges m now ref spec wid amount id :
  edges (snd (Mem_Credit m now ref spec wid amount id)) = edges m.
Proof. unfold Mem_Credit. by repeat case_match. Qed.

(** ** The ledger as a state machine *)

(** The calls of the [Ledger] and [Regional] interfaces that change it. *)
Inductive op :=
| OpGrant (now : Z) (ref : Ref) (spec : Spec) (args : GrantArgs)
| OpReturn (now : Z) (dedupe : string) (returns : list Return)
| OpLend (now now' : Z) (ref : Ref) (spec : Spec) (base wid want margin : Z) (id : string)
| OpCredit (now : Z) (ref : Ref) (spec : Spec) (wid amount : Z) (id : string).

Inductive outcome :=
| OGrant (r : result error Grant)
| OReturn (e : option error)
| OLend (r : result error Z)
| OCredit (r : result error bool).

Definition step (range : gmap string Z → list (string * Z)) (m : Mem) (o : op) : outcome * Mem :=
  match o with
  | OpGrant now ref spec args =>
      let '(r, m) := Mem_Grant range m now ref spec args in (OGrant r, m)
  | OpReturn now dedupe returns =>
      let '(e, m) := Mem_Return m now dedupe returns in (OReturn e, m)
  | OpLend now now' ref spec base wid want margin id =>
      let '(r, m) := Mem_Lend m now now' ref spec base wid want margin id in (OLend r, m)
  | OpCredit now ref spec wid amount id =>
      let '(r, m) := Mem_Credit m now ref spec wid amount id in (OCredit r, m)
  end.

Fixpoint run (range : gmap string Z → list (string * Z)) (m : Mem) (ops : list op)
  : list outcome * Mem :=
  match ops with
  | [] => ([], m)
  | o :: ops =>
      let '(r, m) := step range m o in
      let '(rs, m) := run range m ops in
      (r :: rs, m)
  end.

(** Tokens a call's answer charges to the quota with base key [b] in window
    [w]: as the quota granted from, or as the budget around it. *)
Definition granted_to (b : string) (w : Z) (o : op) (r : outcome) : Z :=
  match o, r with
  | OpGrant _ ref spec args, OGrant (Ok g) =>
      (if negb (Algo_Or (spec_Algo spec) =? TokenBucket)%string
          && (Ref_Key ref (spec_Algo spec) =? b)%string && (g_WindowID g =? w)
       then g_Granted g else 0) +
      (match ga_Parent args with
       | Some _ =>
           if negb (ref_Parent ref =? "")%string
              && (Ref_ParentKey ref FixedWindow =? b)%string && (g_ParentWindowID g =? w)
           then g_Granted g else 0
       | None => 0
       end)
  | _, _ => 0
  end.

(** Tokens a call gives back to that quota and window ([credit]), and tokens
    it charges to it as debt. *)
Definition credit (t : Z) : Z := Z.max 0 t.
Definition debt (t : Z) : Z := Z.max 0 (- t).

Fixpoint returned_items (part : Z → Z) (b : string) (w : Z) (m : Mem) (now : Z) (dedupe : string)
  (returns : list Return) : Z :=
  match returns with
  | [] => 0
  | r :: rest =>
      match prepareReturn r dedupe with
      | Err _ => 0
      | Ok inp => part (return_to b w m now inp) +
                  returned_items part b w (return_input m now inp) now dedupe rest
      end
  end.

Definition returned_to (part : Z → Z) (b : string) (w : Z) (m : Mem) (o : op) : Z :=
  match o with
  | OpReturn now dedupe returns => returned_items part b w m now dedupe returns
  | _ => 0
  end.

Definition total_granted (b : string) (w : Z) (ops : list op) (rs : list outcome) : Z :=
  foldr (λ '(o, r) n, granted_to b w o r + n) 0 (zip ops rs).

Fixpoint total_returned (part : Z → Z) (range : gmap string Z → list (string * Z))
  (b : string) (w : Z) (m : Mem) (ops : list op) : Z :=
  match ops with
  | [] => 0
  | o :: ops =>
      returned_to part b w m o + total_returned part range b w (snd (step range m o)) ops
  end.

(** Calls as the rest of the program makes them: clocks, windows and limits a
    [float64] holds exactly, loan ids without colons; and every grant
    that names [b] enforces at most [L] on it, from the whole quota rather than
    a region's allocation. *)
Definition horizon_ok (h : Z) : Prop := - 1000000 * Hour ≤ h ≤ 1000000 * Hour.

Definition op_ok (b : string) (L : Z) (o : op) : Prop :=
  match o with
  | OpGrant now ref spec args =>
      clock_ok now ∧ is_int64 (spec_Window spec) ∧ spec_Limit spec ≤ f64_max_int ∧
      horizon_ok (ga_Horizon args) ∧
      (Ref_Key ref (spec_Algo spec) = b → ga_Regional args = false ∧ spec_Limit spec ≤ L) ∧
      (∀ p, ga_Parent args = Some p →
        is_int64 (spec_Window p) ∧ spec_Limit p ≤ f64_max_int ∧
        (Ref_ParentKey ref FixedWindow = b → spec_Limit p ≤ L))
  | OpReturn _ _ _ => True
  | OpLend _ _ _ _ _ _ _ _ id => ¬ has_char ":" id
  | OpCredit _ _ _ _ _ _ => True
  end.

Lemma grant_input_wids range m now inp :
  let g := grant_algo m now inp in
  g_WindowID (fst (grant_input range m now inp)) = gl_wid g ∧
  g_ParentWindowID (fst (grant_input range m now inp)) = pl_pwid (grant_parent m now inp g).
Proof.
  intros g. unfold grant_input. fold g. set (p := grant_parent m now inp g).
  destruct (grant_endgame range m now inp (pl_avail p)) as [n m0].
  destruct (pl_avail p <=? 0); [done|]. by destruct (in_algo inp =? TokenBucket)%string.
Qed.

(** The invariant of one quota: in every window its counter is a number of
    tokens, with room for the debt [d] still to come. *)
Definition counter_inv (b : string) (L : Z) (d : Z → Z) (m : Mem) : Prop :=
  ∀ w, ∃ u, holds m (winKey b w) u ∧ 0 ≤ u ∧ Z.max L u + d w ≤ f64_max_int.

(** One grant seen from one counter. *)
Section one_grant.
Variable range : gmap string Z → list (string * Z).
Hypothesis range_perm : ∀ s, range s ≡ₚ map_to_list s.

Variables (m : Mem) (now : Z) (ref : Ref) (spec : Spec) (args : GrantArgs) (inp : grantInput).
Variables (b : string) (L : Z).
Hypothesis Hprep : prepared ref spec args inp.
Hypothesis Hact : (now - in_activeMs inp)%i64 < now.
Hypothesis Hok : op_ok b L (OpGrant now ref spec args).
Hypothesis Hedges : edges_bounded 1099511627775 m.
Hypothesis Hb : is_base b.

Let granted := g_Granted (fst (grant_input range m now inp)).
Let m' := snd (grant_input range m now inp).

Lemma in_win_ok : win_ok (in_win inp).
Proof using Hprep Hok. rewrite (pr_win _ _ _ _ Hprep). apply windowMs_pos. by destruct Hok as (_ & ? & _). Qed.

Lemma now_ok : clock_ok now.
Proof using Hok. by destruct Hok. Qed.

Lemma in_pwin_ok : in_parentKey inp ≠ "" → win_ok (in_pwin inp).
Proof using Hprep Hok.
  intros Hne. destruct (pr_parent _ _ _ _ Hprep) as [[E _]|(p & Hp & _ & _ & _ & _ & ->)]; [done|].
  destruct Hok as (_ & _ & _ & _ & _ & H). apply windowMs_pos. by apply (H p).
Qed.

Lemma key_parent_ne : in_parentKey inp ≠ "" → in_key inp ≠ in_parentKey inp.
Proof using Hprep.
  intros Hne. destruct (pr_parent _ _ _ _ Hprep) as [[E _]|(p & _ & Hr & -> & _)]; [done|].
  rewrite (pr_key _ _ _ _ Hprep). apply Ref_ParentKey_ne; [|done]. apply (pr_valid _ _ _ _ Hprep).
Qed.

Lemma gl_key_ne w :
  (in_algo inp = TokenBucket ∨ (in_key inp, now `div` in_win inp) ≠ (b, w)) →
  winKey b w ≠ gl_key (grant_algo m now inp).
Proof using Hprep Hok Hb.
  intros Hne. destruct (in_algo inp =? TokenBucket)%string eqn:Ea.
  - unfold grant_algo. rewrite Ea. cbn. rewrite (pr_key _ _ _ _ Hprep). symmetry.
    apply winKey_not_base, Ref_Key_base, (pr_valid _ _ _ _ Hprep).
  - rewrite grant_algo_key by (apply now_ok || apply in_win_ok || done).
    destruct Hne as [Hne|Hne]; [by rewrite Hne in Ea|].
    intros [-> ->]%winKey_inj. done.
Qed.

Lemma grant_frame w :
  (in_algo inp = TokenBucket ∨ (in_key inp, now `div` in_win inp) ≠ (b, w)) →
  (in_parentKey inp ≠ "" → (in_parentKey inp, now `div` in_pwin inp) ≠ (b, w)) →
  vals m' !! winKey b w = vals m !! winKey b w.
Proof using Hprep Hok Hb.
  intros H1 H2. apply grant_input_frame; [by apply gl_key_ne|].
  intros Hp. unfold grant_parent. rewrite (proj2 (String.eqb_neq _ _)) by done.
  destruct (window_div now (in_pwin inp)) as [-> _]; [apply now_ok|by apply in_pwin_ok|].
  cbn. intros [-> ->]%winKey_inj. by apply H2.
Qed.
(** The charge to [b] in window [w], by the numbers of the prepared call. *)
Lemma charge_cases w :
  let r := granted_to b w (OpGrant now ref spec args)
             (OGrant (Ok (fst (grant_input range m now inp)))) in
  (in_algo inp ≠ TokenBucket ∧ in_key inp = b ∧ now `div` in_win inp = w ∧ r = granted ∧
    (in_parentKey inp ≠ "" → in_parentKey inp ≠ b)) ∨
  (in_parentKey inp ≠ "" ∧ in_parentKey inp = b ∧ now `div` in_pwin inp = w ∧ r = granted ∧
    in_key inp ≠ b) ∨
  (r = 0 ∧ vals m' !! winKey b w = vals m !! winKey b w).
Proof using Hprep Hok Hb.
  intros r. pose proof key_parent_ne as Hkp.
  pose proof (grant_input_wids range m now inp) as [Hw Hpw].
  assert (Hr1 : (if negb (Algo_Or (spec_Algo spec) =? TokenBucket)%string
      && (Ref_Key ref (spec_Algo spec) =? b)%string
      && (g_WindowID (fst (grant_input range m now inp)) =? w) then granted else 0) =
    if bool_decide (in_algo inp ≠ TokenBucket ∧ in_key inp = b ∧ now `div` in_win inp = w)
    then granted else 0).
  { rewrite <- (pr_algo _ _ _ _ Hprep), <- (pr_key _ _ _ _ Hprep), Hw.
    destruct (String.eqb_spec (in_algo inp) TokenBucket) as [E|E]; cbn [negb andb].
    - by rewrite bool_decide_eq_false_2 by (by intros (? & _)).
    - rewrite grant_algo_wid by (apply now_ok || apply in_win_ok || by apply String.eqb_neq).
      destruct (String.eqb_spec (in_key inp) b), (Z.eqb_spec (now `div` in_win inp) w);
        cbn [andb]; case_bool_decide as Hd; try done; exfalso;
        first [by destruct Hd as (? & ? & ?)|by apply Hd; split_and!]. }
  assert (Hr2 : r - (if bool_decide (in_algo inp ≠ TokenBucket ∧ in_key inp = b ∧
                                      now `div` in_win inp = w) then granted else 0) =
    if bool_decide (in_parentKey inp ≠ "" ∧ in_parentKey inp = b ∧ now `div` in_pwin inp = w)
    then granted else 0).
  { rewrite <- Hr1. clear Hr1. unfold r. cbn [granted_to]. fold granted.
    match goal with |- ?a + ?p - ?a = _ => transitivity p; [lia|] end.
    rewrite Hpw. unfold grant_parent.
    destruct (pr_parent _ _ _ _ Hprep) as [[E Hc]|(p & -> & Hr & E & _)].
    - rewrite bool_decide_eq_false_2 by (by intros (? & _)).
      destruct Hc as [->| ->]; [|done]. by destruct (ga_Parent args).
    - rewrite Hr, <- E. cbn [negb andb].
      destruct (String.eqb_spec (in_parentKey inp) "") as [E'|E'].
      { by rewrite E' in E. }
      cbn [pl_pwid]. destruct (window_div now (in_pwin inp)) as [-> _];
        [apply now_ok|by apply in_pwin_ok|].
      destruct (String.eqb_spec (in_parentKey inp) b), (Z.eqb_spec (now `div` in_pwin inp) w);
        cbn [andb]; case_bool_decide as Hd; try done; exfalso;
        first [by destruct Hd as (? & ? & ?)|by apply Hd; split_and!]. }
  clear Hr1. case_bool_decide as H1; case_bool_decide as H2.
  - destruct H1 as (_ & E1 & _), H2 as (Hp & E2 & _). exfalso. by apply Hkp; [|rewrite E1, E2].
  - left. destruct H1 as (? & E1 & ?). split_and!; try done; [lia|].
    intros Hp E2. by apply Hkp; [|rewrite E1, E2].
  - right; left. destruct H2 as (? & E2 & ?). split_and!; try done; [lia|].
    intros E1. by apply Hkp; [|rewrite E1, E2].
  - right; right. split; [lia|]. apply grant_frame.
    + destruct (decide (in_algo inp = TokenBucket)); [by left|right]. intros [= ? ?]. by apply H1.
    + intros Hp [= ? ?]. by apply H2.
Qed.
Hypothesis HL : 0 ≤ L ≤ f64_max_int.
Hypothesis Hinv : ∀ w, ∃ u, holds m (winKey b w) u ∧ 0 ≤ u.

(** The algorithm never counts more available than is left of the limit. *)
Lemma main_avail u :
  in_algo inp ≠ TokenBucket → in_key inp = b →
  holds m (winKey b (now `div` in_win inp)) u → 0 ≤ u →
  gl_avail (grant_algo m now inp) ≤ L - u.
Proof using Hprep Hok HL Hinv.
  clear granted m'. intros Ha%String.eqb_neq Hk Hu Hu0.
  pose proof in_win_ok as Hwin. pose proof Hok as (Hnow & _ & Hlim & _ & Hmine & _).
  destruct (Hmine (eq_trans (eq_sym (pr_key _ _ _ _ Hprep)) Hk)) as [Hreg HlimL].
  pose proof (pr_limit _ _ _ _ Hprep) as Hl. pose proof (pr_limit_pos _ _ _ _ Hprep) as Hpos.
  assert (Hal : (0 <=? in_allocBase inp) = false).
  { rewrite (pr_alloc _ _ _ _ Hprep), Hreg. done. }
  destruct (in_algo inp =? SlidingWindow)%string eqn:Hs.
  - destruct (Hinv (now `div` in_win inp - 1)) as (prev & Hp & Hp0).
    destruct (grant_algo_avail_sliding m now inp Hnow in_win_ok Ha u prev) as (c & Hc & ->);
      rewrite ?Hk; try done; [bounds..|]. lia.
  - assert (Heff : eff_limit m now inp = in_limit inp) by (unfold eff_limit; by rewrite Hal).
    assert (Hc : gl_avail (grant_algo m now inp) = in_limit inp - u); [|lia].
    unfold grant_algo. rewrite Ha, Hs, Hal. cbn [gl_avail].
    destruct (window_div now (in_win inp) Hnow in_win_ok) as [-> _]. rewrite <- Hk in Hu.
    rewrite (holds_getInt _ _ _ Hu). destruct Hu as [_ Hu]. apply wrap64_small. bounds.
Qed.

Lemma grant_charge w u :
  let r := granted_to b w (OpGrant now ref spec args)
             (OGrant (Ok (fst (grant_input range m now inp)))) in
  holds m (winKey b w) u → 0 ≤ u →
  0 ≤ r ∧ u + r ≤ Z.max L u ∧ holds m' (winKey b w) (u + r).
Proof using All.
  intros r Hu Hu0. pose proof (pr_target _ _ _ _ Hprep) as Ht.
  unfold r. clear r.
  destruct (charge_cases w) as [(Ha & Hk & Hw & -> & Hp)|[(Hp & Hk & Hw & -> & Hne)|[-> Hv]]].
  - destruct (grant_input_main range range_perm m now inp u L) as (H0 & Hle & Hh);
      rewrite ?Hk, ?Hw; try done; try (by apply String.eqb_neq); try lia.
    + apply now_ok.
    + apply in_win_ok.
    + intros Hpk [E _]%winKey_inj. by apply (Hp Hpk).
    + apply main_avail; try done; by rewrite Hw.
    + rewrite Hk, Hw in Hh. fold granted in Hle, H0. split_and!; [done| |done].
      destruct (Z.eq_dec granted 0); lia.
  - destruct (pr_parent _ _ _ _ Hprep) as [[E _]|(p & Hpa & _ & Hpk & Hpl & Hpos & _)]; [done|].
    assert (Hlp : in_plimit inp ≤ L ∧ 0 < in_plimit inp).
    { pose proof Hok as (_ & _ & _ & _ & _ & H). destruct (H p Hpa) as (_ & _ & HpL).
      rewrite Hpl. split; [|done]. apply HpL. by rewrite <- Hpk. }
    destruct (grant_input_parent range range_perm m now inp u) as (H0 & Hle & Hh);
      rewrite ?Hk, ?Hw; try done; try lia.
    + by rewrite <- Hk.
    + apply now_ok.
    + by apply in_pwin_ok.
    + apply gl_key_ne. right. by intros [= ? ?].
    + rewrite Hk, Hw in Hh. fold granted in Hle, H0. split_and!; [done| |done].
      destruct (Z.eq_dec granted 0); lia.
  - rewrite Z.add_0_r. split_and!; [lia..|]. by eapply holds_vals.
Qed.
End one_grant.

Lemma prepare_active ref spec args inp now :
  prepare ref spec args = Ok inp → horizon_ok (ga_Horizon args) → clock_ok now →
  (now - in_activeMs inp)%i64 < now.
Proof.
  intros Hp Hh Hn.
  assert (E : in_activeMs inp = Milliseconds (Z.max (2 * ga_Horizon args)%i64 (2 * Second)%i64)).
  { revert Hp. unfold prepare. destruct (Spec_validate spec); [done|]. cbv zeta.
    destruct (_ && _); [done|]. destruct (ga_Parent args) as [p|]; [|by intros [= <-]].
    destruct (_ =? "")%string; [by intros [= <-]|]. destruct (_ || _); [done|]. by intros [= <-]. }
  rewrite E. unfold horizon_ok, Hour in Hh. unfold Milliseconds, i64_mul, i64_div, i64_sub.
  rewrite (wrap64_small (2 * ga_Horizon args)) by bounds.
  rewrite (wrap64_small (2 * Second)) by (unfold Second; bounds).
  unfold Second, Millisecond. rewrite quot_div_pos by lia.
  assert (0 < Z.max (2 * ga_Horizon args) (2 * 1000000000) `div` 1000000 ≤ 7200000000000000).
  { split; [apply Z.div_str_pos; lia|apply Z.div_le_upper_bound; lia]. }
  rewrite (wrap64_small (_ `div` _)) by bounds. rewrite wrap64_small by bounds. lia.
Qed.

(** A call moves a counter by what its answer granted and its arguments
    returned: up at most to the limit, or by the debt. *)
Definition moves (b : string) (L : Z) (g c d : Z → Z) (m m' : Mem) : Prop :=
  ∀ w u, holds m (winKey b w) u → 0 ≤ u → Z.max L u + d w ≤ f64_max_int →
    ∃ u', holds m' (winKey b w) u' ∧ 0 ≤ u' ≤ Z.max L u + d w ∧ u + g w + d w - c w ≤ u'.

Lemma moves_frame b L m m' :
  (∀ w, vals m' !! winKey b w = vals m !! winKey b w) →
  moves b L (λ _, 0) (λ _, 0) (λ _, 0) m m'.
Proof. intros E w u Hu Hb _. exists u. split; [eapply holds_vals; [apply E|done]|lia]. Qed.

Lemma moves_inv b L g c d d' m m' :
  moves b L g c d m m' → (∀ w, 0 ≤ d w ∧ 0 ≤ d' w) → counter_inv b L (λ w, d w + d' w) m →
  counter_inv b L d' m'.
Proof.
  intros Hm Hd Hi w. destruct (Hi w) as (u & Hu & Hb & Hle). specialize (Hd w). cbv beta in Hle.
  destruct (Hm w u Hu Hb ltac:(lia)) as (u' & ? & ? & _). exists u'. split_and!; (done || lia).
Qed.

Lemma moves_trans b L g1 c1 d1 g2 c2 d2 m1 m2 m3 :
  moves b L g1 c1 d1 m1 m2 → moves b L g2 c2 d2 m2 m3 →
  (∀ w, 0 ≤ d1 w ∧ 0 ≤ d2 w) →
  moves b L (λ w, g1 w + g2 w) (λ w, c1 w + c2 w) (λ w, d1 w + d2 w) m1 m3.
Proof.
  intros H12 H23 Hd w u Hu Hb Hle. specialize (Hd w). cbv beta in Hle.
  destruct (H12 w u Hu Hb ltac:(lia)) as (u2 & Hu2 & Hb2 & ?).
  destruct (H23 w u2 Hu2 ltac:(lia) ltac:(lia)) as (u3 & Hu3 & Hb3 & ?).
  exists u3. split_and!; (done || lia).
Qed.

Lemma debt_nonneg t : 0 ≤ debt t.
Proof. unfold debt. lia. Qed.

Lemma returned_items_nonneg b w m now dedupe rs : 0 ≤ returned_items debt b w m now dedupe rs.
Proof.
  revert m. induction rs as [|r rs IH]; intros m; cbn [returned_items]; [done|].
  destruct (prepareReturn r dedupe) as [inp|]; [|done].
  pose proof (debt_nonneg (return_to b w m now inp)). specialize (IH (return_input m now inp)). lia.
Qed.

Lemma returned_to_nonneg b w m o : 0 ≤ returned_to debt b w m o.
Proof. destruct o; cbn; try done. apply returned_items_nonneg. Qed.

Lemma total_returned_nonneg range b w m ops : 0 ≤ total_returned debt range b w m ops.
Proof.
  revert m. induction ops as [|o ops IH]; intros m; cbn [total_returned]; [done|].
  pose proof (returned_to_nonneg b w m o). specialize (IH (snd (step range m o))). lia.
Qed.

(** Calls that report no debt charge none. *)
Definition no_debt (o : op) : Prop :=
  match o with
  | OpReturn _ _ returns => Forall (λ r, 0 ≤ ret_Tokens r) returns
  | _ => True
  end.

Lemma total_debt_zero range b w m ops :
  Forall no_debt ops → total_returned debt range b w m ops = 0.
Proof.
  intros Hall. revert m. induction Hall as [|o ops Ho _ IH]; intros m; cbn [total_returned]; [done|].
  rewrite IH. destruct o as [|now dedupe rs| |]; cbn; try done. rewrite Z.add_0_r. clear IH.
  revert m Ho. induction rs as [|r rs IHr]; intros m Hrs; cbn [returned_items]; [done|].
  apply Forall_cons in Hrs as [Hr Hrs].
  destruct (prepareReturn r dedupe) as [inp|] eqn:Hp; [|done]. rewrite IHr by done.
  apply prepareReturn_facts in Hp as (_ & Ht & _). unfold debt, return_to.
  repeat case_match; lia.
Qed.

Lemma Mem_Return_moves b L now dedupe returns m :
  moves b L (λ _, 0) (λ w, returned_items credit b w m now dedupe returns)
    (λ w, returned_items debt b w m now dedupe returns)
    m (snd (Mem_Return m now dedupe returns)).
Proof.
  revert m. induction returns as [|r rs IH]; intros m; cbn [Mem_Return returned_items].
  { by apply moves_frame. }
  destruct (prepareReturn r dedupe) as [inp|e] eqn:Hp; [|by apply moves_frame].
  apply (moves_trans b L (λ _, 0) (λ w, credit (return_to b w m now inp))
           (λ w, debt (return_to b w m now inp)) (λ _, 0) _ _ m (return_input m now inp));
    [|by apply IH|].
  - intros w u Hu Hu0 Hle. destruct (prepareReturn_facts _ _ _ Hp) as (Hbase & _ & _ & _ & _ & _ & Hpk).
    destruct (return_input_effect m now inp b w u) as (u' & Hu' & Hb' & Hl);
      try done; [unfold debt in *; lia|].
    exists u'. unfold credit, debt in *. split_and!; (done || lia).
  - intros w. split; [apply debt_nonneg|apply returned_items_nonneg].
Qed.

Section history.
Variable range : gmap string Z → list (string * Z).
Hypothesis range_perm : ∀ s, range s ≡ₚ map_to_list s.

Lemma step_edges N m o : edges_bounded N m → edges_bounded (N + 1) (snd (step range m o)).
Proof.
  intros HN. assert (Hm : edges_bounded (N + 1) m) by (intros k; specialize (HN k); lia).
  destruct o as [now ref spec args|now dedupe returns|now now' ref spec base wid want margin id
                |now ref spec wid amount id]; cbn [step].
  - unfold Mem_Grant. destruct (prepare ref spec args) as [inp|e]; [|done].
    pose proof (grant_input_edges range m now inp) as E.
    destruct (grant_input range m now inp) as [g m']. cbn [snd] in *. intros k. rewrite E.
    by apply grant_endgame_edges.
  - assert (E : edges (snd (Mem_Return m now dedupe returns)) = edges m).
    { clear. revert m. induction returns as [|r rs IH]; intros m; cbn [Mem_Return]; [done|].
      destruct (prepareReturn r dedupe); [|done]. by rewrite IH, return_input_edges. }
    destruct (Mem_Return m now dedupe returns) as [e m']. cbn in *. intros k. by rewrite E.
  - pose proof (Mem_Lend_edges m now now' ref spec base wid want margin id) as E.
    destruct (Mem_Lend _ _ _ _ _ _ _ _ _ _) as [r m']. cbn in *. intros k. by rewrite E.
  - pose proof (Mem_Credit_edges m now ref spec wid amount id) as E.
    destruct (Mem_Credit _ _ _ _ _ _ _) as [r m']. cbn in *. intros k. by rewrite E.
Qed.

(** A grant charges a counter what its answer granted from it. *)
Lemma step_grant b L m now ref spec args :
  let o := OpGrant now ref spec args in
  is_base b → 0 ≤ L ≤ f64_max_int → op_ok b L o → edges_bounded 1099511627775 m →
  (∀ w, ∃ u, holds m (winKey b w) u ∧ 0 ≤ u) →
  ∀ w u, holds m (winKey b w) u → 0 ≤ u →
    let r := granted_to b w o (fst (step range m o)) in
    0 ≤ r ∧ u + r ≤ Z.max L u ∧ holds (snd (step range m o)) (winKey b w) (u + r).
Proof using range_perm.
  intros o Hb HL Hok He Hinv w u Hu Hu0. cbv zeta. cbn [o step]. unfold Mem_Grant.
  destruct (prepare ref spec args) as [inp|e] eqn:Hp.
  2:{ cbn. rewrite Z.add_0_r. split_and!; try lia. done. }
  assert (Hlim : spec_Limit spec ≤ 368934881474191032)
    by (destruct Hok as (_ & _ & ? & _); bounds).
  pose proof (prepare_active _ _ _ _ now Hp) as Hact.
  assert (Ha : (now - in_activeMs inp)%i64 < now)
    by (destruct Hok as (? & _ & _ & ? & _); by apply Hact).
  pose proof (grant_charge range range_perm m now ref spec args inp b L
    (prepare_prepared _ _ _ _ Hlim Hp) Ha Hok He Hb HL Hinv w u Hu Hu0) as Hc.
  by destruct (grant_input range m now inp) as [g m'].
Qed.

Lemma step_moves b L m o :
  is_base b → 0 ≤ L ≤ f64_max_int → op_ok b L o → edges_bounded 1099511627775 m →
  (∀ w, ∃ u, holds m (winKey b w) u ∧ 0 ≤ u) →
  let r := step range m o in
  moves b L (λ w, granted_to b w o (fst r)) (λ w, returned_to credit b w m o)
    (λ w, returned_to debt b w m o) m (snd r).
Proof using range_perm.
  intros Hb HL Hok He Hinv. cbv zeta.
  destruct o as [now ref spec args|now dedupe returns|now now' ref spec base wid want margin id
                |now ref spec wid amount id]; cbn [step].
  - pose proof (step_grant b L m now ref spec args Hb HL Hok He Hinv) as Hc.
    intros w u Hu Hu0 _. destruct (Hc w u Hu Hu0) as (H0 & Hle & Hh). cbn [step] in *.
    destruct (Mem_Grant _ _ _ _ _ _) as [r m']. cbn [fst snd] in *.
    exists (u + granted_to b w (OpGrant now ref spec args) (OGrant r)).
    split; [done|]. cbn [returned_to]. lia.
  - pose proof (Mem_Return_moves b L now dedupe returns m) as Hm.
    by destruct (Mem_Return m now dedupe returns).
  - pose proof (Mem_Lend_frame m now now' ref spec base wid want margin id b) as E.
    destruct (Mem_Lend _ _ _ _ _ _ _ _ _ _). cbn in *. apply moves_frame. intros w. by apply E.
  - pose proof (Mem_Credit_frame m now ref spec wid amount id b) as E.
    destruct (Mem_Credit _ _ _ _ _ _ _). cbn in *. apply moves_frame. intros w. by apply E.
Qed.

Lemma run_moves b L N ops m :
  is_base b → 0 ≤ L ≤ f64_max_int → Forall (op_ok b L) ops →
  edges_bounded N m → N + Z.of_nat (length ops) ≤ 1099511627775 →
  counter_inv b L (λ w, total_returned debt range b w m ops) m →
  let r := run range m ops in
  moves b L (λ w, total_granted b w ops (fst r))
    (λ w, total_returned credit range b w m ops)
    (λ w, total_returned debt range b w m ops) m (snd r).
Proof using range_perm.
  intros Hb HL Hok. revert N m. induction Hok as [|o ops Ho _ IH]; intros N m HN Hlen Hinv.
  { by apply moves_frame. }
  cbn [run length total_returned] in *.
  pose proof (step_moves b L m o Hb HL Ho) as Hs. pose proof (step_edges N m o HN) as Hed.
  destruct (step range m o) as [r1 m1]. cbn [fst snd] in *.
  assert (Hm1 : moves b L (λ w, granted_to b w o r1) (λ w, returned_to credit b w m o)
                  (λ w, returned_to debt b w m o) m m1).
  { apply Hs; [|intros w; destruct (Hinv w) as (u & ? & ? & _); eauto].
    intros k. specialize (HN k). lia. }
  pose proof (λ w, conj (returned_to_nonneg b w m o) (total_returned_nonneg range b w m1 ops)) as Hnn.
  specialize (IH (N + 1) m1 Hed ltac:(lia) (moves_inv _ _ _ _ _ _ _ _ Hm1 Hnn Hinv)).
  destruct (run range m1 ops) as [rs m2]. cbn [fst snd] in *.
  exact (moves_trans _ _ _ _ _ _ _ _ _ _ _ Hm1 IH Hnn).
Qed.

Lemma NewMem_edges : edges_bounded 0 NewMem.
Proof. intros k. cbn. rewrite lookup_empty. done. Qed.

(** C2: whatever calls a ledger has served, in any order, from any number of
    edges and at any clock readings, the tokens its answers granted from a
    quota (or an organisation's budget) in one window exceed the limit
    enforced on it by no more than the tokens given back to that window; and
    its counter never leaves the range from zero to the limit plus the debt
    reported to it.  A return delivered twice counts once. *)
Theorem ledger_never_over_grants b L ops :
  let '(rs, m) := run range NewMem ops in
  let debts w := total_returned debt range b w NewMem ops in
  is_base b → 0 ≤ L → Forall (op_ok b L) ops → Z.of_nat (length ops) ≤ 1099511627775 →
  (∀ w, L + debts w ≤ f64_max_int) →
  ∀ w, (0 ≤ Mem_getInt m (winKey b w) 0 ≤ L + debts w) ∧
    total_granted b w ops rs ≤ L + total_returned credit range b w NewMem ops.
Proof using range_perm.
  pose proof (run_moves b L 0 ops NewMem) as Hr.
  destruct (run range NewMem ops) as [rs m]. cbn [fst snd] in Hr. intros debts Hb HL Hok Hlen Hd w.
  assert (Hnn : ∀ w, 0 ≤ debts w) by (intros; apply total_returned_nonneg).
  assert (Hi : counter_inv b L debts NewMem).
  { intros w'. exists 0. split; [by apply holds_empty|]. specialize (Hd w'). specialize (Hnn w'). lia. }
  specialize (Hd w) as Hdw. specialize (Hnn w).
  destruct (Hr Hb ltac:(lia) Hok NewMem_edges Hlen Hi w 0) as (u & Hu & Hb' & Hle);
    [by apply holds_empty|done|..];
    change (total_returned debt range b w NewMem ops) with (debts w) in *; [lia|].
  rewrite (holds_getInt _ _ _ Hu). lia.
Qed.
End history.

(** A history in which every kind of call happens: two edges draw on a quota of
    ten, one gives three tokens back, a region lends and is credited. *)
Module Example_history.

Definition ref := mkRef "default" "api" "" "alice" "".
Definition spec := mkSpec FixedWindow 10 Minute f64_zero.
Definition ask (edge : string) (n : Z) := mkGrantArgs n edge Second f64_zero 0 0 None false 0.
Definition base := Ref_Key ref FixedWindow.
Definition t0 : Z := 1700000000123.

Definition ops : list op :=
  [ OpGrant t0 ref spec (ask "edge-1" 6);
    OpGrant (t0 + 5) ref spec (ask "edge-2" 6);
    OpReturn (t0 + 9) "r1" [mkReturn ref spec None (t0 `div` 60000) 0 3];
    OpReturn (t0 + 9) "r1" [mkReturn ref spec None (t0 `div` 60000) 0 3];
    OpLend (t0 + 10) (t0 + 10) ref spec 0 (t0 `div` 60000) 4 0 "x";
    OpCredit (t0 + 11) ref spec (t0 `div` 60000) 4 "y";
    OpGrant (t0 + 20) ref spec (ask "edge-2" 6) ].

Lemma ops_ok : Forall (op_ok base 10) ops.
Proof.
  unfold ops. repeat (apply Forall_cons; split); [..|apply Forall_nil; done];
    cbn [op_ok]; try no_char; try done;
    split_and!; try done; unfold t0, horizon_ok, Hour; cbn; try bounds; by intros ? [=].
Qed.

Lemma ops_no_debt : Forall no_debt ops.
Proof.
  unfold ops. repeat (apply Forall_cons; split); [..|apply Forall_nil; done];
    cbn [no_debt]; try done; repeat constructor.
Qed.

End Example_history.

Lemma ledger_never_over_grants_witness :
  let '(rs, m) := run map_to_list NewMem Example_history.ops in
  let w := Example_history.t0 `div` 60000 in
  (0 ≤ Mem_getInt m (winKey Example_history.base w) 0 ≤ 10 + 0) ∧
  total_granted Example_history.base w Example_history.ops rs ≤ 10 + 3.
Proof.
  pose proof (ledger_never_over_grants map_to_list (λ s, reflexivity _) Example_history.base 10
                Example_history.ops) as H.
  assert (E : total_returned credit map_to_list Example_history.base
                (Example_history.t0 `div` 60000) NewMem Example_history.ops = 3)
    by (vm_compute; reflexivity).
  destruct (run map_to_list NewMem Example_history.ops) as [rs m]. cbv zeta in *.
  rewrite <- E.
  rewrite <- (total_debt_zero map_to_list Example_history.base (Example_history.t0 `div` 60000)
                NewMem Example_history.ops) at 2 by apply Example_history.ops_no_debt.
  apply H.
  - by apply Ref_Key_base.
  - lia.
  - apply Example_history.ops_ok.
  - cbn. lia.
  - intros w. rewrite total_debt_zero by apply Example_history.ops_no_debt.
    unfold f64_max_int. lia.
Defined.
