(* ===== verification/LedgerProps.v ===== *)
(** * What one call to the ledger promises

    The behaviour of a single grant, return, loan or credit: which calls are
    refused, how much a grant hands out and until when, and that repeating a
    return, a loan or a credit changes nothing. *)

From S2P Require Import Prelude Float64 Ledger LedgerFacts LedgerSafety.
From Stdlib Require Import Ascii.

Local Open Scope Z_scope.

(** ** Repeated deliveries *)

Lemma return_input_seen m now inp :
  ri_dedupeKey inp ≠ "" → ri_dedupeKey inp ∈ deduped m → return_input m now inp = m.
Proof.
  intros Hne Hin. unfold return_input.
  rewrite (proj2 (String.eqb_neq _ _) Hne), (bool_decide_eq_true_2 _ Hin). done.
Qed.

Lemma return_input_marks m now inp :
  deduped (return_input m now inp) =
  (if (ri_dedupeKey inp =? "")%string then deduped m else {[ri_dedupeKey inp]} ∪ deduped m).
Proof.
  unfold return_input. destruct (ri_dedupeKey inp =? "")%string; cbn [negb andb].
  - by repeat case_match.
  - case_bool_decide as Hin; [set_solver|]. by repeat case_match.
Qed.

Lemma Mem_Return_deduped m now dedupe rs :
  deduped m ⊆ deduped (snd (Mem_Return m now dedupe rs)).
Proof.
  revert m. induction rs as [|r rs IH]; intros m; cbn [Mem_Return]; [done|].
  destruct (prepareReturn r dedupe) as [inp|]; [|done].
  etrans; [|apply IH]. rewrite return_input_marks. case_match; set_solver.
Qed.

(** A ledger that has the marks of a delivery ignores the same items. *)
Lemma Mem_Return_seen m m0 now now' dedupe rs :
  dedupe ≠ "" → deduped (snd (Mem_Return m now dedupe rs)) ⊆ deduped m0 →
  Mem_Return m0 now' dedupe rs = (fst (Mem_Return m now dedupe rs), m0).
Proof.
  intros Hd. revert m. induction rs as [|r rs IH]; intros m Hm0; cbn [Mem_Return] in *; [done|].
  destruct (prepareReturn r dedupe) as [inp|e] eqn:Hp; [|done].
  apply prepareReturn_facts in Hp as (_ & _ & _ & _ & _ & Hk & _).
  rewrite (proj2 (String.eqb_neq _ _) Hd) in Hk.
  assert (Hne : ri_dedupeKey inp ≠ "").
  { rewrite Hk. intros E. apply (f_equal chars) in E. rewrite !chars_app in E.
    by destruct (chars (ri_key inp)). }
  rewrite return_input_seen; [by apply IH|done|]. apply Hm0.
  apply (Mem_Return_deduped (return_input m now inp)). rewrite return_input_marks.
  rewrite (proj2 (String.eqb_neq _ _) Hne). set_solver.
Qed.

(** C15: a return that is delivered again (a retried call carries the same
    idempotency token) changes nothing, whenever it arrives and even if the
    call failed half way through its list. *)
Theorem return_applied_once m now now' dedupe rs :
  dedupe ≠ "" →
  Mem_Return (snd (Mem_Return m now dedupe rs)) now' dedupe rs =
  Mem_Return m now dedupe rs.
Proof.
  intros Hd. rewrite (Mem_Return_seen m _ now) by done. by destruct (Mem_Return m now dedupe rs).
Qed.

Lemma return_applied_once_witness :
  let rs := [mkReturn Example_history.ref Example_history.spec None 28333333 0 3] in
  let m := snd (run map_to_list NewMem (take 2 Example_history.ops)) in
  Mem_Return (snd (Mem_Return m Example_history.t0 "r1" rs)) (Example_history.t0 + 50) "r1" rs =
  Mem_Return m Example_history.t0 "r1" rs.
Proof. intros rs m. by apply return_applied_once. Defined.

Lemma lendKey_stored m now now' ref spec base wid want margin id give :
  fst (Mem_Lend m now now' ref spec base wid want margin id) = Ok give → 0 < give ≤ f64_max_int →
  ∃ v, vals (snd (Mem_Lend m now now' ref spec base wid want margin id))
         !! lendKey (Ref_Key ref (spec_Algo spec)) id = Some v ∧ f64_to_int v = give.
Proof.
  unfold Mem_Lend. destruct (negb _); [done|]. destruct (negb _); [intros [= <-]; lia|].
  destruct (vals m !! _) as [v|] eqn:E.
  - cbn. intros [= <-] _. eauto.
  - cbn [fst snd]. intros [= <-] Hg. cbn [vals set_val]. rewrite lookup_insert_eq.
    eexists. split; [done|]. apply f64_to_of_int. bounds.
Qed.

(** a loan is made once per transfer: asking again with the same id in the
    window, whatever the new amounts, answers the first loan and leaves the
    ledger as it is; and a credit with an id already used is refused and
    leaves the ledger as it is. *)
Theorem transfers_once m ref spec wid id :
  (∀ now now' base want margin give m',
    Mem_Lend m now now' ref spec base wid want margin id = (Ok give, m') →
    0 < give ≤ f64_max_int →
    ∀ now2 now2' base2 want2 margin2, (now2 / windowMs spec)%i64 = wid →
    Mem_Lend m' now2 now2' ref spec base2 wid want2 margin2 id = (Ok give, m')) ∧
  (∀ now amount m', Mem_Credit m now ref spec wid amount id = (Ok true, m') →
    ∀ now2 amount2, Mem_Credit m' now2 ref spec wid amount2 id = (Ok false, m')).
Proof.
  split.
  - intros now now' base want margin give m' E Hg now2 now2' base2 want2 margin2 Hw.
    pose proof (lendKey_stored m now now' ref spec base wid want margin id give) as Hst.
    rewrite E in Hst. destruct (Hst eq_refl Hg) as (v & Hv & Hvg). cbn [snd] in Hv.
    assert (Halgo : (Algo_Or (spec_Algo spec) =? FixedWindow)%string = true).
    { revert E. unfold Mem_Lend. by destruct (_ =? FixedWindow)%string. }
    unfold Mem_Lend. rewrite Halgo, Hw, Z.eqb_refl, Hv. cbn. by rewrite Hvg.
  - intros now amount m' E now2 amount2. revert E. unfold Mem_Credit.
    destruct (negb _); [done|]. destruct (negb _); [done|].
    case_bool_decide as Hin; [done|]. intros [= <-].
    destruct (negb _); [done|]. rewrite bool_decide_eq_true_2 by (cbn; set_solver). done.
Qed.

Lemma transfers_once_witness :
  let m := snd (run map_to_list NewMem (take 1 Example_history.ops)) in
  let t := Example_history.t0 in let r := Example_history.ref in let s := Example_history.spec in
  let '(l, m1) := Mem_Lend m t t r s 20 28333333 3 1 "a1" in
  let '(c, m2) := Mem_Credit m t r s 28333333 5 "b1" in
  l = Ok 2 ∧ c = Ok true ∧
  Mem_Lend m1 (t + 9) (t + 9) r s 99 28333333 50 0 "a1" = (l, m1) ∧
  Mem_Credit m2 (t + 9) r s 28333333 5 "b1" = (Ok false, m2).
Proof.
  intros m t r s.
  destruct (transfers_once m r s 28333333 "a1") as [Hl _].
  destruct (transfers_once m r s 28333333 "b1") as [_ Hc].
  destruct (Mem_Lend m t t r s 20 28333333 3 1 "a1") as [l m1] eqn:El.
  destruct (Mem_Credit m t r s 28333333 5 "b1") as [c m2] eqn:Ec.
  assert (l = Ok 2) as -> by (apply (f_equal fst) in El; vm_compute in El; by symmetry).
  assert (c = Ok true) as -> by (apply (f_equal fst) in Ec; vm_compute in Ec; by symmetry).
  split_and!; [done..| |].
  - eapply Hl; [exact El|bounds|by vm_compute].
  - eapply Hc. exact Ec.
Defined.

(** ** Which grants are refused *)

Definition grant_valid (ref : Ref) (spec : Spec) (args : GrantArgs) : Prop :=
  Algo_Valid (spec_Algo spec) = true ∧ 0 < spec_Limit spec ∧
  (Algo_Or (spec_Algo spec) = TokenBucket → f64_leb (spec_Rate spec) f64_zero = false) ∧
  (ga_Regional args = true → Algo_Or (spec_Algo spec) = FixedWindow ∧ 0 ≤ ga_AllocBase args) ∧
  (∀ p, ga_Parent args = Some p → ref_Parent ref ≠ "" →
    0 < spec_Limit p ∧ Algo_Or (spec_Algo p) = FixedWindow).

Lemma Spec_validate_iff s :
  Spec_validate s = None ↔
  Algo_Valid (spec_Algo s) = true ∧ 0 < spec_Limit s ∧
  (Algo_Or (spec_Algo s) = TokenBucket → f64_leb (spec_Rate s) f64_zero = false).
Proof.
  unfold Spec_validate. destruct (Algo_Valid (spec_Algo s)); cbn [negb orb]; [|naive_solver].
  destruct (Z.leb_spec (spec_Limit s) 0); [split; [done|lia]|].
  destruct (String.eqb_spec (Algo_Or (spec_Algo s)) TokenBucket) as [E|E]; cbn [andb];
    destruct (f64_leb (spec_Rate s) f64_zero); naive_solver.
Qed.

Lemma prepare_cases ref spec args :
  (∃ inp, prepare ref spec args = Ok inp ∧ grant_valid ref spec args) ∨
  (prepare ref spec args = Err ErrBadSpec ∧ ¬ grant_valid ref spec args).
Proof.
  unfold prepare, grant_valid. pose proof (Spec_validate_iff spec) as Hv.
  destruct (Spec_validate spec) as [e|] eqn:Es.
  { right. split.
    - revert Es. unfold Spec_validate. repeat case_match; naive_solver.
    - intros (? & ? & ? & _). destruct Hv as [_ Hv]. by discriminate Hv. }
  destruct Hv as [Hv _]. destruct (Hv eq_refl) as (H1 & H2 & H3). clear Hv. cbv zeta.
  destruct (ga_Regional args) eqn:Hr; cbn [andb].
  1: destruct (String.eqb_spec (Algo_Or (spec_Algo spec)) FixedWindow) as [Ef|Ef]; cbn [negb orb];
     [destruct (Z.ltb_spec (ga_AllocBase args) 0)|];
     [right; split; [done|intros (_ & _ & _ & Hc & _); destruct (Hc eq_refl); lia]|
     |right; split; [done|intros (_ & _ & _ & Hc & _); by destruct (Hc eq_refl)]].
  all: destruct (ga_Parent args) as [p|]; [|left; eexists; split; [done|]; naive_solver].
  all: destruct (String.eqb_spec (ref_Parent ref) "") as [Ep|Ep];
    [left; eexists; split; [done|]; naive_solver|].
  all: destruct (Z.leb_spec (spec_Limit p) 0); cbn [orb];
    [right; split; [done|intros (_ & _ & _ & _ & Hc); destruct (Hc p eq_refl Ep); lia]|].
  all: destruct (String.eqb_spec (Algo_Or (spec_Algo p)) FixedWindow) as [Epf|Epf]; cbn [negb];
    [left; eexists; split; [done|]; naive_solver|].
  all: right; split; [done|intros (_ & _ & _ & _ & Hc); by destruct (Hc p eq_refl Ep)].
Qed.

(** C38: a grant is refused exactly when the call is invalid (an unknown
    algorithm, a limit that is not positive, a token bucket without a rate, a
    regional quota that is not a fixed window, an organisation budget that is
    not a positive fixed window), and a refused grant leaves the ledger
    untouched. *)
Theorem grant_refused_iff_invalid range m now ref spec args :
  (grant_valid ref spec args → ∃ g m', Mem_Grant range m now ref spec args = (Ok g, m')) ∧
  (¬ grant_valid ref spec args → Mem_Grant range m now ref spec args = (Err ErrBadSpec, m)).
Proof.
  unfold Mem_Grant. destruct (prepare_cases ref spec args) as [(inp & -> & Hv)|[-> Hv]].
  - split; [|done]. destruct (grant_input range m now inp) as [g m']. eauto.
  - split; done.
Qed.

(** ** How much a fixed window grants, and until when *)

(** The budget around a quota, when the caller names one and the quota has
    one. *)
Definition parent_of (ref : Ref) (args : GrantArgs) : option Spec :=
  if (ref_Parent ref =? "")%string then None else ga_Parent args.

Definition window_of (now : Z) (spec : Spec) : Z := now `div` windowMs spec.

(** Milliseconds from [now] to the end of its window. *)
Definition window_left (now : Z) (spec : Spec) : Z :=
  (window_of now spec + 1) * windowMs spec - now.

Definition call_ok (now : Z) (ref : Ref) (spec : Spec) (args : GrantArgs) : Prop :=
  clock_ok now ∧ is_int64 (spec_Window spec) ∧ spec_Limit spec ≤ f64_max_int ∧
  horizon_ok (ga_Horizon args) ∧
  (∀ p, ga_Parent args = Some p → is_int64 (spec_Window p) ∧ spec_Limit p ≤ f64_max_int).

Lemma call_ok_op now ref spec args : call_ok now ref spec args → op_ok "" 0 (OpGrant now ref spec args).
Proof.
  intros (? & ? & ? & ? & Hp). cbn. split_and!; try done.
  intros p ?. split_and!; [by apply (Hp p)..|done].
Qed.

Lemma prepared_parent ref spec args inp :
  prepared ref spec args inp →
  match parent_of ref args with
  | None => in_parentKey inp = ""
  | Some p => in_parentKey inp = Ref_ParentKey ref FixedWindow ∧ in_parentKey inp ≠ "" ∧
              in_plimit inp = spec_Limit p ∧ in_pwin inp = windowMs p ∧ 0 < spec_Limit p ∧
              ga_Parent args = Some p
  end.
Proof.
  intros Hp. unfold parent_of.
  destruct (pr_parent _ _ _ _ Hp) as [[E [Hr|Hr]]|(p & Hpa & Hr & E & El & Hpos & Ew)].
  - rewrite Hr. done.
  - rewrite Hr. by destruct (_ =? "")%string.
  - rewrite Hr, Hpa. split_and!; try done. by rewrite E.
Qed.

Lemma window_left_pos now spec :
  clock_ok now → is_int64 (spec_Window spec) → 1 ≤ window_left now spec ≤ windowMs spec.
Proof.
  intros Hn Hw. pose proof (windowMs_pos spec Hw) as Hp.
  by destruct (window_reset now (windowMs spec) (window_of now spec)) as [_ ?].
Qed.

(** What is left for a grant: of the quota, and of the budget around it. *)
Definition left_of (limit used : Z) (parent : option (Z * Z)) : Z :=
  match parent with
  | None => limit - used
  | Some (plimit, pused) => Z.min (limit - used) (plimit - pused)
  end.

Definition expiry_ms (now : Z) (spec : Spec) (parent : option Spec) : Z :=
  match parent with
  | None => window_left now spec
  | Some p => Z.min (window_left now spec) (window_left now p)
  end.

Lemma ms_to_ns x : 0 ≤ x ≤ 9223372036854 → (x * Millisecond)%i64 = x * Millisecond.
Proof. intros Hx. unfold i64_mul, Millisecond. apply wrap64_small. bounds. Qed.

Lemma expiry_ms_pos now ref spec args inp :
  prepared ref spec args inp → call_ok now ref spec args →
  1 ≤ expiry_ms now spec (parent_of ref args) ≤ windowMs spec.
Proof.
  intros Hp (Hnow & Hwin & _ & _ & Hpar). pose proof (prepared_parent _ _ _ _ Hp) as Hpp.
  pose proof (window_left_pos now spec Hnow Hwin) as Hl. unfold expiry_ms.
  destruct (parent_of ref args) as [q|]; [|done].
  destruct Hpp as (_ & _ & _ & _ & _ & Hqa).
  pose proof (window_left_pos now q Hnow) as Hq. specialize (Hq ltac:(by apply (Hpar q))). lia.
Qed.

Section fixed_window.
Variable range : gmap string Z → list (string * Z).
Hypothesis range_perm : ∀ s, range s ≡ₚ map_to_list s.

Variables (m : Mem) (now : Z) (ref : Ref) (spec : Spec) (args : GrantArgs) (inp : grantInput).
Variables (u pu : Z).
Hypothesis Hprep : prepare ref spec args = Ok inp.
Hypothesis Hok : call_ok now ref spec args.
Hypothesis Hfixed : Algo_Or (spec_Algo spec) = FixedWindow.
Hypothesis Hglobal : ga_Regional args = false.
Hypothesis Hedges : edges_bounded 1099511627775 m.
Hypothesis Hu : holds m (winKey (Ref_Key ref (spec_Algo spec)) (window_of now spec)) u.
Hypothesis Hu0 : 0 ≤ u.
Hypothesis Hpu : ∀ p, parent_of ref args = Some p →
  holds m (winKey (Ref_ParentKey ref FixedWindow) (window_of now p)) pu ∧ 0 ≤ pu.

Lemma fixed_prepared : prepared ref spec args inp.
Proof using Hprep Hok.
  apply prepare_prepared; [|done]. destruct Hok as (_ & _ & ? & _). bounds.
Qed.

Let avail := left_of (spec_Limit spec) u (option_map (λ p, (spec_Limit p, pu)) (parent_of ref args)).

Lemma fixed_locals :
  let g := grant_algo m now inp in
  let p := grant_parent m now inp g in
  (in_algo inp =? TokenBucket)%string = false ∧
  gl_wid g = window_of now spec ∧
  gl_key g = winKey (Ref_Key ref (spec_Algo spec)) (window_of now spec) ∧
  gl_reset g = window_left now spec ∧
  pl_avail p = avail ∧ pl_expires p = expiry_ms now spec (parent_of ref args) ∧
  pl_pkey p = (match parent_of ref args with None => "" | Some q =>
                winKey (Ref_ParentKey ref FixedWindow) (window_of now q) end) ∧
  pl_preset p = (match parent_of ref args with None => 0 | Some q => window_left now q end).
Proof using Hprep Hok Hfixed Hglobal Hu Hu0 Hpu.
  pose proof fixed_prepared as Hp. intros g p.
  assert (Ha : (in_algo inp =? TokenBucket)%string = false).
  { rewrite (pr_algo _ _ _ _ Hp), Hfixed. done. }
  assert (Hs : (in_algo inp =? SlidingWindow)%string = false).
  { rewrite (pr_algo _ _ _ _ Hp), Hfixed. done. }
  destruct Hok as (Hnow & Hwin & Hlim & _ & Hpar).
  assert (Hw : win_ok (in_win inp)) by (rewrite (pr_win _ _ _ _ Hp); by apply windowMs_pos).
  pose proof (grant_algo_wid m now inp Hnow Hw Ha) as Ewid. rewrite (pr_win _ _ _ _ Hp) in Ewid.
  pose proof (grant_algo_key m now inp Hnow Hw Ha) as Ekey.
  rewrite (pr_win _ _ _ _ Hp), (pr_key _ _ _ _ Hp) in Ekey.
  destruct (grant_algo_reset m now inp Hnow Hw Ha) as [Ereset Eexp].
  rewrite (pr_win _ _ _ _ Hp) in Ereset.
  assert (Eav : gl_avail g = spec_Limit spec - u).
  { unfold g, grant_algo. rewrite Ha, Hs, (pr_alloc _ _ _ _ Hp), Hglobal. cbn [gl_avail].
    rewrite (pr_win _ _ _ _ Hp), (pr_key _ _ _ _ Hp), (pr_limit _ _ _ _ Hp).
    destruct (window_div now (windowMs spec) Hnow) as [-> _]; [by apply windowMs_pos|].
    change (Z.leb 0 (-1)) with false. cbn iota.
    change (now `div` windowMs spec) with (window_of now spec).
    rewrite (holds_getInt _ _ _ Hu). pose proof (pr_limit_pos _ _ _ _ Hp). destruct Hu.
    apply wrap64_small. bounds. }
  fold g in Ewid, Ekey, Ereset, Eexp. split_and!; try done.
  all: pose proof (prepared_parent _ _ _ _ Hp) as Hpp; unfold p, grant_parent, avail, left_of, expiry_ms;
    destruct (parent_of ref args) as [q|] eqn:Eq;
    [destruct Hpp as (Ek & Ene & El & Ew & Hq0 & Hqa)|rewrite Hpp; cbn; rewrite ?Eexp; done];
    rewrite (proj2 (String.eqb_neq _ _) Ene), Ek, El, Ew;
    destruct (Hpar q Hqa) as [Hqw Hql];
    destruct (window_div now (windowMs q) Hnow) as [-> _]; [by apply windowMs_pos|];
    destruct (window_reset now (windowMs q) (now `div` windowMs q)) as [-> _];
      [done|by apply windowMs_pos|done|]; cbn; try done.
  - destruct (Hpu q eq_refl) as [Hh Hh0]. unfold window_of in Hh. rewrite (holds_getInt _ _ _ Hh).
    unfold i64_sub. destruct Hh. rewrite wrap64_small by bounds. rewrite Eav.
    destruct (Z.ltb_spec (spec_Limit q - pu) (spec_Limit spec - u)); lia.
  - rewrite Eexp, Ereset. done.
Qed.

(** A refused caller is told to come back at a time that is not in the past and
    not after the window that binds has ended. *)
Lemma fixed_retry :
  let g := grant_algo m now inp in
  let p := grant_parent m now inp g in
  1 ≤ grant_retry now inp g p ≤
    Z.max (window_left now spec) (match parent_of ref args with
                                  | None => 0 | Some q => window_left now q end).
Proof using Hprep Hok Hfixed Hglobal Hu Hu0 Hpu.
  pose proof fixed_locals as (Ha & _ & _ & Er & _ & _ & _ & Ep). intros g p.
  fold g in Er, Ep. fold p in Ep. pose proof fixed_prepared as Hp.
  destruct Hok as (Hnow & Hwin & _ & _ & Hpar).
  pose proof (window_left_pos now spec Hnow Hwin) as Hl. unfold grant_retry. rewrite Ha.
  assert (Hs : (in_algo inp =? SlidingWindow)%string = false).
  { rewrite (pr_algo _ _ _ _ Hp), Hfixed. done. }
  rewrite Hs. cbn [andb]. rewrite Er, Ep.
  destruct (pl_binds p) eqn:Hb; [|destruct (parent_of ref args); lia].
  pose proof (prepared_parent _ _ _ _ Hp) as Hpp. destruct (parent_of ref args) as [q|].
  - destruct Hpp as (_ & _ & _ & _ & _ & Hqa).
    pose proof (window_left_pos now q Hnow) as Hq. specialize (Hq ltac:(by apply (Hpar q))). lia.
  - revert Hb. unfold p, grant_parent. rewrite Hpp. done.
Qed.

(** The numbers of the answer. *)
Lemma fixed_answer :
  let g := fst (grant_input range m now inp) in
  (avail ≤ 0 → g_Granted g = 0) ∧ (0 < avail → 1 ≤ g_Granted g ≤ avail) ∧
  g_Remaining g = Z.max 0 avail - g_Granted g ∧ g_WindowID g = window_of now spec ∧
  g_ExpiresIn g = (expiry_ms now spec (parent_of ref args) * Millisecond)%i64 ∧
  (0 < avail → g_RetryAfter g = 0) ∧
  (avail ≤ 0 → g_RetryAfter g =
     (grant_retry now inp (grant_algo m now inp)
        (grant_parent m now inp (grant_algo m now inp)) * Millisecond)%i64).
Proof using All.
  pose proof fixed_locals as (Ha & Hw & _ & _ & Hav & Hex & _). pose proof fixed_prepared as Hp.
  assert (Hact : (now - in_activeMs inp)%i64 < now).
  { destruct Hok as (? & _ & _ & ? & _). by eapply prepare_active. }
  assert (Hle : avail ≤ f64_max_int).
  { unfold avail, left_of. destruct Hok as (_ & _ & ? & _).
    destruct (option_map _ _) as [[? ?]|]; lia. }
  pose proof (grant_input_granted range range_perm m now inp Hact (pr_target _ _ _ _ Hp)) as Hg.
  rewrite Hav in Hg. specialize (Hg Hle Hedges). revert Hg. unfold grant_input. rewrite Hav, Hex, Hw, Ha.
  destruct (grant_endgame range m now inp avail) as [n m0].
  destruct (Z.leb_spec avail 0) as [Hle0|Hgt]; cbn [fst snd grantInput_result g_Granted g_Remaining
    g_WindowID g_ExpiresIn g_RetryAfter]; intros (Hg0 & Hgn & Hgs).
  - split_and!; try done; lia.
  - specialize (Hgs Hgt). set (t := Z.min _ avail) in *.
    assert (E : (avail - t)%i64 = avail - t) by (apply wrap64_small; clear -Hle Hgs; bounds).
    rewrite E. split_and!; try done; lia.
Qed.

(** The counters it leaves. *)
Lemma fixed_counters :
  let g := fst (grant_input range m now inp) in
  let m' := snd (grant_input range m now inp) in
  holds m' (winKey (Ref_Key ref (spec_Algo spec)) (window_of now spec)) (u + g_Granted g) ∧
  (∀ p, parent_of ref args = Some p →
    holds m' (winKey (Ref_ParentKey ref FixedWindow) (window_of now p)) (pu + g_Granted g)).
Proof using All.
  pose proof fixed_locals as (Ha & _ & Hk & _ & Hav & _ & Hpk & _). pose proof fixed_prepared as Hp.
  pose proof fixed_answer as (Hz & Hs & _). pose proof Hok as (Hnow & _ & Hlim & Hh & Hpar).
  pose proof (prepare_active _ _ _ _ now Hprep Hh Hnow) as Hact.
  assert (Hbnd : avail ≤ spec_Limit spec - u ∧
    (∀ p, parent_of ref args = Some p → avail ≤ spec_Limit p - pu)).
  { unfold avail, left_of. destruct (parent_of ref args); cbn; split; intros; simplify_eq; lia. }
  pose proof (grant_input_window range range_perm m now inp) as Hgw.
  destruct (grant_input range m now inp) as [g m'] eqn:Eg. cbn [fst snd] in *.
  destruct Hgw as [[Hg0 _ _ Hvals _] _]; try done;
    [apply (pr_target _ _ _ _ Hp)|rewrite Hav; lia|specialize (Hedges (in_key inp)); lia|].
  rewrite Hk, Hpk in Hvals.
  assert (Hne : ∀ p, parent_of ref args = Some p →
    winKey (Ref_ParentKey ref FixedWindow) (window_of now p) ≠
    winKey (Ref_Key ref (spec_Algo spec)) (window_of now spec)).
  { intros p Hpp [E _]%winKey_inj. symmetry in E. revert E. apply Ref_ParentKey_ne.
    - apply (pr_valid _ _ _ _ Hp).
    - revert Hpp. unfold parent_of. by destruct (ref_Parent ref =? "")%string. }
  destruct (Z.eqb_spec (g_Granted g) 0) as [E|E].
  { rewrite E, !Z.add_0_r. split; [by eapply holds_vals; [rewrite Hvals|exact Hu]|].
    intros p Hpp. destruct (Hpu p Hpp) as [Hh' _]. by eapply holds_vals; [rewrite Hvals|exact Hh']. }
  assert (Hpos : 1 ≤ g_Granted g ≤ avail) by (apply Hs; lia).
  assert (Hadd : holds (add_val (winKey (Ref_Key ref (spec_Algo spec)) (window_of now spec))
     (f64_of_int (g_Granted g)) m) (winKey (Ref_Key ref (spec_Algo spec)) (window_of now spec))
     (u + g_Granted g)).
  { apply holds_add; [done|..]; destruct Hu; clear -Hpos Hbnd Hlim Hu0; bounds. }
  destruct (parent_of ref args) as [p|] eqn:Epar.
  - rewrite (proj2 (String.eqb_neq _ _)) in Hvals.
    2:{ unfold winKey. intros E'. apply (f_equal chars) in E'. rewrite !chars_app in E'.
        by destruct (chars (Ref_ParentKey ref FixedWindow)). }
    split.
    + eapply holds_vals; [|exact Hadd]. rewrite Hvals. by apply vals_add_ne, Hne.
    + intros p' [= <-]. destruct (Hpu p eq_refl) as [Hh' Hpu0].
      destruct Hbnd as [_ Hb]. specialize (Hb p eq_refl).
      pose proof (prepared_parent _ _ _ _ Hp) as Hpp. rewrite Epar in Hpp.
      destruct Hpp as (_ & _ & _ & _ & _ & Hqa). destruct (Hpar p Hqa) as [_ Hpl].
      eapply holds_vals; [by rewrite Hvals|]. apply holds_add.
      * eapply holds_vals; [|exact Hh']. apply vals_add_ne. symmetry. by apply Hne.
      * destruct Hu. clear -Hpos Hlim Hu0 Hb Hpl Hpu0. bounds.
      * clear -Hpos Hlim Hb Hpl Hpu0. bounds.
  - split; [|done]. eapply holds_vals; [|exact Hadd]. by rewrite Hvals.
Qed.
End fixed_window.


(** A quota of ten a minute inside an organisation's budget of eight a minute,
    six of which are used. *)
Module Example_org.

Definition ref := mkRef "default" "api" "" "alice" "acme".
Definition spec := mkSpec FixedWindow 10 Minute f64_zero.
Definition org := mkSpec FixedWindow 8 Minute f64_zero.
Definition args := mkGrantArgs 5 "edge-1" Second f64_zero 0 0 (Some org) false 0.
Definition t0 : Z := 1700000000123.
Definition key := winKey (Ref_Key ref FixedWindow) (t0 `div` 60000).
Definition pkey := winKey (Ref_ParentKey ref FixedWindow) (t0 `div` 60000).
Definition m := set_val pkey (f64_of_int 6) (set_val key (f64_of_int 1) NewMem).

End Example_org.


(** ** A token bucket that never fills *)

(** Requests for one token every five milliseconds, from [now] on. *)
Fixpoint bucket_asks (n : nat) (now : Z) (ref : Ref) (spec : Spec) (args : GrantArgs) : list op :=
  match n with
  | O => []
  | S n => OpGrant now ref spec args :: bucket_asks n (now + 5) ref spec args
  end.

(** A bucket of one token refilled three times a second, never drawn from,
    refuses every request of a whole second: the capacity it computes,
    [floor((now + burst*T - tat) / T)], loses the fraction of [T] when [now] (a
    clock reading in milliseconds) is added and subtracted again in binary64. *)
Lemma token_bucket_rounding_starves :
  let ref := mkRef "default" "api" "" "alice" "" in
  let spec := mkSpec TokenBucket 1 Second (f64_of_int 3) in
  let args := mkGrantArgs 1 "edge-1" Second f64_zero 0 0 None false 0 in
  Forall (λ r, match r with OGrant (Ok g) => g_Granted g = 0 ∧ g_RetryAfter g = Millisecond
               | _ => False end)
    (fst (run map_to_list NewMem (bucket_asks 200 1700000000123 ref spec args))).
Proof.
  intros ref spec args. apply Forall_forall. intros r Hr.
  assert (H : forallb (λ r, match r with
      | OGrant (Ok g) => (g_Granted g =? 0) && (g_RetryAfter g =? Millisecond) | _ => false end)
    (fst (run map_to_list NewMem (bucket_asks 200 1700000000123 ref spec args))) = true)
    by (vm_compute; reflexivity).
  rewrite forallb_forall in H. specialize (H r). rewrite <- list_elem_of_In in H.
  specialize (H Hr). destruct r as [[g|]| | |]; try done.
  apply andb_true_iff in H as [H1 H2]. split; lia.
Qed.
