(* ===== verification/RedisLedger.v ===== *)
(** * The quota ledger over Redis ([packages/ledger/redis.go], [region.go])

    The production ledger: four Lua scripts, each run atomically by a Redis
    server, and the Go calls around them.  The server is a parameter: any type
    whose commands behave as the Redis documentation says ([RedisBehaves]),
    which is stated with a database of string keys that hold integers and of
    sorted sets, each with the moment it expires.  Scripts take the server's
    clock in microseconds, which Redis keeps fixed while a script runs, and
    return the server after them.  Lua numbers are binary64 throughout
    ([LuaNum]). *)

From S2P Require Import Prelude Float64 LuaNum Ledger.

Local Open Scope Z_scope.

(** ** What the commands do

    The documented behaviour of the commands the scripts use, as operations on
    a database. *)

Record redisDB := mkDB {
  rd_vals : gmap string (Z * option Z);                (* value, expiry (ms) *)
  rd_zsets : gmap string (gmap string Z * option Z);   (* member to score, expiry (ms) *)
}.

Definition emptyDB : redisDB := mkDB ∅ ∅.

(** A key past its expiry is not there for any command. *)
Definition db_live {A} (ms : Z) (e : option (A * option Z)) : option (A * option Z) :=
  match e with
  | Some (v, Some at_) => if at_ <? ms then None else e
  | _ => e
  end.

Definition db_GET (r : redisDB) (ms : Z) (k : string) : option Z :=
  fst <$> db_live ms (rd_vals r !! k).

Definition db_put (k : string) (v : Z) (e : option Z) (r : redisDB) : redisDB :=
  mkDB (<[k := (v, e)]> (rd_vals r)) (rd_zsets r).

(** [SET k v PX px], for a positive [px]. *)
Definition db_SET (r : redisDB) (ms : Z) (k : string) (v px : Z) : redisDB :=
  db_put k v (Some (ms + px)) r.

(** [SET k v NX PX px]: whether the key was set. *)
Definition db_SETNX (r : redisDB) (ms : Z) (k : string) (v px : Z) : bool * redisDB :=
  match db_GET r ms k with
  | Some _ => (false, r)
  | None => (true, db_SET r ms k v px)
  end.

(** [INCRBY] keeps the key's expiry; a missing key starts from zero. *)
Definition db_INCRBY (r : redisDB) (ms : Z) (k : string) (d : Z) : Z * redisDB :=
  match db_live ms (rd_vals r !! k) with
  | Some (v, e) => (v + d, db_put k (v + d) e r)
  | None => (d, db_put k d None r)
  end.

Definition db_PEXPIRE (r : redisDB) (ms : Z) (k : string) (px : Z) : redisDB :=
  match db_live ms (rd_vals r !! k) with
  | Some (v, _) => if px <=? 0 then mkDB (delete k (rd_vals r)) (rd_zsets r)
                   else db_put k v (Some (ms + px)) r
  | None => r
  end.

Definition db_zset (r : redisDB) (ms : Z) (k : string) : gmap string Z :=
  default ∅ (fst <$> db_live ms (rd_zsets r !! k)).

Definition db_ZADD (r : redisDB) (ms : Z) (k : string) (score : Z) (member : string) : redisDB :=
  let e := default None (snd <$> db_live ms (rd_zsets r !! k)) in
  mkDB (rd_vals r) (<[k := (<[member := score]> (db_zset r ms k), e)]> (rd_zsets r)).

(** [PEXPIRE] on a sorted set. *)
Definition db_ZPEXPIRE (r : redisDB) (ms : Z) (k : string) (px : Z) : redisDB :=
  match db_live ms (rd_zsets r !! k) with
  | Some (s, _) => mkDB (rd_vals r)
                     (if px <=? 0 then delete k (rd_zsets r)
                      else <[k := (s, Some (ms + px))]> (rd_zsets r))
  | None => r
  end.

(** [ZCOUNT k (min +inf]. *)
Definition db_ZCOUNT (r : redisDB) (ms : Z) (k : string) (min : Z) : Z :=
  Z.of_nat (size (filter (λ ea : string * Z, min < snd ea) (db_zset r ms k))).

(** ** The server

    A server is anything whose commands behave so: [view] is the database its
    state stands for. *)

Class RedisServer (R : Type) := {
  redis_GET : R → Z → string → option Z;
  redis_SET : R → Z → string → Z → Z → R;
  redis_SETNX : R → Z → string → Z → Z → bool * R;
  redis_INCRBY : R → Z → string → Z → Z * R;
  redis_PEXPIRE : R → Z → string → Z → R;
  redis_ZADD : R → Z → string → Z → string → R;
  redis_ZPEXPIRE : R → Z → string → Z → R;
  redis_ZCOUNT : R → Z → string → Z → Z;
}.

#[export] Instance redisDB_server : RedisServer redisDB := {|
  redis_GET := db_GET; redis_SET := db_SET; redis_SETNX := db_SETNX; redis_INCRBY := db_INCRBY;
  redis_PEXPIRE := db_PEXPIRE; redis_ZADD := db_ZADD; redis_ZPEXPIRE := db_ZPEXPIRE;
  redis_ZCOUNT := db_ZCOUNT;
|}.

Definition on_snd {A B C} (f : B → C) (p : A * B) : A * C := (fst p, f (snd p)).

Class RedisBehaves (R : Type) `{RedisServer R} := {
  view : R → redisDB;
  view_GET r ms k : redis_GET r ms k = db_GET (view r) ms k;
  view_SET r ms k v px : view (redis_SET r ms k v px) = db_SET (view r) ms k v px;
  view_SETNX r ms k v px : on_snd view (redis_SETNX r ms k v px) = db_SETNX (view r) ms k v px;
  view_INCRBY r ms k d : on_snd view (redis_INCRBY r ms k d) = db_INCRBY (view r) ms k d;
  view_PEXPIRE r ms k px : view (redis_PEXPIRE r ms k px) = db_PEXPIRE (view r) ms k px;
  view_ZADD r ms k s e : view (redis_ZADD r ms k s e) = db_ZADD (view r) ms k s e;
  view_ZPEXPIRE r ms k px : view (redis_ZPEXPIRE r ms k px) = db_ZPEXPIRE (view r) ms k px;
  view_ZCOUNT r ms k min : redis_ZCOUNT r ms k min = db_ZCOUNT (view r) ms k min;
}.

(** The server's millisecond clock, and a script's reading of [TIME]: whole
    seconds and the microseconds within the second. *)
Definition redis_ms (t : Z) : Z := t `div` 1000.

Definition lua_now (t : Z) : float64 :=
  f64_add (f64_mul (tonumber (t `div` 1000000)) (tonumber 1000))
          (f64_floor (f64_div (tonumber (t `mod` 1000000)) (tonumber 1000))).

Section scripts.
Context {R : Type} `{RedisServer R}.

(** ** [grantLua] *)

Definition grantInput_keys (inp : grantInput) : list string :=
  if (in_parentKey inp =? "")%string then [in_key inp] else [in_key inp; in_parentKey inp].

(** The script's local variables up to the choice of algorithm. *)
Record luaLocals := mkLuaLocals {
  ll_limit : float64;
  ll_avail : float64;
  ll_wid : float64;
  ll_reset : float64;
  ll_expires : float64;
  ll_tat : float64;
  ll_prev : float64;
  ll_cur : float64;
  ll_f : float64;
  ll_key : string;
}.

Definition lua_zero : float64 := tonumber 0.

(** [tonumber(redis.call('GET', k) or def)]. *)
Definition lua_get (r : R) (ms : Z) (k : string) (def : float64) : float64 :=
  match redis_GET r ms k with
  | Some v => tonumber v
  | None => def
  end.

(** [2 * win + 1000]: how long a window's counter is kept. *)
Definition lua_ttl (win : float64) : float64 := f64_add (f64_mul (tonumber 2) win) (tonumber 1000).

Definition lua_algo (r : R) (ms : Z) (now : float64) (inp : grantInput) : luaLocals :=
  let limit := tonumber (in_limit inp) in
  let win := tonumber (in_win inp) in
  if (in_algo inp =? "token_bucket")%string then
    let T := f64_div (tonumber 1000) (in_rate inp) in
    let tau := f64_mul limit T in
    let tat := lua_get r ms (in_key inp) now in
    let tat := if f64_ltb tat now then now else tat in
    {| ll_limit := limit;
       ll_avail := f64_floor (f64_div (f64_sub (f64_add now tau) tat) T);
       ll_wid := lua_zero; ll_reset := lua_zero; ll_expires := tonumber (in_ttl inp);
       ll_tat := tat; ll_prev := lua_zero; ll_cur := lua_zero; ll_f := lua_zero;
       ll_key := in_key inp |}
  else
    let wid := f64_floor (f64_div now win) in
    let reset := f64_sub (f64_mul (f64_add wid (tonumber 1)) win) now in
    let key := in_key inp +:+ ":" +:+ lua_tostring wid in
    let limit := if f64_leb lua_zero (tonumber (in_allocBase inp))
                 then f64_add (tonumber (in_allocBase inp))
                        (lua_get r ms (in_key inp +:+ ":alloc:" +:+ lua_tostring wid) lua_zero)
                 else limit in
    let cur := lua_get r ms key lua_zero in
    let '(prev, f, used) :=
      if (in_algo inp =? "sliding_window")%string then
        let prev := lua_get r ms (in_key inp +:+ ":" +:+ lua_tostring (f64_sub wid (tonumber 1)))
                      lua_zero in
        let f := f64_div (f64_sub now (f64_mul wid win)) win in
        (prev, f, f64_add cur (f64_ceil (f64_mul prev (f64_sub (tonumber 1) f))))
      else (lua_zero, lua_zero, cur) in
    {| ll_limit := limit; ll_avail := f64_sub limit used;
       ll_wid := wid; ll_reset := reset; ll_expires := reset;
       ll_tat := lua_zero; ll_prev := prev; ll_cur := cur; ll_f := f; ll_key := key |}.

Record luaParent := mkLuaParent {
  lp_pkey : option string;
  lp_pwid : float64;
  lp_preset : float64;
  lp_binds : bool;
  lp_avail : float64;
  lp_expires : float64;
}.

Definition lua_parent (r : R) (ms : Z) (now : float64) (inp : grantInput) (g : luaLocals)
  : luaParent :=
  match grantInput_keys inp with
  | _ :: parent :: _ =>
      let plimit := tonumber (in_plimit inp) in
      let pwin := tonumber (in_pwin inp) in
      let pwid := f64_floor (f64_div now pwin) in
      let pkey := parent +:+ ":" +:+ lua_tostring pwid in
      let preset := f64_sub (f64_mul (f64_add pwid (tonumber 1)) pwin) now in
      let pavail := f64_sub plimit (lua_get r ms pkey lua_zero) in
      {| lp_pkey := Some pkey; lp_pwid := pwid; lp_preset := preset;
         lp_binds := f64_ltb pavail (ll_avail g);
         lp_avail := if f64_ltb pavail (ll_avail g) then pavail else ll_avail g;
         lp_expires := if f64_ltb preset (ll_expires g) then preset else ll_expires g |}
  | _ =>
      {| lp_pkey := None; lp_pwid := lua_zero; lp_preset := lua_zero; lp_binds := false;
         lp_avail := ll_avail g; lp_expires := ll_expires g |}
  end.

(** Near the end of a quota, the asking edge is added to the sorted set of
    edges and those seen within the active window are counted. *)
Definition lua_endgame (r : R) (ms : Z) (now : float64) (inp : grantInput) (avail : float64)
  : float64 * R :=
  if negb (in_edge inp =? "")%string
     && f64_ltb avail (f64_mul (tonumber 64) (tonumber (in_target inp))) then
    let ekey := in_key inp +:+ ":edges" in
    let active_ms := tonumber (in_activeMs inp) in
    let r := redis_ZADD r ms ekey (lua_int now) (in_edge inp) in
    let r := redis_ZPEXPIRE r ms ekey (lua_int active_ms) in
    (tonumber (redis_ZCOUNT r ms ekey (lua_int (f64_sub now active_ms))), r)
  else (tonumber 1, r).

Definition lua_retry (now : float64) (inp : grantInput) (g : luaLocals) (p : luaParent) : float64 :=
  let tenth w := f64_floor (f64_div w (tonumber 10)) in
  if lp_binds p
  then lua_min (lua_max (tenth (tonumber (in_pwin inp))) (tonumber 500)) (lp_preset p)
  else if (in_algo inp =? "token_bucket")%string then
    let T := f64_div (tonumber 1000) (in_rate inp) in
    lua_max (f64_ceil (f64_sub (f64_sub (f64_add (ll_tat g) T) (f64_mul (ll_limit g) T)) now))
            (tonumber 1)
  else if (in_algo inp =? "sliding_window")%string && f64_ltb lua_zero (ll_prev g)
          && f64_ltb (ll_cur g) (ll_limit g) then
    let fneed := f64_sub (tonumber 1)
                   (f64_div (f64_sub (f64_sub (ll_limit g) (tonumber 1)) (ll_cur g)) (ll_prev g)) in
    lua_min (lua_max (f64_ceil (f64_mul (f64_sub fneed (ll_f g)) (tonumber (in_win inp))))
                     (tonumber 10)) (ll_reset g)
  else lua_min (lua_max (tenth (tonumber (in_win inp))) (tonumber 500)) (ll_reset g).

(** The writes of a grant: the bucket or the window's counter, then the
    enclosing quota's. *)
Definition lua_charge (r : R) (ms : Z) (now : float64) (inp : grantInput) (g : luaLocals)
  (p : luaParent) (grant : float64) : float64 * R :=
  let '(reset, r) :=
    if (in_algo inp =? "token_bucket")%string then
      let T := f64_div (tonumber 1000) (in_rate inp) in
      let tat := f64_ceil (f64_add (ll_tat g) (f64_mul grant T)) in
      (f64_sub tat now,
       redis_SET r ms (ll_key g) (lua_int tat)
         (lua_int (f64_add (f64_sub tat now) (tonumber 1000))))
    else
      let '(v, r) := redis_INCRBY r ms (ll_key g) (lua_int grant) in
      (ll_reset g,
       if f64_eqb (tonumber v) grant
       then redis_PEXPIRE r ms (ll_key g)
              (lua_int (lua_ttl (tonumber (in_win inp))))
       else r) in
  match lp_pkey p with
  | Some pkey =>
      let '(_, r) := redis_INCRBY r ms pkey (lua_int grant) in
      (reset, redis_PEXPIRE r ms pkey
         (lua_int (lua_ttl (tonumber (in_pwin inp)))))
  | None => (reset, r)
  end.

(** The whole script; its reply is an array of integers. *)
Definition grantLua (r : R) (t : Z) (inp : grantInput) : list Z * R :=
  let ms := redis_ms t in
  let now := lua_now t in
  let g := lua_algo r ms now inp in
  let p := lua_parent r ms now inp g in
  let avail := lp_avail p in
  let '(n, r) := lua_endgame r ms now inp avail in
  if f64_leb avail lua_zero then
    let reset := if (in_algo inp =? "token_bucket")%string then f64_sub (ll_tat g) now
                 else ll_reset g in
    (lua_int <$> [lua_zero; lua_zero; ll_wid g; lp_expires p; reset; lua_retry now inp g p; n; lp_pwid p],
     r)
  else
    let target := tonumber (in_target inp) in
    let target := if f64_ltb avail (f64_mul n target)
                  then f64_floor (f64_div (f64_sub (f64_add avail n) (tonumber 1)) n)
                  else target in
    let grant := lua_min target avail in
    let '(reset, r) := lua_charge r ms now inp g p grant in
    (lua_int <$> [grant; f64_sub avail grant; ll_wid g; lp_expires p; reset; lua_zero; n; lp_pwid p], r).

(** ** [returnLua] *)

(** The script's local function [credit(key, ttl)]. *)
Definition lua_credit (r : R) (ms : Z) (tokens : float64) (key : string) (ttl : float64) : R :=
  let used := lua_get r ms key lua_zero in
  let c := if f64_ltb used tokens then used else tokens in
  if f64_eqb c lua_zero then r
  else
    let '(_, r) := redis_INCRBY r ms key (- lua_int c) in
    redis_PEXPIRE r ms key (lua_int ttl).

Definition lua_return_quota (r : R) (ms : Z) (now : float64) (inp : returnInput) : R :=
  let win := tonumber (ri_win inp) in
  let tokens := tonumber (ri_tokens inp) in
  if (ri_algo inp =? "token_bucket")%string then
    let T := f64_div (tonumber 1000) (ri_rate inp) in
    let tat := lua_get r ms (ri_key inp) now in
    let tat := if f64_ltb tat now then now else tat in
    let tat := f64_ceil (f64_sub tat (f64_mul tokens T)) in
    let tat := if f64_ltb tat now then now else tat in
    redis_SET r ms (ri_key inp) (lua_int tat) (lua_int (f64_add (f64_sub tat now) (tonumber 1000)))
  else if f64_eqb (f64_floor (f64_div now win)) (tonumber (ri_wid inp)) then
    lua_credit r ms tokens (ri_key inp +:+ ":" +:+ itoa (ri_wid inp)) (lua_ttl win)
  else r.

Definition lua_return_parent (r : R) (ms : Z) (now : float64) (inp : returnInput) : R :=
  let pwin := tonumber (ri_pwin inp) in
  if (ri_parentKey inp =? "")%string then r
  else if f64_eqb (f64_floor (f64_div now pwin)) (tonumber (ri_pwid inp)) then
    lua_credit r ms (tonumber (ri_tokens inp)) (ri_parentKey inp +:+ ":" +:+ itoa (ri_pwid inp))
      (lua_ttl pwin)
  else r.

Definition returnLua (r : R) (t : Z) (inp : returnInput) : Z * R :=
  let ms := redis_ms t in
  let '(fresh, r) :=
    if (ri_dedupeKey inp =? "")%string then (true, r)
    else redis_SETNX r ms (ri_dedupeKey inp) 1 (ri_dedupeTTL inp) in
  if fresh then
    let now := lua_now t in
    (1, lua_return_parent (lua_return_quota r ms now inp) ms now inp)
  else (0, r).

(** ** [lendLua] and [creditLua] *)

Definition lendLua (r : R) (t : Z) (key : string) (winMs wid base want margin : Z) (id : string)
  : Z * R :=
  let ms := redis_ms t in
  let now := lua_now t in
  let win := tonumber winMs in
  if negb (f64_eqb (f64_floor (f64_div now win)) (tonumber wid)) then (0, r)
  else
    let idk := key +:+ ":lend:" +:+ id in
    match redis_GET r ms idk with
    | Some prev => (lua_int (tonumber prev), r)
    | None =>
        let ak := key +:+ ":alloc:" +:+ itoa wid in
        let alloc := f64_add (tonumber base) (lua_get r ms ak lua_zero) in
        let used := lua_get r ms (key +:+ ":" +:+ itoa wid) lua_zero in
        let elapsed := f64_sub now (f64_mul (tonumber wid) win) in
        let margin := lua_max (tonumber margin)
          (f64_ceil (f64_div (f64_mul used (f64_sub win elapsed)) (lua_max elapsed (tonumber 1)))) in
        let give := lua_min (tonumber want) (f64_sub (f64_sub alloc used) margin) in
        let give := if f64_ltb give lua_zero then lua_zero else give in
        let r := if f64_ltb lua_zero give
                 then let '(_, r) := redis_INCRBY r ms ak (- lua_int give) in
                      redis_PEXPIRE r ms ak (lua_int (lua_ttl win))
                 else r in
        (lua_int give, redis_SET r ms idk (lua_int give) (lua_int (lua_ttl win)))
    end.

Definition creditLua (r : R) (t : Z) (key : string) (winMs wid amount : Z) (id : string)
  : Z * R :=
  let ms := redis_ms t in
  let now := lua_now t in
  let win := tonumber winMs in
  if negb (f64_eqb (f64_floor (f64_div now win)) (tonumber wid)) then (0, r)
  else
    let '(fresh, r) := redis_SETNX r ms (key +:+ ":credit:" +:+ id) 1 (lua_int (lua_ttl win)) in
    if fresh then
      let ak := key +:+ ":alloc:" +:+ itoa wid in
      let '(_, r) := redis_INCRBY r ms ak (lua_int (tonumber amount)) in
      (1, redis_PEXPIRE r ms ak (lua_int (lua_ttl win)))
    else (0, r).

(** ** The Go calls *)

(** What becomes of one script call: it runs and its reply arrives, the server
    does not have the script cached, or the call fails, whether or not the
    script ran. *)
Inductive delivery := Delivered | NoScript | Failed (ran : bool) (e : error).

(** [Script.Run]: by hash, and with the whole script when the server does not
    have it. *)
Definition script_Run {A} (d : delivery) (script : R → A * R) (r : R)
  : result error A * R :=
  match d with
  | Failed ran e => (Err e, if ran then snd (script r) else r)
  | _ => let '(x, r) := script r in (Ok x, r)
  end.

(** [in.result(res)], after the check of the reply's length. *)
Definition grant_of_reply (res : list Z) : result error Grant :=
  match res with
  | granted :: remaining :: wid :: expires :: reset :: retry :: active :: pwid :: _ =>
      Ok (grantInput_result granted remaining wid expires reset retry active pwid)
  | _ => Err (ErrOther "ledger: malformed grant reply")
  end.

Definition grant_of_result (x : result error (list Z)) : result error Grant :=
  match x with
  | Err e => Err e
  | Ok res => grant_of_reply res
  end.

Definition Redis_Grant (r : R) (t : Z) (d : delivery) (ref : Ref) (spec : Spec)
  (args : GrantArgs) : result error Grant * R :=
  match prepare ref spec args with
  | Err e => (Err e, r)
  | Ok inp =>
      let '(x, r) := script_Run d (λ r, grantLua r t inp) r in
      (grant_of_result x, r)
  end.

(** [GrantBatch]: one pipeline of calls by hash, then [Run] for the items whose
    server had not cached the script.  An item carries the clock and the fate
    of its call in the pipeline and of the call that repeats it. *)
Record batchCall := mkBatchCall {
  bc_item : BatchItem;
  bc_t : Z; bc_d : delivery;
  bc_t' : Z; bc_d' : delivery;
}.

(** One command of the pipeline: refused before it is sent, answered, or to
    be repeated. *)
Inductive cmd :=
| CmdNil (e : error)
| CmdReply (x : result error (list Z))
| CmdNoScript (inp : grantInput).

Fixpoint pipe_Exec (r : R) (items : list batchCall) : list cmd * R :=
  match items with
  | [] => ([], r)
  | it :: rest =>
      let '(c, r) :=
        match prepare (bi_Ref (bc_item it)) (bi_Spec (bc_item it)) (bi_Args (bc_item it)) with
        | Err e => (CmdNil e, r)
        | Ok inp =>
            match bc_d it with
            | NoScript => (CmdNoScript inp, r)
            | d => let '(x, r) := script_Run d (λ r, grantLua r (bc_t it) inp) r in (CmdReply x, r)
            end
        end in
      let '(cs, r) := pipe_Exec r rest in
      (c :: cs, r)
  end.

Fixpoint rerun_cmds (r : R) (items : list (batchCall * cmd)) : list (result error Grant) * R :=
  match items with
  | [] => ([], r)
  | (it, c) :: rest =>
      let '(x, r) :=
        match c with
        | CmdNil e => (Err e, r)
        | CmdReply x => (grant_of_result x, r)
        | CmdNoScript inp =>
            let '(x, r) := script_Run (bc_d' it) (λ r, grantLua r (bc_t' it) inp) r in
            (grant_of_result x, r)
        end in
      let '(xs, r) := rerun_cmds r rest in
      (x :: xs, r)
  end.

Definition Redis_GrantBatch (r : R) (items : list batchCall) : list (result error Grant) * R :=
  let '(cs, r) := pipe_Exec r items in
  rerun_cmds r (zip items cs).

(** [Return]: an invalid item or a failed call ends it. *)
Fixpoint Redis_Return (r : R) (dedupe : string) (returns : list (Return * Z * delivery))
  : option error * R :=
  match returns with
  | [] => (None, r)
  | (ret, t, d) :: rest =>
      match prepareReturn ret dedupe with
      | Err e => (Some e, r)
      | Ok inp =>
          match script_Run d (λ r, returnLua r t inp) r with
          | (Err e, r) => (Some e, r)
          | (Ok _, r) => Redis_Return r dedupe rest
          end
      end
  end.

Definition Redis_Lend (r : R) (t : Z) (d : delivery) (ref : Ref) (spec : Spec)
  (base wid want margin : Z) (id : string) : result error Z * R :=
  if negb (Algo_Or (spec_Algo spec) =? FixedWindow)%string then (Err ErrBadSpec, r)
  else script_Run d (λ r, lendLua r t (Ref_Key ref (spec_Algo spec)) (windowMs spec)
                            wid base want margin id) r.

Definition Redis_Credit (r : R) (t : Z) (d : delivery) (ref : Ref) (spec : Spec)
  (wid amount : Z) (id : string) : result error bool * R :=
  if negb (Algo_Or (spec_Algo spec) =? FixedWindow)%string then (Err ErrBadSpec, r)
  else
    let '(x, r) := script_Run d (λ r, creditLua r t (Ref_Key ref (spec_Algo spec)) (windowMs spec)
                                        wid amount id) r in
    (match x with Ok n => Ok (n =? 1) | Err e => Err e end, r).
End scripts.
