(* ===== verification/RedisView.v ===== *)
(** * Scripts on any Redis server

    A script only touches the server through its commands, so on any server
    that behaves as documented it does what it does on the database the server
    stands for: [view] commutes with the four scripts and with the Go calls
    around them. *)

From S2P Require Import Prelude Float64 LuaNum Ledger RedisLedger.

Local Open Scope Z_scope.

Section view.
Context {R : Type} `{RedisBehaves R}.
Implicit Types r : R.

(** The commands' equations, in the form the scripts use them. *)
Lemma db_SETNX_view r ms k v px :
  @redis_SETNX redisDB _ (view r) ms k v px
  = (fst (redis_SETNX r ms k v px), view (snd (redis_SETNX r ms k v px))).
Proof. symmetry. apply view_SETNX. Qed.

Lemma db_INCRBY_view r ms k d :
  @redis_INCRBY redisDB _ (view r) ms k d
  = (fst (redis_INCRBY r ms k d), view (snd (redis_INCRBY r ms k d))).
Proof. symmetry. apply view_INCRBY. Qed.

Lemma db_GET_view r ms k : @redis_GET redisDB _ (view r) ms k = redis_GET r ms k.
Proof. symmetry. apply view_GET. Qed.

Lemma db_SET_view r ms k v px : @redis_SET redisDB _ (view r) ms k v px = view (redis_SET r ms k v px).
Proof. symmetry. apply view_SET. Qed.

Lemma db_PEXPIRE_view r ms k px : @redis_PEXPIRE redisDB _ (view r) ms k px = view (redis_PEXPIRE r ms k px).
Proof. symmetry. apply view_PEXPIRE. Qed.

Lemma db_ZADD_view r ms k s e : @redis_ZADD redisDB _ (view r) ms k s e = view (redis_ZADD r ms k s e).
Proof. symmetry. apply view_ZADD. Qed.

Lemma db_ZPEXPIRE_view r ms k px : @redis_ZPEXPIRE redisDB _ (view r) ms k px = view (redis_ZPEXPIRE r ms k px).
Proof. symmetry. apply view_ZPEXPIRE. Qed.

Lemma db_ZCOUNT_view r ms k min : @redis_ZCOUNT redisDB _ (view r) ms k min = redis_ZCOUNT r ms k min.
Proof. symmetry. apply view_ZCOUNT. Qed.

Lemma lua_get_view r ms k d : lua_get (view r) ms k d = lua_get r ms k d.
Proof. unfold lua_get. by rewrite db_GET_view. Qed.

(** ** Grants *)

Lemma lua_algo_view r ms now inp : lua_algo (view r) ms now inp = lua_algo r ms now inp.
Proof. unfold lua_algo. by rewrite !lua_get_view. Qed.

Lemma lua_parent_view r ms now inp g : lua_parent (view r) ms now inp g = lua_parent r ms now inp g.
Proof.
  unfold lua_parent. destruct (grantInput_keys inp) as [|? [|? ?]]; try done. by rewrite lua_get_view.
Qed.

Lemma lua_endgame_view r ms now inp avail :
  lua_endgame (view r) ms now inp avail = on_snd view (lua_endgame r ms now inp avail).
Proof.
  unfold lua_endgame, on_snd. destruct (_ && _); [|done]. cbv zeta.
  by rewrite db_ZADD_view, db_ZPEXPIRE_view, db_ZCOUNT_view.
Qed.

Lemma lua_charge_view r ms now inp g p grant :
  lua_charge (view r) ms now inp g p grant = on_snd view (lua_charge r ms now inp g p grant).
Proof.
  unfold lua_charge, on_snd. destruct (in_algo inp =? "token_bucket")%string; cbv zeta.
  - rewrite db_SET_view. destruct (lp_pkey p); [|done].
    rewrite db_INCRBY_view, db_PEXPIRE_view. by destruct (redis_INCRBY _ _ _ _).
  - rewrite db_INCRBY_view. destruct (redis_INCRBY r ms _ _) as [v r1]. cbn [fst snd].
    rewrite db_PEXPIRE_view. destruct (f64_eqb _ _), (lp_pkey p); try done;
      rewrite db_INCRBY_view, db_PEXPIRE_view; by destruct (redis_INCRBY _ _ _ _).
Qed.

Lemma grantLua_view r t inp : grantLua (view r) t inp = on_snd view (grantLua r t inp).
Proof.
  unfold grantLua. rewrite lua_algo_view, lua_parent_view, lua_endgame_view.
  destruct (lua_endgame _ _ _ _ _) as [n r1]. unfold on_snd at 1. cbn [fst snd].
  destruct (f64_leb _ _); [done|]. rewrite lua_charge_view. by destruct (lua_charge _ _ _ _ _ _ _).
Qed.

(** ** Returns and transfers *)

Lemma lua_credit_view r ms tokens key ttl :
  lua_credit (view r) ms tokens key ttl = view (lua_credit r ms tokens key ttl).
Proof.
  unfold lua_credit. rewrite lua_get_view. destruct (f64_eqb _ _); [done|].
  rewrite db_INCRBY_view, db_PEXPIRE_view. by destruct (redis_INCRBY _ _ _ _).
Qed.

Lemma lua_return_view r ms now inp :
  lua_return_parent (lua_return_quota (view r) ms now inp) ms now inp
  = view (lua_return_parent (lua_return_quota r ms now inp) ms now inp).
Proof.
  assert (Hq : lua_return_quota (view r) ms now inp = view (lua_return_quota r ms now inp)).
  { unfold lua_return_quota. rewrite lua_get_view, db_SET_view, lua_credit_view.
    destruct (ri_algo inp =? "token_bucket")%string; [done|]. by destruct (f64_eqb _ _). }
  rewrite Hq. unfold lua_return_parent. destruct (ri_parentKey inp =? "")%string; [done|].
  rewrite lua_credit_view. by destruct (f64_eqb _ _).
Qed.

Lemma returnLua_view r t inp : returnLua (view r) t inp = on_snd view (returnLua r t inp).
Proof.
  unfold returnLua. destruct (ri_dedupeKey inp =? "")%string.
  - rewrite lua_return_view. done.
  - rewrite db_SETNX_view. destruct (redis_SETNX _ _ _ _ _) as [[] r1]; cbn [fst snd]; [|done].
    by rewrite lua_return_view.
Qed.

Lemma lendLua_view r t key win wid base want margin id :
  lendLua (view r) t key win wid base want margin id
  = on_snd view (lendLua r t key win wid base want margin id).
Proof.
  unfold lendLua. destruct (negb _); [done|]. rewrite db_GET_view.
  destruct (redis_GET r _ _); [done|]. rewrite !lua_get_view. cbv zeta.
  destruct (f64_ltb lua_zero _).
  - rewrite db_INCRBY_view, db_PEXPIRE_view. destruct (redis_INCRBY _ _ _ _). cbn [fst snd].
    by rewrite db_SET_view.
  - by rewrite db_SET_view.
Qed.

Lemma creditLua_view r t key win wid amount id :
  creditLua (view r) t key win wid amount id = on_snd view (creditLua r t key win wid amount id).
Proof.
  unfold creditLua. destruct (negb _); [done|]. rewrite db_SETNX_view.
  destruct (redis_SETNX _ _ _ _ _) as [[] r1]; cbn [fst snd]; [|done].
  rewrite db_INCRBY_view, db_PEXPIRE_view. by destruct (redis_INCRBY _ _ _ _).
Qed.

(** ** The Go calls *)

Lemma script_Run_view {A} d (f : R → A * R) (g : redisDB → A * redisDB) r :
  (∀ r, g (view r) = on_snd view (f r)) →
  script_Run d g (view r) = on_snd view (script_Run d f r).
Proof.
  intros Hfg. unfold script_Run, on_snd in *. rewrite Hfg.
  destruct d as [| |[] e]; [destruct (f r); done..|done|done].
Qed.

Lemma Redis_Grant_view r t d ref spec args :
  Redis_Grant (view r) t d ref spec args = on_snd view (Redis_Grant r t d ref spec args).
Proof.
  unfold Redis_Grant. destruct (prepare ref spec args) as [inp|e]; [|done].
  rewrite (script_Run_view d (λ s, grantLua s t inp)) by (intros; apply grantLua_view).
  by destruct (script_Run _ _ _).
Qed.

Lemma Redis_Return_view r dedupe rets :
  Redis_Return (view r) dedupe rets = on_snd view (Redis_Return r dedupe rets).
Proof.
  revert r. induction rets as [|[[ret t] d] rets IH]; intros r; [done|]. cbn [Redis_Return].
  destruct (prepareReturn ret dedupe) as [inp|e]; [|done].
  rewrite (script_Run_view d (λ s, returnLua s t inp)) by (intros; apply returnLua_view).
  destruct (script_Run _ _ _) as [[x|e] r1]; [apply IH|done].
Qed.

Lemma Redis_Lend_view r t d ref spec base wid want margin id :
  Redis_Lend (view r) t d ref spec base wid want margin id
  = on_snd view (Redis_Lend r t d ref spec base wid want margin id).
Proof.
  unfold Redis_Lend. destruct (negb _); [done|]. apply script_Run_view. intros. apply lendLua_view.
Qed.

Lemma Redis_Credit_view r t d ref spec wid amount id :
  Redis_Credit (view r) t d ref spec wid amount id
  = on_snd view (Redis_Credit r t d ref spec wid amount id).
Proof.
  unfold Redis_Credit. destruct (negb _); [done|].
  rewrite (script_Run_view d (λ s, creditLua s t (Ref_Key ref (spec_Algo spec)) (windowMs spec) wid amount id))
    by (intros; apply creditLua_view).
  by destruct (script_Run _ _ _).
Qed.
End view.

#[export] Instance redisDB_behaves : RedisBehaves redisDB.
Proof.
  refine {| view := λ r, r |}; try done; intros; unfold on_snd; symmetry; apply surjective_pairing.
Defined.
