(* ===== verification/RedisSim.v ===== *)
(** * When a Redis server and the in-process ledger agree

    The two ledgers store different things: Redis lets counters, buckets, sets
    of edges and deduplication marks expire, where [Mem] keeps them for ever,
    and [Mem] prunes its sets of edges, where Redis drops them whole.  [sim]
    relates the two up to what a call can still observe, and is kept by every
    pair of writes the calls make. *)

From S2P Require Import Prelude Float64 LuaNum Ledger LedgerFacts RedisLedger.
From Stdlib Require Import Ascii.

Local Open Scope Z_scope.

(** The commands of the database itself. *)
Ltac to_db :=
  change (@redis_GET redisDB _) with db_GET in *; change (@redis_SET redisDB _) with db_SET in *;
  change (@redis_SETNX redisDB _) with db_SETNX in *; change (@redis_INCRBY redisDB _) with db_INCRBY in *;
  change (@redis_PEXPIRE redisDB _) with db_PEXPIRE in *; change (@redis_ZADD redisDB _) with db_ZADD in *;
  change (@redis_ZPEXPIRE redisDB _) with db_ZPEXPIRE in *;
  change (@redis_ZCOUNT redisDB _) with db_ZCOUNT in *.

(** ** The relation *)

Section relation.
(** Each quota keeps its window, and the time an edge stays active. *)
Variables (W E : string → Z).

(** A window's counter or a regional allocation, and the end of the window
    after it: the last moment it can be read. *)
Definition counter (k : string) (until : Z) : Prop :=
  ∃ b w, is_base b ∧ (k = winKey b w ∨ k = allocKey b w) ∧ until = (w + 2) * W b.

(** An id that is the last part of a key: no separator, not the name of an
    algorithm and not a number, so that its key is not another quota's. *)
Definition plain_id (id : string) : Prop :=
  ¬ has_char ":" id ∧ id ∉ algos ∧ ∀ w, id ≠ itoa w.

(** The key of a mark that is set once: a deduplicated return or credit. *)
Definition once_key (k : string) : Prop :=
  ∀ b, is_base b → k ≠ b ∧ (∀ w, k ≠ winKey b w ∧ k ≠ allocKey b w)
       ∧ ∀ id, plain_id id → k ≠ lendKey b id.

Definition slot (m : Mem) (r : redisDB) (k : string) (until : Z) : Prop :=
  match rd_vals r !! k with
  | Some (v, Some at_) => holds m k v ∧ until ≤ at_
  | Some (_, None) => False
  | None => holds m k 0
  end.

(** A bucket expires only after its theoretical arrival time is past. *)
Definition bucket (m : Mem) (r : redisDB) (b : string) : Prop :=
  match rd_vals r !! b with
  | Some (v, Some at_) => vals m !! b = Some (f64_of_int v) ∧ f64_small v ∧ v ≤ at_
  | Some (_, None) => False
  | None => vals m !! b = None
  end.

Definition lent (m : Mem) (r : redisDB) (k : string) : Prop :=
  match rd_vals r !! k with
  | Some (v, _) => vals m !! k = Some (f64_of_int v) ∧ f64_small v
  | None => vals m !! k = None
  end.

Definition active (act now : Z) (s : gmap string Z) : gmap string Z :=
  filter (λ ea : string * Z, now - act < snd ea) s.

(** A set of edges expires only after its last member is no longer active. *)
Definition edges_sim (act now : Z) (ms : option (gmap string Z))
  (rs : option (gmap string Z * option Z)) : Prop :=
  match rs with
  | Some (s, Some at_) =>
      active act now (default ∅ ms) = active act now s ∧
      map_Forall (λ _ score, score ≤ now ∧ score + act ≤ at_) s
  | Some (_, None) => False
  | None => active act now (default ∅ ms) = ∅
  end.

Definition edgesKey (b : string) : string := b +:+ ":edges".

Record sim (now : Z) (m : Mem) (r : redisDB) : Prop := {
  sim_counter : ∀ k u, counter k u → slot m r k u;
  sim_bucket : ∀ b, is_base b → bucket m r b;
  sim_lent : ∀ b id, is_base b → plain_id id → lent m r (lendKey b id);
  sim_once : ∀ k, once_key k → k ∈ deduped m ↔ is_Some (rd_vals r !! k);
  sim_edges : ∀ b, is_base b → edges_sim (E b) now (edges m !! b) (rd_zsets r !! edgesKey b);
}.

Lemma sim_new now : sim now NewMem emptyDB.
Proof.
  split; unfold slot, bucket, lent, edges_sim; cbn [rd_vals rd_zsets emptyDB vals edges deduped NewMem];
    intros; rewrite ?lookup_empty; try done.
Qed.

(** ** The kinds of key are distinct *)

Lemma counter_functional k u u' : counter k u → counter k u' → u = u'.
Proof.
  intros (b & w & Hb & Hk & ->) (b' & w' & Hb' & Hk' & ->).
  destruct Hk as [->| ->], Hk' as [Hk|Hk].
  - by apply winKey_inj in Hk as [-> ->].
  - by apply allocKey_winKey_ne in Hk.
  - symmetry in Hk. by apply allocKey_winKey_ne in Hk.
  - by apply allocKey_inj in Hk as [-> ->].
Qed.

Lemma counter_not_base k u b : counter k u → is_base b → k ≠ b.
Proof.
  intros (b' & w & Hb' & Hk & _) Hb ->. destruct Hk as [Hk|Hk].
  - by apply winKey_not_base in Hk.
  - rewrite allocKey_winKey in Hk. by apply winKey_not_base in Hk.
Qed.

Lemma counter_not_lend k u b id : counter k u → plain_id id → k ≠ lendKey b id.
Proof.
  intros (b' & w & Hb' & [->| ->] & _) (Hid & _); [by apply lendKey_winKey_ne|by apply lendKey_allocKey_ne].
Qed.

Lemma counter_not_once k u k' : counter k u → once_key k' → k ≠ k'.
Proof.
  intros (b & w & Hb & Hk & _) Ho ->. destruct (Ho b Hb) as (_ & Hw & _).
  destruct (Hw w) as [H1 H2]. by destruct Hk.
Qed.

Lemma base_not_lend b b' id : is_base b → plain_id id → b ≠ lendKey b' id.
Proof.
  intros Hb (Hid & Ha & _). unfold lendKey. change ":lend:" with (":lend" +:+ ":").
  rewrite (append_assoc ":lend"), <-(append_assoc b'). intros Eq. apply Ha. by eapply base_tail.
Qed.

Hint Resolve counter_not_base counter_not_lend counter_not_once base_not_lend : keys.

(** A mark's key is [prefix:id] with a plain id, under a prefix no transfer's
    key has. *)
Lemma plain_once p id :
  plain_id id → (∀ b, is_base b → p ≠ b +:+ ":lend") → once_key (p +:+ ":" +:+ id).
Proof.
  intros (Hc & Ha & Hw) Hp b Hb. split_and!.
  - intros Eq. apply Ha. by eapply base_tail.
  - intros w. rewrite allocKey_winKey. split; unfold winKey;
      (intros [_ Eq]%tail_inj; [by apply (Hw w)|done|apply itoa_sep, colon_sep]).
  - intros id' (Hc' & _). unfold lendKey. change ":lend:" with (":lend" +:+ ":").
    rewrite (append_assoc ":lend"), <-(append_assoc b). intros [Eq _]%tail_inj; [|done..]. by apply (Hp b).
Qed.

Lemma credit_once b id : plain_id id → once_key (creditKey b id).
Proof.
  intros Hid. unfold creditKey. change ":credit:" with (":credit" +:+ ":").
  rewrite (append_assoc ":credit"), <-(append_assoc b). apply plain_once; [done|]. intros b' _.
  change ":credit" with (":" +:+ "credit"). change ":lend" with (":" +:+ "lend").
  intros [_ [=]]%tail_inj; no_char.
Qed.

(** A hub's deduplication token: the edge's identity and the edge's own token. *)
Lemma return_once b e u :
  ¬ has_char ":" e → plain_id u → once_key (b +:+ ":ret:" +:+ (e +:+ ":" +:+ u)).
Proof.
  intros He Hu. change ":ret:" with (":ret" +:+ ":").
  rewrite (append_assoc ":ret"), <-(append_assoc ":" e), <-(append_assoc ":ret" (":" +:+ e)),
    <-(append_assoc b). apply plain_once; [done|]. intros b' Hb'.
  rewrite <-(append_assoc b ":ret"). change ":lend" with (":" +:+ "lend").
  intros [Eq _]%tail_inj; [|done|no_char]. symmetry in Eq. revert Eq.
  change ":ret" with (":" +:+ "ret"). apply base_not_suffix; [done|..]; no_char.
Qed.

(** ** Writes to both ledgers *)

Lemma rd_vals_put_ne k k' v e r : k ≠ k' → rd_vals (db_put k v e r) !! k' = rd_vals r !! k'.
Proof. apply lookup_insert_ne. Qed.

Lemma rd_vals_put k v e r : rd_vals (db_put k v e r) !! k = Some (v, e).
Proof. apply lookup_insert_eq. Qed.

(** What the relation says of a key only depends on what both store there. *)
Lemma slot_frame m m' r r' k u :
  vals m' !! k = vals m !! k → rd_vals r' !! k = rd_vals r !! k → slot m r k u → slot m' r' k u.
Proof. unfold slot, holds. by intros -> ->. Qed.

Lemma bucket_frame m m' r r' k :
  vals m' !! k = vals m !! k → rd_vals r' !! k = rd_vals r !! k → bucket m r k → bucket m' r' k.
Proof. unfold bucket. by intros -> ->. Qed.

Lemma lent_frame m m' r r' k :
  vals m' !! k = vals m !! k → rd_vals r' !! k = rd_vals r !! k → lent m r k → lent m' r' k.
Proof. unfold lent. by intros -> ->. Qed.

Section writes.
Variables (now : Z) (m : Mem) (r : redisDB).
Hypothesis Hsim : sim now m r.

Lemma sim_put_counter k u v at_ :
  counter k u → f64_small v → u ≤ at_ →
  sim now (set_val k (f64_of_int v) m) (db_put k v (Some at_) r).
Proof using Hsim.
  intros Hk Hv Hat. destruct Hsim as [Hc Hb Hl Ho He]. split.
  - intros k' u' Hk'. destruct (decide (k = k')) as [<-|Hne].
    + unfold slot. rewrite rd_vals_put. rewrite (counter_functional _ _ _ Hk' Hk). auto with gate.
    + eapply slot_frame; [by apply vals_set_ne|by apply rd_vals_put_ne|auto].
  - intros b Hbb. eapply bucket_frame; [apply vals_set_ne|apply rd_vals_put_ne|]; eauto with keys.
  - intros b id Hbb Hid. eapply lent_frame; [apply vals_set_ne|apply rd_vals_put_ne|]; eauto with keys.
  - intros k' Hk'. rewrite rd_vals_put_ne by eauto with keys. auto.
  - done.
Qed.

(** Writing the value a counter already has changes nothing. *)
Lemma sim_same_counter k u v :
  counter k u → holds m k v → sim now (set_val k (f64_of_int v) m) r.
Proof using Hsim.
  intros Hk Hv. destruct Hsim as [Hc Hb Hl Ho He]. split; [..|done|done].
  - intros k' u' Hk'. destruct (decide (k = k')) as [<-|Hne].
    + specialize (Hc k u' Hk'). unfold slot in *. pose proof (holds_set m k v ltac:(apply Hv)) as Hs.
      destruct (rd_vals r !! k) as [[v' [at_|]]|]; [|done|].
      * destruct Hc as [Hc ?]. by rewrite <-(holds_inj _ _ _ _ Hv Hc).
      * by rewrite <-(holds_inj _ _ _ _ Hv Hc).
    + eapply slot_frame; [by apply vals_set_ne|done|auto].
  - intros b Hbb. eapply bucket_frame; [apply vals_set_ne|done|]; eauto with keys.
  - intros b id Hbb Hid. eapply lent_frame; [apply vals_set_ne|done|]; eauto with keys.
Qed.

Lemma sim_put_bucket b v at_ :
  is_base b → f64_small v → v ≤ at_ →
  sim now (set_val b (f64_of_int v) m) (db_put b v (Some at_) r).
Proof using Hsim.
  intros Hbb Hv Hat. destruct Hsim as [Hc Hb Hl Ho He]. split; [..|done].
  - intros k' u' Hk'. assert (b ≠ k') by (intros ->; by eapply counter_not_base).
    eapply slot_frame; [by apply vals_set_ne|by apply rd_vals_put_ne|auto].
  - intros b' Hb'. destruct (decide (b = b')) as [<-|Hne].
    + unfold bucket. rewrite rd_vals_put. cbn. by rewrite lookup_insert_eq.
    + eapply bucket_frame; [by apply vals_set_ne|by apply rd_vals_put_ne|auto].
  - intros b' id Hb' Hid. eapply lent_frame; [apply vals_set_ne|apply rd_vals_put_ne|]; eauto with keys.
  - intros k' Hk'. rewrite rd_vals_put_ne; [auto|]. intros <-. by destruct (Hk' b Hbb).
Qed.

Lemma sim_put_lent b id v at_ :
  is_base b → plain_id id → f64_small v →
  sim now (set_val (lendKey b id) (f64_of_int v) m) (db_put (lendKey b id) v at_ r).
Proof using Hsim.
  intros Hbb Hid Hv. destruct Hsim as [Hc Hb Hl Ho He]. split; [..|done].
  - intros k' u' Hk'. assert (lendKey b id ≠ k') by (intros <-; by eapply counter_not_lend).
    eapply slot_frame; [by apply vals_set_ne|by apply rd_vals_put_ne|auto].
  - intros b' Hb'. assert (lendKey b id ≠ b') by (intros <-; by eapply base_not_lend).
    eapply bucket_frame; [by apply vals_set_ne|by apply rd_vals_put_ne|auto].
  - intros b' id' Hb' Hid'. destruct (decide (lendKey b id = lendKey b' id')) as [<-|Hne].
    + unfold lent. rewrite rd_vals_put. cbn. by rewrite lookup_insert_eq.
    + eapply lent_frame; [by apply vals_set_ne|by apply rd_vals_put_ne|auto].
  - intros k' Hk'. rewrite rd_vals_put_ne; [auto|]. intros <-.
    destruct (Hk' b Hbb) as (_ & _ & Hn). by apply (Hn id).
Qed.

Lemma sim_mark_once k v at_ :
  once_key k → sim now (mark_deduped k m) (db_put k v at_ r).
Proof using Hsim.
  intros Hk. destruct Hsim as [Hc Hb Hl Ho He]. split; [..|done].
  - intros k' u' Hk'. eapply slot_frame; [done|apply rd_vals_put_ne|by apply Hc].
    intros <-. by eapply counter_not_once.
  - intros b' Hb'. eapply bucket_frame; [done|apply rd_vals_put_ne|by apply Hb]. by apply Hk.
  - intros b' id' Hb' Hid'. eapply lent_frame; [done|apply rd_vals_put_ne|by apply Hl].
    destruct (Hk b' Hb') as (_ & _ & Hn). by apply Hn.
  - intros k' Hk'. cbn. destruct (decide (k = k')) as [<-|Hne].
    + rewrite lookup_insert_eq. split; [eauto|set_solver].
    + rewrite lookup_insert_ne, <-Ho by done. set_solver.
Qed.

(** ** Time passes *)

Lemma active_mono act now' s : now ≤ now' → active act now' (active act now s) = active act now' s.
Proof using.
  intros Hle. unfold active. rewrite map_filter_filter. apply map_filter_ext.
  intros i x _. cbn. lia.
Qed.

Lemma sim_advance now' : now ≤ now' → sim now' m r.
Proof using Hsim.
  intros Hle. destruct Hsim as [Hc Hb Hl Ho He]. split; [done..|].
  intros b Hbb. specialize (He b Hbb). unfold edges_sim in *.
  destruct (rd_zsets r !! edgesKey b) as [[s [at_|]]|]; [|done|].
  - destruct He as [Ha Hs]. split.
    + rewrite <-(active_mono _ now' (default _ _)), Ha by done. by apply active_mono.
    + eapply map_Forall_impl; [exact Hs|]. cbn. intros; lia.
  - rewrite <-(active_mono _ now' (default _ _)), He by done. apply map_filter_empty.
Qed.

(** ** Reads *)

(** Up to the end of the next window, a counter reads the same. *)
Lemma sim_get k u :
  counter k u → now ≤ u →
  lua_get r now k lua_zero = tonumber (Mem_getInt m k 0) ∧ holds m k (Mem_getInt m k 0).
Proof using Hsim.
  intros Hk Hu. pose proof (sim_counter _ _ _ Hsim k u Hk) as Hs. unfold slot in Hs.
  unfold lua_get. to_db. unfold db_GET. destruct (rd_vals r !! k) as [[v [at_|]]|]; [|done|].
  - destruct Hs as [Hs Hat]. cbn [db_live]. rewrite (proj2 (Z.ltb_ge _ _)) by lia.
    by rewrite (holds_getInt _ _ _ Hs).
  - by rewrite (holds_getInt _ _ _ Hs).
Qed.

Lemma sim_get_num k u :
  counter k u → now ≤ u → num (lua_get r now k lua_zero) (Mem_getInt m k 0).
Proof using Hsim. intros Hk Hu. destruct (sim_get k u Hk Hu) as [-> [_ Hs]]. by apply num_of_int. Qed.

(** An expired bucket is a full one. *)
Lemma sim_get_bucket b x :
  is_base b → num x now →
  num (let tat := lua_get r now b x in if f64_ltb tat x then x else tat)
      (Z.max (Mem_getInt m b now) now).
Proof using Hsim.
  intros Hb Hx. pose proof (sim_bucket _ _ _ Hsim b Hb) as Hs. unfold bucket in Hs.
  unfold lua_get, Mem_getInt. to_db. unfold db_GET. cbv zeta.
  destruct (rd_vals r !! b) as [[v [at_|]]|]; [|done|].
  - destruct Hs as (-> & Hv & Hat). rewrite f64_to_of_int by done. cbn [db_live].
    destruct (Z.ltb_spec at_ now); cbn [fmap option_fmap option_map fst].
    + rewrite (num_ltb x x now now), Z.ltb_irrefl by done. by rewrite Z.max_r by lia.
    + rewrite (num_ltb _ _ v now) by (done || by apply num_of_int).
      destruct (Z.ltb_spec v now); [by rewrite Z.max_r by lia|].
      rewrite Z.max_l by lia. by apply num_of_int.
  - rewrite Hs. cbn. rewrite (num_ltb x x now now), Z.ltb_irrefl by done. by rewrite Z.max_id.
Qed.

(** ** Counting in both ledgers *)

Lemma add_val_holds k v d :
  holds m k v → f64_small d → f64_small (v + d) →
  add_val k (f64_of_int d) m = set_val k (f64_of_int (v + d)) m.
Proof using. intros [Ev Hv] Hd Hs. unfold add_val. by rewrite Ev, f64_add_int. Qed.

Lemma redis_put_PEXPIRE k v e px ms :
  0 < px → (∀ at_, e = Some at_ → ms ≤ at_) →
  redis_PEXPIRE (db_put k v e r) ms k px = db_put k v (Some (ms + px)) r.
Proof using.
  intros Hpx He. to_db. unfold db_PEXPIRE. rewrite rd_vals_put.
  assert (db_live ms (Some (v, e)) = Some (v, e)) as ->.
  { destruct e as [at_|]; [|done]. cbn. by rewrite (proj2 (Z.ltb_ge _ _)) by auto. }
  rewrite (proj2 (Z.leb_gt _ _)) by done. unfold db_put. cbn. by rewrite insert_insert_eq.
Qed.

Lemma sim_INCRBY k u d :
  counter k u → now ≤ u → let v := Mem_getInt m k 0 in
  ∃ e, redis_INCRBY r now k d = (v + d, db_put k (v + d) e r) ∧
       (∀ at_, e = Some at_ → u ≤ at_) ∧ (e = None → v = 0).
Proof using Hsim.
  intros Hk Hu v. pose proof (sim_counter _ _ _ Hsim k u Hk) as Hs. unfold slot in Hs.
  to_db. unfold db_INCRBY, v. destruct (rd_vals r !! k) as [[v' [at_|]]|]; [|done|].
  - destruct Hs as [Hs Hat]. cbn [db_live]. rewrite (proj2 (Z.ltb_ge _ _)) by lia.
    rewrite (holds_getInt _ _ _ Hs). exists (Some at_). split; [done|]. naive_solver.
  - rewrite (holds_getInt _ _ _ Hs). exists None. split; [done|]. naive_solver.
Qed.

Lemma sim_charge k u d px :
  counter k u → now ≤ u → u ≤ now + px → 0 < px → f64_small d → f64_small (Mem_getInt m k 0 + d) →
  sim now (add_val k (f64_of_int d) m) (redis_PEXPIRE (snd (redis_INCRBY r now k d)) now k px).
Proof using Hsim.
  intros Hk Hu Hpx Hpos Hd Hs. destruct (sim_get k u Hk Hu) as [_ Hh].
  destruct (sim_INCRBY k u d Hk Hu) as (e & -> & He & _). cbn [snd].
  rewrite redis_put_PEXPIRE by (done || (intros ? ?%He; lia)).
  rewrite (add_val_holds k (Mem_getInt m k 0)) by done. by eapply sim_put_counter.
Qed.

(** The script sets a counter's expiry when the grant was the first. *)
Lemma sim_charge_first k u d px :
  counter k u → now ≤ u → u ≤ now + px → 0 < px → f64_small d → f64_small (Mem_getInt m k 0 + d) →
  sim now (add_val k (f64_of_int d) m)
    (let '(v, r) := redis_INCRBY r now k d in
     if f64_eqb (tonumber v) (f64_of_int d) then redis_PEXPIRE r now k px else r).
Proof using Hsim.
  intros Hk Hu Hpx Hpos Hd Hs. destruct (sim_get k u Hk Hu) as [_ Hh].
  pose proof (sim_charge k u d px Hk Hu Hpx Hpos Hd Hs) as Hall.
  destruct (sim_INCRBY k u d Hk Hu) as (e & HI & He & He0). rewrite HI in *. cbn [snd] in Hall.
  unfold tonumber. rewrite f64_eqb_int by done. destruct (Z.eqb_spec (Mem_getInt m k 0 + d) d); [done|].
  destruct e as [at_|]; [|by specialize (He0 eq_refl); lia].
  rewrite (add_val_holds k (Mem_getInt m k 0)) by done. eapply sim_put_counter; eauto.
Qed.

Lemma sim_credit k u tokens ttl px :
  counter k u → now ≤ u → u ≤ now + px → 0 < px → num ttl px → f64_small tokens →
  f64_small (Mem_getInt m k 0 - Z.min tokens (Mem_getInt m k 0)) →
  sim now (Mem_credit k tokens m) (lua_credit r now (tonumber tokens) k ttl).
Proof using Hsim.
  intros Hk Hu Hpx Hpos Httl Ht Hs. destruct (sim_get k u Hk Hu) as [Hg Hh].
  unfold Mem_credit, lua_credit. cbv zeta. rewrite Hg, (num_int _ _ Httl).
  set (v := Mem_getInt m k 0) in *. assert (Hv : f64_small v) by apply Hh.
  assert (Hc : num (if f64_ltb (tonumber v) (tonumber tokens) then tonumber v else tonumber tokens)
                   (Z.min tokens v)).
  { rewrite (num_ltb _ _ v tokens) by by apply num_of_int.
    destruct (Z.ltb_spec v tokens); [rewrite Z.min_r by lia|rewrite Z.min_l by lia]; by apply num_of_int. }
  revert Hc. generalize (if f64_ltb (tonumber v) (tonumber tokens) then tonumber v else tonumber tokens).
  intros c Hc. rewrite (num_eqb c lua_zero _ 0 Hc), (num_int c _ Hc) by by apply num_of_int, f64_small_0.
  unfold i64_sub. rewrite small_int64 by done.
  destruct (Z.eqb_spec (Z.min tokens v) 0) as [->|Hne].
  - rewrite Z.sub_0_r. eapply sim_same_counter; eauto.
  - destruct (sim_INCRBY k u (- Z.min tokens v) Hk Hu) as (e & -> & He & _).
    rewrite redis_put_PEXPIRE by (done || (intros ? ?%He; lia)). fold v. rewrite Z.add_opp_r.
    by eapply sim_put_counter.
Qed.

(** ** The edges seen for a quota *)

(** Pruning drops no active edge. *)
Lemma count_edges_active ms act l s n :
  (ms - act)%i64 = ms - act → (∀ e a a', (e, a) ∈ l → s !! e = Some a' → a' = a) →
  active act ms (snd (count_edges ms act l s n)) = active act ms s.
Proof using.
  intros Ei. revert s n. induction l as [|[e a] l IH]; intros s n Hl; [done|]. cbn [count_edges]. rewrite Ei.
  assert (Hl' : ∀ e a a', (e, a) ∈ l → s !! e = Some a' → a' = a) by (intros; eapply Hl; [by right|done]).
  destruct (Z.ltb_spec (ms - act) a) as [|Hge]; [by apply IH|]. destruct (64 <? _); [|by apply IH].
  rewrite IH.
  - apply map_filter_delete_not. intros a' Ha'. rewrite (Hl e a a'); [cbn; lia|by left|done].
  - intros e' a1 a2 Hin [_ Hlk]%lookup_delete_Some. by eapply Hl'.
Qed.

Lemma count_edges_size (range : gmap string Z → list (string * Z)) ms act s s' :
  (∀ s, range s ≡ₚ map_to_list s) → (ms - act)%i64 = ms - act →
  fst (count_edges ms act (range s) s' 0) = Z.of_nat (size (active act ms s)).
Proof using.
  intros Hr Ei. rewrite count_edges_n, Z.add_0_l. f_equal. rewrite Hr. unfold active.
  rewrite map_filter_alt, map_size_list_to_map.
  - f_equal. apply list_filter_iff. intros [e a]. unfold is_active. cbn. by rewrite Ei.
  - eapply sublist_NoDup; [apply (NoDup_fst_map_to_list s)|]. apply fmap_sublist, sublist_filter.
Qed.

Lemma edges_sim_live act es rs :
  edges_sim act now es rs →
  let s := default ∅ (fst <$> db_live now rs) in
  active act now (default ∅ es) = active act now s ∧ map_Forall (λ _ score, score ≤ now) s.
Proof using.
  unfold edges_sim. destruct rs as [[s [at_|]]|]; [|done|].
  - intros [Ha Hs]. cbn [db_live]. destruct (Z.ltb_spec at_ now) as [Hlt|Hge]; cbn.
    + split; [|by apply map_Forall_empty]. rewrite Ha. unfold active. rewrite map_filter_empty.
      apply map_empty_filter_2. eapply map_Forall_impl; [exact Hs|]. cbn. intros. lia.
    + split; [done|]. eapply map_Forall_impl; [exact Hs|]. cbn. intros. lia.
  - intros ->. split; [done|]. apply map_Forall_empty.
Qed.

Lemma edgesKey_inj b b' : edgesKey b = edgesKey b' → b = b'.
Proof using.
  unfold edgesKey. intros Eq%(f_equal chars). rewrite !chars_app in Eq.
  apply app_inj_2 in Eq as [Eq _]; [|done]. by apply (inj chars).
Qed.

(** What the script leaves under the edges' key. *)
Lemma redis_register k edge act :
  0 < act → let s := <[edge := now]> (db_zset r now k) in
  let r' := redis_ZPEXPIRE (redis_ZADD r now k now edge) now k act in
  r' = mkDB (rd_vals r) (<[k := (s, Some (now + act))]> (rd_zsets r)) ∧
  ∀ min, redis_ZCOUNT r' now k min = Z.of_nat (size (filter (λ ea : string * Z, min < snd ea) s)).
Proof using.
  intros Hact s r'.
  assert (Hr' : r' = mkDB (rd_vals r) (<[k := (s, Some (now + act))]> (rd_zsets r))).
  { unfold r'. to_db. unfold db_ZPEXPIRE, db_ZADD. cbn [rd_zsets rd_vals]. rewrite lookup_insert_eq. fold s.
    set (e := default None _).
    assert (db_live now (Some (s, e)) = Some (s, e)) as ->.
    { unfold e, db_live. destruct (rd_zsets r !! k) as [[x [at_|]]|]; [|done|done].
      destruct (Z.ltb_spec at_ now); cbn; [done|]. by rewrite (proj2 (Z.ltb_ge _ _)). }
    rewrite (proj2 (Z.leb_gt _ _)), insert_insert_eq by done. done. }
  split; [done|]. intros min. rewrite Hr'. to_db. unfold db_ZCOUNT, db_zset. cbn [rd_zsets].
  rewrite lookup_insert_eq. cbn [db_live]. by rewrite (proj2 (Z.ltb_ge _ _)) by lia.
Qed.

Lemma sim_register b edge act s' :
  is_base b → act = E b → 0 < act →
  active act now s' = active act now (<[edge := now]> (default ∅ (edges m !! b))) →
  sim now (set_edges b s' m) (redis_ZPEXPIRE (redis_ZADD r now (edgesKey b) now edge) now (edgesKey b) act)
  ∧ active act now s' = active act now (<[edge := now]> (db_zset r now (edgesKey b))).
Proof using Hsim.
  intros Hb -> Hact Hs'. destruct Hsim as [Hc Hbk Hl Ho He].
  destruct (edges_sim_live _ _ _ (He b Hb)) as [Ha Hf].
  assert (Heq : active (E b) now s' = active (E b) now (<[edge := now]> (db_zset r now (edgesKey b)))).
  { rewrite Hs'. unfold active in *. rewrite !map_filter_insert_True by (cbn; lia). by rewrite Ha. }
  split; [|done]. destruct (redis_register (edgesKey b) edge (E b) Hact) as [-> _].
  split; [done..|]. intros b' Hb'. cbn [edges set_edges rd_zsets].
  destruct (decide (b = b')) as [<-|Hne].
  - rewrite !lookup_insert_eq. split; [done|]. apply map_Forall_insert_2; [lia|].
    eapply map_Forall_impl; [exact Hf|]. cbn. intros. lia.
  - rewrite !lookup_insert_ne by (done || by intros ?%edgesKey_inj). by apply He.
Qed.
End writes.
End relation.
