(* ===== verification/RedisProps.v ===== *)
(** * The Redis ledger implements the in-process ledger

    [redis.go] says that the grant script mirrors [Mem.Grant] line for line.
    Call by call, starting from ledgers in agreement ([RedisSim.sim]) and for
    numbers a [float64] holds exactly, the scripts give the replies of [Mem]
    and leave the ledgers in agreement; so over any sequence of calls the two
    cannot be told apart. *)

From S2P Require Import Prelude Float64 LuaNum Ledger LedgerFacts RedisLedger RedisSim.
From Stdlib Require Import Ascii.

Local Open Scope Z_scope.

(** ** Magnitudes *)

(** Limits, grants and allocations; counters and times. *)
Definition max_quota : Z := 2 ^ 40.
Definition max_count : Z := 2 ^ 50.

(** The clock prints in full in a key: the year is before 5138. *)
Definition max_clock : Z := 100000000000000.

Definition counted (n : Z) : bool := Z.abs n <=? max_count.

Lemma counted_spec n : counted n = true → - max_count ≤ n ≤ max_count.
Proof. unfold counted. intros H%Z.leb_le. lia. Qed.

Ltac sizes :=
  unfold clock_ok, win_ok, f64_small, f64_max_int, is_int64, int64_min, int64_max,
    max_quota, max_count, max_clock in *; lia.

(** ** The clock *)

Lemma lua_now_num t now : now = redis_ms t → 0 ≤ t → now < max_clock → num (lua_now t) now.
Proof.
  intros -> Ht Hnow. unfold redis_ms in *.
  assert (Hd : t `div` 1000 = t `div` 1000000 * 1000 + t `mod` 1000000 `div` 1000).
  { symmetry. rewrite Z.add_comm, <-Z.div_add by lia. rewrite Z.add_comm. f_equal.
    pose proof (Z.div_mod t 1000000 ltac:(lia)). lia. }
  pose proof (Z.mod_pos_bound t 1000000 ltac:(lia)). pose proof (Z.div_pos t 1000000 Ht ltac:(lia)).
  assert (0 ≤ t `mod` 1000000 `div` 1000) by (apply Z.div_pos; lia).
  unfold lua_now, tonumber. rewrite f64_floor_ms by sizes.
  rewrite f64_mul_int, f64_add_int by sizes. rewrite <-Hd. split; [done|sizes].
Qed.

(** ** One grant *)

Lemma mark_deduped_id k m : k ∈ deduped m → mark_deduped k m = m.
Proof. intros Hk. unfold mark_deduped. destruct m. cbn in *. f_equal. set_solver. Qed.

Section calls.
Variables (W E : string → Z).
Notation sim := (sim W E).
Notation counter := (counter W).

Record grant_fits (now : Z) (inp : grantInput) : Prop := {
  gf_now : in_win inp ≤ now < max_clock;
  gf_win : win_ok (in_win inp);
  gf_key : is_base (in_key inp);
  gf_W : W (in_key inp) = in_win inp;
  gf_E : in_activeMs inp = E (in_key inp);
  gf_active : 0 < in_activeMs inp ≤ max_count;
  gf_limit : 0 < in_limit inp ≤ max_quota;
  gf_target : 1 ≤ in_target inp ≤ max_quota;
  gf_alloc : -1 ≤ in_allocBase inp ≤ max_quota;
  gf_ttl : 0 ≤ in_ttl inp ≤ max_count;
  gf_parent : in_parentKey inp ≠ "" →
    is_base (in_parentKey inp) ∧ in_parentKey inp ≠ in_key inp ∧
    W (in_parentKey inp) = in_pwin inp ∧ win_ok (in_pwin inp) ∧ in_pwin inp ≤ now ∧
    0 < in_plimit inp ≤ max_quota;
}.

(** The quantities a grant rounds to whole numbers, before the rounding. *)
Definition tb_avail (m : Mem) (now : Z) (inp : grantInput) : float64 :=
  let T := f64_div (f64_of_int 1000) (in_rate inp) in
  let tat := Z.max (Mem_getInt m (in_key inp) now) now in
  f64_floor (f64_div (f64_sub (f64_add (f64_of_int now) (f64_mul (f64_of_int (in_limit inp)) T))
                              (f64_of_int tat)) T).

Definition sw_carry (m : Mem) (now : Z) (inp : grantInput) : float64 :=
  let wid := now `div` in_win inp in
  let f := f64_div (f64_of_int (now - wid * in_win inp)) (f64_of_int (in_win inp)) in
  f64_ceil (f64_mul (f64_of_int (Mem_getInt m (winKey (in_key inp) (wid - 1)) 0))
                    (f64_sub (f64_of_int 1) f)).

(** The counters a grant reads are within range, and so is what a sliding
    window carries over or a bucket holds. *)
Definition counters_fit (m : Mem) (now : Z) (inp : grantInput) : bool :=
  let wid := now `div` in_win inp in
  counted (Mem_getInt m (winKey (in_key inp) wid) 0)
  && counted (Mem_getInt m (winKey (in_key inp) (wid - 1)) 0)
  && counted (Mem_getInt m (allocKey (in_key inp) wid) 0)
  && counted (Mem_getInt m (winKey (in_parentKey inp) (now `div` in_pwin inp)) 0)
  && (if (in_algo inp =? TokenBucket)%string
      then f64_whole (tb_avail m now inp) && counted (f64_to_int (tb_avail m now inp))
      else if (in_algo inp =? SlidingWindow)%string
      then f64_whole (sw_carry m now inp) && counted (f64_to_int (sw_carry m now inp))
      else true).

Record locals_sim (g : grantLocals) (l : luaLocals) : Prop := {
  ls_limit : num (ll_limit l) (gl_limit g);
  ls_avail : num (ll_avail l) (gl_avail g);
  ls_avail_bound : - 2 ^ 52 ≤ gl_avail g ≤ 2 ^ 52;
  ls_limit_bound : - 2 ^ 51 ≤ gl_limit g ≤ 2 ^ 51;
  ls_wid : num (ll_wid l) (gl_wid g);
  ls_reset : num (ll_reset l) (gl_reset g);
  ls_expires : num (ll_expires l) (gl_expires g);
  ls_tat : num (ll_tat l) (gl_tat g);
  ls_prev : num (ll_prev l) (gl_prev g);
  ls_cur : num (ll_cur l) (gl_cur g);
  ls_f : ll_f l = gl_f g;
  ls_key : ll_key l = gl_key g;
}.

(** The windows a call reads: the current one and the one before. *)
Lemma counter_now now b win :
  is_base b → W b = win → win_ok win → 0 ≤ now →
  let wid := now `div` win in
  now ≤ (wid + 2) * win ∧ now ≤ (wid - 1 + 2) * win ∧
  counter (winKey b wid) ((wid + 2) * win) ∧ counter (allocKey b wid) ((wid + 2) * win) ∧
  counter (winKey b (wid - 1)) ((wid - 1 + 2) * win).
Proof.
  intros Hb HW Hw Hn wid. pose proof (Z.div_mod now win ltac:(sizes)).
  pose proof (Z.mod_pos_bound now win ltac:(sizes)). unfold wid.
  split_and!; [unfold win_ok in *; lia..| | |]; eexists _, _; rewrite HW; eauto.
Qed.

(** The arithmetic of the window containing [now]. *)
Lemma window_num x now win :
  num x now → win_ok win → win ≤ now < max_clock →
  let wid := f64_floor (f64_div x (tonumber win)) in
  let w := now `div` win in
  (now / win)%i64 = w ∧ num wid w ∧
  num (f64_sub (f64_mul (f64_add wid (tonumber 1)) (tonumber win)) x) ((w + 1) * win - now)%i64 ∧
  num (f64_sub wid (tonumber 1)) (w - 1) ∧
  num (f64_sub x (f64_mul wid (tonumber win))) (now - w * win) ∧
  (w - 1)%i64 = w - 1 ∧ (now - w * win)%i64 = now - w * win.
Proof.
  intros Hx Hw Hn wid w. destruct (window_div now win ltac:(sizes) Hw) as [Ew Hw0]. fold w in Ew, Hw0.
  pose proof (Z.div_mod now win ltac:(sizes)). pose proof (Z.mod_pos_bound now win ltac:(sizes)). fold w in H.
  assert (Hwin : num (tonumber win) win) by (apply num_of_int; sizes).
  assert (H1 : num (tonumber 1) 1) by (apply num_of_int; sizes).
  assert (Hwid : num wid w).
  { rewrite <-Ew. apply num_floor_div; [done|done|sizes|sizes]. }
  assert (Ea : (w + 1)%i64 = w + 1) by (apply small_int64; sizes).
  assert (Em : ((w + 1) * win)%i64 = (w + 1) * win) by (unfold i64_mul; rewrite Ea; apply small_int64; sizes).
  assert (Ep : (w * win)%i64 = w * win) by (apply small_int64; sizes).
  assert (E1 : (w - 1)%i64 = w - 1) by (apply small_int64; sizes).
  assert (E2 : (now - w * win)%i64 = now - w * win) by (unfold i64_sub; rewrite Ep; apply small_int64; sizes).
  assert (Hm : num (f64_mul wid (tonumber win)) (w * win)).
  { rewrite <-Ep. apply num_mul; (done || sizes). }
  split_and!; try done.
  - apply num_sub; [|done|rewrite Em; sizes]. apply num_mul; [apply num_add; (done || sizes)|done|..];
      rewrite ?Ea; sizes.
  - rewrite <-E1. apply num_sub; (done || sizes).
  - rewrite <-E2. unfold i64_sub. rewrite Ep. apply (num_sub x _ now (w * win)); (done || sizes).
Qed.

(** The limit in force: the spec's, or the region's allocation of it. *)
Lemma limit_num alloc base limit x :
  num x alloc → - max_count ≤ alloc ≤ max_count → -1 ≤ base ≤ max_quota → 0 < limit ≤ max_quota →
  let l := if 0 <=? base then (base + alloc)%i64 else limit in
  num (if f64_leb lua_zero (tonumber base) then f64_add (tonumber base) x else tonumber limit) l ∧
  - 2 ^ 51 ≤ l ≤ 2 ^ 51.
Proof.
  intros Hx Ha Hb Hl l. unfold l.
  rewrite (num_leb _ _ 0 base) by (apply num_of_int; sizes).
  destruct (0 <=? base).
  - assert (Es : (base + alloc)%i64 = base + alloc) by (apply small_int64; sizes).
    split; [|rewrite Es; sizes]. apply num_add; [apply num_of_int; sizes|done|sizes].
  - split; [apply num_of_int|]; sizes.
Qed.

Ltac locals_fields :=
  split; cbn [ll_limit ll_avail ll_wid ll_reset ll_expires ll_tat ll_prev ll_cur ll_f ll_key
              gl_limit gl_avail gl_wid gl_reset gl_expires gl_tat gl_prev gl_cur gl_f gl_key]; try done.

Section algo.
Variables (now : Z) (m : Mem) (r : redisDB) (inp : grantInput) (x : float64).
Hypothesis Hsim : sim now m r.
Hypothesis Hx : num x now.
Hypothesis Hfits : grant_fits now inp.
Hypothesis Hcount : counters_fit m now inp = true.

Lemma num_zero : num lua_zero 0.
Proof using. apply num_of_int, f64_small_0. Qed.

Lemma num_limit : num (tonumber (in_limit inp)) (in_limit inp).
Proof using Hfits. destruct Hfits. apply num_of_int. sizes. Qed.

Lemma algo_sim_bucket :
  (in_algo inp =? TokenBucket)%string = true →
  locals_sim (grant_algo m now inp) (lua_algo r now x inp).
Proof using All.
  intros Htb. pose proof num_zero. pose proof num_limit.
  pose proof (sim_get_bucket W E now m r Hsim (in_key inp) x (gf_key _ _ Hfits) Hx) as Htat.
  cbv zeta in Htat.
  unfold counters_fit in Hcount. rewrite Htb in Hcount.
  apply andb_true_iff in Hcount as [_ [Hwh Hct]%andb_true_iff]. apply counted_spec in Hct.
  pose proof (num_whole _ Hwh) as Hav. unfold tb_avail in Hav, Hct. destruct Hfits.
  unfold grant_algo, lua_algo. change "token_bucket" with TokenBucket. rewrite Htb.
  locals_fields; [|sizes|sizes|apply num_of_int; sizes].
  rewrite (proj1 Htat), (proj1 Hx). exact Hav.
Qed.

Lemma algo_sim_window :
  (in_algo inp =? TokenBucket)%string = false →
  locals_sim (grant_algo m now inp) (lua_algo r now x inp).
Proof using All.
  intros Htb. pose proof num_zero. destruct Hfits as [Hnow Hwin Hkey HW _ _ Hlim Htg Hal Httl _].
  unfold counters_fit in Hcount. rewrite Htb in Hcount.
  apply andb_true_iff in Hcount as [[[[Hcur Hprev]%andb_true_iff Hal']%andb_true_iff _]%andb_true_iff Hsw].
  apply counted_spec in Hcur, Hprev, Hal'.
  unfold grant_algo, lua_algo. change "token_bucket" with TokenBucket.
  change "sliding_window" with SlidingWindow. rewrite Htb.
  destruct (window_num x now (in_win inp) Hx Hwin Hnow) as (-> & Hwid & Hreset & Hwid' & Hel & -> & ->).
  destruct (counter_now now _ _ Hkey HW Hwin ltac:(sizes)) as (Hu & Hu' & Cw & Ca & Cp).
  set (w := now `div` in_win inp) in *.
  rewrite (num_tostring _ _ Hwid), (num_tostring _ _ Hwid').
  change (in_key inp +:+ ":" +:+ itoa ?z) with (winKey (in_key inp) z).
  change (in_key inp +:+ ":alloc:" +:+ itoa w) with (allocKey (in_key inp) w).
  pose proof (sim_get_num W E now m r Hsim _ _ Cw Hu) as Nc.
  pose proof (sim_get_num W E now m r Hsim _ _ Ca Hu) as Na.
  pose proof (sim_get_num W E now m r Hsim _ _ Cp Hu') as Np.
  destruct (limit_num _ (in_allocBase inp) (in_limit inp) _ Na ltac:(sizes) Hal Hlim) as [Nl Bl].
  cbv zeta in Nl, Bl. set (l := if 0 <=? _ then _ else _) in *. clearbody l.
  set (xl := if f64_leb _ _ then _ else _) in *. clearbody xl.
  destruct (in_algo inp =? SlidingWindow)%string eqn:Hsl.
  - apply andb_true_iff in Hsw as [Hwh Hct]. apply counted_spec in Hct.
    pose proof (num_whole _ Hwh) as Ncarry. unfold sw_carry in Ncarry, Hct. fold w in Ncarry, Hct.
    rewrite (proj1 Hel). rewrite <-(proj1 Np) in *. unfold tonumber.
    set (carry := f64_ceil _) in *. clearbody carry.
    pose proof (num_add _ _ _ _ Nc Ncarry ltac:(sizes)) as Nu. revert Nu.
    unfold i64_add. rewrite small_int64 by sizes. intros Nu.
    locals_fields; [apply num_sub; [done|done|sizes]|]. unfold i64_sub. rewrite small_int64; sizes.
  - locals_fields; [apply num_sub; [done|done|sizes]|]. unfold i64_sub. rewrite small_int64; sizes.
Qed.

Lemma algo_sim : locals_sim (grant_algo m now inp) (lua_algo r now x inp).
Proof using All.
  destruct (in_algo inp =? TokenBucket)%string eqn:Htb; [by apply algo_sim_bucket|by apply algo_sim_window].
Qed.

Record parent_sim (p : parentLocals) (l : luaParent) : Prop := {
  ps_pkey : match lp_pkey l with
            | Some k => pl_pkey p = k ∧ in_parentKey inp ≠ "" ∧
                        k = winKey (in_parentKey inp) (now `div` in_pwin inp)
            | None => pl_pkey p = ""
            end;
  ps_pwid : num (lp_pwid l) (pl_pwid p);
  ps_preset : num (lp_preset l) (pl_preset p);
  ps_binds : lp_binds l = pl_binds p;
  ps_binds_parent : pl_binds p = true → in_parentKey inp ≠ "";
  ps_avail : num (lp_avail l) (pl_avail p);
  ps_avail_bound : - 2 ^ 52 ≤ pl_avail p ≤ 2 ^ 52;
  ps_expires : num (lp_expires l) (pl_expires p);
}.

Ltac parent_fields :=
  split; cbn [lp_pkey lp_pwid lp_preset lp_binds lp_avail lp_expires
              pl_pkey pl_pwid pl_preset pl_binds pl_avail pl_expires]; try done.

Lemma parent_sim_ok :
  parent_sim (grant_parent m now inp (grant_algo m now inp)) (lua_parent r now x inp (lua_algo r now x inp)).
Proof using All.
  pose proof algo_sim as Hg. pose proof num_zero.
  generalize dependent (grant_algo m now inp). generalize dependent (lua_algo r now x inp). intros l g Hg.
  unfold grant_parent, lua_parent, grantInput_keys.
  destruct (in_parentKey inp =? "")%string eqn:Epk; [parent_fields; apply Hg|].
  assert (Hne : in_parentKey inp ≠ "") by (by apply String.eqb_neq).
  destruct Hfits as [Hnow _ _ _ _ _ _ _ _ _ Hp]. destruct (Hp Hne) as (Hpb & _ & HWp & Hpw & Hpn & Hpl).
  unfold counters_fit in Hcount.
  apply andb_true_iff in Hcount as [[_ Hpc]%andb_true_iff _]. apply counted_spec in Hpc.
  destruct (window_num x now (in_pwin inp) Hx Hpw ltac:(sizes)) as (-> & Hwid & Hreset & _).
  destruct (counter_now now _ _ Hpb HWp Hpw ltac:(sizes)) as (Hu & _ & Cw & _).
  set (w := now `div` in_pwin inp) in *. rewrite (num_tostring _ _ Hwid).
  change (in_parentKey inp +:+ ":" +:+ itoa ?z) with (winKey (in_parentKey inp) z).
  pose proof (sim_get_num W E now m r Hsim _ _ Cw Hu) as Nc.
  assert (Npl : num (tonumber (in_plimit inp)) (in_plimit inp)) by (apply num_of_int; sizes).
  pose proof (num_sub _ _ _ _ Npl Nc ltac:(sizes)) as Npa.
  assert (Bpa : - 2 ^ 52 ≤ (in_plimit inp - Mem_getInt m (winKey (in_parentKey inp) w) 0)%i64 ≤ 2 ^ 52)
    by (unfold i64_sub; rewrite small_int64; sizes).
  pose proof (num_ltb _ _ _ _ Npa (ls_avail _ _ Hg)) as Eb.
  pose proof (num_ltb _ _ _ _ Hreset (ls_expires _ _ Hg)) as Ee.
  parent_fields.
  - rewrite Eb. apply num_if; [done|apply Hg].
  - destruct (_ <? _); [done|apply Hg].
  - rewrite Ee. pose proof (ls_expires _ _ Hg).
    destruct (Z.ltb_spec ((w + 1) * in_pwin inp - now)%i64 (gl_expires g));
      [rewrite Z.min_r by lia|rewrite Z.min_l by lia]; done.
Qed.

(** The edges that share what is left. *)
Definition edges_fit (m : Mem) (inp : grantInput) : bool :=
  Z.of_nat (size (default ∅ (edges m !! in_key inp))) <? 4096.

Section endgame.
Variable range : gmap string Z → list (string * Z).
Hypothesis range_perm : ∀ s, range s ≡ₚ map_to_list s.

Lemma endgame_sim avail y :
  num y avail → edges_fit m inp = true →
  let (n, m') := grant_endgame range m now inp avail in
  let (z, r') := lua_endgame r now x inp y in
  num z n ∧ 1 ≤ n ≤ 4096 ∧ sim now m' r'.
Proof using All.
  intros Hy He%Z.ltb_lt. destruct Hfits as [Hnow Hwin Hkey _ HE Hact _ Htg _ _ _].
  assert (Ei : (now - in_activeMs inp)%i64 = now - in_activeMs inp) by (apply small_int64; sizes).
  pose proof (grant_endgame_n range range_perm m now inp avail ltac:(rewrite Ei; sizes)) as Hn.
  unfold grant_endgame, lua_endgame in *.
  rewrite (num_ltb y _ avail (64 * in_target inp)%i64); [|done|].
  2: { apply num_mul; [apply num_of_int|apply num_of_int|..]; sizes. }
  destruct (negb _ && _); [|split_and!; [apply num_of_int; sizes|lia|lia|done]].
  set (s := <[in_edge inp := now]> (default ∅ (edges m !! in_key inp))) in *.
  pose proof (count_edges_size range now (in_activeMs inp) s s range_perm Ei) as Hsz.
  pose proof (count_edges_active now (in_activeMs inp) (range s) s 0 Ei) as Hac.
  destruct (count_edges now (in_activeMs inp) (range s) s 0) as [n s']. cbn [fst snd] in *.
  specialize (Hac ltac:(intros e a a'; rewrite range_perm, elem_of_map_to_list; congruence)).
  rewrite (num_int x now Hx), (num_int _ (in_activeMs inp)) by (apply num_of_int; sizes).
  rewrite (num_int _ (now - in_activeMs inp)).
  2: { rewrite <-Ei. apply num_sub; [done|apply num_of_int; sizes|sizes]. }
  change (in_key inp +:+ ":edges") with (edgesKey (in_key inp)).
  destruct (sim_register W E now m r Hsim (in_key inp) (in_edge inp) _ s' Hkey HE ltac:(lia) Hac) as [Hs Ha].
  split_and!; [|lia|lia|done].
  rewrite (proj2 (redis_register now r (edgesKey (in_key inp)) (in_edge inp) (in_activeMs inp) ltac:(lia))).
  change (filter _ ?z) with (active (in_activeMs inp) now z). rewrite <-Ha, Hac, <-Hsz.
  apply num_of_int. sizes.
Qed.
End endgame.

(** What a refusal rounds up to a whole wait. *)
Definition retry_float (g : grantLocals) : float64 :=
  let T := f64_div (f64_of_int 1000) (in_rate inp) in
  if (in_algo inp =? TokenBucket)%string then
    f64_ceil (f64_sub (f64_sub (f64_add (f64_of_int (gl_tat g)) T)
                               (f64_mul (f64_of_int (gl_limit g)) T)) (f64_of_int now))
  else if (in_algo inp =? SlidingWindow)%string && (0 <? gl_prev g) && (gl_cur g <? gl_limit g) then
    let fneed := f64_sub (f64_of_int 1)
                   (f64_div (f64_of_int (gl_limit g - 1 - gl_cur g)) (f64_of_int (gl_prev g))) in
    f64_ceil (f64_mul (f64_sub fneed (gl_f g)) (f64_of_int (in_win inp)))
  else f64_of_int 0.

(** A tenth of a window, at least half a second, at most what is left of it. *)
Lemma tenth_num win xr reset :
  win_ok win → num xr reset →
  num (lua_min (lua_max (f64_floor (f64_div (tonumber win) (tonumber 10))) (tonumber 500)) xr)
      (Z.min (Z.max (win / 10)%i64 500) reset).
Proof using.
  intros Hw Hr. apply num_min; [|done]. apply num_max; [|apply num_of_int; sizes].
  apply num_floor_div; [apply num_of_int; sizes|apply num_of_int; sizes|lia|sizes].
Qed.

Lemma retry_sim g l p q :
  locals_sim g l → parent_sim p q → counted (gl_cur g) = true →
  pl_binds p || f64_whole (retry_float g) = true →
  num (lua_retry x inp l q) (grant_retry now inp g p).
Proof using Hx Hfits.
  intros Hg Hp Hcur%counted_spec Hw. unfold lua_retry, grant_retry. rewrite (ps_binds _ _ Hp).
  destruct (pl_binds p) eqn:Eb.
  { destruct (gf_parent _ _ Hfits (ps_binds_parent _ _ Hp Eb)) as (_ & _ & _ & Hpw & _).
    apply tenth_num; [done|apply Hp]. }
  cbn [orb] in Hw. apply num_whole in Hw. unfold retry_float in Hw.
  change "token_bucket" with TokenBucket. change "sliding_window" with SlidingWindow.
  destruct (in_algo inp =? TokenBucket)%string.
  { apply num_max; [|apply num_of_int; sizes].
    by rewrite (proj1 (ls_tat _ _ Hg)), (proj1 (ls_limit _ _ Hg)), (proj1 Hx). }
  rewrite (num_ltb _ _ _ _ num_zero (ls_prev _ _ Hg)), (num_ltb _ _ _ _ (ls_cur _ _ Hg) (ls_limit _ _ Hg)).
  destruct (_ && _ && _); [|apply tenth_num; [by destruct Hfits|apply Hg]].
  pose proof (ls_limit_bound _ _ Hg) as Hlb.
  assert (E1 : (gl_limit g - 1)%i64 = gl_limit g - 1) by (apply small_int64; sizes).
  assert (E2 : (gl_limit g - 1 - gl_cur g)%i64 = gl_limit g - 1 - gl_cur g).
  { rewrite E1. apply small_int64. sizes. }
  assert (Nd : num (f64_sub (f64_sub (ll_limit l) (tonumber 1)) (ll_cur l)) (gl_limit g - 1 - gl_cur g)).
  { rewrite <-E2. apply num_sub; [apply num_sub; [apply Hg|apply num_of_int; sizes|sizes]|apply Hg|].
    rewrite E1. sizes. }
  rewrite E2. apply num_min; [|apply Hg]. apply num_max; [|apply num_of_int; sizes].
  rewrite (proj1 Nd), (proj1 (ls_prev _ _ Hg)), (ls_f _ _ Hg). exact Hw.
Qed.

(** How much is granted: the target, or an even share of what is left. *)
Lemma amount_num n z avail y :
  num z n → num y avail → 1 ≤ n ≤ 4096 → 1 ≤ avail ≤ 2 ^ 52 →
  let target := if avail <? (n * in_target inp)%i64 then ((avail + n - 1) / n)%i64 else in_target inp in
  let xt := tonumber (in_target inp) in
  num (lua_min (if f64_ltb y (f64_mul z xt)
                then f64_floor (f64_div (f64_sub (f64_add y z) (tonumber 1)) z) else xt) y)
      (Z.min target avail) ∧ 1 ≤ Z.min target avail ≤ max_quota.
Proof using Hfits.
  intros Hz Hy Hn Hav target xt. pose proof (gf_target _ _ Hfits) as Ht.
  assert (Nt : num xt (in_target inp)) by (apply num_of_int; sizes).
  assert (Em : (n * in_target inp)%i64 = n * in_target inp).
  { apply small_int64. unfold max_quota in *. unfold f64_small, f64_max_int. nia. }
  assert (Nm : num (f64_mul z xt) (n * in_target inp)%i64).
  { apply num_mul; [done|done|sizes|sizes|]. unfold max_quota in *. unfold f64_small, f64_max_int. nia. }
  assert (Es : (avail + n - 1)%i64 = avail + n - 1).
  { unfold i64_sub, i64_add. rewrite (small_int64 (avail + n)) by sizes. apply small_int64. sizes. }
  assert (Nd : num (f64_floor (f64_div (f64_sub (f64_add y z) (tonumber 1)) z)) ((avail + n - 1) / n)%i64).
  { apply num_floor_div; [|done|lia|rewrite Es; sizes].
    apply num_sub; [apply num_add; [done|done|sizes]|apply num_of_int; sizes|].
    unfold i64_add. rewrite small_int64; sizes. }
  rewrite (num_ltb _ _ _ _ Hy Nm). split; [apply num_min; [by apply num_if|done]|].
  unfold target. destruct (Z.ltb_spec avail (n * in_target inp)%i64) as [Hlt|]; [|sizes].
  rewrite Em in Hlt. rewrite Es. unfold i64_div. rewrite quot_div_pos by lia.
  assert (1 ≤ (avail + n - 1) `div` n ≤ in_target inp).
  { split; [apply Z.div_le_lower_bound; lia|]. apply Z.lt_succ_r, Z.div_lt_upper_bound; nia. }
  rewrite small_int64 by sizes. sizes.
Qed.

Definition tb_tat (g : grantLocals) (grant : Z) : float64 :=
  f64_ceil (f64_add (f64_of_int (gl_tat g))
                    (f64_mul (f64_of_int grant) (f64_div (f64_of_int 1000) (in_rate inp)))).

(** The window of a quota and the counter's life, which outlasts it. *)
Lemma ttl_num win : win_ok win → num (lua_ttl (tonumber win)) (2 * win + 1000).
Proof using.
  intros Hw. unfold lua_ttl.
  assert (E1 : (2 * win)%i64 = 2 * win) by (apply small_int64; sizes).
  assert (E2 : (2 * win + 1000)%i64 = 2 * win + 1000) by (rewrite E1; apply small_int64; sizes).
  rewrite <-E2. apply num_add; [|apply num_of_int; sizes|rewrite E1; sizes].
  apply num_mul; [apply num_of_int; sizes|apply num_of_int; sizes|sizes..].
Qed.

Lemma ttl_outlasts ms win w : win_ok win → w = ms `div` win → (w + 2) * win ≤ ms + (2 * win + 1000).
Proof using.
  intros Hw ->. pose proof (Z.div_mod ms win ltac:(sizes)).
  pose proof (Z.mod_pos_bound ms win ltac:(sizes)). lia.
Qed.

(** The writes of a grant, from ledgers whose values are still those read. *)
Section charge.
Variables (m0 : Mem) (r0 : redisDB) (grant : Z).
Hypothesis Hsim0 : sim now m0 r0.
Hypothesis Hvals : vals m0 = vals m.
Hypothesis Hgrant : 1 ≤ grant ≤ max_quota.

Lemma getInt_vals k d : Mem_getInt m0 k d = Mem_getInt m k d.
Proof using Hvals. unfold Mem_getInt. by rewrite Hvals. Qed.

Let g := grant_algo m now inp.
Let l := lua_algo r now x inp.
Let wid := now `div` in_win inp.

Definition charge_mem : Z * Mem :=
  if (in_algo inp =? TokenBucket)%string then
    let tat := f64_to_int (tb_tat g grant) in ((tat - now)%i64, set_val (gl_key g) (f64_of_int tat) m0)
  else (gl_reset g, add_val (gl_key g) (f64_of_int grant) m0).

Definition charge_redis (xg : float64) : float64 * redisDB :=
  if (in_algo inp =? "token_bucket")%string then
    let T := f64_div (tonumber 1000) (in_rate inp) in
    let tat := f64_ceil (f64_add (ll_tat l) (f64_mul xg T)) in
    (f64_sub tat x,
     redis_SET r0 now (ll_key l) (lua_int tat) (lua_int (f64_add (f64_sub tat x) (tonumber 1000))))
  else
    let '(v, r) := redis_INCRBY r0 now (ll_key l) (lua_int xg) in
    (ll_reset l,
     if f64_eqb (tonumber v) xg
     then redis_PEXPIRE r now (ll_key l) (lua_int (lua_ttl (tonumber (in_win inp)))) else r).

Definition charge_fits : bool :=
  if (in_algo inp =? TokenBucket)%string
  then f64_whole (tb_tat g grant) && counted (f64_to_int (tb_tat g grant)) else true.

Lemma counters_fit_cur :
  - max_count ≤ Mem_getInt m (winKey (in_key inp) wid) 0 ≤ max_count ∧
  - max_count ≤ Mem_getInt m (winKey (in_parentKey inp) (now `div` in_pwin inp)) 0 ≤ max_count.
Proof using Hcount.
  clear -Hcount. unfold counters_fit in Hcount.
  apply andb_true_iff in Hcount as [[[[Hc _]%andb_true_iff _]%andb_true_iff Hp]%andb_true_iff _].
  by apply counted_spec in Hc, Hp.
Qed.

Lemma charge_quota_sim xg :
  num xg grant → charge_fits = true →
  num (fst (charge_redis xg)) (fst charge_mem) ∧ sim now (snd charge_mem) (snd (charge_redis xg)).
Proof using All.
  intros Hxg Hch. pose proof algo_sim as Hg. fold g l in Hg.
  pose proof (gf_key _ _ Hfits) as Hkey. pose proof (gf_win _ _ Hfits) as Hwin.
  pose proof (gf_now _ _ Hfits) as Hnow. pose proof (gf_W _ _ Hfits) as HW.
  unfold charge_redis, charge_mem, charge_fits in *. change "token_bucket" with TokenBucket.
  destruct (in_algo inp =? TokenBucket)%string eqn:Htb.
  - apply andb_true_iff in Hch as [Hwh Hct%counted_spec]. apply num_whole in Hwh.
    assert (Ekey : gl_key g = in_key inp) by (unfold g, grant_algo; by rewrite Htb).
    rewrite (ls_key _ _ Hg), Ekey, (proj1 (ls_tat _ _ Hg)), (proj1 Hxg). cbv zeta.
    change (tonumber 1000) with (f64_of_int 1000). fold (tb_tat g grant).
    set (t := f64_to_int (tb_tat g grant)) in *.
    assert (Es : (t - now)%i64 = t - now) by (apply small_int64; sizes).
    assert (Nd : num (f64_sub (tb_tat g grant) x) (t - now)%i64) by (apply num_sub; [done|done|sizes]).
    cbn [fst snd]. split; [done|]. rewrite (num_int _ _ Hwh).
    rewrite (num_int _ (t - now + 1000)%i64)
      by (apply num_add; [done|apply num_of_int; sizes|rewrite Es; sizes]).
    to_db. unfold db_SET. apply sim_put_bucket; [done|done|apply Hwh|].
    rewrite Es. unfold i64_add. rewrite small_int64; sizes.
  - assert (Ekey : gl_key g = winKey (in_key inp) wid) by (apply grant_algo_key; (done || sizes)).
    rewrite (ls_key _ _ Hg), Ekey.
    destruct (counter_now now _ _ Hkey HW Hwin ltac:(sizes)) as (Hu & _ & Cw & _). fold wid in Hu, Cw.
    rewrite (num_int _ _ Hxg), (num_int _ _ (ttl_num _ Hwin)), (proj1 Hxg).
    destruct counters_fit_cur as [Hcur _].
    pose proof (sim_charge_first W E now m0 r0 Hsim0 _ _ grant (2 * in_win inp + 1000) Cw Hu) as Hc.
    destruct (redis_INCRBY r0 now _ grant) as [v r1]. cbn [fst snd].
    split; [apply Hg|]. apply Hc; [by apply ttl_outlasts|sizes|sizes|]. rewrite getInt_vals. sizes.
Qed.

Lemma charge_mem_parent :
  in_parentKey inp ≠ "" →
  let k := winKey (in_parentKey inp) (now `div` in_pwin inp) in
  Mem_getInt (snd charge_mem) k 0 = Mem_getInt m k 0.
Proof using All.
  intros Hne k. destruct (gf_parent _ _ Hfits Hne) as (_ & Hpk & _).
  pose proof (gf_key _ _ Hfits) as Hkey. pose proof (gf_win _ _ Hfits) as Hwin.
  pose proof (gf_now _ _ Hfits) as Hnow.
  rewrite <-getInt_vals. unfold Mem_getInt, charge_mem.
  destruct (in_algo inp =? TokenBucket)%string eqn:Htb; cbn [snd].
  - assert (gl_key g = in_key inp) as -> by (unfold g, grant_algo; by rewrite Htb).
    rewrite vals_set_ne; [done|]. by apply winKey_not_base.
  - assert (gl_key g = winKey (in_key inp) wid) as -> by (apply grant_algo_key; (done || sizes)).
    rewrite vals_add_ne; [done|]. intros [Eq _]%winKey_inj. by apply Hpk.
Qed.

Lemma charge_sim p q xg :
  parent_sim p q → num xg grant → charge_fits = true →
  let (reset, m1) := charge_mem in
  let m' := if (pl_pkey p =? "")%string then m1 else add_val (pl_pkey p) (f64_of_int grant) m1 in
  let (xr, r') := lua_charge r0 now x inp l q xg in
  num xr reset ∧ sim now m' r'.
Proof using All.
  intros Hp Hxg Hch. destruct (charge_quota_sim xg Hxg Hch) as [Hr Hs].
  pose proof charge_mem_parent as Hpar. unfold lua_charge. fold (charge_redis xg).
  destruct charge_mem as [reset m1], (charge_redis xg) as [xr r1]. cbn [fst snd] in *.
  pose proof (ps_pkey _ _ Hp) as Hk. destruct (lp_pkey q) as [pkey|]; [|by rewrite Hk].
  destruct Hk as (-> & Hne & ->). destruct (gf_parent _ _ Hfits Hne) as (Hb & _ & HWp & Hpw & _).
  assert (Eq : (winKey (in_parentKey inp) (now `div` in_pwin inp) =? "")%string = false).
  { apply String.eqb_neq. unfold winKey. by destruct (in_parentKey inp). }
  rewrite Eq. pose proof (gf_now _ _ Hfits) as Hnow. pose proof (gf_win _ _ Hfits).
  destruct (counter_now now _ _ Hb HWp Hpw ltac:(sizes)) as (Hu & _ & Cw & _).
  rewrite (num_int _ _ Hxg), (num_int _ _ (ttl_num _ Hpw)). destruct counters_fit_cur as [_ Hpc].
  pose proof (sim_charge W E now m1 r1 Hs _ _ grant (2 * in_pwin inp + 1000) Cw Hu) as Hc.
  destruct (redis_INCRBY r1 now _ grant) as [v r2]. cbn [snd] in Hc.
  split; [done|]. apply Hc; [by apply ttl_outlasts|sizes|sizes|]. rewrite Hpar by done. sizes.
Qed.
End charge.

Section grant.
Variable range : gmap string Z → list (string * Z).
Hypothesis range_perm : ∀ s, range s ≡ₚ map_to_list s.

(** Everything a grant computes is a whole number below 2^53. *)
Definition grant_exact : bool :=
  let g := grant_algo m now inp in
  let p := grant_parent m now inp g in
  counters_fit m now inp && edges_fit m inp &&
  if pl_avail p <=? 0 then pl_binds p || f64_whole (retry_float g)
  else charge_fits (g_Granted (fst (grant_input range m now inp))).

Lemma gl_cur_counted : counted (gl_cur (grant_algo m now inp)) = true.
Proof using Hfits Hcount.
  destruct Hfits as [Hnow Hwin _ _ _ _ _ _ _ _ _].
  unfold grant_algo. destruct (in_algo inp =? TokenBucket)%string; [done|].
  destruct (window_div now (in_win inp) ltac:(sizes) Hwin) as [-> _].
  unfold counters_fit in Hcount. clear -Hcount.
  apply andb_true_iff in Hcount as [[[[Hc _]%andb_true_iff _]%andb_true_iff _]%andb_true_iff _].
  by destruct (in_algo inp =? SlidingWindow)%string.
Qed.

Lemma reply_ok a b c d e f h i xa xb xc xd xe xf xh xi :
  num xa a → num xb b → num xc c → num xd d → num xe e → num xf f → num xh h → num xi i →
  grant_of_reply (lua_int <$> [xa; xb; xc; xd; xe; xf; xh; xi]) = Ok (grantInput_result a b c d e f h i).
Proof using.
  intros. cbn. by rewrite (num_int xa a), (num_int xb b), (num_int xc c), (num_int xd d),
    (num_int xe e), (num_int xf f), (num_int xh h), (num_int xi i) by done.
Qed.

Lemma denied_reset :
  num (if (in_algo inp =? "token_bucket")%string then f64_sub (ll_tat (lua_algo r now x inp)) x
       else ll_reset (lua_algo r now x inp))
      (if (in_algo inp =? TokenBucket)%string then (gl_tat (grant_algo m now inp) - now)%i64
       else gl_reset (grant_algo m now inp)).
Proof using All.
  pose proof algo_sim as Hg. change "token_bucket" with TokenBucket.
  destruct (in_algo inp =? TokenBucket)%string eqn:Htb; [|apply Hg].
  apply num_sub; [apply Hg|done|]. pose proof (ls_tat _ _ Hg) as [_ Ht]. revert Ht.
  unfold grant_algo. rewrite Htb. cbn [gl_tat]. destruct Hfits as [Hnow ? _ _ _ _ _ _ _ _ _]. sizes.
Qed.

Lemma grant_sim t :
  redis_ms t = now → lua_now t = x → grant_exact = true →
  let (gr, m') := grant_input range m now inp in
  let (rep, r') := grantLua r t inp in
  grant_of_reply rep = Ok gr ∧ sim now m' r'.
Proof using All.
  intros Hms Hxt Hex. pose proof algo_sim as Hg. pose proof parent_sim_ok as Hp. pose proof gl_cur_counted as Hcur.
  unfold grant_exact in Hex. apply andb_true_iff in Hex as [[_ He]%andb_true_iff Hex].
  unfold grantLua. rewrite Hms, Hxt. unfold grant_input in *.
  set (g := grant_algo m now inp) in *. set (l := lua_algo r now x inp) in *.
  set (p := grant_parent m now inp g) in *. set (q := lua_parent r now x inp l) in *.
  pose proof (endgame_sim range range_perm _ _ (ps_avail _ _ Hp) He) as Hend.
  pose proof (grant_endgame_vals range m now inp (pl_avail p)) as [Hv _]. revert Hex.
  destruct (grant_endgame range m now inp (pl_avail p)) as [n m0].
  destruct (lua_endgame r now x inp (lp_avail q)) as [z r0]. cbn [snd] in Hv. destruct Hend as (Hz & Hn & Hsim0).
  rewrite (num_leb _ _ _ _ (ps_avail _ _ Hp) num_zero).
  destruct (Z.leb_spec (pl_avail p) 0) as [Hle|Hgt]; intros Hex.
  - split; [|done]. apply reply_ok; try apply num_zero; try done; try apply Hg; try apply Hp;
      [apply denied_reset|by apply retry_sim].
  - pose proof (ps_avail_bound _ _ Hp) as Hab.
    destruct (amount_num n z _ _ Hz (ps_avail _ _ Hp) Hn ltac:(lia)) as [Ng Bg]. cbv zeta in Ng, Bg.
    set (grant := Z.min _ _) in *. set (xg := lua_min _ _) in *.
    assert (Na : num (f64_sub (lp_avail q) xg) (pl_avail p - grant)%i64).
    { apply num_sub; [apply Hp|done|]. sizes. }
    change (if (in_algo inp =? TokenBucket)%string then _ else _) with (charge_mem m0 grant) in Hex |- *.
    change (if (in_algo inp =? TokenBucket)%string then _ else _) with (charge_mem m0 grant).
    pose proof (charge_sim m0 r0 grant Hsim0 Hv Bg p q xg Hp Ng) as Hc. fold l in Hc. revert Hex Hc.
    destruct (charge_mem m0 grant) as [reset m1], (lua_charge r0 now x inp l q xg) as [xr r1].
    intros Hex Hc. destruct (Hc Hex) as [Hr Hs]. split; [|done].
    apply reply_ok; try apply num_zero; try done; try apply Hg; apply Hp.
Qed.
End grant.
End algo.

(** ** One return *)

(** A mark that is still there, or was never set: tokens are not presented
    again after their mark has expired. *)
Definition mark_live (r : redisDB) (now : Z) (k : string) : bool :=
  match rd_vals r !! k with
  | Some (_, Some at_) => now <=? at_
  | _ => true
  end.

Lemma mark_live_GET r now k : mark_live r now k = true → redis_GET r now k = fst <$> rd_vals r !! k.
Proof.
  unfold mark_live. to_db. unfold db_GET. destruct (rd_vals r !! k) as [[v [at_|]]|]; [|done..].
  intros H%Z.leb_le. cbn [db_live]. by rewrite (proj2 (Z.ltb_ge _ _)).
Qed.

Lemma sim_SETNX now m r k v px :
  sim now m r → once_key k → mark_live r now k = true →
  let (fresh, r') := redis_SETNX r now k v px in
  fresh = negb (bool_decide (k ∈ deduped m)) ∧ sim now (mark_deduped k m) r'.
Proof.
  intros Hs Hk Hl. change (redis_SETNX r now k v px) with (db_SETNX r now k v px). unfold db_SETNX.
  change (db_GET r now k) with (redis_GET r now k). rewrite mark_live_GET by done.
  pose proof (sim_once _ _ _ _ _ Hs k Hk) as Ho.
  destruct (rd_vals r !! k) as [[v' e]|] eqn:Ek; cbn [fmap option_fmap option_map].
  - assert (Hin : k ∈ deduped m) by (rewrite Ho; eauto). rewrite bool_decide_true by done. split; [done|].
    by rewrite mark_deduped_id.
  - rewrite bool_decide_false by (rewrite Ho; by intros []). split; [done|]. by apply sim_mark_once.
Qed.

Record return_fits (now : Z) (inp : returnInput) : Prop := {
  rf_now : ri_win inp ≤ now < max_clock;
  rf_win : win_ok (ri_win inp);
  rf_key : is_base (ri_key inp);
  rf_W : W (ri_key inp) = ri_win inp;
  rf_wid : f64_small (ri_wid inp);
  rf_tokens : - max_quota ≤ ri_tokens inp ≤ max_quota;
  rf_dedupe : ri_dedupeKey inp ≠ "" → once_key (ri_dedupeKey inp);
  rf_parent : ri_parentKey inp ≠ "" →
    is_base (ri_parentKey inp) ∧ ri_parentKey inp ≠ ri_key inp ∧
    W (ri_parentKey inp) = ri_pwin inp ∧ win_ok (ri_pwin inp) ∧ ri_pwin inp ≤ now ∧
    f64_small (ri_pwid inp);
}.

Definition ret_tat (m : Mem) (now : Z) (inp : returnInput) : float64 :=
  f64_ceil (f64_sub (f64_of_int (Z.max (Mem_getInt m (ri_key inp) now) now))
                    (f64_mul (f64_of_int (ri_tokens inp)) (f64_div (f64_of_int 1000) (ri_rate inp)))).

Definition return_exact (m : Mem) (now : Z) (inp : returnInput) : bool :=
  counted (Mem_getInt m (winKey (ri_key inp) (ri_wid inp)) 0)
  && counted (Mem_getInt m (winKey (ri_parentKey inp) (ri_pwid inp)) 0)
  && if (ri_algo inp =? TokenBucket)%string
     then f64_whole (ret_tat m now inp) && counted (f64_to_int (ret_tat m now inp)) else true.

(** Crediting the current window, in both ledgers. *)
Lemma credit_window_sim now m r x b win wid tokens :
  sim now m r → num x now → is_base b → W b = win → win_ok win → win ≤ now < max_clock →
  f64_small wid → - max_quota ≤ tokens ≤ max_quota → counted (Mem_getInt m (winKey b wid) 0) = true →
  sim now (if (now / win)%i64 =? wid then Mem_credit (winKey b wid) tokens m else m)
          (if f64_eqb (f64_floor (f64_div x (tonumber win))) (tonumber wid)
           then lua_credit r now (tonumber tokens) (b +:+ ":" +:+ itoa wid) (lua_ttl (tonumber win)) else r).
Proof.
  intros Hs Hx Hb HW Hw Hn Hwid Ht Hc%counted_spec.
  destruct (window_num x now win Hx Hw Hn) as (-> & Nw & _).
  rewrite (num_eqb _ _ _ _ Nw (num_of_int _ Hwid)).
  destruct (Z.eqb_spec (now `div` win) wid) as [<-|]; [|done].
  destruct (counter_now now _ _ Hb HW Hw ltac:(sizes)) as (Hu & _ & Cw & _).
  change (b +:+ ":" +:+ itoa ?z) with (winKey b z).
  eapply sim_credit; eauto using ttl_num, ttl_outlasts; sizes.
Qed.

(** The quota's part of [return_input]. *)
Definition return_quota (m : Mem) (now : Z) (inp : returnInput) : Mem :=
  if (ri_algo inp =? TokenBucket)%string
  then set_val (ri_key inp) (f64_of_int (Z.max (f64_to_int (ret_tat m now inp)) now)) m
  else if (now / ri_win inp)%i64 =? ri_wid inp
  then Mem_credit (winKey (ri_key inp) (ri_wid inp)) (ri_tokens inp) m else m.

Lemma return_quota_sim now m r x inp :
  sim now m r → num x now → return_fits now inp → return_exact m now inp = true →
  sim now (return_quota m now inp) (lua_return_quota r now x inp).
Proof.
  intros Hs Hx Hf He. destruct Hf as [Hnow Hwin Hkey HW Hwid Htok _ _].
  unfold return_exact in He. apply andb_true_iff in He as [[Hc _]%andb_true_iff He].
  unfold return_quota, lua_return_quota. change "token_bucket" with TokenBucket.
  destruct (ri_algo inp =? TokenBucket)%string; [|by apply credit_window_sim].
  apply andb_true_iff in He as [Hwh%num_whole Hct%counted_spec].
  pose proof (sim_get_bucket W E now m r Hs (ri_key inp) x Hkey Hx) as Nt. cbv zeta in Nt |- *.
  rewrite (proj1 Nt). change (tonumber ?z) with (f64_of_int z). fold (ret_tat m now inp).
  set (t := f64_to_int (ret_tat m now inp)) in *.
  assert (Nm : num (if f64_ltb (ret_tat m now inp) x then x else ret_tat m now inp) (Z.max t now)).
  { rewrite (num_ltb _ _ _ _ Hwh Hx).
    destruct (Z.ltb_spec t now); [rewrite Z.max_r by lia|rewrite Z.max_l by lia]; done. }
  set (y := if f64_ltb _ _ then _ else _) in *. rewrite (num_int _ _ Nm).
  assert (Es : (Z.max t now - now)%i64 = Z.max t now - now) by (apply small_int64; sizes).
  rewrite (num_int _ (Z.max t now - now + 1000)%i64).
  2: { apply num_add; [apply num_sub; [done|done|sizes]|apply num_of_int; sizes|rewrite Es; sizes]. }
  to_db. unfold db_SET. apply sim_put_bucket; [done|done|apply Nm|].
  rewrite Es. unfold i64_add. rewrite small_int64; sizes.
Qed.

Lemma return_quota_parent now m inp :
  return_fits now inp → ri_parentKey inp ≠ "" →
  let k := winKey (ri_parentKey inp) (ri_pwid inp) in
  Mem_getInt (return_quota m now inp) k 0 = Mem_getInt m k 0.
Proof.
  intros Hf Hne k. destruct (rf_parent _ _ Hf Hne) as (_ & Hpk & _). pose proof (rf_key _ _ Hf) as Hkey.
  unfold return_quota, Mem_credit, Mem_getInt.
  destruct (ri_algo inp =? TokenBucket)%string; [|destruct (_ =? _); [|done]].
  - rewrite vals_set_ne; [done|]. by apply winKey_not_base.
  - rewrite vals_set_ne; [done|]. intros [Eq _]%winKey_inj. by apply Hpk.
Qed.

Lemma return_sim now m r t inp :
  sim now m r → num (lua_now t) now → redis_ms t = now → return_fits now inp →
  return_exact m now inp = true → mark_live r now (ri_dedupeKey inp) = true →
  sim now (return_input m now inp) (snd (returnLua r t inp)).
Proof.
  intros Hs Hx Hms Hf He Hl. unfold return_input, returnLua. rewrite Hms.
  assert (Hbody : ∀ m1 r1, vals m1 = vals m → sim now m1 r1 →
    sim now
      (let m2 := return_quota m1 now inp in
       if negb (ri_parentKey inp =? "")%string && ((now / ri_pwin inp)%i64 =? ri_pwid inp)
       then Mem_credit (winKey (ri_parentKey inp) (ri_pwid inp)) (ri_tokens inp) m2 else m2)
      (lua_return_parent (lua_return_quota r1 now (lua_now t) inp) now (lua_now t) inp)).
  { intros m1 r1 Hv Hs1. assert (He1 : return_exact m1 now inp = true).
    { revert He. unfold return_exact, ret_tat, Mem_getInt. by rewrite Hv. }
    pose proof (return_quota_sim now m1 r1 _ inp Hs1 Hx Hf He1) as Hq.
    unfold lua_return_parent. cbv zeta. destruct (ri_parentKey inp =? "")%string eqn:Ep; [done|].
    apply String.eqb_neq in Ep. destruct (rf_parent _ _ Hf Ep) as (Hb & _ & HWp & Hpw & Hpn & Hpwid).
    pose proof (rf_now _ _ Hf) as Hn. apply credit_window_sim; try done; [lia|apply Hf|].
    rewrite return_quota_parent by done. unfold return_exact in He1. clear -He1.
    by apply andb_true_iff in He1 as [[_ Hc]%andb_true_iff _]. }
  destruct (ri_dedupeKey inp =? "")%string eqn:Ed; cbn [negb andb]; [by apply (Hbody m r)|].
  apply String.eqb_neq in Ed. pose proof (sim_SETNX now m r _ 1 (ri_dedupeTTL inp) Hs (rf_dedupe _ _ Hf Ed) Hl) as Hn.
  destruct (redis_SETNX _ _ _ _ _) as [fresh r']. destruct Hn as [-> Hs'].
  case_bool_decide as Hin; cbn [negb snd]; [|by apply Hbody].
  by rewrite mark_deduped_id in Hs'.
Qed.

(** ** Regional transfers *)

Record transfer_fits (now : Z) (key : string) (win wid : Z) : Prop := {
  tf_now : win ≤ now < max_clock;
  tf_win : win_ok win;
  tf_key : is_base key;
  tf_W : W key = win;
  tf_wid : f64_small wid;
}.

(** What the region is on pace to use for the rest of the window. *)
Definition lend_pace (m : Mem) (now : Z) (key : string) (win : Z) : float64 :=
  let wid := now `div` win in
  let elapsed := now - wid * win in
  f64_ceil (f64_div (f64_of_int (Mem_getInt m (winKey key wid) 0 * (win - elapsed)))
                    (f64_of_int (Z.max elapsed 1))).

Definition lend_exact (m : Mem) (now : Z) (key : string) (win : Z) : bool :=
  let wid := now `div` win in
  let used := Mem_getInt m (winKey key wid) 0 in
  counted (Mem_getInt m (allocKey key wid) 0) && counted used && (0 <=? used)
  && (used * (win - (now - wid * win)) <=? f64_max_int)
  && f64_whole (lend_pace m now key win) && counted (f64_to_int (lend_pace m now key win)).

Section lend.
Variables (now : Z) (m : Mem) (r : redisDB) (x : float64) (key : string) (win : Z).
Let w := now `div` win.
Hypothesis Hsim : sim now m r.
Hypothesis Hx : num x now.
Hypothesis Hfits : transfer_fits now key win w.

(** Taking [give] out of a region's allocation. *)
Lemma lend_debit_sim give :
  0 ≤ give ≤ max_quota → counted (Mem_getInt m (allocKey key w) 0) = true →
  sim now (set_val (allocKey key w)
             (f64_sub (default f64_zero (vals m !! allocKey key w)) (f64_of_int give)) m)
    (if 0 <? give
     then redis_PEXPIRE (snd (redis_INCRBY r now (allocKey key w) (- give))) now (allocKey key w)
            (2 * win + 1000)
     else r).
Proof using All.
  intros Hg Hc%counted_spec. destruct Hfits as [Hn Hw Hb HW _].
  destruct (counter_now now _ _ Hb HW Hw ltac:(sizes)) as (Hu & _ & _ & Ca & _). fold w in Hu, Ca.
  destruct (sim_get W E now m r Hsim _ _ Ca Hu) as [_ Hh]. pose proof (proj1 Hh) as Ev.
  set (v := Mem_getInt m (allocKey key w) 0) in *. rewrite Ev, f64_sub_int by sizes.
  destruct (Z.ltb_spec 0 give).
  - destruct (sim_INCRBY W E now m r Hsim _ _ (- give) Ca Hu) as (e & -> & He & _). fold v. cbn [snd].
    rewrite redis_put_PEXPIRE by (sizes || (intros ? ?%He; lia)). rewrite Z.add_opp_r.
    eapply sim_put_counter; eauto; [sizes|]. by apply ttl_outlasts.
  - replace give with 0 by lia. rewrite Z.sub_0_r. by eapply sim_same_counter.
Qed.

Let used := Mem_getInt m (winKey key w) 0.
Let elapsed := (now - w * win)%i64.
Let xused := lua_get r now (winKey key w) lua_zero.
Let xelapsed := f64_sub x (f64_mul (tonumber w) (tonumber win)).

(** What it keeps back: the margin, or what it is on pace to use. *)
Lemma lend_keep margin :
  - max_quota ≤ margin ≤ max_quota → lend_exact m now key win = true →
  let keep := Z.max margin (f64_to_int (f64_ceil (f64_div (f64_of_int (used * (win - elapsed))%i64)
                                                          (f64_of_int (Z.max elapsed 1))))) in
  num (lua_max (tonumber margin)
        (f64_ceil (f64_div (f64_mul xused (f64_sub (tonumber win) xelapsed)) (lua_max xelapsed (tonumber 1)))))
      keep ∧ - max_count ≤ keep ≤ max_count.
Proof using All.
  intros Hmargin He keep. destruct Hfits as [Hn Hw Hbase HW _].
  destruct (counter_now now _ _ Hbase HW Hw ltac:(sizes)) as (Hu & _ & Cw & _). fold w in Hu, Cw.
  pose proof (sim_get_num W E now m r Hsim _ _ Cw Hu) as Nu. fold used xused in Nu.
  destruct (window_num x now win Hx Hw Hn) as (_ & Nw & _ & _ & Nel & _ & Eel). fold w in Nw, Nel, Eel.
  rewrite (proj1 Nw) in Nel. change (f64_of_int w) with (tonumber w) in Nel. fold xelapsed in Nel.
  unfold lend_exact, lend_pace in He. fold w used in He. rewrite <-Eel in He, Nel. fold elapsed in He, Nel.
  apply andb_true_iff in He as [[[[_ Hu0%Z.leb_le]%andb_true_iff
    Hprod%Z.leb_le]%andb_true_iff Hwh]%andb_true_iff Hct%counted_spec].
  assert (Hel : 0 ≤ elapsed < win).
  { unfold elapsed. rewrite Eel. pose proof (Z.div_mod now win ltac:(sizes)).
    pose proof (Z.mod_pos_bound now win ltac:(sizes)). fold w in H. lia. }
  assert (Ew : (win - elapsed)%i64 = win - elapsed) by (apply small_int64; sizes).
  assert (Hp0 : 0 ≤ used * (win - elapsed)) by (apply Z.mul_nonneg_nonneg; lia).
  assert (Ep : (used * (win - elapsed))%i64 = used * (win - elapsed)).
  { unfold i64_mul. rewrite Ew. apply small_int64. sizes. }
  assert (Nprod : num (f64_mul xused (f64_sub (tonumber win) xelapsed)) (used * (win - elapsed))%i64).
  { apply num_mul; [done|apply num_sub; [apply num_of_int; sizes|done|sizes]|lia|rewrite Ew; lia|].
    rewrite Ew. sizes. }
  assert (Nmax : num (lua_max xelapsed (tonumber 1)) (Z.max elapsed 1)).
  { apply num_max; [done|]. apply num_of_int. sizes. }
  unfold keep. rewrite (proj1 Nprod), (proj1 Nmax), Ep. split; [|sizes].
  apply num_max; [apply num_of_int; sizes|]. by apply num_whole.
Qed.

(** How much a region lends: its unused allocation, less what it keeps. *)
Lemma lend_amount base want keep xkeep :
  0 ≤ base ≤ max_quota → - max_quota ≤ want ≤ max_quota → lend_exact m now key win = true →
  num xkeep keep → - max_count ≤ keep ≤ max_count →
  let xgive := lua_min (tonumber want) (f64_sub (f64_sub
    (f64_add (tonumber base) (lua_get r now (allocKey key w) lua_zero)) xused) xkeep) in
  num (if f64_ltb xgive lua_zero then lua_zero else xgive)
      (Z.max (Z.min want ((base + Mem_getInt m (allocKey key w) 0) - used - keep)%i64) 0).
Proof using All.
  intros Hb Hwant He Nkeep Bkeep xgive. destruct Hfits as [Hn Hw Hbase HW _].
  destruct (counter_now now _ _ Hbase HW Hw ltac:(sizes)) as (Hu & _ & Cw & Ca & _). fold w in Hu, Cw, Ca.
  pose proof (sim_get_num W E now m r Hsim _ _ Cw Hu) as Nu. fold used xused in Nu.
  pose proof (sim_get_num W E now m r Hsim _ _ Ca Hu) as Na.
  unfold lend_exact in He. fold w used in He.
  apply andb_true_iff in He as [[[[[Hca%counted_spec Hcu%counted_spec]%andb_true_iff _]%andb_true_iff
    _]%andb_true_iff _]%andb_true_iff _].
  set (alloc := (base + Mem_getInt m (allocKey key w) 0)%i64).
  assert (Ealloc : alloc = base + Mem_getInt m (allocKey key w) 0) by (apply small_int64; sizes).
  assert (Nalloc : num (f64_add (tonumber base) (lua_get r now (allocKey key w) lua_zero)) alloc).
  { apply num_add; [apply num_of_int; sizes|done|sizes]. }
  assert (Eau : (alloc - used)%i64 = alloc - used) by (apply small_int64; sizes).
  assert (Ngive : num xgive (Z.min want (alloc - used - keep)%i64)).
  { apply num_min; [apply num_of_int; sizes|].
    apply num_sub; [apply num_sub; [done|done|sizes]|done|]. rewrite Eau. sizes. }
  rewrite (num_ltb _ _ _ _ Ngive num_zero). set (give := Z.min want _) in *.
  destruct (Z.ltb_spec give 0); [rewrite Z.max_r by lia; apply num_zero|by rewrite Z.max_l by lia].
Qed.
End lend.

Record lend_fits (now : Z) (key : string) (win base wid want margin : Z) (id : string) : Prop := {
  lf_transfer : transfer_fits now key win wid;
  lf_id : plain_id id;
  lf_base : 0 ≤ base ≤ max_quota;
  lf_want : - max_quota ≤ want ≤ max_quota;
  lf_margin : - max_quota ≤ margin ≤ max_quota;
}.

Section transfer.
Variables (now : Z) (m : Mem) (r : redisDB) (t : Z) (ref : Ref) (spec : Spec).
Let key := Ref_Key ref (spec_Algo spec).
Let win := windowMs spec.
Hypothesis Hsim : sim now m r.
Hypothesis Hx : num (lua_now t) now.
Hypothesis Hms : redis_ms t = now.

Lemma lend_sim base wid want margin id :
  lend_fits now key win base wid want margin id → mark_live r now (lendKey key id) = true →
  lend_exact m now key win = true →
  let (a, m') := Mem_Lend m now now ref spec base wid want margin id in
  let (b, r') := Redis_Lend r t Delivered ref spec base wid want margin id in
  a = b ∧ sim now m' r'.
Proof using All.
  intros [Ht Hid Hb Hw Hm] Hl He. unfold Mem_Lend, Redis_Lend. fold key win.
  destruct (negb (Algo_Or (spec_Algo spec) =? FixedWindow)%string); [done|].
  unfold script_Run, lendLua. rewrite Hms. pose proof Ht as [Hn Hwin Hbase HW Hwid].
  destruct (window_num _ now win Hx Hwin Hn) as (-> & Nw & _).
  rewrite (num_eqb _ _ _ _ Nw (num_of_int _ Hwid)).
  destruct (Z.eqb_spec (now `div` win) wid) as [<-|]; [|done]. cbn [negb].
  change (key +:+ ":lend:" +:+ id) with (lendKey key id).
  change (key +:+ ":alloc:" +:+ itoa ?z) with (allocKey key z).
  change (key +:+ ":" +:+ itoa ?z) with (winKey key z).
  rewrite mark_live_GET by done. pose proof (sim_lent _ _ _ _ _ Hsim key id Hbase Hid) as Hlent.
  unfold lent in Hlent. destruct (rd_vals r !! lendKey key id) as [[v e]|].
  { destruct Hlent as [-> Hv]. cbn. done. }
  rewrite Hlent. cbn [fmap option_fmap option_map].
  destruct (lend_keep now m r (lua_now t) key win Hsim Hx Ht margin Hm He) as [Nk Bk]. cbv zeta in Nk, Bk.
  pose proof (lend_amount now m r (lua_now t) key win Hsim Hx Ht base want _ _ Hb Hw He Nk Bk) as Ng.
  cbv zeta in Ng |- *. set (give := Z.max _ 0) in *. set (xgive := if f64_ltb _ _ then _ else _) in *.
  assert (Bg : 0 ≤ give ≤ max_quota) by (unfold give; sizes).
  rewrite (num_int _ _ Ng), (num_ltb _ _ _ _ num_zero Ng), (num_int _ _ (ttl_num _ Hwin)).
  assert (Hca : counted (Mem_getInt m (allocKey key (now `div` win)) 0) = true).
  { unfold lend_exact in He. clear -He. by repeat (apply andb_true_iff in He as [He ?]). }
  pose proof (lend_debit_sim now m r (lua_now t) key win Hsim Hx Ht give Bg Hca) as Hd.
  clearbody give xgive. split; [done|]. destruct (redis_INCRBY r now _ (- give)) as [v r1].
  to_db. unfold db_SET. apply sim_put_lent; [done..|sizes].
Qed.

Lemma credit_sim wid amount id :
  transfer_fits now key win wid → once_key (creditKey key id) → - max_quota ≤ amount ≤ max_quota →
  mark_live r now (creditKey key id) = true → counted (Mem_getInt m (allocKey key wid) 0) = true →
  let (a, m') := Mem_Credit m now ref spec wid amount id in
  let (b, r') := Redis_Credit r t Delivered ref spec wid amount id in
  a = b ∧ sim now m' r'.
Proof using All.
  intros [Hn Hwin Hbase HW Hwid] Ho Ha Hl Hc%counted_spec. unfold Mem_Credit, Redis_Credit. fold key win.
  destruct (negb (Algo_Or (spec_Algo spec) =? FixedWindow)%string); [done|].
  unfold script_Run, creditLua. rewrite Hms.
  destruct (window_num _ now win Hx Hwin Hn) as (-> & Nw & _).
  rewrite (num_eqb _ _ _ _ Nw (num_of_int _ Hwid)).
  destruct (Z.eqb_spec (now `div` win) wid) as [<-|]; [|done]. cbn [negb].
  change (key +:+ ":credit:" +:+ id) with (creditKey key id).
  change (key +:+ ":alloc:" +:+ itoa ?z) with (allocKey key z).
  pose proof (sim_SETNX now m r _ 1 (lua_int (lua_ttl (tonumber win))) Hsim Ho Hl) as Hs.
  destruct (redis_SETNX _ _ _ _ _) as [fresh r']. destruct Hs as [-> Hs].
  case_bool_decide as Hin; cbn [negb]; [by rewrite mark_deduped_id in Hs|].
  destruct (counter_now now _ _ Hbase HW Hwin ltac:(sizes)) as (Hu & _ & _ & Ca & _).
  rewrite (num_int _ _ (ttl_num _ Hwin)), (num_int _ amount) by (apply num_of_int; sizes).
  pose proof (sim_charge W E now _ r' Hs _ _ amount (2 * win + 1000) Ca Hu) as Hch.
  destruct (redis_INCRBY r' now _ amount) as [v r2]. split; [done|].
  apply Hch; [by apply ttl_outlasts|sizes|sizes|].
  change (Mem_getInt (mark_deduped _ m)) with (Mem_getInt m). sizes.
Qed.
End transfer.
End calls.
