(* ===== verification/RedisRefine.v ===== *)
(** * Any sequence of calls

    The theorem that closes the argument of [RedisProps]: a client of the
    ledger interface that starts from empty ledgers and makes any sequence of
    calls (grants under all three algorithms, with an organisation's budget
    around them or a region's allocation; returns; regional transfers) gets
    the same replies from the Redis scripts as from [Mem].  The hypotheses say
    that each quota keeps its window and horizon, that the clock does not run
    backwards, that ids and tokens are well formed and not reused after their
    marks expire, and that the numbers stay below 2^53. *)

From S2P Require Import Prelude Float64 LuaNum Ledger LedgerFacts RedisLedger RedisView RedisSim RedisProps.
From Stdlib Require Import Ascii.

Local Open Scope Z_scope.

(** ** Calls and replies *)

Inductive call :=
| CGrant (ref : Ref) (spec : Spec) (args : GrantArgs)
| CReturn (dedupe : string) (returns : list Return)
| CLend (ref : Ref) (spec : Spec) (base wid want margin : Z) (id : string)
| CCredit (ref : Ref) (spec : Spec) (wid amount : Z) (id : string).

Inductive reply :=
| RGrant (x : result error Grant)
| RReturn (e : option error)
| RLend (x : result error Z)
| RCredit (x : result error bool).

Definition mem_call (range : gmap string Z → list (string * Z)) (m : Mem) (now : Z) (c : call)
  : reply * Mem :=
  match c with
  | CGrant ref spec args => let '(x, m) := Mem_Grant range m now ref spec args in (RGrant x, m)
  | CReturn d rets => let '(e, m) := Mem_Return m now d rets in (RReturn e, m)
  | CLend ref spec base wid want margin id =>
      let '(x, m) := Mem_Lend m now now ref spec base wid want margin id in (RLend x, m)
  | CCredit ref spec wid amount id =>
      let '(x, m) := Mem_Credit m now ref spec wid amount id in (RCredit x, m)
  end.

Definition redis_call {R : Type} `{RedisServer R} (r : R) (t : Z) (c : call) : reply * R :=
  match c with
  | CGrant ref spec args => let '(x, r) := Redis_Grant r t Delivered ref spec args in (RGrant x, r)
  | CReturn d rets =>
      let '(e, r) := Redis_Return r d ((λ ret, (ret, t, Delivered)) <$> rets) in (RReturn e, r)
  | CLend ref spec base wid want margin id =>
      let '(x, r) := Redis_Lend r t Delivered ref spec base wid want margin id in (RLend x, r)
  | CCredit ref spec wid amount id =>
      let '(x, r) := Redis_Credit r t Delivered ref spec wid amount id in (RCredit x, r)
  end.

Fixpoint mem_run (range : gmap string Z → list (string * Z)) (m : Mem) (cs : list (Z * call))
  : list reply * Mem :=
  match cs with
  | [] => ([], m)
  | (t, c) :: cs =>
      let '(x, m) := mem_call range m (redis_ms t) c in
      let '(xs, m) := mem_run range m cs in (x :: xs, m)
  end.

Fixpoint redis_run {R : Type} `{RedisServer R} (r : R) (cs : list (Z * call)) : list reply * R :=
  match cs with
  | [] => ([], r)
  | (t, c) :: cs =>
      let '(x, r) := redis_call r t c in
      let '(xs, r) := redis_run r cs in (x :: xs, r)
  end.

(** ** Well-formed calls *)

Section refine.
Variables (W E : string → Z).
Variable range : gmap string Z → list (string * Z).
Hypothesis range_perm : ∀ s, range s ≡ₚ map_to_list s.

(** A quota as configured: its window, limit, and the organisation's. *)
Record quota_fits (now : Z) (key : string) (spec : Spec) : Prop := {
  qf_window : is_int64 (spec_Window spec);
  qf_W : W key = windowMs spec;
  qf_now : windowMs spec ≤ now;
  qf_limit : spec_Limit spec ≤ max_quota;
}.

Record args_fit (now : Z) (ref : Ref) (spec : Spec) (args : GrantArgs) : Prop := {
  af_quota : quota_fits now (Ref_Key ref (spec_Algo spec)) spec;
  af_horizon : - 2 ^ 60 ≤ ga_Horizon args ≤ 2 ^ 60;
  af_E : E (Ref_Key ref (spec_Algo spec)) = Milliseconds (Z.max (2 * ga_Horizon args)%i64 (2 * Second)%i64);
  af_alloc : ga_AllocBase args ≤ max_quota;
  af_parent : ∀ p, ga_Parent args = Some p → quota_fits now (Ref_ParentKey ref FixedWindow) p;
}.

Record ret_fits (now : Z) (dedupe : string) (ret : Return) : Prop := {
  tf_quota : quota_fits now (Ref_Key (ret_Ref ret) (spec_Algo (ret_Spec ret))) (ret_Spec ret);
  tf_window : f64_small (ret_WindowID ret);
  tf_tokens : - max_quota ≤ ret_Tokens ret ≤ max_quota;
  tf_dedupe : dedupe ≠ "" → ∃ e u, dedupe = e +:+ ":" +:+ u ∧ ¬ has_char ":" e ∧ plain_id u;
  tf_parent : ∀ p, ret_Parent ret = Some p →
    quota_fits now (Ref_ParentKey (ret_Ref ret) FixedWindow) p ∧ f64_small (ret_ParentWindowID ret);
}.

Lemma Milliseconds_bounds d : 0 ≤ d ≤ 2 ^ 62 → 0 ≤ Milliseconds d ≤ max_count ∧ (Second ≤ d → 0 < Milliseconds d).
Proof using.
  intros Hd. unfold Milliseconds, i64_div, Millisecond. rewrite quot_div_pos by lia.
  assert (0 ≤ d `div` 1000000 ≤ 2 ^ 62 `div` 1000000) as Hb.
  { split; [apply Z.div_pos; lia|apply Z.div_le_mono; lia]. }
  change (2 ^ 62 `div` 1000000) with 4611686018427 in Hb. rewrite small_int64 by sizes.
  split; [sizes|]. intros Hs. apply Z.div_str_pos. unfold Second in Hs. lia.
Qed.

Lemma prepare_times ref spec args inp :
  prepare ref spec args = Ok inp →
  in_activeMs inp = Milliseconds (Z.max (2 * ga_Horizon args)%i64 (2 * Second)%i64) ∧
  in_ttl inp = if 0 <? ga_Horizon args then Milliseconds (ga_Horizon args) else Milliseconds Second.
Proof using.
  unfold prepare. destruct (Spec_validate spec); [done|]. cbv zeta.
  destruct (ga_Regional args && _); [done|]. destruct (ga_Parent args); [|by intros [= <-]].
  destruct (ref_Parent ref =? "")%string; [by intros [= <-]|]. destruct (_ || _); [done|]. by intros [= <-].
Qed.

Lemma prepare_fits now ref spec args inp :
  now < max_clock → args_fit now ref spec args → prepare ref spec args = Ok inp → grant_fits W E now inp.
Proof using.
  intros Hclk [[Hwin HW Hnow Hlim] Hh HE Hal Hpar] Hp.
  destruct (prepare_times _ _ _ _ Hp) as [Ha Httl].
  apply prepare_prepared in Hp; [|sizes]. destruct Hp.
  pose proof (windowMs_pos spec Hwin) as Hwm.
  assert (Hact : 0 < in_activeMs inp ≤ max_count).
  { rewrite Ha. assert (E2 : (2 * ga_Horizon args)%i64 = 2 * ga_Horizon args)
      by (apply wrap64_small; unfold is_int64, int64_min, int64_max; lia).
    rewrite E2. change (2 * Second)%i64 with 2000000000.
    destruct (Milliseconds_bounds (Z.max (2 * ga_Horizon args) 2000000000)) as [? Hpos]; [lia|].
    unfold Second in Hpos. lia. }
  assert (Hte : 0 ≤ in_ttl inp ≤ max_count).
  { rewrite Httl. destruct (Z.ltb_spec 0 (ga_Horizon args)); apply Milliseconds_bounds; unfold Second; lia. }
  split; try done; rewrite ?pr_win, ?pr_key, ?pr_limit; try done; try (by apply Ref_Key_base); try lia.
  - rewrite pr_alloc. destruct (ga_Regional args); [destruct (pr_alloc_ok eq_refl); lia|unfold max_quota; lia].
  - intros Hne. destruct pr_parent as [[? _]|(p & Hpp & Hrp & -> & -> & Hpl & ->)]; [done|].
    destruct (Hpar p Hpp) as [Hpw HWp Hpn Hplim]. pose proof (windowMs_pos p Hpw).
    split_and!; try done; [by apply Ref_ParentKey_base|].
    intros Eq. by apply (Ref_ParentKey_ne ref (spec_Algo spec)).
Qed.

Lemma prepareReturn_fits now dedupe ret inp :
  now < max_clock → ret_fits now dedupe ret → prepareReturn ret dedupe = Ok inp → return_fits W now inp.
Proof using.
  intros Hclk [[Hwin HW Hnow Hlim] Hwid Htok Hded Hpar]. unfold prepareReturn.
  destruct (Spec_validate (ret_Spec ret)) eqn:Hval; [done|].
  apply Spec_validate_None in Hval as [Hv _]. pose proof (windowMs_pos _ Hwin) as Hwm.
  assert (Hd : (if (dedupe =? "")%string then ""
                else Ref_Key (ret_Ref ret) (spec_Algo (ret_Spec ret)) +:+ ":ret:" +:+ dedupe) ≠ "" →
    once_key (if (dedupe =? "")%string then ""
              else Ref_Key (ret_Ref ret) (spec_Algo (ret_Spec ret)) +:+ ":ret:" +:+ dedupe)).
  { destruct (String.eqb_spec dedupe ""); [done|]. intros _.
    destruct Hded as (e & u & -> & He & Hu); [done|]. by apply return_once. }
  assert (Hk : is_base (Ref_Key (ret_Ref ret) (spec_Algo (ret_Spec ret)))) by (by apply Ref_Key_base).
  destruct (ret_Parent ret) as [p|] eqn:Hp; [|by intros [= <-]; split].
  destruct (ref_Parent (ret_Ref ret) =? "")%string eqn:Erp; [by intros [= <-]; split|].
  intros [= <-]. split; try done. intros _. cbn [ri_parentKey ri_key ri_pwin ri_pwid].
  destruct (Hpar p eq_refl) as [[Hpw HWp Hpn _] Hpwid]. pose proof (windowMs_pos p Hpw).
  split_and!; try done; [by apply Ref_ParentKey_base|].
  intros Eq. by apply (Ref_ParentKey_ne (ret_Ref ret) (spec_Algo (ret_Spec ret))).
Qed.

(** What a call must satisfy whatever the ledgers hold. *)
Definition call_fits (now : Z) (c : call) : Prop :=
  match c with
  | CGrant ref spec args => args_fit now ref spec args
  | CReturn dedupe rets => Forall (ret_fits now dedupe) rets
  | CLend ref spec base wid want margin id =>
      quota_fits now (Ref_Key ref (spec_Algo spec)) spec ∧ f64_small wid ∧ plain_id id ∧
      0 ≤ base ≤ max_quota ∧ - max_quota ≤ want ≤ max_quota ∧ - max_quota ≤ margin ≤ max_quota
  | CCredit ref spec wid amount id =>
      quota_fits now (Ref_Key ref (spec_Algo spec)) spec ∧ f64_small wid ∧ plain_id id ∧
      - max_quota ≤ amount ≤ max_quota
  end.

(** What it must satisfy when it is made: the numbers it computes are whole
    and in range, and a mark it could meet has not expired. *)
Fixpoint returns_exact (m : Mem) (r : redisDB) (t : Z) (dedupe : string) (rets : list Return) : bool :=
  match rets with
  | [] => true
  | ret :: rest =>
      match prepareReturn ret dedupe with
      | Err _ => true
      | Ok inp =>
          return_exact m (redis_ms t) inp && mark_live r (redis_ms t) (ri_dedupeKey inp)
          && returns_exact (return_input m (redis_ms t) inp) (snd (returnLua r t inp)) t dedupe rest
      end
  end.

Definition call_exact (m : Mem) (r : redisDB) (t : Z) (c : call) : bool :=
  let now := redis_ms t in
  match c with
  | CGrant ref spec args =>
      match prepare ref spec args with
      | Err _ => true
      | Ok inp => grant_exact now m inp range
      end
  | CReturn dedupe rets => returns_exact m r t dedupe rets
  | CLend ref spec _ _ _ _ id =>
      let key := Ref_Key ref (spec_Algo spec) in
      mark_live r now (lendKey key id) && lend_exact m now key (windowMs spec)
  | CCredit ref spec wid _ id =>
      let key := Ref_Key ref (spec_Algo spec) in
      mark_live r now (creditKey key id) && counted (Mem_getInt m (allocKey key wid) 0)
  end.

(** Every call is in range when it is made, and the clock does not run
    backwards. *)
Fixpoint run_exact (m : Mem) (r : redisDB) (last : Z) (cs : list (Z * call)) : bool :=
  match cs with
  | [] => true
  | (t, c) :: rest =>
      (last <=? redis_ms t) && (redis_ms t <? max_clock) && call_exact m r t c
      && run_exact (snd (mem_call range m (redis_ms t) c)) (snd (redis_call r t c)) (redis_ms t) rest
  end.

(** ** Call by call *)

Section one_call.
Variables (m : Mem) (r : redisDB) (t : Z).
Abbreviation now := (redis_ms t).
Hypothesis Hsim : sim W E now m r.
Hypothesis Ht : 0 ≤ t.
Hypothesis Hclk : now < max_clock.

Lemma now_num : num (lua_now t) now.
Proof using Ht Hclk. by apply lua_now_num. Qed.

Lemma Grant_sim ref spec args :
  args_fit now ref spec args → call_exact m r t (CGrant ref spec args) = true →
  let (a, m') := Mem_Grant range m now ref spec args in
  let (b, r') := Redis_Grant r t Delivered ref spec args in
  a = b ∧ sim W E now m' r'.
Proof using All.
  unfold call_exact, Mem_Grant, Redis_Grant. intros Hf.
  destruct (prepare ref spec args) as [inp|e] eqn:Hp; [|done]. intros He. pose proof (prepare_fits _ _ _ _ _ Hclk Hf Hp) as Hfits.
  assert (Hc : counters_fit m now inp = true).
  { unfold grant_exact in He. by apply andb_true_iff in He as [[Hc _]%andb_true_iff _]. }
  pose proof (grant_sim W E now m r inp (lua_now t) Hsim now_num Hfits Hc range range_perm t eq_refl eq_refl He) as Hg.
  unfold script_Run. destruct (grant_input range m now inp) as [gr m'], (grantLua r t inp) as [rep r'].
  destruct Hg as [Hrep Hs]. cbn. by rewrite Hrep.
Qed.

Lemma fixed_base ref spec :
  Algo_Or (spec_Algo spec) = FixedWindow → is_base (Ref_Key ref (spec_Algo spec)).
Proof using.
  intros Ha. apply Ref_Key_base. unfold Algo_Or in Ha. unfold Algo_Valid.
  destruct (spec_Algo spec =? "")%string; [done|]. by rewrite Ha.
Qed.

Lemma quota_transfer ref spec wid :
  let key := Ref_Key ref (spec_Algo spec) in
  Algo_Or (spec_Algo spec) = FixedWindow → quota_fits now key spec → f64_small wid →
  transfer_fits W now key (windowMs spec) wid.
Proof using Hclk.
  intros key Ha [Hwin HW Hn _] Hwid. split; try done; [by apply windowMs_pos|by apply fixed_base].
Qed.

Lemma Lend_sim ref spec base wid want margin id :
  call_fits now (CLend ref spec base wid want margin id) → call_exact m r t (CLend ref spec base wid want margin id) = true →
  let (a, m') := Mem_Lend m now now ref spec base wid want margin id in
  let (b, r') := Redis_Lend r t Delivered ref spec base wid want margin id in
  a = b ∧ sim W E now m' r'.
Proof using All.
  destruct (decide (Algo_Or (spec_Algo spec) = FixedWindow)) as [Ha|Ha].
  - intros (Hq & Hwid & Hid & Hb & Hw & Hm) [Hl He]%andb_true_iff.
    apply (lend_sim W E now m r t ref spec Hsim now_num eq_refl); [|done|done].
    split; try done. by apply quota_transfer.
  - intros _ _. unfold Mem_Lend, Redis_Lend. apply String.eqb_neq in Ha. by rewrite Ha.
Qed.

Lemma Credit_sim ref spec wid amount id :
  call_fits now (CCredit ref spec wid amount id) → call_exact m r t (CCredit ref spec wid amount id) = true →
  let (a, m') := Mem_Credit m now ref spec wid amount id in
  let (b, r') := Redis_Credit r t Delivered ref spec wid amount id in
  a = b ∧ sim W E now m' r'.
Proof using All.
  destruct (decide (Algo_Or (spec_Algo spec) = FixedWindow)) as [Ha|Ha].
  - intros (Hq & Hwid & Hid & Hamt) [Hl He]%andb_true_iff.
    apply (credit_sim W E now m r t ref spec Hsim now_num eq_refl); try done.
    + by apply quota_transfer.
    + by apply credit_once.
  - intros _ _. unfold Mem_Credit, Redis_Credit. apply String.eqb_neq in Ha. by rewrite Ha.
Qed.
End one_call.

Lemma Return_sim t dedupe rets m r :
  sim W E (redis_ms t) m r → 0 ≤ t → redis_ms t < max_clock →
  Forall (ret_fits (redis_ms t) dedupe) rets → returns_exact m r t dedupe rets = true →
  let (a, m') := Mem_Return m (redis_ms t) dedupe rets in
  let (b, r') := Redis_Return r dedupe ((λ ret, (ret, t, Delivered)) <$> rets) in
  a = b ∧ sim W E (redis_ms t) m' r'.
Proof using.
  intros Hsim Ht Hclk Hall. revert m r Hsim. induction Hall as [|ret rets Hf Hall IH]; intros m r Hsim Hok; [done|].
  rewrite fmap_cons. cbn [Mem_Return Redis_Return returns_exact] in *.
  destruct (prepareReturn ret dedupe) as [inp|e] eqn:Hp; [|done].
  apply andb_true_iff in Hok as [[He Hl]%andb_true_iff Hok].
  pose proof (return_sim W E _ m r t inp Hsim (now_num t Ht Hclk) eq_refl
                (prepareReturn_fits _ _ _ _ Hclk Hf Hp) He Hl) as Hs.
  unfold script_Run. destruct (returnLua r t inp) as [z r']. by apply IH.
Qed.

Lemma call_sim t c m r :
  sim W E (redis_ms t) m r → 0 ≤ t → redis_ms t < max_clock →
  call_fits (redis_ms t) c → call_exact m r t c = true →
  fst (mem_call range m (redis_ms t) c) = fst (redis_call r t c) ∧
  sim W E (redis_ms t) (snd (mem_call range m (redis_ms t) c)) (snd (redis_call r t c)).
Proof using range_perm.
  intros Hsim Ht Hclk Hf Hok. destruct c as [ref spec args|d rets|ref spec ? ? ? ? id|ref spec ? ? id];
    cbn [mem_call redis_call].
  - pose proof (Grant_sim m r t Hsim Ht Hclk _ _ _ Hf Hok) as H.
    destruct (Mem_Grant _ _ _ _ _ _), (Redis_Grant _ _ _ _ _ _). destruct H as [-> H]. done.
  - pose proof (Return_sim t d rets m r Hsim Ht Hclk Hf Hok) as H.
    destruct (Mem_Return _ _ _ _), (Redis_Return _ _ _). destruct H as [-> H]. done.
  - pose proof (Lend_sim m r t Hsim Ht Hclk _ _ _ _ _ _ _ Hf Hok) as H.
    destruct (Mem_Lend _ _ _ _ _ _ _ _ _ _), (Redis_Lend _ _ _ _ _ _ _ _ _ _). destruct H as [-> H]. done.
  - pose proof (Credit_sim m r t Hsim Ht Hclk _ _ _ _ _ Hf Hok) as H.
    destruct (Mem_Credit _ _ _ _ _ _ _), (Redis_Credit _ _ _ _ _ _ _ _). destruct H as [-> H]. done.
Qed.

Lemma run_sim cs last m r :
  0 ≤ last → sim W E last m r →
  Forall (λ tc, call_fits (redis_ms tc.1) tc.2) cs → run_exact m r last cs = true →
  fst (redis_run r cs) = fst (mem_run range m cs).
Proof using range_perm.
  intros H0 Hsim Hall. revert last m r H0 Hsim.
  induction Hall as [|[t c] cs Hf Hall IH]; intros last m r H0 Hsim Hok; [done|].
  cbn [redis_run mem_run run_exact fst snd] in *.
  apply andb_true_iff in Hok as [[[Hle%Z.leb_le Hclk%Z.ltb_lt]%andb_true_iff Hok]%andb_true_iff Hrest].
  assert (Ht : 0 ≤ t).
  { destruct (Z.le_gt_cases 0 t) as [|Hneg]; [done|].
    assert (redis_ms t < 0) by (apply Z.div_lt_upper_bound; lia). lia. }
  destruct (call_sim t c m r (sim_advance _ _ _ _ _ Hsim _ Hle) Ht Hclk Hf Hok) as [Eq Hs].
  specialize (IH (redis_ms t) _ _ ltac:(lia) Hs Hrest).
  destruct (mem_call range m (redis_ms t) c) as [x m'], (redis_call r t c) as [y r']. cbn [fst snd] in *.
  destruct (mem_run range m' cs), (redis_run r' cs). cbn in *. by rewrite Eq, IH.
Qed.
End refine.

(** ** A batch is its grants in order *)

Section batch.
Context {R : Type} `{RedisServer R}.

Fixpoint redis_grants (r : R) (items : list batchCall) : list (result error Grant) * R :=
  match items with
  | [] => ([], r)
  | it :: rest =>
      let '(x, r) := Redis_Grant r (bc_t it) (bc_d it) (bi_Ref (bc_item it)) (bi_Spec (bc_item it))
                       (bi_Args (bc_item it)) in
      let '(xs, r) := redis_grants r rest in (x :: xs, r)
  end.

(** What [rerun_cmds] makes of a command that was answered. *)
Lemma pipe_Exec_cached items r :
  Forall (λ it, bc_d it ≠ NoScript) items →
  let (cs, r') := pipe_Exec r items in
  let (xs, r'') := redis_grants r items in
  r' = r'' ∧ ∀ r0, rerun_cmds r0 (zip items cs) = (xs, r0).
Proof.
  revert r. induction items as [|it items IH]; intros r Hall; [done|].
  apply Forall_cons in Hall as [Hd Hall]. cbn [pipe_Exec redis_grants]. unfold Redis_Grant.
  destruct (prepare _ _ _) as [inp|e].
  - assert (Hm : match bc_d it with
                 | NoScript => (CmdNoScript inp, r)
                 | d => let '(x, r) := script_Run d (λ r, grantLua r (bc_t it) inp) r in (CmdReply x, r)
                 end = (let '(x, r) := script_Run (bc_d it) (λ r, grantLua r (bc_t it) inp) r in
                        (CmdReply x, r))) by (by destruct (bc_d it)).
    rewrite Hm. clear Hm. destruct (script_Run (bc_d it) _ r) as [x r1]. specialize (IH r1 Hall).
    destruct (pipe_Exec r1 items) as [cs r2], (redis_grants r1 items) as [xs r3].
    destruct IH as [-> IH]. split; [done|]. intros r0. cbn. by rewrite IH.
  - specialize (IH r Hall). destruct (pipe_Exec r items) as [cs r2], (redis_grants r items) as [xs r3].
    destruct IH as [-> IH]. split; [done|]. intros r0. cbn. by rewrite IH.
Qed.

(** A pipeline whose servers have the script cached is its grants, one after
    the other, each answered in its place: an item that fails, or that is
    refused before it is sent, leaves the others alone. *)
Theorem batch_in_order items r :
  Forall (λ it, bc_d it ≠ NoScript) items → Redis_GrantBatch r items = redis_grants r items.
Proof.
  intros Hall. unfold Redis_GrantBatch. pose proof (pipe_Exec_cached items r Hall) as Hp.
  destruct (pipe_Exec r items) as [cs r'], (redis_grants r items) as [xs r'']. destruct Hp as [-> Hp].
  by rewrite Hp.
Qed.

End batch.

(** ** The refinement *)

Lemma redis_run_view {R : Type} `{RedisBehaves R} (cs : list (Z * call)) (r : R) :
  redis_run (view r) cs = on_snd view (redis_run r cs).
Proof.
  revert r. induction cs as [|[t c] cs IH]; intros r; [done|]. cbn [redis_run].
  assert (Hc : redis_call (view r) t c = on_snd view (redis_call r t c)).
  { destruct c; cbn [redis_call].
    - rewrite Redis_Grant_view. by destruct (Redis_Grant r _ _ _ _ _).
    - rewrite Redis_Return_view. by destruct (Redis_Return r _ _).
    - rewrite Redis_Lend_view. by destruct (Redis_Lend r _ _ _ _ _ _ _ _ _).
    - rewrite Redis_Credit_view. by destruct (Redis_Credit r _ _ _ _ _ _ _). }
  rewrite Hc. destruct (redis_call r t c) as [x r1]. unfold on_snd at 1. cbn [fst snd]. rewrite IH.
  by destruct (redis_run r1 cs).
Qed.

(** C4: the Redis ledger is indistinguishable from the in-process ledger.  Over
    any sequence of grants, returns, lends and credits from empty ledgers, each
    reply of the Lua scripts is the reply of [Mem], whatever has expired in
    Redis meanwhile and in whatever order Go iterates over the edges, provided
    the calls are well formed: each quota keeps its window and horizon, the
    clock does not run backwards, ids are not reused after their marks expire,
    and the numbers are whole below 2^53. *)
Theorem redis_matches_mem (W E : string → Z) (range : gmap string Z → list (string * Z))
    {R : Type} `{RedisBehaves R} (r : R) (cs : list (Z * call)) :
  view r = emptyDB → (∀ s, range s ≡ₚ map_to_list s) →
  Forall (λ tc, call_fits W E (redis_ms tc.1) tc.2) cs →
  run_exact range NewMem emptyDB 0 cs = true →
  fst (redis_run r cs) = fst (mem_run range NewMem cs).
Proof.
  intros Hv Hr Hf Hok. pose proof (redis_run_view cs r) as Hrun. rewrite Hv in Hrun.
  transitivity (fst (redis_run emptyDB cs)); [by rewrite Hrun|].
  by eapply run_sim; [done| |apply sim_new|..].
Qed.

Module Example_run.
Definition ref : Ref := mkRef "key" "svc" "" "alice" "acme".
Definition org : Spec := mkSpec FixedWindow 40 (60 * Second) f64_zero.
Definition fixed : Spec := mkSpec FixedWindow 25 (60 * Second) f64_zero.
Definition sliding : Spec := mkSpec SlidingWindow 10 (60 * Second) f64_zero.
Definition tb : Spec := mkSpec TokenBucket 10 (60 * Second) (f64_of_int 2).

Definition ask (n : Z) (edge : string) (parent : option Spec) (regional : bool) : GrantArgs :=
  mkGrantArgs n edge (10 * Second) f64_zero 1 0 parent regional 20.

(** The first microsecond of a minute in 2023. *)
Definition t0 : Z := 1700000040000000.
Definition wid : Z := 28333334.

Definition token : string := "edge-1:tok_1".

Definition calls : list (Z * call) :=
  [(t0 + 1500, CGrant ref fixed (ask 8 "edge-1" (Some org) false));
   (t0 + 90000, CGrant ref fixed (ask 8 "edge-2" (Some org) false));
   (t0 + 250000, CReturn token [mkReturn ref fixed (Some org) wid wid 3]);
   (t0 + 260000, CReturn token [mkReturn ref fixed (Some org) wid wid 3]);
   (t0 + 55000000, CLend ref fixed 20 wid 4 1 "tr_1");
   (t0 + 55010000, CCredit ref fixed wid 6 "tr_2");
   (t0 + 55400000, CGrant ref fixed (ask 30 "edge-1" None true));
   (t0 + 55500000, CGrant ref sliding (ask 6 "edge-1" None false));
   (t0 + 55600000, CGrant ref tb (ask 4 "edge-1" None false));
   (t0 + 75000000, CGrant ref sliding (ask 6 "edge-1" None false));
   (t0 + 76000000, CGrant ref sliding (ask 6 "edge-2" None false));
   (t0 + 76500000, CGrant ref sliding (ask 6 "edge-2" None false));
   (t0 + 300000000, CGrant ref tb (ask 40 "edge-2" None false));
   (t0 + 300500000, CGrant ref tb (ask 10 "edge-2" None false))].

Definition W (_ : string) : Z := 60000.
Definition E (_ : string) : Z := 20000.

Lemma plain (id : string) : ¬ has_char ":" id → id ∉ algos → has_char "_" id → plain_id id.
Proof.
  intros Hc Ha Hu. split_and!; [done|done|]. intros w ->. by apply (itoa_sep "_" w underscore_sep).
Qed.

Lemma plain_tok1 : plain_id "tok_1".
Proof. apply plain; [no_char|by apply (bool_decide_unpack _)|yes_char]. Qed.

Lemma plain_tr1 : plain_id "tr_1".
Proof. apply plain; [no_char|by apply (bool_decide_unpack _)|yes_char]. Qed.

Lemma plain_tr2 : plain_id "tr_2".
Proof. apply plain; [no_char|by apply (bool_decide_unpack _)|yes_char]. Qed.

Lemma token_ok : token ≠ "" → ∃ e u, token = e +:+ ":" +:+ u ∧ ¬ has_char ":" e ∧ plain_id u.
Proof. intros _. exists "edge-1", "tok_1". split_and!; [done|no_char|apply plain_tok1]. Qed.

Lemma quota_ok now k s :
  60000 ≤ now → spec_Window s = 60 * Second → spec_Limit s ≤ 40 → quota_fits W now k s.
Proof.
  intros Hn Hw Hl. assert (E1 : windowMs s = 60000) by (unfold windowMs; by rewrite Hw).
  split; rewrite ?E1, ?Hw; [vm_compute; split; congruence|done|done|unfold max_quota; lia].
Qed.

Lemma args_ok now spec n edge parent regional :
  60000 ≤ now → spec_Window spec = 60 * Second → spec_Limit spec ≤ 40 →
  parent = None ∨ parent = Some org → args_fit W E now ref spec (ask n edge parent regional).
Proof.
  intros Hn Hw Hl Hp. split; cbn [ga_Horizon ga_AllocBase ga_Parent ask];
    [by apply quota_ok|unfold Second; lia|done|unfold max_quota; lia|].
  intros p ->. destruct Hp as [|[= ->]]; [done|]. by apply quota_ok.
Qed.

Lemma ret_ok now : 60000 ≤ now → ret_fits W now token (mkReturn ref fixed (Some org) wid wid 3).
Proof.
  intros Hn. split; cbn; [by apply quota_ok|vm_compute; split; congruence|unfold max_quota; lia|apply token_ok|].
  intros p [= <-]. split; [by apply quota_ok|vm_compute; split; congruence].
Qed.

Lemma calls_fit : Forall (λ tc, call_fits W E (redis_ms tc.1) tc.2) calls.
Proof.
  unfold calls. rewrite !Forall_cons, Forall_nil. cbn [fst snd call_fits].
  split_and!; repeat rewrite Forall_cons; rewrite ?Forall_nil;
    first [ apply args_ok; [vm_compute; congruence|done|cbn; lia|auto]
          | split; [apply ret_ok; vm_compute; congruence|done]
          | apply quota_ok; [vm_compute; congruence|done|cbn; lia]
          | apply plain_tr1 | apply plain_tr2 | vm_compute; split; congruence | unfold max_quota; lia | done ].
Qed.
End Example_run.

Lemma redis_matches_mem_witness :
  let replies := fst (mem_run map_to_list NewMem Example_run.calls) in
  fst (redis_run emptyDB Example_run.calls) = replies ∧ length replies = 14%nat.
Proof.
  split; [|vm_compute; done].
  apply (redis_matches_mem Example_run.W Example_run.E map_to_list emptyDB Example_run.calls);
    [done|done|apply Example_run.calls_fit|vm_compute; done].
Defined.
