(* ===== verification/Region.v ===== *)
(** * Regions ([packages/region])

    How a global quota is split between regions ([region.go]), how a region
    that runs out borrows from its peers ([node.go]), and that the regions
    together never hold more than the quota: the allocations are split exactly,
    and every transfer debits the lender before the borrower is credited, once.

    The hash that picks a subject's home region (SHA-256) is a parameter. *)

From stdpp Require Import sorting.
From S2P Require Import Prelude Float64 Ledger LedgerFacts LedgerSafety.
From Stdlib Require Import Ascii.

Local Open Scope Z_scope.

(** ** The split ([region.go]) *)

Definition region_floor (q : Z) (share : float64) : Z :=
  f64_to_int (f64_floor (f64_mul (f64_of_int q)
    (f64_max f64_zero (f64_min share (f64_of_int 1))))).

Definition Names {A} (floors : gmap string A) : list string :=
  merge_sort String.le (map_to_list floors).*1.

Section split.
(** The first eight bytes of the SHA-256 digest, as a big-endian [uint64]. *)
Variable sha256_uint64 : string → Z.

Fixpoint Home_scan (subject : string) (names : list string) (best : string) (bestScore : Z)
  : string :=
  match names with
  | [] => best
  | name :: rest =>
      let s := sha256_uint64 (name +:+ String "000" subject) in
      if (best =? "")%string || (bestScore <? s)
      then Home_scan subject rest name s
      else Home_scan subject rest best bestScore
  end.

Definition Home (floors : gmap string float64) (subject : string) : string :=
  Home_scan subject (Names floors) "" 0.

Definition floors_sum (q : Z) (floors : gmap string float64) : Z :=
  fold_left (λ sum name, (sum + region_floor q (default f64_zero (floors !! name)))%i64)
    (Names floors) 0.

Definition Base (q : Z) (floors : gmap string float64) (region subject : string) : Z :=
  match floors !! region with
  | None => 0
  | Some share =>
      let base := region_floor q share in
      if (Home floors subject =? region)%string then (base + (q - floors_sum q floors))%i64
      else base
  end.
End split.

(** ** Borrowing ([node.go]) *)

(** A quota this region ran out of in one window, and how peers name it. *)
Record BorrowRequest := mkBorrowRequest {
  br_Prefix : string;
  br_ServiceId : string;
  br_ApiKey : string;
  br_LimitId : string;
  br_TierId : string;
  br_WindowId : Z;
  br_Want : Z;
  br_TransferId : string;
  br_FromRegion : string;
}.

Record Need := mkNeed {
  need_Ref : Ref;
  need_Spec : Spec;
  need_Window : Z;
  need_Request : BorrowRequest;
}.

Record Node := mkNode {
  node_Name : string;
  node_Peers : list string; (* the keys of the map of peers, sorted *)
  node_needs : gmap string Need;
  node_turn : Z;
}.

Definition Node_Starved (n : Node) (need : Need) : Node :=
  {| node_Name := node_Name n; node_Peers := node_Peers n;
     node_needs := <[Ref_Key (need_Ref need) (spec_Algo (need_Spec need)) := need]> (node_needs n);
     node_turn := node_turn n |}.

(** One answered call to a peer: the transfer id minted for it, the peer's
    answer, and the ledger's clock when it is credited. *)
Record exchange := mkExchange {
  ex_id : string;
  ex_resp : result error Z;
  ex_now : Z;
}.

Definition borrow_request (n : Node) (need : Need) (want : Z) (id : string) : BorrowRequest :=
  let r := need_Request need in
  {| br_Prefix := br_Prefix r; br_ServiceId := br_ServiceId r; br_ApiKey := br_ApiKey r;
     br_LimitId := br_LimitId r; br_TierId := br_TierId r;
     br_WindowId := need_Window need; br_Want := want; br_TransferId := id;
     br_FromRegion := node_Name n |}.

(** Credit what one peer lent; whether it lent anything. *)
Definition Node_borrow (m : Mem) (need : Need) (e : exchange) : bool * Mem :=
  match ex_resp e with
  | Err _ => (false, m)
  | Ok given =>
      if given <=? 0 then (false, m)
      else (true, snd (Mem_Credit m (ex_now e) (need_Ref need) (need_Spec need)
                         (need_Window need) given (ex_id e)))
  end.

(** Ask the peers in order until one lends.  Returns the requests sent, the
    ledger, and the exchanges left. *)
Fixpoint ask_peers (n : Node) (need : Need) (want : Z) (peers : list string) (m : Mem)
  (ex : list exchange) : list (string * BorrowRequest) * Mem * list exchange :=
  match peers, ex with
  | peer :: peers, e :: ex =>
      let req := (peer, borrow_request n need want (ex_id e)) in
      let '(lent, m) := Node_borrow m need e in
      if lent then ([req], m, ex)
      else let '(sent, m, ex) := ask_peers n need want peers m ex in (req :: sent, m, ex)
  | _, _ => ([], m, ex)
  end.

(** [peers[(turn+i)%len(peers)]] for each [i]. *)
Definition rotated (turn : Z) (peers : list string) : list string :=
  (λ i, nth (Z.to_nat (Z.rem (turn + Z.of_nat i) (Z.of_nat (length peers)))) peers "")
    <$> seq 0 (length peers).

Fixpoint rebalance_needs (n : Node) (turn : Z) (needs : list (Z * Need)) (m : Mem)
  (ex : list exchange) : list (string * BorrowRequest) * Mem :=
  match needs with
  | [] => ([], m)
  | (now, need) :: rest =>
      if negb (WindowOf (need_Spec need) now =? need_Window need)
      then rebalance_needs n turn rest m ex
      else
        let want := Z.max (spec_Limit (need_Spec need) / 4)%i64 1 in
        let '(sent, m, ex) := ask_peers n need want (rotated turn (node_Peers n)) m ex in
        let '(sent', m) := rebalance_needs n turn rest m ex in
        (sent ++ sent', m)
  end.

(** One round.  [needs] are the recorded needs in the order the map yields
    them, each with the wall clock read before it. *)
Definition Node_Rebalance (n : Node) (needs : list (Z * Need)) (m : Mem) (ex : list exchange)
  : Node * list (string * BorrowRequest) * Mem :=
  let turn := (node_turn n + 1)%i64 in
  let n' := {| node_Name := node_Name n; node_Peers := node_Peers n;
               node_needs := ∅; node_turn := turn |} in
  match node_Peers n with
  | [] => (n', [], m)
  | _ => let '(sent, m) := rebalance_needs n' turn needs m ex in (n', sent, m)
  end.

(** ** The split is exact *)

Lemma Names_elem {A} (floors : gmap string A) x : x ∈ Names floors ↔ is_Some (floors !! x).
Proof.
  unfold Names. rewrite merge_sort_Permutation, list_elem_of_fmap. split.
  - intros ([k v] & -> & Hk%elem_of_map_to_list). eauto.
  - intros [v Hv]. exists (x, v). split; [done|]. by apply elem_of_map_to_list.
Qed.

Lemma Names_NoDup {A} (floors : gmap string A) : NoDup (Names floors).
Proof. unfold Names. rewrite merge_sort_Permutation. apply NoDup_fst_map_to_list. Qed.

(** Shares as configuration validation leaves them. *)
Definition shares_ok (floors : gmap string float64) : Prop :=
  ∀ r share, floors !! r = Some share → f64_valid share ∧ f64_is_nan share = false.

Lemma region_floor_bounds q share :
  0 < q ≤ f64_max_int → f64_valid share → f64_is_nan share = false →
  0 ≤ region_floor q share ≤ q.
Proof.
  intros Hq Hv Hn. unfold region_floor. apply f64_floor_le; [done|].
  pose proof (f64_mul_le q _ ltac:(lia) (f64_clamp_01 share Hv Hn)) as H.
  by rewrite Z.max_l in H by lia.
Qed.

Lemma Names_length {A} (fs : gmap string A) : length (Names fs) = size fs.
Proof. unfold Names. rewrite merge_sort_Permutation, length_fmap. apply length_map_to_list. Qed.

Lemma Home_scan_in sha256_uint64 subject l best score :
  Home_scan sha256_uint64 subject l best score = best ∨
  Home_scan sha256_uint64 subject l best score ∈ l.
Proof.
  revert best score. induction l as [|x l IH]; intros best score; cbn; [by left|].
  destruct (_ || _); [destruct (IH x (sha256_uint64 (x +:+ String "000" subject)))
                     |destruct (IH best score)]; set_solver.
Qed.

Lemma Home_in sha256_uint64 floors subject : floors ≠ ∅ → Home sha256_uint64 floors subject ∈ Names floors.
Proof.
  intros Hne. unfold Home. destruct (Names floors) as [|x l] eqn:E.
  - apply (f_equal length) in E. rewrite Names_length in E. by apply map_size_empty_inv in E.
  - cbn. destruct (Home_scan_in sha256_uint64 subject l x (sha256_uint64 (x +:+ String "000" subject)));
      set_solver.
Qed.

Section exact_split.
Variable sha256_uint64 : string → Z.
Variables (q : Z) (floors : gmap string float64).
Hypothesis Hq : 0 < q ≤ f64_max_int.
Hypothesis Hshares : shares_ok floors.

Let share_of (r : string) : Z := region_floor q (default f64_zero (floors !! r)).

Lemma share_of_bounds r : r ∈ Names floors → 0 ≤ share_of r ≤ q.
Proof using Hq Hshares.
  intros [share Hs]%Names_elem. unfold share_of. rewrite Hs. cbn.
  destruct (Hshares r share Hs). by apply region_floor_bounds.
Qed.

Lemma fold_left_sum l acc :
  (∀ x, x ∈ l → 0 ≤ share_of x ≤ q) → 0 ≤ acc → acc + Z.of_nat (length l) * q ≤ int64_max →
  fold_left (λ sum r, (sum + share_of r)%i64) l acc = acc + sumZ share_of l.
Proof using Hq.
  revert acc. induction l as [|x l IH]; intros acc Hl Ha Hle; cbn [fold_left length] in *; [cbn; lia|].
  pose proof (Hl x (list_elem_of_here _ _)) as Hx.
  unfold i64_add at 2. rewrite wrap64_small by (unfold is_int64, int64_min, int64_max in *; nia).
  rewrite IH; [cbn [sumZ foldr]; unfold sumZ; lia|..]; [|lia|nia].
  intros y Hy. apply Hl. by apply list_elem_of_further.
Qed.

Hypothesis Hsize : (size floors ≤ 1000)%nat.

Lemma floors_sum_eq : floors_sum q floors = sumZ share_of (Names floors).
Proof using Hq Hshares Hsize.
  change (floors_sum q floors) with
    (fold_left (λ sum r, (sum + share_of r)%i64) (Names floors) 0).
  rewrite (fold_left_sum (Names floors) 0).
  - lia.
  - intros x Hx. by apply share_of_bounds.
  - done.
  - rewrite Names_length. unfold f64_max_int, int64_max in *. nia.
Qed.

Lemma Base_eq r subject :
  r ∈ Names floors → Base sha256_uint64 q floors r subject =
  share_of r + if (Home sha256_uint64 floors subject =? r)%string
               then q - sumZ share_of (Names floors) else 0.
Proof using Hq Hshares Hsize.
  intros Hr. pose proof (share_of_bounds r Hr) as Hb. pose proof Hr as [share Hs]%Names_elem.
  assert (Es : share_of r = region_floor q share) by (unfold share_of; by rewrite Hs).
  rewrite Es in *. unfold Base. rewrite Hs.
  rewrite floors_sum_eq. destruct (_ =? r)%string; [|lia].
  assert (Hsum : 0 ≤ sumZ share_of (Names floors) ≤ 1000 * q).
  { split; [apply sumZ_nonneg; intros x Hx; by apply share_of_bounds|].
    transitivity (sumZ (λ _ : string, q) (Names floors)).
    - apply sumZ_le. intros x Hx. by apply share_of_bounds.
    - assert (E : ∀ l : list string, sumZ (λ _, q) l = Z.of_nat (length l) * q)
        by (unfold sumZ; induction l; cbn [foldr length]; lia).
      rewrite E, Names_length. nia. }
  unfold i64_add, i64_sub. unfold f64_max_int in *.
  rewrite (wrap64_small (q - _)) by (unfold is_int64, int64_min, int64_max; lia).
  apply wrap64_small. unfold is_int64, int64_min, int64_max. lia.
Qed.
End exact_split.

Section bases.
Variable sha256_uint64 : string → Z.
Variables (q : Z) (floors : gmap string float64) (subject : string).
Hypothesis Hq : 0 < q ≤ f64_max_int.
Hypothesis Hs : shares_ok floors.
Hypothesis Hsz : (size floors ≤ 1000)%nat.

Lemma Base_sum :
  floors ≠ ∅ → sumZ (λ r, Base sha256_uint64 q floors r subject) (Names floors) = q.
Proof using Hq Hs Hsz.
  intros Hne. set (f := λ r, region_floor q (default f64_zero (floors !! r))).
  set (home := Home sha256_uint64 floors subject).
  pose proof (Home_in sha256_uint64 floors subject Hne) as Hhome. fold home in Hhome.
  rewrite (sumZ_ext _ (λ r, f r + if (home =? r)%string then q - sumZ f (Names floors) else 0)).
  2:{ intros r Hr. by apply Base_eq. }
  rewrite (sumZ_update f _ _ home); [|apply Names_NoDup|done|].
  - rewrite String.eqb_refl. lia.
  - intros y Hy. rewrite (proj2 (String.eqb_neq _ _)) by done. lia.
Qed.

Lemma Base_nonneg r : floors_sum q floors ≤ q → 0 ≤ Base sha256_uint64 q floors r subject.
Proof using Hq Hs Hsz.
  intros Hle. destruct (floors !! r) as [share|] eqn:Er.
  - assert (Hr : r ∈ Names floors) by (apply Names_elem; eauto).
    rewrite Base_eq by done. rewrite floors_sum_eq in Hle by done.
    pose proof (share_of_bounds q floors Hq Hs r Hr). destruct (_ =? r)%string; lia.
  - unfold Base. by rewrite Er.
Qed.
End bases.

(** The regions' shares of a quota sum to exactly the quota, whatever the
    shares configured, the subject and the hash; and no share is negative when
    the floors do not sum to more than the quota. *)
Theorem bases_sum_to_quota sha256_uint64 q floors subject :
  0 < q ≤ f64_max_int → shares_ok floors → (size floors ≤ 1000)%nat → floors ≠ ∅ →
  sumZ (λ r, Base sha256_uint64 q floors r subject) (Names floors) = q ∧
  (floors_sum q floors ≤ q → ∀ r, 0 ≤ Base sha256_uint64 q floors r subject).
Proof.
  intros Hq Hs Hsz Hne. split; [by apply Base_sum|]. intros Hle r. by apply Base_nonneg.
Qed.

Lemma bases_sum_to_quota_witness :
  let quarter := f64_dyadic 1 (-2) in
  let floors : gmap string float64 := {["eu" := quarter; "us" := quarter]} in
  let sha (s : string) := Z.of_nat (String.length s) in
  sumZ (λ r, Base sha 101 floors r "alice") (Names floors) = 101 ∧ 0 ≤ Base sha 101 floors "eu" "alice".
Proof.
  intros quarter floors sha.
  destruct (bases_sum_to_quota sha 101 floors "alice") as [H1 H2].
  - unfold f64_max_int. lia.
  - intros r share. unfold floors. rewrite lookup_insert, lookup_singleton.
    repeat case_decide; intros [= <-]; split; by vm_compute.
  - vm_compute. lia.
  - intros E. apply (f_equal (lookup "eu")) in E. vm_compute in E. discriminate.
  - split; [done|]. apply H2. vm_compute. discriminate.
Defined.
