(* ===== verification/RegionSafety.v ===== *)
(** * Regions never admit more than the quota together

    Several regions, each with its own ledger and clock, serve one global
    quota.  They grant from their allocations, lend to and borrow from each
    other over a network that may lose, delay and repeat messages, and serve
    any other quotas meanwhile.  In every reachable state, for every window,
    the tokens used across the regions do not exceed the quota. *)

From stdpp Require Import functions.
From S2P Require Import Prelude Float64 Ledger LedgerFacts LedgerSafety LedgerProps Region.
From Stdlib Require Import Ascii.

Local Open Scope Z_scope.

(** ** The keys of a regional quota *)

(** Transfer ids are hexadecimal. *)
Definition id_ok (id : string) : Prop := ¬ has_char ":" id ∧ ¬ has_char "_" id.

(** Keys that only loans and credits write: allocations and loan records. *)
Definition side_key (k : string) : Prop :=
  ∃ b, is_base b ∧ ((∃ w, k = allocKey b w) ∨ (∃ id, id_ok id ∧ k = lendKey b id)).

Lemma side_key_winKey b w k : is_base b → side_key k → k ≠ winKey b w.
Proof.
  intros Hb (b' & Hb' & [[w' ->]|(id & [Hid _] & ->)]) E; symmetry in E; revert E.
  - by apply allocKey_winKey_ne.
  - by apply lendKey_winKey_ne.
Qed.

Lemma side_key_base b k : is_base b → side_key k → k ≠ b.
Proof.
  intros Hb (b' & Hb' & [[w' ->]|(id & [Hc Hu] & ->)]) E; symmetry in E; revert E.
  - rewrite allocKey_winKey. by apply winKey_not_base.
  - unfold lendKey. change ":lend:" with (":lend" +:+ ":").
    rewrite (append_assoc ":lend"), <- (append_assoc b'). by apply base_not_suffix.
Qed.

Lemma alloc_side b w : is_base b → side_key (allocKey b w).
Proof. intros Hb. exists b. split; [done|]. left. by exists w. Qed.

Lemma lend_side b id : is_base b → id_ok id → side_key (lendKey b id).
Proof. intros Hb Hid. exists b. split; [done|]. right. by exists id. Qed.

#[export] Hint Resolve alloc_side lend_side : gate.

(** ** Grants and returns leave them alone *)

Lemma gl_key_cases m now inp :
  gl_key (grant_algo m now inp) = in_key inp ∨
  ∃ w, gl_key (grant_algo m now inp) = winKey (in_key inp) w.
Proof.
  unfold grant_algo. destruct (in_algo inp =? TokenBucket)%string; [by left|right].
  destruct (in_algo inp =? SlidingWindow)%string; cbn; eauto.
Qed.

Lemma grant_side range m now ref spec args k :
  spec_Limit spec ≤ f64_max_int → side_key k →
  vals (snd (Mem_Grant range m now ref spec args)) !! k = vals m !! k.
Proof.
  intros Hl Hk. unfold Mem_Grant. destruct (prepare ref spec args) as [inp|] eqn:Hp; [|done].
  pose proof (prepare_prepared ref spec args inp ltac:(bounds) Hp) as Hpr.
  pose proof (grant_input_frame range m now inp k) as Hf.
  destruct (grant_input range m now inp) as [g m']. cbn [snd] in *. apply Hf.
  - assert (Hb : is_base (in_key inp)).
    { rewrite (pr_key _ _ _ _ Hpr). apply Ref_Key_base, (pr_valid _ _ _ _ Hpr). }
    destruct (gl_key_cases m now inp) as [->|[w ->]];
      [by apply side_key_base|by apply side_key_winKey].
  - intros Hne. unfold grant_parent. rewrite (proj2 (String.eqb_neq _ _)) by done. cbn.
    apply side_key_winKey; [|done].
    destruct (pr_parent _ _ _ _ Hpr) as [[E _]|(p & _ & _ & -> & _)]; [done|].
    by apply Ref_ParentKey_base.
Qed.

Lemma return_input_side m now inp k :
  side_key k → is_base (ri_key inp) → (ri_parentKey inp ≠ "" → is_base (ri_parentKey inp)) →
  vals (return_input m now inp) !! k = vals m !! k.
Proof.
  intros Hk Hb Hp. unfold return_input, Mem_credit.
  destruct (negb _ && bool_decide _); [done|]. cbv zeta.
  assert (H1 : k ≠ ri_key inp) by (by apply side_key_base).
  assert (H2 : ∀ w, k ≠ winKey (ri_key inp) w) by (intros w; by apply side_key_winKey).
  assert (H3 : (negb (ri_parentKey inp =? "")%string) = true →
    ∀ w, k ≠ winKey (ri_parentKey inp) w).
  { intros E w. apply side_key_winKey; [|done]. apply Hp. by apply String.eqb_neq, negb_true_iff. }
  set (m1 := if (ri_dedupeKey inp =? "")%string then m else _).
  assert (E1 : vals m1 !! k = vals m !! k) by (unfold m1; by destruct (ri_dedupeKey inp =? "")%string).
  rewrite <- E1. set (m2 := if (ri_algo inp =? TokenBucket)%string then _ else _).
  assert (E2 : vals m2 !! k = vals m1 !! k).
  { unfold m2. destruct (ri_algo inp =? TokenBucket)%string; [by apply vals_set_ne|].
    destruct (_ =? ri_wid inp); [|done]. by apply vals_set_ne. }
  rewrite <- E2. destruct (negb (ri_parentKey inp =? "")%string) eqn:E; [|done]. cbn [andb].
  destruct (_ =? ri_pwid inp); [|done]. apply vals_set_ne. symmetry. by apply H3.
Qed.

Lemma prepareReturn_parent r dedupe inp :
  prepareReturn r dedupe = Ok inp → ri_parentKey inp ≠ "" → is_base (ri_parentKey inp).
Proof.
  unfold prepareReturn. destruct (Spec_validate (ret_Spec r)); [done|].
  destruct (ret_Parent r) as [p|]; [destruct (ref_Parent (ret_Ref r) =? "")%string|];
    intros [= <-]; try done. intros _. by apply Ref_ParentKey_base.
Qed.

Lemma return_side m now dedupe rs k :
  side_key k → vals (snd (Mem_Return m now dedupe rs)) !! k = vals m !! k.
Proof.
  intros Hk. revert m. induction rs as [|r rs IH]; intros m; cbn [Mem_Return]; [done|].
  destruct (prepareReturn r dedupe) as [inp|] eqn:Hp; [|done]. rewrite IH.
  apply return_input_side; [done| |by eapply prepareReturn_parent].
  by apply prepareReturn_facts in Hp as (? & _).
Qed.

(** ** Loans and credits of one quota *)

Definition fixed (spec : Spec) : Prop := Algo_Or (spec_Algo spec) = FixedWindow.

(** What a loan does, with [u] used of an allocation of [base + a]. *)
Inductive lend_effect (m : Mem) (key id : string) (wid base u a : Z) : Z → Mem → Prop :=
| LendNone : lend_effect m key id wid base u a 0 m
| LendAgain v : vals m !! lendKey key id = Some v →
    lend_effect m key id wid base u a (f64_to_int v) m
| LendGive give : vals m !! lendKey key id = None → 0 ≤ give → u ≤ base + a - give →
    lend_effect m key id wid base u a give
      (set_val (lendKey key id) (f64_of_int give) (set_val (allocKey key wid) (f64_of_int (a - give)) m)).

Lemma Mem_Lend_effect m now now' ref spec base wid want id u a :
  let key := Ref_Key ref (spec_Algo spec) in
  fixed spec → 0 ≤ base ≤ f64_max_int →
  holds m (winKey key wid) u → holds m (allocKey key wid) a → 0 ≤ u ≤ base + a →
  base + a ≤ f64_max_int →
  ∃ give m', Mem_Lend m now now' ref spec base wid want 0 id = (Ok give, m') ∧
    lend_effect m key id wid base u a give m'.
Proof.
  intros key Hf Hbase Hu Ha Hua Hle. unfold Mem_Lend. rewrite Hf. cbn [negb String.eqb].
  change (FixedWindow =? FixedWindow)%string with true. cbn [negb].
  destruct (negb _); [exists 0, m; split; [done|constructor]|]. fold key.
  destruct (vals m !! lendKey key id) as [v|] eqn:Ev.
  { eexists _, _. split; [done|]. by constructor. }
  rewrite (holds_getInt _ _ _ Hu), (holds_getInt _ _ _ Ha).
  destruct Hu as [_ Hus], Ha as [Ea Has].
  pose proof (f64_to_int_range (f64_ceil (f64_div
    (f64_of_int (u * (windowMs spec - (now' - wid * windowMs spec)))%i64)
    (f64_of_int (Z.max (now' - wid * windowMs spec)%i64 1))))) as Hmg. revert Hmg.
  generalize (f64_to_int (f64_ceil (f64_div
    (f64_of_int (u * (windowMs spec - (now' - wid * windowMs spec)))%i64)
    (f64_of_int (Z.max (now' - wid * windowMs spec)%i64 1))))) as mg. intros mg Hmg.
  assert (Hg : 0 ≤ Z.max (Z.min want (base + a - u - Z.max 0 mg)%i64) 0 ≤ base + a - u).
  { unfold i64_sub, i64_add. rewrite (wrap64_small (base + a)) by bounds.
    rewrite (wrap64_small (base + a - u)) by bounds. rewrite wrap64_small by bounds. lia. }
  revert Hg. generalize (Z.max (Z.min want (base + a - u - Z.max 0 mg)%i64) 0) as give.
  intros give Hg. rewrite Ea, f64_sub_int by bounds.
  eexists _, _. split; [done|]. constructor; [done|lia|lia].
Qed.

(** ** One region serving its share *)

Section region.
Variable range : gmap string Z → list (string * Z).
Hypothesis range_perm : ∀ s, range s ≡ₚ map_to_list s.
Variable key : string.
Hypothesis Hkey : is_base key.
Variable base : Z.
Hypothesis Hbase : 0 ≤ base ≤ f64_max_int.

(** What a region may be asked besides loans and credits of this quota: grants
    of it from the region's allocation, anything on other quotas, and returns
    of unspent tokens. *)
Definition local_op (o : op) : Prop :=
  match o with
  | OpGrant now ref spec args =>
      call_ok now ref spec args ∧ Ref_ParentKey ref FixedWindow ≠ key ∧
      (Ref_Key ref (spec_Algo spec) = key → ga_Regional args = true ∧ ga_AllocBase args = base)
  | OpReturn _ _ rs => Forall (λ r, 0 ≤ ret_Tokens r) rs
  | OpLend _ _ ref spec _ _ _ _ id => Ref_Key ref (spec_Algo spec) ≠ key ∧ id_ok id
  | OpCredit _ ref spec _ _ _ => Ref_Key ref (spec_Algo spec) ≠ key
  end.

(** The regional counter of window [k] against its allocation. *)
Definition region_ok (m : Mem) (k : Z) : Prop :=
  ∃ u a, holds m (winKey key k) u ∧ holds m (allocKey key k) a ∧ 0 ≤ u ≤ base + a ∧
    base + a ≤ f64_max_int.

Lemma regional_grant m now ref spec args inp k :
  prepare ref spec args = Ok inp → call_ok now ref spec args →
  Ref_Key ref (spec_Algo spec) = key → ga_Regional args = true → ga_AllocBase args = base →
  edges_bounded 1099511627775 m → now `div` windowMs spec = k → region_ok m k →
  region_ok (snd (grant_input range m now inp)) k.
Proof using range_perm Hkey Hbase.
  intros Hp Hok Hk Hreg Hal He Hw (u & a & Hu & Ha & Hua & Hle).
  pose proof Hok as (Hnow & Hwin & Hlim & Hh & Hpar).
  pose proof (prepare_prepared ref spec args inp ltac:(bounds) Hp) as Hpr.
  pose proof (prepare_active _ _ _ _ now Hp Hh Hnow) as Hact.
  assert (Hfix : in_algo inp = FixedWindow) by (by apply (pr_alloc_ok _ _ _ _ Hpr)).
  assert (Htb : (in_algo inp =? TokenBucket)%string = false) by (by rewrite Hfix).
  assert (Hwok : win_ok (in_win inp)) by (rewrite (pr_win _ _ _ _ Hpr); by apply windowMs_pos).
  assert (Ekey : winKey (in_key inp) (now `div` in_win inp) = winKey key k).
  { by rewrite (pr_key _ _ _ _ Hpr), (pr_win _ _ _ _ Hpr), Hk, Hw. }
  assert (Eal : allocKey (in_key inp) (now `div` in_win inp) = allocKey key k).
  { by rewrite (pr_key _ _ _ _ Hpr), (pr_win _ _ _ _ Hpr), Hk, Hw. }
  assert (Eeff : eff_limit m now inp = base + a).
  { unfold eff_limit. rewrite (pr_alloc _ _ _ _ Hpr), Hreg, Hal, (proj2 (Z.leb_le _ _)) by lia.
    rewrite Eal. by rewrite (holds_getInt _ _ _ Ha). }
  assert (Hav : gl_avail (grant_algo m now inp) = base + a - u).
  { rewrite <- Eeff. apply grant_algo_avail_fixed; try done; rewrite ?Hfix, ?Ekey; try done.
    - rewrite Eeff. bounds.
    - rewrite Eal, (holds_getInt _ _ _ Ha). destruct Ha. bounds. }
  destruct (grant_input_main range range_perm m now inp u (base + a)) as (H0 & Hg & Hh');
    try done; rewrite ?Ekey; try done; try lia.
  - intros Hne [E _]%winKey_inj. revert E. rewrite <- Hk.
    destruct (pr_parent _ _ _ _ Hpr) as [[E _]|(p & _ & Hr & -> & _)]; [done|].
    apply Ref_ParentKey_ne; [apply (pr_valid _ _ _ _ Hpr)|done].
  - apply (pr_target _ _ _ _ Hpr).
  - rewrite Ekey in Hh'. exists (u + g_Granted (fst (grant_input range m now inp))), a.
    split_and!; try done; [| |].
    + eapply holds_vals; [|exact Ha].
      pose proof (grant_side range m now ref spec args (allocKey key k) Hlim) as Hs.
      unfold Mem_Grant in Hs. rewrite Hp in Hs. destruct (grant_input range m now inp).
      cbn in *. apply Hs. by apply alloc_side.
    + lia.
    + destruct (Z.eq_dec (g_Granted (fst (grant_input range m now inp))) 0); lia.
Qed.

(** Grants of other quotas, or of this one in other windows. *)
Lemma other_grant m now ref spec args inp k :
  prepare ref spec args = Ok inp → call_ok now ref spec args →
  Ref_ParentKey ref FixedWindow ≠ key →
  (Ref_Key ref (spec_Algo spec) = key → now `div` windowMs spec ≠ k) →
  vals (snd (grant_input range m now inp)) !! winKey key k = vals m !! winKey key k.
Proof using Hkey.
  intros Hp Hok Hpk Hk. pose proof Hok as (Hnow & Hwin & Hlim & _).
  pose proof (prepare_prepared ref spec args inp ltac:(bounds) Hp) as Hpr.
  apply grant_input_frame.
  - destruct (in_algo inp =? TokenBucket)%string eqn:Ha.
    + unfold grant_algo. rewrite Ha. cbn. symmetry. rewrite (pr_key _ _ _ _ Hpr).
      apply winKey_not_base, Ref_Key_base, (pr_valid _ _ _ _ Hpr).
    + rewrite grant_algo_key; [|done|rewrite (pr_win _ _ _ _ Hpr); by apply windowMs_pos|done].
      rewrite (pr_key _ _ _ _ Hpr), (pr_win _ _ _ _ Hpr). intros [E1 E2]%winKey_inj. by apply Hk.
  - intros Hne. unfold grant_parent. rewrite (proj2 (String.eqb_neq _ _)) by done. cbn.
    intros [E _]%winKey_inj. destruct (pr_parent _ _ _ _ Hpr) as [[E' _]|(p & _ & _ & E' & _)]; [done|].
    apply Hpk. by rewrite <- E', <- E.
Qed.

Lemma region_ok_vals m m' k :
  vals m' !! winKey key k = vals m !! winKey key k →
  vals m' !! allocKey key k = vals m !! allocKey key k →
  region_ok m k → region_ok m' k.
Proof.
  intros E1 E2 (u & a & Hu & Ha & Hle). exists u, a.
  split_and!; [by eapply holds_vals|by eapply holds_vals|apply Hle..].
Qed.

Lemma returns_ok m now dedupe rs k :
  Forall (λ r, 0 ≤ ret_Tokens r) rs → region_ok m k →
  region_ok (snd (Mem_Return m now dedupe rs)) k.
Proof using Hkey.
  intros Hrs. revert m. induction Hrs as [|r rs Hr _ IH]; intros m Hm; cbn [Mem_Return]; [done|].
  destruct (prepareReturn r dedupe) as [inp|] eqn:Hp; [|done]. apply IH.
  destruct Hm as (u & a & Hu & Ha & Hua & Hle).
  pose proof (prepareReturn_parent _ _ _ Hp) as Hpp.
  destruct (prepareReturn_facts _ _ _ Hp) as (Hb & Ht & _ & _ & _ & _ & Hpk).
  assert (Hz : 0 ≤ return_to key k m now inp) by (unfold return_to; repeat case_match; lia).
  destruct (return_input_effect m now inp key k u) as (u' & Hu' & Hb' & _); try done;
    [lia|destruct Hu; bounds|].
  exists u', a. split_and!; [done| |lia|lia|done].
  eapply holds_vals; [|exact Ha]. apply return_input_side; try done. by apply alloc_side.
Qed.

Lemma local_op_ok m o k :
  local_op o → edges_bounded 1099511627775 m → region_ok m k → region_ok (snd (step range m o)) k.
Proof using range_perm Hkey Hbase.
  intros Ho He Hm.
  destruct o as [now ref spec args|now dedupe rs|now now' ref spec b wid want margin id
                |now ref spec wid amount id]; cbn [step].
  - destruct Ho as (Hok & Hpk & Hmine). unfold Mem_Grant.
    destruct (prepare ref spec args) as [inp|] eqn:Hp; [|done].
    pose proof Hok as (_ & _ & Hlim & _).
    pose proof (regional_grant m now ref spec args inp k Hp Hok) as H1.
    pose proof (other_grant m now ref spec args inp k Hp Hok Hpk) as H2.
    pose proof (grant_side range m now ref spec args (allocKey key k) Hlim (alloc_side _ _ Hkey)) as H3.
    unfold Mem_Grant in H3. rewrite Hp in H3.
    destruct (grant_input range m now inp) as [g m']. cbn [fst snd] in *.
    destruct (decide (Ref_Key ref (spec_Algo spec) = key ∧ now `div` windowMs spec = k)) as [[E1 E2]|Hn].
    + destruct (Hmine E1). by apply H1.
    + eapply region_ok_vals; [apply H2|done|done]. intros E1 E2. by apply Hn.
  - pose proof (returns_ok m now dedupe rs k Ho Hm) as H. by destruct (Mem_Return m now dedupe rs).
  - destruct Ho as [Hne [Hid _]].
    pose proof (Mem_Lend_frame m now now' ref spec b wid want margin id key k Hkey Hid) as E1.
    assert (E2 : vals (snd (Mem_Lend m now now' ref spec b wid want margin id)) !! allocKey key k
                 = vals m !! allocKey key k).
    { unfold Mem_Lend. repeat case_match; try done. cbn [snd].
      rewrite vals_set_ne by (intros E; symmetry in E; revert E; by apply lendKey_allocKey_ne).
      apply vals_set_ne. by intros [E _]%allocKey_inj. }
    destruct (Mem_Lend m now now' ref spec b wid want margin id). by eapply region_ok_vals.
  - pose proof (Mem_Credit_frame m now ref spec wid amount id key k Hkey) as E1.
    assert (E2 : vals (snd (Mem_Credit m now ref spec wid amount id)) !! allocKey key k
                 = vals m !! allocKey key k).
    { unfold Mem_Credit. repeat case_match; try done. cbn [snd].
      rewrite vals_add_ne; [done|]. by intros [E _]%allocKey_inj. }
    destruct (Mem_Credit m now ref spec wid amount id). by eapply region_ok_vals.
Qed.

(** Local operations keep the loan records and forget no credit. *)
Lemma local_op_records m o :
  local_op o →
  (∀ k, vals (snd (step range m o)) !! allocKey key k = vals m !! allocKey key k) ∧
  (∀ id, id_ok id → vals (snd (step range m o)) !! lendKey key id = vals m !! lendKey key id) ∧
  deduped m ⊆ deduped (snd (step range m o)).
Proof using range_perm Hkey Hbase.
  intros Ho.
  destruct o as [now ref spec args|now dedupe rs|now now' ref spec b wid want margin id
                |now ref spec wid amount id]; cbn [step].
  - destruct Ho as ((_ & _ & Hlim & _) & _).
    pose proof (λ k, grant_side range m now ref spec args k Hlim) as Hs.
    assert (Hd : deduped (snd (Mem_Grant range m now ref spec args)) = deduped m).
    { unfold Mem_Grant. destruct (prepare ref spec args) as [inp|]; [|done].
      pose proof (grant_input_deduped range m now inp). by destruct (grant_input range m now inp). }
    destruct (Mem_Grant range m now ref spec args). cbn [snd] in *.
    split_and!; [auto with gate..|by rewrite Hd].
  - pose proof (λ k, return_side m now dedupe rs k) as Hs.
    pose proof (Mem_Return_deduped m now dedupe rs) as Hd.
    destruct (Mem_Return m now dedupe rs). cbn [snd] in *. split_and!; auto with gate.
  - destruct Ho as [Hne [Hid Hid']]. unfold Mem_Lend. split_and!; [intros k|intros id' [Hi Hi']|];
      repeat case_match; simplify_eq; try done; cbn [snd].
    + rewrite vals_set_ne by (intros E; symmetry in E; revert E; by apply lendKey_allocKey_ne).
      apply vals_set_ne. by intros [E _]%allocKey_inj.
    + rewrite vals_set_ne by (intros [E _]%lendKey_inj; done).
      apply vals_set_ne. by apply lendKey_allocKey_ne.
  - unfold Mem_Credit. split_and!; [intros k|intros id' [Hi Hi']|]; repeat case_match; simplify_eq;
      try done; cbn [snd].
    + rewrite vals_add_ne; [done|]. by intros [E _]%allocKey_inj.
    + rewrite vals_add_ne; [done|]. by apply lendKey_allocKey_ne.
    + cbn. set_solver.
Qed.
End region.

Lemma sumZ_member {A} (f : A → Z) l x : (∀ y, y ∈ l → 0 ≤ f y) → x ∈ l → f x ≤ sumZ f l.
Proof.
  intros Hf. induction l as [|y l IH]; intros Hx; [by apply elem_of_nil in Hx|].
  pose proof (sumZ_nonneg f l (λ z Hz, Hf z (list_elem_of_further _ _ _ Hz))) as Hl.
  pose proof (Hf y (list_elem_of_here _ _)) as Hy. change (sumZ f (y :: l)) with (f y + sumZ f l).
  apply elem_of_cons in Hx as [->|Hx]; [lia|].
  specialize (IH (λ z Hz, Hf z (list_elem_of_further _ _ _ Hz)) Hx). lia.
Qed.

(** One term drops by [d], none rises. *)
Lemma sumZ_drop {A} `{EqDecision A} (f f' : A → Z) l x d :
  NoDup l → x ∈ l → f' x ≤ f x - d → (∀ y, y ∈ l → f' y ≤ f y) → sumZ f' l ≤ sumZ f l - d.
Proof.
  intros Hnd Hx Hd Hle. pose (g := λ y, if decide (y = x) then f x - d else f y).
  transitivity (sumZ g l).
  - apply sumZ_le. intros y Hy. unfold g. case_decide; subst; auto.
  - rewrite (sumZ_update f g l x Hnd Hx).
    + unfold g. rewrite decide_True by done. lia.
    + intros y Hy. unfold g. by rewrite decide_False.
Qed.

(** ** The world *)

(** A transfer on its way from a lender to a borrower: the answer of the
    lender's [Borrow], by transfer id. *)
Record transfer := mkTransfer {
  tr_lender : string;
  tr_borrower : string;
  tr_wid : Z;
  tr_amount : Z;
}.

#[export] Instance transfer_eq_dec : EqDecision transfer.
Proof. solve_decision. Defined.

Record world := mkWorld {
  ledgers : string → Mem;
  transfers : gmap string transfer;
}.

Section world.
Variable range : gmap string Z → list (string * Z).
Hypothesis range_perm : ∀ s, range s ≡ₚ map_to_list s.
Variable sha256_uint64 : string → Z.
Variables (q : Z) (floors : gmap string float64) (ref : Ref) (spec : Spec).
Hypothesis Hq : 0 < q ≤ f64_max_int.
Hypothesis Hshares : shares_ok floors.
Hypothesis Hsize : (size floors ≤ 1000)%nat.
Hypothesis Hne : floors ≠ ∅.
Hypothesis Hfloors : floors_sum q floors ≤ q.
Hypothesis Hfixed : fixed spec.
Hypothesis Halgo : Algo_Valid (spec_Algo spec) = true.

Let key := Ref_Key ref (spec_Algo spec).
Let base (r : string) : Z := Base sha256_uint64 q floors r (ref_Subject ref).

Definition empty_world : world := {| ledgers := λ _, NewMem; transfers := ∅ |}.

(** The first answer with tokens stands; a repeated call cannot change it. *)
Definition record_answer (old : option transfer) (t : transfer) : transfer :=
  match old with
  | Some t0 => if 0 <? tr_amount t0 then t0 else t
  | None => t
  end.

(** One thing that can happen: a region serves a call of its edges; a lender
    answers a borrow request, a new one or a repetition; a borrower's node
    credits an answer, possibly late or more than once.  Messages that never
    arrive are steps not taken. *)
Inductive wstep (w : world) : world → Prop :=
| WServe r o :
    r ∈ Names floors → local_op key (base r) o →
    wstep w (mkWorld (<[r := snd (step range (ledgers w r) o)]> (ledgers w)) (transfers w))
| WLend lender borrower now now' wid want id give m' :
    lender ∈ Names floors → borrower ∈ Names floors → id_ok id →
    (∀ t, transfers w !! id = Some t →
      tr_lender t = lender ∧ tr_borrower t = borrower ∧ tr_wid t = wid) →
    Mem_Lend (ledgers w lender) now now' ref spec (base lender) wid want 0 id = (Ok give, m') →
    wstep w (mkWorld (<[lender := m']> (ledgers w))
      (<[id := record_answer (transfers w !! id) (mkTransfer lender borrower wid give)]> (transfers w)))
| WCredit id t now req :
    transfers w !! id = Some t →
    wstep w (mkWorld (<[tr_borrower t := snd (Node_borrow (ledgers w (tr_borrower t))
                (mkNeed ref spec (tr_wid t) req) (mkExchange id (Ok (tr_amount t)) now))]> (ledgers w))
              (transfers w)).

Inductive wreach : nat → world → Prop :=
| WInit : wreach 0 empty_world
| WStep n w w' : wreach n w → wstep w w' → wreach (S n) w'.

(** Tokens lent in window [k] and not credited yet. *)
Definition uncredited (w : world) (k : Z) (it : string * transfer) : Z :=
  if (tr_wid (snd it) =? k) &&
     negb (bool_decide (creditKey key (fst it) ∈ deduped (ledgers w (tr_borrower (snd it)))))
  then tr_amount (snd it) else 0.

Definition outstanding (w : world) (k : Z) : Z :=
  sumZ (uncredited w k) (map_to_list (transfers w)).

Definition alloc (w : world) (r : string) (k : Z) : Z :=
  Mem_getInt (ledgers w r) (allocKey key k) 0.

Record winv (n : Z) (w : world) : Prop := {
  wi_region : ∀ r k, r ∈ Names floors → region_ok key (base r) (ledgers w r) k;
  wi_sum : ∀ k, sumZ (λ r, base r + alloc w r k) (Names floors) + outstanding w k ≤ q;
  wi_record : ∀ r id v, r ∈ Names floors → id_ok id →
    vals (ledgers w r) !! lendKey key id = Some v →
    ∃ t, transfers w !! id = Some t ∧ tr_lender t = r ∧ v = f64_of_int (tr_amount t);
  wi_transfer : ∀ id t, transfers w !! id = Some t →
    id_ok id ∧ tr_lender t ∈ Names floors ∧ tr_borrower t ∈ Names floors ∧
    0 ≤ tr_amount t ≤ f64_max_int ∧
    (0 < tr_amount t → vals (ledgers w (tr_lender t)) !! lendKey key id = Some (f64_of_int (tr_amount t)));
  wi_edges : ∀ r, edges_bounded n (ledgers w r);
}.

Lemma base_range r : 0 ≤ base r ≤ f64_max_int.
Proof using Hq Hshares Hsize Hne Hfloors.
  assert (H0 : ∀ r, 0 ≤ base r) by (intros; by apply Base_nonneg).
  split; [done|]. destruct (floors !! r) as [share|] eqn:E.
  - assert (Hr : r ∈ Names floors) by (apply Names_elem; eauto).
    pose proof (Base_sum sha256_uint64 q floors (ref_Subject ref) Hq Hshares Hsize Hne) as Hs.
    fold base in Hs. pose proof (sumZ_member base (Names floors) r (λ x _, H0 x) Hr). lia.
  - unfold base, Base. rewrite E. unfold f64_max_int. lia.
Qed.

Lemma key_base : is_base key.
Proof using Halgo. by apply Ref_Key_base. Qed.

Lemma winv_empty : winv 0 empty_world.
Proof using Hq Hshares Hsize Hne Hfloors.
  split.
  - intros r k _. exists 0, 0. pose proof (base_range r).
    split_and!; try (by apply holds_empty); lia.
  - intros k. change (outstanding empty_world k) with 0.
    rewrite (sumZ_ext _ base) by (intros; unfold alloc, Mem_getInt; cbn; rewrite lookup_empty; lia).
    unfold base. rewrite Base_sum by done. lia.
  - intros r id v _ _. cbn. by rewrite lookup_empty.
  - intros id t. cbn. by rewrite lookup_empty.
  - intros r k. cbn. rewrite lookup_empty. done.
Qed.

(** Every allocation is between nothing and the whole quota. *)
Lemma outstanding_nonneg n w k : winv n w → 0 ≤ outstanding w k.
Proof.
  intros Hw. apply sumZ_nonneg. intros [id t] Ht%elem_of_map_to_list. unfold uncredited. cbn.
  destruct (_ && _); [|done]. by destruct (wi_transfer n w Hw id t Ht) as (_ & _ & _ & [? _] & _).
Qed.

Lemma uncredited_le n w w' k it :
  winv n w → transfers w !! fst it = Some (snd it) →
  (∀ r, deduped (ledgers w r) ⊆ deduped (ledgers w' r)) → uncredited w' k it ≤ uncredited w k it.
Proof.
  intros Hw Ht Hd. destruct (wi_transfer n w Hw _ _ Ht) as (_ & _ & _ & [? _] & _).
  unfold uncredited. destruct (tr_wid (snd it) =? k); cbn [andb]; [|done].
  specialize (Hd (tr_borrower (snd it))).
  destruct (bool_decide_reflect (creditKey key (fst it) ∈ deduped (ledgers w (tr_borrower (snd it))))) as [H1|H1];
  destruct (bool_decide_reflect (creditKey key (fst it) ∈ deduped (ledgers w' (tr_borrower (snd it))))) as [H2|H2];
    cbn [negb]; try done. by destruct H2; apply Hd.
Qed.

Lemma upd_ledger (l : string → Mem) r m r' :
  (<[r := m]> l) r' = if decide (r' = r) then m else l r'.
Proof.
  case_decide as E; [subst; apply fn_lookup_insert|]. apply fn_lookup_insert_ne. congruence.
Qed.

Lemma winv_serve n w r o :
  winv n w → n ≤ 1099511627775 → r ∈ Names floors → local_op key (base r) o →
  winv (n + 1) (mkWorld (<[r := snd (step range (ledgers w r) o)]> (ledgers w)) (transfers w)).
Proof using range_perm Hq Hshares Hsize Hne Hfloors Halgo.
  intros Hw Hn Hr Ho.
  pose proof (local_op_records range range_perm key key_base (base r) (base_range r) (ledgers w r) o Ho)
    as (Ha & Hl & Hd).
  split; cbn [ledgers transfers].
  - intros r' k Hr'. rewrite upd_ledger. case_decide as E; [subst r'|by apply (wi_region n)].
    apply local_op_ok; try done; [apply key_base|apply base_range| |by apply (wi_region n)].
    intros x. pose proof (wi_edges n w Hw r x). lia.
  - intros k. pose proof (wi_sum n w Hw k) as Hs.
    assert (Hout : outstanding (mkWorld (<[r := snd (step range (ledgers w r) o)]> (ledgers w))
                     (transfers w)) k ≤ outstanding w k).
    { apply sumZ_le. intros [id t] Ht%elem_of_map_to_list. apply (uncredited_le n); [done..|].
      intros r'. cbn. rewrite upd_ledger. by case_decide; subst. }
    rewrite (sumZ_ext _ (λ r, base r + alloc w r k)); [lia|].
    intros r' _. unfold alloc. cbn. rewrite upd_ledger. case_decide; subst; [|done].
    unfold Mem_getInt. by rewrite Ha.
  - intros r' id v Hr' Hid. rewrite upd_ledger.
    case_decide; subst; [rewrite Hl by done|]; by apply (wi_record n).
  - intros id t Ht. destruct (wi_transfer n w Hw id t Ht) as (Hid & H1 & H2 & H3 & H4).
    split_and!; try done; try lia. intros Hpos. rewrite upd_ledger.
    case_decide as E; [rewrite Hl by done; rewrite <- E|]; by apply H4.
  - intros r'. rewrite upd_ledger. case_decide; subst.
    + by apply step_edges, (wi_edges n).
    + intros x. pose proof (wi_edges n w Hw r' x). lia.
Qed.

Lemma borrow_effect m need e m' amount :
  Node_borrow m need e = m' → ex_resp e = Ok amount →
  Algo_Or (spec_Algo (need_Spec need)) = FixedWindow →
  let k := Ref_Key (need_Ref need) (spec_Algo (need_Spec need)) in
  snd m' = m ∨
  (0 < amount ∧ creditKey k (ex_id e) ∉ deduped m ∧
   snd m' = add_val (allocKey k (need_Window need)) (f64_of_int amount)
              (mark_deduped (creditKey k (ex_id e)) m)).
Proof.
  intros <- Hr Hf k. unfold Node_borrow. rewrite Hr. destruct (Z.leb_spec amount 0); [by left|].
  cbn [snd]. unfold Mem_Credit. rewrite Hf. change (negb (FixedWindow =? FixedWindow)%string) with false.
  cbn iota. destruct (negb _); [by left|]. fold k. case_bool_decide; [by left|right]. split_and!; auto.
Qed.

Lemma winv_ext n w w' :
  winv n w → (∀ r, ledgers w' r = ledgers w r) → transfers w' = transfers w → winv (n + 1) w'.
Proof using Hsize.
  intros [H1 H2 H3 H4 H5] El Et. split.
  - intros r k. rewrite El. apply H1.
  - intros k. rewrite (sumZ_ext _ (λ r, base r + alloc w r k)) by (intros; unfold alloc; by rewrite El).
    assert (E : outstanding w' k = outstanding w k); [|rewrite E; apply H2].
    unfold outstanding. rewrite Et. apply sumZ_ext. intros [id t] _. unfold uncredited. by rewrite El.
  - intros r id v. rewrite El, Et. apply H3.
  - intros id t. rewrite Et, El. apply H4.
  - intros r x. rewrite El. pose proof (H5 r x). lia.
Qed.

Lemma room n w id t :
  winv n w → transfers w !! id = Some t → creditKey key id ∉ deduped (ledgers w (tr_borrower t)) →
  base (tr_borrower t) + alloc w (tr_borrower t) (tr_wid t) + tr_amount t ≤ q.
Proof using Hq Hshares Hsize Hne Hfloors.
  intros Hw Ht Hd. pose proof (wi_sum n w Hw (tr_wid t)) as Hs.
  destruct (wi_transfer n w Hw id t Ht) as (_ & _ & Hb & _).
  assert (H1 : base (tr_borrower t) + alloc w (tr_borrower t) (tr_wid t) ≤
    sumZ (λ r, base r + alloc w r (tr_wid t)) (Names floors)).
  { apply (sumZ_member (λ r, base r + alloc w r (tr_wid t))); [|done]. intros r Hr.
    destruct (wi_region n w Hw r (tr_wid t) Hr) as (u & a & _ & Ha & Hua & _).
    unfold alloc. rewrite (holds_getInt _ _ _ Ha). lia. }
  assert (H2 : uncredited w (tr_wid t) (id, t) ≤ outstanding w (tr_wid t)).
  { apply sumZ_member; [|by apply elem_of_map_to_list].
    intros [id' t'] Ht'%elem_of_map_to_list. unfold uncredited. destruct (_ && _); [|done].
    by destruct (wi_transfer n w Hw id' t' Ht') as (_ & _ & _ & [? _] & _). }
  unfold uncredited in H2. cbn in H2. rewrite Z.eqb_refl, bool_decide_eq_false_2 in H2 by done.
  cbn in H2. lia.
Qed.

Lemma winv_credit n w id t now req :
  winv n w → transfers w !! id = Some t →
  winv (n + 1) (mkWorld (<[tr_borrower t := snd (Node_borrow (ledgers w (tr_borrower t))
                (mkNeed ref spec (tr_wid t) req) (mkExchange id (Ok (tr_amount t)) now))]> (ledgers w))
              (transfers w)).
Proof using All.
  intros Hw Ht. set (b := tr_borrower t). set (m := ledgers w b).
  destruct (borrow_effect m (mkNeed ref spec (tr_wid t) req) (mkExchange id (Ok (tr_amount t)) now)
    _ (tr_amount t) eq_refl eq_refl Hfixed) as [E|(Hpos & Hd & E)]; rewrite E.
  { apply (winv_ext n w); [done| |done]. intros r. cbn. rewrite upd_ledger. by case_decide; subst. }
  cbn [need_Ref need_Spec need_Window ex_id] in Hd |- *. fold key in Hd |- *. clear E.
  pose proof (room n w id t Hw Ht Hd) as Hroom. fold b in Hroom.
  destruct (wi_transfer n w Hw id t Ht) as (Hid & Hlen & Hb & Ham & Hlent). fold b in Hb.
  destruct (wi_region n w Hw b (tr_wid t) Hb) as (u & a & Hu & Ha & Hua & Hle). fold m in Hu, Ha.
  assert (Ealloc : alloc w b (tr_wid t) = a) by exact (holds_getInt _ _ _ Ha).
  pose proof (base_range b) as Hbr. rewrite Ealloc in Hroom.
  set (m' := add_val _ _ _).
  assert (Ha' : holds m' (allocKey key (tr_wid t)) (a + tr_amount t)).
  { unfold m'. destruct Ha as [Ha Has]. apply holds_add; [by split|bounds|bounds]. }
  assert (Hv : ∀ k, k ≠ allocKey key (tr_wid t) → vals m' !! k = vals m !! k).
  { intros k Hk. unfold m'. rewrite vals_add_ne by done. done. }
  split; cbn [ledgers transfers].
  - intros r k Hr. rewrite upd_ledger. case_decide as Er; [subst r|by apply (wi_region n)].
    destruct (decide (k = tr_wid t)) as [->|Hk].
    + exists u, (a + tr_amount t). split_and!; [|done|lia..].
      eapply holds_vals; [apply Hv, allocKey_winKey_ne, key_base|done].
    + eapply region_ok_vals; [apply Hv, allocKey_winKey_ne, key_base| |by apply (wi_region n)].
      apply Hv. by intros [_ ?]%allocKey_inj.
  - intros k. pose proof (wi_sum n w Hw k) as Hs.
    set (w' := mkWorld _ _). set (d := if decide (k = tr_wid t) then tr_amount t else 0).
    assert (Hout : outstanding w' k ≤ outstanding w k - d).
    { apply (sumZ_drop _ _ _ (id, t)); [apply NoDup_map_to_list|by apply elem_of_map_to_list| |].
      - unfold uncredited, w'. cbn. fold b. rewrite upd_ledger, decide_True by done.
        rewrite (bool_decide_eq_true_2 (_ ∈ deduped m')) by (cbn; set_solver).
        fold m. rewrite (bool_decide_eq_false_2 (_ ∈ deduped m)) by done. rewrite andb_false_r. cbn.
        rewrite andb_true_r. unfold d. destruct (Z.eqb_spec (tr_wid t) k); case_decide; lia.
      - intros [id' t'] Ht'%elem_of_map_to_list. apply (uncredited_le n); [done..|].
        intros r. cbn. rewrite upd_ledger. case_decide; subst; [|done]. cbn. fold m. set_solver. }
    assert (Hall : sumZ (λ r, base r + alloc w' r k) (Names floors) =
                   sumZ (λ r, base r + alloc w r k) (Names floors) + d); [|lia].
    rewrite (sumZ_update (λ r, base r + alloc w r k) _ _ b (Names_NoDup floors) Hb).
    + assert (Ed : alloc w' b k = alloc w b k + d); [|lia].
      unfold alloc, w'. cbn. rewrite upd_ledger, decide_True by done. fold m. unfold d.
      case_decide as Ek; [subst k; by rewrite (holds_getInt _ _ _ Ha'), (holds_getInt _ _ _ Ha)|].
      unfold Mem_getInt. rewrite Hv by (by intros [_ ?]%allocKey_inj). case_match; lia.
    + intros r Hr. unfold alloc, w'. cbn. by rewrite upd_ledger, decide_False.
  - intros r id' v Hr Hid'. rewrite upd_ledger. case_decide; subst; [|by apply (wi_record n)].
    rewrite Hv by (intros E; symmetry in E; revert E; by apply lendKey_allocKey_ne, Hid').
    by apply (wi_record n).
  - intros id' t' Ht'. destruct (wi_transfer n w Hw id' t' Ht') as (Hi & H1 & H2 & H3 & H4).
    split_and!; try done; try lia. intros Hp. rewrite upd_ledger. case_decide as E; [|by apply H4].
    rewrite Hv by (intros E'; symmetry in E'; revert E'; by apply lendKey_allocKey_ne, Hi).
    unfold m. rewrite <- E. by apply H4.
  - intros r x. rewrite upd_ledger. case_decide; subst; [|pose proof (wi_edges n w Hw r x); lia].
    change (edges m') with (edges (ledgers w b)). pose proof (wi_edges n w Hw b x). lia.
Qed.

(** Recording an answer adds at most its tokens to those outstanding. *)
Lemma outstanding_record w l id t k :
  (∀ r, deduped (l r) = deduped (ledgers w r)) → 0 ≤ tr_amount t →
  (∀ t0, transfers w !! id = Some t0 → tr_amount t0 = 0) →
  outstanding (mkWorld l (<[id := t]> (transfers w))) k ≤
  outstanding w k + if decide (k = tr_wid t) then tr_amount t else 0.
Proof using All.
  intros Hd Ham H0. unfold outstanding. cbn [transfers].
  rewrite sumZ_map_insert, (sumZ_map_delete (uncredited w k) (transfers w) id).
  rewrite (sumZ_ext (uncredited (mkWorld l (<[id := t]> (transfers w))) k) (uncredited w k)).
  2:{ intros [id' t'] _. unfold uncredited. cbn. by rewrite Hd. }
  assert (E0 : match transfers w !! id with Some x => uncredited w k (id, x) | None => 0 end = 0).
  { destruct (transfers w !! id) as [t0|]; [|done]. unfold uncredited. cbn. rewrite (H0 t0 eq_refl).
    by destruct (_ && _). }
  rewrite E0. unfold uncredited at 1. cbn [fst snd].
  destruct (Z.eqb_spec (tr_wid t) k); cbn [andb]; case_decide; try lia; destruct (negb _); lia.
Qed.

Lemma winv_record n w lender borrower wid id give m' u a :
  let m := ledgers w lender in
  winv n w → lender ∈ Names floors → borrower ∈ Names floors → id_ok id →
  (∀ t0, transfers w !! id = Some t0 → tr_amount t0 = 0 ∧ tr_lender t0 = lender) →
  holds m (winKey key wid) u → holds m (allocKey key wid) a →
  0 ≤ u ≤ base lender + a - give → base lender + a ≤ f64_max_int → 0 ≤ give →
  holds m' (allocKey key wid) (a - give) →
  (∀ k, k ≠ allocKey key wid → k ≠ lendKey key id → vals m' !! k = vals m !! k) →
  (∀ v, vals m' !! lendKey key id = Some v → v = f64_of_int give) →
  (0 < give → vals m' !! lendKey key id = Some (f64_of_int give)) →
  deduped m' = deduped m → edges m' = edges m →
  winv (n + 1) (mkWorld (<[lender := m']> (ledgers w))
    (<[id := mkTransfer lender borrower wid give]> (transfers w))).
Proof using All.
  intros m Hw Hl Hb Hid H0 Hu Ha Hua Hle Hg Ha' Hv Hl1 Hl2 Hd He.
  pose proof key_base as Hkb. pose proof (base_range lender) as Hbr.
  assert (Hwin : ∀ k, vals m' !! winKey key k = vals m !! winKey key k).
  { intros k. apply Hv; [by apply allocKey_winKey_ne|]. apply lendKey_winKey_ne; [done|apply Hid]. }
  assert (Hal : ∀ k, k ≠ wid → vals m' !! allocKey key k = vals m !! allocKey key k).
  { intros k Hk. apply Hv; [by intros [_ ?]%allocKey_inj|]. apply lendKey_allocKey_ne, Hid. }
  assert (Hle' : ∀ id', id_ok id' → id' ≠ id → vals m' !! lendKey key id' = vals m !! lendKey key id').
  { intros id' Hi Hne'. apply Hv.
    - intros E. symmetry in E. revert E. apply lendKey_allocKey_ne, Hi.
    - intros [_ ?]%lendKey_inj; [done|apply Hi|apply Hid]. }
  split; cbn [ledgers transfers].
  - intros r k Hr. rewrite upd_ledger. case_decide as Er; [subst r|by apply (wi_region n)].
    destruct (decide (k = wid)) as [->|Hk].
    + exists u, (a - give). split_and!; [by eapply holds_vals; [apply Hwin|]|done|lia..].
    + eapply region_ok_vals; [apply Hwin|by apply Hal|by apply (wi_region n)].
  - intros k. pose proof (wi_sum n w Hw k) as Hs. set (w' := mkWorld _ _).
    set (d := if decide (k = wid) then give else 0).
    assert (Hout : outstanding w' k ≤ outstanding w k + d).
    { apply (outstanding_record w _ id (mkTransfer lender borrower wid give) k); [|done|by intros t0 [? _]%H0].
      intros r. rewrite upd_ledger. by case_decide; subst. }
    assert (Hall : sumZ (λ r, base r + alloc w' r k) (Names floors) =
                   sumZ (λ r, base r + alloc w r k) (Names floors) - d); [|lia].
    rewrite (sumZ_update (λ r, base r + alloc w r k) _ _ lender (Names_NoDup floors) Hl).
    + assert (Ed : alloc w' lender k = alloc w lender k - d); [|lia].
      unfold alloc, w'. cbn. rewrite upd_ledger, decide_True by done. fold m. unfold d.
      case_decide as Ek; [subst k; by rewrite (holds_getInt _ _ _ Ha'), (holds_getInt _ _ _ Ha)|].
      unfold Mem_getInt. rewrite Hal by done. case_match; lia.
    + intros r Hr. unfold alloc, w'. cbn. by rewrite upd_ledger, decide_False.
  - intros r id' v Hr Hi. rewrite upd_ledger. destruct (decide (id' = id)) as [->|Hne'].
    + rewrite lookup_insert_eq. intros Hval. eexists. split; [done|].
      case_decide as Er; [subst r; split; [done|by apply Hl1]|].
      destruct (wi_record n w Hw r id v Hr Hi Hval) as (t0 & Ht0 & Hlt0 & ->).
      destruct (H0 t0 Ht0) as [_ Hl0]. destruct Er. congruence.
    + rewrite lookup_insert_ne by done. case_decide; subst; [rewrite Hle' by done|];
        by apply (wi_record n).
  - intros id' t'. rewrite lookup_insert. case_decide as Ei.
    + subst id'. intros [= <-]. cbn. rewrite upd_ledger, decide_True by done.
      split_and!; try done; lia.
    + intros Ht'. destruct (wi_transfer n w Hw id' t' Ht') as (Hi & H1 & H2 & H3 & H4).
      split_and!; try done; try lia. intros Hp. rewrite upd_ledger. case_decide as E; [|by apply H4].
      rewrite Hle' by done. unfold m. rewrite <- E. by apply H4.
  - intros r x. rewrite upd_ledger. case_decide; subst; [|pose proof (wi_edges n w Hw r x); lia].
    rewrite He. pose proof (wi_edges n w Hw lender x). unfold m. lia.
Qed.

Lemma winv_lend n w lender borrower now now' wid want id give m' :
  winv n w → lender ∈ Names floors → borrower ∈ Names floors → id_ok id →
  (∀ t, transfers w !! id = Some t →
      tr_lender t = lender ∧ tr_borrower t = borrower ∧ tr_wid t = wid) →
  Mem_Lend (ledgers w lender) now now' ref spec (base lender) wid want 0 id = (Ok give, m') →
  winv (n + 1) (mkWorld (<[lender := m']> (ledgers w))
      (<[id := record_answer (transfers w !! id) (mkTransfer lender borrower wid give)]> (transfers w))).
Proof using All.
  intros Hw Hl Hb Hid Hsame E.
  destruct (wi_region n w Hw lender wid Hl) as (u & a & Hu & Ha & Hua & Hle).
  destruct (Mem_Lend_effect (ledgers w lender) now now' ref spec (base lender) wid want id u a
    Hfixed (base_range lender) Hu Ha Hua Hle) as (give' & m'' & E' & Heff).
  rewrite E in E'. injection E' as <- <-. fold key in Heff.
  assert (Hcase : (∃ t0, transfers w !! id = Some t0 ∧ 0 < tr_amount t0) ∨
                  ∀ t0, transfers w !! id = Some t0 → tr_amount t0 ≤ 0).
  { destruct (transfers w !! id) as [t0|]; [|by right].
    destruct (Z.le_gt_cases (tr_amount t0) 0); [right; by intros ? [= <-]|left; by exists t0]. }
  destruct Hcase as [(t0 & Ht0 & Hpos)|Hno].
  { destruct (Hsame t0 Ht0) as (El & _). rewrite Ht0. cbn [record_answer].
    rewrite (proj2 (Z.ltb_lt _ _) Hpos), insert_id by done.
    destruct (wi_transfer n w Hw id t0 Ht0) as (_ & _ & _ & _ & Hst). specialize (Hst Hpos).
    assert (m' = ledgers w lender) as ->.
    { rewrite El in Hst. by inversion Heff; simplify_map_eq. }
    apply (winv_ext n w); [done| |done]. intros r. cbn. rewrite upd_ledger. by case_decide; subst. }
  assert (H0 : ∀ t0, transfers w !! id = Some t0 → tr_amount t0 = 0 ∧ tr_lender t0 = lender).
  { intros t0 Ht0. destruct (wi_transfer n w Hw id t0 Ht0) as (_ & _ & _ & Ham & _).
    destruct (Hsame t0 Ht0). specialize (Hno t0 Ht0). split; [lia|done]. }
  assert (record_answer (transfers w !! id) (mkTransfer lender borrower wid give)
          = mkTransfer lender borrower wid give) as ->.
  { destruct (transfers w !! id) as [t0|] eqn:Et; [|done]. cbn [record_answer]. destruct (H0 t0 eq_refl) as [-> _]. done. }
  assert (Hst : ∀ v, vals (ledgers w lender) !! lendKey key id = Some v → v = f64_of_int 0).
  { intros v Hv. destruct (wi_record n w Hw lender id v Hl Hid Hv) as (t0 & Ht0 & _ & ->).
    by destruct (H0 t0 Ht0) as [-> _]. }
  destruct Heff as [|v Hv|give Hnone Hg Hug].
  - apply (winv_record n w lender borrower wid id 0 _ u a); rewrite ?Z.sub_0_r; try done; lia.
  - rewrite (Hst v Hv) in *. change (f64_to_int (f64_of_int 0)) with 0.
    apply (winv_record n w lender borrower wid id 0 _ u a); rewrite ?Z.sub_0_r; try done; lia.
  - pose proof (base_range lender). assert (Hne' : lendKey key id ≠ allocKey key wid).
    { intros E'. symmetry in E'. revert E'. apply lendKey_allocKey_ne, Hid. }
    apply (winv_record n w lender borrower wid id give _ u a); try done; try lia.
    + eapply holds_vals; [by apply vals_set_ne|]. destruct Ha. apply holds_set. bounds.
    + intros k Hk1 Hk2. rewrite !vals_set_ne by done. done.
    + intros v. cbn. rewrite lookup_insert_eq. by intros [= <-].
    + intros _. cbn. by rewrite lookup_insert_eq.
Qed.

Lemma winv_reach n w : wreach n w → Z.of_nat n ≤ 1099511627775 → winv (Z.of_nat n) w.
Proof using All.
  induction 1 as [|n w w' Hw IH Hs]; intros Hn; [apply winv_empty|].
  rewrite Nat2Z.inj_succ, <- Z.add_1_r. specialize (IH ltac:(lia)).
  destruct Hs; [apply winv_serve|by eapply winv_lend|by apply winv_credit]; (done || lia).
Qed.
End world.

(** Tokens used of the quota in window [k], over all regions. *)
Definition used_everywhere (floors : gmap string float64) (ref : Ref) (spec : Spec) (w : world) (k : Z) : Z :=
  sumZ (λ r, Mem_getInt (ledgers w r) (winKey (Ref_Key ref (spec_Algo spec)) k) 0) (Names floors).



(** Two regions with a quarter each; the rest belongs to the subject's home.
    One grants, borrows from the other, and grants again. *)
Module Example_regions.

Definition sha (s : string) : Z := Z.of_nat (String.length s).
Definition quarter : float64 := f64_dyadic 1 (-2).
Definition floors : gmap string float64 := {["eu" := quarter; "us" := quarter]}.
Definition ref := mkRef "default" "api" "" "alice" "".
Definition spec := mkSpec FixedWindow 100 Minute f64_zero.
Definition t0 : Z := 1700000000123.
Definition wid : Z := 28333333.
Definition base (r : string) : Z := Base sha 100 floors r "alice".
Definition grant (r : string) (now n : Z) : op :=
  OpGrant now ref spec (mkGrantArgs n "edge-1" Second f64_zero 0 0 None true (base r)).

Definition w0 := empty_world.
Definition w1 := mkWorld (<["us" := snd (step map_to_list (ledgers w0 "us") (grant "us" t0 20))]>
                   (ledgers w0)) (transfers w0).
Definition lent := Mem_Lend (ledgers w1 "eu") (t0 + 100) (t0 + 100) ref spec (base "eu") wid 25 0 "ab12".
Definition w2 := mkWorld (<["eu" := snd lent]> (ledgers w1))
  (<["ab12" := record_answer (transfers w1 !! "ab12") (mkTransfer "eu" "us" wid 25)]> (transfers w1)).
Definition req := mkBorrowRequest "default" "api" "alice" "" "" wid 25 "ab12" "us".
Definition w3 := mkWorld (<["us" := snd (Node_borrow (ledgers w2 "us") (mkNeed ref spec wid req)
                   (mkExchange "ab12" (Ok 25) (t0 + 200)))]> (ledgers w2)) (transfers w2).
Definition w4 := mkWorld (<["us" := snd (step map_to_list (ledgers w3 "us") (grant "us" (t0 + 300) 30))]>
                   (ledgers w3)) (transfers w3).

Lemma grant_local r now n :
  clock_ok now → local_op (Ref_Key ref FixedWindow) (base r) (grant r now n).
Proof.
  intros Hn. split_and!; cbn; try done.
Qed.

Lemma in_names r : bool_decide (r ∈ Names floors) = true → r ∈ Names floors.
Proof. apply bool_decide_eq_true_1. Qed.

Lemma reach4 : wreach map_to_list sha 100 floors ref spec 4 w4.
Proof.
  eapply (WStep _ _ _ _ _ _ 3 w3); [eapply (WStep _ _ _ _ _ _ 2 w2);
    [eapply (WStep _ _ _ _ _ _ 1 w1); [eapply (WStep _ _ _ _ _ _ 0 w0); [apply WInit|]|]|]|].
  - apply WServe; [apply in_names; vm_compute; reflexivity|apply grant_local; unfold t0; bounds].
  - apply (WLend _ _ _ _ _ _ w1 "eu" "us" (t0 + 100) (t0 + 100) wid 25 "ab12" 25 (snd lent));
      [apply in_names; vm_compute; reflexivity..|split; no_char| |vm_compute; reflexivity].
    change (transfers w1) with (∅ : gmap string transfer). intros t. by rewrite lookup_empty.
  - apply (WCredit _ _ _ _ _ _ w2 "ab12" (mkTransfer "eu" "us" wid 25) (t0 + 200) req).
    vm_compute. reflexivity.
  - apply WServe; [apply in_names; vm_compute; reflexivity|apply grant_local; unfold t0; bounds].
Qed.

Lemma shares : shares_ok floors.
Proof.
  intros r share. unfold floors. rewrite lookup_insert, lookup_singleton.
  repeat case_decide; intros [= <-]; split; by vm_compute.
Qed.

End Example_regions.

