(* ===== verification/Limiter.v ===== *)
(** * Admission ([packages/limiter]): requests, decisions, the local limiters

    [limiter.go] (requests, decisions, windows and the table of per-key state),
    [local.go] (the in-process fixed window), [concurrency.go] (in-flight
    caps), [redis_counter.go] (the central counter), and the interface
    [Limiter] that [Reserve] and [Fallback] are written against.

    Per-key state lives in objects that decisions point to, and a table may
    forget a key while a decision still holds its object; so a table maps keys
    to positions in a list of all objects ever made, and a decision holds the
    position.  Methods take the wall clock readings they make, in
    milliseconds. *)

From S2P Require Import Prelude Float64.
From Stdlib Require Import Ascii.

Local Open Scope Z_scope.

(** ** Requests and decisions ([limiter.go]) *)

Record Request := mkRequest {
  rq_Scope : string;
  rq_Service : string;
  rq_LimitID : string;
  rq_Key : string;
  rq_Tier : string;
  rq_Org : string;
  rq_Limit : Z;
  rq_Cost : Z;
  rq_Window : Z; (* time.Duration *)
  rq_Algo : string;
  rq_LeaseSize : Z;
  rq_Shadow : bool;
  rq_MaxDebt : Z;
}.

(** What an admitted decision re-charges: the object it points to. *)
Inductive adjuster :=
| AdjHeld (c : nat) (h : nat) (* a held of a lease counter *)
| AdjWindow (w : nat).        (* a window of the local limiter *)

Record Decision := mkDecision {
  d_Allowed : bool;
  d_Limit : Z;
  d_Remaining : Z;
  d_ResetAt : option Z; (* None: the zero time *)
  d_Fallback : bool;
  d_Window : Z;
  d_retry : option Z;
  d_adj : option adjuster;
  d_gen : Z;
  d_maxDebt : Z;
}.

(** [Decision{}], and one that only reports a limit. *)
Definition zero_decision : Decision := mkDecision false 0 0 None false 0 None None 0 0.

Definition denied (limit : Z) (resetAt : option Z) : Decision :=
  mkDecision false limit 0 resetAt false 0 None None 0 0.

Definition Decision_RetryAt (d : Decision) : option Z :=
  match d_retry d with
  | Some t => Some t
  | None => d_ResetAt d
  end.

Inductive lerror := ErrUnavailable | ErrRejected | ErrContext.

Definition stateKey (req : Request) : string :=
  rq_Scope req +:+ String "000" (rq_Service req +:+ String "000" (rq_LimitID req +:+
    String "000" (rq_Key req))).

(** The end of the epoch-aligned window containing [now]; none without a
    period. *)
Definition windowEnd (period now : Z) : option Z :=
  let ms := Milliseconds period in
  if ms <=? 0 then None else Some ((now / ms + 1) * ms)%i64.

(** ** The table of per-key state *)

Record table (T : Type) := mkTable {
  tb_m : gmap string nat;
  tb_objs : list T;
}.
Arguments mkTable {T}.
Arguments tb_m {T}.
Arguments tb_objs {T}.

Definition empty_table {T} : table T := mkTable ∅ [].

(** The object of a key, made by [init] when there is none. *)
Definition table_get {T} (t : table T) (key : string) (init : T) : nat * table T :=
  match tb_m t !! key with
  | Some i => (i, t)
  | None => let i := length (tb_objs t) in
            (i, mkTable (<[key := i]> (tb_m t)) (tb_objs t ++ [init]))
  end.

Definition table_obj {T} (t : table T) (i : nat) : option T := tb_objs t !! i.

Definition table_set {T} (t : table T) (i : nat) (v : T) : table T :=
  mkTable (tb_m t) (<[i := v]> (tb_objs t)).

Definition table_evict {T} (t : table T) (drop : T → bool) : table T :=
  mkTable (filter (λ kv, match tb_objs t !! snd kv with
                         | Some v => drop v | None => false end = false) (tb_m t))
          (tb_objs t).

(** ** Windows *)

Record window := mkWindow {
  wd_id : Z;
  wd_consumed : Z;
  wd_lastSeen : Z;
}.

Definition roll (w : window) (period now : Z) : option Z * bool * window :=
  let ms := Milliseconds period in
  if ms <=? 0 then (None, false, mkWindow (wd_id w) (wd_consumed w) now)
  else
    let id := (now / ms)%i64 in
    let end_ := ((id + 1) * ms)%i64 in
    if wd_id w =? id then (Some end_, false, mkWindow (wd_id w) (wd_consumed w) now)
    else (Some end_, true, mkWindow id 0 now).

(** ** The local limiter ([local.go]) *)

Definition Local := table window.

Definition window_allow (w : window) (i : nat) (req : Request) (now : Z) : Decision * window :=
  let cost := Z.max (rq_Cost req) 1 in
  let '(end_, _, w) := roll w (rq_Window req) now in
  let used := (wd_consumed w + cost)%i64 in
  if rq_Limit req <? used then
    let w := mkWindow (wd_id w) (used - cost)%i64 (wd_lastSeen w) in
    (mkDecision false (rq_Limit req) (Z.max 0 (rq_Limit req - wd_consumed w)%i64) end_
       false 0 None None 0 0, w)
  else
    (mkDecision true (rq_Limit req) (rq_Limit req - used)%i64 end_ false 0 None
       (Some (AdjWindow i)) (wd_id w) 0,
     mkWindow (wd_id w) used (wd_lastSeen w)).

Definition Local_Allow (l : Local) (req : Request) (now : Z) : Decision * Local :=
  let '(i, l) := table_get l (stateKey req) (mkWindow 0 0 0) in
  match table_obj l i with
  | Some w => let '(d, w) := window_allow w i req now in (d, table_set l i w)
  | None => (zero_decision, l) (* unreachable: the table's entries are objects *)
  end.

Definition window_adjust (w : window) (gen delta : Z) : window :=
  if (wd_id w =? gen) || (0 <? delta)
  then mkWindow (wd_id w) (wd_consumed w + delta)%i64 (wd_lastSeen w) else w.

Definition Local_adjust (l : Local) (i : nat) (gen delta : Z) : Local :=
  match table_obj l i with
  | Some w => table_set l i (window_adjust w gen delta)
  | None => l
  end.

(** One sweep: forget the keys not seen since [cutoff]. *)
Definition Local_evict (l : Local) (cutoff : Z) : Local :=
  table_evict l (λ w, wd_lastSeen w <? cutoff).

(** ** In-flight caps ([concurrency.go]) *)

Definition Concurrency := table Z.

(** [Acquire]: the slot's object when one was free. *)
Definition Concurrency_Acquire (c : Concurrency) (key : string) (limit : Z)
  : option nat * Concurrency :=
  let '(i, c) := table_get c key 0 in
  match table_obj c i with
  | Some n =>
      let n' := (n + 1)%i64 in
      if limit <? n' then (None, table_set c i (n' - 1)%i64)
      else (Some i, table_set c i n')
  | None => (None, c)
  end.

(** The release function [Acquire] returns. *)
Definition Concurrency_release (c : Concurrency) (i : nat) : Concurrency :=
  match table_obj c i with
  | Some n => table_set c i (n - 1)%i64
  | None => c
  end.

Definition Concurrency_evict (c : Concurrency) : Concurrency := table_evict c (λ n, n =? 0).

(** ** The central counter ([redis_counter.go]) *)

(** The script: add, and take back when that exceeds the limit. *)
Definition counterLua (store : gmap string Z) (key : string) (cost limit : Z)
  : Z * Z * gmap string Z :=
  let used := default 0 (store !! key) + cost in
  if limit <? used then (0, used - cost, <[key := used - cost]> store)
  else (1, used, <[key := used]> store).

Definition RedisCounter_key (req : Request) (id : Z) : string :=
  "counter:{" +:+ stateKey req +:+ "}:" +:+ itoa id.

Definition RedisCounter_Allow (store : gmap string Z) (req : Request) (now : Z)
  : Decision * gmap string Z :=
  let cost := Z.max (rq_Cost req) 1 in
  let win := Z.max (rq_Window req) Second in
  let id := (now / Milliseconds win)%i64 in
  let '(ok, used, store) := counterLua store (RedisCounter_key req id) cost (rq_Limit req) in
  (mkDecision (ok =? 1) (rq_Limit req) (Z.max 0 (rq_Limit req - used)%i64) (windowEnd win now)
     false id None None 0 0, store).
