(* ===== verification/Wire.v ===== *)
(** * Messages between edges and the hub ([api/proto], [packages/common/types])

    The lease messages as the generated Go structs carry them, the checks the
    hub makes on a request before it looks anything up
    ([quota_lease_validation.go]), and gRPC status codes. *)

From S2P Require Import Prelude Float64.

Local Open Scope Z_scope.

Record QuotaLeaseRequest := mkQuotaLeaseRequest {
  ql_Prefix : string;
  ql_ServiceId : string;
  ql_ApiKey : string;
  ql_RequestedTokens : Z;
  ql_TierId : string;
  ql_LimitId : string;
  ql_EdgeId : string;
  ql_ObservedRate : float64;
  ql_Org : string;
}.

Record QuotaLeaseResponse := mkQuotaLeaseResponse {
  qr_GrantedTokens : Z;
  qr_LeaseTtlSeconds : Z;
  qr_RemainingGlobal : Z;
  qr_WaitingForCapacity : bool;
  qr_RetryAfterMs : Z;
  qr_WindowId : Z;
  qr_ExpiresInMs : Z;
  qr_ResetInMs : Z;
  qr_ActiveEdges : Z;
  qr_ParentWindowId : Z;
  qr_Limit : Z;
}.

Record LeaseReturn := mkLeaseReturn {
  lr_Prefix : string;
  lr_ServiceId : string;
  lr_ApiKey : string;
  lr_LimitId : string;
  lr_TierId : string;
  lr_Org : string;
  lr_WindowId : Z;
  lr_ParentWindowId : Z;
  lr_Tokens : Z;
}.

Record ReturnLeasesRequest := mkReturnLeasesRequest {
  rl_EdgeId : string;
  rl_Dedupe : string;
  rl_Returns : list LeaseReturn;
}.

(** The gRPC codes the code distinguishes. *)
Inductive code :=
| InvalidArgument | NotFound | PermissionDenied | FailedPrecondition
| Unavailable | Unimplemented | Internal | DeadlineExceeded | Unknown.

Record status := mkStatus { st_code : code; st_msg : string }.

Definition QuotaLeaseRequest_Validate (r : QuotaLeaseRequest) : option string :=
  if (ql_Prefix r =? "")%string then Some "prefix is required"
  else if (ql_ServiceId r =? "")%string then Some "service_id is required"
  else if (ql_ApiKey r =? "")%string then Some "api_key is required"
  else if ql_RequestedTokens r <=? 0 then Some "requested_tokens must be > 0"
  else None.
