(* ===== verification/Lease.v ===== *)
(** * The lease limiter ([packages/limiter/lease.go])

    An edge's side of the lease protocol: the tokens it holds per quota and
    window, how a request takes them, how it asks the hub for more and applies
    the answer, how post-hoc charges move a balance, and how unspent tokens
    are given back.

    A [held] is an object other goroutines and decisions point to after a new
    window has replaced it, so a counter keeps every held it ever made and
    [cur] is a position among them.  Each definition is what one goroutine
    does; compare-and-swap loops are the operation they commit. *)

From S2P Require Import Prelude Float64 Limiter Wire.
From Stdlib Require Import Ascii.

Local Open Scope Z_scope.

Record LeaseOptions := mkLeaseOptions {
  lo_LeaseSize : Z;
  lo_LowWaterPct : float64;
  lo_LeaseTTL : Z;    (* time.Duration *)
  lo_RenewBefore : Z; (* time.Duration *)
  lo_EdgeID : string;
}.

Definition failureBackoff : Z := 500 * Millisecond.
Definition missRetries : nat := 64.
Definition rateMinSample : Z := 100 * Millisecond.

(** [types.DefaultRuntimePolicy().Edge]: the lease size and low-water mark. *)
Definition default_lease_size : Z := 100.
Definition default_low_water : float64 := f64_of_int 20.

Definition LeaseOptions_defaults (o : LeaseOptions) : LeaseOptions :=
  {| lo_LeaseSize := if lo_LeaseSize o <=? 0 then default_lease_size else lo_LeaseSize o;
     lo_LowWaterPct :=
       if f64_leb (lo_LowWaterPct o) f64_zero || f64_ltb (f64_of_int 100) (lo_LowWaterPct o)
       then default_low_water else lo_LowWaterPct o;
     lo_LeaseTTL := if lo_LeaseTTL o <=? 0 then Minute else lo_LeaseTTL o;
     lo_RenewBefore := if lo_RenewBefore o <=? 0 then (2 * Second)%i64 else lo_RenewBefore o;
     lo_EdgeID := lo_EdgeID o |}.

Record held := mkHeld {
  h_win : Z;
  h_parentWin : Z;
  h_tokens : Z;
  h_consumed : Z;
  h_expiresAt : Z;
}.

Record leaseCounter := mkCounter {
  c_held : list held; (* every held made for this quota *)
  c_cur : nat;
  c_resetAt : Z;
  c_hubRemaining : Z;
  c_retryAt : Z;
  c_leaseSize : Z;
  c_lastGrant : Z;
  c_renewing : bool;
  c_lastSeen : Z;
  c_spent : Z;
  c_sampledAt : Z;
  c_rate : float64;
  c_req : Request; (* identity fields only *)
}.

Definition no_held : held := mkHeld 0 0 0 0 0.
Definition c_get (c : leaseCounter) (h : nat) : held := nth h (c_held c) no_held.
Definition cur (c : leaseCounter) : held := c_get c (c_cur c).

(** Field updates. *)
Definition c_put (c : leaseCounter) (i : nat) (h : held) : leaseCounter :=
  {| c_held := <[i := h]> (c_held c); c_cur := c_cur c; c_resetAt := c_resetAt c;
     c_hubRemaining := c_hubRemaining c; c_retryAt := c_retryAt c; c_leaseSize := c_leaseSize c;
     c_lastGrant := c_lastGrant c; c_renewing := c_renewing c; c_lastSeen := c_lastSeen c;
     c_spent := c_spent c; c_sampledAt := c_sampledAt c; c_rate := c_rate c; c_req := c_req c |}.

Definition c_push (c : leaseCounter) (h : held) : leaseCounter :=
  {| c_held := c_held c ++ [h]; c_cur := length (c_held c); c_resetAt := c_resetAt c;
     c_hubRemaining := c_hubRemaining c; c_retryAt := c_retryAt c; c_leaseSize := c_leaseSize c;
     c_lastGrant := c_lastGrant c; c_renewing := c_renewing c; c_lastSeen := c_lastSeen c;
     c_spent := c_spent c; c_sampledAt := c_sampledAt c; c_rate := c_rate c; c_req := c_req c |}.

Definition c_set_times (c : leaseCounter) (resetAt retryAt hubRemaining : Z) : leaseCounter :=
  {| c_held := c_held c; c_cur := c_cur c; c_resetAt := resetAt;
     c_hubRemaining := hubRemaining; c_retryAt := retryAt; c_leaseSize := c_leaseSize c;
     c_lastGrant := c_lastGrant c; c_renewing := c_renewing c; c_lastSeen := c_lastSeen c;
     c_spent := c_spent c; c_sampledAt := c_sampledAt c; c_rate := c_rate c; c_req := c_req c |}.

Definition c_set_resetAt (c : leaseCounter) (t : Z) := c_set_times c t (c_retryAt c) (c_hubRemaining c).
Definition c_set_retryAt (c : leaseCounter) (t : Z) := c_set_times c (c_resetAt c) t (c_hubRemaining c).
Definition c_set_hubRemaining (c : leaseCounter) (n : Z) := c_set_times c (c_resetAt c) (c_retryAt c) n.

Definition c_set_demand (c : leaseCounter) (spent sampledAt : Z) (rate : float64) : leaseCounter :=
  {| c_held := c_held c; c_cur := c_cur c; c_resetAt := c_resetAt c;
     c_hubRemaining := c_hubRemaining c; c_retryAt := c_retryAt c; c_leaseSize := c_leaseSize c;
     c_lastGrant := c_lastGrant c; c_renewing := c_renewing c; c_lastSeen := c_lastSeen c;
     c_spent := spent; c_sampledAt := sampledAt; c_rate := rate; c_req := c_req c |}.

Definition c_set_meta (c : leaseCounter) (leaseSize lastGrant : Z) (renewing : bool) (lastSeen : Z)
  : leaseCounter :=
  {| c_held := c_held c; c_cur := c_cur c; c_resetAt := c_resetAt c;
     c_hubRemaining := c_hubRemaining c; c_retryAt := c_retryAt c; c_leaseSize := leaseSize;
     c_lastGrant := lastGrant; c_renewing := renewing; c_lastSeen := lastSeen;
     c_spent := c_spent c; c_sampledAt := c_sampledAt c; c_rate := c_rate c; c_req := c_req c |}.

Record Lease := mkLease {
  l_opts : LeaseOptions;
  l_counters : table leaseCounter;
  l_backoffUntil : Z;
  l_returnSeq : Z;
  l_bootID : string;
}.

Definition NewLease (opts : LeaseOptions) (bootID : string) : Lease :=
  {| l_opts := LeaseOptions_defaults opts; l_counters := empty_table;
     l_backoffUntil := 0; l_returnSeq := 0; l_bootID := bootID |}.

Definition l_set_counters (l : Lease) (t : table leaseCounter) : Lease :=
  {| l_opts := l_opts l; l_counters := t; l_backoffUntil := l_backoffUntil l;
     l_returnSeq := l_returnSeq l; l_bootID := l_bootID l |}.

Definition l_put (l : Lease) (i : nat) (c : leaseCounter) : Lease :=
  l_set_counters l (table_set (l_counters l) i c).

Definition l_set_backoff (l : Lease) (t : Z) : Lease :=
  {| l_opts := l_opts l; l_counters := l_counters l; l_backoffUntil := t;
     l_returnSeq := l_returnSeq l; l_bootID := l_bootID l |}.

(** ** Tokens *)

Definition h_set_tokens (h : held) (n : Z) : held :=
  mkHeld (h_win h) (h_parentWin h) n (h_consumed h) (h_expiresAt h).

(** [take]: the balance left, or -1. *)
Definition held_take (h : held) (cost nowMs : Z) : Z * held :=
  if (0 <? h_expiresAt h) && (h_expiresAt h <=? nowMs) then
    (-1, if h_tokens h <=? 0 then h else h_set_tokens h 0)
  else if h_tokens h <? cost then (-1, h)
  else let balance := (h_tokens h - cost)%i64 in (balance, h_set_tokens h balance).

Definition take (c : leaseCounter) (i : nat) (cost nowMs : Z) : Z * leaseCounter :=
  let '(balance, h) := held_take (c_get c i) cost nowMs in (balance, c_put c i h).

(** [install]: a fresh window in place of [old], with its debt.  When another
    goroutine has replaced [old] already, its window stands if it is newer. *)
Definition install (c : leaseCounter) (old : nat) (win parentWin : Z) : nat * leaseCounter :=
  if bool_decide (c_cur c = old) || (h_win (cur c) <=? win) then
    (length (c_held c), c_push c (mkHeld win parentWin (Z.min (h_tokens (cur c)) 0) 0 0))
  else (c_cur c, c).

Definition held_adjust (h : held) (delta maxDebt : Z) : held :=
  let next := (h_tokens h - delta)%i64 in
  let next := if (0 <? delta) && (next <? - maxDebt) then Z.min (h_tokens h) (- maxDebt) else next in
  mkHeld (h_win h) (h_parentWin h) next (h_consumed h + delta)%i64 (h_expiresAt h).

Definition adjust (c : leaseCounter) (i : nat) (delta maxDebt : Z) : leaseCounter :=
  if bool_decide (c_cur c = i) then c_put c i (held_adjust (c_get c i) delta maxDebt)
  else if delta <? 0 then c
  else c_put c (c_cur c) (held_adjust (cur c) delta maxDebt).

(** ** Windows *)

Definition resetTime (c : leaseCounter) (req : Request) (now : Z) : option Z :=
  if 0 <? c_resetAt c then Some (c_resetAt c) else windowEnd (rq_Window req) now.

Definition reset (c : leaseCounter) (req : Request) (nowMs : Z) : leaseCounter :=
  let at_ := c_resetAt c in
  if (at_ <=? 0) || (nowMs <? at_) then c
  else
    let c := c_set_times c 0 0 (c_hubRemaining c) in
    if (rq_Algo req =? "token_bucket")%string then c
    else
      let '(_, c) := install c (c_cur c) (h_win (cur c)) (h_parentWin (cur c)) in
      c_set_hubRemaining c 0.

Definition fixedWindow (req : Request) : bool :=
  (0 <? rq_Window req) &&
  ((rq_Algo req =? "")%string || (rq_Algo req =? "fixed_window")%string).

Definition f64_half : float64 := f64_dyadic 1 (-1).

(** [observe]: the demand to report, sampled at [nowMs]. *)
Definition observe (c : leaseCounter) (nowMs : Z) : float64 * leaseCounter :=
  let rate := c_rate c in
  if c_sampledAt c =? 0 then (rate, c_set_demand c 0 nowMs rate)
  else
    let elapsed := ((nowMs - c_sampledAt c) * Millisecond)%i64 in
    if elapsed <? rateMinSample then (rate, c)
    else
      let inst := f64_div (f64_of_int (c_spent c)) (Duration_Seconds elapsed) in
      let rate := if f64_eqb rate f64_zero then inst
                  else f64_add (f64_mul f64_half rate) (f64_mul f64_half inst) in
      (rate, c_set_demand c 0 nowMs rate).

(** ** Asking the hub *)

(** [accept]: apply an answer to a request sent at [sentMs].  [nowMs] is the
    clock when it is applied, [jitter] the random part of a retry delay.  The
    answer's window decides whether its tokens are still worth anything. *)
Definition accept_window (c : leaseCounter) (req : Request) (sentMs : Z) (resp : QuotaLeaseResponse)
  : option (nat * leaseCounter) :=
  if (0 <? qr_ExpiresInMs resp) || (0 <? qr_ResetInMs resp) then
    if qr_WindowId resp <? h_win (cur c) then None
    else
      let '(h, c) :=
        if h_win (cur c) <? qr_WindowId resp
        then install c (c_cur c) (qr_WindowId resp) (qr_ParentWindowId resp)
        else (c_cur c, c) in
      if negb (h_win (c_get c h) =? qr_WindowId resp) then None
      else Some (h, if 0 <? qr_ResetInMs resp
                    then c_set_resetAt c (sentMs + qr_ResetInMs resp)%i64 else c)
  else
    Some (c_cur c,
          match windowEnd (rq_Window req) sentMs with
          | Some end_ => if c_resetAt c =? 0 then c_set_resetAt c end_ else c
          | None => c
          end).

Definition accept_expiry (opts : LeaseOptions) (c : leaseCounter) (sentMs nowMs : Z)
  (resp : QuotaLeaseResponse) : Z :=
  if 0 <? qr_ExpiresInMs resp then (sentMs + qr_ExpiresInMs resp)%i64
  else
    let ttl := (qr_LeaseTtlSeconds resp * Second)%i64 in
    let ttl := if ttl <=? 0 then lo_LeaseTTL opts else ttl in
    let exp := (nowMs + Milliseconds ttl)%i64 in
    if (0 <? c_resetAt c) && (c_resetAt c <? exp) then c_resetAt c else exp.

(** Extend the lease, then add the tokens. *)
Definition add_tokens (c : leaseCounter) (i : nat) (exp granted : Z) : leaseCounter :=
  let h := c_get c i in
  let c := c_put c i (mkHeld (h_win h) (h_parentWin h) (h_tokens h + granted)%i64 (h_consumed h) exp) in
  c_set_meta c (c_leaseSize c) granted (c_renewing c) (c_lastSeen c).

Definition accept (opts : LeaseOptions) (c : leaseCounter) (req : Request) (sentMs nowMs jitter : Z)
  (resp : QuotaLeaseResponse) : Z * leaseCounter :=
  match accept_window c req sentMs resp with
  | None => (0, c)
  | Some (h, c) =>
      let c := c_set_hubRemaining c (qr_RemainingGlobal resp) in
      if qr_WaitingForCapacity resp then
        let retry := if qr_RetryAfterMs resp <=? 0 then 500 else qr_RetryAfterMs resp in
        (0, c_set_retryAt c (nowMs + retry / 2 + jitter)%i64)
      else if qr_GrantedTokens resp <=? 0 then (0, c)
      else (qr_GrantedTokens resp,
            add_tokens c h (accept_expiry opts c sentMs nowMs resp) (qr_GrantedTokens resp))
  end.

Definition classify (e : status) : lerror :=
  match st_code e with
  | InvalidArgument | NotFound | PermissionDenied | FailedPrecondition => ErrRejected
  | _ => ErrUnavailable
  end.

(** One call to the hub: the clock before it, when it is sent, when its answer
    is applied and when the caller retries, the answer, and the random part of
    a retry delay. *)
Record flight := mkFlight {
  fl_now : Z;
  fl_sent : Z;
  fl_resp : result status QuotaLeaseResponse;
  fl_done : Z;
  fl_jitter : Z;
  fl_retry : Z;
}.

Definition lease_request (l : Lease) (c : leaseCounter) (req : Request) (rate : float64)
  : QuotaLeaseRequest :=
  {| ql_Prefix := rq_Scope req; ql_ServiceId := rq_Service req; ql_ApiKey := rq_Key req;
     ql_RequestedTokens := c_leaseSize c; ql_TierId := rq_Tier req; ql_LimitId := rq_LimitID req;
     ql_EdgeId := lo_EdgeID (l_opts l); ql_ObservedRate := rate; ql_Org := rq_Org req |}.

Definition counter_at (l : Lease) (i : nat) : option leaseCounter := table_obj (l_counters l) i.

Definition fetch (l : Lease) (i : nat) (req : Request) (f : flight) : result lerror Z * Lease :=
  if fl_now f <? l_backoffUntil l then (Err ErrUnavailable, l)
  else
    match counter_at l i with
    | None => (Err ErrUnavailable, l) (* unreachable: [i] is a counter *)
    | Some c =>
        let '(_, c) := observe c (fl_sent f) in
        match fl_resp f with
        | Err e =>
            let l := l_put l i c in
            match classify e with
            | ErrUnavailable => (Err ErrUnavailable, l_set_backoff l (fl_done f + Milliseconds failureBackoff)%i64)
            | e => (Err e, l)
            end
        | Ok resp =>
            let '(n, c) := accept (l_opts l) c req (fl_sent f) (fl_done f) (fl_jitter f) resp in
            (Ok n, l_put l i c)
        end
    end.

(** [renew]: whether a background fetch starts; [renew_done] is that fetch. *)
Definition renew (c : leaseCounter) : bool * leaseCounter :=
  if (0 <? c_retryAt c) || c_renewing c then (false, c)
  else (true, c_set_meta c (c_leaseSize c) (c_lastGrant c) true (c_lastSeen c)).

Definition renew_done (l : Lease) (i : nat) (req : Request) (f : flight) : Lease :=
  let l := snd (fetch l i req f) in
  match counter_at l i with
  | Some c => l_put l i (c_set_meta c (c_leaseSize c) (c_lastGrant c) false (c_lastSeen c))
  | None => l
  end.

(** ** Deciding a request *)

Definition identity (req : Request) : Request :=
  mkRequest (rq_Scope req) (rq_Service req) (rq_LimitID req) (rq_Key req) (rq_Tier req)
    (rq_Org req) 0 0 0 "" 0 false 0.

Definition new_counter (l : Lease) (req : Request) : leaseCounter :=
  {| c_held := [mkHeld 0 0 0 0 0]; c_cur := 0; c_resetAt := 0; c_hubRemaining := 0; c_retryAt := 0;
     c_leaseSize := lo_LeaseSize (l_opts l); c_lastGrant := 0; c_renewing := false; c_lastSeen := 0;
     c_spent := 0; c_sampledAt := 0; c_rate := f64_zero;
     c_req := identity req |}.

Definition counter (l : Lease) (req : Request) : nat * leaseCounter * Lease :=
  let '(i, t) := table_get (l_counters l) (stateKey req) (new_counter l req) in
  let c := default (new_counter l req) (table_obj t i) in
  let c := if 0 <? rq_LeaseSize req
           then c_set_meta c (rq_LeaseSize req) (c_lastGrant c) (c_renewing c) (c_lastSeen c) else c in
  (i, c, l_set_counters l (table_set t i c)).

Definition over_guard (c : leaseCounter) (h : nat) (req : Request) (cost : Z) : bool :=
  fixedWindow req && (rq_Limit req <? (h_consumed (c_get c h) + cost)%i64).

(** The loop on a miss: fetch and retry.  The result is an error, or the
    balance left (negative: denied) in a held. *)
Fixpoint allow_loop (fuel : nat) (flights : nat → flight) (k : nat) (l : Lease) (i : nat)
  (req : Request) (cost : Z) (h : nat) (balance : Z) : result lerror (Z * nat) * Lease :=
  match fuel with
  | O => (Ok (balance, h), l)
  | S fuel =>
      if 0 <=? balance then (Ok (balance, h), l)
      else
        match fetch l i req (flights k) with
        | (Err e, l) => (Err e, l)
        | (Ok granted, l) =>
            if granted <=? 0 then (Ok (balance, h), l)
            else
              match counter_at l i with
              | None => (Ok (balance, h), l)
              | Some c =>
                  let h := c_cur c in
                  if over_guard c h req cost then (Ok (balance, h), l)
                  else
                    let '(balance, c) := take c h cost (fl_retry (flights k)) in
                    allow_loop fuel flights (S k) (l_put l i c) i req cost h balance
              end
        end
  end.

(** An admitted request: count it, renew at the low-water mark, report. *)
Definition admit_request (l : Lease) (c : leaseCounter) (i h : nat) (req : Request) (cost balance nowMs : Z)
  : Decision * leaseCounter * bool :=
  let hh := c_get c h in
  let c := c_put c h (mkHeld (h_win hh) (h_parentWin hh) (h_tokens hh)
                        (h_consumed hh + cost)%i64 (h_expiresAt hh)) in
  let c := c_set_demand c (c_spent c + cost)%i64 (c_sampledAt c) (c_rate c) in
  let lowWater := f64_to_int (f64_div (f64_mul (f64_of_int (Z.max (c_lastGrant c) 1))
                                               (lo_LowWaterPct (l_opts l))) (f64_of_int 100)) in
  let exp := h_expiresAt hh in
  let endsEarly := (c_resetAt c <=? 0) || (exp <? c_resetAt c) in
  let '(spawned, c) :=
    if (balance <=? lowWater)
       || (endsEarly && (0 <? exp)
           && ((exp - Milliseconds (lo_RenewBefore (l_opts l)))%i64 <? nowMs))
    then renew c else (false, c) in
  (mkDecision true (rq_Limit req)
     (Z.max 0 (Z.min (rq_Limit req) (c_hubRemaining c + balance)%i64))
     (resetTime c req nowMs) false (h_win hh) None (Some (AdjHeld i h)) 0
     (if rq_MaxDebt req <=? 0 then cost else rq_MaxDebt req),
   c, spawned).

(** [Allow], with the calls to the hub it makes, and whether it leaves a
    background renewal running. *)
Definition Lease_Allow (l : Lease) (req : Request) (nowMs : Z) (flights : nat → flight)
  : result lerror Decision * Lease * bool :=
  let cost := Z.max (rq_Cost req) 1 in
  let '(i, c, l) := counter l req in
  let c := c_set_meta c (c_leaseSize c) (c_lastGrant c) (c_renewing c) nowMs in
  let c := reset c req nowMs in
  let d := denied (rq_Limit req) (resetTime c req nowMs) in
  let waiting := (0 <? c_retryAt c) && (nowMs <? c_retryAt c) in
  let c := if (0 <? c_retryAt c) && negb waiting then c_set_retryAt c 0 else c in
  let h := c_cur c in
  if over_guard c h req cost then (Ok d, l_put l i c, false)
  else
    let '(balance, c) := take c h cost nowMs in
    let l := l_put l i c in
    match allow_loop (if waiting then 0 else missRetries) flights 0 l i req cost h balance with
    | (Err e, l) => (Err e, l, false)
    | (Ok (balance, h), l) =>
        match counter_at l i with
        | None => (Ok d, l, false)
        | Some c =>
            if balance <? 0 then
              (Ok (mkDecision false (rq_Limit req) 0 (resetTime c req nowMs) false 0
                     (if 0 <? c_retryAt c then Some (c_retryAt c) else None) None 0 0), l, false)
            else
              let '(d, c, spawned) := admit_request l c i h req cost balance nowMs in
              (Ok d, l_put l i c, spawned)
        end
    end.

Definition Lease_adjust (l : Lease) (i h : nat) (delta maxDebt : Z) : Lease :=
  match counter_at l i with
  | Some c => l_put l i (adjust c h delta maxDebt)
  | None => l
  end.

(** ** Giving tokens back *)

(** Swap a balance out: the tokens to return (none when they have expired;
    debt is kept) and the held without them. *)
Definition held_swap (h : held) (now : Z) : Z * held :=
  let n := h_tokens h in
  (if (0 <? n) && (0 <? h_expiresAt h) && (h_expiresAt h <=? now) then 0 else n,
   h_set_tokens h 0).

Definition lease_return (c : leaseCounter) (h : held) (n : Z) : LeaseReturn :=
  {| lr_Prefix := rq_Scope (c_req c); lr_ServiceId := rq_Service (c_req c);
     lr_ApiKey := rq_Key (c_req c); lr_LimitId := rq_LimitID (c_req c);
     lr_TierId := rq_Tier (c_req c); lr_Org := rq_Org (c_req c);
     lr_WindowId := h_win h; lr_ParentWindowId := h_parentWin h; lr_Tokens := n |}.

Definition swap_out (c : leaseCounter) (now : Z) : Z * leaseCounter :=
  let '(n, h) := held_swap (cur c) now in (n, c_put c (c_cur c) h).

Fixpoint swap_all (l : Lease) (idxs : list nat) (now : Z) : list LeaseReturn * Lease :=
  match idxs with
  | [] => ([], l)
  | i :: idxs =>
      match counter_at l i with
      | None => swap_all l idxs now
      | Some c =>
          let '(n, c) := swap_out c now in
          let '(rs, l) := swap_all (l_put l i c) idxs now in
          (if n =? 0 then rs else lease_return c (cur c) n :: rs, l)
      end
  end.

(** [giveBack]: the request to send, if there is anything to give back.  It is
    sent up to three times with the same id. *)
Definition giveBack (l : Lease) (idxs : list nat) (now : Z) : option ReturnLeasesRequest * Lease :=
  let '(returns, l) := swap_all l idxs now in
  match returns with
  | [] => (None, l)
  | _ =>
      let seq := l_returnSeq l + 1 in
      (Some {| rl_EdgeId := lo_EdgeID (l_opts l);
               rl_Dedupe := l_bootID l +:+ "-" +:+ itoa seq; rl_Returns := returns |},
       {| l_opts := l_opts l; l_counters := l_counters l; l_backoffUntil := l_backoffUntil l;
          l_returnSeq := seq; l_bootID := l_bootID l |})
  end.

(** [Drain]: every counter of the table ([idxs] in the order the map yields
    them). *)
Definition Drain (l : Lease) (idxs : list nat) (now : Z) : option ReturnLeasesRequest * Lease :=
  giveBack l idxs now.

(** One sweep of [Run]: forget the idle counters and give their tokens back. *)
Definition idle (cutoff : Z) (c : leaseCounter) : bool :=
  (c_lastSeen c <? cutoff) && negb (c_renewing c).

Definition Lease_sweep (l : Lease) (idxs : list nat) (cutoff now : Z)
  : option ReturnLeasesRequest * Lease :=
  let idles := filter (λ i, match counter_at l i with
                            | Some c => idle cutoff c | None => false end = true) idxs in
  let l := l_set_counters l (table_evict (l_counters l) (idle cutoff)) in
  giveBack l idles now.

(** [HoldingLimit]: the unexpired tokens held for a key. *)
Definition Lease_Holding (l : Lease) (req : Request) (now : Z) : Z * option Z :=
  match tb_m (l_counters l) !! stateKey req with
  | None => (0, None)
  | Some i =>
      match counter_at l i with
      | None => (0, None)
      | Some c =>
          let h := cur c in
          if (0 <? h_expiresAt h) && (h_expiresAt h <=? now)
          then (Z.min (h_tokens h) 0, Some (h_expiresAt h))
          else (h_tokens h, Some (h_expiresAt h))
      end
  end.
