(* ===== verification/Policies.v ===== *)
(** * Runtime and failure policies ([packages/common/types/policies.go])

    The policy blocks of the configuration, their defaults and their checks.
    The lemmas at the end show when a policy with its defaults filled in
    passes its checks, and that filling them in again changes nothing. *)

From S2P Require Import Prelude Float64.
From Stdlib Require Import Ascii.

Local Open Scope Z_scope.

(** ** Policy blocks *)

Record TransformConfig := mkTransform {
  tf_StripPrefix : bool;
  tf_AddHeaders : gmap string string;
  tf_HideHeaders : list string;
}.

Record CORSConfig := mkCORS {
  co_AllowedOrigins : list string;
  co_AllowedMethods : list string;
  co_AllowedHeaders : list string;
  co_MaxAge : Z; (* time.Duration *)
}.

Record HubRuntimePolicy := mkHubRuntime {
  hr_CORSAllowedHeaders : list string;
  hr_CORSAllowedMethods : list string;
  hr_CORSPreflightMaxAge : Z;
  hr_APIKeyPattern : string;
  hr_HTTPReadTimeout : Z;
  hr_HTTPWriteTimeout : Z;
  hr_HTTPShutdownTimeout : Z;
}.

Record EdgeRuntimePolicy := mkEdgeRuntime {
  er_AnalyticsBufferSize : Z;
  er_AnalyticsPublishTimeout : Z;
  er_RateLeaseSize : Z;
  er_RateLowWaterPct : float64;
  er_CacheMaxObjectBytes : Z;
  er_UpstreamClientTimeout : Z;
  er_UpstreamMaxIdleConns : Z;
  er_UpstreamIdleConnTimeout : Z;
  er_HTTPReadTimeout : Z;
  er_HTTPWriteTimeout : Z;
  er_HTTPIdleTimeout : Z;
}.

Record AnalyticsRuntimePolicy := mkAnalyticsRuntime {
  ar_ReadTimeout : Z;
  ar_WriteTimeout : Z;
  ar_IdleTimeout : Z;
  ar_DefaultEventsLimit : Z;
  ar_MaxEventsLimit : Z;
  ar_MaxEventsOffset : Z;
  ar_DefaultSummaryLimit : Z;
  ar_MaxSummaryLimit : Z;
  ar_NATSSubject : string;
  ar_NATSQueue : string;
  ar_ConfigFetchTimeout : Z;
  ar_ShutdownTimeout : Z;
}.

Record RuntimePolicy := mkRuntime {
  rp_Hub : HubRuntimePolicy;
  rp_Edge : EdgeRuntimePolicy;
  rp_Analytics : AnalyticsRuntimePolicy;
}.

Definition DefaultRuntimePolicy : RuntimePolicy :=
  {| rp_Hub :=
       {| hr_CORSAllowedHeaders := ["Authorization"; "Content-Type"; "X-API-Key"];
          hr_CORSAllowedMethods := ["GET"; "POST"; "PUT"; "DELETE"; "OPTIONS"];
          hr_CORSPreflightMaxAge := 5 * Minute;
          hr_APIKeyPattern := "^[A-Za-z0-9_]{3,128}$";
          hr_HTTPReadTimeout := 5 * Second;
          hr_HTTPWriteTimeout := 10 * Second;
          hr_HTTPShutdownTimeout := 15 * Second |};
     rp_Edge :=
       {| er_AnalyticsBufferSize := 1000;
          er_AnalyticsPublishTimeout := 2 * Second;
          er_RateLeaseSize := 100;
          er_RateLowWaterPct := f64_of_int 20;
          er_CacheMaxObjectBytes := Z.shiftl 1 20;
          er_UpstreamClientTimeout := 30 * Second;
          er_UpstreamMaxIdleConns := 100;
          er_UpstreamIdleConnTimeout := 90 * Second;
          er_HTTPReadTimeout := 15 * Second;
          er_HTTPWriteTimeout := 15 * Second;
          er_HTTPIdleTimeout := 60 * Second |};
     rp_Analytics :=
       {| ar_ReadTimeout := 10 * Second;
          ar_WriteTimeout := 10 * Second;
          ar_IdleTimeout := 30 * Second;
          ar_DefaultEventsLimit := 100;
          ar_MaxEventsLimit := 5000;
          ar_MaxEventsOffset := 1000000;
          ar_DefaultSummaryLimit := 1000;
          ar_MaxSummaryLimit := 10000;
          ar_NATSSubject := "analytics.events";
          ar_NATSQueue := "analytics-subscribers";
          ar_ConfigFetchTimeout := 5 * Second;
          ar_ShutdownTimeout := 5 * Second |} |}.

(** A field that is not positive, an empty list or a blank string takes the
    default. *)
Definition or_default (z d : Z) : Z := if z <=? 0 then d else z.
Definition or_list {A} (l d : list A) : list A := match l with [] => d | _ => l end.
Definition or_blank (s d : string) : string := if (TrimSpace s =? "")%string then d else s.

Definition HubRuntimePolicy_Effective (p d : HubRuntimePolicy) : HubRuntimePolicy :=
  {| hr_CORSAllowedHeaders := or_list (hr_CORSAllowedHeaders p) (hr_CORSAllowedHeaders d);
     hr_CORSAllowedMethods := or_list (hr_CORSAllowedMethods p) (hr_CORSAllowedMethods d);
     hr_CORSPreflightMaxAge := or_default (hr_CORSPreflightMaxAge p) (hr_CORSPreflightMaxAge d);
     hr_APIKeyPattern := or_blank (hr_APIKeyPattern p) (hr_APIKeyPattern d);
     hr_HTTPReadTimeout := or_default (hr_HTTPReadTimeout p) (hr_HTTPReadTimeout d);
     hr_HTTPWriteTimeout := or_default (hr_HTTPWriteTimeout p) (hr_HTTPWriteTimeout d);
     hr_HTTPShutdownTimeout := or_default (hr_HTTPShutdownTimeout p) (hr_HTTPShutdownTimeout d) |}.

Definition low_water_bad (x : float64) : bool :=
  f64_leb x f64_zero || f64_ltb (f64_of_int 100) x.

Definition EdgeRuntimePolicy_Effective (p d : EdgeRuntimePolicy) : EdgeRuntimePolicy :=
  {| er_AnalyticsBufferSize := or_default (er_AnalyticsBufferSize p) (er_AnalyticsBufferSize d);
     er_AnalyticsPublishTimeout := or_default (er_AnalyticsPublishTimeout p) (er_AnalyticsPublishTimeout d);
     er_RateLeaseSize := or_default (er_RateLeaseSize p) (er_RateLeaseSize d);
     er_RateLowWaterPct := if low_water_bad (er_RateLowWaterPct p) then er_RateLowWaterPct d
                           else er_RateLowWaterPct p;
     er_CacheMaxObjectBytes := or_default (er_CacheMaxObjectBytes p) (er_CacheMaxObjectBytes d);
     er_UpstreamClientTimeout := or_default (er_UpstreamClientTimeout p) (er_UpstreamClientTimeout d);
     er_UpstreamMaxIdleConns := or_default (er_UpstreamMaxIdleConns p) (er_UpstreamMaxIdleConns d);
     er_UpstreamIdleConnTimeout := or_default (er_UpstreamIdleConnTimeout p) (er_UpstreamIdleConnTimeout d);
     er_HTTPReadTimeout := or_default (er_HTTPReadTimeout p) (er_HTTPReadTimeout d);
     er_HTTPWriteTimeout := or_default (er_HTTPWriteTimeout p) (er_HTTPWriteTimeout d);
     er_HTTPIdleTimeout := or_default (er_HTTPIdleTimeout p) (er_HTTPIdleTimeout d) |}.

Definition AnalyticsRuntimePolicy_Effective (p d : AnalyticsRuntimePolicy) : AnalyticsRuntimePolicy :=
  {| ar_ReadTimeout := or_default (ar_ReadTimeout p) (ar_ReadTimeout d);
     ar_WriteTimeout := or_default (ar_WriteTimeout p) (ar_WriteTimeout d);
     ar_IdleTimeout := or_default (ar_IdleTimeout p) (ar_IdleTimeout d);
     ar_DefaultEventsLimit := or_default (ar_DefaultEventsLimit p) (ar_DefaultEventsLimit d);
     ar_MaxEventsLimit := or_default (ar_MaxEventsLimit p) (ar_MaxEventsLimit d);
     ar_MaxEventsOffset := or_default (ar_MaxEventsOffset p) (ar_MaxEventsOffset d);
     ar_DefaultSummaryLimit := or_default (ar_DefaultSummaryLimit p) (ar_DefaultSummaryLimit d);
     ar_MaxSummaryLimit := or_default (ar_MaxSummaryLimit p) (ar_MaxSummaryLimit d);
     ar_NATSSubject := or_blank (ar_NATSSubject p) (ar_NATSSubject d);
     ar_NATSQueue := or_blank (ar_NATSQueue p) (ar_NATSQueue d);
     ar_ConfigFetchTimeout := or_default (ar_ConfigFetchTimeout p) (ar_ConfigFetchTimeout d);
     ar_ShutdownTimeout := or_default (ar_ShutdownTimeout p) (ar_ShutdownTimeout d) |}.

Definition RuntimePolicy_Effective (rp : RuntimePolicy) : RuntimePolicy :=
  let d := DefaultRuntimePolicy in
  {| rp_Hub := HubRuntimePolicy_Effective (rp_Hub rp) (rp_Hub d);
     rp_Edge := EdgeRuntimePolicy_Effective (rp_Edge rp) (rp_Edge d);
     rp_Analytics := AnalyticsRuntimePolicy_Effective (rp_Analytics rp) (rp_Analytics d) |}.

(** ** Validation: [None], or the error's message *)

(** [errConfig("%s: %v", where, err)]. *)
Definition at_ (whr : string) (e : option string) : option string :=
  match e with Some msg => Some (whr +:+ ": " +:+ msg) | None => None end.

(** The first error. *)
Definition or_else {A} (e : option A) (e' : option A) : option A :=
  match e with Some x => Some x | None => e' end.

Definition fail_if (b : bool) (msg : string) : option string := if b then Some msg else None.

Declare Scope check_scope.
Infix ";;;" := or_else (at level 60, right associativity) : check_scope.
Local Open Scope check_scope.

Definition HubRuntimePolicy_Validate (p : HubRuntimePolicy) : option string :=
  fail_if (hr_CORSPreflightMaxAge p <? 0) "cors_preflight_max_age must be >= 0" ;;;
  fail_if ((hr_HTTPReadTimeout p <? 0) || (hr_HTTPWriteTimeout p <? 0) || (hr_HTTPShutdownTimeout p <? 0))
    "timeouts must be >= 0".

Definition EdgeRuntimePolicy_Validate (p : EdgeRuntimePolicy) : option string :=
  fail_if (er_AnalyticsBufferSize p <? 0) "analytics_buffer_size must be >= 0" ;;;
  fail_if (er_AnalyticsPublishTimeout p <? 0) "analytics_publish_timeout must be >= 0" ;;;
  fail_if (er_RateLeaseSize p <? 0) "rate_lease_size must be >= 0" ;;;
  fail_if (f64_ltb (er_RateLowWaterPct p) f64_zero || f64_ltb (f64_of_int 100) (er_RateLowWaterPct p))
    "rate_low_water_pct must be between 0 and 100" ;;;
  fail_if (er_CacheMaxObjectBytes p <? 0) "cache_max_object_bytes must be >= 0" ;;;
  fail_if ((er_UpstreamClientTimeout p <? 0) || (er_UpstreamIdleConnTimeout p <? 0)
           || (er_HTTPReadTimeout p <? 0) || (er_HTTPWriteTimeout p <? 0) || (er_HTTPIdleTimeout p <? 0))
    "edge timeouts must be >= 0" ;;;
  fail_if (er_UpstreamMaxIdleConns p <? 0) "upstream_max_idle_conns must be >= 0".

Definition AnalyticsRuntimePolicy_Validate (p : AnalyticsRuntimePolicy) : option string :=
  fail_if ((ar_ReadTimeout p <? 0) || (ar_WriteTimeout p <? 0) || (ar_IdleTimeout p <? 0)
           || (ar_ConfigFetchTimeout p <? 0) || (ar_ShutdownTimeout p <? 0))
    "timeouts must be >= 0" ;;;
  fail_if ((ar_DefaultEventsLimit p <? 0) || (ar_MaxEventsLimit p <? 0) || (ar_MaxEventsOffset p <? 0)
           || (ar_DefaultSummaryLimit p <? 0) || (ar_MaxSummaryLimit p <? 0))
    "limits/offsets must be >= 0" ;;;
  fail_if ((0 <? ar_MaxEventsLimit p) && (ar_MaxEventsLimit p <? ar_DefaultEventsLimit p))
    "default_events_limit must be <= max_events_limit" ;;;
  fail_if ((0 <? ar_MaxSummaryLimit p) && (ar_MaxSummaryLimit p <? ar_DefaultSummaryLimit p))
    "default_summary_limit must be <= max_summary_limit".

Definition RuntimePolicy_Validate (rp : RuntimePolicy) : option string :=
  at_ "hub" (HubRuntimePolicy_Validate (rp_Hub rp)) ;;;
  at_ "edge" (EdgeRuntimePolicy_Validate (rp_Edge rp)) ;;;
  at_ "analytics" (AnalyticsRuntimePolicy_Validate (rp_Analytics rp)).

(** ** Services' policies *)

Record CacheConfig := mkCacheConfig {
  cc_Enabled : bool;
  cc_TTL : Z;
  cc_CacheKey : string;
}.

Definition AnalyticsModeLite : string := "lite".
Definition AnalyticsModeHeavy : string := "heavy".

Record AnalyticsConfig := mkAnalytics {
  an_Enabled : bool;
  an_Mode : string;
  an_FlushingInterval : Z;
  an_SamplingRate : float64;
}.

Definition AnalyticsConfig_EffectiveMode (a : AnalyticsConfig) : string :=
  if negb (an_Enabled a) then AnalyticsModeLite
  else if (an_Mode a =? "")%string then AnalyticsModeHeavy
  else an_Mode a.

Definition AnalyticsConfig_Validate (a : AnalyticsConfig) : option string :=
  let mode := AnalyticsConfig_EffectiveMode a in
  fail_if (negb (mode =? AnalyticsModeLite)%string && negb (mode =? AnalyticsModeHeavy)%string)
    ("mode must be one of " +:+ String "034" (AnalyticsModeLite +:+ String "034" (" or "
       +:+ String "034" (AnalyticsModeHeavy +:+ String "034" "")))) ;;;
  fail_if (f64_ltb (an_SamplingRate a) f64_zero || f64_ltb (f64_of_int 1) (an_SamplingRate a))
    "sampling_rate must be between 0 and 1".

Record HubFailurePolicy := mkHubFailure {
  hf_TierLookupStrategy : string;
  hf_DefaultTier : string;
  hf_StaleTierMaxAge : Z;
  hf_AllowOnRateServiceError : bool;
}.

Record UpstreamFailurePolicy := mkUpstreamFailure {
  uf_Mode : string;
  uf_MaxRetries : Z;
  uf_RetryBackoff : Z;
  uf_RetryOnStatuses : list Z;
  uf_RetryNonIdempotentMethods : bool;
  uf_AttemptTimeout : Z;
  uf_FallbackStatusCode : Z;
  uf_FallbackBody : string;
  uf_FallbackHeaders : gmap string string;
}.

Record FailureConfig := mkFailure {
  fc_FailOpen : bool;
  fc_FallbackTier : string;
  fc_Hub : HubFailurePolicy;
  fc_Upstream : UpstreamFailurePolicy;
}.

(** [FailureConfig{}]. *)
Definition no_failure_config : FailureConfig :=
  mkFailure false "" (mkHubFailure "" "" 0 false) (mkUpstreamFailure "" 0 0 [] false 0 0 "" ∅).

Definition EffectiveHubPolicy (fc : FailureConfig) : HubFailurePolicy :=
  let hp := fc_Hub fc in
  {| hf_TierLookupStrategy := if (hf_TierLookupStrategy hp =? "")%string then "fail-closed"
                              else hf_TierLookupStrategy hp;
     hf_DefaultTier := if (hf_DefaultTier hp =? "")%string then fc_FallbackTier fc else hf_DefaultTier hp;
     hf_StaleTierMaxAge := if hf_StaleTierMaxAge hp <=? 0 then 6 * Hour else hf_StaleTierMaxAge hp;
     hf_AllowOnRateServiceError := hf_AllowOnRateServiceError hp |}.

Definition EffectiveUpstreamPolicy (fc : FailureConfig) : UpstreamFailurePolicy :=
  let up := fc_Upstream fc in
  {| uf_Mode := if (uf_Mode up =? "")%string then (if fc_FailOpen fc then "fail-open" else "fail-closed")
                else uf_Mode up;
     uf_MaxRetries := if uf_MaxRetries up <? 0 then 0 else uf_MaxRetries up;
     uf_RetryBackoff := if uf_RetryBackoff up <=? 0 then 50 * Millisecond else uf_RetryBackoff up;
     uf_RetryOnStatuses := uf_RetryOnStatuses up;
     uf_RetryNonIdempotentMethods := uf_RetryNonIdempotentMethods up;
     uf_AttemptTimeout := uf_AttemptTimeout up;
     uf_FallbackStatusCode := if uf_FallbackStatusCode up <=? 0 then 503 else uf_FallbackStatusCode up;
     uf_FallbackBody := if (uf_FallbackBody up =? "")%string then "Service temporarily degraded"
                        else uf_FallbackBody up;
     uf_FallbackHeaders := uf_FallbackHeaders up |}.

(** ** Defaults *)

Lemma or_else_None {A} (e e' : option A) : (e ;;; e') = None ↔ e = None ∧ e' = None.
Proof. destruct e; cbn; naive_solver. Qed.
Lemma fail_if_None b msg : fail_if b msg = None ↔ b = false.
Proof. by destruct b. Qed.
Lemma at_None whr e : at_ whr e = None ↔ e = None.
Proof. by destruct e. Qed.

Lemma or_default_pos z d : 0 < d → 0 < or_default z d.
Proof. unfold or_default. destruct (Z.leb_spec z 0); lia. Qed.
Lemma or_default_idemp z d : or_default (or_default z d) d = or_default z d.
Proof. unfold or_default. destruct (z <=? 0) eqn:E; [by destruct (d <=? 0)|by rewrite E]. Qed.
Lemma or_list_idemp {A} (l d : list A) : or_list (or_list l d) d = or_list l d.
Proof. destruct l; [|done]. by destruct d. Qed.
Lemma or_blank_idemp s d : or_blank (or_blank s d) d = or_blank s d.
Proof. unfold or_blank. destruct (TrimSpace s =? "")%string eqn:E; [by destruct (TrimSpace d =? "")%string|by rewrite E]. Qed.

(** The default limits of a query are within its maximal ones. *)
Definition limits_consistent (p : AnalyticsRuntimePolicy) : Prop :=
  ar_DefaultEventsLimit p ≤ ar_MaxEventsLimit p ∧ ar_DefaultSummaryLimit p ≤ ar_MaxSummaryLimit p.

Lemma low_water_ok x : low_water_bad x = false → f64_ltb x f64_zero || f64_ltb (f64_of_int 100) x = false.
Proof.
  unfold low_water_bad. intros [H1 H2]%orb_false_iff. rewrite H2, orb_false_r. clear H2. revert H1.
  unfold f64_leb, f64_ltb, SpecFloat.SFleb, SpecFloat.SFltb. by destruct (SpecFloat.SFcompare _ _) as [[]|].
Qed.

Lemma effective_low_water p d :
  low_water_bad (er_RateLowWaterPct d) = false →
  low_water_bad (er_RateLowWaterPct (EdgeRuntimePolicy_Effective p d)) = false.
Proof. intros Hd. cbn. by destruct (low_water_bad (er_RateLowWaterPct p)) eqn:E. Qed.

(** Positive settings are not negative. *)
Ltac positive := rewrite ?(proj2 (Z.ltb_ge (or_default _ _) 0)) by (apply Z.lt_le_incl, or_default_pos; vm_compute; done).

Lemma effective_valid rp :
  RuntimePolicy_Validate (RuntimePolicy_Effective rp) = None ↔
  limits_consistent (rp_Analytics (RuntimePolicy_Effective rp)).
Proof.
  unfold RuntimePolicy_Validate. rewrite !or_else_None, !at_None.
  unfold HubRuntimePolicy_Validate, EdgeRuntimePolicy_Validate, AnalyticsRuntimePolicy_Validate, limits_consistent.
  rewrite !or_else_None, !fail_if_None.
  rewrite (low_water_ok (er_RateLowWaterPct (rp_Edge (RuntimePolicy_Effective rp))))
    by (apply effective_low_water; vm_compute; done).
  cbn [RuntimePolicy_Effective HubRuntimePolicy_Effective EdgeRuntimePolicy_Effective AnalyticsRuntimePolicy_Effective
       rp_Hub rp_Edge rp_Analytics hr_CORSPreflightMaxAge hr_HTTPReadTimeout hr_HTTPWriteTimeout hr_HTTPShutdownTimeout
       er_AnalyticsBufferSize er_AnalyticsPublishTimeout er_RateLeaseSize er_CacheMaxObjectBytes
       er_UpstreamClientTimeout er_UpstreamMaxIdleConns er_UpstreamIdleConnTimeout er_HTTPReadTimeout
       er_HTTPWriteTimeout er_HTTPIdleTimeout ar_ReadTimeout ar_WriteTimeout ar_IdleTimeout ar_DefaultEventsLimit
       ar_MaxEventsLimit ar_MaxEventsOffset ar_DefaultSummaryLimit ar_MaxSummaryLimit ar_ConfigFetchTimeout
       ar_ShutdownTimeout].
  positive. rewrite !(proj2 (Z.ltb_lt 0 (or_default _ _))) by (apply or_default_pos; vm_compute; done).
  cbn [orb andb]. rewrite !Z.ltb_ge. tauto.
Qed.

Lemma effective_idemp rp : RuntimePolicy_Effective (RuntimePolicy_Effective rp) = RuntimePolicy_Effective rp.
Proof.
  assert (Hl := effective_low_water (rp_Edge rp) (rp_Edge DefaultRuntimePolicy)).
  unfold RuntimePolicy_Effective at 1 3. f_equal.
  - unfold HubRuntimePolicy_Effective. cbn -[or_list or_default or_blank DefaultRuntimePolicy].
    by rewrite !or_list_idemp, !or_default_idemp, or_blank_idemp.
  - unfold EdgeRuntimePolicy_Effective at 1. cbn -[or_list or_default or_blank DefaultRuntimePolicy low_water_bad] in *.
    rewrite Hl by (vm_compute; done). by rewrite !or_default_idemp.
  - unfold AnalyticsRuntimePolicy_Effective. cbn -[or_list or_default or_blank DefaultRuntimePolicy].
    by rewrite !or_default_idemp, !or_blank_idemp.
Qed.
