(* ===== verification/Config.v ===== *)
(** * Configuration ([packages/common/types/config.go])

    The compiled configuration the hub and the edges serve from, its checks,
    and the hub's lookups ([packages/hub/config.go]). *)

From S2P Require Import Prelude Float64 Policies.

Local Open Scope Z_scope.

Record TierConfig := mkTier {
  t_TierID : string;
  t_Quota : Z;      (* uint32 *)
  t_GetCost : Z;    (* uint8, as the other costs *)
  t_PostCost : Z;
  t_PutCost : Z;
  t_DeleteCost : Z;
  t_OtherCost : Z;
  t_Algorithm : string;
  t_Rate : float64;
}.

Record LimitSpec := mkLimitSpec {
  ls_ID : string;
  ls_Per : string;
  ls_Algorithm : string;
  ls_Quota : Z;
  ls_Window : Z; (* time.Duration *)
  ls_Rate : float64;
  ls_Shadow : bool;
}.

Definition PerKey : string := "key".
Definition PerClientIP : string := "client_ip".
Definition PerService : string := "service".
Definition ServiceSubject : string := "_service".

Record OrgLimit := mkOrgLimit {
  og_Quota : Z;
  og_Window : Z;
  og_Claim : string;
}.

Record CostPolicy := mkCostPolicy {
  cp_Estimate : Z;
  cp_EstimateHeader : string;
  cp_ActualHeader : string;
  cp_OnMissing : string;
  cp_MaxDebt : Z;
}.

Record LeasePolicy := mkLeasePolicy {
  lp_Mode : string;
  lp_Horizon : Z;
  lp_Min : Z;
  lp_Max : Z;
}.

Definition DefaultLeaseHorizon : Z := 2 * Second.
Definition DefaultLeaseMin : Z := 1.

Definition LeasePolicy_Adaptive (p : LeasePolicy) : bool := negb (lp_Mode p =? "fixed")%string.

Definition LeasePolicy_EffectiveHorizon (p : LeasePolicy) : Z :=
  if 0 <? lp_Horizon p then lp_Horizon p else DefaultLeaseHorizon.

Record CircuitBreakerConfig := mkBreaker {
  cb_Failures : Z;
  cb_Cooldown : Z;
}.

Record JWTConfig := mkJWT {
  jw_JWKSURL : string;
  jw_Issuer : string;
  jw_Audience : string;
  jw_TierClaim : string;
}.

Record AuthConfig := mkAuth {
  au_Type : string;
  au_JWT : option JWTConfig;
}.

Record ServiceConfig := mkService {
  sv_ServiceID : string;
  sv_TargetURL : string;
  sv_Tiers : list TierConfig;
  sv_SafetyTier : option TierConfig;
  sv_Transform : TransformConfig;
  sv_CORS : option CORSConfig;
  sv_Analytics : AnalyticsConfig;
  sv_Cache : option CacheConfig;
  sv_Failure : FailureConfig;
  sv_Upstreams : list string;
  sv_LoadBalancing : string;
  sv_CircuitBreaker : option CircuitBreakerConfig;
  sv_Auth : AuthConfig;
  sv_MaxConcurrent : Z;
  sv_Methods : list string;
  sv_Host : string;
  sv_Timeout : Z;
  sv_MaxBodyBytes : Z;
  sv_Limits : list LimitSpec;
  sv_Org : option OrgLimit;
  sv_Shadow : bool;
  sv_Cost : option CostPolicy;
  sv_Lease : LeasePolicy;
  sv_Global : option (gmap string float64); (* GlobalLimit.Floors *)
}.

(** [ServiceConfig{ServiceID: …, TargetURL: …, Tiers: …, SafetyTier: …, Limits:
    …, Lease: …, Global: …}], every other field zero. *)
Definition plain_service (id url : string) (tiers : list TierConfig) (safety : option TierConfig)
  (limits : list LimitSpec) (lease : LeasePolicy) (global : option (gmap string float64)) : ServiceConfig :=
  {| sv_ServiceID := id; sv_TargetURL := url; sv_Tiers := tiers; sv_SafetyTier := safety;
     sv_Transform := mkTransform false ∅ []; sv_CORS := None;
     sv_Analytics := mkAnalytics false "" 0 f64_zero; sv_Cache := None;
     sv_Failure := no_failure_config; sv_Upstreams := []; sv_LoadBalancing := "";
     sv_CircuitBreaker := None; sv_Auth := mkAuth "" None; sv_MaxConcurrent := 0; sv_Methods := [];
     sv_Host := ""; sv_Timeout := 0; sv_MaxBodyBytes := 0; sv_Limits := limits; sv_Org := None;
     sv_Shadow := false; sv_Cost := None; sv_Lease := lease; sv_Global := global |}.

Record LeasingConfig := mkLeasing {
  lc_LeaseQuantum : Z;
  lc_LowWaterPct : float64;
  lc_LeaseTTL : Z;
  lc_RenewalBuffer : Z;
}.

Record PrefixConfig := mkPrefix {
  px_Prefix : string;
  px_QuotaPeriod : Z; (* time.Duration *)
  px_Leasing : LeasingConfig;
  px_Services : list ServiceConfig;
}.

Inductive DescriptorEntry := mkEntry {
  de_Key : string;
  de_Value : string;
  de_Limit : option LimitSpec;
  de_Entries : list DescriptorEntry;
}.

Record DescriptorDomain := mkDomain {
  dd_Domain : string;
  dd_Entries : list DescriptorEntry;
}.

Record GatewayConfig := mkGateway {
  gc_Prefixes : list PrefixConfig;
  gc_Runtime : RuntimePolicy;
  gc_Descriptors : list DescriptorDomain;
}.

(** [Targets] and [AuthType] with their defaults. *)
Definition ServiceConfig_Targets (s : ServiceConfig) : list string :=
  match sv_Upstreams s with
  | [] => [sv_TargetURL s]
  | us => us
  end.

Definition ServiceConfig_AuthType (s : ServiceConfig) : string :=
  if (au_Type (sv_Auth s) =? "")%string then "api_key" else au_Type (sv_Auth s).

(** [Effective]: a prefix's leasing parameters over the edge defaults. *)
Definition LeasingConfig_Effective (lc : LeasingConfig) (global : EdgeRuntimePolicy) (quotaPeriod : Z)
  : LeasingConfig :=
  {| lc_LeaseQuantum := if lc_LeaseQuantum lc <=? 0 then er_RateLeaseSize global else lc_LeaseQuantum lc;
     lc_LowWaterPct := if f64_leb (lc_LowWaterPct lc) f64_zero then er_RateLowWaterPct global else lc_LowWaterPct lc;
     lc_LeaseTTL := if lc_LeaseTTL lc <=? 0
                    then (if 0 <? quotaPeriod then quotaPeriod else 60 * Second)
                    else lc_LeaseTTL lc;
     lc_RenewalBuffer := if lc_RenewalBuffer lc <=? 0 then 2 * Second else lc_RenewalBuffer lc |}.

(** ** Validation *)

Local Open Scope check_scope.

(** The first error of a list's elements, with its position. *)
Fixpoint validate_all {A} (what : string) (f : A → option string) (i : Z) (l : list A) : option string :=
  match l with
  | [] => None
  | x :: l => at_ (what +:+ "[" +:+ itoa i +:+ "]") (f x) ;;; validate_all what f (i + 1) l
  end.

Definition ServiceConfig_Validate (s : ServiceConfig) : option string :=
  at_ "analytics" (AnalyticsConfig_Validate (sv_Analytics s)) ;;;
  match sv_SafetyTier s with
  | Some t =>
      fail_if (t_TierID t =? "")%string "safety_tier.tier_id is required" ;;;
      fail_if (t_Quota t =? 0) "safety_tier.quota must be > 0"
  | None => None
  end.

Definition PrefixConfig_Validate (p : PrefixConfig) : option string :=
  fail_if (lc_LeaseQuantum (px_Leasing p) <? 0) "leasing.lease_quantum must be >= 0" ;;;
  fail_if (f64_ltb (lc_LowWaterPct (px_Leasing p)) f64_zero) "leasing.low_water_pct must be >= 0" ;;;
  fail_if (lc_LeaseTTL (px_Leasing p) <? 0) "leasing.lease_ttl must be >= 0" ;;;
  fail_if (lc_RenewalBuffer (px_Leasing p) <? 0) "leasing.renewal_buffer must be >= 0" ;;;
  validate_all "services" ServiceConfig_Validate 0 (px_Services p).

Definition GatewayConfig_Validate (cfg : GatewayConfig) : option string :=
  validate_all "prefixes" PrefixConfig_Validate 0 (gc_Prefixes cfg) ;;;
  at_ "runtime" (RuntimePolicy_Validate (gc_Runtime cfg)).

(** ** Lookups ([packages/hub/config.go]) *)

Definition FindPrefix (cfg : GatewayConfig) (prefix : string) : option PrefixConfig :=
  let prefix := TrimSpace prefix in
  if (prefix =? "")%string then None
  else find (λ p, (px_Prefix p =? prefix)%string) (gc_Prefixes cfg).

Definition FindService (cfg : GatewayConfig) (prefix service : string)
  : option (PrefixConfig * ServiceConfig) :=
  match FindPrefix cfg prefix with
  | None => None
  | Some p =>
      match find (λ s, (sv_ServiceID s =? TrimSpace service)%string) (px_Services p) with
      | Some s => Some (p, s)
      | None => None
      end
  end.

(** [findLimit] and [findTier] of the lease server. *)
Definition findLimit (svc : ServiceConfig) (id : string) : option LimitSpec :=
  find (λ l, (ls_ID l =? id)%string) (sv_Limits svc).

Definition findTier (svc : ServiceConfig) (tierID : string) : option TierConfig :=
  match find (λ t, (t_TierID t =? tierID)%string) (sv_Tiers svc) with
  | Some t => Some t
  | None =>
      match sv_SafetyTier svc with
      | Some t => if (t_TierID t =? tierID)%string then Some t else None
      | None => None
      end
  end.
