(* ===== verification/Decide.v ===== *)
(** * The decision service ([packages/decide])

    [decide.go]: descriptors matched against the configured tree, the limit and
    counter a descriptor is charged to, and the hub's way back from a limit id
    to the limit.  The hash of the caller's values (SHA-256, hexadecimal) is a
    parameter. *)

From S2P Require Import Prelude Float64 Policies Config.
From Stdlib Require Import Ascii.

Local Open Scope Z_scope.

Definition Scope : string := "_rls".

Record Entry := mkDescEntry {
  en_Key : string;
  en_Value : string;
}.

Record Match := mkMatch {
  mt_LimitID : string;
  mt_Subject : string;
  mt_Spec : LimitSpec;
}.

(** [strings.Join]. *)
Fixpoint Join (l : list string) (sep : string) : string :=
  match l with
  | [] => ""
  | [s] => s
  | s :: l => s +:+ sep +:+ Join l sep
  end.

(** [strings.Split] on one character, and [strings.Cut]. *)
Fixpoint Split (c : ascii) (s : string) : list string :=
  match s with
  | EmptyString => [""]
  | String d s =>
      if (d =? c)%char then "" :: Split c s
      else match Split c s with
           | [] => [String d ""] (* unreachable: the result is never empty *)
           | x :: l => String d x :: l
           end
  end.

Fixpoint Cut (c : ascii) (s : string) : string * string * bool :=
  match s with
  | EmptyString => ("", "", false)
  | String d s =>
      if (d =? c)%char then ("", s, true)
      else let '(before, after, found) := Cut c s in (String d before, after, found)
  end.

Definition findDomain (cfg : GatewayConfig) (domain : string) : option DescriptorDomain :=
  find (λ d, (dd_Domain d =? domain)%string) (gc_Descriptors cfg).

Definition segment (e : DescriptorEntry) : string :=
  if (de_Value e =? "")%string then de_Key e else de_Key e +:+ "=" +:+ de_Value e.

(** The first entry of a level with this key and value. *)
Definition entry_at (level : list DescriptorEntry) (key value : string) : option DescriptorEntry :=
  find (λ e, (de_Key e =? key)%string && (de_Value e =? value)%string) level.

Section subject.
(** Half the SHA-256 digest in hexadecimal. *)
Variable sha256_hex16 : string → string.

Definition subject (values : list string) : string :=
  match values with
  | [] => "_all"
  | _ => "v" +:+ sha256_hex16 (Join values (String "000" ""))
  end.

(** The entries of a descriptor matched level by level: the last entry, the
    path of segments, and the values of the entries without one. *)
Fixpoint resolve_path (level : list DescriptorEntry) (entries : list Entry)
  (node : option DescriptorEntry) (path values : list string)
  : option (option DescriptorEntry * list string * list string) :=
  match entries with
  | [] => Some (node, path, values)
  | e :: entries =>
      match entry_at level (en_Key e) (en_Value e) with
      | Some n => resolve_path (de_Entries n) entries (Some n) (path ++ [segment n]) values
      | None =>
          match entry_at level (en_Key e) "" with
          | Some n => resolve_path (de_Entries n) entries (Some n) (path ++ [segment n])
                        (values ++ [en_Value e])
          | None => None
          end
      end
  end.

Definition Resolve (cfg : GatewayConfig) (domain : string) (entries : list Entry) : option Match :=
  match findDomain cfg domain, entries with
  | None, _ | _, [] => None
  | Some d, _ =>
      match resolve_path (dd_Entries d) entries None [] [] with
      | Some (Some node, path, values) =>
          match de_Limit node with
          | None => None
          | Some spec => Some (mkMatch (Join path "/") (subject values) spec)
          end
      | _ => None
      end
  end.
End subject.

Fixpoint find_path (level : list DescriptorEntry) (segs : list string) (node : option DescriptorEntry)
  : option DescriptorEntry :=
  match segs with
  | [] => node
  | seg :: segs =>
      let '(key, value, _) := Cut "=" seg in
      match entry_at level key value with
      | None => None
      | Some n => find_path (de_Entries n) segs (Some n)
      end
  end.

Definition Find (cfg : GatewayConfig) (domain limitID : string) : option LimitSpec :=
  match findDomain cfg domain with
  | None => None
  | Some d =>
      if (limitID =? "")%string then None
      else match find_path (dd_Entries d) (Split "/" limitID) None with
           | Some node => de_Limit node
           | None => None
           end
  end.

(** ** What configuration validation guarantees ([validateEntries]) *)

Inductive entry_ok : DescriptorEntry → Prop :=
| EntryOk e :
    de_Key e ≠ "" →
    ¬ has_char "/" (de_Key e) → ¬ has_char "=" (de_Key e) →
    ¬ has_char "/" (de_Value e) → ¬ has_char "=" (de_Value e) →
    Forall entry_ok (de_Entries e) → entry_ok e.

Definition domain_ok (d : DescriptorDomain) : Prop := Forall entry_ok (dd_Entries d).

(** ** From a descriptor to its limit and back *)

Lemma Split_no_sep c s : ¬ has_char c s → Split c s = [s].
Proof.
  induction s as [|d s IH]; intros Hs; cbn; [done|].
  unfold has_char in *. cbn in Hs. apply not_elem_of_cons in Hs as [Hd Hs].
  rewrite (proj2 (Ascii.eqb_neq _ _)) by congruence. by rewrite IH.
Qed.

Lemma Split_cons c s t : ¬ has_char c s → Split c (s +:+ String c t) = s :: Split c t.
Proof.
  induction s as [|d s IH]; intros Hs.
  - change ("" +:+ String c t) with (String c t). cbn. by rewrite Ascii.eqb_refl.
  - unfold has_char in *. cbn in Hs. apply not_elem_of_cons in Hs as [Hd Hs].
    change (String d s +:+ String c t) with (String d (s +:+ String c t)). cbn.
    rewrite (proj2 (Ascii.eqb_neq _ _)) by congruence. by rewrite IH.
Qed.

Lemma Split_Join c l :
  l ≠ [] → Forall (λ s, ¬ has_char c s) l → Split c (Join l (String c "")) = l.
Proof.
  induction l as [|s l IH]; intros Hne Hall; [done|]. apply Forall_cons in Hall as [Hs Hl].
  destruct l as [|s' l].
  - cbn. by apply Split_no_sep.
  - change (Join (s :: s' :: l) (String c "")) with (s +:+ String c (Join (s' :: l) (String c ""))).
    rewrite Split_cons by done. by rewrite IH.
Qed.

Lemma Cut_no_sep c s : ¬ has_char c s → Cut c s = (s, "", false).
Proof.
  induction s as [|d s IH]; intros Hs; cbn; [done|].
  unfold has_char in *. cbn in Hs. apply not_elem_of_cons in Hs as [Hd Hs].
  rewrite (proj2 (Ascii.eqb_neq _ _)) by congruence. by rewrite IH.
Qed.

Lemma Cut_cons c s t : ¬ has_char c s → Cut c (s +:+ String c t) = (s, t, true).
Proof.
  induction s as [|d s IH]; intros Hs.
  - change ("" +:+ String c t) with (String c t). cbn. by rewrite Ascii.eqb_refl.
  - unfold has_char in *. cbn in Hs. apply not_elem_of_cons in Hs as [Hd Hs].
    change (String d s +:+ String c t) with (String d (s +:+ String c t)). cbn.
    rewrite (proj2 (Ascii.eqb_neq _ _)) by congruence. by rewrite IH.
Qed.

Lemma segment_Cut e :
  entry_ok e → fst (Cut "=" (segment e)) = (de_Key e, de_Value e) ∧ ¬ has_char "/" (segment e) ∧
  segment e ≠ "".
Proof.
  intros [e' Hk H1 H2 H3 H4 _]. unfold segment. destruct (String.eqb_spec (de_Value e') "") as [E|E].
  - rewrite Cut_no_sep by done. by rewrite E.
  - change (de_Key e' +:+ "=" +:+ de_Value e') with (de_Key e' +:+ String "=" (de_Value e')).
    rewrite Cut_cons by done. split_and!; [done| |].
    + unfold has_char in *. rewrite chars_app. cbn. intros [?|[?|?]%elem_of_cons]%elem_of_app; done.
    + by destruct (de_Key e').
Qed.

Lemma entry_at_Some level key value e :
  entry_at level key value = Some e → e ∈ level ∧ de_Key e = key ∧ de_Value e = value.
Proof.
  unfold entry_at. intros [Hin E]%find_some.
  apply andb_prop in E as [Ek Ev]. apply String.eqb_eq in Ek, Ev.
  by apply list_elem_of_In in Hin.
Qed.

(** A lookup by the found entry's own key and value finds it again. *)
Lemma entry_at_self level key value e :
  entry_at level key value = Some e → entry_at level (de_Key e) (de_Value e) = Some e.
Proof. intros H. by destruct (entry_at_Some _ _ _ _ H) as (_ & -> & ->). Qed.

Lemma entry_ok_children e : entry_ok e → Forall entry_ok (de_Entries e).
Proof. by intros []. Qed.

(** One step of [resolve_path]: the entry taken and whether its value is the
    caller's. *)
Definition resolve_step (level : list DescriptorEntry) (e : Entry)
  : option (DescriptorEntry * list string) :=
  match entry_at level (en_Key e) (en_Value e) with
  | Some n => Some (n, [])
  | None => option_map (λ n, (n, [en_Value e])) (entry_at level (en_Key e) "")
  end.

Lemma resolve_path_cons level e entries node path values :
  resolve_path level (e :: entries) node path values =
  match resolve_step level e with
  | Some (n, vs) => resolve_path (de_Entries n) entries (Some n) (path ++ [segment n]) (values ++ vs)
  | None => None
  end.
Proof.
  cbn. unfold resolve_step. destruct (entry_at level _ (en_Value e)); [by rewrite app_nil_r|].
  by destruct (entry_at level _ "").
Qed.

Lemma resolve_step_self level e n vs :
  resolve_step level e = Some (n, vs) →
  n ∈ level ∧ entry_at level (de_Key n) (de_Value n) = Some n ∧ de_Key n = en_Key e ∧
  (vs = [] ∧ de_Value n = en_Value e ∨ vs = [en_Value e] ∧ de_Value n = "" ∧ en_Value e ≠ "").
Proof.
  unfold resolve_step. destruct (entry_at level _ (en_Value e)) as [n'|] eqn:E1.
  - intros [= -> <-]. pose proof (entry_at_Some _ _ _ _ E1) as (?&?&?).
    pose proof (entry_at_self _ _ _ _ E1). split_and!; [done..|]. by left.
  - destruct (entry_at level _ "") as [n'|] eqn:E2; [|done]. intros [= -> <-].
    pose proof (entry_at_Some _ _ _ _ E2) as (?&?&?). pose proof (entry_at_self _ _ _ _ E2).
    split_and!; [done..|]. right. split_and!; [done..|]. congruence.
Qed.

(** The path of a resolved descriptor leads back to its entry. *)
Lemma resolve_path_find entries : ∀ level node path values node' path' values',
  Forall entry_ok level →
  resolve_path level entries node path values = Some (node', path', values') →
  ∃ segs, path' = path ++ segs ∧ find_path level segs node = node' ∧
    Forall (λ s, ¬ has_char "/" s ∧ s ≠ "") segs ∧ length segs = length entries.
Proof.
  induction entries as [|e entries IH]; intros level node path values node' path' values' Hl H.
  - cbn in H. simplify_eq. exists []. by rewrite app_nil_r.
  - rewrite resolve_path_cons in H.
    destruct (resolve_step level e) as [[n vs]|] eqn:E; [|done].
    destruct (resolve_step_self _ _ _ _ E) as (Hin & Hself & _).
    assert (Hn : entry_ok n) by (by eapply Forall_forall in Hl).
    destruct (IH _ _ _ _ _ _ _ (entry_ok_children _ Hn) H) as (segs & -> & Hf & Hs & Hlen).
    destruct (segment_Cut n Hn) as (HC & Hsl & Hne).
    exists (segment n :: segs). rewrite <-app_assoc. cbn [app]. split; [done|]. split.
    + cbn. destruct (Cut "=" (segment n)) as [[k v] b]. cbn in HC. simplify_eq. by rewrite Hself.
    + split; [by constructor|]. cbn. by rewrite Hlen.
Qed.

Lemma Join_nonempty l sep : l ≠ [] → Forall (λ s, s ≠ "") l → Join l sep ≠ "".
Proof.
  destruct l as [|s [|s' l]]; [done| |]; intros _ [Hs _]%Forall_cons; [done|].
  cbn. by destruct s.
Qed.

(** Every domain of a validated configuration. *)
Definition descriptors_ok (cfg : GatewayConfig) : Prop := Forall domain_ok (gc_Descriptors cfg).

Lemma findDomain_ok cfg domain d :
  descriptors_ok cfg → findDomain cfg domain = Some d → Forall entry_ok (dd_Entries d).
Proof.
  intros Hok [Hin _]%find_some. apply list_elem_of_In in Hin.
  by eapply Forall_forall in Hok.
Qed.

(** C33: the decision service and the hub agree on which limit a descriptor is
    charged to: for a validated configuration, the limit id an edge sends for a
    resolved descriptor is found by the hub, and it is the very limit the
    descriptor matched. *)
Theorem resolve_find (sha : string → string) (cfg : GatewayConfig) (domain : string)
  (entries : list Entry) (m : Match) :
  descriptors_ok cfg →
  Resolve sha cfg domain entries = Some m →
  Find cfg domain (mt_LimitID m) = Some (mt_Spec m).
Proof.
  intros Hcfg. unfold Resolve, Find. destruct (findDomain cfg domain) as [d|] eqn:Ed; [|done].
  destruct entries as [|e entries]; [done|].
  destruct (resolve_path _ _ _ _ _) as [[[[node|] path] values]|] eqn:E; [|done..].
  destruct (de_Limit node) as [spec|] eqn:El; [|done]. intros [= <-]. cbn [mt_LimitID mt_Spec].
  destruct (resolve_path_find _ _ _ _ _ _ _ _ (findDomain_ok _ _ _ Hcfg Ed) E)
    as (segs & -> & Hf & Hs & Hlen). cbn [app].
  assert (segs ≠ []) by (by intros ->).
  rewrite (proj2 (String.eqb_neq _ _)) by (apply Join_nonempty; [done|by eapply Forall_impl; [exact Hs|cbn; intros ? []]]).
  rewrite Split_Join; [by rewrite Hf|done|by eapply Forall_impl; [exact Hs|cbn; intros ? []]].
Qed.

Module Example_descriptors.
Definition per_user : LimitSpec :=
  {| ls_ID := ""; ls_Per := ""; ls_Algorithm := ""; ls_Quota := 10; ls_Window := Minute;
     ls_Rate := f64_zero; ls_Shadow := false |}.
Definition cfg : GatewayConfig :=
  {| gc_Prefixes := []; gc_Runtime := DefaultRuntimePolicy;
     gc_Descriptors := [mkDomain "shop"
       [mkEntry "generic_key" "checkout" None
          [mkEntry "user_id" "" (Some per_user) []; mkEntry "user_id" "admin" None []];
        mkEntry "user_id" "" None [mkEntry "path" "" (Some per_user) []]]] |}.
Definition alice : list Entry := [mkDescEntry "generic_key" "checkout"; mkDescEntry "user_id" "alice"].

Lemma descriptors_cfg_ok : descriptors_ok cfg.
Proof. repeat (constructor || (cbn; unfold has_char; cbn; set_solver)). Qed.
End Example_descriptors.

Lemma resolve_find_witness :
  Find Example_descriptors.cfg "shop" "generic_key=checkout/user_id" = Some Example_descriptors.per_user.
Proof.
  apply (resolve_find id Example_descriptors.cfg "shop" Example_descriptors.alice
    (mkMatch "generic_key=checkout/user_id" "valice" Example_descriptors.per_user)).
  - apply Example_descriptors.descriptors_cfg_ok.
  - vm_compute. reflexivity.
Defined.

(** ** One counter per descriptor *)

Lemma resolve_path_acc entries : ∀ level node path values,
  resolve_path level entries node path values =
  option_map (λ r, (r.1.1, path ++ r.1.2, values ++ r.2)) (resolve_path level entries node [] []).
Proof.
  induction entries as [|e entries IH]; intros level node path values.
  - cbn. by rewrite !app_nil_r.
  - rewrite !resolve_path_cons. destruct (resolve_step level e) as [[n vs]|]; [|done].
    rewrite (IH _ _ (path ++ _)), (IH _ _ ([] ++ _)).
    destruct (resolve_path _ _ _ [] []) as [[[? ?] ?]|]; [|done]. cbn. by rewrite <-!app_assoc.
Qed.

Lemma segment_inj e1 e2 :
  entry_ok e1 → entry_ok e2 → segment e1 = segment e2 → de_Key e1 = de_Key e2 ∧ de_Value e1 = de_Value e2.
Proof.
  intros H1 H2 E. destruct (segment_Cut e1 H1) as [C1 _], (segment_Cut e2 H2) as [C2 _].
  rewrite E, C2 in C1. by simplify_eq.
Qed.

(** Values a caller sends: neither empty nor with the separator of the hash. *)
Definition value_ok (e : Entry) : Prop := en_Value e ≠ "" ∧ ¬ has_char "000" (en_Value e).

Lemma resolve_path_inj entries1 : ∀ entries2 level node n1 n2 segs vs,
  Forall entry_ok level → Forall value_ok entries1 → Forall value_ok entries2 →
  resolve_path level entries1 node [] [] = Some (n1, segs, vs) →
  resolve_path level entries2 node [] [] = Some (n2, segs, vs) →
  entries1 = entries2.
Proof.
  induction entries1 as [|e1 entries1 IH]; intros [|e2 entries2] level node n1 n2 segs vs Hl H1 H2 E1 E2;
    [done| | |]; rewrite ?resolve_path_cons in E1; rewrite ?resolve_path_cons in E2.
  1,2: destruct (resolve_step level _) as [[n w]|]; [|done];
    rewrite resolve_path_acc in E1; rewrite resolve_path_acc in E2; cbn in E1, E2;
    destruct (resolve_path _ _ _ _ _) as [[[? ?] ?]|]; try done; cbn in *; congruence.
  destruct (resolve_step level e1) as [[m1 w1]|] eqn:S1, (resolve_step level e2) as [[m2 w2]|] eqn:S2; try done.
  destruct (resolve_step_self _ _ _ _ S1) as (In1 & L1 & K1 & V1).
  destruct (resolve_step_self _ _ _ _ S2) as (In2 & L2 & K2 & V2).
  rewrite resolve_path_acc in E1, E2.
  destruct (resolve_path _ entries1 _ _ _) as [[[q1 s1] u1]|] eqn:P1; [|done].
  destruct (resolve_path _ entries2 _ _ _) as [[[q2 s2] u2]|] eqn:P2; [|done].
  cbn in E1, E2. apply Forall_cons in H1 as [[Hv1 _] H1], H2 as [[Hv2 _] H2].
  assert (entry_ok m1 ∧ entry_ok m2) as [Ok1 Ok2] by (split; by eapply Forall_forall in Hl).
  injection E1 as -> <- <-. injection E2 as -> Eseg Es Evs.
  destruct (segment_inj _ _ Ok2 Ok1 Eseg) as [Ek Ev]. subst s2.
  rewrite Ek, Ev, L1 in L2. injection L2 as <-.
  assert (e1 = e2 ∧ u1 = u2) as [<- <-].
  { destruct e1, e2; cbn in *.
    destruct V1 as [[-> V1]|(-> & V1 & _)], V2 as [[-> V2]|(-> & V2 & _)]; cbn in *; simplify_eq/=; auto; congruence. }
  f_equal. eapply (IH entries2 (de_Entries m1)); [by apply entry_ok_children|done..|exact P2].
Qed.

(** The subject of a descriptor gives its variable values back, unless the
    hash collides. *)
Lemma subject_inj (sha : string → string) vs1 vs2 :
  Forall (λ v, ¬ has_char "000" v) vs1 → Forall (λ v, ¬ has_char "000" v) vs2 →
  (∀ s t, s = Join vs1 (String "000" "") → t = Join vs2 (String "000" "") → sha s = sha t → s = t) →
  subject sha vs1 = subject sha vs2 → vs1 = vs2.
Proof.
  intros H1 H2 Hsha E.
  destruct (decide (vs1 = [])) as [->|N1], (decide (vs2 = [])) as [->|N2]; [done| | |].
  1: by destruct vs2. 1: by destruct vs1.
  assert (sha (Join vs1 (String "000" "")) = sha (Join vs2 (String "000" ""))) as Eh.
  { destruct vs1, vs2; try done. cbn [subject] in E. by injection E. }
  rewrite <-(Split_Join "000" vs1), <-(Split_Join "000" vs2) by done. f_equal. eauto.
Qed.

Lemma resolve_path_values entries : ∀ level node n segs vs,
  resolve_path level entries node [] [] = Some (n, segs, vs) →
  Forall (λ v, v ∈ en_Value <$> entries) vs.
Proof.
  induction entries as [|e entries IH]; intros level node n segs vs E.
  - cbn in E. by simplify_eq.
  - rewrite resolve_path_cons in E. destruct (resolve_step level e) as [[m w]|] eqn:S; [|done].
    rewrite resolve_path_acc in E. destruct (resolve_path _ entries _ _ _) as [[[q s] u]|] eqn:P; [|done].
    cbn in E. simplify_eq. apply Forall_app. split.
    + destruct (resolve_step_self _ _ _ _ S) as (_ & _ & _ & [[-> _]|(-> & _)]); repeat constructor.
    + eapply Forall_impl; [by eapply IH|]. intros v Hv. by right.
Qed.

Lemma values_clean entries vs :
  Forall value_ok entries → Forall (λ v, v ∈ en_Value <$> entries) vs →
  Forall (λ v, ¬ has_char "000" v) vs.
Proof.
  intros Hok Hvs. eapply Forall_impl; [exact Hvs|]. intros v (e & -> & He)%list_elem_of_fmap.
  eapply Forall_forall in Hok as [_ ?]; done.
Qed.

(** What a resolved descriptor's match is made of. *)
Lemma Resolve_Some sha cfg domain entries m :
  descriptors_ok cfg → Resolve sha cfg domain entries = Some m →
  ∃ d n segs vs, findDomain cfg domain = Some d ∧ Forall entry_ok (dd_Entries d) ∧
    resolve_path (dd_Entries d) entries None [] [] = Some (n, segs, vs) ∧
    mt_LimitID m = Join segs "/" ∧ mt_Subject m = subject sha vs ∧ Split "/" (mt_LimitID m) = segs.
Proof.
  intros Hcfg. unfold Resolve. destruct (findDomain cfg domain) as [d|] eqn:Ed; [|done].
  destruct entries as [|e entries]; [done|].
  destruct (resolve_path _ _ _ _ _) as [[[[node|] path] values]|] eqn:E; [|done..].
  destruct (de_Limit node) as [spec|] eqn:El; [|done]. intros [= <-].
  pose proof (findDomain_ok _ _ _ Hcfg Ed) as Hd.
  destruct (resolve_path_find _ _ _ _ _ _ _ _ Hd E) as (segs & -> & _ & Hs & Hlen).
  exists d, (Some node), segs, values. split_and!; [done..|]. cbn.
  apply Split_Join; [by intros ->|]. eapply Forall_impl; [exact Hs|]. by intros ? [].
Qed.

(** The decision service keeps a counter of its own for every descriptor:
    two descriptors of a domain that are charged to the same limit and subject
    are the same descriptor.  The callers' values are not empty and do not
    contain the separator character of the hash, and the hash does not collide
    on the two descriptors' values. *)
Theorem one_counter_per_descriptor (sha : string → string) (cfg : GatewayConfig) (domain : string)
  (e1 e2 : list Entry) (m1 m2 : Match) :
  descriptors_ok cfg → Forall value_ok e1 → Forall value_ok e2 →
  (∀ v1 v2, Forall (λ v, v ∈ en_Value <$> e1) v1 → Forall (λ v, v ∈ en_Value <$> e2) v2 →
    sha (Join v1 (String "000" "")) = sha (Join v2 (String "000" "")) →
    Join v1 (String "000" "") = Join v2 (String "000" "")) →
  Resolve sha cfg domain e1 = Some m1 → Resolve sha cfg domain e2 = Some m2 →
  mt_LimitID m1 = mt_LimitID m2 → mt_Subject m1 = mt_Subject m2 → e1 = e2.
Proof.
  intros Hcfg V1 V2 Hsha R1 R2 El Es.
  destruct (Resolve_Some _ _ _ _ _ Hcfg R1) as (d & n1 & s1 & v1 & Hd & Hok & P1 & _ & S1 & G1).
  destruct (Resolve_Some _ _ _ _ _ Hcfg R2) as (d' & n2 & s2 & v2 & Hd' & _ & P2 & _ & S2 & G2).
  rewrite Hd in Hd'. injection Hd' as <-. rewrite El, G2 in G1. subst s2.
  pose proof (resolve_path_values _ _ _ _ _ _ P1) as F1.
  pose proof (resolve_path_values _ _ _ _ _ _ P2) as F2.
  assert (v1 = v2) as <-.
  { apply (subject_inj sha); [exact (values_clean _ _ V1 F1)|exact (values_clean _ _ V2 F2)| |congruence].
    intros ? ? -> ->. by apply Hsha. }
  by eapply resolve_path_inj.
Qed.

Lemma one_counter_per_descriptor_witness :
  Resolve id Example_descriptors.cfg "shop" Example_descriptors.alice =
    Some (mkMatch "generic_key=checkout/user_id" "valice" Example_descriptors.per_user) ∧
  [mkDescEntry "generic_key" "checkout"; mkDescEntry "user_id" "alice"] = Example_descriptors.alice.
Proof.
  split; [vm_compute; reflexivity|].
  eapply (one_counter_per_descriptor id Example_descriptors.cfg "shop").
  - apply Example_descriptors.descriptors_cfg_ok.
  - repeat constructor; cbn; unfold has_char; cbn; set_solver.
  - repeat constructor; cbn; unfold has_char; cbn; set_solver.
  - intros v1 v2 _ _ E. exact E.
  - vm_compute. reflexivity.
  - vm_compute. reflexivity.
  - reflexivity.
  - reflexivity.
Defined.

(** an empty value is left out of what names the counter.  For any two
    nested entries without configured values, the descriptor with the value
    [v] first and an empty one second is charged to the same counter as the one
    with an empty value first and [v] second. *)
Theorem empty_value_shares_counter (sha : string → string) (rt : RuntimePolicy) (domain k1 k2 v : string)
  (spec : LimitSpec) :
  let cfg := mkGateway [] rt [mkDomain domain [mkEntry k1 "" None [mkEntry k2 "" (Some spec) []]]] in
  v ≠ "" →
  Resolve sha cfg domain [mkDescEntry k1 v; mkDescEntry k2 ""] =
    Resolve sha cfg domain [mkDescEntry k1 ""; mkDescEntry k2 v] ∧
  is_Some (Resolve sha cfg domain [mkDescEntry k1 v; mkDescEntry k2 ""]).
Proof.
  intros cfg Hv. unfold Resolve, cfg, findDomain. cbn. rewrite !String.eqb_refl. cbn. rewrite !String.eqb_refl.
  assert (E : (match v with "" => true | String _ _ => false end) = false) by (by destruct v). rewrite E. cbn.
  rewrite !String.eqb_refl, ?E. cbn. done.
Qed.

Lemma empty_value_shares_counter_witness :
  Resolve id (mkGateway [] DefaultRuntimePolicy [mkDomain "shop" [mkEntry "user" "" None
      [mkEntry "path" "" (Some Example_descriptors.per_user) []]]]) "shop"
      [mkDescEntry "user" "x"; mkDescEntry "path" ""] =
    Resolve id (mkGateway [] DefaultRuntimePolicy [mkDomain "shop" [mkEntry "user" "" None
      [mkEntry "path" "" (Some Example_descriptors.per_user) []]]]) "shop"
      [mkDescEntry "user" ""; mkDescEntry "path" "x"].
Proof.
  apply (empty_value_shares_counter id DefaultRuntimePolicy "shop" "user" "path" "x" Example_descriptors.per_user). discriminate.
Defined.
