(* ===== verification/Hub.v ===== *)
(** * The hub's lease server ([packages/hub/quota_lease_server.go])

    How a lease request, a return and a peer's borrow request become ledger
    operations.  The hub decides everything about a grant from its own
    configuration and key records.  Parameters: the API key pattern, the tier
    store's answers, and the hashes. *)

From S2P Require Import Prelude Float64 Ledger Region Wire Config Decide.
From Stdlib Require Import Ascii.

Local Open Scope Z_scope.

(** [%q] on a string of printable ASCII. *)
Fixpoint quote_chars (s : string) : string :=
  match s with
  | EmptyString => EmptyString
  | String c s =>
      if (c =? "034")%char || (c =? "092")%char then String "092" (String c (quote_chars s))
      else String c (quote_chars s)
  end.

Definition quote (s : string) : string := String "034" (quote_chars s +:+ String "034" "").

Inductive herror := HStatus (st : status) | HLedger (e : error).

Definition Error {A} (c : code) (msg : string) : result herror A := Err (HStatus (mkStatus c msg)).

Definition error_Error (e : error) : string :=
  match e with ErrBadSpec => "ledger: invalid limit spec" | ErrOther msg => msg end.

Inductive QuotaLeaseResult :=
| ResOk (resp : QuotaLeaseResponse)
| ResErr (st : status).

(** The stores' answers: a tier lookup, and an owner lookup where the store
    has one ([OwnerStore]). *)
Record TierStore := mkTierStore {
  GetTier : string → string → result string string;
  GetOwner : option (string → string → result string string);
}.

Record lease := mkLease { le_item : BatchItem; le_limit : Z }.

(** The hub: its ledger and, in a multi-region deployment, its region node. *)
Record QuotaLeaseServer := mkServer {
  qs_ledger : Mem;
  qs_region : option Node;
}.

Definition edgeIdentity (cn : option string) (edgeID : string) : string :=
  if (edgeID =? "")%string then ""
  else match cn with
       | Some cn => if (cn =? "")%string then edgeID else cn +:+ "/" +:+ edgeID
       | None => edgeID
       end.

Definition grantResponse (l : lease) (g : Grant) : QuotaLeaseResponse :=
  let waiting := g_Granted g =? 0 in
  {| qr_GrantedTokens := g_Granted g;
     qr_LeaseTtlSeconds := ((g_ExpiresIn g + Second - 1) / Second)%i64;
     qr_RemainingGlobal := g_Remaining g;
     qr_WaitingForCapacity := waiting;
     qr_RetryAfterMs := if waiting then Z.max (Milliseconds (g_RetryAfter g)) 1 else 0;
     qr_WindowId := g_WindowID g;
     qr_ExpiresInMs := Milliseconds (g_ExpiresIn g);
     qr_ResetInMs := Milliseconds (g_ResetIn g);
     qr_ActiveEdges := g_ActiveEdges g;
     qr_ParentWindowId := g_ParentWindowID g;
     qr_Limit := le_limit l |}.

Definition errorResult (e : herror) : QuotaLeaseResult :=
  match e with
  | HStatus st => ResErr st
  | HLedger ErrBadSpec => ResErr (mkStatus FailedPrecondition (error_Error ErrBadSpec))
  | HLedger e => ResErr (mkStatus Unavailable (error_Error e))
  end.

Definition zero_args : GrantArgs :=
  {| ga_Requested := 0; ga_EdgeID := ""; ga_Horizon := 0; ga_ObservedRate := f64_zero;
     ga_MinGrant := 0; ga_MaxGrant := 0; ga_Parent := None; ga_Regional := false; ga_AllocBase := 0 |}.

Section server.
Variable range : gmap string Z → list (string * Z).
Variable sha256_uint64 : string → Z.
Variable sha256_hex8 : string → string.
Variable validKey : string → bool.
Variable cfg : GatewayConfig.
Variable tierStore : TierStore.

Definition orgID (org : string) : string := sha256_hex8 org.

Definition resolveDescriptor (domain subject limitID : string) : result herror lease :=
  match Find cfg domain limitID with
  | None => Error NotFound ("no descriptor limit " +:+ quote limitID +:+ " in domain " +:+ quote domain)
  | Some spec =>
      Ok {| le_limit := ls_Quota spec;
            le_item :=
              {| bi_Ref := mkRef Scope domain limitID subject "";
                 bi_Spec := mkSpec (ls_Algorithm spec) (ls_Quota spec) (ls_Window spec) (ls_Rate spec);
                 bi_Args :=
                   {| ga_Requested := 0; ga_EdgeID := ""; ga_Horizon := DefaultLeaseHorizon;
                      ga_ObservedRate := f64_zero; ga_MinGrant := DefaultLeaseMin; ga_MaxGrant := 0;
                      ga_Parent := None; ga_Regional := false; ga_AllocBase := 0 |} |} |}
  end.

(** The sizing of a service's leases. *)
Definition lease_args (p : LeasePolicy) : GrantArgs :=
  if LeasePolicy_Adaptive p then
    {| ga_Requested := 0; ga_EdgeID := ""; ga_Horizon := LeasePolicy_EffectiveHorizon p;
       ga_ObservedRate := f64_zero; ga_MinGrant := Z.max (lp_Min p) DefaultLeaseMin;
       ga_MaxGrant := lp_Max p; ga_Parent := None; ga_Regional := false; ga_AllocBase := 0 |}
  else zero_args.

(** A caller's tier and organisation: the hub's records for API keys, the
    edge's word for the callers of other services. *)
Definition caller (svc : ServiceConfig) (prefix subject tierID org : string)
  : result herror (string * string) :=
  if (ServiceConfig_AuthType svc =? "api_key")%string then
    match GetTier tierStore prefix subject with
    | Err e => Error Unavailable ("tier lookup failed: " +:+ e)
    | Ok tierID =>
        match GetOwner tierStore, sv_Org svc with
        | Some owners, Some _ =>
            match owners prefix subject with
            | Err e => Error Unavailable ("owner lookup failed: " +:+ e)
            | Ok org => Ok (tierID, org)
            end
        | _, _ => Ok (tierID, "")
        end
    end
  else Ok (tierID, org).

(** The tier limit of a caller, with its regional share and its
    organisation's budget. *)
Definition resolve_tier (region : option Node) (px : PrefixConfig) (svc : ServiceConfig)
  (tier : TierConfig) (prefix service subject org : string) : lease :=
  let args := lease_args (sv_Lease svc) in
  let limit := t_Quota tier in
  let '(regional, base) :=
    match sv_Global svc, region with
    | Some floors, Some node => (true, Base sha256_uint64 limit floors (node_Name node) subject)
    | _, _ => (false, 0)
    end in
  let '(parent, parentSpec) :=
    match sv_Org svc with
    | Some o =>
        if (org =? "")%string then ("", None)
        else (orgID org,
              Some (mkSpec FixedWindow (og_Quota o)
                     (if og_Window o <=? 0 then px_QuotaPeriod px else og_Window o) f64_zero))
    | None => ("", None)
    end in
  {| le_limit := limit;
     le_item :=
       {| bi_Ref := mkRef prefix service "" subject parent;
          bi_Spec := mkSpec (t_Algorithm tier) limit (px_QuotaPeriod px) (t_Rate tier);
          bi_Args :=
            {| ga_Requested := 0; ga_EdgeID := ""; ga_Horizon := ga_Horizon args;
               ga_ObservedRate := f64_zero; ga_MinGrant := ga_MinGrant args;
               ga_MaxGrant := ga_MaxGrant args; ga_Parent := parentSpec;
               ga_Regional := regional; ga_AllocBase := base |} |} |}.

Definition resolve (region : option Node) (prefix service subject limitID tierID org : string)
  : result herror lease :=
  if negb (validKey subject) then Error InvalidArgument "api_key does not match api_key_pattern"
  else if (prefix =? Scope)%string then resolveDescriptor service subject limitID
  else
    match FindService cfg prefix service with
    | None => Error NotFound ("service " +:+ quote service +:+ " not found in prefix " +:+ quote prefix)
    | Some (px, svc) =>
        if negb (limitID =? "")%string then
          match findLimit svc limitID with
          | None => Error NotFound ("no limit " +:+ quote limitID +:+ " on service " +:+ quote service)
          | Some spec =>
              Ok {| le_limit := ls_Quota spec;
                    le_item :=
                      {| bi_Ref := mkRef prefix service limitID subject "";
                         bi_Spec := mkSpec (ls_Algorithm spec) (ls_Quota spec)
                           (if ls_Window spec <=? 0 then px_QuotaPeriod px else ls_Window spec)
                           (ls_Rate spec);
                         bi_Args := lease_args (sv_Lease svc) |} |}
          end
        else
          match caller svc prefix subject tierID org with
          | Err e => Err e
          | Ok (tierID, org) =>
              match findTier svc tierID with
              | None => Error PermissionDenied ("no tier " +:+ quote tierID +:+ " for key in service")
              | Some tier => Ok (resolve_tier region px svc tier prefix service subject org)
              end
          end
    end.

Definition resolveLease (region : option Node) (cn : option string) (req : QuotaLeaseRequest)
  : result herror lease :=
  match QuotaLeaseRequest_Validate req with
  | Some msg => Error InvalidArgument msg
  | None =>
      match resolve region (ql_Prefix req) (ql_ServiceId req) (ql_ApiKey req) (ql_LimitId req)
              (ql_TierId req) (ql_Org req) with
      | Err e => Err e
      | Ok l =>
          let it := le_item l in
          let a := bi_Args it in
          Ok {| le_limit := le_limit l;
                le_item :=
                  {| bi_Ref := bi_Ref it; bi_Spec := bi_Spec it;
                     bi_Args :=
                       {| ga_Requested := ql_RequestedTokens req;
                          ga_EdgeID := edgeIdentity cn (ql_EdgeId req);
                          ga_Horizon := ga_Horizon a; ga_ObservedRate := ql_ObservedRate req;
                          ga_MinGrant := ga_MinGrant a; ga_MaxGrant := ga_MaxGrant a;
                          ga_Parent := ga_Parent a; ga_Regional := ga_Regional a;
                          ga_AllocBase := ga_AllocBase a |} |} |}
      end
  end.

(** The need a starved request reports. *)
Definition starved_need (req : QuotaLeaseRequest) (l : lease) (g : Grant) : Need :=
  {| need_Ref := bi_Ref (le_item l); need_Spec := bi_Spec (le_item l);
     need_Window := g_WindowID g;
     need_Request := mkBorrowRequest (ql_Prefix req) (ql_ServiceId req) (ql_ApiKey req)
       (ql_LimitId req) (ql_TierId req) 0 0 "" "" |}.

Definition noteStarved (region : option Node) (req : QuotaLeaseRequest) (l : lease) (g : Grant)
  : option Node :=
  match region with
  | None => None
  | Some node =>
      if negb (ga_Regional (bi_Args (le_item l))) || (0 <? g_Granted g) then Some node
      else Some (Node_Starved node (starved_need req l g))
  end.

Definition RequestQuotaLease (s : QuotaLeaseServer) (now : Z) (cn : option string)
  (req : QuotaLeaseRequest) : result herror QuotaLeaseResponse * QuotaLeaseServer :=
  match resolveLease (qs_region s) cn req with
  | Err e => (Err e, s)
  | Ok l =>
      let it := le_item l in
      let '(r, m) := Mem_Grant range (qs_ledger s) now (bi_Ref it) (bi_Spec it) (bi_Args it) in
      match r with
      | Err e => (Err (HLedger e), mkServer m (qs_region s))
      | Ok g => (Ok (grantResponse l g), mkServer m (noteStarved (qs_region s) req l g))
      end
  end.

(** The loop over a batch's resolved requests: the items, in order. *)
Definition batch_items (resolved : list (QuotaLeaseRequest * result herror lease)) : list BatchItem :=
  omap (λ r, match r.2 with Ok l => Some (le_item l) | Err _ => None end) resolved.

(** The loop over the ledger's answers, each put at its request's index. *)
Fixpoint batch_results (resolved : list (QuotaLeaseRequest * result herror lease))
  (grants : list (result error Grant)) (region : option Node)
  : list QuotaLeaseResult * option Node :=
  match resolved with
  | [] => ([], region)
  | (_, Err e) :: rest =>
      let '(out, region) := batch_results rest grants region in (errorResult e :: out, region)
  | (req, Ok l) :: rest =>
      match grants with
      | [] => ([], region) (* unreachable: an answer for every item *)
      | Err e :: grants =>
          let '(out, region) := batch_results rest grants region in
          (errorResult (HLedger e) :: out, region)
      | Ok g :: grants =>
          let region := noteStarved region req l g in
          let '(out, region) := batch_results rest grants region in
          (ResOk (grantResponse l g) :: out, region)
      end
  end.

(** [clocks] are the ledger's clock readings, one for each item granted. *)
Definition RequestQuotaLeases (s : QuotaLeaseServer) (clocks : list Z) (cn : option string)
  (reqs : list QuotaLeaseRequest) : list QuotaLeaseResult * QuotaLeaseServer :=
  let resolved := (λ req, (req, resolveLease (qs_region s) cn req)) <$> reqs in
  let '(grants, m) := GrantAll range (qs_ledger s) (zip clocks (batch_items resolved)) in
  let '(out, region) := batch_results resolved grants (qs_region s) in
  (out, mkServer m region).

Definition lease_return_of (s : QuotaLeaseServer) (r : LeaseReturn) : option Return :=
  match resolve (qs_region s) (lr_Prefix r) (lr_ServiceId r) (lr_ApiKey r) (lr_LimitId r)
          (lr_TierId r) (lr_Org r) with
  | Err _ => None
  | Ok l =>
      let it := le_item l in
      Some {| ret_Ref := bi_Ref it; ret_Spec := bi_Spec it; ret_Parent := ga_Parent (bi_Args it);
              ret_WindowID := lr_WindowId r; ret_ParentWindowID := lr_ParentWindowId r;
              ret_Tokens := lr_Tokens r |}
  end.

Definition return_dedupe (cn : option string) (inp : ReturnLeasesRequest) : string :=
  if (rl_Dedupe inp =? "")%string then ""
  else edgeIdentity cn (rl_EdgeId inp) +:+ ":" +:+ rl_Dedupe inp.

Definition ReturnLeases (s : QuotaLeaseServer) (now : Z) (cn : option string)
  (inp : ReturnLeasesRequest) : option status * QuotaLeaseServer :=
  let '(e, m) := Mem_Return (qs_ledger s) now (return_dedupe cn inp)
                   (omap (lease_return_of s) (rl_Returns inp)) in
  (option_map (λ e, mkStatus Unavailable (error_Error e)) e, mkServer m (qs_region s)).

(** [Borrow]; the ledger's [Lend] reads the clock twice. *)
Definition Borrow (s : QuotaLeaseServer) (now now' : Z) (inp : BorrowRequest)
  : result herror Z * QuotaLeaseServer :=
  match qs_region s with
  | None => (Error FailedPrecondition "this hub is not part of a multi-region deployment", s)
  | Some _ =>
      if (br_TransferId inp =? "")%string || (br_Want inp <=? 0)
      then (Error InvalidArgument "transfer_id and want are required", s)
      else
        match resolve (qs_region s) (br_Prefix inp) (br_ServiceId inp) (br_ApiKey inp)
                (br_LimitId inp) (br_TierId inp) "" with
        | Err e => (Err e, s)
        | Ok l =>
            let it := le_item l in
            if negb (ga_Regional (bi_Args it)) then (Error FailedPrecondition "the quota is not global", s)
            else
              let '(r, m) := Mem_Lend (qs_ledger s) now now' (bi_Ref it) (bi_Spec it)
                  (ga_AllocBase (bi_Args it)) (br_WindowId inp) (br_Want inp) 0 (br_TransferId inp) in
              match r with
              | Err e => (Error Unavailable (error_Error e), mkServer m (qs_region s))
              | Ok given => (Ok given, mkServer m (qs_region s))
              end
        end
  end.
End server.
