(* ===== verification/HubProps.v ===== *)
(** * Properties of the lease server

    A batch is the same as its requests one by one; the quota an API key draws
    on comes from the hub's records whatever the edge claims; and a region that
    runs out asks its peers for the very counter it ran out of. *)

From S2P Require Import Prelude Float64 Ledger Region Wire Policies Config Decide Hub.

Local Open Scope Z_scope.

(** Two views of a region that agree on everything a lookup reads. *)
Definition same_name (r1 r2 : option Node) : Prop := node_Name <$> r1 = node_Name <$> r2.

#[export] Instance same_name_equivalence : Equivalence same_name.
Proof. split; unfold same_name; [done|by intros ??|by intros ??? -> ->]. Qed.

Lemma Node_Starved_name n need : node_Name (Node_Starved n need) = node_Name n.
Proof. done. Qed.

Lemma noteStarved_name r req l g : same_name (noteStarved r req l g) r.
Proof. unfold noteStarved, same_name. destruct r as [n|]; [|done]. by case_match. Qed.

Section hub.
Context (range : gmap string Z → list (string * Z)) (sha64 : string → Z) (sha8 : string → string)
  (validKey : string → bool) (cfg : GatewayConfig) (store : TierStore).

#[local] Notation resolve := (Hub.resolve sha64 sha8 validKey cfg store).
#[local] Notation resolveLease := (Hub.resolveLease sha64 sha8 validKey cfg store).
#[local] Notation RequestQuotaLease :=
  (Hub.RequestQuotaLease range sha64 sha8 validKey cfg store).
#[local] Notation RequestQuotaLeases :=
  (Hub.RequestQuotaLeases range sha64 sha8 validKey cfg store).

Lemma resolve_tier_name r1 r2 px svc tier prefix service subject org :
  same_name r1 r2 →
  resolve_tier sha64 sha8 r1 px svc tier prefix service subject org =
  resolve_tier sha64 sha8 r2 px svc tier prefix service subject org.
Proof.
  unfold same_name, resolve_tier. intros E.
  destruct (sv_Global svc); [|done]. by destruct r1, r2; simplify_eq/=; rewrite ?E.
Qed.

#[global] Instance resolve_proper : Proper (same_name ==> eq ==> eq ==> eq ==> eq ==> eq ==> eq ==> eq) resolve.
Proof.
  intros r1 r2 Hr ? prefix -> ? service -> ? subject -> ? limit -> ? tier -> ? org ->.
  unfold Hub.resolve. destruct (validKey subject); [|done]. cbn.
  destruct (prefix =? Scope)%string; [done|]. destruct (FindService _ _ _) as [[px svc]|]; [|done].
  destruct (limit =? "")%string; [|done]. cbn. destruct (caller _ _ _ _ _ _) as [[t o]|]; [|done].
  destruct (findTier svc t); [|done]. by rewrite (resolve_tier_name r1 r2).
Qed.

#[global] Instance resolveLease_proper : Proper (same_name ==> eq ==> eq ==> eq) resolveLease.
Proof.
  intros r1 r2 Hr ? cn -> ? req ->. unfold Hub.resolveLease. destruct (QuotaLeaseRequest_Validate req); [done|].
  by rewrite (resolve_proper r1 r2 Hr _ _ eq_refl _ _ eq_refl _ _ eq_refl _ _ eq_refl _ _ eq_refl _ _ eq_refl).
Qed.

(** The requests of a batch one by one, each as [RequestQuotaLease] answers it;
    a clock reading is used up by a request that reaches the ledger. *)
Fixpoint serve_each (s : QuotaLeaseServer) (clocks : list Z) (cn : option string)
  (reqs : list QuotaLeaseRequest) : list QuotaLeaseResult * QuotaLeaseServer :=
  match reqs with
  | [] => ([], s)
  | req :: reqs =>
      let reaches := match resolveLease (qs_region s) cn req with Ok _ => true | Err _ => false end in
      let '(r, s) := RequestQuotaLease s (hd 0 clocks) cn req in
      let '(out, s) := serve_each s (if reaches then tl clocks else clocks) cn reqs in
      (match r with Ok resp => ResOk resp | Err e => errorResult e end :: out, s)
  end.

(** The number of requests of a batch that reach the ledger. *)
Definition reaching (region : option Node) (cn : option string) (reqs : list QuotaLeaseRequest) : nat :=
  length (batch_items ((λ req, (req, resolveLease region cn req)) <$> reqs)).

Lemma resolved_name r1 r2 cn (reqs : list QuotaLeaseRequest) :
  same_name r1 r2 →
  (λ req, (req, resolveLease r1 cn req)) <$> reqs = (λ req, (req, resolveLease r2 cn req)) <$> reqs.
Proof.
  intros Hr. apply list_fmap_ext. intros i req _. f_equal. by apply resolveLease_proper.
Qed.

(** C7: a batch of lease requests is answered exactly as the same requests
    one after another: the same answer for each request at its own place, error
    codes included, and the same ledger and region state after them. *)
Theorem batch_is_sequential (s : QuotaLeaseServer) (clocks : list Z) (cn : option string)
  (reqs : list QuotaLeaseRequest) :
  length clocks = reaching (qs_region s) cn reqs →
  RequestQuotaLeases s clocks cn reqs = serve_each s clocks cn reqs.
Proof.
  unfold Hub.RequestQuotaLeases, reaching. revert s clocks.
  induction reqs as [|req reqs IH]; intros [m region] clocks Hlen.
  { destruct clocks; [done|]. discriminate Hlen. }
  cbn [serve_each fmap list_fmap qs_region qs_ledger] in *. unfold Hub.RequestQuotaLease.
  cbn [qs_region qs_ledger] in *.
  destruct (resolveLease region cn req) as [l|e] eqn:E.
  - cbn in Hlen. destruct clocks as [|now clocks]; [discriminate Hlen|]. injection Hlen as Hlen.
    cbn [batch_items omap list_omap snd zip zip_with GrantAll hd tl].
    destruct (Mem_Grant range m now _ _ _) as [[g|e] m'] eqn:Eg.
    + specialize (IH (mkServer m' (noteStarved region req l g)) clocks). cbn [qs_region qs_ledger] in IH.
      rewrite (resolved_name _ region) in IH by apply noteStarved_name.
      specialize (IH Hlen). rewrite <-IH. unfold batch_items. cbn.
      destruct (GrantAll range m' _) as [gs m2]. cbn. by destruct (batch_results _ gs _) as [out r'].
    + specialize (IH (mkServer m' region) clocks Hlen). cbn [qs_region qs_ledger] in IH.
      rewrite <-IH. unfold batch_items. cbn.
      destruct (GrantAll range m' _) as [gs m2]. cbn. by destruct (batch_results _ gs _) as [out r'].
  - specialize (IH (mkServer m region) clocks Hlen). cbn [qs_region qs_ledger] in IH.
    cbn [batch_items omap list_omap snd]. rewrite <-IH. unfold batch_items. cbn.
    destruct (GrantAll range m _) as [gs m2]. cbn. by destruct (batch_results _ gs _) as [out r'].
Qed.

(** The same request with another tier and organisation claimed by the edge. *)
Definition claiming (tier org : string) (req : QuotaLeaseRequest) : QuotaLeaseRequest :=
  {| ql_Prefix := ql_Prefix req; ql_ServiceId := ql_ServiceId req; ql_ApiKey := ql_ApiKey req;
     ql_RequestedTokens := ql_RequestedTokens req; ql_TierId := tier; ql_LimitId := ql_LimitId req;
     ql_EdgeId := ql_EdgeId req; ql_ObservedRate := ql_ObservedRate req; ql_Org := org |}.

Lemma caller_api_key svc prefix subject tierID org t o :
  ServiceConfig_AuthType svc = "api_key" → caller store svc prefix subject tierID org = Ok (t, o) →
  GetTier store prefix subject = Ok t.
Proof.
  unfold caller. intros ->. cbn. destruct (GetTier store prefix subject); [|done].
  repeat case_match; by intros; simplify_eq.
Qed.

Lemma resolve_tier_limit r px svc tier prefix service subject org :
  le_limit (resolve_tier sha64 sha8 r px svc tier prefix service subject org) = t_Quota tier.
Proof. unfold resolve_tier. by repeat case_match. Qed.

(** C19: for a service whose callers have API keys, an edge cannot choose the
    quota: the answer and the ledger are the same whatever tier and organisation
    the edge claims, and the limit enforced is the quota of the tier the hub has
    on record for the key. *)
Theorem tier_comes_from_hub_records (s : QuotaLeaseServer) (now : Z) (cn : option string)
  (req : QuotaLeaseRequest) (px : PrefixConfig) (svc : ServiceConfig)
  (resp : QuotaLeaseResponse) (s' : QuotaLeaseServer) :
  FindService cfg (ql_Prefix req) (ql_ServiceId req) = Some (px, svc) →
  ql_Prefix req ≠ Scope → ql_LimitId req = "" → ServiceConfig_AuthType svc = "api_key" →
  RequestQuotaLease s now cn req = (Ok resp, s') →
  (∃ tierID tier, GetTier store (ql_Prefix req) (ql_ApiKey req) = Ok tierID ∧
     findTier svc tierID = Some tier ∧ qr_Limit resp = t_Quota tier) ∧
  ∀ tier org, ∃ s'',
    RequestQuotaLease s now cn (claiming tier org req) = (Ok resp, s'') ∧ qs_ledger s'' = qs_ledger s'.
Proof.
  intros Hsvc Hscope Hlimit Hauth.
  assert (Hclaim : ∀ tier org, resolveLease (qs_region s) cn (claiming tier org req) =
                               resolveLease (qs_region s) cn req).
  { intros tier org. unfold Hub.resolveLease, Hub.resolve, QuotaLeaseRequest_Validate, caller. cbn.
    by rewrite (proj2 (String.eqb_neq _ _) Hscope), Hsvc, Hlimit, Hauth. }
  unfold Hub.RequestQuotaLease. destruct (resolveLease (qs_region s) cn req) as [l|] eqn:El; [|done].
  destruct (Mem_Grant _ _ _ _ _ _) as [[g|] m] eqn:Eg; [|done]. intros [= <- <-]. split.
  - unfold Hub.resolveLease, Hub.resolve in El. destruct (QuotaLeaseRequest_Validate req); [done|].
    destruct (validKey _); [|done]. cbn in El.
    rewrite (proj2 (String.eqb_neq _ _) Hscope), Hsvc, Hlimit in El. cbn in El.
    destruct (caller _ _ _ _ _ _) as [[tierID org]|] eqn:Ec; [|done].
    destruct (findTier svc tierID) as [tier|] eqn:Et; [|done].
    apply caller_api_key in Ec as Etier; [|done]. exists tierID, tier. split_and!; [done..|].
    injection El as <-. apply resolve_tier_limit.
  - intros tier org. rewrite Hclaim, Eg. eexists. done.
Qed.

(** Validation keeps global quotas and organisation budgets apart. *)
Definition global_without_org (c : GatewayConfig) : Prop :=
  ∀ prefix service px svc, FindService c prefix service = Some (px, svc) →
    is_Some (sv_Global svc) → sv_Org svc = None.

Lemma caller_without_org svc prefix subject tierID org t o :
  sv_Org svc = None → caller store svc prefix subject tierID org = Ok (t, o) →
  ∃ o', caller store svc prefix subject tierID "" = Ok (t, o').
Proof.
  unfold caller. intros ->. destruct (_ =? _)%string; [|intros [= <- <-]; by exists ""].
  destruct (GetTier _ _ _); [|done]. destruct (GetOwner store); intros [= <- <-]; by exists "".
Qed.

(** A regional lease, resolved again for a peer with the same configuration:
    the same counter, with the peer's own share of it. *)
Lemma resolve_at_peer node peer prefix service subject limit tier org l :
  global_without_org cfg →
  resolve (Some node) prefix service subject limit tier org = Ok l →
  ga_Regional (bi_Args (le_item l)) = true →
  ∃ px svc floors l', FindService cfg prefix service = Some (px, svc) ∧ sv_Global svc = Some floors ∧
    resolve (Some peer) prefix service subject limit tier "" = Ok l' ∧
    bi_Ref (le_item l') = bi_Ref (le_item l) ∧ bi_Spec (le_item l') = bi_Spec (le_item l) ∧
    ga_Regional (bi_Args (le_item l')) = true ∧
    ga_AllocBase (bi_Args (le_item l')) =
      Base sha64 (spec_Limit (bi_Spec (le_item l))) floors (node_Name peer) subject.
Proof.
  intros Hcfg. unfold Hub.resolve. destruct (validKey subject); [|done]. cbn [negb].
  destruct (prefix =? Scope)%string.
  { unfold resolveDescriptor. destruct (Find _ _ _); [|done]. by intros [= <-]. }
  destruct (FindService cfg prefix service) as [[px svc]|] eqn:Es; [|done].
  destruct (limit =? "")%string eqn:Elim; cbn [negb].
  2: { destruct (findLimit svc limit); [|done]. intros [= <-]. cbn. unfold lease_args.
       by destruct (LeasePolicy_Adaptive _). }
  destruct (caller _ _ _ _ _ org) as [[t o]|] eqn:Ec; [|done].
  destruct (findTier svc t) as [tc|] eqn:Et; [|done]. intros [= <-].
  destruct (sv_Global svc) as [floors|] eqn:Eg; unfold resolve_tier; rewrite ?Eg.
  2: by repeat case_match.
  assert (Eo : sv_Org svc = None) by (eapply Hcfg; eauto).
  intros _. destruct (caller_without_org _ _ _ _ _ _ _ Eo Ec) as [o' ->]. rewrite Et, Eo.
  eexists px, svc, floors, _. cbn. done.
Qed.

Lemma resolveLease_resolve region cn req l :
  resolveLease region cn req = Ok l →
  ∃ l0, resolve region (ql_Prefix req) (ql_ServiceId req) (ql_ApiKey req) (ql_LimitId req)
          (ql_TierId req) (ql_Org req) = Ok l0 ∧
    bi_Ref (le_item l) = bi_Ref (le_item l0) ∧ bi_Spec (le_item l) = bi_Spec (le_item l0) ∧
    ga_Regional (bi_Args (le_item l)) = ga_Regional (bi_Args (le_item l0)).
Proof.
  unfold Hub.resolveLease. destruct (QuotaLeaseRequest_Validate req); [done|].
  destruct (resolve _ _ _ _ _ _ _) as [l0|]; [|done]. intros [= <-]. by exists l0.
Qed.

(** The only need a request can add is its own. *)
Lemma RequestQuotaLease_need s now cn req resp s' node node' k need :
  qs_region s = Some node → RequestQuotaLease s now cn req = (Ok resp, s') →
  qs_region s' = Some node' → node_needs node' !! k = Some need → node_needs node !! k ≠ Some need →
  ∃ l g, resolveLease (Some node) cn req = Ok l ∧ ga_Regional (bi_Args (le_item l)) = true ∧
    need = starved_need req l g ∧ k = Ref_Key (need_Ref need) (spec_Algo (need_Spec need)).
Proof.
  intros Hn. unfold Hub.RequestQuotaLease. rewrite Hn.
  destruct (resolveLease (Some node) cn req) as [l|]; [|done].
  destruct (Mem_Grant _ _ _ _ _ _) as [[g|] m]; [|done]. intros [= _ <-]. cbn.
  destruct (ga_Regional _) eqn:Er; cbn; [|by intros [= <-]].
  destruct (0 <? g_Granted g); [by intros [= <-]|]. intros [= <-]. cbn.
  intros [[<- <-]|[? ?]]%lookup_insert_Some Hnew; [|done]. by exists l, g.
Qed.

(** A region that runs out of a global quota borrows that very quota: the
    borrow request made from a reported need, at any peer with the same
    configuration and key records, lends from the peer's own share of the same
    counter, for the window the borrower was short in. *)
Theorem borrow_reaches_same_counter (s : QuotaLeaseServer) (now : Z) (cn : option string)
  (req : QuotaLeaseRequest) (resp : QuotaLeaseResponse) (s' : QuotaLeaseServer)
  (node node' peer : Node) (k : string) (need : Need) (m : Mem) (t t' want : Z) (id : string) :
  global_without_org cfg →
  qs_region s = Some node → RequestQuotaLease s now cn req = (Ok resp, s') →
  qs_region s' = Some node' → node_needs node' !! k = Some need → node_needs node !! k ≠ Some need →
  id ≠ "" → 0 < want →
  ∃ px svc floors,
    FindService cfg (ql_Prefix req) (ql_ServiceId req) = Some (px, svc) ∧ sv_Global svc = Some floors ∧
    let lent := Mem_Lend m t t' (need_Ref need) (need_Spec need)
      (Base sha64 (spec_Limit (need_Spec need)) floors (node_Name peer) (ql_ApiKey req))
      (need_Window need) want 0 id in
    Borrow sha64 sha8 validKey cfg store (mkServer m (Some peer)) t t'
      (borrow_request node' need want id) =
    (match lent.1 with Ok given => Ok given | Err e => Error Unavailable (error_Error e) end,
     mkServer lent.2 (Some peer)).
Proof.
  intros Hcfg Hn Hreq Hn' Hneed Hnew Hid Hwant.
  destruct (RequestQuotaLease_need _ _ _ _ _ _ _ _ _ _ Hn Hreq Hn' Hneed Hnew)
    as (l & g & Hl & Hr & -> & _). clear Hreq Hneed Hnew.
  destruct (resolveLease_resolve _ _ _ _ Hl) as (l0 & H0 & Eref & Espec & Ereg).
  rewrite Ereg in Hr.
  destruct (resolve_at_peer _ peer _ _ _ _ _ _ _ Hcfg H0 Hr)
    as (px & svc & floors & l' & Hs & Hg & Hp & Er & Es & Hr' & Hb).
  exists px, svc, floors. split_and!; [done..|]. cbv zeta. unfold Borrow. cbn.
  rewrite (proj2 (String.eqb_neq _ _) Hid), (proj2 (Z.leb_gt _ _) Hwant). cbn.
  rewrite Hp, Hr', Hb, Er, Es, Eref, Espec. cbn.
  by destruct (Mem_Lend _ _ _ _ _ _ _ _ _ _) as [[]].
Qed.
End hub.

(** ** Examples *)

Module Example_hub.
Definition free : TierConfig :=
  {| t_TierID := "free"; t_Quota := 10; t_GetCost := 1; t_PostCost := 1; t_PutCost := 1;
     t_DeleteCost := 1; t_OtherCost := 1; t_Algorithm := ""; t_Rate := f64_zero |}.
Definition half : float64 := f64_dyadic 1 (-1).
Definition svc : ServiceConfig :=
  plain_service "api" "http://up" [free] None [] (mkLeasePolicy "fixed" 0 0 0)
    (Some {[ "eu" := half; "us" := half ]}).
Definition px : PrefixConfig :=
  {| px_Prefix := "v1"; px_QuotaPeriod := Minute;
     px_Leasing := mkLeasing 0 f64_zero 0 0; px_Services := [svc] |}.
Definition cfg : GatewayConfig := {| gc_Prefixes := [px]; gc_Runtime := DefaultRuntimePolicy; gc_Descriptors := [] |}.
Definition store : TierStore := mkTierStore (λ _ _, Ok "free") None.
Definition node (name : string) : Node := mkNode name ["eu"; "us"] ∅ 0.
Definition req (n : Z) (tier : string) : QuotaLeaseRequest :=
  mkQuotaLeaseRequest "v1" "api" "key1" n tier "" "edge1" f64_zero "".
Definition s0 : QuotaLeaseServer := mkServer NewMem (Some (node "eu")).
Definition serve := RequestQuotaLease map_to_list (λ _, 0) (λ s, s) (λ _, true) cfg store.
(** The hub after one request took the whole share of its region, the answer
    to a second one, and the need it leaves behind. *)
Definition s1 : QuotaLeaseServer := (serve s0 0 None (req 5 "")).2.
Definition starved : result herror QuotaLeaseResponse * QuotaLeaseServer := serve s1 10 None (req 5 "gold").
Definition starved_resp : QuotaLeaseResponse :=
  {| qr_GrantedTokens := 0; qr_LeaseTtlSeconds := 60; qr_RemainingGlobal := 0;
     qr_WaitingForCapacity := true; qr_RetryAfterMs := 6000; qr_WindowId := 0;
     qr_ExpiresInMs := 59990; qr_ResetInMs := 59990; qr_ActiveEdges := 1; qr_ParentWindowId := 0;
     qr_Limit := 10 |}.
Definition need : Need :=
  {| need_Ref := mkRef "v1" "api" "" "key1" ""; need_Spec := mkSpec "" 10 Minute f64_zero;
     need_Window := 0; need_Request := mkBorrowRequest "v1" "api" "key1" "" "gold" 0 0 "" "" |}.
Definition need_key : string := "gate:{v1:api:key1}:tier:fixed_window".

Lemma hub_cfg_ok : global_without_org cfg.
Proof.
  intros prefix service px' svc' H _. unfold FindService, FindPrefix in H.
  destruct (_ =? _)%string; [done|]. destruct (find _ (gc_Prefixes cfg)) as [p|] eqn:Ep; [|done].
  apply find_some in Ep as [[<-|[]] _]. destruct (find _ (px_Services px)) as [v|] eqn:Ev; [|done].
  apply find_some in Ev as [[<-|[]] _]. by injection H as _ <-.
Qed.

Lemma starved_eq : starved = (Ok starved_resp, starved.2).
Proof. vm_compute. reflexivity. Qed.
End Example_hub.

Lemma batch_is_sequential_witness :
  ∃ out s,
    RequestQuotaLeases map_to_list (λ _, 0) (λ s, s) (λ _, true) Example_hub.cfg Example_hub.store
      Example_hub.s0 [0; 10] None [Example_hub.req 5 ""; Example_hub.req 0 ""; Example_hub.req 5 ""] = (out, s) ∧
    nth_error out 1 = Some (ResErr (mkStatus InvalidArgument "requested_tokens must be > 0")).
Proof.
  eexists _, _. split.
  - rewrite batch_is_sequential; [|vm_compute; reflexivity].
    vm_compute. reflexivity.
  - reflexivity.
Defined.

Lemma tier_comes_from_hub_records_witness :
  ∃ s, Example_hub.serve Example_hub.s1 10 None (Example_hub.req 5 "platinum") =
       (Ok Example_hub.starved_resp, s).
Proof.
  destruct (tier_comes_from_hub_records map_to_list (λ _, 0) (λ s, s) (λ _, true) Example_hub.cfg
    Example_hub.store Example_hub.s1 10 None (Example_hub.req 5 "gold") Example_hub.px Example_hub.svc
    Example_hub.starved_resp Example_hub.starved.2) as [_ H].
  - reflexivity.
  - discriminate.
  - reflexivity.
  - reflexivity.
  - exact Example_hub.starved_eq.
  - destruct (H "platinum" "") as (s & Hs & _). exists s. exact Hs.
Defined.

Lemma borrow_reaches_same_counter_witness :
  ∃ m, Borrow (λ _, 0) (λ s, s) (λ _, true) Example_hub.cfg Example_hub.store
    (mkServer NewMem (Some (Example_hub.node "us"))) 20 20
    (borrow_request (Example_hub.node "eu") Example_hub.need 2 "t1") = (Ok 2, m).
Proof.
  destruct (borrow_reaches_same_counter map_to_list (λ _, 0) (λ s, s) (λ _, true) Example_hub.cfg
    Example_hub.store Example_hub.s1 10 None (Example_hub.req 5 "gold") Example_hub.starved_resp
    Example_hub.starved.2 (Example_hub.node "eu")
    (Node_Starved (Example_hub.node "eu") Example_hub.need)
    (Example_hub.node "us") Example_hub.need_key Example_hub.need NewMem 20 20 2 "t1")
    as (px & svc & floors & Hsvc & Hfloors & H).
  - exact Example_hub.hub_cfg_ok.
  - vm_compute. reflexivity.
  - exact Example_hub.starved_eq.
  - vm_compute. reflexivity.
  - vm_compute. reflexivity.
  - vm_compute. discriminate.
  - discriminate.
  - lia.
  - vm_compute in Hsvc. injection Hsvc as <- <-. vm_compute in Hfloors. injection Hfloors as <-.
    eexists. etrans; [exact H|]. vm_compute. reflexivity.
Defined.
