(* ===== verification/Isolation.v ===== *)
(** * One counter per quota ([packages/ledger/ledger.go], [Ref.Key])

    The names of the ledger's counters are injective on the names the
    configuration allows: two quotas share a counter only if they are the same
    quota.  The one exception is a limit that is itself called ["tier"]. *)

From S2P Require Import Prelude Float64 Ledger LedgerFacts Region Wire Policies Config Decide Hub.
From Stdlib Require Import Ascii.

Local Open Scope Z_scope.

(** A name that cannot be confused with the key's punctuation. *)
Definition name_ok (s : string) : Prop := ¬ has_char ":" s ∧ ¬ has_char "}" s.

Record ref_ok (r : Ref) : Prop := {
  ok_scope : ¬ has_char ":" (ref_Scope r);
  ok_service : ¬ has_char ":" (ref_Service r);
  ok_subject : name_ok (ref_Subject r);
  ok_parent : ¬ has_char "}" (ref_Parent r);
}.

(** How a limit is called inside a key. *)
Definition limit_name (limit : string) : string := if (limit =? "")%string then "tier" else limit.

Definition tag_of (r : Ref) : string :=
  if (ref_Parent r =? "")%string then ref_Subject r else "org:" +:+ ref_Parent r.
Definition rest_of (r : Ref) : string :=
  if (ref_Parent r =? "")%string then limit_name (ref_Limit r)
  else limit_name (ref_Limit r) +:+ ":" +:+ ref_Subject r.

(** The common shape of counters of quotas and of budgets. *)
Definition key_of (scope service tag rest algo : string) : string :=
  "gate:{" +:+ scope +:+ ":" +:+ service +:+ ":" +:+ tag +:+ "}:" +:+ rest +:+ ":" +:+ algo.

Lemma Ref_Key_shape r a :
  Ref_Key r a = key_of (ref_Scope r) (ref_Service r) (tag_of r) (rest_of r) (Algo_Or a).
Proof.
  unfold Ref_Key, key_of, tag_of, rest_of, limit_name.
  destruct (ref_Parent r =? "")%string; [by destruct (ref_Limit r =? "")%string|].
  by rewrite !append_assoc.
Qed.

Lemma Ref_ParentKey_shape r a :
  Ref_ParentKey r a = key_of (ref_Scope r) (ref_Service r) ("org:" +:+ ref_Parent r) "org" (Algo_Or a).
Proof. unfold Ref_ParentKey, key_of. by rewrite !append_assoc. Qed.

Lemma key_of_inj sc1 sv1 t1 r1 a1 sc2 sv2 t2 r2 a2 :
  ¬ has_char ":" sc1 → ¬ has_char ":" sc2 → ¬ has_char ":" sv1 → ¬ has_char ":" sv2 →
  ¬ has_char "}" t1 → ¬ has_char "}" t2 → ¬ has_char ":" a1 → ¬ has_char ":" a2 →
  key_of sc1 sv1 t1 r1 a1 = key_of sc2 sv2 t2 r2 a2 →
  sc1 = sc2 ∧ sv1 = sv2 ∧ t1 = t2 ∧ r1 = r2 ∧ a1 = a2.
Proof.
  intros Hsc1 Hsc2 Hsv1 Hsv2 Ht1 Ht2 Ha1 Ha2 E. unfold key_of in E. apply append_inj_l in E.
  apply (f_equal chars) in E. rewrite !chars_app in E. cbn [chars app] in E.
  apply split_first in E as [E1 E]; [|done..]. apply split_first in E as [E2 E]; [|done..].
  apply split_first in E as [E3 E]; [|done..]. injection E as E. apply split_last in E as [E4 E5]; [|done..].
  by apply (inj chars) in E1, E2, E3, E4, E5.
Qed.

Lemma org_prefix_no_brace : ¬ has_char "}" "org:".
Proof. no_char. Qed.

Lemma org_prefix_colon p : has_char ":" ("org:" +:+ p).
Proof. apply has_char_app. left. yes_char. Qed.

Lemma org_no_brace r : ref_ok r → ¬ has_char "}" ("org:" +:+ ref_Parent r).
Proof. intros [_ _ _ Hp]. rewrite has_char_app. by intros [?%org_prefix_no_brace|?]. Qed.

Lemma tag_no_brace r : ref_ok r → ¬ has_char "}" (tag_of r).
Proof. intros Hr. unfold tag_of. case_match; [apply Hr|by apply org_no_brace]. Qed.

Lemma Algo_Or_no_colon a : Algo_Valid a = true → ¬ has_char ":" (Algo_Or a).
Proof. intros Ha. by apply algos_no_colon, Algo_Or_algos. Qed.

#[local] Hint Resolve ok_scope ok_service tag_no_brace org_no_brace Algo_Or_no_colon : isolation.

Lemma limit_name_inj l1 l2 : l1 ≠ "tier" → l2 ≠ "tier" → limit_name l1 = limit_name l2 → l1 = l2.
Proof.
  unfold limit_name. destruct (String.eqb_spec l1 ""), (String.eqb_spec l2 ""); intros; congruence.
Qed.


(** A limit called ["tier"] shares the counter of the caller's tier limit:
    where the hub accepts both, and they count with the same algorithm, requests
    for one draw on the other's quota (the key writes the tier limit, which has
    no name, as ["tier"]). *)
Theorem limit_named_tier_shares sha64 sha8 validKey cfg store region prefix service subject tierID org
  (named tier : lease) :
  prefix ≠ Scope →
  Hub.resolve sha64 sha8 validKey cfg store region prefix service subject "tier" tierID org = Ok named →
  Hub.resolve sha64 sha8 validKey cfg store region prefix service subject "" tierID org = Ok tier →
  ref_Parent (bi_Ref (le_item tier)) = "" →
  Algo_Or (spec_Algo (bi_Spec (le_item named))) = Algo_Or (spec_Algo (bi_Spec (le_item tier))) →
  Ref_Key (bi_Ref (le_item named)) (spec_Algo (bi_Spec (le_item named))) =
  Ref_Key (bi_Ref (le_item tier)) (spec_Algo (bi_Spec (le_item tier))).
Proof.
  intros Hp%String.eqb_neq. unfold resolve. rewrite Hp. destruct (validKey subject); [|done]. cbn [negb].
  destruct (FindService cfg prefix service) as [[px svc]|]; [|done]. cbn.
  destruct (findLimit svc "tier") as [spec|]; [|done]. destruct (caller _ _ _ _ _ _) as [[t o]|]; [|done].
  destruct (findTier svc t) as [tc|]; [|done]. intros [= <-] [= <-] Hpar Ha. unfold Ref_Key.
  rewrite Ha, Hpar. unfold resolve_tier in *. by repeat case_match.
Qed.


Module Example_named.
Definition gold : TierConfig := mkTier "gold" 100 1 1 1 1 1 "" f64_zero.
Definition cfg : GatewayConfig :=
  mkGateway [mkPrefix "v1" Minute (mkLeasing 0 f64_zero 0 0)
    [plain_service "api" "http://up" [gold] None [mkLimitSpec "tier" PerKey "" 10 0 f64_zero false]
       (mkLeasePolicy "fixed" 0 0 0) None]] DefaultRuntimePolicy [].
Definition ask (limit : string) : result herror lease :=
  Hub.resolve (λ _, 0) (λ s, s) (λ _, true) cfg (mkTierStore (λ _ _, Ok "gold") None) None
    "v1" "api" "key1" limit "" "".
End Example_named.

Lemma limit_named_tier_shares_witness :
  ∃ named tier, Example_named.ask "tier" = Ok named ∧ Example_named.ask "" = Ok tier ∧
    Ref_Key (bi_Ref (le_item named)) (spec_Algo (bi_Spec (le_item named))) =
    Ref_Key (bi_Ref (le_item tier)) (spec_Algo (bi_Spec (le_item tier))).
Proof.
  eexists _, _. split; [vm_compute; reflexivity|]. split; [vm_compute; reflexivity|].
  eapply (limit_named_tier_shares (λ _, 0) (λ s, s) (λ _, true) Example_named.cfg
    (mkTierStore (λ _ _, Ok "gold") None) None "v1" "api" "key1" "" "").
  - discriminate.
  - vm_compute. reflexivity.
  - vm_compute. reflexivity.
  - reflexivity.
  - reflexivity.
Defined.
