(* ===== verification/LeaseProtocol.v ===== *)
(** * The lease protocol

    Edges and hub together, for one quota: any number of edge counters, the
    hub's lease server over its ledger, answers on their way to an edge and
    returns on their way to the hub.  The steps are the atomic operations of
    [lease.go] (a take, a window installed, a lease extended, tokens added, a
    charge adjusted, a balance swapped out), on any held a goroutine may still
    point to, interleaved in any order with the hub's handlers and with all
    other traffic of the hub.  Answers may be lost; returns may be delivered
    any number of times, late or never.

    An edge's clock differs from the hub's by an offset of its own; both run
    at the same rate. *)

From S2P Require Import Prelude Float64 Ledger LedgerFacts LedgerSafety Limiter Wire Region.
From S2P Require Import Config Decide Hub Lease.

Local Open Scope Z_scope.

(** ** The system *)

(** A counter of an edge, and that edge's clock relative to the hub's. *)
Record wcounter := mkWCounter { wc_off : Z; wc_c : leaseCounter }.

(** An answer on its way to a counter, to a request sent at [rp_sent] by the
    edge's clock. *)
Record reply := mkReply { rp_ctr : nat; rp_sent : Z; rp_resp : QuotaLeaseResponse }.

(** A return request, with the identity of the edge's certificate and the
    items in it that are for this quota. *)
Record message := mkMessage {
  ms_cn : option string;
  ms_req : ReturnLeasesRequest;
  ms_items : list LeaseReturn;
}.

(** A decision that can still be settled: the held it was admitted from and
    the cost it was charged. *)
Record opened := mkOpened { od_ctr : nat; od_held : nat; od_win : Z; od_cost : Z }.

(** A charge (or, negative, a refund) at a time of the hub's clock, from the
    tokens of a window. *)
Record admission := mkAdmission { ad_time : Z; ad_win : Z; ad_cost : Z }.

Record World := mkWorld {
  w_now : Z; (* the hub's clock, ms *)
  w_hub : QuotaLeaseServer;
  w_ctrs : list wcounter;
  w_replies : list reply;
  w_pool : list LeaseReturn; (* swapped out, not yet sent *)
  w_msgs : list message;     (* sent; may be delivered again *)
  w_open : list opened;
  w_log : list admission;
}.

(** Two helds that differ only in what guards and reports read. *)
Definition same_held (h h' : held) : Prop :=
  h_win h' = h_win h ∧ h_parentWin h' = h_parentWin h ∧ h_tokens h' = h_tokens h ∧
  h_expiresAt h' = h_expiresAt h.

Definition same_tokens (c c' : leaseCounter) : Prop :=
  Forall2 same_held (c_held c) (c_held c') ∧ c_cur c' = c_cur c ∧ c_req c' = c_req c.

(** Bounds: clocks, charges and debts well inside [int64]. *)
Definition off_ok (off : Z) : Prop := - 2 ^ 52 ≤ off ≤ 2 ^ 52.
Definition charge_max : Z := 2 ^ 62.

Section protocol.
Context (range : gmap string Z → list (string * Z)) (sha64 : string → Z) (sha8 : string → string)
  (validKey : string → bool) (cfg : GatewayConfig) (store : TierStore).
(** The requests of the quota, and the hub's region. *)
Context (rid : Request) (region : option Node).

#[local] Notation resolve := (Hub.resolve sha64 sha8 validKey cfg store).
#[local] Notation RequestQuotaLease := (Hub.RequestQuotaLease range sha64 sha8 validKey cfg store).
#[local] Notation ReturnLeases := (Hub.ReturnLeases sha64 sha8 validKey cfg store).
#[local] Notation lease_return_of := (Hub.lease_return_of sha64 sha8 validKey cfg store).

(** The lease request an edge sends for the quota. *)
Definition quota_request (size : Z) (edge : string) (rate : float64) : QuotaLeaseRequest :=
  mkQuotaLeaseRequest (rq_Scope rid) (rq_Service rid) (rq_Key rid) size (rq_Tier rid) (rq_LimitID rid)
    edge rate (rq_Org rid).

(** A return of some other quota: not for counter [b], neither as a quota nor
    as the budget around one. *)
Definition other_return (b : string) (hub : QuotaLeaseServer) (r : LeaseReturn) : Prop :=
  ∀ ret, lease_return_of hub r = Some ret →
    Ref_Key (ret_Ref ret) (spec_Algo (ret_Spec ret)) ≠ b ∧ Ref_ParentKey (ret_Ref ret) FixedWindow ≠ b.

(** Another call to the hub's ledger: it may ask for tokens of any quota, but
    returns none of this one. *)
Definition other_op (b : string) (L : Z) (o : op) : Prop :=
  op_ok b L o ∧
  match o with
  | OpReturn _ _ returns =>
      Forall (λ r, Ref_Key (ret_Ref r) (spec_Algo (ret_Spec r)) ≠ b ∧
                   Ref_ParentKey (ret_Ref r) FixedWindow ≠ b) returns
  | _ => True
  end.

Definition set_ledger (hub : QuotaLeaseServer) (m : Mem) : QuotaLeaseServer :=
  mkServer m (qs_region hub).

(** The quota's counter stays in the range a [float64] counts exactly when a
    return's debts are charged to it. *)
Definition debt_fits (b : string) (L : Z) (hub : QuotaLeaseServer) (now : Z) (cn : option string)
  (inp : ReturnLeasesRequest) : Prop :=
  ∀ w, Z.max L (Mem_getInt (qs_ledger hub) (winKey b w) 0) +
       returned_items debt b w (qs_ledger hub) now (return_dedupe cn inp)
         (omap (lease_return_of hub) (rl_Returns inp)) ≤ f64_max_int.

Inductive wstep (b : string) (L : Z) : World → World → Prop :=
| WTick now hub cs rps pool msgs opn log t :
    now ≤ t → clock_ok t →
    wstep b L (mkWorld now hub cs rps pool msgs opn log) (mkWorld t hub cs rps pool msgs opn log)
| WNew now hub cs rps pool msgs opn log off l req :
    off_ok off → identity req = identity rid →
    wstep b L (mkWorld now hub cs rps pool msgs opn log)
      (mkWorld now hub (cs ++ [mkWCounter off (new_counter l req)]) rps pool msgs opn log)
(* a request takes tokens from a held *)
| WTake now hub cs rps pool msgs opn log k off c i cost balance c' :
    cs !! k = Some (mkWCounter off c) → (i < length (c_held c))%nat → 1 ≤ cost →
    take c i cost (now + off) = (balance, c') → 0 ≤ balance →
    wstep b L (mkWorld now hub cs rps pool msgs opn log)
      (mkWorld now hub (<[k := mkWCounter off c']> cs) rps pool msgs
         (mkOpened k i (h_win (c_get c i)) cost :: opn)
         (mkAdmission now (h_win (c_get c i)) cost :: log))
(* a take that fails may still drop expired tokens *)
| WMiss now hub cs rps pool msgs opn log k off c i cost balance c' :
    cs !! k = Some (mkWCounter off c) → (i < length (c_held c))%nat → 1 ≤ cost →
    take c i cost (now + off) = (balance, c') → balance < 0 →
    wstep b L (mkWorld now hub cs rps pool msgs opn log)
      (mkWorld now hub (<[k := mkWCounter off c']> cs) rps pool msgs opn log)
(* a new window, at a roll or for an answer *)
| WInstall now hub cs rps pool msgs opn log k off c old win pwin :
    cs !! k = Some (mkWCounter off c) →
    wstep b L (mkWorld now hub cs rps pool msgs opn log)
      (mkWorld now hub (<[k := mkWCounter off (snd (install c old win pwin))]> cs) rps pool msgs opn log)
(* an answer applied to a held of its window: the lease is extended, then the
   tokens are added *)
| WExtend now hub cs rps pool msgs opn log k off c i j sent resp :
    cs !! k = Some (mkWCounter off c) → (i < length (c_held c))%nat →
    rps !! j = Some (mkReply k sent resp) → h_win (c_get c i) = qr_WindowId resp →
    let h := c_get c i in
    wstep b L (mkWorld now hub cs rps pool msgs opn log)
      (mkWorld now hub
         (<[k := mkWCounter off (c_put c i (mkHeld (h_win h) (h_parentWin h) (h_tokens h) (h_consumed h)
                                              (sent + qr_ExpiresInMs resp)%i64))]> cs)
         rps pool msgs opn log)
| WAdd now hub cs rps pool msgs opn log k off c i j sent resp :
    cs !! k = Some (mkWCounter off c) → (i < length (c_held c))%nat →
    rps !! j = Some (mkReply k sent resp) → h_win (c_get c i) = qr_WindowId resp →
    0 < qr_GrantedTokens resp →
    wstep b L (mkWorld now hub cs rps pool msgs opn log)
      (mkWorld now hub
         (<[k := mkWCounter off (add_tokens c i (sent + qr_ExpiresInMs resp)%i64 (qr_GrantedTokens resp))]> cs)
         (delete j rps) pool msgs opn log)
(* an answer lost, late or with nothing in it *)
| WLose now hub cs rps pool msgs opn log j :
    wstep b L (mkWorld now hub cs rps pool msgs opn log)
      (mkWorld now hub cs (delete j rps) pool msgs opn log)
(* a decision settled: a refund to the held it came from, an extra charge to
   any held, or nothing *)
| WRefund now hub cs rps pool msgs opn log k off c i j win cost delta maxDebt :
    opn !! j = Some (mkOpened k i win cost) → cs !! k = Some (mkWCounter off c) →
    - cost ≤ delta < 0 →
    wstep b L (mkWorld now hub cs rps pool msgs opn log)
      (mkWorld now hub (<[k := mkWCounter off (c_put c i (held_adjust (c_get c i) delta maxDebt))]> cs)
         rps pool msgs (delete j opn) (mkAdmission now win delta :: log))
| WCharge now hub cs rps pool msgs opn log k off c i j delta maxDebt :
    cs !! k = Some (mkWCounter off c) → (i < length (c_held c))%nat →
    0 ≤ delta ≤ charge_max → 0 ≤ maxDebt ≤ charge_max →
    wstep b L (mkWorld now hub cs rps pool msgs opn log)
      (mkWorld now hub (<[k := mkWCounter off (c_put c i (held_adjust (c_get c i) delta maxDebt))]> cs)
         rps pool msgs (delete j opn) log)
| WSettled now hub cs rps pool msgs opn log j :
    wstep b L (mkWorld now hub cs rps pool msgs opn log)
      (mkWorld now hub cs rps pool msgs (delete j opn) log)
(* everything of a counter that is not tokens *)
| WMeta now hub cs rps pool msgs opn log k off c c' :
    cs !! k = Some (mkWCounter off c) → same_tokens c c' →
    wstep b L (mkWorld now hub cs rps pool msgs opn log)
      (mkWorld now hub (<[k := mkWCounter off c']> cs) rps pool msgs opn log)
(* giving back: the balance is swapped out, sent with other returns, and
   delivered *)
| WSwap now hub cs rps pool msgs opn log k off c i n h :
    cs !! k = Some (mkWCounter off c) → (i < length (c_held c))%nat →
    held_swap (c_get c i) (now + off) = (n, h) →
    wstep b L (mkWorld now hub cs rps pool msgs opn log)
      (mkWorld now hub (<[k := mkWCounter off (c_put c i h)]> cs) rps
         (if n =? 0 then pool else lease_return c h n :: pool) msgs opn log)
| WSend now hub cs rps pool msgs opn log cn inp items rest others :
    pool ≡ₚ items ++ rest → rl_Returns inp ≡ₚ items ++ others →
    Forall (other_return b hub) others → rl_Dedupe inp ≠ "" →
    wstep b L (mkWorld now hub cs rps pool msgs opn log)
      (mkWorld now hub cs rps rest (mkMessage cn inp items :: msgs) opn log)
| WDeliver now hub cs rps pool msgs opn log msg :
    msg ∈ msgs → debt_fits b L hub now (ms_cn msg) (ms_req msg) →
    wstep b L (mkWorld now hub cs rps pool msgs opn log)
      (mkWorld now (snd (ReturnLeases hub now (ms_cn msg) (ms_req msg))) cs rps pool msgs opn log)
(* the hub answers a request sent no later than now *)
| WServe now hub cs rps pool msgs opn log k off c cn size edge rate sent r hub' :
    cs !! k = Some (mkWCounter off c) → 0 ≤ sent ≤ now + off →
    RequestQuotaLease hub now cn (quota_request size edge rate) = (r, hub') →
    wstep b L (mkWorld now hub cs rps pool msgs opn log)
      (mkWorld now hub' cs
         (match r with Ok resp => mkReply k sent resp :: rps | Err _ => rps end) pool msgs opn log)
(* any other traffic *)
| WOther now hub cs rps pool msgs opn log o :
    other_op b L o →
    wstep b L (mkWorld now hub cs rps pool msgs opn log)
      (mkWorld now (set_ledger hub (snd (step range (qs_ledger hub) o))) cs rps pool msgs opn log).

(** The worlds reached in [n] steps from an empty ledger and no counters, when
    the hub's clock reads [t0]. *)
Inductive wreach (b : string) (L t0 : Z) : nat → World → Prop :=
| WStart : wreach b L t0 0 (mkWorld t0 (mkServer NewMem region) [] [] [] [] [] [])
| WNext n W W' : wreach b L t0 n W → wstep b L W W' → wreach b L t0 (S n) W'.
End protocol.
