(* ===== verification/LeaseSafety.v ===== *)
(** * Safety of the lease protocol

    However requests, answers, renewals, settlements and returns interleave,
    the edges together never admit more from one window of a quota than its
    limit, and never spend a token outside its window. *)

From S2P Require Import Prelude Float64 Ledger LedgerFacts LedgerSafety LedgerProps Limiter Wire Region.
From S2P Require Import Config Decide Hub HubProps Lease LeaseProtocol.

Local Open Scope Z_scope.

(** ** What a grant says about time *)

Lemma Milliseconds_ms x : 0 ≤ x ≤ 9223372036854 → Milliseconds (x * Millisecond)%i64 = x.
Proof.
  intros Hx. rewrite ms_to_ns by done. unfold Milliseconds, i64_div, Millisecond.
  rewrite Z.quot_mul by done. apply wrap64_small. bounds.
Qed.

Lemma grant_input_expires range m now inp :
  g_ExpiresIn (fst (grant_input range m now inp)) =
  (pl_expires (grant_parent m now inp (grant_algo m now inp)) * Millisecond)%i64.
Proof.
  unfold grant_input. destruct (grant_endgame _ _ _ _ _) as [n m0].
  destruct (_ <=? 0); [done|]. by destruct (in_algo inp =? TokenBucket)%string.
Qed.

(** The tokens of a grant belong to the window of the hub's clock and do not
    outlive it. *)
Lemma grant_times range m now ref spec args g m' :
  call_ok now ref spec args → Algo_Or (spec_Algo spec) ≠ TokenBucket →
  Mem_Grant range m now ref spec args = (Ok g, m') →
  g_WindowID g = window_of now spec ∧ 1 ≤ Milliseconds (g_ExpiresIn g) ≤ window_left now spec.
Proof.
  intros Hok Ha. pose proof Hok as (Hnow & Hwin & Hlim & _ & Hpar). unfold Mem_Grant.
  destruct (prepare ref spec args) as [inp|] eqn:Hp; [|done].
  apply prepare_prepared in Hp; [|bounds].
  pose proof (grant_input_wids range m now inp) as [Ew _].
  pose proof (grant_input_expires range m now inp) as Ee.
  destruct (grant_input range m now inp) as [g' m1]. intros [= -> <-]. cbn [fst] in *.
  pose proof (windowMs_pos spec Hwin) as Hw. rewrite <-(pr_win _ _ _ _ Hp) in Hw.
  assert (Hna : (in_algo inp =? TokenBucket)%string = false)
    by (apply String.eqb_neq; by rewrite (pr_algo _ _ _ _ Hp)).
  rewrite grant_algo_wid, (pr_win _ _ _ _ Hp) in Ew by done.
  destruct (grant_algo_reset m now inp Hnow Hw Hna) as [Er Ex].
  pose proof (window_left_pos now spec Hnow Hwin) as Hl.
  rewrite (pr_win _ _ _ _ Hp) in Er, Hw. fold (window_of now spec) in Er. fold (window_left now spec) in Er.
  assert (Hexp : 1 ≤ pl_expires (grant_parent m now inp (grant_algo m now inp)) ≤ window_left now spec).
  { unfold grant_parent. rewrite Ex, Er. destruct (in_parentKey inp =? "")%string eqn:Epk; cbn [pl_expires]; [lia|].
    destruct (pr_parent _ _ _ _ Hp) as [[E _]|(p & Hpa & _ & _ & _ & _ & ->)]; [by rewrite E in Epk|].
    pose proof (windowMs_pos p (proj1 (Hpar p Hpa))) as Hpw.
    destruct (window_div now (windowMs p) Hnow Hpw) as [-> _].
    destruct (window_reset now (windowMs p) _ Hnow Hpw eq_refl) as [-> ?]. lia. }
  rewrite Ee, Milliseconds_ms by lia. done.
Qed.

(** ** Returns, at most once *)

Definition ret_key (r : Return) : string := Ref_Key (ret_Ref r) (spec_Algo (ret_Spec r)).
Definition ret_mark (b dedupe : string) : string := b +:+ ":ret:" +:+ dedupe.

(** What a return may give back to window [w] of the quota with base [b]. *)
Definition ret_stuff (b : string) (w : Z) (r : Return) : Z :=
  if (ret_key r =? b)%string && (ret_WindowID r =? w) then Z.max 0 (ret_Tokens r) else 0.

Lemma ret_stuff_nonneg b w r : 0 ≤ ret_stuff b w r.
Proof. unfold ret_stuff. case_match; lia. Qed.

Lemma ret_mark_inj b b' dedupe : ret_mark b dedupe = ret_mark b' dedupe → b = b'.
Proof.
  unfold ret_mark. intros E. apply (f_equal chars) in E. rewrite !chars_app in E.
  apply app_inv_tail in E. by apply chars_inj.
Qed.

Lemma ret_mark_ne b dedupe : ret_mark b dedupe ≠ "".
Proof.
  unfold ret_mark. intros E. apply (f_equal chars) in E. rewrite !chars_app in E.
  by destruct (chars b).
Qed.

Lemma prepareReturn_parentKey r dedupe inp :
  prepareReturn r dedupe = Ok inp →
  ri_parentKey inp = "" ∨ ri_parentKey inp = Ref_ParentKey (ret_Ref r) FixedWindow.
Proof.
  unfold prepareReturn. destruct (Spec_validate _); [done|].
  destruct (ret_Parent r) as [p|]; [destruct (_ =? "")%string|]; intros [= <-]; auto.
Qed.

Lemma return_to_main b w m now r dedupe inp :
  prepareReturn r dedupe = Ok inp → dedupe ≠ "" → b ≠ "" → Ref_ParentKey (ret_Ref r) FixedWindow ≠ b →
  credit (return_to b w m now inp) ≤
  (if bool_decide (ret_mark b dedupe ∈ deduped m) then 0 else ret_stuff b w r).
Proof.
  intros Hp Hd Hb Hpar. pose proof (prepareReturn_parentKey _ _ _ Hp) as Hpk.
  apply prepareReturn_facts in Hp as (_ & Ht & Hk & _ & Hw & Hdk & _).
  rewrite (proj2 (String.eqb_neq _ _) Hd) in Hdk. unfold return_to, credit, ret_stuff, ret_key.
  assert (Epk : (ri_parentKey inp =? b)%string = false) by (apply String.eqb_neq; destruct Hpk; congruence).
  rewrite Epk, andb_false_r, Z.add_0_r. cbn [andb].
  rewrite <-Hk, <-Hw, <-Ht. fold (ret_mark (ri_key inp) dedupe) in Hdk.
  destruct (String.eqb_spec (ri_key inp) b) as [E|Hne].
  - rewrite Hdk, E, (proj2 (String.eqb_neq _ _) (ret_mark_ne b dedupe)). cbn [negb andb].
    case_bool_decide; [lia|]. rewrite andb_true_r. repeat case_match; lia.
  - rewrite andb_false_r. cbn [andb]. repeat case_match; lia.
Qed.

(** A return not seen before gives back what it names; one seen before,
    nothing. *)
Lemma returned_items_once b w m now dedupe rs :
  dedupe ≠ "" → b ≠ "" → Forall (λ r, Ref_ParentKey (ret_Ref r) FixedWindow ≠ b) rs →
  returned_items credit b w m now dedupe rs ≤
  (if bool_decide (ret_mark b dedupe ∈ deduped m) then 0 else sumZ (ret_stuff b w) rs).
Proof.
  intros Hd Hb Hrs. revert m. induction Hrs as [|r rs Hr _ IH]; intros m; cbn [returned_items].
  { by case_bool_decide. }
  rewrite sumZ_cons. pose proof (ret_stuff_nonneg b w r) as H0.
  assert (0 ≤ sumZ (ret_stuff b w) rs) by (apply sumZ_nonneg; intros; apply ret_stuff_nonneg).
  destruct (prepareReturn r dedupe) as [inp|] eqn:Hp; [|case_bool_decide; lia].
  pose proof (return_to_main b w m now r dedupe inp Hp Hd Hb Hr) as Ht.
  specialize (IH (return_input m now inp)). rewrite return_input_marks in IH.
  apply prepareReturn_facts in Hp as (_ & _ & Hk & _ & _ & Hdk & _).
  rewrite (proj2 (String.eqb_neq _ _) Hd) in Hdk. fold (ret_mark (ri_key inp) dedupe) in Hdk.
  rewrite Hdk, (proj2 (String.eqb_neq _ _) (ret_mark_ne _ dedupe)) in IH.
  destruct (bool_decide (ret_mark b dedupe ∈ deduped m)) eqn:Em.
  - rewrite bool_decide_eq_true_2 in IH by (apply bool_decide_eq_true in Em; set_solver). lia.
  - destruct (decide (ri_key inp = b)) as [E|Hne].
    + rewrite E, bool_decide_eq_true_2 in IH by set_solver. lia.
    + assert (Hz : ret_stuff b w r = 0).
      { unfold ret_stuff, ret_key. rewrite <-Hk. by rewrite (proj2 (String.eqb_neq _ _) Hne). }
      destruct (bool_decide (_ ∈ {[_]} ∪ _)); lia.
Qed.

Lemma returned_items_other (part : Z → Z) b w m now dedupe rs :
  part 0 = 0 → b ≠ "" →
  Forall (λ r, Ref_Key (ret_Ref r) (spec_Algo (ret_Spec r)) ≠ b ∧ Ref_ParentKey (ret_Ref r) FixedWindow ≠ b) rs →
  returned_items part b w m now dedupe rs = 0.
Proof.
  intros H0 Hb Hrs. revert m. induction Hrs as [|r rs [Hr Hr'] _ IH]; intros m; cbn [returned_items]; [done|].
  destruct (prepareReturn r dedupe) as [inp|] eqn:Hp; [|done]. rewrite IH, Z.add_0_r.
  pose proof (prepareReturn_parentKey _ _ _ Hp) as Hpk.
  apply prepareReturn_facts in Hp as (_ & _ & Hk & _). rewrite <-Hk in Hr.
  unfold return_to. rewrite (proj2 (String.eqb_neq (ri_key inp) b)) by done.
  rewrite (proj2 (String.eqb_neq (ri_parentKey inp) b)) by (destruct Hpk; congruence).
  rewrite !andb_false_r. cbn [andb]. by case_match.
Qed.

(** What gave something back is marked. *)
Lemma returned_items_mark b w m now dedupe rs :
  dedupe ≠ "" → b ≠ "" → Forall (λ r, Ref_ParentKey (ret_Ref r) FixedWindow ≠ b) rs →
  ret_mark b dedupe ∉ deduped (snd (Mem_Return m now dedupe rs)) →
  returned_items credit b w m now dedupe rs ≤ 0.
Proof.
  intros Hd Hb Hrs. revert m. induction Hrs as [|r rs Hr _ IH]; intros m; cbn [returned_items Mem_Return]; [done|].
  destruct (prepareReturn r dedupe) as [inp|] eqn:Hp; [|done]. intros Hm. specialize (IH _ Hm).
  pose proof (return_to_main b w m now r dedupe inp Hp Hd Hb Hr) as Ht.
  apply prepareReturn_facts in Hp as (_ & _ & Hk & _ & _ & Hdk & _).
  rewrite (proj2 (String.eqb_neq _ _) Hd) in Hdk. fold (ret_mark (ri_key inp) dedupe) in Hdk.
  assert (Hz : ret_stuff b w r = 0).
  { unfold ret_stuff, ret_key. destruct (String.eqb_spec (Ref_Key (ret_Ref r) (spec_Algo (ret_Spec r))) b) as [E|]; [|done].
    destruct Hm. apply (Mem_Return_deduped (return_input m now inp)). rewrite return_input_marks, Hdk, Hk, E.
    rewrite (proj2 (String.eqb_neq _ _) (ret_mark_ne b dedupe)). set_solver. }
  destruct (bool_decide _); lia.
Qed.

(** The ledger never forgets a return it has seen. *)
Lemma step_deduped range m o : deduped m ⊆ deduped (snd (step range m o)).
Proof.
  destruct o as [now ref spec args|now dedupe returns|now now' ref spec base wid want margin id
                |now ref spec wid amount id]; cbn [step].
  - unfold Mem_Grant. destruct (prepare ref spec args) as [inp|]; [|done].
    pose proof (grant_input_deduped range m now inp) as E. destruct (grant_input _ _ _ _) as [g m'].
    cbn in *. by rewrite E.
  - pose proof (Mem_Return_deduped m now dedupe returns) as E. by destruct (Mem_Return _ _ _ _).
  - unfold Mem_Lend. by repeat case_match; simplify_eq/=.
  - unfold Mem_Credit. repeat case_match; simplify_eq/=; set_solver.
Qed.

(** ** Where the tokens of a window are *)

Definition held_stuff (w : Z) (h : held) : Z := if h_win h =? w then Z.max 0 (h_tokens h) else 0.
Definition ctr_stuff (w : Z) (wc : wcounter) : Z := sumZ (held_stuff w) (c_held (wc_c wc)).
Definition reply_stuff (w : Z) (r : reply) : Z :=
  if qr_WindowId (rp_resp r) =? w then Z.max 0 (qr_GrantedTokens (rp_resp r)) else 0.
Definition item_stuff (w : Z) (r : LeaseReturn) : Z :=
  if lr_WindowId r =? w then Z.max 0 (lr_Tokens r) else 0.
Definition msg_mark (b : string) (msg : message) : string :=
  ret_mark b (return_dedupe (ms_cn msg) (ms_req msg)).
Definition msg_stuff (b : string) (w : Z) (m : Mem) (msg : message) : Z :=
  if bool_decide (msg_mark b msg ∈ deduped m) then 0 else sumZ (item_stuff w) (ms_items msg).
Definition charged (w : Z) (a : admission) : Z := if ad_win a =? w then ad_cost a else 0.
Definition open_stuff (w : Z) (o : opened) : Z := if od_win o =? w then od_cost o else 0.

(** The cost admitted from window [w], refunds taken off. *)
Definition admitted (w : Z) (W : World) : Z := sumZ (charged w) (w_log W).

Definition stuff (b : string) (w : Z) (W : World) : Z :=
  admitted w W + sumZ (ctr_stuff w) (w_ctrs W) + sumZ (reply_stuff w) (w_replies W) +
  sumZ (item_stuff w) (w_pool W) + sumZ (msg_stuff b w (qs_ledger (w_hub W))) (w_msgs W).

Lemma held_stuff_nonneg w h : 0 ≤ held_stuff w h.
Proof. unfold held_stuff. case_match; lia. Qed.
Lemma item_stuff_nonneg w r : 0 ≤ item_stuff w r.
Proof. unfold item_stuff. case_match; lia. Qed.
Lemma reply_stuff_nonneg w r : 0 ≤ reply_stuff w r.
Proof. unfold reply_stuff. case_match; lia. Qed.
Lemma ctr_stuff_nonneg w wc : 0 ≤ ctr_stuff w wc.
Proof. apply sumZ_nonneg. intros; apply held_stuff_nonneg. Qed.
Lemma msg_stuff_nonneg b w m msg : 0 ≤ msg_stuff b w m msg.
Proof. unfold msg_stuff. case_match; [done|]. apply sumZ_nonneg. intros; apply item_stuff_nonneg. Qed.

(** Marks only lower what is still to be credited. *)
Lemma msg_stuff_mono b w m m' msg : deduped m ⊆ deduped m' → msg_stuff b w m' msg ≤ msg_stuff b w m msg.
Proof.
  intros Hm. unfold msg_stuff. pose proof (msg_stuff_nonneg b w m msg) as H0. unfold msg_stuff in H0.
  repeat case_bool_decide; try lia; set_solver.
Qed.

(** ** The invariant *)

Record held_ok (win now off : Z) (h : held) : Prop := {
  ho_low : - charge_max ≤ h_tokens h;
  ho_expires : 0 < h_tokens h → 0 < h_expiresAt h;
  ho_window : 0 < h_expiresAt h →
    h_expiresAt h ≤ (h_win h + 1) * win + off ∧ h_win h * win ≤ now;
}.

Record ctr_ok (rid : Request) (win now : Z) (wc : wcounter) : Prop := {
  co_off : off_ok (wc_off wc);
  co_helds : Forall (held_ok win now (wc_off wc)) (c_held (wc_c wc));
  co_req : c_req (wc_c wc) = identity rid;
}.

Record reply_ok (win now off : Z) (r : reply) : Prop := {
  ro_granted : 0 ≤ qr_GrantedTokens (rp_resp r);
  ro_expiry : (rp_sent r + qr_ExpiresInMs (rp_resp r))%i64 = rp_sent r + qr_ExpiresInMs (rp_resp r);
  ro_pos : 0 < rp_sent r + qr_ExpiresInMs (rp_resp r);
  ro_window : rp_sent r + qr_ExpiresInMs (rp_resp r) ≤ (qr_WindowId (rp_resp r) + 1) * win + off ∧
    qr_WindowId (rp_resp r) * win ≤ now;
}.

(** A decision still open points to a held that had tokens. *)
Record open_ok (cs : list wcounter) (o : opened) : Prop := {
  oo_cost : 0 ≤ od_cost o ≤ f64_max_int;
  oo_held : ∀ wc h, cs !! od_ctr o = Some wc → c_held (wc_c wc) !! od_held o = Some h →
    h_win h = od_win o ∧ 0 < h_expiresAt h;
  oo_lookup : ∃ wc, cs !! od_ctr o = Some wc ∧ (od_held o < length (c_held (wc_c wc)))%nat;
}.

(** A charge is made inside the window its tokens belong to. *)
Definition log_ok (win : Z) (a : admission) : Prop :=
  0 < ad_cost a → ad_win a * win ≤ ad_time a < (ad_win a + 1) * win.

(** An item for the quota. *)
Record item_ok (rid : Request) (r : LeaseReturn) : Prop := {
  io_Prefix : lr_Prefix r = rq_Scope rid;
  io_ServiceId : lr_ServiceId r = rq_Service rid;
  io_ApiKey : lr_ApiKey r = rq_Key rid;
  io_LimitId : lr_LimitId r = rq_LimitID rid;
  io_TierId : lr_TierId r = rq_Tier rid;
  io_Org : lr_Org r = rq_Org rid;
}.

Section safety.
Context (range : gmap string Z → list (string * Z)) (sha64 : string → Z) (sha8 : string → string)
  (validKey : string → bool) (cfg : GatewayConfig) (store : TierStore).
Context (rid : Request) (region : option Node).

#[local] Notation resolve := (Hub.resolve sha64 sha8 validKey cfg store).
#[local] Notation lease_return_of := (Hub.lease_return_of sha64 sha8 validKey cfg store).
#[local] Notation wstep := (LeaseProtocol.wstep range sha64 sha8 validKey cfg store rid).

(** The quota as the hub resolves it: a fixed or sliding window, not split
    between regions. *)
Record quota_ok (l : lease) : Prop := {
  qo_resolve : resolve region (rq_Scope rid) (rq_Service rid) (rq_Key rid) (rq_LimitID rid)
                 (rq_Tier rid) (rq_Org rid) = Ok l;
  qo_algo : Algo_Valid (spec_Algo (bi_Spec (le_item l))) = true ∧
            Algo_Or (spec_Algo (bi_Spec (le_item l))) ≠ TokenBucket;
  qo_limit : 0 < spec_Limit (bi_Spec (le_item l)) ≤ f64_max_int;
  qo_window : is_int64 (spec_Window (bi_Spec (le_item l)));
  qo_horizon : horizon_ok (ga_Horizon (bi_Args (le_item l)));
  qo_regional : ga_Regional (bi_Args (le_item l)) = false;
  qo_parent : ∀ p, ga_Parent (bi_Args (le_item l)) = Some p →
    is_int64 (spec_Window p) ∧ spec_Limit p ≤ f64_max_int;
  qo_budget : Ref_ParentKey (bi_Ref (le_item l)) FixedWindow ≠
              Ref_Key (bi_Ref (le_item l)) (spec_Algo (bi_Spec (le_item l)));
}.

Definition quota_base (l : lease) : string :=
  Ref_Key (bi_Ref (le_item l)) (spec_Algo (bi_Spec (le_item l))).
Definition quota_limit (l : lease) : Z := spec_Limit (bi_Spec (le_item l)).
Definition quota_window (l : lease) : Z := windowMs (bi_Spec (le_item l)).

(** The quota's counters: what the edges hold or spent is covered by what the
    ledger has charged; [D] is the debt in the counter. *)
Definition covered (b : string) (L : Z) (W : World) (w : Z) : Prop :=
  ∃ u D, holds (qs_ledger (w_hub W)) (winKey b w) u ∧ 0 ≤ u ≤ f64_max_int ∧ 0 ≤ D ∧ u ≤ L + D ∧
    stuff b w W ≤ u - D.

Definition msg_ok (b : string) (hub : QuotaLeaseServer) (msg : message) : Prop :=
  Forall (item_ok rid) (ms_items msg) ∧ rl_Dedupe (ms_req msg) ≠ "" ∧
  ∃ others, rl_Returns (ms_req msg) ≡ₚ ms_items msg ++ others ∧
    Forall (other_return sha64 sha8 validKey cfg store b hub) others.

Record lwinv (b : string) (L win : Z) (N : Z) (W : World) : Prop := {
  wi_edges : edges_bounded N (qs_ledger (w_hub W));
  wi_clock : clock_ok (w_now W);
  wi_region : qs_region (w_hub W) = region;
  wi_covered : ∀ w, covered b L W w;
  wi_open : ∀ w, sumZ (open_stuff w) (w_open W) ≤ admitted w W;
  wi_ctrs : Forall (ctr_ok rid win (w_now W)) (w_ctrs W);
  wi_replies : Forall (λ r, ∃ wc, w_ctrs W !! rp_ctr r = Some wc ∧
                               reply_ok win (w_now W) (wc_off wc) r) (w_replies W);
  wi_opened : Forall (open_ok (w_ctrs W)) (w_open W);
  wi_pool : Forall (item_ok rid) (w_pool W);
  wi_msgs : Forall (msg_ok b (w_hub W)) (w_msgs W);
  wi_log : Forall (log_ok win) (w_log W);
}.

(** *** Bounds the invariant gives *)

Section bounds.
Context (b : string) (L win N : Z) (W : World).
Hypothesis Hinv : lwinv b L win N W.

Lemma admitted_nonneg w : 0 ≤ admitted w W.
Proof using Hinv.
  etrans; [|apply (wi_open _ _ _ _ _ Hinv)]. apply sumZ_nonneg. intros o Ho.
  pose proof (proj1 (Forall_forall _ _) (wi_opened _ _ _ _ _ Hinv) o Ho) as [? _ _].
  unfold open_stuff. case_match; lia.
Qed.

Lemma stuff_le w : stuff b w W ≤ L.
Proof using Hinv. destruct (wi_covered _ _ _ _ _ Hinv w) as (u & D & ? & ? & ? & ? & ?). lia. Qed.

Lemma stuff_parts w :
  0 ≤ sumZ (ctr_stuff w) (w_ctrs W) ∧ 0 ≤ sumZ (reply_stuff w) (w_replies W) ∧
  0 ≤ sumZ (item_stuff w) (w_pool W) ∧ 0 ≤ sumZ (msg_stuff b w (qs_ledger (w_hub W))) (w_msgs W).
Proof.
  split_and!; apply sumZ_nonneg; intros;
    auto using ctr_stuff_nonneg, reply_stuff_nonneg, item_stuff_nonneg, msg_stuff_nonneg.
Qed.

Lemma held_tokens_le k off c i h :
  w_ctrs W !! k = Some (mkWCounter off c) → c_held c !! i = Some h → Z.max 0 (h_tokens h) ≤ L.
Proof using Hinv.
  intros Hk Hi. pose proof (stuff_le (h_win h)) as Hs. pose proof (stuff_parts (h_win h)) as (_ & P1 & P2 & P3).
  pose proof (admitted_nonneg (h_win h)) as Ha. unfold stuff in Hs.
  pose proof (sumZ_lookup_le (ctr_stuff (h_win h)) (w_ctrs W) k _ (λ y _, ctr_stuff_nonneg _ y) Hk) as H1.
  pose proof (sumZ_lookup_le (held_stuff (h_win h)) (c_held c) i h (λ y _, held_stuff_nonneg _ y) Hi) as H2.
  unfold ctr_stuff at 1 in H1. cbn [wc_c] in H1. unfold held_stuff at 1 in H2. rewrite Z.eqb_refl in H2. lia.
Qed.

Lemma reply_granted_le j r :
  w_replies W !! j = Some r → Z.max 0 (qr_GrantedTokens (rp_resp r)) ≤ L.
Proof using Hinv.
  intros Hj. set (w := qr_WindowId (rp_resp r)). pose proof (stuff_le w) as Hs.
  pose proof (stuff_parts w) as (P1 & _ & P2 & P3). pose proof (admitted_nonneg w) as Ha. unfold stuff in Hs.
  pose proof (sumZ_lookup_le (reply_stuff w) _ j r (λ y _, reply_stuff_nonneg _ y) Hj) as H1.
  unfold reply_stuff at 1 in H1. fold w in H1. rewrite Z.eqb_refl in H1. lia.
Qed.
End bounds.

(** *** Steps of one counter *)

(** A counter after a step: every held is still there, with its window, and
    with a lease if it had one. *)
Definition evolves (c c' : leaseCounter) : Prop :=
  c_req c' = c_req c ∧
  ∀ i h, c_held c !! i = Some h → ∃ h', c_held c' !! i = Some h' ∧ h_win h' = h_win h ∧
    (0 < h_expiresAt h → 0 < h_expiresAt h').

Lemma open_ok_evolves cs k off c c' o :
  cs !! k = Some (mkWCounter off c) → evolves c c' → open_ok cs o →
  open_ok (<[k := mkWCounter off c']> cs) o.
Proof.
  intros Hk [_ Hev] [Hc Hh (wc & Hwc & Hlen)]. split; [done| |].
  - intros wc' h' Hl Hh'. destruct (decide (od_ctr o = k)) as [E|Hne].
    + rewrite E in *. rewrite list_lookup_insert_eq in Hl by (by eapply lookup_lt_Some).
      injection Hl as <-. cbn in Hh'. rewrite Hk in Hwc. injection Hwc as <-. cbn in Hlen.
      apply lookup_lt_is_Some in Hlen as [h Hl]. destruct (Hev _ _ Hl) as (h'' & Hl' & Ew & Ex).
      rewrite Hh' in Hl'. injection Hl' as <-. destruct (Hh _ _ Hk Hl) as [? ?]. split; [congruence|auto].
    + rewrite list_lookup_insert_ne in Hl by done. by apply (Hh wc').
  - destruct (decide (od_ctr o = k)) as [E|Hne].
    + rewrite E in *. rewrite Hk in Hwc. injection Hwc as <-. eexists.
      rewrite list_lookup_insert_eq by (by eapply lookup_lt_Some). split; [done|]. cbn in *.
      apply lookup_lt_is_Some in Hlen as [h Hl]. destruct (Hev _ _ Hl) as (h' & Hl' & _).
      by eapply lookup_lt_Some.
    + exists wc. by rewrite list_lookup_insert_ne.
Qed.

#[local] Ltac wcbn :=
  cbn [w_now w_hub w_ctrs w_replies w_pool w_msgs w_open w_log wc_off wc_c] in *.

Lemma lwinv_local b L win N now hub cs rps pool msgs opn log k off c c' rps' pool' opn' log' :
  lwinv b L win N (mkWorld now hub cs rps pool msgs opn log) →
  cs !! k = Some (mkWCounter off c) → evolves c c' → Forall (held_ok win now off) (c_held c') →
  (∀ r, r ∈ rps' → r ∈ rps) → Forall (item_ok rid) pool' → Forall (log_ok win) log' →
  (∀ w, sumZ (charged w) log' + sumZ (held_stuff w) (c_held c') + sumZ (reply_stuff w) rps' +
          sumZ (item_stuff w) pool' ≤
        sumZ (charged w) log + sumZ (held_stuff w) (c_held c) + sumZ (reply_stuff w) rps +
          sumZ (item_stuff w) pool) →
  (∀ w, sumZ (open_stuff w) opn' ≤ sumZ (charged w) log') →
  Forall (open_ok (<[k := mkWCounter off c']> cs)) opn' →
  lwinv b L win N (mkWorld now hub (<[k := mkWCounter off c']> cs) rps' pool' msgs opn' log').
Proof.
  intros [He Hc Hr Hcov Ho Hcs Hrp Hop Hpo Hms Hlog] Hk Hev Hh Hrps Hpool Hlog' Hst Hopen Hopen'.
  wcbn. pose proof (lookup_lt_Some _ _ _ Hk) as Hlt.
  assert (Hkc : ctr_ok rid win now (mkWCounter off c)) by (by eapply Forall_lookup_1 in Hcs).
  split; wcbn; try done.
  - intros w. destruct (Hcov w) as (u & D & H1 & H2 & H3 & H4 & H5). exists u, D. split_and!; try done; try lia.
    wcbn. etrans; [|exact H5]. unfold stuff, admitted. wcbn. rewrite (sumZ_insert _ _ _ _ _ Hk).
    unfold ctr_stuff at 2 3. wcbn. specialize (Hst w). lia.
  - apply Forall_insert; [done|]. destruct Hkc as [H1 H2 H3]. split; [done..|]. wcbn.
    by rewrite (proj1 Hev).
  - apply Forall_forall. intros r Hin%Hrps. pose proof (proj1 (Forall_forall _ _) Hrp r Hin) as (wc & Hwc & Hro).
    destruct (decide (rp_ctr r = k)) as [E|Hne].
    + rewrite E, list_lookup_insert_eq by done. rewrite E, Hk in Hwc. injection Hwc as <-. by eexists.
    + exists wc. by rewrite list_lookup_insert_ne.
Qed.

Lemma c_get_lookup c i : (i < length (c_held c))%nat → c_held c !! i = Some (c_get c i).
Proof. intros [h Hh]%lookup_lt_is_Some. unfold c_get. by rewrite nth_lookup, Hh. Qed.

Lemma c_get_ok win now off c i :
  Forall (held_ok win now off) (c_held c) → held_ok win now off (c_get c i).
Proof.
  intros Hh. unfold c_get. rewrite nth_lookup. destruct (c_held c !! i) as [h|] eqn:E.
  - by eapply Forall_lookup_1.
  - split; cbn; unfold charge_max; lia.
Qed.

Lemma evolves_put c i h h' :
  c_held c !! i = Some h → h_win h' = h_win h → (0 < h_expiresAt h → 0 < h_expiresAt h') →
  evolves c (c_put c i h').
Proof.
  intros Hi Hw Hx. split; [done|]. intros j hj Hj. cbn. destruct (decide (i = j)) as [<-|Hne].
  - rewrite list_lookup_insert_eq by (by eapply lookup_lt_Some). rewrite Hi in Hj. injection Hj as <-. eauto.
  - rewrite list_lookup_insert_ne by done. eauto.
Qed.

(** A step that changes one held of one counter. *)
Lemma lwinv_put b L win N now hub cs rps pool msgs opn log k off c i h h' rps' pool' opn' log' :
  lwinv b L win N (mkWorld now hub cs rps pool msgs opn log) →
  cs !! k = Some (mkWCounter off c) → c_held c !! i = Some h →
  h_win h' = h_win h → (0 < h_expiresAt h → 0 < h_expiresAt h') → held_ok win now off h' →
  (∀ r, r ∈ rps' → r ∈ rps) → Forall (item_ok rid) pool' → Forall (log_ok win) log' →
  (∀ w, sumZ (charged w) log' + held_stuff w h' + sumZ (reply_stuff w) rps' + sumZ (item_stuff w) pool' ≤
        sumZ (charged w) log + held_stuff w h + sumZ (reply_stuff w) rps + sumZ (item_stuff w) pool) →
  (∀ w, sumZ (open_stuff w) opn' ≤ sumZ (charged w) log') →
  (evolves c (c_put c i h') → Forall (open_ok (<[k := mkWCounter off (c_put c i h')]> cs)) opn') →
  lwinv b L win N
    (mkWorld now hub (<[k := mkWCounter off (c_put c i h')]> cs) rps' pool' msgs opn' log').
Proof.
  intros Hinv Hk Hi Hw Hx Hok Hr Hp Hl Hst Ho Hoo.
  pose proof (evolves_put c i h h' Hi Hw Hx) as Hev.
  eapply lwinv_local; try done; [|by intros w; cbn [c_put c_held]; rewrite (sumZ_insert _ _ _ _ _ Hi);
    specialize (Hst w); lia|by apply Hoo].
  pose proof (wi_ctrs _ _ _ _ _ Hinv) as Hcs. wcbn.
  eapply Forall_lookup_1 in Hcs; [|done]. cbn [c_put c_held]. apply Forall_insert; [apply Hcs|done].
Qed.

Lemma open_ok_put cs k off c c' opn :
  cs !! k = Some (mkWCounter off c) → Forall (open_ok cs) opn → evolves c c' →
  Forall (open_ok (<[k := mkWCounter off c']> cs)) opn.
Proof.
  intros Hk Ho Hev. eapply Forall_impl; [exact Ho|]. intros o. by apply (open_ok_evolves _ _ _ c).
Qed.

Lemma list_delete_none {A} (l : list A) j : l !! j = None → delete j l = l.
Proof.
  revert j. induction l as [|x l IH]; intros [|j] Hj; cbn in *; try done. f_equal. by apply IH.
Qed.

(** *** Taking tokens *)

Lemma held_take_hit h cost t balance h' :
  is_int64 (h_tokens h) → 1 ≤ cost → held_take h cost t = (balance, h') → 0 ≤ balance →
  h' = h_set_tokens h (h_tokens h - cost) ∧ cost ≤ h_tokens h ∧ (0 < h_expiresAt h → t < h_expiresAt h).
Proof.
  unfold held_take. intros Hi Hc. destruct ((0 <? _) && (_ <=? t)) eqn:E; [intros [= <- _]; lia|].
  destruct (Z.ltb_spec (h_tokens h) cost); [intros [= <- _]; lia|].
  intros [= <- <-] _. unfold i64_sub. rewrite wrap64_small by (unfold is_int64, int64_min in *; lia).
  split_and!; [done|done|]. lia.
Qed.

Lemma held_take_miss h cost t balance h' :
  is_int64 (h_tokens h) → 1 ≤ cost → held_take h cost t = (balance, h') → balance < 0 →
  h' = h ∨ h' = h_set_tokens h 0 ∧ 0 < h_tokens h.
Proof.
  unfold held_take. intros Hi Hc. destruct ((0 <? _) && (_ <=? t)).
  - destruct (Z.leb_spec (h_tokens h) 0); intros [= _ <-]; auto.
  - destruct (Z.ltb_spec (h_tokens h) cost); [intros [= _ <-]; auto|].
    intros [= <- <-]. unfold i64_sub. rewrite wrap64_small by (unfold is_int64, int64_min in *; lia). lia.
Qed.

Lemma take_put c i cost t balance c' :
  take c i cost t = (balance, c') →
  ∃ h', held_take (c_get c i) cost t = (balance, h') ∧ c' = c_put c i h'.
Proof. unfold take. destruct (held_take _ _ _) as [x h']. intros [= <- <-]. eauto. Qed.

(** *** Settling *)

Lemma held_adjust_charge h delta maxDebt :
  - charge_max ≤ h_tokens h ≤ f64_max_int → 0 ≤ delta ≤ charge_max → 0 ≤ maxDebt ≤ charge_max →
  - charge_max ≤ h_tokens (held_adjust h delta maxDebt) ≤ h_tokens h.
Proof.
  intros Ht Hd Hm. unfold held_adjust, charge_max in *. cbn [h_tokens].
  unfold i64_sub. rewrite (wrap64_small (h_tokens h - delta)) by bounds.
  destruct ((0 <? delta) && _) eqn:E; lia.
Qed.

Lemma held_adjust_refund h delta maxDebt :
  - charge_max ≤ h_tokens h ≤ f64_max_int → - f64_max_int ≤ delta < 0 →
  h_tokens (held_adjust h delta maxDebt) = h_tokens h - delta.
Proof.
  intros Ht Hd. unfold held_adjust, charge_max in *. cbn [h_tokens].
  unfold i64_sub. rewrite (wrap64_small (h_tokens h - delta)) by bounds.
  by rewrite (proj2 (Z.ltb_ge 0 delta)) by lia.
Qed.

Section steps.
Context (b : string) (L win N : Z) (HL : 0 ≤ L ≤ f64_max_int).
Context (now : Z) (hub : QuotaLeaseServer) (cs : list wcounter) (rps : list reply)
  (pool : list LeaseReturn) (msgs : list message) (opn : list opened) (log : list admission).
Hypothesis Hinv : lwinv b L win N (mkWorld now hub cs rps pool msgs opn log).

Lemma ctr_held k off c i :
  cs !! k = Some (mkWCounter off c) → (i < length (c_held c))%nat →
  c_held c !! i = Some (c_get c i) ∧ held_ok win now off (c_get c i) ∧ h_tokens (c_get c i) ≤ L ∧
  is_int64 (h_tokens (c_get c i)).
Proof using Hinv HL.
  intros Hk Hi%c_get_lookup.
  pose proof (held_tokens_le _ _ _ _ _ Hinv k off c i _ Hk Hi) as Ht.
  pose proof (wi_ctrs _ _ _ _ _ Hinv) as Hcs. wcbn. eapply Forall_lookup_1 in Hcs as [_ Hh _]; [|done].
  wcbn. pose proof (c_get_ok win now off c i Hh) as Hok. split_and!; [done..|lia|].
  pose proof (ho_low _ _ _ _ Hok). unfold charge_max in *. bounds.
Qed.

Lemma lwinv_take k off c i cost balance c' :
  cs !! k = Some (mkWCounter off c) → (i < length (c_held c))%nat → 1 ≤ cost →
  take c i cost (now + off) = (balance, c') → 0 ≤ balance →
  lwinv b L win N
    (mkWorld now hub (<[k := mkWCounter off c']> cs) rps pool msgs
       (mkOpened k i (h_win (c_get c i)) cost :: opn) (mkAdmission now (h_win (c_get c i)) cost :: log)).
Proof using Hinv HL.
  intros Hk Hi Hc Ht Hb. destruct (ctr_held k off c i Hk Hi) as (Hl & Hok & Hle & H64).
  destruct (take_put _ _ _ _ _ _ Ht) as (h' & Ht' & ->).
  destruct (held_take_hit _ _ _ _ _ H64 Hc Ht' Hb) as (-> & Hcost & Hexp).
  destruct Hok as [Hlow Hpos Hwin]. specialize (Hpos ltac:(lia)). specialize (Hwin Hpos) as [Hw1 Hw2].
  specialize (Hexp Hpos).
  eapply lwinv_put; try done; cbn [h_set_tokens h_win h_expiresAt].
  - split; unfold charge_max; cbn; lia.
  - by apply (wi_pool _ _ _ _ _ Hinv).
  - constructor; [|by apply (wi_log _ _ _ _ _ Hinv)]. intros _. cbn. lia.
  - intros w. rewrite sumZ_cons. unfold charged, held_stuff. cbn. destruct (_ =? w); lia.
  - intros w. rewrite !sumZ_cons. pose proof (wi_open _ _ _ _ _ Hinv w) as Ho. unfold admitted in Ho. wcbn.
    unfold open_stuff at 1, charged at 1. cbn [od_win od_cost ad_win ad_cost].
    destruct (_ =? w); lia.
  - intros Hev. constructor.
    + split; cbn.
      * bounds.
      * intros wc h. rewrite list_lookup_insert_eq by (by eapply lookup_lt_Some). intros [= <-]. cbn.
        rewrite list_lookup_insert_eq by (by eapply lookup_lt_Some). by intros [= <-].
      * eexists. rewrite list_lookup_insert_eq by (by eapply lookup_lt_Some). split; [done|].
        cbn. by rewrite length_insert.
    + apply (open_ok_put _ _ _ c); [done| |done]. apply (wi_opened _ _ _ _ _ Hinv).
Qed.

Lemma steps_open w : sumZ (open_stuff w) opn ≤ sumZ (charged w) log.
Proof using Hinv. exact (wi_open _ _ _ _ _ Hinv w). Qed.

(** A step that changes one held and nothing else, and adds no tokens. *)
Lemma lwinv_held k off c i h' :
  cs !! k = Some (mkWCounter off c) → (i < length (c_held c))%nat →
  h_win h' = h_win (c_get c i) → (0 < h_expiresAt (c_get c i) → 0 < h_expiresAt h') →
  held_ok win now off h' → Z.max 0 (h_tokens h') ≤ Z.max 0 (h_tokens (c_get c i)) →
  lwinv b L win N (mkWorld now hub (<[k := mkWCounter off (c_put c i h')]> cs) rps pool msgs opn log).
Proof using Hinv HL.
  intros Hk Hi Hw Hx Hok Ht. destruct (ctr_held k off c i Hk Hi) as (Hl & _).
  eapply lwinv_put; try done.
  - by apply (wi_pool _ _ _ _ _ Hinv).
  - by apply (wi_log _ _ _ _ _ Hinv).
  - intros w. unfold held_stuff. rewrite Hw. destruct (_ =? w); lia.
  - apply steps_open.
  - apply open_ok_put; [done|]. apply (wi_opened _ _ _ _ _ Hinv).
Qed.

(** A decision no longer open. *)
Lemma lwinv_settled j : lwinv b L win N (mkWorld now hub cs rps pool msgs (delete j opn) log).
Proof using Hinv.
  destruct (opn !! j) as [o|] eqn:Hj; [|by rewrite list_delete_none].
  pose proof (wi_opened _ _ _ _ _ Hinv) as Hop. wcbn.
  assert (Hsub : ∀ x, x ∈ delete j opn → x ∈ opn).
  { intros x Hx. rewrite (delete_Permutation opn j o Hj). by right. }
  destruct Hinv; split; wcbn; try done.
  - intros w. rewrite (sumZ_delete _ _ _ _ Hj). pose proof (steps_open w) as Ho. unfold admitted. wcbn.
    eapply Forall_lookup_1 in Hop as [? _ _]; [|done]. unfold open_stuff at 2. case_match; lia.
  - apply Forall_forall. intros x Hx%Hsub. by eapply Forall_forall in Hop.
Qed.

Lemma lwinv_miss k off c i cost balance c' :
  cs !! k = Some (mkWCounter off c) → (i < length (c_held c))%nat → 1 ≤ cost →
  take c i cost (now + off) = (balance, c') → balance < 0 →
  lwinv b L win N (mkWorld now hub (<[k := mkWCounter off c']> cs) rps pool msgs opn log).
Proof using Hinv HL.
  intros Hk Hi Hc Ht Hb. destruct (ctr_held k off c i Hk Hi) as (Hl & Hok & Hle & H64).
  destruct (take_put _ _ _ _ _ _ Ht) as (h' & Ht' & ->).
  destruct (held_take_miss _ _ _ _ _ H64 Hc Ht' Hb) as [->|[-> Hpos]]; apply lwinv_held; try done; cbn; try lia.
  destruct Hok as [Hlow Hx Hw]. split; cbn; unfold charge_max; try lia; done.
Qed.

Lemma lwinv_install k off c old w pw :
  cs !! k = Some (mkWCounter off c) →
  lwinv b L win N (mkWorld now hub (<[k := mkWCounter off (snd (install c old w pw))]> cs) rps pool msgs opn log).
Proof using Hinv HL.
  intros Hk. unfold install. destruct (_ || _); cbn [snd]; [|by rewrite list_insert_id].
  pose proof (wi_ctrs _ _ _ _ _ Hinv) as Hcs. wcbn. eapply Forall_lookup_1 in Hcs as [_ Hh _]; [|done]. wcbn.
  assert (Hev : evolves c (c_push c (mkHeld w pw (Z.min (h_tokens (cur c)) 0) 0 0))).
  { split; [done|]. intros i h Hi. exists h. cbn. by rewrite (lookup_app_l_Some _ _ _ _ Hi). }
  eapply lwinv_local; try done.
  - cbn. apply Forall_app. split; [done|]. constructor; [|done].
    pose proof (ho_low _ _ _ _ (c_get_ok win now off c (c_cur c) Hh)) as Hlow. fold (cur c) in Hlow.
    split; cbn; try lia. unfold charge_max in *. lia.
  - by apply (wi_pool _ _ _ _ _ Hinv).
  - by apply (wi_log _ _ _ _ _ Hinv).
  - intros w'. cbn [c_push c_held]. rewrite sumZ_app, sumZ_cons. unfold held_stuff at 2. cbn [h_win h_tokens].
    change (sumZ (held_stuff w') []) with 0. case_match; lia.
  - apply steps_open.
  - apply (open_ok_put _ _ _ c); [done| |done]. apply (wi_opened _ _ _ _ _ Hinv).
Qed.

Lemma reply_facts k off c j sent resp :
  cs !! k = Some (mkWCounter off c) → rps !! j = Some (mkReply k sent resp) →
  reply_ok win now off (mkReply k sent resp) ∧ qr_GrantedTokens resp ≤ L.
Proof using Hinv HL.
  intros Hk Hj. pose proof (reply_granted_le _ _ _ _ _ Hinv j _ Hj) as Hg. cbn in Hg.
  pose proof (wi_replies _ _ _ _ _ Hinv) as Hr. wcbn.
  eapply Forall_lookup_1 in Hr as (wc & Hwc & Hok); [|done]. cbn in Hwc. rewrite Hk in Hwc.
  injection Hwc as <-. split; [done|lia].
Qed.

Lemma lwinv_extend k off c i j sent resp :
  cs !! k = Some (mkWCounter off c) → (i < length (c_held c))%nat →
  rps !! j = Some (mkReply k sent resp) → h_win (c_get c i) = qr_WindowId resp →
  let h := c_get c i in
  lwinv b L win N (mkWorld now hub
    (<[k := mkWCounter off (c_put c i (mkHeld (h_win h) (h_parentWin h) (h_tokens h) (h_consumed h)
                                         (sent + qr_ExpiresInMs resp)%i64))]> cs) rps pool msgs opn log).
Proof using Hinv HL.
  intros Hk Hi Hj Hw h. destruct (ctr_held k off c i Hk Hi) as (Hl & [Hlow Hx Hwin] & _).
  destruct (reply_facts k off c j sent resp Hk Hj) as [[_ He Hp Hwn] _]. cbn in *.
  apply lwinv_held; try done; cbn; rewrite ?He; try lia.
  split; cbn; rewrite ?He; [done|lia|]. unfold h. rewrite Hw. lia.
Qed.

Lemma lwinv_lose j : lwinv b L win N (mkWorld now hub cs (delete j rps) pool msgs opn log).
Proof using Hinv.
  destruct (rps !! j) as [r|] eqn:Hj; [|by rewrite list_delete_none].
  assert (Hsub : ∀ x, x ∈ delete j rps → x ∈ rps).
  { intros x Hx. rewrite (delete_Permutation rps j r Hj). by right. }
  pose proof (reply_stuff_nonneg) as Hnn.
  destruct Hinv as [He Hc Hr Hcov Ho Hcs Hrp Hop Hpo Hms Hlog]. split; wcbn; try done.
  - intros w. destruct (Hcov w) as (u & D & H1 & H2 & H3 & H4 & H5). exists u, D. split_and!; try done; try lia.
    unfold stuff in *. wcbn. rewrite (sumZ_delete _ _ _ _ Hj). specialize (Hnn w r). unfold admitted in *. wcbn. lia.
  - apply Forall_forall. intros x Hx%Hsub. by eapply Forall_forall in Hrp.
Qed.

Lemma lwinv_add k off c i j sent resp :
  cs !! k = Some (mkWCounter off c) → (i < length (c_held c))%nat →
  rps !! j = Some (mkReply k sent resp) → h_win (c_get c i) = qr_WindowId resp →
  0 < qr_GrantedTokens resp →
  lwinv b L win N (mkWorld now hub
    (<[k := mkWCounter off (add_tokens c i (sent + qr_ExpiresInMs resp)%i64 (qr_GrantedTokens resp))]> cs)
    (delete j rps) pool msgs opn log).
Proof using Hinv HL.
  intros Hk Hi Hj Hw Hg. destruct (ctr_held k off c i Hk Hi) as (Hl & [Hlow Hx Hwin] & Hle & _).
  destruct (reply_facts k off c j sent resp Hk Hj) as [[_ He Hp Hwn] Hgl]. cbn in He, Hp, Hwn.
  assert (Hsum : (h_tokens (c_get c i) + qr_GrantedTokens resp)%i64 =
                 h_tokens (c_get c i) + qr_GrantedTokens resp).
  { unfold i64_add. apply wrap64_small. unfold charge_max in Hlow. bounds. }
  unfold add_tokens. rewrite He, Hsum.
  set (h' := mkHeld _ _ _ _ _). set (c' := c_set_meta _ _ _ _ _).
  assert (Hev : evolves c c').
  { apply (evolves_put c i (c_get c i) h'); [done..|]. intros _. by cbn. }
  eapply lwinv_local; try done.
  - pose proof (wi_ctrs _ _ _ _ _ Hinv) as Hcs. wcbn. eapply Forall_lookup_1 in Hcs as [_ Hh _]; [|done]. wcbn.
    cbn. apply Forall_insert; [done|]. split; cbn; lia.
  - intros r Hr. rewrite (delete_Permutation rps j _ Hj). by right.
  - by apply (wi_pool _ _ _ _ _ Hinv).
  - by apply (wi_log _ _ _ _ _ Hinv).
  - intros w. cbn [c_set_meta c_put c_held c']. rewrite (sumZ_insert _ _ _ _ _ Hl), (sumZ_delete _ _ _ _ Hj).
    unfold held_stuff at 2 3, reply_stuff at 2. cbn [h' h_win h_tokens rp_resp]. rewrite Hw. case_match; lia.
  - apply steps_open.
  - apply (open_ok_put _ _ _ c); [done| |done]. apply (wi_opened _ _ _ _ _ Hinv).
Qed.

Lemma lwinv_meta k off c c' :
  cs !! k = Some (mkWCounter off c) → same_tokens c c' →
  lwinv b L win N (mkWorld now hub (<[k := mkWCounter off c']> cs) rps pool msgs opn log).
Proof using Hinv.
  intros Hk (Hh & Hcur & Hreq).
  assert (Hev : evolves c c').
  { split; [done|]. intros i h Hi. destruct (Forall2_lookup_l _ _ _ _ _ Hh Hi) as (h' & Hi' & Hs).
    destruct Hs as (? & ? & ? & Ex). exists h'. rewrite Ex. done. }
  eapply lwinv_local; try done.
  - pose proof (wi_ctrs _ _ _ _ _ Hinv) as Hcs. wcbn. eapply Forall_lookup_1 in Hcs as [_ Hok _]; [|done]. wcbn.
    clear -Hh Hok. induction Hh as [|h h' l l' (E1 & E2 & E3 & E4) _ IH]; [done|].
    apply Forall_cons in Hok as [[H1 H2 H3] Hok]. constructor; [|auto].
    split; rewrite ?E1, ?E3, ?E4; done.
  - by apply (wi_pool _ _ _ _ _ Hinv).
  - by apply (wi_log _ _ _ _ _ Hinv).
  - intros w. assert (sumZ (held_stuff w) (c_held c') = sumZ (held_stuff w) (c_held c)) as ->; [|lia].
    clear -Hh. induction Hh as [|h h' l l' (E1 & E2 & E3 & E4) _ IH]; [done|].
    rewrite !sumZ_cons, IH. unfold held_stuff at 1 3. by rewrite E1, E3.
  - apply steps_open.
  - apply (open_ok_put _ _ _ c); [done| |done]. apply (wi_opened _ _ _ _ _ Hinv).
Qed.

Lemma lwinv_charge k off c i delta maxDebt :
  cs !! k = Some (mkWCounter off c) → (i < length (c_held c))%nat →
  0 ≤ delta ≤ charge_max → 0 ≤ maxDebt ≤ charge_max →
  lwinv b L win N
    (mkWorld now hub (<[k := mkWCounter off (c_put c i (held_adjust (c_get c i) delta maxDebt))]> cs)
       rps pool msgs opn log).
Proof using Hinv HL.
  intros Hk Hi Hd Hm. destruct (ctr_held k off c i Hk Hi) as (Hl & [Hlow Hx Hwin] & Hle & _).
  pose proof (held_adjust_charge (c_get c i) delta maxDebt ltac:(lia) Hd Hm) as Ht.
  apply lwinv_held; try done; [|lia]. split; cbn [h_win h_expiresAt held_adjust]; [lia|lia|done].
Qed.

Lemma lwinv_refund k off c i j w cost delta maxDebt :
  opn !! j = Some (mkOpened k i w cost) → cs !! k = Some (mkWCounter off c) → - cost ≤ delta < 0 →
  lwinv b L win N
    (mkWorld now hub (<[k := mkWCounter off (c_put c i (held_adjust (c_get c i) delta maxDebt))]> cs)
       rps pool msgs (delete j opn) (mkAdmission now w delta :: log)).
Proof using Hinv HL.
  intros Hj Hk Hd. pose proof (wi_opened _ _ _ _ _ Hinv) as Hop. wcbn.
  pose proof (Forall_lookup_1 _ _ _ _ Hop Hj) as [Hc Hoo (wc & Hwc & Hi)]. cbn in Hc, Hwc, Hi, Hoo.
  rewrite Hk in Hwc. injection Hwc as <-. cbn in Hi.
  destruct (ctr_held k off c i Hk Hi) as (Hl & [Hlow Hx Hwin] & Hle & _).
  destruct (Hoo _ _ Hk Hl) as [Hw Hexp].
  pose proof (held_adjust_refund (c_get c i) delta maxDebt ltac:(lia) ltac:(lia)) as Ht.
  eapply lwinv_put; try done.
  - split; cbn [h_win h_expiresAt held_adjust]; [rewrite Ht; lia|done|done].
  - by apply (wi_pool _ _ _ _ _ Hinv).
  - constructor; [intros ?; cbn in *; lia|]. by apply (wi_log _ _ _ _ _ Hinv).
  - intros w'. rewrite sumZ_cons. unfold charged at 1, held_stuff. rewrite Ht.
    cbn [ad_win ad_cost h_win held_adjust]. rewrite Hw. destruct (w =? w'); lia.
  - intros w'. rewrite (sumZ_delete _ _ _ _ Hj), sumZ_cons. pose proof (steps_open w') as Ho.
    unfold open_stuff at 2, charged at 1. cbn [od_win od_cost ad_win ad_cost]. destruct (w =? w'); lia.
  - intros Hev. apply (open_ok_put _ _ _ c); [done| |done].
    apply Forall_forall. intros x Hx'. apply (proj1 (Forall_forall _ _) Hop).
    rewrite (delete_Permutation opn j _ Hj). by right.
Qed.

(** *** Giving back *)

Lemma lwinv_swap k off c i n h :
  cs !! k = Some (mkWCounter off c) → (i < length (c_held c))%nat →
  held_swap (c_get c i) (now + off) = (n, h) →
  lwinv b L win N (mkWorld now hub (<[k := mkWCounter off (c_put c i h)]> cs) rps
    (if n =? 0 then pool else lease_return c h n :: pool) msgs opn log).
Proof using Hinv HL.
  intros Hk Hi [= Hn <-]. destruct (ctr_held k off c i Hk Hi) as (Hl & [Hlow Hx Hwin] & Hle & _).
  pose proof (wi_pool _ _ _ _ _ Hinv) as Hpo. pose proof (wi_ctrs _ _ _ _ _ Hinv) as Hcs. wcbn.
  eapply Forall_lookup_1 in Hcs as [_ _ Hreq]; [|done]. wcbn.
  eapply lwinv_put; try done; cbn [h_set_tokens h_win h_expiresAt].
  - destruct (n =? 0); [done|]. constructor; [|done]. split; cbn; by rewrite Hreq.
  - by apply (wi_log _ _ _ _ _ Hinv).
  - intros w. assert (Hn' : Z.max 0 n ≤ Z.max 0 (h_tokens (c_get c i))) by (destruct (_ && _); lia).
    destruct (n =? 0); [|rewrite sumZ_cons; unfold item_stuff at 1; cbn [lr_WindowId lr_Tokens lease_return]];
      unfold held_stuff; cbn [h_win h_tokens h_set_tokens]; destruct (_ =? w); lia.
  - apply steps_open.
  - apply open_ok_put; [done|]. apply (wi_opened _ _ _ _ _ Hinv).
Qed.

Lemma lwinv_send cn inp items rest others :
  pool ≡ₚ items ++ rest → rl_Returns inp ≡ₚ items ++ others →
  Forall (other_return sha64 sha8 validKey cfg store b hub) others → rl_Dedupe inp ≠ "" →
  lwinv b L win N (mkWorld now hub cs rps rest (mkMessage cn inp items :: msgs) opn log).
Proof using Hinv.
  intros Hp Hr Ho Hd. destruct Hinv as [He Hc Hreg Hcov Hopn Hcs Hrp Hop Hpo Hms Hlog]. wcbn.
  rewrite Hp in Hpo. apply Forall_app in Hpo as [Hit Hrest]. split; wcbn; try done.
  - intros w. destruct (Hcov w) as (u & D & H1 & H2 & H3 & H4 & H5). exists u, D. split_and!; try done; try lia.
    unfold stuff, admitted in *. wcbn. rewrite (sumZ_perm _ _ _ Hp), sumZ_app in H5. rewrite sumZ_cons.
    assert (msg_stuff b w (qs_ledger hub) (mkMessage cn inp items) ≤ sumZ (item_stuff w) items); [|lia].
    unfold msg_stuff. case_match; [|done]. apply sumZ_nonneg. intros; apply item_stuff_nonneg.
  - constructor; [|done]. split_and!; [done..|]. by exists others.
Qed.

(** *** Time and new counters *)

Lemma lwinv_tick t : now ≤ t → clock_ok t → lwinv b L win N (mkWorld t hub cs rps pool msgs opn log).
Proof using Hinv.
  intros Ht Hc. destruct Hinv as [He _ Hreg Hcov Hopn Hcs Hrp Hop Hpo Hms Hlog]. split; wcbn; try done.
  - eapply Forall_impl; [exact Hcs|]. intros wc [H1 H2 H3]. split; [done| |done].
    eapply Forall_impl; [exact H2|]. intros h [K1 K2 K3]. split; [done..|]. lia.
  - eapply Forall_impl; [exact Hrp|]. intros r (wc & Hwc & [K1 K2 K3 K4]). exists wc. split; [done|].
    split; try done. lia.
Qed.

Lemma lwinv_new off l req :
  off_ok off → identity req = identity rid →
  lwinv b L win N (mkWorld now hub (cs ++ [mkWCounter off (new_counter l req)]) rps pool msgs opn log).
Proof using Hinv.
  intros Ho Hid. destruct Hinv as [He Hc Hreg Hcov Hopn Hcs Hrp Hop Hpo Hms Hlog]. split; wcbn; try done.
  - intros w. destruct (Hcov w) as (u & D & H1 & H2 & H3 & H4 & H5). exists u, D. split_and!; try done; try lia.
    unfold stuff, admitted in *. wcbn. rewrite sumZ_app, sumZ_cons.
    assert (ctr_stuff w (mkWCounter off (new_counter l req)) = 0) as ->; [|cbn; lia].
    unfold ctr_stuff, held_stuff. cbn. by destruct w.
  - apply Forall_app. split; [done|]. constructor; [|done]. split; [done| |done]. cbn.
    constructor; [|done]. split; cbn; unfold charge_max; lia.
  - eapply Forall_impl; [exact Hrp|]. intros r (wc & Hwc & Hok). exists wc.
    by rewrite (lookup_app_l_Some _ _ _ _ Hwc).
  - eapply Forall_impl; [exact Hop|]. intros o [K1 K2 (wc & Hwc & Hlen)].
    split; [done| |exists wc; by rewrite (lookup_app_l_Some _ _ _ _ Hwc)].
    intros wc' h. rewrite (lookup_app_l_Some _ _ _ _ Hwc). intros [= <-]. by apply K2.
Qed.

(** *** Steps of the hub *)

(** A call to the ledger that gives out [g], takes back [c] and charges debts
    [d], with the answers [rps'] on their way after it. *)
Lemma lwinv_ledger m' rps' g c d :
  moves b L g c d (qs_ledger hub) m' → deduped (qs_ledger hub) ⊆ deduped m' →
  edges_bounded (N + 1) m' → (∀ w, 0 ≤ d w) →
  (∀ w, Z.max L (Mem_getInt (qs_ledger hub) (winKey b w) 0) + d w ≤ f64_max_int) →
  Forall (λ r, ∃ wc, cs !! rp_ctr r = Some wc ∧ reply_ok win now (wc_off wc) r) rps' →
  (∀ w, sumZ (reply_stuff w) rps' + sumZ (msg_stuff b w m') msgs ≤
        sumZ (reply_stuff w) rps + sumZ (msg_stuff b w (qs_ledger hub)) msgs + g w - c w) →
  lwinv b L win (N + 1) (mkWorld now (set_ledger hub m') cs rps' pool msgs opn log).
Proof using Hinv.
  intros Hm Hdd Hed Hd0 Hdf Hrps Hst.
  destruct Hinv as [He Hc Hreg Hcov Hopn Hcs Hrp Hop Hpo Hms Hlog]. wcbn. split; wcbn; try done.
  - intros w. destruct (Hcov w) as (u & D & H1 & H2 & H3 & H4 & H5). wcbn.
    specialize (Hdf w). rewrite (holds_getInt _ _ _ H1) in Hdf. specialize (Hd0 w).
    destruct (Hm w u H1 ltac:(lia) Hdf) as (u' & Hu' & Hb' & Hle).
    exists u', (D + d w). split_and!; try done; try lia.
    unfold stuff, admitted in *. wcbn. specialize (Hst w). cbn [set_ledger qs_ledger]. lia.
Qed.

Lemma msgs_mono m' w :
  deduped (qs_ledger hub) ⊆ deduped m' →
  sumZ (msg_stuff b w m') msgs ≤ sumZ (msg_stuff b w (qs_ledger hub)) msgs.
Proof. intros Hd. apply sumZ_le. intros msg _. by apply msg_stuff_mono. Qed.

Context (range_perm : ∀ s, range s ≡ₚ map_to_list s) (Hb : is_base b) (HN : N ≤ 1099511627775).

Lemma steps_edges : edges_bounded 1099511627775 (qs_ledger hub).
Proof using Hinv HN. intros k. pose proof (wi_edges _ _ _ _ _ Hinv k). wcbn. lia. Qed.

Lemma steps_holds w : ∃ u, holds (qs_ledger hub) (winKey b w) u ∧ 0 ≤ u.
Proof using Hinv. destruct (wi_covered _ _ _ _ _ Hinv w) as (u & D & H1 & H2 & _). exists u. split; [done|lia]. Qed.

Lemma steps_counter w : 0 ≤ Mem_getInt (qs_ledger hub) (winKey b w) 0 ≤ f64_max_int.
Proof using Hinv.
  destruct (wi_covered _ _ _ _ _ Hinv w) as (u & D & H1 & H2 & _). wcbn. by rewrite (holds_getInt _ _ _ H1).
Qed.

Lemma is_base_ne : b ≠ "".
Proof using Hb. intros E. destruct Hb as (p & a & E' & _). rewrite E in E'. by destruct p. Qed.

Lemma lwinv_other o :
  other_op b L o →
  lwinv b L win (N + 1)
    (mkWorld now (set_ledger hub (snd (step range (qs_ledger hub) o))) cs rps pool msgs opn log).
Proof using Hinv HL range_perm Hb HN.
  intros [Hok Hret]. set (m := qs_ledger hub). pose proof (step_deduped range m o) as Hdd.
  assert (Hz : ∀ part w, part 0 = 0 → returned_to part b w m o = 0).
  { intros part w H0. destruct o; try done. cbn. apply returned_items_other; [done|apply is_base_ne|done]. }
  apply (lwinv_ledger _ rps (λ w, granted_to b w o (fst (step range m o)))
           (λ w, returned_to credit b w m o) (λ w, returned_to debt b w m o)).
  - apply step_moves; try done; [apply steps_edges|apply steps_holds].
  - done.
  - apply step_edges, (wi_edges _ _ _ _ _ Hinv).
  - intros w. by rewrite Hz.
  - intros w. rewrite Hz by done. pose proof (steps_counter w). unfold m. bounds.
  - apply (wi_replies _ _ _ _ _ Hinv).
  - intros w. rewrite (Hz credit) by done. pose proof (msgs_mono _ w Hdd).
    assert (0 ≤ granted_to b w o (fst (step range m o))); [|unfold m in *; lia].
    destruct (steps_holds w) as (u & Hu & Hu0). destruct o; try done.
    apply (step_grant range range_perm b L m) with (u := u); try done; [apply steps_edges|apply steps_holds].
Qed.

Context (l : lease) (Hq : quota_ok l) (Eb : b = quota_base l) (EL : L = quota_limit l)
  (Ewin : win = quota_window l).

(** An item of the quota reaches the ledger as a return of its counter. *)
Lemma item_return it :
  item_ok rid it → ∃ ret, lease_return_of hub it = Some ret ∧ ret_key ret = b ∧
    Ref_ParentKey (ret_Ref ret) FixedWindow ≠ b ∧ ∀ w, ret_stuff b w ret = item_stuff w it.
Proof using Hinv Hq Eb.
  intros [H1 H2 H3 H4 H5 H6]. unfold Hub.lease_return_of.
  pose proof (wi_region _ _ _ _ _ Hinv) as Hr. wcbn.
  rewrite H1, H2, H3, H4, H5, H6, Hr, (qo_resolve _ Hq). eexists. split; [done|].
  split; [by rewrite Eb|]. split; [rewrite Eb; apply (qo_budget _ Hq)|].
  intros w. unfold ret_stuff, item_stuff, ret_key. cbn. rewrite Eb. unfold quota_base.
  by rewrite String.eqb_refl.
Qed.

(** The returns of a message: those of the quota are its items. *)
Lemma msg_returns msg :
  msg_ok b hub msg →
  let rs := omap (lease_return_of hub) (rl_Returns (ms_req msg)) in
  Forall (λ r, Ref_ParentKey (ret_Ref r) FixedWindow ≠ b) rs ∧
  ∀ w, sumZ (ret_stuff b w) rs = sumZ (item_stuff w) (ms_items msg).
Proof using Hinv Hq Eb.
  intros (Hit & _ & others & Hp & Ho) rs. split.
  - apply Forall_forall. intros r (x & Hx & Hr)%list_elem_of_omap. rewrite Hp in Hx.
    apply elem_of_app in Hx as [Hx|Hx].
    + destruct (item_return x) as (ret & E & _ & ? & _); [by eapply Forall_forall in Hit|]. congruence.
    + by apply (proj1 (Forall_forall _ _) Ho x Hx).
  - intros w. unfold rs. rewrite sumZ_omap, (sumZ_perm _ _ _ Hp), sumZ_app.
    assert (sumZ (λ x, match lease_return_of hub x with Some y => ret_stuff b w y | None => 0 end) others = 0) as ->.
    { transitivity (sumZ (λ _ : LeaseReturn, 0) others); [|clear; unfold sumZ; induction others; cbn; lia].
      apply sumZ_ext. intros x Hx. destruct (lease_return_of hub x) as [ret|] eqn:E; [|done].
      unfold ret_stuff, ret_key. destruct (proj1 (Forall_forall _ _) Ho x Hx ret E) as [Hne _].
      by rewrite (proj2 (String.eqb_neq _ _) Hne). }
    rewrite Z.add_0_r. apply sumZ_ext. intros x Hx.
    destruct (item_return x) as (ret & -> & _ & _ & Es); [by eapply Forall_forall in Hit|]. apply Es.
Qed.

Lemma lwinv_deliver msg :
  msg ∈ msgs → debt_fits sha64 sha8 validKey cfg store b L hub now (ms_cn msg) (ms_req msg) →
  lwinv b L win (N + 1)
    (mkWorld now (snd (Hub.ReturnLeases sha64 sha8 validKey cfg store hub now (ms_cn msg) (ms_req msg)))
       cs rps pool msgs opn log).
Proof using All.
  intros Hin Hdf. pose proof (wi_msgs _ _ _ _ _ Hinv) as Hms. wcbn.
  pose proof (proj1 (Forall_forall _ _) Hms _ Hin) as Hok. destruct (msg_returns msg Hok) as [Hpar Hsum].
  destruct Hok as (_ & Hd & _). unfold Hub.ReturnLeases. set (rs := omap _ _) in *.
  set (dedupe := return_dedupe (ms_cn msg) (ms_req msg)).
  assert (Hdd : dedupe ≠ "").
  { unfold dedupe, return_dedupe. rewrite (proj2 (String.eqb_neq _ _) Hd). intros E.
    apply (f_equal chars) in E. rewrite !chars_app in E. by destruct (chars (edgeIdentity _ _)). }
  pose proof (Mem_Return_moves b L now dedupe rs (qs_ledger hub)) as Hmv.
  pose proof (Mem_Return_deduped (qs_ledger hub) now dedupe rs) as Hmono.
  pose proof (step_edges range N (qs_ledger hub) (OpReturn now dedupe rs) (wi_edges _ _ _ _ _ Hinv)) as Hed.
  cbn [step] in Hed. assert (Hcr : ∀ w, returned_items credit b w (qs_ledger hub) now dedupe rs ≤
    msg_stuff b w (qs_ledger hub) msg - msg_stuff b w (snd (Mem_Return (qs_ledger hub) now dedupe rs)) msg).
  { intros w. pose proof (returned_items_once b w (qs_ledger hub) now dedupe rs Hdd is_base_ne Hpar) as H1.
    pose proof (returned_items_mark b w (qs_ledger hub) now dedupe rs Hdd is_base_ne Hpar) as H2.
    unfold msg_stuff, msg_mark. fold dedupe. rewrite Hsum in H1.
    repeat case_bool_decide; try lia; [set_solver|specialize (H2 ltac:(done)); lia]. }
  destruct (Mem_Return (qs_ledger hub) now dedupe rs) as [e m'] eqn:Em. cbn [snd] in *.
  refine (lwinv_ledger m' rps _ _ _ Hmv Hmono Hed _ Hdf (wi_replies _ _ _ _ _ Hinv) _).
  - intros w. apply returned_items_nonneg.
  - intros w. cbv beta. specialize (Hcr w).
    apply elem_of_Permutation in Hin as [rest Hperm]. rewrite !(sumZ_perm _ _ _ Hperm), !sumZ_cons.
    assert (sumZ (msg_stuff b w m') rest ≤ sumZ (msg_stuff b w (qs_ledger hub)) rest)
      by (apply sumZ_le; intros; by apply msg_stuff_mono). lia.
Qed.

(** A lease request of the quota: refused, or one grant of its counter. *)
Lemma serve_cases cn size edge rate r hub' :
  Hub.RequestQuotaLease range sha64 sha8 validKey cfg store hub now cn
    (quota_request rid size edge rate) = (r, hub') →
  (hub' = hub ∧ ∃ e, r = Err e) ∨
  ∃ args rr,
    let o := OpGrant now (bi_Ref (le_item l)) (bi_Spec (le_item l)) args in
    op_ok b L o ∧ call_ok now (bi_Ref (le_item l)) (bi_Spec (le_item l)) args ∧
    fst (step range (qs_ledger hub) o) = OGrant rr ∧
    hub' = set_ledger hub (snd (step range (qs_ledger hub) o)) ∧
    match rr with
    | Ok g => ∃ l', r = Ok (grantResponse l' g)
    | Err _ => ∃ e, r = Err e
    end.
Proof using Hinv Hq Eb EL.
  pose proof (wi_region _ _ _ _ _ Hinv) as Hr. pose proof (wi_clock _ _ _ _ _ Hinv) as Hc. wcbn.
  unfold Hub.RequestQuotaLease, Hub.resolveLease. cbn [quota_request ql_Prefix ql_ServiceId ql_ApiKey
    ql_LimitId ql_TierId ql_Org ql_RequestedTokens ql_EdgeId ql_ObservedRate].
  destruct (QuotaLeaseRequest_Validate _); [intros [= <- <-]; left; eauto|].
  rewrite Hr, (qo_resolve _ Hq). cbn [le_item bi_Ref bi_Spec bi_Args]. set (args := mkGrantArgs _ _ _ _ _ _ _ _ _).
  intros H. right. exists args, (fst (Mem_Grant range (qs_ledger hub) now (bi_Ref (le_item l)) (bi_Spec (le_item l)) args)).
  assert (Hok : call_ok now (bi_Ref (le_item l)) (bi_Spec (le_item l)) args).
  { split_and!; try done; [apply (qo_window _ Hq)|apply (qo_limit _ Hq)|apply (qo_horizon _ Hq)..|].
    apply (qo_parent _ Hq). }
  cbv zeta. cbn [step]. destruct (Mem_Grant _ _ _ _ _ _) as [rr m'] eqn:Em. cbn [fst snd].
  split_and!; try done.
  - destruct Hok as (K1 & K2 & K3 & K4 & K5). split_and!; try done.
    + intros _. split; [apply (qo_regional _ Hq)|by rewrite EL].
    + intros q Hpa. destruct (K5 q Hpa). split_and!; [done..|]. intros E. destruct (qo_budget _ Hq).
      by rewrite E, Eb.
  - unfold set_ledger. rewrite Hr. destruct rr; injection H as _ <-; [|done]. unfold noteStarved.
    destruct region as [node|]; [|done]. cbn [le_item bi_Args]. unfold args at 1. cbn [ga_Regional].
    by rewrite (qo_regional _ Hq).
  - destruct rr; injection H as <- _; eauto.
Qed.

Lemma granted_to_quota g w args :
  granted_to b w (OpGrant now (bi_Ref (le_item l)) (bi_Spec (le_item l)) args) (OGrant (Ok g)) =
  if g_WindowID g =? w then g_Granted g else 0.
Proof using Hq Eb.
  unfold granted_to.
  assert (E1 : (Algo_Or (spec_Algo (bi_Spec (le_item l))) =? TokenBucket)%string = false)
    by (apply String.eqb_neq, (qo_algo _ Hq)).
  assert (E2 : (Ref_ParentKey (bi_Ref (le_item l)) FixedWindow =? b)%string = false)
    by (apply String.eqb_neq; rewrite Eb; apply (qo_budget _ Hq)).
  assert (E3 : (Ref_Key (bi_Ref (le_item l)) (spec_Algo (bi_Spec (le_item l))) =? b)%string = true)
    by (apply String.eqb_eq; by rewrite Eb).
  rewrite E1, E2, E3, andb_false_r. cbn [negb andb].
  destruct (ga_Parent args); destruct (g_WindowID g =? w); lia.
Qed.

Lemma reply_ok_granted k off sent l' g args m' :
  let o := OpGrant now (bi_Ref (le_item l)) (bi_Spec (le_item l)) args in
  off_ok off → 0 ≤ sent ≤ now + off → call_ok now (bi_Ref (le_item l)) (bi_Spec (le_item l)) args →
  step range (qs_ledger hub) o = (OGrant (Ok g), m') → 0 ≤ g_Granted g →
  reply_ok win now off (mkReply k sent (grantResponse l' g)).
Proof using Hq Ewin.
  intros o Hoff Hs Hok Hst H0. cbn [o step] in Hst. destruct (Mem_Grant _ _ _ _ _ _) as [rr m1] eqn:Em.
  injection Hst as -> ->. pose proof Hok as (Hnow & Hw & _).
  destruct (grant_times _ _ _ _ _ _ _ _ Hok (proj2 (qo_algo _ Hq)) Em) as [Ewid Hexp].
  pose proof (window_left_pos now (bi_Spec (le_item l)) Hnow Hw) as Hl.
  pose proof (windowMs_pos (bi_Spec (le_item l)) Hw) as Hp.
  assert (Hsum : (sent + Milliseconds (g_ExpiresIn g))%i64 = sent + Milliseconds (g_ExpiresIn g)).
  { unfold i64_add. apply wrap64_small. unfold off_ok in Hoff. bounds. }
  assert (Hdiv : window_of now (bi_Spec (le_item l)) * windowMs (bi_Spec (le_item l)) ≤ now).
  { unfold window_of. rewrite Z.mul_comm. apply Z.mul_div_le. lia. }
  unfold window_left in Hexp. rewrite Ewin.
  split; cbn [rp_sent rp_resp grantResponse qr_GrantedTokens qr_ExpiresInMs qr_WindowId]; try done; [lia|].
  rewrite Ewid. unfold quota_window. lia.
Qed.

Lemma lwinv_weaken N' : N ≤ N' → lwinv b L win N' (mkWorld now hub cs rps pool msgs opn log).
Proof using Hinv.
  intros HN'. destruct Hinv as [He Hc Hreg Hcov Hopn Hcs Hrp Hop Hpo Hms Hlog]. split; try done.
  intros k. specialize (He k). lia.
Qed.

Lemma lwinv_serve k off c cn size edge rate sent r hub' :
  cs !! k = Some (mkWCounter off c) → 0 ≤ sent ≤ now + off →
  Hub.RequestQuotaLease range sha64 sha8 validKey cfg store hub now cn
    (quota_request rid size edge rate) = (r, hub') →
  lwinv b L win (N + 1)
    (mkWorld now hub' cs (match r with Ok resp => mkReply k sent resp :: rps | Err _ => rps end)
       pool msgs opn log).
Proof using All.
  intros Hk Hs Hr. apply serve_cases in Hr as [[-> [e ->]]|(args & rr & Hop & Hok & Hfst & -> & Hres)];
    [apply lwinv_weaken; lia|].
  set (o := OpGrant _ _ _ _) in *. pose proof (step_deduped range (qs_ledger hub) o) as Hdd.
  pose proof (step_moves range range_perm b L (qs_ledger hub) o Hb HL Hop steps_edges steps_holds) as Hmv.
  cbv zeta in Hmv. pose proof (step_edges range N (qs_ledger hub) o (wi_edges _ _ _ _ _ Hinv)) as Hed.
  assert (Hg0 : ∀ w, 0 ≤ granted_to b w o (fst (step range (qs_ledger hub) o))).
  { intros w. destruct (steps_holds w) as (u & Hu & Hu0).
    apply (step_grant range range_perm b L (qs_ledger hub)) with (u := u);
      try done; [apply steps_edges|apply steps_holds]. }
  pose proof (wi_replies _ _ _ _ _ Hinv) as Hrp. wcbn.
  refine (lwinv_ledger _ _ _ _ _ Hmv Hdd Hed _ _ _ _).
  - done.
  - intros w. pose proof (steps_counter w). cbn [returned_to o]. bounds.
  - destruct rr as [g|]; [|destruct Hres as [? ->]; exact Hrp]. destruct Hres as [l' ->].
    constructor; [|exact Hrp]. exists (mkWCounter off c). split; [done|].
    destruct (step range (qs_ledger hub) o) as [x m'] eqn:Est. cbn [fst] in Hfst. subst x.
    pose proof (wi_ctrs _ _ _ _ _ Hinv) as Hcs. wcbn. eapply Forall_lookup_1 in Hcs as [Hoff _ _]; [|done].
    eapply reply_ok_granted; try done. cbn [fst] in Hg0. specialize (Hg0 (g_WindowID g)).
    unfold o in Hg0. by rewrite granted_to_quota, Z.eqb_refl in Hg0.
  - intros w. specialize (Hg0 w). pose proof (msgs_mono _ w Hdd) as Hmm. cbn [returned_to o].
    destruct rr as [g|]; [|destruct Hres as [? ->]; lia]. destruct Hres as [l' ->]. rewrite sumZ_cons.
    rewrite Hfst in *. unfold o in *. rewrite granted_to_quota in *.
    unfold reply_stuff at 1. cbn [rp_resp grantResponse qr_WindowId qr_GrantedTokens].
    destruct (g_WindowID g =? w); lia.
Qed.
End steps.

Section reachable.
Context (range_perm : ∀ s, range s ≡ₚ map_to_list s) (l : lease) (Hq : quota_ok l).
#[local] Notation b := (quota_base l).
#[local] Notation L := (quota_limit l).
#[local] Notation win := (quota_window l).

Lemma quota_is_base : is_base b.
Proof using Hq. apply Ref_Key_base, (qo_algo _ Hq). Qed.

Lemma quota_limit_range : 0 ≤ L ≤ f64_max_int.
Proof using Hq. pose proof (qo_limit _ Hq). unfold quota_limit. lia. Qed.

Lemma lwinv_step N W W' :
  N ≤ 1099511627775 → lwinv b L win N W → wstep b L W W' → lwinv b L win (N + 1) W'.
Proof using range_perm Hq.
  intros HN Hinv Hst. pose proof quota_limit_range as HL. pose proof quota_is_base as Hb.
  assert (Hweak : ∀ W, lwinv b L win N W → lwinv b L win (N + 1) W).
  { intros [] H. apply (lwinv_weaken _ _ _ N); [done|lia]. }
  destruct Hst;
    try solve [apply Hweak; eauto using lwinv_tick, lwinv_new, lwinv_take, lwinv_miss, lwinv_install, lwinv_extend,
      lwinv_add, lwinv_lose, lwinv_refund, lwinv_settled, lwinv_meta, lwinv_swap, lwinv_send].
  - apply Hweak, (lwinv_settled _ _ _ _ _ _ (<[k := _]> cs)). by apply lwinv_charge.
  - by eapply lwinv_deliver.
  - by eapply lwinv_serve.
  - by apply lwinv_other.
Qed.

Lemma lwinv_start t0 : clock_ok t0 → lwinv b L win 0 (mkWorld t0 (mkServer NewMem region) [] [] [] [] [] []).
Proof using Hq.
  intros Ht. pose proof quota_limit_range as HL. split; cbn; try done.
  intros w. exists 0, 0. split; [by apply holds_empty|]. unfold stuff, admitted. cbn. bounds.
Qed.

Lemma lwinv_reach t0 n W :
  clock_ok t0 → Z.of_nat n ≤ 1099511627775 →
  wreach range sha64 sha8 validKey cfg store rid region b L t0 n W → lwinv b L win (Z.of_nat n) W.
Proof using range_perm Hq.
  intros Ht Hn Hr. induction Hr as [|n W W' _ IH Hst]; [by apply lwinv_start|].
  replace (Z.of_nat (S n)) with (Z.of_nat n + 1) by lia. eapply lwinv_step; [lia|apply IH; lia|done].
Qed.
End reachable.

End safety.

(** C1: no over-admission.  In any world the edges and the hub can reach, the
    cost that all edges together have admitted from one window of a quota, less
    refunds, is at most the quota's limit; and every charge was made inside the
    window its tokens belong to, by the hub's clock.  This holds whatever the
    interleaving of requests, renewals, expiries, window rolls, settlements and
    returns on the edges, with answers lost, returns delivered late or several
    times, other traffic on the ledger, and edge clocks that are off by any
    constant. *)
Theorem edges_never_over_admit (range : gmap string Z → list (string * Z)) (sha64 : string → Z)
  (sha8 : string → string) (validKey : string → bool) (cfg : GatewayConfig) (store : TierStore)
  (rid : Request) (region : option Node) (l : lease) (t0 : Z) (n : nat) (W : World) :
  (∀ s, range s ≡ₚ map_to_list s) →
  quota_ok sha64 sha8 validKey cfg store rid region l → clock_ok t0 → Z.of_nat n ≤ 1099511627775 →
  wreach range sha64 sha8 validKey cfg store rid region (quota_base l) (quota_limit l) t0 n W →
  ∀ w, 0 ≤ admitted w W ≤ quota_limit l ∧
    ∀ a, a ∈ w_log W → ad_win a = w → 0 < ad_cost a →
      w * quota_window l ≤ ad_time a < (w + 1) * quota_window l.
Proof.
  intros Hrange Hq Ht Hn Hr w.
  pose proof (lwinv_reach _ _ _ _ _ _ _ _ Hrange l Hq t0 n W Ht Hn Hr) as Hinv.
  pose proof (admitted_nonneg _ _ _ _ _ _ _ _ _ _ _ _ Hinv w) as H0.
  pose proof (stuff_le _ _ _ _ _ _ _ _ _ _ _ _ Hinv w) as Hs.
  pose proof (stuff_parts (quota_base l) W w) as (? & ? & ? & ?). split; [unfold stuff in Hs; lia|].
  intros a Ha <- Hc.
  by apply (proj1 (Forall_forall _ _) (wi_log _ _ _ _ _ _ _ _ _ _ _ _ Hinv) a Ha).
Qed.

(** ** An example run *)

Module Example_protocol.
Definition rid : Request := mkRequest "v1" "api" "" "key1" "free" "" 10 1 Minute "" 0 false 0.
Definition l : lease :=
  Hub.mkLease (mkBatchItem (mkRef "v1" "api" "" "key1" "") (mkSpec "" 10 Minute f64_zero)
             (mkGrantArgs 0 "" 0 f64_zero 0 0 None false 0)) 10.
Definition t0 : Z := 1700000000123.
Definition w0 : Z := 28333333. (* the window of [t0] *)
Definition off : Z := 5000.
Definition edge : Lease := NewLease (mkLeaseOptions 0 f64_zero 0 0 "edge1") "boot".

Definition hub0 : QuotaLeaseServer := mkServer NewMem None.
Definition asked : result herror QuotaLeaseResponse * QuotaLeaseServer :=
  Hub.RequestQuotaLease map_to_list (λ _, 0) (λ s, s) (λ _, true) Example_hub.cfg Example_hub.store
    hub0 t0 None (quota_request rid 4 "edge1" f64_zero).
Definition resp : QuotaLeaseResponse :=
  {| qr_GrantedTokens := 4; qr_LeaseTtlSeconds := 40; qr_RemainingGlobal := 6;
     qr_WaitingForCapacity := false; qr_RetryAfterMs := 0; qr_WindowId := w0; qr_ExpiresInMs := 39877;
     qr_ResetInMs := 39877; qr_ActiveEdges := 1; qr_ParentWindowId := 0; qr_Limit := 10 |}.

Definition c1 : leaseCounter := new_counter edge rid.
Definition c2 : leaseCounter := snd (install c1 0 w0 0).
Definition c3 : leaseCounter := add_tokens c2 1 (t0 + off + 39877)%i64 4.
Definition c4 : leaseCounter := snd (take c3 1 3 (t0 + off)).

Definition world (hub : QuotaLeaseServer) (c : leaseCounter) (rps : list reply) (opn : list opened)
  (log : list admission) : World :=
  mkWorld t0 hub [mkWCounter off c] rps [] [] opn log.
Definition W : World :=
  world asked.2 c4 [] [mkOpened 0 1 (h_win (c_get c3 1)) 3] [mkAdmission t0 (h_win (c_get c3 1)) 3].

Lemma l_ok : quota_ok (λ _, 0) (λ s, s) (λ _, true) Example_hub.cfg Example_hub.store rid None l.
Proof. split; try done; vm_compute; done. Qed.

Lemma asked_eq : asked = (Ok resp, asked.2).
Proof. vm_compute. reflexivity. Qed.

Notation reach :=
  (wreach map_to_list (λ _, 0) (λ s, s) (λ _, true) Example_hub.cfg Example_hub.store rid None
    (quota_base l) (quota_limit l) t0).

Lemma W_reach : reach 5 W.
Proof.
  assert (H1 : reach 1 (world hub0 c1 [] [] [])).
  { eapply WNext; [apply WStart|].
    apply (WNew _ _ _ _ _ _ _ _ _ t0 hub0 [] [] [] [] [] [] off edge rid); [unfold off_ok, off; lia|done]. }
  assert (H2 : reach 2 (world asked.2 c1 [mkReply 0 (t0 + off) resp] [] [])).
  { eapply WNext; [exact H1|].
    apply (WServe _ _ _ _ _ _ _ _ _ t0 hub0 [mkWCounter off c1] [] [] [] [] [] 0 off c1 None 4 "edge1" f64_zero
             (t0 + off) (Ok resp) asked.2); [reflexivity|unfold t0, off; lia|exact asked_eq]. }
  assert (H3 : reach 3 (world asked.2 c2 [mkReply 0 (t0 + off) resp] [] [])).
  { eapply WNext; [exact H2|].
    by apply (WInstall _ _ _ _ _ _ _ _ _ t0 asked.2 [mkWCounter off c1] _ [] [] [] [] 0 off c1 0 w0 0). }
  assert (H4 : reach 4 (world asked.2 c3 [] [] [])).
  { eapply WNext; [exact H3|].
    apply (WAdd _ _ _ _ _ _ _ _ _ t0 asked.2 [mkWCounter off c2] [mkReply 0 (t0 + off) resp] [] [] [] [] 0 off
             c2 1 0 (t0 + off) resp); [reflexivity|vm_compute; lia|reflexivity..]. }
  eapply WNext; [exact H4|].
  apply (WTake _ _ _ _ _ _ _ _ _ t0 asked.2 [mkWCounter off c3] [] [] [] [] [] 0 off c3 1 3 1 c4);
    [reflexivity|vm_compute; lia|lia|reflexivity|lia].
Qed.
End Example_protocol.

Lemma edges_never_over_admit_witness :
  admitted Example_protocol.w0 Example_protocol.W = 3 ∧
  0 ≤ admitted Example_protocol.w0 Example_protocol.W ≤ 10.
Proof.
  split; [reflexivity|].
  apply (edges_never_over_admit map_to_list (λ _, 0) (λ s, s) (λ _, true) Example_hub.cfg
    Example_hub.store Example_protocol.rid None Example_protocol.l Example_protocol.t0 5
    Example_protocol.W).
  - reflexivity.
  - exact Example_protocol.l_ok.
  - unfold clock_ok, Example_protocol.t0, f64_max_int. lia.
  - lia.
  - exact Example_protocol.W_reach.
Defined.
