(* ===== verification/LeaseSteps.v ===== *)
(** * The lease limiter's operations as protocol steps

    Each operation of an edge counter ([lease.go]) is a sequence of the atomic
    steps of the protocol, so that what holds of every interleaving of steps
    holds of the code. *)

From S2P Require Import Prelude Float64 Ledger LedgerFacts LedgerSafety LedgerProps Limiter Wire Region.
From S2P Require Import Config Decide Hub HubProps Lease LeaseProtocol LeaseSafety.

Local Open Scope Z_scope.

Lemma same_tokens_refl c : same_tokens c c.
Proof. split; [|done]. induction (c_held c); constructor; done. Qed.

Lemma same_tokens_helds c c' :
  c_held c' = c_held c → c_cur c' = c_cur c → c_req c' = c_req c → same_tokens c c'.
Proof. intros E ? ?. split; [|done]. rewrite E. apply same_tokens_refl. Qed.

#[export] Hint Resolve same_tokens_refl same_tokens_helds : gate.

Section steps.
Context (range : gmap string Z → list (string * Z)) (sha64 : string → Z) (sha8 : string → string)
  (validKey : string → bool) (cfg : GatewayConfig) (store : TierStore) (rid : Request).
Context (b : string) (L : Z).
#[local] Notation wsteps := (rtc (LeaseProtocol.wstep range sha64 sha8 validKey cfg store rid b L)).

Context (now : Z) (hub : QuotaLeaseServer) (rps : list reply) (pool : list LeaseReturn)
  (msgs : list message) (opn : list opened) (log : list admission).

(** A world that differs only in counter [k], now [c]. *)
#[local] Notation at_ cs k off c := (mkWorld now hub (<[k := mkWCounter off c]> cs) rps pool msgs opn log).

Lemma at_lookup (cs : list wcounter) (k : nat) off (c c' : leaseCounter) :
  cs !! k = Some (mkWCounter off c) → <[k := mkWCounter off c']> cs !! k = Some (mkWCounter off c').
Proof. intros H. apply list_lookup_insert_eq. by eapply lookup_lt_Some. Qed.

Lemma steps_meta cs k off c c' :
  cs !! k = Some (mkWCounter off c) → same_tokens c c' →
  wsteps (mkWorld now hub cs rps pool msgs opn log) (at_ cs k off c').
Proof. intros Hk Hs. eapply rtc_once. by eapply WMeta. Qed.

Lemma steps_install cs k off c old w pw :
  cs !! k = Some (mkWCounter off c) →
  wsteps (mkWorld now hub cs rps pool msgs opn log) (at_ cs k off (snd (install c old w pw))).
Proof. intros Hk. eapply rtc_once. by eapply WInstall. Qed.

Lemma install_cur c w pw : install c (c_cur c) w pw =
  (length (c_held c), c_push c (mkHeld w pw (Z.min (h_tokens (cur c)) 0) 0 0)).
Proof. unfold install. by rewrite bool_decide_eq_true_2. Qed.

(** A window roll. *)
Lemma reset_steps cs k off c req :
  cs !! k = Some (mkWCounter off c) →
  wsteps (mkWorld now hub cs rps pool msgs opn log) (at_ cs k off (reset c req (now + off))).
Proof.
  intros Hk. unfold reset. destruct (_ || _); [eapply steps_meta; eauto with gate|].
  set (c1 := c_set_times c 0 0 _). destruct (_ =? "token_bucket")%string; [by eapply steps_meta, same_tokens_helds|].
  etrans; [eapply (steps_meta cs k off c c1); [done|by apply same_tokens_helds]|].
  pose proof (at_lookup cs k off c c1 Hk) as Hk1.
  etrans; [eapply (steps_install _ k off c1 (c_cur c1) (h_win (cur c1)) (h_parentWin (cur c1))); done|].
  rewrite install_cur. cbn [snd]. rewrite list_insert_insert_eq.
  set (c2 := c_push _ _). pose proof (at_lookup cs k off c c2 Hk) as Hk2.
  etrans; [apply (steps_meta _ k off c2 (c_set_hubRemaining c2 0)); [exact Hk2|by apply same_tokens_helds]|].
  by rewrite list_insert_insert_eq.
Qed.

(** The window part of [accept]: the held the tokens go to. *)
Lemma accept_window_steps cs k off c req sent resp i c' :
  cs !! k = Some (mkWCounter off c) → (c_cur c < length (c_held c))%nat → 0 < qr_ExpiresInMs resp →
  accept_window c req sent resp = Some (i, c') →
  (i < length (c_held c'))%nat ∧ h_win (c_get c' i) = qr_WindowId resp ∧
  wsteps (mkWorld now hub cs rps pool msgs opn log) (at_ cs k off c').
Proof.
  intros Hk Hlen Hx. unfold accept_window. rewrite (proj2 (Z.ltb_lt 0 _) Hx). cbn [orb].
  destruct (Z.ltb_spec (qr_WindowId resp) (h_win (cur c))) as [|Hge]; [done|].
  destruct (Z.ltb_spec (h_win (cur c)) (qr_WindowId resp)) as [Hlt|].
  - rewrite install_cur. set (c1 := c_push _ _).
    assert (Hg : c_get c1 (length (c_held c)) =
                 mkHeld (qr_WindowId resp) (qr_ParentWindowId resp) (Z.min (h_tokens (cur c)) 0) 0 0).
    { unfold c_get, c1. cbn. by rewrite nth_lookup, lookup_app_r, Nat.sub_diag by done. }
    rewrite Hg. cbn [h_win]. rewrite Z.eqb_refl. cbn [negb]. intros [= <- <-].
    assert (Hl1 : (length (c_held c) < length (c_held c1))%nat) by (cbn; rewrite length_app; cbn; lia).
    pose proof (at_lookup cs k off c c1 Hk) as Hk1.
    assert (Hst : wsteps (mkWorld now hub cs rps pool msgs opn log) (at_ cs k off c1)).
    { pose proof (steps_install cs k off c (c_cur c) (qr_WindowId resp) (qr_ParentWindowId resp) Hk) as H.
      by rewrite install_cur in H. }
    destruct (0 <? qr_ResetInMs resp); (split_and!; [exact Hl1|exact (f_equal h_win Hg)|]); [|done].
    etrans; [exact Hst|]. etrans; [apply (steps_meta _ k off c1 (c_set_resetAt c1 (sent + qr_ResetInMs resp)%i64)); [exact Hk1|by apply same_tokens_helds]|].
    by rewrite list_insert_insert_eq.
  - assert (E : h_win (c_get c (c_cur c)) = qr_WindowId resp) by (fold (cur c); lia).
    rewrite E, Z.eqb_refl. cbn [negb]. intros [= <- <-].
    destruct (0 <? qr_ResetInMs resp); (split_and!; [exact Hlen|exact E|]);
      eapply steps_meta; eauto with gate.
Qed.

(** Applying the hub's answer to a counter ([accept]) is a sequence of
    protocol steps that uses the answer up: whatever the answer says, the
    counter afterwards is the one the steps reach, and nothing else in the
    system has changed. *)
Theorem accept_is_steps (opts : LeaseOptions) (cs : list wcounter) (k j : nat) (off : Z)
  (c : leaseCounter) (req : Request) (sent nowMs jitter : Z) (resp : QuotaLeaseResponse) :
  cs !! k = Some (mkWCounter off c) → (c_cur c < length (c_held c))%nat →
  rps !! j = Some (mkReply k sent resp) → 0 < qr_ExpiresInMs resp →
  wsteps (mkWorld now hub cs rps pool msgs opn log)
    (mkWorld now hub (<[k := mkWCounter off (snd (accept opts c req sent nowMs jitter resp))]> cs)
       (delete j rps) pool msgs opn log).
Proof.
  intros Hk Hlen Hj Hx. unfold accept.
  destruct (accept_window c req sent resp) as [[i c1]|] eqn:Ew.
  2: { cbn [snd]. rewrite (list_insert_id _ _ _ Hk). eapply rtc_once, WLose. }
  destruct (accept_window_steps cs k off c req sent resp i c1 Hk Hlen Hx Ew) as (Hi & Hw & Hst).
  set (c2 := c_set_hubRemaining c1 _). pose proof (at_lookup cs k off c c1 Hk) as Hk1.
  pose proof (at_lookup cs k off c c2 Hk) as Hk2.
  assert (Hst2 : wsteps (mkWorld now hub cs rps pool msgs opn log) (at_ cs k off c2)).
  { etrans; [exact Hst|].
    etrans; [apply (steps_meta _ k off c1 c2); [exact Hk1|by apply same_tokens_helds]|].
    by rewrite list_insert_insert_eq. }
  etrans; [exact Hst2|]. destruct (qr_WaitingForCapacity resp); cbn [snd].
  { set (c3 := c_set_retryAt c2 _).
    etrans; [apply (steps_meta _ k off c2 c3); [exact Hk2|by apply same_tokens_helds]|].
    rewrite list_insert_insert_eq. eapply rtc_once, WLose. }
  destruct (Z.leb_spec (qr_GrantedTokens resp) 0) as [|Hg]; cbn [snd]; [eapply rtc_once, WLose|].
  unfold accept_expiry. rewrite (proj2 (Z.ltb_lt 0 _) Hx). eapply rtc_once.
  pose proof (WAdd range sha64 sha8 validKey cfg store rid b L now hub (<[k := mkWCounter off c2]> cs)
    rps pool msgs opn log k off c2 i j sent resp Hk2 Hi Hj Hw Hg) as H.
  by rewrite list_insert_insert_eq in H.
Qed.

(** Settling a decision is a step: a refund to a held that is still current, an
    extra charge to the current one, or nothing. *)
Lemma adjust_steps cs k j off c i win cost delta maxDebt :
  cs !! k = Some (mkWCounter off c) → (c_cur c < length (c_held c))%nat →
  opn !! j = Some (mkOpened k i win cost) →
  - cost ≤ delta ≤ charge_max → delta ≠ 0 → 0 ≤ maxDebt ≤ charge_max →
  ∃ log', wsteps (mkWorld now hub cs rps pool msgs opn log)
    (mkWorld now hub (<[k := mkWCounter off (adjust c i delta maxDebt)]> cs) rps pool msgs
       (delete j opn) log').
Proof.
  intros Hk Hlen Hj Hd Hne Hm. unfold adjust. case_bool_decide as Ei.
  - subst i. destruct (Z.ltb_spec delta 0).
    + eexists. eapply rtc_once. eapply WRefund; [exact Hj|exact Hk|lia].
    + exists log. eapply rtc_once. by eapply WCharge; [exact Hk|exact Hlen|lia|lia].
  - destruct (Z.ltb_spec delta 0).
    + exists log. rewrite (list_insert_id _ _ _ Hk). eapply rtc_once, WSettled.
    + exists log. eapply rtc_once. by eapply WCharge; [exact Hk|exact Hlen|lia|lia].
Qed.

(** Swapping a balance out is a step. *)
Lemma swap_out_steps cs k off c :
  cs !! k = Some (mkWCounter off c) → (c_cur c < length (c_held c))%nat →
  let '(n, c') := swap_out c (now + off) in
  wsteps (mkWorld now hub cs rps pool msgs opn log)
    (mkWorld now hub (<[k := mkWCounter off c']> cs) rps
       (if n =? 0 then pool else lease_return c' (cur c') n :: pool) msgs opn log).
Proof.
  intros Hk Hlen. unfold swap_out. destruct (held_swap (cur c) (now + off)) as [n h] eqn:E.
  assert (Hcur : cur (c_put c (c_cur c) h) = h).
  { unfold cur, c_get. cbn. by rewrite nth_lookup, list_lookup_insert_eq. }
  rewrite Hcur. eapply rtc_once. by apply (WSwap _ _ _ _ _ _ _ _ _ _ _ _ _ _ _ _ _ _ off c (c_cur c) n h).
Qed.
End steps.

Lemma accept_is_steps_witness :
  ∃ c, rtc (LeaseProtocol.wstep map_to_list (λ _, 0) (λ s, s) (λ _, true) Example_hub.cfg Example_hub.store
         Example_protocol.rid "gate:{v1:api:key1}:tier:fixed_window" 10)
    (Example_protocol.world Example_protocol.asked.2 Example_protocol.c1
       [mkReply 0 (Example_protocol.t0 + 5000) Example_protocol.resp] [] [])
    (Example_protocol.world Example_protocol.asked.2 c [] [] []) ∧
  h_tokens (cur c) = 4.
Proof.
  eexists. split.
  - apply (accept_is_steps map_to_list (λ _, 0) (λ s, s) (λ _, true) Example_hub.cfg Example_hub.store
      Example_protocol.rid "gate:{v1:api:key1}:tier:fixed_window" 10 Example_protocol.t0
      Example_protocol.asked.2 [mkReply 0 (Example_protocol.t0 + 5000) Example_protocol.resp] [] [] [] []
      (l_opts Example_protocol.edge) [mkWCounter 5000 Example_protocol.c1] 0 0 5000 Example_protocol.c1
      Example_protocol.rid (Example_protocol.t0 + 5000) Example_protocol.t0 0 Example_protocol.resp).
    + reflexivity.
    + vm_compute. lia.
    + reflexivity.
    + reflexivity.
  - vm_compute. reflexivity.
Defined.
