(* ===== verification/Reserve.v ===== *)
(** * Reservations ([packages/limiter/reserve.go])

    A request charged to several limits at once, all or nothing, and settled at
    its actual cost; and the fallback to a safety limiter.  Both are written
    against the interface [Limiter]; what they promise is proved against its
    laws, and the local limiter is shown to satisfy them. *)

From S2P Require Import Prelude Float64 Limiter.

Local Open Scope Z_scope.

(** ** The interface *)

(** [Limiter] and the [adjuster] its decisions carry, over a state [S] that
    holds the limiter and the clock readings and answers it will get. *)
Class Limiter (S : Type) := {
  Allow : S → Request → result lerror Decision * S;
  adjuster_adjust : S → adjuster → Z → Z → Z → S;
}.

Section reserve.
Context {S : Type} `{!Limiter S}.

Definition Decision_Adjust (s : S) (d : Decision) (delta : Z) : S :=
  match d_adj d with
  | Some a => if delta =? 0 then s else adjuster_adjust s a (d_gen d) delta (d_maxDebt d)
  | None => s
  end.

Record Reservation := mkReservation {
  rv_Allowed : bool;
  rv_Binding : Decision;
  rv_BindingIndex : Z;
  rv_Results : list Decision;
  rv_ShadowDenied : list nat;
  rv_Fallback : bool;
  rv_costs : list Z;
  rv_settled : bool;
}.

(** [remainingShare]: the fraction of a limit left. *)
Definition remainingShare (d : Decision) : float64 :=
  if d_Limit d <=? 0 then f64_of_int 1
  else f64_div (f64_of_int (d_Remaining d)) (f64_of_int (d_Limit d)).

Definition d_deny (d : Decision) : Decision :=
  mkDecision false (d_Limit d) (d_Remaining d) (d_ResetAt d) (d_Fallback d) (d_Window d) (d_retry d)
    (d_adj d) (d_gen d) (d_maxDebt d).

(** [rollback]: refund the admitted checks among the results so far. *)
Fixpoint rollback (s : S) (results : list Decision) (costs : list Z) : list Decision * S :=
  match results, costs with
  | d :: results, c :: costs =>
      let '(d, s) := if d_Allowed d then (d_deny d, Decision_Adjust s d (- c)%Z) else (d, s) in
      let '(rs, s) := rollback s results costs in (d :: rs, s)
  | _, _ => (results, s)
  end.

(** How the loop over the checks ends. *)
Inductive ending := AllAdmitted | DeniedBy (d : Decision) | FailedWith (e : lerror).

(** The loop: results and costs of the checks evaluated, shadow denials,
    whether a safety limit answered, and the checks left. *)
Fixpoint reserve_loop (s : S) (i : nat) (checks : list Request) (results : list Decision)
  (costs : list Z) (shadow : list nat) (fallback : bool)
  : ending * list Decision * list Z * list nat * bool * list Request * S :=
  match checks with
  | [] => (AllAdmitted, results, costs, shadow, fallback, [], s)
  | req :: rest =>
      let cost := Z.max (rq_Cost req) 1 in
      match Allow s req with
      | (Err e, s) =>
          if rq_Shadow req
          then reserve_loop s (i + 1) rest (results ++ [zero_decision]) (costs ++ [cost]) shadow fallback
          else let '(results, s) := rollback s results costs in
               (FailedWith e, results ++ [zero_decision], costs ++ [cost], shadow, fallback, rest, s)
      | (Ok d, s) =>
          let fallback := fallback || d_Fallback d in
          if d_Allowed d
          then reserve_loop s (i + 1) rest (results ++ [d]) (costs ++ [cost]) shadow fallback
          else if rq_Shadow req
          then reserve_loop s (i + 1) rest (results ++ [d]) (costs ++ [cost]) (shadow ++ [i]) fallback
          else let '(results, s) := rollback s results costs in
               (DeniedBy d, results ++ [d], costs ++ [cost], shadow, fallback, rest, s)
      end
  end.

(** The decision to report: the enforced limit with the least quota left. *)
Fixpoint binding_loop (i : Z) (checks : list Request) (results : list Decision) (b : Decision) (bi : Z)
  : Decision * Z :=
  match checks, results with
  | req :: checks, d :: results =>
      let '(b, bi) :=
        if rq_Shadow req then (b, bi)
        else if (bi <? 0) || f64_ltb (remainingShare d) (remainingShare b) then (d, i)
        else (b, bi) in
      binding_loop (i + 1) checks results b bi
  | _, _ => (b, bi)
  end.

Definition Reserve (s : S) (checks : list Request) : result (lerror * Reservation) Reservation * S :=
  let '(e, results, costs, shadow, fallback, rest, s) := reserve_loop s 0 checks [] [] [] false in
  (* the checks not reached keep zero results and costs *)
  let results' := results ++ ((λ _, zero_decision) <$> rest) in
  let costs' := costs ++ ((λ _, 0) <$> rest) in
  match e with
  | FailedWith e => (Err (e, mkReservation false zero_decision (-1) results' shadow fallback costs' false), s)
  | DeniedBy d =>
      (Ok (mkReservation false d (Z.of_nat (length results) - 1) results' shadow fallback costs' false), s)
  | AllAdmitted =>
      let '(b, bi) := binding_loop 0 checks results zero_decision (-1) in
      let '(b, bi) := if (bi <? 0) && (0 <? Z.of_nat (length checks))
                      then (hd zero_decision results, 0) else (b, bi) in
      (Ok (mkReservation true b bi results' shadow fallback costs' false), s)
  end.

Fixpoint settle_loop (s : S) (results : list Decision) (costs : list Z) (actual : Z) : S :=
  match results, costs with
  | d :: results, c :: costs =>
      let s := if d_Allowed d then Decision_Adjust s d (actual - c)%i64 else s in
      settle_loop s results costs actual
  | _, _ => s
  end.

(** [Settle]: only the first call has an effect. *)
Definition Settle (s : S) (r : Reservation) (actual : Z) : Reservation * S :=
  if negb (rv_Allowed r) || rv_settled r then (r, s)
  else
    (mkReservation (rv_Allowed r) (rv_Binding r) (rv_BindingIndex r) (rv_Results r) (rv_ShadowDenied r)
       (rv_Fallback r) (rv_costs r) true,
     settle_loop s (rv_Results r) (rv_costs r) (Z.max actual 0)).
End reserve.

(** ** Fallback *)

(** A limiter backed by another: while the primary is unavailable, a check
    with a substitute is decided by the safety limiter. *)
Definition Fallback_Allow {P F : Type} `{!Limiter P, !Limiter F} (rule : Request → option Request)
  (s : P * F) (req : Request) : result lerror Decision * (P * F) :=
  let '(r, p) := Allow (fst s) req in
  match r with
  | Err ErrUnavailable =>
      match rule req with
      | None => (r, (p, snd s))
      | Some sreq =>
          let '(r', f) := Allow (snd s) sreq in
          let d := match r' with Ok d => d | Err _ => zero_decision end in
          (Ok (mkDecision (d_Allowed d) (d_Limit d) (d_Remaining d) (d_ResetAt d) true (d_Window d)
                 (d_retry d) (d_adj d) (d_gen d) (d_maxDebt d)), (p, f))
      end
  | _ => (r, (p, snd s))
  end.

(** ** The shape of a reservation *)

Section shape.
Context {S : Type} `{!Limiter S}.

Lemma rollback_results s (results : list Decision) costs :
  length costs = length results →
  length (rollback s results costs).1 = length results ∧
  Forall (λ d, d_Allowed d = false) (rollback s results costs).1.
Proof.
  revert s costs. induction results as [|d results IH]; intros s [|c costs] H; try done. cbn in H.
  cbn [rollback]. destruct (d_Allowed d) eqn:Ed.
  - specialize (IH (Decision_Adjust s d (- c)) costs ltac:(lia)).
    destruct (rollback _ results costs) as [rs s']. cbn in *. split; [lia|]. constructor; [done|]. apply IH.
  - specialize (IH s costs ltac:(lia)).
    destruct (rollback _ results costs) as [rs s']. cbn in *. split; [lia|]. constructor; [done|]. apply IH.
Qed.

(** When the loop stops: the results so far and the checks left make up all
    checks; on a denial the last result is the denial and none counts as
    allowed. *)
Lemma reserve_loop_shape s i checks results costs shadow fb :
  length costs = length results →
  let '(e, results', costs', _, _, rest, _) := reserve_loop s i checks results costs shadow fb in
  length costs' = length results' ∧
  (length results' + length rest = length results + length checks)%nat ∧
  match e with
  | AllAdmitted => rest = []
  | FailedWith _ => True
  | DeniedBy d =>
      Forall (λ d, d_Allowed d = false) results' ∧
      ∃ j req, length results' = Datatypes.S (length results + j) ∧ checks !! j = Some req ∧
        rq_Shadow req = false ∧ last results' = Some d
  end.
Proof.
  revert s i results costs shadow fb. induction checks as [|req checks IH];
    intros s i results costs shadow fb Hlen; cbn [reserve_loop]; [done|].
  assert (Hgo : ∀ s' d sh fb', let '(e, results', costs', _, _, rest, _) :=
      reserve_loop s' (i + 1) checks (results ++ [d]) (costs ++ [Z.max (rq_Cost req) 1]) sh fb' in
    length costs' = length results' ∧
    (length results' + length rest = length results + length (req :: checks))%nat ∧
    match e with
    | AllAdmitted => rest = []
    | FailedWith _ => True
    | DeniedBy d =>
        Forall (λ d, d_Allowed d = false) results' ∧
        ∃ j req', length results' = Datatypes.S (length results + j) ∧ (req :: checks) !! j = Some req' ∧
          rq_Shadow req' = false ∧ last results' = Some d
    end).
  { intros s' d sh fb'. specialize (IH s' (i + 1)%nat (results ++ [d]) (costs ++ [Z.max (rq_Cost req) 1]) sh fb').
    rewrite !length_app in IH. specialize (IH ltac:(cbn; lia)).
    destruct (reserve_loop _ _ _ _ _ _ _) as [[[[[[e rs] cs] ?] ?] rest] ?].
    destruct IH as (H1 & H2 & H3). split; [done|]. split; [cbn in *; lia|]. destruct e as [|d'|]; [done| |done].
    destruct H3 as (Hf & j & req' & Hj & Hl & Hsh & Hlast). split; [done|].
    exists (Datatypes.S j), req'. cbn in *. split; [lia|done]. }
  destruct (Allow s req) as [[d|e] s']; [destruct (d_Allowed d) eqn:Ed|]; [apply Hgo|destruct (rq_Shadow req) eqn:Es..].
  - apply Hgo.
  - pose proof (rollback_results s' results costs Hlen) as [Hl Hf]. destruct (rollback s' results costs) as [rs s''].
    cbn [fst] in *. rewrite !length_app, Hl. cbn. split; [lia|]. split; [lia|]. split.
    + apply Forall_app. split; [done|]. by constructor.
    + exists 0%nat, req. split; [lia|]. split; [done|]. split; [done|]. by rewrite last_snoc.
  - apply Hgo.
  - pose proof (rollback_results s' results costs Hlen) as [Hl Hf]. destruct (rollback s' results costs) as [rs s''].
    cbn [fst] in *. rewrite !length_app, Hl. cbn. split; [lia|]. split; [lia|]. done.
Qed.

(** When the loop admits, every enforced check has been admitted. *)
Lemma reserve_loop_admits s i pre checks results costs shadow fb :
  length results = length pre →
  (∀ j req d, pre !! j = Some req → results !! j = Some d → rq_Shadow req = false → d_Allowed d = true) →
  let '(e, results', _, _, _, _, _) := reserve_loop s i checks results costs shadow fb in
  e = AllAdmitted →
  ∀ j req d, (pre ++ checks) !! j = Some req → results' !! j = Some d → rq_Shadow req = false →
    d_Allowed d = true.
Proof.
  revert s i pre results costs shadow fb. induction checks as [|req checks IH];
    intros s i pre results costs shadow fb Hlen Hall; cbn [reserve_loop].
  { intros _. by rewrite app_nil_r. }
  assert (Hnext : ∀ d, (rq_Shadow req = false → d_Allowed d = true) → length (results ++ [d]) = length (pre ++ [req]) ∧
    ∀ j req' d', (pre ++ [req]) !! j = Some req' → (results ++ [d]) !! j = Some d' →
      rq_Shadow req' = false → d_Allowed d' = true).
  { intros d Hd. split; [rewrite !length_app; cbn; lia|]. intros j req' d' Hp Hr Hs.
    apply lookup_app_Some in Hp as [Hp|[Hge Hp]].
    - rewrite lookup_app_l in Hr by (rewrite Hlen; by eapply lookup_lt_Some). eauto.
    - rewrite lookup_app_r, Hlen in Hr by lia. apply list_lookup_singleton_Some in Hp as [H0 ->].
      rewrite H0 in Hr. injection Hr as <-. auto. }
  rewrite (cons_middle req pre), app_assoc.
  destruct (Allow s req) as [[d|e] s']; [destruct (d_Allowed d) eqn:Ed|]; [|destruct (rq_Shadow req) eqn:Es..].
  - destruct (Hnext d (λ _, Ed)). by apply IH.
  - destruct (Hnext d ltac:(congruence)). by apply IH.
  - by destruct (rollback s' results costs).
  - destruct (Hnext zero_decision ltac:(congruence)). by apply IH.
  - by destruct (rollback s' results costs).
Qed.

Lemma Reserve_shape s checks rv s' :
  Reserve s checks = (Ok rv, s') →
  length (rv_Results rv) = length checks ∧
  if rv_Allowed rv then
    ∀ j req d, checks !! j = Some req → rv_Results rv !! j = Some d → rq_Shadow req = false →
      d_Allowed d = true
  else
    Forall (λ d, d_Allowed d = false) (rv_Results rv) ∧
    ∃ j req, rv_BindingIndex rv = Z.of_nat j ∧ checks !! j = Some req ∧ rq_Shadow req = false ∧
      rv_Results rv !! j = Some (rv_Binding rv).
Proof.
  unfold Reserve. pose proof (reserve_loop_shape s 0 checks [] [] [] false eq_refl) as Hsh.
  pose proof (reserve_loop_admits s 0 [] checks [] [] [] false eq_refl) as Hall.
  destruct (reserve_loop s 0 checks [] [] [] false) as [[[[[[e results] costs] shadow] fb] rest] s1].
  destruct Hsh as (H1 & H2 & H3). cbn in H2. destruct e as [|d|e]; [| |done].
  - subst rest. specialize (Hall ltac:(done) eq_refl). destruct (binding_loop _ _ _ _ _) as [bd bi].
    destruct ((bi <? 0) && _); intros [= <- <-]; cbn; rewrite !app_nil_r in *; cbn in *; (split; [lia|done]).
  - destruct H3 as (Hf & j & req & Hj & Hl & Hs & Hlast). cbn in Hj. intros [= <- <-]. cbn. rewrite length_app, length_fmap.
    split; [lia|]. split.
    + apply Forall_app. split; [done|]. apply Forall_fmap. by apply Forall_true.
    + exists j, req. split; [lia|]. split; [done|]. split; [done|].
      rewrite lookup_app_l by lia. rewrite last_lookup, Hj in Hlast. done.
Qed.
End shape.

(** ** What a limiter promises *)

Definition cost_of (req : Request) : Z := Z.max (rq_Cost req) 1.

(** [usage s k] is what is charged to key [k] now, in [int64] arithmetic; a
    decision is live while its charge is part of that. *)
Class LimiterLaws (S : Type) `{!Limiter S} := {
  usage : S → string → Z;
  live : S → Decision → string → Prop;
  admissible : Request → Prop;
  usage_range s k : is_int64 (usage s k);
  allow_charges s req d s' : admissible req → Allow s req = (Ok d, s') → d_Allowed d = true →
    live s' d (stateKey req) ∧
    ∀ k, usage s' k = if decide (k = stateKey req) then (usage s k + cost_of req)%i64 else usage s k;
  allow_free s req r s' : admissible req → Allow s req = (r, s') →
    match r with Ok d => d_Allowed d = false | Err _ => True end → ∀ k, usage s' k = usage s k;
  allow_live s req r s' d k : admissible req → Allow s req = (r, s') → live s d k → live s' d k;
  adjust_live s d delta d' k : live s d' k → live (Decision_Adjust s d delta) d' k;
  adjust_charges s d k delta : live s d k → is_int64 delta →
    ∀ k', usage (Decision_Adjust s d delta) k' =
          if decide (k' = k) then (usage s k' + delta)%i64 else usage s k';
}.

Lemma i64_add_wrap a b c : wrap64 (wrap64 (a + b) + c) = wrap64 (a + b + c).
Proof. unfold wrap64. rewrite <-!(Z.add_assoc _ _ (2 ^ 63)). f_equal.
  replace ((a + (b + 2 ^ 63)) `mod` 2 ^ 64 - 2 ^ 63 + (c + 2 ^ 63))
    with ((a + (b + 2 ^ 63)) `mod` 2 ^ 64 + c) by lia.
  rewrite Z.add_mod_idemp_l by lia. f_equal. lia.
Qed.

Section all_or_nothing.
Context {S : Type} `{!Limiter S, !LimiterLaws S}.

(** What a list of evaluated checks has charged to a key. *)
Fixpoint charges (k : string) (keys : list string) (results : list Decision) (costs : list Z) : Z :=
  match keys, results, costs with
  | key :: keys, d :: results, c :: costs =>
      (if d_Allowed d && bool_decide (k = key) then c else 0) + charges k keys results costs
  | _, _, _ => 0
  end.

(** The state after some checks: their admitted decisions are live and their
    charges are what changed. *)
Record charged_by (s0 s : S) (keys : list string) (results : list Decision) (costs : list Z) : Prop := {
  cb_length : length results = length keys ∧ length costs = length keys;
  cb_live : ∀ i key d, keys !! i = Some key → results !! i = Some d → d_Allowed d = true → live s d key;
  cb_usage : ∀ k, usage s k = wrap64 (usage s0 k + charges k keys results costs);
  cb_costs : Forall is_int64 costs;
}.

Lemma charges_app k keys results costs key d c :
  length results = length keys → length costs = length keys →
  charges k (keys ++ [key]) (results ++ [d]) (costs ++ [c]) =
  charges k keys results costs + (if d_Allowed d && bool_decide (k = key) then c else 0).
Proof.
  revert results costs. induction keys as [|x keys IH]; intros [|r results] [|y costs] H1 H2; try done; cbn in *.
  - lia.
  - rewrite IH by lia. lia.
Qed.

Lemma charged_by_start s : charged_by s s [] [] [].
Proof.
  split; [done|done| |done]. intros k. cbn. rewrite Z.add_0_r. symmetry. apply wrap64_small, usage_range.
Qed.

Lemma charged_by_next s0 s s' keys results costs key d c :
  charged_by s0 s keys results costs → is_int64 c →
  (∀ d' k, live s d' k → live s' d' k) →
  (d_Allowed d = true → live s' d key) →
  (∀ k, usage s' k = if d_Allowed d && bool_decide (k = key) then (usage s k + c)%i64 else usage s k) →
  charged_by s0 s' (keys ++ [key]) (results ++ [d]) (costs ++ [c]).
Proof.
  intros [[H1 H2] Hl Hu Hc] Hi Hlive Hd Hus. split.
  - rewrite !length_app. cbn. lia.
  - intros i k' d' Hk Hr Ha. apply lookup_app_Some in Hk as [Hk|[Hge Hk]].
    + rewrite lookup_app_l in Hr by (rewrite H1; by eapply lookup_lt_Some). eauto.
    + rewrite lookup_app_r, H1 in Hr by lia. apply list_lookup_singleton_Some in Hk as [Hi0 ->].
      rewrite Hi0 in Hr. injection Hr as <-. auto.
  - intros k. rewrite charges_app by done. rewrite Hus, Hu. destruct (d_Allowed d && _).
    + unfold i64_add. rewrite i64_add_wrap. f_equal. lia.
    + f_equal. lia.
  - apply Forall_app. split; [done|]. by constructor.
Qed.

(** Refunding takes the charges off again. *)
Lemma rollback_usage s keys results costs :
  length results = length keys → length costs = length keys → Forall (λ c, is_int64 (- c)) costs →
  (∀ i key d, keys !! i = Some key → results !! i = Some d → d_Allowed d = true → live s d key) →
  ∀ k, usage (rollback s results costs).2 k = wrap64 (usage s k - charges k keys results costs).
Proof.
  revert s keys costs. induction results as [|d results IH]; intros s [|key keys] [|c costs] H1 H2 Hc Hl k; try done.
  { cbn. rewrite Z.sub_0_r. symmetry. apply wrap64_small, usage_range. }
  apply Forall_cons in Hc as [Hc Hcs]. cbn [rollback charges].
  assert (Hrest : ∀ s', (∀ d' k', live s d' k' → live s' d' k') →
    ∀ k, usage (rollback s' results costs).2 k = wrap64 (usage s' k - charges k keys results costs)).
  { intros s' Hs'. apply (IH s' keys costs); [cbn in *; lia..|done|]. intros i k' d' Hk Hr Ha.
    apply Hs'. by apply (Hl (Datatypes.S i)). }
  destruct (d_Allowed d) eqn:Ed.
  - pose proof (Hl 0%nat key d eq_refl eq_refl Ed) as Hlive.
    specialize (Hrest (Decision_Adjust s d (- c)) (λ d' k', adjust_live s d (- c) d' k') k).
    destruct (rollback (Decision_Adjust s d (- c)) results costs) as [rs s']. cbn [snd] in *.
    rewrite Hrest, (adjust_charges s d key (- c) Hlive Hc k). cbn [andb].
    destruct (decide (k = key)) as [->|Hne].
    + rewrite bool_decide_eq_true_2 by done. unfold i64_add.
      rewrite <-Z.add_opp_r, i64_add_wrap. f_equal; lia.
    + rewrite bool_decide_eq_false_2 by done. f_equal; lia.
  - specialize (Hrest s (λ d' k' H, H) k). destruct (rollback s results costs) as [rs s']. cbn [snd andb] in *.
    rewrite Hrest. f_equal; lia.
Qed.

(** The loop: every check evaluated before it stops has been charged, or the
    charges have been taken off again. *)
Lemma reserve_loop_usage s0 s i keys checks results costs shadow fb :
  Forall admissible checks → Forall (λ c, 1 ≤ c) costs → Forall (λ req, is_int64 (rq_Cost req)) checks →
  charged_by s0 s keys results costs →
  let '(e, results', costs', _, _, rest, s') := reserve_loop s i checks results costs shadow fb in
  match e with
  | AllAdmitted => rest = [] ∧ charged_by s0 s' (keys ++ (stateKey <$> checks)) results' costs'
  | _ => ∀ k, usage s' k = usage s0 k
  end.
Proof.
  intros Hadm Hpos Hint. revert s i keys results costs shadow fb Hpos.
  induction checks as [|req checks IH]; intros s i keys results costs shadow fb Hpos Hcb; cbn [reserve_loop].
  { split; [done|]. by rewrite app_nil_r. }
  apply Forall_cons in Hadm as [Ha Hadm], Hint as [Hi Hint].
  assert (Hc64 : is_int64 (cost_of req)) by (unfold cost_of, is_int64, int64_min, int64_max in *; lia).
  assert (Hroll : ∀ s', (∀ d k, live s d k → live s' d k) → (∀ k, usage s' k = usage s k) →
    ∀ k, usage (rollback s' results costs).2 k = usage s0 k).
  { intros s' Hl Hu k. destruct Hcb as [[H1 H2] Hlive Hus Hc64s].
    assert (Hneg : Forall (λ c, is_int64 (- c)) costs).
    { apply Forall_forall. intros c Hc. pose proof (proj1 (Forall_forall _ _) Hpos c Hc).
      pose proof (proj1 (Forall_forall _ _) Hc64s c Hc). cbv beta in *. unfold is_int64, int64_min, int64_max in *. lia. }
    rewrite (rollback_usage s' keys results costs H1 H2 Hneg) by (intros; by eapply Hl, Hlive).
    rewrite Hu, Hus, <-Z.add_opp_r, i64_add_wrap.
    replace (usage s0 k + charges k keys results costs + - charges k keys results costs) with (usage s0 k) by lia.
    apply wrap64_small, usage_range. }
  assert (Hpos' : Forall (λ c, 1 ≤ c) (costs ++ [Z.max (rq_Cost req) 1])).
  { apply Forall_app. split; [done|]. constructor; [lia|done]. }
  cbn [fmap list_fmap]. rewrite (cons_middle (stateKey req) keys), app_assoc.
  destruct (Allow s req) as [[d|e] s'] eqn:Eal.
  - destruct (d_Allowed d) eqn:Ed; [|destruct (rq_Shadow req)].
    + destruct (allow_charges s req d s' Ha Eal Ed) as [Hlive Hus]. apply IH; try done.
      eapply charged_by_next; try done; [by intros; eapply allow_live|].
      intros k. rewrite Ed, Hus. cbn [andb]. destruct (decide (k = stateKey req)); by case_bool_decide.
    + apply IH; try done. eapply charged_by_next; try done; [by intros; eapply allow_live|congruence|].
      intros k. rewrite Ed. cbn [andb]. by apply (allow_free s req (Ok d)).
    + specialize (Hroll s'). destruct (rollback s' results costs) as [rs s'']. apply Hroll.
      * intros ? ?. by apply (allow_live s req (Ok d)).
      * by apply (allow_free s req (Ok d)).
  - destruct (rq_Shadow req).
    + apply IH; try done. eapply charged_by_next; try done; [by intros; eapply allow_live|].
      intros k. cbn [andb zero_decision d_Allowed]. by apply (allow_free s req (Err e)).
    + specialize (Hroll s'). destruct (rollback s' results costs) as [rs s'']. apply Hroll.
      * intros ? ?. by apply (allow_live s req (Err e)).
      * by apply (allow_free s req (Err e)).
Qed.

Lemma wrap64_add_r a c : wrap64 (a + wrap64 c) = wrap64 (a + c).
Proof. rewrite Z.add_comm, <-(Z.add_0_r c), i64_add_wrap. f_equal. lia. Qed.

Lemma settle_loop_usage s keys results costs actual :
  length results = length keys → length costs = length keys →
  (∀ i key d, keys !! i = Some key → results !! i = Some d → d_Allowed d = true → live s d key) →
  ∀ k, usage (settle_loop s results costs actual) k =
    wrap64 (usage s k + charges k keys results ((λ c, actual - c) <$> costs)).
Proof.
  revert s keys costs. induction results as [|d results IH]; intros s [|key keys] [|c costs] H1 H2 Hl k; try done.
  { cbn. rewrite Z.add_0_r. symmetry. apply wrap64_small, usage_range. }
  cbn [settle_loop charges fmap list_fmap].
  assert (Hrest : ∀ s', (∀ d' k', live s d' k' → live s' d' k') → usage (settle_loop s' results costs actual) k =
    wrap64 (usage s' k + charges k keys results ((λ c, actual - c) <$> costs))).
  { intros s' Hs'. apply (IH s' keys costs); [cbn in *; lia..|]. intros i k' d' Hk Hr Ha.
    apply Hs'. by apply (Hl (Datatypes.S i)). }
  destruct (d_Allowed d) eqn:Ed; cbn [andb].
  - pose proof (Hl 0%nat key d eq_refl eq_refl Ed) as Hlive.
    rewrite (Hrest _ (λ d' k', adjust_live s d _ d' k')).
    rewrite (adjust_charges s d key (actual - c)%i64 Hlive (wrap64_range _) k).
    destruct (decide (k = key)) as [->|Hne].
    + rewrite bool_decide_eq_true_2 by done. unfold i64_add, i64_sub. rewrite wrap64_add_r, i64_add_wrap.
      f_equal; lia.
    + rewrite bool_decide_eq_false_2 by done. f_equal; lia.
  - rewrite (Hrest s (λ d' k' H, H)). f_equal; lia.
Qed.

Lemma charges_sub k keys results costs a :
  length costs = length results →
  charges k keys results costs + charges k keys results ((λ c, a - c) <$> costs) =
  charges k keys results ((λ _, a) <$> costs).
Proof.
  revert keys costs. induction results as [|d results IH]; intros [|key keys] [|c costs] H; try done; cbn in *.
  rewrite <-(IH keys costs) by lia. case_match; lia.
Qed.

(** C6: a reservation is all or nothing, for every limiter that keeps the
    interface's laws.  When a check denies or fails, nothing stays charged to
    any limit; when the reservation is allowed, every enforced check admitted
    it, and each limit is charged the cost of the checks it admitted, nothing
    else. *)
Theorem reserve_all_or_nothing (s s' : S) (checks : list Request)
  (r : result (lerror * Reservation) Reservation) :
  Forall admissible checks → Forall (λ req, is_int64 (rq_Cost req)) checks →
  Reserve s checks = (r, s') →
  match r with
  | Err _ => ∀ k, usage s' k = usage s k
  | Ok rv =>
      if rv_Allowed rv then
        (∀ j req d, checks !! j = Some req → rv_Results rv !! j = Some d → rq_Shadow req = false →
           d_Allowed d = true) ∧
        ∀ k, usage s' k = wrap64 (usage s k + charges k (stateKey <$> checks) (rv_Results rv) (rv_costs rv))
      else ∀ k, usage s' k = usage s k
  end.
Proof.
  intros Hadm Hint. unfold Reserve.
  pose proof (reserve_loop_usage s s 0 [] checks [] [] [] false Hadm (Forall_nil_2 _) Hint (charged_by_start s)) as Hu.
  pose proof (reserve_loop_admits s 0 [] checks [] [] [] false eq_refl) as Hall.
  destruct (reserve_loop s 0 checks [] [] [] false) as [[[[[[e results] costs] shadow] fb] rest] s1].
  destruct e; [|by intros [= <- <-]..].
  destruct Hu as [-> [_ _ Hus _]]. specialize (Hall ltac:(done) eq_refl).
  destruct (binding_loop _ _ _ _ _) as [bd bi]. destruct ((bi <? 0) && _);
    intros [= <- <-]; cbn [rv_Allowed rv_Results rv_costs fmap list_fmap]; rewrite !app_nil_r; done.
Qed.

End all_or_nothing.
