(* ===== verification/LocalProps.v ===== *)
(** * The local limiter

    The in-process fixed window ([local.go]) keeps the laws of the limiter
    interface, at any instant; and what it enforces. *)

From S2P Require Import Prelude Float64 Limiter Reserve.

Local Open Scope Z_scope.

(** ** The table of windows *)

Record local_wf (l : Local) : Prop := {
  lw_inj : ∀ k1 k2 i, tb_m l !! k1 = Some i → tb_m l !! k2 = Some i → k1 = k2;
  lw_range : ∀ k i, tb_m l !! k = Some i → (i < length (tb_objs l))%nat;
  lw_int : Forall (λ w, is_int64 (wd_consumed w)) (tb_objs l);
}.

Lemma local_wf_empty : local_wf (empty_table : Local).
Proof. split; cbn; [intros ???; by rewrite lookup_empty|intros ??; by rewrite lookup_empty|done]. Qed.

Lemma local_wf_set l i w : local_wf l → is_int64 (wd_consumed w) → local_wf (table_set l i w).
Proof.
  intros [H1 H2 H3] Hw. split; cbn; [done|intros k j; rewrite length_insert; apply H2|by apply Forall_insert].
Qed.

(** What [table_get] finds or makes. *)
Lemma table_get_spec (l : Local) key i l' :
  local_wf l → table_get l key (mkWindow 0 0 0) = (i, l') →
  local_wf l' ∧ tb_m l' !! key = Some i ∧
  (∃ w, tb_objs l' !! i = Some w ∧ (tb_m l !! key = None → w = mkWindow 0 0 0) ∧
        (∀ j, tb_m l !! key = Some j → tb_objs l !! j = Some w)) ∧
  (∀ k, k ≠ key → tb_m l' !! k = tb_m l !! k) ∧
  (∀ k j, tb_m l !! k = Some j → tb_m l' !! k = Some j ∧ tb_objs l' !! j = tb_objs l !! j).
Proof.
  intros Hwf. unfold table_get. destruct (tb_m l !! key) as [j|] eqn:E.
  - intros [= <- <-]. pose proof (lw_range _ Hwf _ _ E) as [w Hw]%lookup_lt_is_Some.
    split_and!; try done. exists w. split_and!; [done..|]. intros j' [= <-]. done.
  - intros [= <- <-]. cbn. destruct Hwf as [H1 H2 H3].
    assert (Hlt : ∀ k j, tb_m l !! k = Some j → (length (tb_objs l) ≠ j)%nat) by (intros k j Hk%H2; lia).
    split_and!.
    + split; cbn.
      * intros k1 k2 i [[? ?]|[? Ha]]%lookup_insert_Some [[? ?]|[? Hb]]%lookup_insert_Some; subst; try done;
          [by apply Hlt in Hb|by apply Hlt in Ha|by eapply H1].
      * intros k i [[? ?]|[? Ha%H2]]%lookup_insert_Some; rewrite length_app; cbn; lia.
      * apply Forall_app. split; [done|]. constructor; [|done]. cbn. unfold is_int64, int64_min, int64_max. lia.
    + by rewrite lookup_insert_eq.
    + exists (mkWindow 0 0 0). rewrite lookup_app_r, Nat.sub_diag by done. split_and!; done.
    + intros k Hk. by rewrite lookup_insert_ne.
    + intros k j Hk. rewrite lookup_insert_ne by (intros ->; congruence). split; [done|].
      by rewrite lookup_app_l by (by eapply H2).
Qed.

Section laws.
(** The window period of each key, the same in all requests for it. *)
Context (period : string → Z).

Definition local_at : Type := { s : Local * Z | local_wf (fst s) }.

Definition window_id (k : string) (now : Z) : Z := (now / Milliseconds (period k))%i64.

(** A window counts now: it has no period, or it is the current one. *)
Definition current (k : string) (now : Z) (w : window) : bool :=
  (Milliseconds (period k) <=? 0) || (wd_id w =? window_id k now).

Definition local_usage (s : Local * Z) (k : string) : Z :=
  match tb_m s.1 !! k with
  | Some i =>
      match tb_objs s.1 !! i with
      | Some w => if current k s.2 w then wd_consumed w else 0
      | None => 0
      end
  | None => 0
  end.

Definition local_live (s : Local * Z) (d : Decision) (k : string) : Prop :=
  ∃ i w, d_adj d = Some (AdjWindow i) ∧ tb_m s.1 !! k = Some i ∧ tb_objs s.1 !! i = Some w ∧
    wd_id w = d_gen d ∧ current k s.2 w = true.

(** One window deciding one request. *)
Lemma window_allow_spec w i req now d w' :
  rq_Window req = period (stateKey req) → is_int64 (wd_consumed w) → window_allow w i req now = (d, w') →
  let u := if current (stateKey req) now w then wd_consumed w else 0 in
  is_int64 (wd_consumed w') ∧ current (stateKey req) now w' = true ∧
  (current (stateKey req) now w = true → wd_id w' = wd_id w) ∧
  (d_Allowed d = true → d_adj d = Some (AdjWindow i) ∧ d_gen d = wd_id w' ∧
     wd_consumed w' = (u + cost_of req)%i64) ∧
  (d_Allowed d = false → wd_consumed w' = u).
Proof.
  intros Hp Hi. unfold window_allow, roll, current, window_id. rewrite Hp.
  fold (cost_of req). set (ms := Milliseconds (period (stateKey req))).
  assert (Hundo : ∀ x, is_int64 x → ((x + cost_of req)%i64 - cost_of req)%i64 = x).
  { intros x Hx. unfold i64_sub, i64_add. rewrite <-Z.add_opp_r, i64_add_wrap.
    replace (x + cost_of req + - cost_of req) with x by lia. by apply wrap64_small. }
  assert (H0 : is_int64 0) by (unfold is_int64, int64_min, int64_max; lia).
  destruct (Z.leb_spec ms 0); cbn [orb]; [|destruct (Z.eqb_spec (wd_id w) (now / ms)%i64) as [E|E]];
    cbn [wd_consumed wd_id]; destruct (rq_Limit req <? _); intros [= <- <-]; cbn;
    rewrite ?Hundo by done; rewrite ?Z.eqb_refl, ?(proj2 (Z.eqb_eq _ _) E);
    split_and!; try done; apply wrap64_range.
Qed.

Lemma Local_Allow_spec l req now d l' :
  local_wf l → rq_Window req = period (stateKey req) → Local_Allow l req now = (d, l') →
  local_wf l' ∧
  (d_Allowed d = true → local_live (l', now) d (stateKey req)) ∧
  (∀ k, local_usage (l', now) k =
     if d_Allowed d && bool_decide (k = stateKey req) then (local_usage (l, now) k + cost_of req)%i64
     else local_usage (l, now) k) ∧
  (∀ d' k, local_live (l, now) d' k → local_live (l', now) d' k).
Proof.
  intros Hwf Hp. unfold Local_Allow. destruct (table_get l (stateKey req) _) as [i l1] eqn:Eg.
  destruct (table_get_spec _ _ _ _ Hwf Eg) as (Hwf1 & Hi & (w & Hw & Hnew & Hold) & Hne & Hkeep).
  unfold table_obj. rewrite Hw. destruct (window_allow w i req now) as [d1 w'] eqn:Ew. intros [= <- <-].
  assert (Hwi : is_int64 (wd_consumed w)) by exact (Forall_lookup_1 _ _ _ _ (lw_int _ Hwf1) Hw).
  destruct (window_allow_spec _ _ _ _ _ _ Hp Hwi Ew) as (Hi' & Hc' & Hid & Hyes & Hno).
  assert (Hlt : (i < length (tb_objs l1))%nat) by (by eapply lookup_lt_Some).
  assert (Hu : local_usage (l, now) (stateKey req) = if current (stateKey req) now w then wd_consumed w else 0).
  { unfold local_usage. cbn. destruct (tb_m l !! stateKey req) as [j|] eqn:Ej.
    - by rewrite (Hold j eq_refl).
    - rewrite (Hnew eq_refl). by destruct (current _ _ (mkWindow 0 0 0)). }
  split_and!.
  - by apply local_wf_set.
  - intros Ha. destruct (Hyes Ha) as (Hadj & Hgen & _). exists i, w'. cbn.
    rewrite list_lookup_insert_eq by done. done.
  - intros k. destruct (decide (k = stateKey req)) as [->|Hk].
    + rewrite Hu, bool_decide_eq_true_2 by done. rewrite andb_true_r. unfold local_usage. cbn.
      rewrite Hi, list_lookup_insert_eq by done. rewrite Hc'.
      destruct (d_Allowed d1); [by apply Hyes|by apply Hno].
    + rewrite bool_decide_eq_false_2, andb_false_r by done. unfold local_usage. cbn. rewrite Hne by done.
      destruct (tb_m l !! k) as [j|] eqn:Ej; [|done].
      destruct (Hkeep k j Ej) as [Hk1 <-]. rewrite list_lookup_insert_ne; [done|].
      intros <-. by destruct Hk; eapply lw_inj.
  - intros d' k (j & w0 & Hadj & Hj & Hw0 & Hg & Hcur). cbn in *. destruct (Hkeep k j Hj) as [Hk1 Hsame].
    destruct (decide (j = i)) as [->|Hji].
    + assert (k = stateKey req) as -> by (by eapply lw_inj). rewrite (Hold i Hj) in Hw0. injection Hw0 as <-.
      exists i, w'. cbn. rewrite list_lookup_insert_eq by done. split_and!; try done. rewrite <-Hg. by apply Hid.
    + exists j, w0. cbn. rewrite list_lookup_insert_ne, Hsame by done. done.
Qed.
End laws.

Lemma Local_Allow_wf l req now : local_wf l → local_wf (Local_Allow l req now).2.
Proof.
  intros Hwf. destruct (Local_Allow l req now) as [d l'] eqn:E.
  by destruct (Local_Allow_spec (λ _, rq_Window req) l req now d l' Hwf eq_refl E).
Qed.

Lemma Local_adjust_wf l i gen delta : local_wf l → local_wf (Local_adjust l i gen delta).
Proof.
  intros Hwf. unfold Local_adjust, table_obj. destruct (tb_objs l !! i) as [w|] eqn:E; [|done].
  apply local_wf_set; [done|]. unfold window_adjust. case_match; cbn; [apply wrap64_range|].
  exact (Forall_lookup_1 _ _ _ _ (lw_int _ Hwf) E).
Qed.

(** ** The local limiter as a limiter, at one instant *)

#[export] Instance Local_Limiter : Limiter local_at := {
  Allow s req :=
    (Ok (Local_Allow (`s).1 req (`s).2).1,
     exist _ ((Local_Allow (`s).1 req (`s).2).2, (`s).2) (Local_Allow_wf _ req _ (proj2_sig s)));
  adjuster_adjust s a gen delta _ :=
    match a with
    | AdjWindow i => exist _ (Local_adjust (`s).1 i gen delta, (`s).2) (Local_adjust_wf _ i gen delta (proj2_sig s))
    | AdjHeld _ _ => s
    end;
}.

Section instance.
Context (period : string → Z).

Lemma local_usage_range (s : local_at) k : is_int64 (local_usage period (`s) k).
Proof.
  destruct s as [[l now] Hwf]. unfold local_usage. cbn in *.
  assert (H0 : is_int64 0) by (unfold is_int64, int64_min, int64_max; lia).
  destruct (tb_m l !! k) as [i|]; [|done]. destruct (tb_objs l !! i) as [w|] eqn:E; [|done].
  case_match; [|done]. exact (Forall_lookup_1 _ _ _ _ (lw_int _ Hwf) E).
Qed.

Lemma Local_adjust_live l now i gen delta d k :
  local_live period (l, now) d k → local_live period (Local_adjust l i gen delta, now) d k.
Proof.
  intros (j & w & Hadj & Hj & Hw & Hg & Hc). cbn in *. unfold Local_adjust, table_obj.
  destruct (tb_objs l !! i) as [w0|] eqn:E; [|by exists j, w]. destruct (decide (i = j)) as [->|Hne].
  - rewrite E in Hw. injection Hw as ->. exists j, (window_adjust w gen delta). cbn.
    rewrite list_lookup_insert_eq by (by eapply lookup_lt_Some).
    split_and!; try done; unfold window_adjust; by case_match.
  - exists j, w. cbn. by rewrite list_lookup_insert_ne.
Qed.

Lemma Local_adjust_usage l now d i delta k :
  local_wf l → local_live period (l, now) d k → d_adj d = Some (AdjWindow i) →
  ∀ k', local_usage period (Local_adjust l i (d_gen d) delta, now) k' =
        if decide (k' = k) then (local_usage period (l, now) k' + delta)%i64 else local_usage period (l, now) k'.
Proof.
  intros Hwf (j & w & Hadj & Hj & Hw & Hg & Hc) Hi k'. cbn in *. rewrite Hi in Hadj. injection Hadj as ->.
  unfold Local_adjust, table_obj. rewrite Hw.
  assert (Hwa : window_adjust w (d_gen d) delta = mkWindow (wd_id w) (wd_consumed w + delta)%i64 (wd_lastSeen w))
    by (unfold window_adjust; by rewrite (proj2 (Z.eqb_eq _ _) Hg)).
  rewrite Hwa. unfold local_usage. cbn. destruct (decide (k' = k)) as [->|Hne].
  - rewrite Hj, Hw, list_lookup_insert_eq by (by eapply lookup_lt_Some).
    unfold current in *. cbn [wd_id]. by rewrite Hc.
  - destruct (tb_m l !! k') as [i'|] eqn:E; [|done].
    rewrite list_lookup_insert_ne; [done|]. intros <-. by destruct Hne; eapply lw_inj.
Qed.

#[export] Program Instance Local_Laws : LimiterLaws local_at := {
  usage s k := local_usage period (`s) k;
  live s d k := local_live period (`s) d k;
  admissible req := rq_Window req = period (stateKey req);
}.
Next Obligation. apply local_usage_range. Qed.
Next Obligation.
  intros [[l now] Hwf] req d s' Ha [= <- <-] Hd. cbn [proj1_sig fst snd] in *.
  destruct (Local_Allow l req now) as [d' l'] eqn:E.
  destruct (Local_Allow_spec period l req now d' l' Hwf Ha E) as (_ & H1 & H2 & _). cbn [fst snd] in *.
  split; [by apply H1|]. intros k. rewrite H2, Hd. cbn [andb]. destruct (decide _); by case_bool_decide.
Qed.
Next Obligation.
  intros [[l now] Hwf] req r s' Ha [= <- <-] Hd k. cbn [proj1_sig fst snd] in *.
  destruct (Local_Allow l req now) as [d' l'] eqn:E.
  destruct (Local_Allow_spec period l req now d' l' Hwf Ha E) as (_ & _ & H2 & _). cbn [fst snd] in *.
  by rewrite H2, Hd.
Qed.
Next Obligation.
  intros [[l now] Hwf] req r s' d k Ha [= <- <-] Hl. cbn [proj1_sig fst snd] in *.
  destruct (Local_Allow l req now) as [d' l'] eqn:E.
  by apply (Local_Allow_spec period l req now d' l' Hwf Ha E).
Qed.
Next Obligation.
  intros [[l now] Hwf] d delta d' k Hl. unfold Decision_Adjust. destruct (d_adj d) as [[c h|i]|]; [|..];
    destruct (delta =? 0); try done. cbn. by apply Local_adjust_live.
Qed.
Next Obligation.
  intros [[l now] Hwf] d k delta Hl Hd k'. unfold Decision_Adjust.
  pose proof Hl as (i & w & Hadj & _). rewrite Hadj. destruct (Z.eqb_spec delta 0) as [->|].
  - case_match; [|done]. unfold i64_add. rewrite Z.add_0_r. symmetry. apply wrap64_small.
    apply (local_usage_range (exist _ (l, now) Hwf)).
  - cbn. by apply Local_adjust_usage.
Qed.
End instance.

(** ** What it enforces *)

Fixpoint local_run (l : Local) (calls : list (Z * Request)) : list Decision * Local :=
  match calls with
  | [] => ([], l)
  | (now, req) :: calls =>
      let '(d, l) := Local_Allow l req now in
      let '(ds, l) := local_run l calls in (d :: ds, l)
  end.

(** The cost admitted for a key by the calls of one window. *)
Fixpoint local_admitted (period : string → Z) (k : string) (w : Z) (calls : list (Z * Request))
  (ds : list Decision) : Z :=
  match calls, ds with
  | (now, req) :: calls, d :: ds =>
      (if d_Allowed d && bool_decide (stateKey req = k) && (window_id period k now =? w)
       then cost_of req else 0) + local_admitted period k w calls ds
  | _, _ => 0
  end.

(** Calls for the keys' own periods, with costs and limits well inside
    [int64]. *)
Definition local_call_ok (period : string → Z) (limit : string → Z) (c : Z * Request) : Prop :=
  rq_Window c.2 = period (stateKey c.2) ∧ rq_Limit c.2 = limit (stateKey c.2) ∧
  cost_of c.2 ≤ 2 ^ 61 ∧ 0 ≤ limit (stateKey c.2) ≤ 2 ^ 61.

(** The window object of a key. *)
Definition local_obj (l : Local) (k : string) : option window := tb_m l !! k ≫= λ i, tb_objs l !! i.

Lemma Local_Allow_obj l req now d l' :
  local_wf l → Local_Allow l req now = (d, l') →
  (∃ i w', window_allow (default (mkWindow 0 0 0) (local_obj l (stateKey req))) i req now = (d, w') ∧
     local_obj l' (stateKey req) = Some w') ∧
  ∀ k, k ≠ stateKey req → local_obj l' k = local_obj l k.
Proof.
  intros Hwf. unfold Local_Allow. destruct (table_get l (stateKey req) _) as [i l1] eqn:Eg.
  destruct (table_get_spec _ _ _ _ Hwf Eg) as (Hwf1 & Hi & (w & Hw & Hnew & Hold) & Hne & Hkeep).
  unfold table_obj. rewrite Hw. destruct (window_allow w i req now) as [d1 w'] eqn:Ew. intros [= <- <-].
  assert (Hd : default (mkWindow 0 0 0) (local_obj l (stateKey req)) = w).
  { unfold local_obj. destruct (tb_m l !! stateKey req) as [j|] eqn:Ej; cbn.
    - by rewrite (Hold j eq_refl).
    - by rewrite (Hnew eq_refl). }
  split.
  - exists i, w'. rewrite Hd. split; [done|]. unfold local_obj. cbn. rewrite Hi. cbn.
    by rewrite list_lookup_insert_eq by (by eapply lookup_lt_Some).
  - intros k Hk. unfold local_obj. cbn. rewrite Hne by done.
    destruct (tb_m l !! k) as [j|] eqn:Ej; [|done]. cbn.
    destruct (Hkeep k j Ej) as [Hk1 <-]. rewrite list_lookup_insert_ne; [done|].
    intros <-. by destruct Hk; eapply lw_inj.
Qed.

Section enforcement.
Context (period : string → Z) (limit : string → Z) (k : string) (w : Z).
Context (Hperiod : 0 < Milliseconds (period k)).

Definition wid (now : Z) : Z := window_id period k now.

(** What an object has counted towards window [w], and whether it is past it. *)
Definition counted (o : option window) : Z :=
  match o with Some x => if wd_id x =? w then wd_consumed x else 0 | None => 0 end.
Definition past (o : option window) : bool := match o with Some x => w <? wd_id x | None => false end.

Definition obj_ok (latest : Z) (o : option window) : Prop :=
  ∀ x, o = Some x → 0 ≤ wd_consumed x ≤ limit k ∧ wd_id x ≤ wid latest.

(** One window deciding one request, without overflow. *)
Lemma window_allow_admits x i now req d x' :
  local_call_ok period limit (now, req) → stateKey req = k → 0 ≤ wd_consumed x ≤ limit k →
  window_allow x i req now = (d, x') →
  let u := if wd_id x =? wid now then wd_consumed x else 0 in
  wd_id x' = wid now ∧ 0 ≤ wd_consumed x' ≤ limit k ∧
  wd_consumed x' = u + (if d_Allowed d then cost_of req else 0).
Proof using Hperiod.
  intros (Hp & Hl & Hc & Hb) Ek Hx. cbn in Hp, Hl, Hc, Hb. rewrite Ek in *.
  assert (Hc1 : 1 ≤ cost_of req) by (unfold cost_of; lia).
  unfold window_allow, roll, wid, window_id. rewrite Hp, Hl, (proj2 (Z.leb_gt _ _) Hperiod).
  fold (cost_of req). set (id := (now / Milliseconds (period k))%i64).
  assert (Hdec : ∀ u, 0 ≤ u ≤ limit k →
    wrap64 (u + cost_of req) = u + cost_of req ∧ wrap64 (u + cost_of req - cost_of req) = u).
  { intros u Hu. split; rewrite wrap64_small; unfold is_int64, int64_min, int64_max; lia. }
  destruct (Z.eqb_spec (wd_id x) id) as [E|E]; cbn [wd_consumed wd_id]; unfold i64_add, i64_sub.
  - destruct (Hdec (wd_consumed x) Hx) as [-> ->].
    destruct (Z.ltb_spec (limit k) (wd_consumed x + cost_of req)); intros [= <- <-]; cbn; split_and!; lia.
  - destruct (Hdec 0 ltac:(lia)) as [-> ->].
    destruct (Z.ltb_spec (limit k) (0 + cost_of req)); intros [= <- <-]; cbn [wd_id wd_consumed d_Allowed];
      split_and!; lia.
Qed.

(** Clock readings in order. *)
Fixpoint in_order (t : Z) (calls : list (Z * Request)) : Prop :=
  match calls with
  | [] => True
  | (now, _) :: calls => 0 ≤ t ≤ now ∧ now ≤ int64_max ∧ in_order now calls
  end.

Lemma wid_mono a b : 0 ≤ a ≤ b → b ≤ int64_max → wid a ≤ wid b.
Proof using Hperiod.
  intros Hab Hb. unfold wid, window_id, i64_div. rewrite !quot_div_pos by lia.
  pose proof (Z.div_pos a (Milliseconds (period k)) ltac:(lia) Hperiod).
  pose proof (Z.div_le_mono a b (Milliseconds (period k)) Hperiod ltac:(lia)).
  pose proof (Z.div_le_upper_bound b (Milliseconds (period k)) b Hperiod ltac:(nia)).
  rewrite !wrap64_small by (unfold is_int64, int64_min, int64_max in *; lia). done.
Qed.

Lemma local_run_admitted calls : ∀ l t,
  local_wf l → 0 ≤ limit k → Forall (local_call_ok period limit) calls → in_order t calls →
  obj_ok t (local_obj l k) →
  local_admitted period k w calls (local_run l calls).1 ≤
  if past (local_obj l k) then 0 else limit k - counted (local_obj l k).
Proof using Hperiod.
  induction calls as [|[now req] calls IH]; intros l t Hwf Hlim Hok Hord Ho; cbn [local_run local_admitted].
  { unfold past, counted. cbn. destruct (local_obj l k) as [x|] eqn:E; [|lia].
    destruct (Ho x eq_refl). repeat case_match; lia. }
  apply Forall_cons in Hok as [Hok1 Hok]. destruct Hord as (Ht & Hn & Hord).
  destruct (Local_Allow l req now) as [d l'] eqn:Ea.
  pose proof (Local_Allow_wf l req now Hwf) as Hwf'. rewrite Ea in Hwf'. cbn in Hwf'.
  destruct (Local_Allow_obj _ _ _ _ _ Hwf Ea) as [(i & x' & Hx & Hobj) Hother].
  pose proof (wid_mono t now ltac:(lia) Hn) as Hmono.
  specialize (IH l' now Hwf' Hlim Hok Hord). destruct (local_run l' calls) as [ds l2]. cbn [fst local_admitted] in *.
  destruct (decide (stateKey req = k)) as [Ek|Hne].
  - rewrite bool_decide_eq_true_2, andb_true_r by done. rewrite Ek in *.
    set (x := default (mkWindow 0 0 0) (local_obj l k)) in *.
    assert (Hx0 : 0 ≤ wd_consumed x ≤ limit k).
    { unfold x. destruct (local_obj l k) as [y|] eqn:E; cbn; [by apply Ho|lia]. }
    destruct (window_allow_admits _ _ _ _ _ _ Hok1 Ek Hx0 Hx) as (Hid & Hb & Hc). rewrite Hobj in IH.
    specialize (IH ltac:(intros ? [= <-]; lia)). cbn [past counted] in IH. rewrite Hid in IH. fold (wid now).
    assert (Hcx : local_obj l k = Some x ∨ local_obj l k = None ∧ x = mkWindow 0 0 0).
    { unfold x. destruct (local_obj l k); auto. }
    assert (Hc1 : 1 ≤ cost_of req) by (unfold cost_of; lia).
    destruct Hcx as [E|[E Ex]]; rewrite E; cbn [past counted].
    + destruct (Ho x E) as [_ Hxid]. destruct (Z.ltb_spec w (wd_id x)).
      * rewrite (proj2 (Z.eqb_neq (wid now) w)) by lia. rewrite andb_false_r.
        rewrite (proj2 (Z.ltb_lt w (wid now))) in IH by lia. lia.
      * destruct (Z.eqb_spec (wd_id x) w), (Z.eqb_spec (wid now) w), (Z.ltb_spec w (wid now)),
          (Z.eqb_spec (wd_id x) (wid now)), (d_Allowed d); cbn [andb] in *; lia.
    + rewrite Ex in Hc. cbn [wd_id wd_consumed] in Hc.
      destruct (Z.eqb_spec (wid now) w), (Z.ltb_spec w (wid now)), (0 =? wid now), (d_Allowed d);
        cbn [andb] in *; lia.
  - rewrite bool_decide_eq_false_2, andb_false_r by done. cbn [andb].
    rewrite (Hother k ltac:(done)) in IH. apply IH. intros y Hy. destruct (Ho y Hy). lia.
Qed.
End enforcement.


Module Example_local.
Definition req (cost : Z) : Request := mkRequest "v1" "api" "" "key1" "" "" 3 cost Minute "" 0 false 0.
Definition calls : list (Z * Request) := [(1000, req 2); (2000, req 2); (3000, req 1); (61000, req 3)].
End Example_local.


(** the limit is lost when a cost overflows the counter.  Whatever the
    limit, once a window has admitted anything, a request whose cost is the
    largest [int64] (a client's estimate header can say so) is admitted, and
    leaves the counter below zero. *)
Theorem local_cost_overflow (w : window) (i : nat) (req : Request) (now : Z) :
  Milliseconds (rq_Window req) ≤ 0 ∨ wd_id w = (now / Milliseconds (rq_Window req))%i64 →
  1 ≤ wd_consumed w ≤ rq_Limit req → is_int64 (rq_Limit req) → rq_Cost req = int64_max →
  let '(d, w') := window_allow w i req now in d_Allowed d = true ∧ wd_consumed w' < 0.
Proof.
  intros Hcur Hc Hl Hcost. unfold window_allow, roll. rewrite Hcost, Z.max_l by (unfold int64_max; lia).
  assert (Hw : (wd_consumed w + int64_max)%i64 = wd_consumed w + int64_max - 2 ^ 64).
  { unfold i64_add, wrap64, is_int64, int64_max in *.
    rewrite <-(Z.mod_unique (wd_consumed w + 9223372036854775807 + 2 ^ 63) (2 ^ 64) 1
      (wd_consumed w + 9223372036854775807 + 2 ^ 63 - 2 ^ 64)); lia. }
  destruct (Z.leb_spec (Milliseconds (rq_Window req)) 0) as [|Hpos];
    [|destruct Hcur as [?| ->]; [lia|rewrite Z.eqb_refl]]; cbn [wd_consumed]; rewrite Hw;
    (rewrite (proj2 (Z.ltb_ge _ _)) by (unfold is_int64, int64_max in *; lia)); cbn;
    unfold is_int64, int64_max in *; lia.
Qed.

Lemma local_cost_overflow_witness :
  let w := mkWindow 0 1 0 in
  let req := mkRequest "v1" "api" "llm" "key1" "" "" 10 int64_max Minute "" 0 false 0 in
  let '(d, w') := window_allow w 0 req 1000 in d_Allowed d = true ∧ wd_consumed w' < 0.
Proof.
  apply (local_cost_overflow (mkWindow 0 1 0) 0
    (mkRequest "v1" "api" "llm" "key1" "" "" 10 int64_max Minute "" 0 false 0) 1000).
  - right. reflexivity.
  - cbn. lia.
  - vm_compute. split; discriminate.
  - reflexivity.
Defined.

(** a sweep forgets windows that have not ended.  After a sweep that finds
    a key idle, whatever its window had counted and however long the window
    still runs, the next request is decided as if nothing had been used. *)
Theorem local_eviction_forgets (l : Local) (req : Request) (x : window) (cutoff now : Z) :
  local_wf l → local_obj l (stateKey req) = Some x → wd_lastSeen x < cutoff →
  0 < Milliseconds (rq_Window req) → 0 ≤ rq_Cost req ≤ rq_Limit req → 1 ≤ rq_Limit req → is_int64 (rq_Limit req) →
  d_Allowed (Local_Allow (Local_evict l cutoff) req now).1 = true.
Proof.
  intros Hwf Hobj Hidle Hms Hc Hl1 Hl. unfold local_obj in Hobj.
  destruct (tb_m l !! stateKey req) as [i|] eqn:Ei; [|done]. cbn in Hobj.
  assert (Hgone : tb_m (Local_evict l cutoff) !! stateKey req = None).
  { unfold Local_evict, table_evict. cbn. apply map_lookup_filter_None. right. intros j Hj. cbn.
    rewrite Ei in Hj. injection Hj as <-. rewrite Hobj. by rewrite (proj2 (Z.ltb_lt _ _) Hidle). }
  unfold Local_Allow, table_get. rewrite Hgone. unfold table_obj. cbn [tb_objs].
  rewrite lookup_app_r, Nat.sub_diag by done. cbn [lookup list_lookup]. unfold window_allow, roll.
  rewrite (proj2 (Z.leb_gt _ _) Hms).
  destruct (_ =? _); cbn [wd_consumed]; unfold i64_add at 1;
    rewrite (wrap64_small (0 + _)) by (unfold is_int64, int64_min, int64_max in *; lia);
    (rewrite (proj2 (Z.ltb_ge _ _)) by lia); done.
Qed.

Lemma local_eviction_forgets_witness :
  let req := mkRequest "v1" "api" "" "key1" "" "" 1 1 Hour "" 0 false 0 in
  let '(ds, l) := local_run empty_table [(0, req); (1, req)] in
  d_Allowed <$> ds = [true; false] ∧ d_Allowed (Local_Allow (Local_evict l 60000) req 120000).1 = true.
Proof.
  intros req. destruct (local_run empty_table [(0, req); (1, req)]) as [ds l] eqn:E.
  assert (El : l = (local_run empty_table [(0, req); (1, req)]).2) by (rewrite E; reflexivity).
  split.
  - assert (Ed : ds = (local_run empty_table [(0, req); (1, req)]).1) by (rewrite E; reflexivity).
    rewrite Ed. vm_compute. reflexivity.
  - apply (local_eviction_forgets l req (mkWindow 0 1 1) 60000 120000).
    + rewrite El. apply (Local_Allow_wf (Local_Allow empty_table req 0).2 req 1), Local_Allow_wf, local_wf_empty.
    + rewrite El. vm_compute. reflexivity.
    + cbn. lia.
    + vm_compute. reflexivity.
    + cbn. lia.
    + cbn. lia.
    + vm_compute. split; discriminate.
Defined.

(** ** Reservations over the local limiter *)

Module Example_reserve.
Definition check (limitID : string) (limit cost : Z) : Request :=
  mkRequest "v1" "api" limitID "key1" "" "" limit cost Minute "" 0 false 0.
Definition s0 : local_at := exist _ (empty_table, 1000) local_wf_empty.
Definition fits : list Request := [check "" 10 4; check "llm" 5 4].
Definition too_much : list Request := [check "" 10 4; check "llm" 3 4].
End Example_reserve.

Lemma reserve_all_or_nothing_witness :
  ∃ rv s, Reserve Example_reserve.s0 Example_reserve.too_much = (Ok rv, s) ∧ rv_Allowed rv = false ∧
    usage (LimiterLaws := Local_Laws (λ _, Minute)) s (stateKey (Example_reserve.check "" 10 4)) = 0.
Proof.
  assert (Hd : match (Reserve Example_reserve.s0 Example_reserve.too_much).1 with
               | Ok rv => rv_Allowed rv = false | Err _ => False end) by (vm_compute; reflexivity).
  destruct (Reserve Example_reserve.s0 Example_reserve.too_much) as [[rv|e] s] eqn:E; [|destruct Hd].
  exists rv, s. split; [reflexivity|]. split; [exact Hd|].
  pose proof (reserve_all_or_nothing (LimiterLaws0 := Local_Laws (λ _, Minute)) Example_reserve.s0 s
    Example_reserve.too_much (Ok rv)) as H.
  cbn [fst] in Hd. cbv iota in H. rewrite Hd in H. rewrite H.
  - reflexivity.
  - repeat (apply Forall_cons_2; [reflexivity|]). apply Forall_nil_2.
  - repeat (apply Forall_cons_2; [vm_compute; split; discriminate|]). apply Forall_nil_2.
  - exact E.
Defined.

