(* ===== verification/Batch.v ===== *)
(** * Batching of lease requests ([packages/limiter/batch.go])

    Concurrent lease requests are coalesced into batched calls to the hub: at
    most two batches in flight, at most 256 requests each.  The sections under
    the batcher's lock are the steps of a transition system, interleaved in any
    order with the hub's answers, which are arbitrary.  A call's [done] channel
    is a boolean; closing it twice would panic, so that [exchange] is partial.

    A caller waits for its own call or gives up when its context ends; giving
    up changes nothing here, the call stays in its batch. *)

From S2P Require Import Prelude Float64 Wire Ledger Hub.

Local Open Scope Z_scope.

#[export] Instance code_eq_dec : EqDecision code.
Proof. solve_decision. Defined.

Definition batchMaxItems : nat := 256.
Definition batchMaxInflight : Z := 2.

Record batchCall := mkCall {
  bc_req : QuotaLeaseRequest;
  bc_resp : option QuotaLeaseResponse;
  bc_err : option status;
  bc_done : bool; (* the channel is closed *)
}.

(** Calls are shared by their callers and the batches they are in: a batch
    holds positions in the list of all calls made. *)
Record Batcher := mkBatcher {
  bt_pending : list nat;
  bt_inflight : Z;
  bt_unbatched : bool;
  bt_calls : list batchCall;
}.

Definition NewBatcher : Batcher := mkBatcher [] 0 false [].

Definition takeLocked (b : Batcher) : option (list nat) * Batcher :=
  match bt_pending b with
  | [] => (None, b)
  | _ =>
      if batchMaxInflight <=? bt_inflight b then (None, b)
      else (Some (take batchMaxItems (bt_pending b)),
            mkBatcher (drop batchMaxItems (bt_pending b)) (bt_inflight b + 1) (bt_unbatched b)
              (bt_calls b))
  end.

(** The locked section of [RequestQuotaLease]: queue a call, start a batch if a
    slot is free.  A batch is handed to a new goroutine running [send]. *)
Definition enqueue (b : Batcher) (req : QuotaLeaseRequest) : option (list nat) * Batcher :=
  takeLocked (mkBatcher (bt_pending b ++ [length (bt_calls b)]) (bt_inflight b) (bt_unbatched b)
                (bt_calls b ++ [mkCall req None None false])).

(** The locked section of [send], after an exchange. *)
Definition send_next (b : Batcher) : option (list nat) * Batcher :=
  takeLocked (mkBatcher (bt_pending b) (bt_inflight b - 1) (bt_unbatched b) (bt_calls b)).

(** What a call is answered. *)
Definition answer : Type := option QuotaLeaseResponse * option status.

(** The switch over a batched answer, for the [i]-th request. *)
Definition item_answer (out : result status (list QuotaLeaseResult)) (i : nat) : answer :=
  match out with
  | Err e => (None, Some e)
  | Ok results =>
      match results !! i with
      | None => (None, Some (mkStatus Internal "hub answered fewer leases than requested"))
      | Some (ResErr e) => (None, Some e)
      | Some (ResOk resp) => (Some resp, None)
      end
  end.

Definition single_answer (r : result status QuotaLeaseResponse) : answer :=
  match r with Ok resp => (Some resp, None) | Err e => (None, Some e) end.

(** The hub's side of an exchange: its answer to the batch and, for a hub that
    predates batching, its answers to the requests one by one. *)
Record hub_answer := mkHubAnswer {
  ha_batch : result status (list QuotaLeaseResult);
  ha_single : nat → result status QuotaLeaseResponse;
}.

Definition unimplemented (h : hub_answer) : bool :=
  match ha_batch h with
  | Err e => bool_decide (st_code e = Unimplemented)
  | Ok _ => false
  end.

Definition answer_at (h : hub_answer) (i : nat) : answer :=
  if unimplemented h then single_answer (ha_single h i) else item_answer (ha_batch h) i.

(** [c.resp, c.err = ...]: a field that is not assigned keeps its value. *)
Definition set_answer (h : hub_answer) (a : answer) (c : batchCall) : batchCall :=
  if unimplemented h then mkCall (bc_req c) a.1 a.2 (bc_done c)
  else mkCall (bc_req c) (match a.1 with Some r => Some r | None => bc_resp c end)
         (match a.2 with Some e => Some e | None => bc_err c end) (bc_done c).

Fixpoint assign (h : hub_answer) (i : nat) (batch : list nat) (calls : list batchCall)
  : list batchCall :=
  match batch with
  | [] => calls
  | j :: batch => assign h (i + 1) batch (alter (set_answer h (answer_at h i)) j calls)
  end.

(** The deferred loop; [None] is the panic of closing a closed channel. *)
Fixpoint close_all (batch : list nat) (calls : list batchCall) : option (list batchCall) :=
  match batch with
  | [] => Some calls
  | j :: batch =>
      match calls !! j with
      | None => None
      | Some c =>
          if bc_done c then None
          else close_all batch (<[j := mkCall (bc_req c) (bc_resp c) (bc_err c) true]> calls)
      end
  end.

Definition exchange (b : Batcher) (batch : list nat) (h : hub_answer) : option Batcher :=
  match close_all batch (assign h 0 batch (bt_calls b)) with
  | None => None
  | Some calls =>
      Some (mkBatcher (bt_pending b) (bt_inflight b) (bt_unbatched b || unimplemented h) calls)
  end.

(** ** Interleavings *)

(** Where a goroutine running [send] is. *)
Inductive sender := Exchanging (batch : list nat) | Exchanged.

(** The batcher, the goroutines, and (for the statements) the exchanges made. *)
Record bworld := mkBWorld {
  bw_b : Batcher;
  bw_senders : list sender;
  bw_log : list (list nat * hub_answer);
}.

Definition spawn (batch : option (list nat)) : list sender :=
  match batch with Some l => [Exchanging l] | None => [] end.

(** One step of a goroutine running [send]. *)
Inductive sendstep : bworld → bworld → Prop :=
| BExchange b b' ss log i batch h :
    ss !! i = Some (Exchanging batch) → exchange b batch h = Some b' →
    sendstep (mkBWorld b ss log) (mkBWorld b' (<[i := Exchanged]> ss) (log ++ [(batch, h)]))
| BNext b b' ss log i batch :
    ss !! i = Some Exchanged → send_next b = (Some batch, b') →
    sendstep (mkBWorld b ss log) (mkBWorld b' (<[i := Exchanging batch]> ss) log)
| BEnd b b' ss log i :
    ss !! i = Some Exchanged → send_next b = (None, b') →
    sendstep (mkBWorld b ss log) (mkBWorld b' (delete i ss) log).

Inductive bstep : bworld → bworld → Prop :=
| BCall b b' ss log req batch :
    enqueue b req = (batch, b') →
    bstep (mkBWorld b ss log) (mkBWorld b' (ss ++ spawn batch) log)
| BSend w w' : sendstep w w' → bstep w w'.

Inductive breach : bworld → Prop :=
| BStart : breach (mkBWorld NewBatcher [] [])
| BReach w w' : breach w → bstep w w' → breach w'.

(** ** What an exchange does to the calls *)

Lemma assign_length h i batch calls : length (assign h i batch calls) = length calls.
Proof. revert i calls. induction batch as [|j batch IH]; intros i calls; cbn; [done|]. by rewrite IH, length_alter. Qed.

Lemma assign_out h i batch calls j : j ∉ batch → assign h i batch calls !! j = calls !! j.
Proof.
  revert i calls. induction batch as [|k batch IH]; intros i calls Hj; cbn; [done|].
  apply not_elem_of_cons in Hj as [Hk Hj]. rewrite IH by done. by apply list_lookup_alter_ne.
Qed.

Lemma assign_in h i batch calls k j :
  NoDup batch → batch !! k = Some j →
  assign h i batch calls !! j = set_answer h (answer_at h (i + k)) <$> calls !! j.
Proof.
  intros Hnd. revert i k calls. induction Hnd as [|j' batch Hj' Hnd IH]; intros i k calls Hk; [done|].
  destruct k as [|k]; cbn in *; simplify_eq.
  - rewrite assign_out by done. by rewrite list_lookup_alter_eq, Nat.add_0_r.
  - rewrite (IH _ k) by done. replace (i + 1 + k)%nat with (i + S k)%nat by lia.
    rewrite list_lookup_alter_ne; [done|]. intros ->. apply Hj'. by apply list_elem_of_lookup_2 in Hk.
Qed.

Definition call_open (calls : list batchCall) (j : nat) : Prop :=
  ∃ c, calls !! j = Some c ∧ bc_done c = false.

Definition close_call (c : batchCall) : batchCall := mkCall (bc_req c) (bc_resp c) (bc_err c) true.

Lemma close_all_spec batch calls :
  NoDup batch → (∀ j, j ∈ batch → call_open calls j) →
  ∃ calls', close_all batch calls = Some calls' ∧ length calls' = length calls ∧
    (∀ j, j ∉ batch → calls' !! j = calls !! j) ∧
    (∀ j, j ∈ batch → calls' !! j = close_call <$> calls !! j).
Proof.
  intros Hnd. revert calls. induction Hnd as [|j batch Hj Hnd IH]; intros calls Hopen.
  { exists calls. do 3 (split; [done|]). by intros j ?%elem_of_nil. }
  destruct (Hopen j (list_elem_of_here _ _)) as (c & Hc & Hd).
  destruct (IH (<[j := close_call c]> calls)) as (calls' & E & Hl & Hout & Hin).
  { intros k Hk. destruct (Hopen k (list_elem_of_further _ _ _ Hk)) as (c' & ? & ?).
    exists c'. rewrite list_lookup_insert_ne by (by intros ->). done. }
  exists calls'. cbn [close_all]. rewrite Hc, Hd. split; [exact E|]. rewrite length_insert in Hl.
  split; [done|]. split.
  - intros k [Hne Hk]%not_elem_of_cons. rewrite Hout by done. by apply list_lookup_insert_ne.
  - intros k [->|Hk]%elem_of_cons.
    + rewrite Hout, Hc by done. cbn. apply list_lookup_insert_eq. by apply lookup_lt_Some in Hc.
    + rewrite Hin by done. rewrite list_lookup_insert_ne by (by intros ->). done.
Qed.

(** A call as [RequestQuotaLease] makes it. *)
Definition call_fresh (calls : list batchCall) (j : nat) : Prop :=
  ∃ req, calls !! j = Some (mkCall req None None false).

Lemma set_answer_fresh h a req : set_answer h a (mkCall req None None false) = mkCall req a.1 a.2 false.
Proof. unfold set_answer. destruct (unimplemented h); [done|]. by destruct a as [[] []]. Qed.

(** An exchange answers every call of its batch with the hub's answer at its
    own index, and leaves the others alone. *)
Lemma exchange_spec b batch h :
  NoDup batch → (∀ j, j ∈ batch → call_fresh (bt_calls b) j) →
  ∃ calls', exchange b batch h =
      Some (mkBatcher (bt_pending b) (bt_inflight b) (bt_unbatched b || unimplemented h) calls') ∧
    length calls' = length (bt_calls b) ∧
    (∀ j, j ∉ batch → calls' !! j = bt_calls b !! j) ∧
    (∀ k j, batch !! k = Some j → ∃ req, bt_calls b !! j = Some (mkCall req None None false) ∧
       calls' !! j = Some (mkCall req (answer_at h k).1 (answer_at h k).2 true)).
Proof.
  intros Hnd Hfresh. unfold exchange.
  assert (Hset : ∀ k j, batch !! k = Some j → ∃ req, bt_calls b !! j = Some (mkCall req None None false) ∧
    assign h 0 batch (bt_calls b) !! j = Some (mkCall req (answer_at h k).1 (answer_at h k).2 false)).
  { intros k j Hk. destruct (Hfresh j) as [req Hr]; [by apply list_elem_of_lookup_2 in Hk|].
    exists req. split; [done|]. rewrite (assign_in _ _ _ _ k), Hr by done. cbn. by rewrite set_answer_fresh. }
  destruct (close_all_spec batch (assign h 0 batch (bt_calls b))) as (calls' & E & Hl & Hout & Hin); [done| |].
  { intros j [k Hk]%list_elem_of_lookup. destruct (Hset k j Hk) as (req & _ & Hr). by eexists. }
  rewrite E. exists calls'. split; [done|]. rewrite assign_length in Hl. split; [done|]. split.
  - intros j Hj. by rewrite Hout, assign_out.
  - intros k j Hk. destruct (Hset k j Hk) as (req & H1 & H2). exists req. split; [done|].
    rewrite Hin by (by apply list_elem_of_lookup_2 in Hk). by rewrite H2.
Qed.

(** ** The invariant *)

(** The calls of a goroutine's batch; those of all batches, under way or made. *)
Definition sender_ids (s : sender) : list nat :=
  match s with Exchanging batch => batch | Exchanged => [] end.
Definition sent (w : bworld) : list nat := (bw_senders w ≫= sender_ids) ++ (bw_log w ≫= fst).

Record binv (w : bworld) : Prop := {
  bi_inflight : bt_inflight (bw_b w) = Z.of_nat (length (bw_senders w));
  bi_slots : (length (bw_senders w) ≤ 2)%nat;
  bi_busy : bt_pending (bw_b w) ≠ [] → length (bw_senders w) = 2%nat;
  bi_sizes : ∀ batch, Exchanging batch ∈ bw_senders w → (0 < length batch ≤ batchMaxItems)%nat;
  bi_order : ∃ k, (k ≤ length (bt_calls (bw_b w)))%nat ∧
    bt_pending (bw_b w) = seq k (length (bt_calls (bw_b w)) - k) ∧ sent w ≡ₚ seq 0 k;
  bi_fresh : ∀ j, j ∉ (bw_log w ≫= fst) → (j < length (bt_calls (bw_b w)))%nat →
    call_fresh (bt_calls (bw_b w)) j;
  bi_answers : ∀ batch h, (batch, h) ∈ bw_log w → ∀ k j, batch !! k = Some j →
    ∃ req, bt_calls (bw_b w) !! j = Some (mkCall req (answer_at h k).1 (answer_at h k).2 true);
}.

Lemma takeLocked_spec b k n :
  bt_pending b = seq k n →
  let '(batch, b') := takeLocked b in
  bt_calls b' = bt_calls b ∧
  match batch with
  | None => b' = b ∧ (n = 0%nat ∨ 2 ≤ bt_inflight b)
  | Some l => bt_inflight b < 2 ∧ bt_inflight b' = bt_inflight b + 1 ∧
      ∃ c, (0 < c ≤ batchMaxItems)%nat ∧ (c ≤ n)%nat ∧ l = seq k c ∧
        bt_pending b' = seq (k + c) (n - c) ∧ ((c < n)%nat → c = batchMaxItems)
  end.
Proof.
  intros Hp. unfold takeLocked. destruct (bt_pending b) as [|x l] eqn:E.
  { destruct n; [|done]. split; [done|]. split; [done|by left]. }
  rewrite Hp. destruct n as [|n]; [done|]. unfold batchMaxInflight.
  destruct (Z.leb_spec 2 (bt_inflight b)).
  { split; [done|]. split; [done|by right]. }
  split; [done|]. cbn [bt_pending bt_inflight]. split; [lia|]. split; [done|].
  exists (batchMaxItems `min` S n)%nat. unfold batchMaxItems in *.
  rewrite take_seq, drop_seq. split; [lia|]. split; [lia|]. split; [done|]. split; [|lia].
  destruct (decide (256 ≤ S n)%nat); [f_equal; lia|].
  by replace (S n - 256)%nat with 0%nat by lia; replace (S n - _)%nat with 0%nat by lia.
Qed.

Lemma insert_Permutation {A} (l : list A) i x y : l !! i = Some x → <[i := y]> l ≡ₚ y :: delete i l.
Proof.
  revert i. induction l as [|z l IH]; intros [|i] Hi; cbn in *; simplify_eq; [done|].
  rewrite (IH i) by done. apply perm_swap.
Qed.

(** The calls of the other goroutines. *)
Lemma sender_ids_split ss i s : ss !! i = Some s → (ss ≫= sender_ids) ≡ₚ sender_ids s ++ (delete i ss ≫= sender_ids).
Proof. intros Hi. by rewrite (delete_Permutation ss i s Hi) at 1. Qed.

Lemma sender_ids_insert ss i s s' :
  ss !! i = Some s → (<[i := s']> ss ≫= sender_ids) ≡ₚ sender_ids s' ++ (delete i ss ≫= sender_ids).
Proof. intros Hi. by rewrite (insert_Permutation ss i s s' Hi). Qed.

Lemma binv_init : binv (mkBWorld NewBatcher [] []).
Proof.
  split; cbn; try done; try lia.
  - intros batch ?%elem_of_nil. done.
  - exists 0%nat. split; [lia|]. done.
  - intros batch h ?%elem_of_nil. done.
Qed.

Lemma binv_call b b' ss log req batch :
  binv (mkBWorld b ss log) → enqueue b req = (batch, b') → binv (mkBWorld b' (ss ++ spawn batch) log).
Proof.
  intros [Hin Hsl Hbusy Hsz (k & Hk & Hp & Hsent) Hfr Hans] E. cbn in *. unfold enqueue in E.
  set (n := length (bt_calls b)) in *.
  set (b0 := mkBatcher _ _ _ _) in E.
  pose proof (takeLocked_spec b0 k (n - k + 1)) as Ht. cbn [bt_pending b0] in Ht.
  rewrite E in Ht. destruct Ht as [Hc Ht].
  { rewrite Hp, seq_app. cbn [seq]. by replace (k + (n - k))%nat with n by lia. }
  assert (Hlen : length (bt_calls b') = (n + 1)%nat) by (rewrite Hc; cbn; by rewrite length_app).
  assert (Hfr' : ∀ j, j ∉ (log ≫= fst) → (j < n + 1)%nat → call_fresh (bt_calls b') j).
  { intros j Hj Hlt. rewrite Hc. unfold call_fresh. cbn. destruct (decide (j = n)) as [->|].
    - exists req. by rewrite list_lookup_middle.
    - rewrite lookup_app_l by (fold n; lia). apply Hfr; [done|lia]. }
  assert (Hans' : ∀ l h, (l, h) ∈ log → ∀ i j, l !! i = Some j →
    ∃ r, bt_calls b' !! j = Some (mkCall r (answer_at h i).1 (answer_at h i).2 true)).
  { intros l h Hl i j Hi. destruct (Hans l h Hl i j Hi) as [r Hr]. exists r. rewrite Hc. cbn. by apply lookup_app_l_Some. }
  destruct batch as [l|].
  - destruct Ht as (Hlt & Hin' & c & Hc1 & Hc2 & -> & Hp' & _). cbn in Hlt, Hin'.
    assert (Hempty : (n - k = 0)%nat).
    { destruct (decide (bt_pending b = [])) as [E0|E0]; [rewrite Hp in E0; by destruct (n - k)%nat|].
      specialize (Hbusy E0). lia. }
    replace c with 1%nat in * by lia. replace (n - k + 1 - 1)%nat with 0%nat in Hp' by lia.
    split; cbn; rewrite ?length_app, ?Hlen; cbn; try done; try lia.
    + intros l [Hl|Hl%list_elem_of_singleton]%elem_of_app; [by apply Hsz|]. simplify_eq. cbn. unfold batchMaxItems. lia.
    + exists (k + 1)%nat. split; [lia|]. split; [by replace (n + 1 - (k + 1))%nat with 0%nat by lia|].
      unfold sent in *. cbn in *. rewrite bind_app. cbn. rewrite seq_app. cbn. rewrite <-Hsent.
      solve_Permutation.
  - destruct Ht as (-> & Ht). cbn in *. rewrite app_nil_r. destruct Ht as [Ht|Ht]; [lia|].
    split; cbn; rewrite ?length_app; cbn; try done; try lia; fold n.
    + exists k. split; [lia|]. split; [|done]. rewrite Hp. replace (n + 1 - k)%nat with (n - k + 1)%nat by lia.
      rewrite seq_app. cbn [seq]. by replace (k + (n - k))%nat with n by lia.
Qed.

Lemma binv_exchange b b' ss log i batch h :
  binv (mkBWorld b ss log) → ss !! i = Some (Exchanging batch) → exchange b batch h = Some b' →
  binv (mkBWorld b' (<[i := Exchanged]> ss) (log ++ [(batch, h)])).
Proof.
  intros [Hin Hsl Hbusy Hsz (k & Hk & Hp & Hsent) Hfr Hans] Hi E. cbn in *.
  assert (Hperm : batch ++ (delete i ss ≫= sender_ids) ++ (log ≫= fst) ≡ₚ seq 0 k).
  { rewrite <-Hsent. unfold sent. cbn. by rewrite (sender_ids_split ss i _ Hi), <-app_assoc. }
  assert (Hnd : NoDup (batch ++ (delete i ss ≫= sender_ids) ++ (log ≫= fst)))
    by (rewrite Hperm; apply NoDup_seq).
  apply NoDup_app in Hnd as (Hndb & Hdisj & _).
  assert (Hb : ∀ j, j ∈ batch → (j < length (bt_calls b))%nat ∧ j ∉ (log ≫= fst)).
  { intros j Hj. split.
    - assert (j ∈ seq 0 k) as ?%elem_of_seq by (rewrite <-Hperm; set_solver). lia.
    - intros Hl. apply (Hdisj j Hj). set_solver. }
  destruct (exchange_spec b batch h) as (calls' & E' & Hl & Hout & Hset); [done| |].
  { intros j Hj. apply Hfr; naive_solver. }
  rewrite E' in E. injection E as <-.
  split; cbn; rewrite ?length_insert, ?Hl; try done.
  - intros l Hl'. apply list_elem_of_lookup in Hl' as [m Hm].
    apply list_lookup_insert_Some in Hm as [(_ & ? & _)|[_ Hm]]; [done|].
    apply Hsz. by apply list_elem_of_lookup_2 in Hm.
  - exists k. split; [done|]. split; [done|]. unfold sent. cbn.
    rewrite (sender_ids_insert _ _ _ _ Hi), bind_app. cbn. rewrite app_nil_r, <-Hperm.
    by rewrite (Permutation_app_comm batch), <-app_assoc.
  - intros j Hj Hlt. rewrite bind_app in Hj. cbn in Hj. rewrite app_nil_r in Hj.
    apply not_elem_of_app in Hj as [H1 H2]. unfold call_fresh. rewrite Hout by done. by apply Hfr.
  - intros l h' [Hl'|Hl'%list_elem_of_singleton]%elem_of_app m j Hm.
    + destruct (Hans l h' Hl' m j Hm) as [r Hr]. exists r. rewrite Hout; [done|].
      intros Hj. apply (proj2 (Hb j Hj)). apply list_elem_of_bind. exists (l, h').
      split; [|done]. by apply list_elem_of_lookup_2 in Hm.
    + simplify_eq. destruct (Hset m j Hm) as (r & _ & Hr). by exists r.
Qed.

Lemma binv_next b b' ss log i batch :
  binv (mkBWorld b ss log) → ss !! i = Some Exchanged → send_next b = (Some batch, b') →
  binv (mkBWorld b' (<[i := Exchanging batch]> ss) log).
Proof.
  intros [Hin Hsl Hbusy Hsz (k & Hk & Hp & Hsent) Hfr Hans] Hi E. cbn in *. unfold send_next in E.
  set (b0 := mkBatcher _ _ _ _) in E.
  pose proof (takeLocked_spec b0 k (length (bt_calls b) - k) Hp) as Ht. rewrite E in Ht. cbn in Ht.
  destruct Ht as (Hc & Hlt & Hin' & c & Hc1 & Hc2 & -> & Hp' & _).
  split; cbn; rewrite ?Hc, ?length_insert; try done; try lia.
  - intros Hne. apply Hbusy. rewrite Hp. intros E0.
    apply Hne. rewrite Hp'. destruct (length (bt_calls b) - k)%nat; [by replace (0 - c)%nat with 0%nat by lia|done].
  - intros l [m Hm]%list_elem_of_lookup.
    apply list_lookup_insert_Some in Hm as [(_ & ? & _)|[_ Hm]].
    + simplify_eq. rewrite length_seq. lia.
    + apply Hsz. by apply list_elem_of_lookup_2 in Hm.
  - exists (k + c)%nat. split; [lia|]. split; [rewrite Hp'; f_equal; lia|].
    unfold sent in *. cbn in *. rewrite (sender_ids_insert _ _ _ _ Hi). cbn.
    rewrite seq_app, <-Hsent, (sender_ids_split _ _ _ Hi). cbn. solve_Permutation.
Qed.

Lemma binv_end b b' ss log i :
  binv (mkBWorld b ss log) → ss !! i = Some Exchanged → send_next b = (None, b') →
  binv (mkBWorld b' (delete i ss) log).
Proof.
  intros [Hin Hsl Hbusy Hsz (k & Hk & Hp & Hsent) Hfr Hans] Hi E. cbn in *. unfold send_next in E.
  set (b0 := mkBatcher _ _ _ _) in E.
  pose proof (takeLocked_spec b0 k (length (bt_calls b) - k) Hp) as Ht. rewrite E in Ht. cbn in Ht.
  destruct Ht as (_ & -> & Ht).
  assert (length (delete i ss) = (length ss - 1)%nat) as Hlen by (apply length_delete; by eexists).
  pose proof (lookup_lt_Some _ _ _ Hi).
  destruct Ht as [Ht|Ht]; [|lia]. rewrite Ht in Hp.
  split; cbn; rewrite ?Hlen; try done; try lia.
  - intros l Hl. apply Hsz. rewrite (delete_Permutation ss i _ Hi). by right.
  - exists k. split; [done|]. split; [by rewrite Hp, Ht|].
    unfold sent in *. cbn in *. by rewrite <-Hsent, (sender_ids_split _ _ _ Hi).
Qed.

Create HintDb batch discriminated.
#[export] Hint Resolve binv_init binv_call binv_exchange binv_next binv_end : batch.

Lemma binv_reach w : breach w → binv w.
Proof.
  intros Hr. induction Hr as [|w1 w2 _ IH Hs]; [auto with batch|].
  destruct Hs as [|w1 w2 Hs]; [by eauto with batch|]. destruct Hs; by eauto with batch.
Qed.

(** ** Every call is answered *)

#[local] Arguments sumZ : simpl never.

(** Steps left to the goroutines when no further call arrives. *)
Definition sender_work (s : sender) : Z := match s with Exchanging _ => 2 | Exchanged => 1 end.
Definition work (w : bworld) : Z :=
  sumZ sender_work (bw_senders w) + 2 * Z.of_nat (length (bt_pending (bw_b w))).

Lemma takeLocked_shrinks b l b' :
  takeLocked b = (Some l, b') → (length (bt_pending b') < length (bt_pending b))%nat.
Proof.
  unfold takeLocked. destruct (bt_pending b) eqn:E; [done|]. case_match; [done|]. intros. simplify_eq.
  cbn [bt_pending]. rewrite length_drop. cbn [length]. unfold batchMaxItems. lia.
Qed.

Lemma sendstep_work w w' : sendstep w w' → work w' < work w.
Proof.
  unfold work. destruct 1 as [b b' ss log i batch h Hi E|b b' ss log i batch Hi E|b b' ss log i Hi E]; cbn.
  - unfold exchange in E. case_match; [|done]. simplify_eq. cbn. rewrite (sumZ_insert _ _ _ _ _ Hi). cbn. lia.
  - rewrite (sumZ_insert _ _ _ _ _ Hi). apply takeLocked_shrinks in E. cbn in *. lia.
  - rewrite (sumZ_delete _ _ _ _ Hi). unfold send_next, takeLocked in E. cbn in E.
    repeat case_match; simplify_eq; cbn; lia.
Qed.

Lemma work_nonneg w : 0 ≤ work w.
Proof.
  unfold work. assert (0 ≤ sumZ sender_work (bw_senders w)); [|lia].
  apply sumZ_nonneg. intros [] _; done.
Qed.

Lemma sendsteps_bounded n w w' : nsteps sendstep n w w' → Z.of_nat n ≤ work w.
Proof.
  induction 1 as [w|n w1 w2 w3 Hs _ IH]; [apply work_nonneg|]. apply sendstep_work in Hs. lia.
Qed.

(** A goroutine can always take its next step, whatever the hub answers. *)
Lemma sender_runs w i s (h : hub_answer) : binv w → bw_senders w !! i = Some s → ∃ w', sendstep w w'.
Proof.
  destruct w as [b ss log]. intros Hinv Hi. cbn in Hi. destruct s as [batch|].
  - destruct Hinv as [_ _ _ _ (k & Hk & Hp & Hsent) Hfr _]. cbn in *.
    unfold sent in Hsent. cbn in Hsent. rewrite (sender_ids_split _ _ _ Hi) in Hsent. cbn in Hsent.
    assert (Hnd : NoDup ((batch ++ (delete i ss ≫= sender_ids)) ++ (log ≫= fst))) by (rewrite Hsent; apply NoDup_seq).
    destruct (exchange_spec b batch h) as (calls' & E & _).
    + by apply NoDup_app in Hnd as [[? _]%NoDup_app _].
    + intros j Hj. apply Hfr.
      * apply NoDup_app in Hnd as (_ & Hd & _). apply Hd. set_solver.
      * assert (j ∈ seq 0 k) as ?%elem_of_seq by (rewrite <-Hsent; set_solver). lia.
    + eexists. by eapply BExchange.
  - destruct (send_next b) as [[l|] b'] eqn:E; eexists; [by eapply BNext|by eapply BEnd].
Qed.


(** at most two batches are in flight and each carries at most 256
    requests; a request waits only while two are in flight; and requests are sent
    in the order they were made, each in one batch. *)
Theorem batcher_bounds (w : bworld) :
  breach w →
  0 ≤ bt_inflight (bw_b w) ≤ batchMaxInflight ∧
  (∀ batch, Exchanging batch ∈ bw_senders w → (0 < length batch ≤ batchMaxItems)%nat) ∧
  (bt_pending (bw_b w) ≠ [] → bt_inflight (bw_b w) = batchMaxInflight) ∧
  NoDup (sent w ++ bt_pending (bw_b w)) ∧
  (∀ i j, i ∈ sent w → j ∈ bt_pending (bw_b w) → (i < j)%nat).
Proof.
  intros [Hin Hsl Hbusy Hsz (k & Hk & Hp & Hsent) _ _]%binv_reach. unfold batchMaxInflight.
  split; [lia|]. split; [done|]. split; [intros Hne; specialize (Hbusy Hne); lia|].
  rewrite Hp, Hsent. split.
  - change k with (0 + k)%nat at 2. rewrite <-seq_app. apply NoDup_seq.
  - intros i j Hi Hj. rewrite Hsent in Hi. apply elem_of_seq in Hi, Hj. lia.
Qed.

(** The steps as a function: of a caller, and of the [i]-th goroutine with the
    hub's answer. *)
Definition call_step (w : bworld) (req : QuotaLeaseRequest) : bworld :=
  let '(batch, b) := enqueue (bw_b w) req in mkBWorld b (bw_senders w ++ spawn batch) (bw_log w).

Definition send_step (w : bworld) (i : nat) (h : hub_answer) : bworld :=
  match bw_senders w !! i with
  | Some (Exchanging batch) =>
      match exchange (bw_b w) batch h with
      | Some b => mkBWorld b (<[i := Exchanged]> (bw_senders w)) (bw_log w ++ [(batch, h)])
      | None => w
      end
  | Some Exchanged =>
      match send_next (bw_b w) with
      | (Some batch, b) => mkBWorld b (<[i := Exchanging batch]> (bw_senders w)) (bw_log w)
      | (None, b) => mkBWorld b (delete i (bw_senders w)) (bw_log w)
      end
  | None => w
  end.

Lemma breach_call w req : breach w → breach (call_step w req).
Proof.
  intros Hw. apply (BReach w); [done|]. destruct w as [b ss log]. unfold call_step. cbn.
  destruct (enqueue b req) as [batch b'] eqn:E. by eapply BCall.
Qed.

Lemma breach_send w i h : breach w → breach (send_step w i h).
Proof.
  intros Hw. destruct w as [b ss log]. unfold send_step. cbn. destruct (ss !! i) as [[batch|]|] eqn:Hi; [| |done].
  - destruct (exchange b batch h) as [b'|] eqn:E; [|done]. eapply BReach; [done|]. by eapply BSend, BExchange.
  - destruct (send_next b) as [[batch|] b'] eqn:E; (eapply BReach; [done|]); apply BSend; [by eapply BNext|by eapply BEnd].
Qed.

(** ** A concrete run: three calls, the third waits for a slot *)

Module Example_batch.
Definition req (key : string) : QuotaLeaseRequest :=
  mkQuotaLeaseRequest "a" "b" key 5 "" "" "e" f64_zero "".
Definition resp (n : Z) : QuotaLeaseResponse := mkQuotaLeaseResponse n 1 0 false 0 0 0 0 1 0 10.
Definition single (_ : nat) : result status QuotaLeaseResponse := Ok (resp 3).
Definition granted : hub_answer := mkHubAnswer (Ok [ResOk (resp 7)]) single.
Definition too_few : hub_answer := mkHubAnswer (Ok []) single.
Definition old_hub : hub_answer := mkHubAnswer (Err (mkStatus Unimplemented "unknown method")) single.

Definition short : status := mkStatus Internal "hub answered fewer leases than requested".
Definition waiting : bworld :=
  mkBWorld (mkBatcher [2%nat] 2 false
    [mkCall (req "x") None None false; mkCall (req "y") None None false; mkCall (req "z") None None false])
    [Exchanging [0%nat]; Exchanging [1%nat]] [].
Definition finished : bworld :=
  mkBWorld (mkBatcher [] 0 true
    [mkCall (req "x") (Some (resp 7)) None true; mkCall (req "y") None (Some short) true;
     mkCall (req "z") (Some (resp 3)) None true])
    [] [([0%nat], granted); ([1%nat], too_few); ([2%nat], old_hub)].

Lemma waiting_reach : breach waiting.
Proof.
  exact (breach_call _ (req "z") (breach_call _ (req "y") (breach_call _ (req "x") BStart))).
Qed.

Lemma finished_reach : breach finished.
Proof.
  exact (breach_send _ 0 old_hub (breach_send _ 0 old_hub (breach_send _ 1 too_few
    (breach_send _ 1 too_few (breach_send _ 0 granted (breach_send _ 0 granted waiting_reach)))))).
Qed.
End Example_batch.


Lemma batcher_bounds_witness : bt_inflight (bw_b Example_batch.waiting) = 2.
Proof.
  destruct (batcher_bounds Example_batch.waiting) as (_ & _ & H & _).
  - exact Example_batch.waiting_reach.
  - apply H. discriminate.
Defined.
