(* ===== verification/DecideService.v ===== *)
(** * The decision service: checks and settlement ([packages/decide/service.go])

    A request is a list of descriptors, each charged to the limit it resolves
    to, all or nothing; a denied request may wait for quota; and a reservation
    is settled at the hub with a signed token that carries everything needed.
    The encodings (JSON, base64) and the MAC are parameters.  [now] is the wall
    clock in nanoseconds; times inside decisions are whole milliseconds. *)

From S2P Require Import Prelude Float64 Ledger Limiter Reserve Wire Config Decide Hub.
From Stdlib Require Import Ascii.

Local Open Scope Z_scope.

Record Descriptor := mkDescriptor {
  ds_Entries : list Entry;
  ds_Cost : Z;
}.

Record Status := mkStatusOf {
  ss_LimitID : string;
  ss_Matched : bool;
  ss_Allowed : bool;
  ss_Shadow : bool;
  ss_ShadowDenied : bool;
  ss_Limit : Z;
  ss_Remaining : Z;
  ss_ResetIn : Z; (* time.Duration *)
  ss_Window : Z;
  ss_Spec : LimitSpec;
}.

Definition zero_spec : LimitSpec := mkLimitSpec "" "" "" 0 0 f64_zero false.

Record Outcome := mkOutcome {
  oc_Allowed : bool;
  oc_Statuses : list Status;
  oc_RetryAfter : Z; (* time.Duration *)
  oc_Reservation : string;
}.

Record reservationItem := mkItem {
  it_Limit : string;
  it_Subject : string;
  it_Window : Z;
  it_Estimate : Z;
}.

Record reservation := mkRes {
  rs_Domain : string;
  rs_Items : list reservationItem;
  rs_Exp : Z; (* unix seconds *)
  rs_Nonce : string;
}.

Definition reservationTTL : Z := 10 * Minute.
Definition minRetry : Z := 10 * Millisecond.

(** [time.Until], which saturates; the zero time is far in the past. *)
Definition Until (t : option Z) (now : Z) : Z :=
  match t with
  | None => int64_min
  | Some ms => Z.max int64_min (Z.min int64_max (ms * Millisecond - now))
  end.

(** ** Check *)

(** The first loop of [check], from the [i]-th descriptor: the statuses, the
    checks to make and the descriptors they are for. *)
Definition matched_status (m : Match) : Status :=
  mkStatusOf (mt_LimitID m) true false (ls_Shadow (mt_Spec m)) false 0 0 0 0 (mt_Spec m).

Definition unmatched_status : Status := mkStatusOf "" false true false false 0 0 0 0 zero_spec.

Definition check_request (domain : string) (m : Match) (cost : Z) : Request :=
  {| rq_Scope := Scope; rq_Service := domain; rq_LimitID := mt_LimitID m; rq_Key := mt_Subject m;
     rq_Tier := ""; rq_Org := ""; rq_Limit := ls_Quota (mt_Spec m); rq_Cost := Z.max cost 1;
     rq_Window := Z.max (ls_Window (mt_Spec m)) Second; rq_Algo := ls_Algorithm (mt_Spec m);
     rq_LeaseSize := 0; rq_Shadow := ls_Shadow (mt_Spec m); rq_MaxDebt := 0 |}.

Section service.
Variable sha256_hex16 : string → string.
Variable cfg : GatewayConfig.

Fixpoint collect (domain : string) (i : nat) (descs : list Descriptor)
  : list Status * list Request * list nat :=
  match descs with
  | [] => ([], [], [])
  | desc :: descs =>
      let '(sts, checks, index) := collect domain (i + 1) descs in
      match Resolve sha256_hex16 cfg domain (ds_Entries desc) with
      | None => (unmatched_status :: sts, checks, index)
      | Some m => (matched_status m :: sts, check_request domain m (ds_Cost desc) :: checks, i :: index)
      end
  end.

(** The loop over the results. *)
Definition with_result (now : Z) (r : Decision) (c : Request) (st : Status) : Status :=
  mkStatusOf (ss_LimitID st) (ss_Matched st) (d_Allowed r || rq_Shadow c) (ss_Shadow st)
    (ss_ShadowDenied st) (d_Limit r) (d_Remaining r)
    (match d_ResetAt r with Some t => Z.max (Until (Some t) now) 0 | None => ss_ResetIn st end)
    (d_Window r) (ss_Spec st).

Fixpoint apply_results (now : Z) (results : list Decision) (checks : list Request) (index : list nat)
  (sts : list Status) : list Status :=
  match results, checks, index with
  | r :: results, c :: checks, i :: index =>
      apply_results now results checks index (alter (with_result now r c) i sts)
  | _, _, _ => sts
  end.

Definition mark_shadow (st : Status) : Status :=
  mkStatusOf (ss_LimitID st) (ss_Matched st) (ss_Allowed st) (ss_Shadow st) true (ss_Limit st)
    (ss_Remaining st) (ss_ResetIn st) (ss_Window st) (ss_Spec st).

Definition mark_denied (st : Status) : Status :=
  mkStatusOf (ss_LimitID st) (ss_Matched st) false (ss_Shadow st) (ss_ShadowDenied st) (ss_Limit st)
    (ss_Remaining st) (ss_ResetIn st) (ss_Window st) (ss_Spec st).

(** [out.Statuses[index[j]]], updated. *)
Definition at_check (f : Status → Status) (index : list nat) (sts : list Status) (j : nat) : list Status :=
  match index !! j with Some i => alter f i sts | None => sts end.

Section token.
Variable json : reservation → string.
Variable unjson : string → option reservation.
Variable b64 : string → string.
Variable unb64 : string → option string.
Variable hmac : string → string → string.
Variable Secret : string.
Variable EdgeID : string.

Definition mac (b : string) : string := hmac Secret b.

(** The items of a reservation: the enforced limits that admitted it. *)
Fixpoint sign_items (checks : list Request) (results : list Decision) : list reservationItem :=
  match checks, results with
  | c :: checks, r :: results =>
      if rq_Shadow c || negb (d_Allowed r) then sign_items checks results
      else mkItem (rq_LimitID c) (rq_Key c) (d_Window r) (rq_Cost c) :: sign_items checks results
  | _, _ => []
  end.

Definition sign_body (domain : string) (checks : list Request) (results : list Decision)
  (now : Z) (nonce : string) : reservation :=
  mkRes domain (sign_items checks results) ((now + reservationTTL) `div` Second) nonce.

Definition token (r : reservation) : string :=
  let b := b64 (json r) in b +:+ "." +:+ b64 (mac b).

Definition sign (domain : string) (checks : list Request) (res : Reservation) (now : Z) (nonce : string)
  : string :=
  token (sign_body domain checks (rv_Results res) now nonce).

Context {S : Type} `{!Limiter S}.

(** One attempt; [signed] are the clock reading and the nonce of [sign]. *)
Definition check (s : S) (now : Z) (signed : Z * string) (domain : string) (descs : list Descriptor)
  (reserve : bool) : result lerror Outcome * S :=
  let '(sts, checks, index) := collect domain 0 descs in
  match Reserve s checks with
  | (Err (e, _), s) => (Err e, s)
  | (Ok res, s) =>
      let sts := apply_results now (rv_Results res) checks index sts in
      let sts := foldl (at_check mark_shadow index) sts (rv_ShadowDenied res) in
      let '(sts, retry) :=
        if negb (rv_Allowed res) && (0 <=? rv_BindingIndex res)
        then (at_check mark_denied index sts (Z.to_nat (rv_BindingIndex res)),
              Until (Decision_RetryAt (rv_Binding res)) now)
        else (sts, 0) in
      let tok := if reserve && rv_Allowed res && negb (bool_decide (checks = []))
                 then sign domain checks res signed.1 signed.2 else "" in
      (Ok (mkOutcome (rv_Allowed res) sts retry tok), s)
  end.

(** What the loop of [Check] sees in one iteration: the clock in [check] and in
    [sign], the nonce, the clock at the deadline test, and whether the context
    ended before the wait did. *)
Record tick := mkTick {
  tk_check : Z;
  tk_sign : Z * string;
  tk_test : Z;
  tk_done : bool;
}.

Inductive checked := Checked (out : Outcome) | CheckErr (e : lerror) | CheckCtx (out : Outcome).

(** [Check], as long as there are ticks. *)
Fixpoint Check_loop (s : S) (ticks : list tick) (deadline : Z) (domain : string)
  (descs : list Descriptor) (maxWait : Z) (reserve : bool) : option checked * S :=
  match ticks with
  | [] => (None, s)
  | tk :: ticks =>
      match check s (tk_check tk) (tk_sign tk) domain descs reserve with
      | (Err e, s) => (Some (CheckErr e), s)
      | (Ok out, s) =>
          if oc_Allowed out || (maxWait <=? 0) then (Some (Checked out), s)
          else
            let wait := Z.max (oc_RetryAfter out) minRetry in
            if deadline <? tk_test tk + wait then (Some (Checked out), s)
            else if tk_done tk then (Some (CheckCtx out), s)
            else Check_loop s ticks deadline domain descs maxWait reserve
      end
  end.

Definition Check (s : S) (start : Z) (ticks : list tick) (domain : string) (descs : list Descriptor)
  (maxWait : Z) (reserve : bool) : option checked * S :=
  Check_loop s ticks (start + maxWait) domain descs maxWait reserve.

(** ** Settlement *)

Inductive derror := ErrBadReservation | EHub (st : status).

(** The checks of a token, at [now] nanoseconds. *)
Definition open_token (tok : string) (now : Z) : option reservation :=
  let '(body, sig, ok) := Cut "." tok in
  match unb64 sig with
  | None => None
  | Some want =>
      if negb ok || (Secret =? "")%string || negb (want =? mac body)%string then None
      else
        match unb64 body with
        | None => None
        | Some raw =>
            match unjson raw with
            | None => None
            | Some r => if rs_Exp r <? now `div` Second then None else Some r
            end
        end
  end.

Definition settle_returns (r : reservation) (actual : Z) : list LeaseReturn :=
  omap (λ it,
    let delta := (it_Estimate it - Z.max actual 0)%i64 in
    if delta =? 0 then None
    else Some (mkLeaseReturn Scope (rs_Domain r) (it_Subject it) (it_Limit it) "" ""
                 (it_Window it) 0 delta)) (rs_Items r).

Definition settle_request (r : reservation) (actual : Z) : ReturnLeasesRequest :=
  mkReturnLeasesRequest EdgeID ("settle-" +:+ rs_Nonce r) (settle_returns r actual).

(** The hub a settlement goes to, and its clock in milliseconds. *)
Variable sha256_uint64 : string → Z.
Variable sha256_hex8 : string → string.
Variable validKey : string → bool.
Variable tierStore : TierStore.

Definition Settle_token (hub : QuotaLeaseServer) (now nowMs : Z) (cn : option string) (tok : string)
  (actual : Z) : option derror * QuotaLeaseServer :=
  match open_token tok now with
  | None => (Some ErrBadReservation, hub)
  | Some r =>
      match settle_returns r actual with
      | [] => (None, hub)
      | _ =>
          let '(e, hub) := ReturnLeases sha256_uint64 sha256_hex8 validKey cfg tierStore hub nowMs cn
                             (settle_request r actual) in
          (option_map EHub e, hub)
      end
  end.
End token.
End service.
