(* ===== verification/DecideProps.v ===== *)
(** * Properties of the decision service

    What a caller is told about each descriptor, how long a waiting request
    can take, and what settling a reservation does to the hub's ledger. *)

From S2P Require Import Prelude Float64 Ledger LedgerFacts LedgerSafety LedgerProps Limiter Reserve LocalProps.
From S2P Require Import Wire Region Config Decide Hub Isolation DecideService.
From Stdlib Require Import Ascii.

Local Open Scope Z_scope.

(** ** Statuses *)

Section statuses.
Context (sha16 : string → string) (cfg : GatewayConfig).

#[local] Notation Resolve := (Decide.Resolve sha16 cfg).
#[local] Notation collect := (DecideService.collect sha16 cfg).

Definition status_of (o : option Match) : Status :=
  match o with None => unmatched_status | Some m => matched_status m end.

(** The checks of a request, by the descriptors they are for. *)
Lemma collect_spec domain i descs :
  let '(sts, checks, index) := collect domain i descs in
  sts = (λ desc, status_of (Resolve domain (ds_Entries desc))) <$> descs ∧
  length checks = length index ∧ NoDup index ∧
  (∀ j n, index !! j = Some n → ∃ k desc m, n = (i + k)%nat ∧ descs !! k = Some desc ∧
     Resolve domain (ds_Entries desc) = Some m ∧ checks !! j = Some (check_request domain m (ds_Cost desc))) ∧
  (∀ k desc m, descs !! k = Some desc → Resolve domain (ds_Entries desc) = Some m →
     ∃ j, index !! j = Some (i + k)%nat).
Proof.
  revert i. induction descs as [|desc descs IH]; intros i; cbn [DecideService.collect].
  { split; [done|]. split; [done|]. split; [constructor|]. done. }
  specialize (IH (i + 1)%nat). destruct (collect domain (i + 1) descs) as [[sts checks] index].
  destruct IH as (-> & Hl & Hnd & Hin & Hout). destruct (Resolve domain (ds_Entries desc)) as [m|] eqn:Em; cbn; rewrite Em.
  - split; [done|]. split; [lia|]. split.
    { constructor; [|done]. intros [j Hj]%list_elem_of_lookup. destruct (Hin j i Hj) as (k & ? & ? & ? & _). lia. }
    split.
    + intros [|j] n Hj; cbn in Hj; simplify_eq.
      * exists 0%nat, desc, m. split; [lia|]. done.
      * destruct (Hin j n Hj) as (k & d & m' & ? & ? & ? & ?). exists (S k), d, m'. split; [lia|]. done.
    + intros [|k] d m' Hk Hm; cbn in Hk; simplify_eq.
      * exists 0%nat. cbn. f_equal. lia.
      * destruct (Hout k d m' Hk Hm) as [j Hj]. exists (S j). by replace (i + S k)%nat with (i + 1 + k)%nat by lia.
  - split; [done|]. split; [lia|]. split; [done|]. split.
    + intros j n Hj. destruct (Hin j n Hj) as (k & d & m' & ? & ? & ? & ?). exists (S k), d, m'. split; [lia|]. done.
    + intros [|k] d m' Hk Hm; cbn in Hk; simplify_eq.
      destruct (Hout k d m' Hk Hm) as [j Hj]. exists j. by replace (i + S k)%nat with (i + 1 + k)%nat by lia.
Qed.

Lemma apply_results_length now results checks index sts :
  length (apply_results now results checks index sts) = length sts.
Proof.
  revert checks index sts. induction results as [|r results IH]; intros [|c checks] [|i index] sts; cbn; try done.
  by rewrite IH, length_alter.
Qed.

Lemma apply_results_out now results checks index sts n :
  n ∉ index → apply_results now results checks index sts !! n = sts !! n.
Proof.
  revert checks index sts. induction results as [|r results IH]; intros [|c checks] [|i index] sts Hn; cbn; try done.
  apply not_elem_of_cons in Hn as [Hi Hn]. rewrite IH by done. by apply list_lookup_alter_ne.
Qed.

Lemma apply_results_in now results checks index sts j n r c :
  NoDup index → index !! j = Some n → results !! j = Some r → checks !! j = Some c →
  apply_results now results checks index sts !! n = with_result now r c <$> sts !! n.
Proof.
  intros Hnd. revert j results checks sts. induction Hnd as [|i index Hi Hnd IH];
    intros [|j] [|r' results] [|c' checks] sts Hj Hr Hc; cbn in *; simplify_eq.
  - rewrite apply_results_out by done. apply list_lookup_alter_eq.
  - rewrite (IH j) by done. rewrite list_lookup_alter_ne; [done|].
    intros ->. apply Hi. by apply list_elem_of_lookup_2 in Hj.
Qed.

Lemma at_check_lookup f index sts j n :
  at_check f index sts j !! n = sts !! n ∨ (n ∈ index ∧ at_check f index sts j !! n = f <$> sts !! n).
Proof.
  unfold at_check. destruct (index !! j) as [i|] eqn:Ei; [|by left].
  destruct (decide (i = n)) as [->|Hne]; [right|left; by apply list_lookup_alter_ne].
  split; [by apply list_elem_of_lookup_2 in Ei|]. apply list_lookup_alter_eq.
Qed.

Lemma at_check_length f index sts j : length (at_check f index sts j) = length sts.
Proof. unfold at_check. case_match; [apply length_alter|done]. Qed.

(** Marking shadow denials changes nothing else. *)
Lemma shadow_fold index js sts n :
  length (foldl (at_check mark_shadow index) sts js) = length sts ∧
  (foldl (at_check mark_shadow index) sts js !! n = sts !! n ∨
   (n ∈ index ∧ foldl (at_check mark_shadow index) sts js !! n = mark_shadow <$> sts !! n)).
Proof.
  revert sts. induction js as [|j js IH]; intros sts; cbn [foldl]; [by split; [|left]|].
  destruct (IH (at_check mark_shadow index sts j)) as [Hl Hn]. rewrite at_check_length in Hl. split; [done|].
  destruct (at_check_lookup mark_shadow index sts j n) as [E|[Hin E]]; rewrite E in Hn; [done|]. right.
  split; [done|]. destruct Hn as [Hn|[_ Hn]]; rewrite Hn; [done|]. by destruct (sts !! n).
Qed.

(** What a status shares with the one it was made from. *)
Definition refines (st st' : Status) : Prop :=
  ss_Matched st' = ss_Matched st ∧ ss_LimitID st' = ss_LimitID st ∧ ss_Spec st' = ss_Spec st.

Section one_check.
Context (now : Z) (domain : string) (descs : list Descriptor) (sts : list Status)
  (checks : list Request) (index : list nat) (results : list Decision) (shadow : list nat).
Hypothesis Hc : collect domain 0 descs = (sts, checks, index).
Hypothesis Hlen : length results = length checks.

(** The statuses after the results and the shadow denials are filled in. *)
Definition filled : list Status :=
  foldl (at_check mark_shadow index) (apply_results now results checks index sts) shadow.

(** The status of a descriptor that matches, up to the shadow mark. *)
Lemma filled_matched i desc m :
  descs !! i = Some desc → Resolve domain (ds_Entries desc) = Some m →
  ∃ j r c st, index !! j = Some i ∧ results !! j = Some r ∧ checks !! j = Some c ∧
    rq_Shadow c = ls_Shadow (mt_Spec m) ∧ filled !! i = Some st ∧ refines (matched_status m) st ∧
    ss_Allowed st = d_Allowed r || ls_Shadow (mt_Spec m) ∧ ss_Limit st = d_Limit r ∧
    ss_Remaining st = d_Remaining r.
Proof using All.
  intros Hi Hm. pose proof (collect_spec domain 0 descs) as H. rewrite Hc in H.
  destruct H as (Hsts & Hl & Hnd & Hin & Hout). destruct (Hout i desc m Hi Hm) as [j Hj]. cbn in Hj.
  destruct (Hin j i Hj) as (k & desc' & m' & Hk & Hd & Hm' & Hck). cbn in Hk. subst k. simplify_eq.
  assert (is_Some (results !! j)) as [r Hr].
  { apply lookup_lt_is_Some. rewrite Hlen. by eapply lookup_lt_Some. }
  set (c := check_request domain m (ds_Cost desc)) in *. unfold filled.
  set (sts1 := apply_results _ _ _ _ _).
  assert (E1 : sts1 !! i = Some (with_result now r c (matched_status m))).
  { unfold sts1. rewrite (apply_results_in _ _ _ _ _ j i r c Hnd Hj Hr Hck).
    rewrite Hsts, list_lookup_fmap, Hi. cbn. by rewrite Hm. }
  exists j, r, c. destruct (shadow_fold index shadow sts1 i) as [_ [E|[_ E]]]; rewrite E, E1; eexists; by split_and!.
Qed.

Lemma filled_unmatched i desc :
  descs !! i = Some desc → Resolve domain (ds_Entries desc) = None →
  i ∉ index ∧ filled !! i = Some unmatched_status.
Proof using Hc.
  intros Hi Hm. pose proof (collect_spec domain 0 descs) as H. rewrite Hc in H.
  destruct H as (Hsts & Hl & Hnd & Hin & Hout).
  assert (Hni : i ∉ index).
  { intros [j Hj]%list_elem_of_lookup. destruct (Hin j i Hj) as (k & d & m & Hk & Hd & Hm' & _).
    cbn in Hk. subst k. simplify_eq. }
  split; [done|]. unfold filled. set (sts1 := apply_results _ _ _ _ _).
  destruct (shadow_fold index shadow sts1 i) as [_ [E|[? _]]]; [|done].
  rewrite E. unfold sts1. rewrite apply_results_out by done. rewrite Hsts, list_lookup_fmap, Hi. cbn. by rewrite Hm.
Qed.

Lemma filled_length : length filled = length descs.
Proof using Hc.
  pose proof (collect_spec domain 0 descs) as H. rewrite Hc in H. destruct H as (Hsts & _).
  unfold filled. destruct (shadow_fold index shadow (apply_results now results checks index sts) 0) as [E _].
  by rewrite E, apply_results_length, Hsts, length_fmap.
Qed.

(** The descriptor a check is for. *)
Lemma check_desc j c :
  checks !! j = Some c → ∃ i desc m, index !! j = Some i ∧ descs !! i = Some desc ∧
    Resolve domain (ds_Entries desc) = Some m ∧ rq_Shadow c = ls_Shadow (mt_Spec m).
Proof using Hc.
  intros Hj. pose proof (collect_spec domain 0 descs) as H. rewrite Hc in H.
  destruct H as (Hsts & Hl & Hnd & Hin & Hout).
  assert (is_Some (index !! j)) as [i Hi].
  { apply lookup_lt_is_Some. rewrite <-Hl. by eapply lookup_lt_Some. }
  destruct (Hin j i Hi) as (k & d & m & Hk & Hd & Hm & Hck). cbn in Hk. subst k. simplify_eq.
  by exists i, d, m.
Qed.

Lemma index_NoDup : NoDup index.
Proof using Hc. pose proof (collect_spec domain 0 descs) as H. rewrite Hc in H. apply H. Qed.
End one_check.

Context (json : reservation → string) (b64 : string → string) (hmac : string → string → string)
  (Secret : string) {S : Type} `{!Limiter S}.

#[local] Notation check := (DecideService.check sha16 cfg json b64 hmac Secret).

(** What [check] answers, once the limits have been reserved. *)
Lemma check_shape (s s' : S) now signed domain descs reserve out :
  check s now signed domain descs reserve = (Ok out, s') →
  length (oc_Statuses out) = length descs ∧
  ∀ i desc st, descs !! i = Some desc → oc_Statuses out !! i = Some st →
    match Resolve domain (ds_Entries desc) with
    | None => st = unmatched_status
    | Some m => refines (matched_status m) st ∧
        ss_Allowed st = oc_Allowed out || ls_Shadow (mt_Spec m)
    end.
Proof.
  unfold DecideService.check. destruct (collect domain 0 descs) as [[sts checks] index] eqn:Hc.
  destruct (Reserve s checks) as [[rv|[e r]] s1] eqn:Er; [|done]. apply Reserve_shape in Er as [Hlen Hrv].
  change (foldl _ _ (rv_ShadowDenied rv)) with (filled now sts checks index (rv_Results rv) (rv_ShadowDenied rv)).
  set (sts2 := filled _ _ _ _ _ _).
  pose proof (filled_matched now _ _ _ _ _ (rv_Results rv) (rv_ShadowDenied rv) Hc Hlen) as Hm.
  pose proof (filled_unmatched now _ _ _ _ _ (rv_Results rv) (rv_ShadowDenied rv) Hc) as Hu. fold sts2 in Hm, Hu.
  assert (Hlen2 : length sts2 = length descs) by (by eapply filled_length).
  destruct (rv_Allowed rv) eqn:Ea; cbn [negb andb].
  - intros [= <- <-]. cbn. split; [done|]. intros i desc st Hi Hst.
    destruct (Resolve domain (ds_Entries desc)) as [m|] eqn:Em.
    + destruct (Hm i desc m Hi Em) as (j & r & c & st' & Hj & Hr & Hck & Hs & Hst' & Href & Hal & _).
      simplify_eq. split; [done|]. rewrite Hal.
      destruct (ls_Shadow (mt_Spec m)) eqn:Esh; [by rewrite orb_true_r|]. by rewrite (Hrv j c r).
    + destruct (Hu i desc Hi Em) as [_ E]. by simplify_eq.
  - destruct Hrv as (Hf & j0 & req & Hbi & Hck0 & Hs0 & Hr0).
    rewrite Hbi, (proj2 (Z.leb_le 0 (Z.of_nat j0))), Nat2Z.id by lia. intros [= <- <-]. cbn.
    rewrite at_check_length. split; [done|].
    destruct (check_desc _ _ _ _ _ Hc j0 req Hck0) as (i0 & desc0 & m0 & Hi0 & Hd0 & Hm0 & Hsh0).
    rewrite Hs0 in Hsh0. unfold at_check. rewrite Hi0.
    intros i desc st Hi Hst; destruct (Resolve domain (ds_Entries desc)) as [m|] eqn:Em.
    + destruct (Hm i desc m Hi Em) as (j & r & c & st' & Hj & Hr & Hck & Hs & Hst' & Href & Hal & _).
      pose proof (Forall_lookup_1 _ _ _ _ Hf Hr) as Hd. cbn in Hd. rewrite Hd in Hal. cbn in Hal.
      destruct (decide (i0 = i)) as [->|Hne].
      * rewrite list_lookup_alter_eq, Hst' in Hst. cbn in Hst. simplify_eq. split; [done|]. by rewrite <-Hsh0.
      * rewrite list_lookup_alter_ne in Hst by done. by simplify_eq.
    + destruct (Hu i desc Hi Em) as [Hni E]. rewrite list_lookup_alter_ne in Hst; [by simplify_eq|].
      intros ->. apply Hni. by apply list_elem_of_lookup_2 in Hi0.
Qed.

(** What the caller is told.  Every descriptor has a status: one that no
    limit matches is allowed; one that matches names its limit, and is reported
    allowed exactly when the whole request is or when the limit is in shadow
    mode.  When the request is denied, one enforced limit denied it, and the
    retry delay is the time until that limit has capacity again. *)
Theorem check_statuses (s s' : S) (now : Z) (signed : Z * string) (domain : string)
  (descs : list Descriptor) (reserve : bool) (out : Outcome) :
  check s now signed domain descs reserve = (Ok out, s') →
  length (oc_Statuses out) = length descs ∧
  (∀ i desc st, descs !! i = Some desc → oc_Statuses out !! i = Some st →
     match Resolve domain (ds_Entries desc) with
     | None => st = unmatched_status
     | Some m => refines (matched_status m) st ∧
         ss_Allowed st = oc_Allowed out || ls_Shadow (mt_Spec m)
     end) ∧
  (oc_Allowed out = false →
     ∃ i desc m d, descs !! i = Some desc ∧ Resolve domain (ds_Entries desc) = Some m ∧
       ls_Shadow (mt_Spec m) = false ∧ d_Allowed d = false ∧
       oc_RetryAfter out = Until (Decision_RetryAt d) now ∧
       ∃ st, oc_Statuses out !! i = Some st ∧ ss_Limit st = d_Limit d ∧ ss_Remaining st = d_Remaining d).
Proof.
  intros E. destruct (check_shape _ _ _ _ _ _ _ _ E) as [Hl Hst]. split; [done|]. split; [done|].
  clear Hl Hst. revert E. unfold DecideService.check.
  destruct (collect domain 0 descs) as [[sts checks] index] eqn:Hc.
  destruct (Reserve s checks) as [[rv|[e r]] s1] eqn:Er; [|done]. apply Reserve_shape in Er as [Hlen Hrv].
  destruct (rv_Allowed rv) eqn:Ea; cbn [negb andb]; [by intros [= <- <-]|].
  destruct Hrv as (Hf & j0 & req & Hbi & Hck0 & Hs0 & Hr0).
  rewrite Hbi, (proj2 (Z.leb_le 0 (Z.of_nat j0))), Nat2Z.id by lia. intros [= <- <-] _. cbn.
  destruct (check_desc _ _ _ _ _ Hc j0 req Hck0) as (i0 & desc0 & m0 & Hi0 & Hd0 & Hm0 & Hsh0).
  unfold at_check at 1. rewrite Hi0. exists i0, desc0, m0, (rv_Binding rv). rewrite list_lookup_alter_eq.
  destruct (filled_matched now _ _ _ _ _ (rv_Results rv) (rv_ShadowDenied rv) Hc Hlen i0 desc0 m0 Hd0 Hm0)
    as (j & r & c & st' & Hj & Hr & Hck & Hs & Hst' & Href & Hal & Hl & Hrem).
  assert (j = j0) as -> by (eapply NoDup_lookup; [by eapply index_NoDup|done..]).
  rewrite Hr0 in Hr. injection Hr as <-. pose proof (Forall_lookup_1 _ _ _ _ Hf Hr0) as Hd.
  split_and!; try done; [congruence|]. unfold filled in Hst'. rewrite Hst'. cbn. by eexists.
Qed.
End statuses.

(** ** Waiting for quota *)

Section waiting.
Context (sha16 : string → string) (cfg : GatewayConfig) (json : reservation → string)
  (b64 : string → string) (hmac : string → string → string) (Secret : string)
  {S : Type} `{!Limiter S}.

#[local] Notation Check := (DecideService.Check sha16 cfg json b64 hmac Secret).
#[local] Notation Check_loop := (DecideService.Check_loop sha16 cfg json b64 hmac Secret).
#[local] Notation check := (DecideService.check sha16 cfg json b64 hmac Secret).

(** Clock readings of the iterations: the clock does not go back, and a wait of
    at least [minRetry] lies between two attempts. *)
Fixpoint spaced (t : Z) (ticks : list tick) : Prop :=
  match ticks with
  | [] => True
  | tk :: ticks => t ≤ tk_test tk ∧ spaced (tk_test tk + minRetry) ticks
  end.

(** How a call ends: with its last attempt, which admitted the request or left
    no time for another; with an error; or with the caller's context. *)
Definition ended (deadline maxWait : Z) (r : checked) : Prop :=
  match r with
  | Checked out => oc_Allowed out = true ∨ maxWait ≤ 0 ∨
      ∃ now, deadline < now + Z.max (oc_RetryAfter out) minRetry
  | CheckErr _ => True
  | CheckCtx out => oc_Allowed out = false
  end.

Lemma Check_loop_returns s ticks t deadline domain descs maxWait reserve :
  spaced t ticks → t ≤ deadline → (deadline - t) `div` minRetry < Z.of_nat (length ticks) →
  ∃ r s', Check_loop s ticks deadline domain descs maxWait reserve = (Some r, s') ∧ ended deadline maxWait r.
Proof.
  revert s t. induction ticks as [|tk ticks IH]; intros s t Hsp Ht Hlen; cbn [DecideService.Check_loop].
  { cbn in Hlen. pose proof (Z.div_pos (deadline - t) minRetry ltac:(lia) ltac:(done)). lia. }
  destruct Hsp as [Htest Hsp]. destruct (check s _ _ domain descs reserve) as [[out|e] s1]; [|by eexists _, _].
  destruct (oc_Allowed out) eqn:Ea; cbn [orb]; [eexists _, _; split; [done|by left]|].
  destruct (Z.leb_spec maxWait 0); [eexists _, _; split; [done|right; by left]|].
  destruct (Z.ltb_spec deadline (tk_test tk + Z.max (oc_RetryAfter out) minRetry)).
  { eexists _, _. split; [done|]. right. right. by exists (tk_test tk). }
  destruct (tk_done tk); [by eexists _, _|].
  apply (IH s1 (tk_test tk + minRetry)); [done|lia|].
  rewrite length_cons in Hlen. apply Z.div_lt_upper_bound; [done|].
  pose proof (Z.mul_succ_div_gt (deadline - t) minRetry ltac:(done)). unfold minRetry, Millisecond in *. nia.
Qed.

End waiting.

(** ** Settlement *)

(** The counter of a descriptor's limit. *)
Definition item_ref (domain : string) (it : reservationItem) : Ref :=
  mkRef Scope domain (it_Limit it) (it_Subject it) "".

Definition spec_of (l : LimitSpec) : Spec :=
  mkSpec (ls_Algorithm l) (ls_Quota l) (ls_Window l) (ls_Rate l).

Definition item_return (domain : string) (it : reservationItem) (spec : LimitSpec) (delta : Z) : Return :=
  {| ret_Ref := item_ref domain it; ret_Spec := spec_of spec; ret_Parent := None;
     ret_WindowID := it_Window it; ret_ParentWindowID := 0; ret_Tokens := delta |}.

(** What the actual cost leaves of an item's estimate. *)
Definition left_over (it : reservationItem) (actual : Z) : Z := (it_Estimate it - Z.max actual 0)%i64.

(** A return that names another base key leaves a counter alone. *)
Lemma return_input_frame m now inp b w :
  is_base (ri_key inp) → ri_parentKey inp = "" → ri_key inp ≠ b →
  vals (return_input m now inp) !! winKey b w = vals m !! winKey b w.
Proof.
  intros Hb Hp Hne. unfold return_input. rewrite Hp. cbn [negb andb String.eqb].
  destruct (negb _ && _); [done|]. set (m1 := if (ri_dedupeKey inp =? "")%string then m else _).
  assert (Hm1 : vals m1 = vals m) by (unfold m1; by destruct (ri_dedupeKey inp =? "")%string).
  destruct (ri_algo inp =? TokenBucket)%string.
  - rewrite vals_set_ne by (by apply winKey_not_base). by rewrite Hm1.
  - destruct (_ =? ri_wid inp); [|by rewrite Hm1]. rewrite Mem_credit_ne; [by rewrite Hm1|].
    by intros [? _]%winKey_inj.
Qed.

Lemma Mem_Return_app m now dedupe rs1 rs2 :
  Mem_Return m now dedupe (rs1 ++ rs2) =
  match Mem_Return m now dedupe rs1 with
  | (None, m) => Mem_Return m now dedupe rs2
  | (Some e, m) => (Some e, m)
  end.
Proof.
  revert m. induction rs1 as [|r rs1 IH]; intros m; cbn [app Mem_Return]; [done|].
  destruct (prepareReturn r dedupe); [apply IH|done].
Qed.

(** The counters of two descriptor limits of one domain. *)
Lemma descriptor_key_inj domain l1 s1 a1 l2 s2 a2 :
  l1 ≠ "" → l2 ≠ "" → ¬ has_char "}" s1 → ¬ has_char "}" s2 →
  Algo_Valid a1 = true → Algo_Valid a2 = true →
  Ref_Key (mkRef Scope domain l1 s1 "") a1 = Ref_Key (mkRef Scope domain l2 s2 "") a2 →
  l1 = l2 ∧ s1 = s2.
Proof.
  intros Hl1%String.eqb_neq Hl2%String.eqb_neq Hs1 Hs2 Ha1%Algo_Or_no_colon Ha2%Algo_Or_no_colon.
  rewrite !Ref_Key_shape. unfold key_of, tag_of, rest_of, limit_name. cbn [ref_Parent ref_Limit ref_Scope
    ref_Service ref_Subject String.eqb]. rewrite Hl1, Hl2. intros E.
  do 5 apply append_inj_l in E. apply (f_equal chars) in E. rewrite !chars_app in E. cbn [chars app] in E.
  apply split_first in E as [Es E]; [|done..]. injection E as E. apply split_last in E as [El _]; [|done..].
  by apply (inj chars) in Es, El.
Qed.

Section settle.
Context (cfg : GatewayConfig) (sha64 : string → Z) (sha8 : string → string) (validKey : string → bool)
  (store : TierStore).

#[local] Notation ReturnLeases := (Hub.ReturnLeases sha64 sha8 validKey cfg store).

(** The limit of an item, as the hub finds it. *)
Definition item_spec (domain : string) (it : reservationItem) : option LimitSpec :=
  Find cfg domain (it_Limit it).

(** An item the hub can settle: its caller key is valid, its limit exists. *)
Definition item_ok (domain : string) (it : reservationItem) : Prop :=
  validKey (it_Subject it) = true ∧ ¬ has_char "}" (it_Subject it) ∧
  ∃ spec, item_spec domain it = Some spec ∧ Spec_validate (spec_of spec) = None.

(** What the hub gives back for a list of items. *)
Definition item_returns (domain : string) (its : list reservationItem) (actual : Z) : list Return :=
  omap (λ it, if left_over it actual =? 0 then None
              else (λ spec, item_return domain it spec (left_over it actual)) <$> item_spec domain it) its.

Lemma Find_name domain l spec : Find cfg domain l = Some spec → l ≠ "".
Proof. unfold Find. intros H ->. by destruct (findDomain cfg domain). Qed.

Lemma lease_return_item (hub : QuotaLeaseServer) domain it spec delta :
  validKey (it_Subject it) = true → item_spec domain it = Some spec →
  lease_return_of sha64 sha8 validKey cfg store hub
    (mkLeaseReturn Scope domain (it_Subject it) (it_Limit it) "" "" (it_Window it) 0 delta) =
  Some (item_return domain it spec delta).
Proof.
  intros Hv Hs. unfold lease_return_of, resolve, resolveDescriptor. cbn. rewrite Hv. cbn.
  unfold item_spec in Hs. by rewrite Hs.
Qed.

Lemma settle_returns_resolved (hub : QuotaLeaseServer) r actual :
  Forall (item_ok (rs_Domain r)) (rs_Items r) →
  omap (lease_return_of sha64 sha8 validKey cfg store hub) (settle_returns r actual) =
  item_returns (rs_Domain r) (rs_Items r) actual.
Proof.
  unfold settle_returns, item_returns. induction 1 as [|it its (Hv & _ & spec & Hs & _) _ IH]; [done|].
  cbn [omap list_omap]. change (it_Estimate it - Z.max actual 0)%i64 with (left_over it actual).
  destruct (left_over it actual =? 0); [done|]. rewrite Hs. cbn [fmap option_fmap option_map omap list_omap].
  rewrite (lease_return_item _ _ _ _ _ Hv Hs). f_equal. apply IH.
Qed.

Lemma prepare_item domain it spec delta dedupe :
  Spec_validate (spec_of spec) = None → dedupe ≠ "" →
  ∃ inp, prepareReturn (item_return domain it spec delta) dedupe = Ok inp ∧ ri_parentKey inp = "" ∧
    is_base (ri_key inp) ∧ ri_key inp = Ref_Key (item_ref domain it) (ls_Algorithm spec) ∧
    ri_algo inp = Algo_Or (ls_Algorithm spec) ∧ ri_wid inp = it_Window it ∧ ri_tokens inp = delta ∧
    ri_win inp = windowMs (spec_of spec) ∧
    ri_dedupeKey inp = Ref_Key (item_ref domain it) (ls_Algorithm spec) +:+ ":ret:" +:+ dedupe.
Proof.
  intros Hv Hd. destruct (prepareReturn (item_return domain it spec delta) dedupe) as [inp|e] eqn:E.
  - exists inp. pose proof (prepareReturn_facts _ _ _ E) as (Hb & Ht & Hk & Ha & Hw & Hdk & _).
    unfold prepareReturn in E. cbn in E. rewrite Hv in E. cbn in E. injection E as <-. cbn in *.
    rewrite (proj2 (String.eqb_neq _ _) Hd). split_and!; done.
  - unfold prepareReturn in E. cbn in E. by rewrite Hv in E.
Qed.

Lemma spec_valid_algo spec : Spec_validate (spec_of spec) = None → Algo_Valid (ls_Algorithm spec) = true.
Proof. intros H. by apply Spec_validate_None in H as [? _]. Qed.

Lemma append_inj_r (a b x : string) : a +:+ x = b +:+ x → a = b.
Proof.
  intros E. apply (f_equal chars) in E. rewrite !chars_app in E. apply app_inv_tail in E. by apply (inj chars).
Qed.

(** The key of an item's counter, and the mark its settlement leaves. *)
Definition item_key (domain : string) (it : reservationItem) (spec : LimitSpec) : string :=
  Ref_Key (item_ref domain it) (ls_Algorithm spec).
Definition item_mark (domain : string) (it : reservationItem) (spec : LimitSpec) (dedupe : string) : string :=
  item_key domain it spec +:+ ":ret:" +:+ dedupe.

Definition same_limit (it it' : reservationItem) : Prop :=
  it_Limit it = it_Limit it' ∧ it_Subject it = it_Subject it'.

(** Settling other items leaves an item's counter and mark alone. *)
Lemma settle_others domain it spec its m now dedupe actual w :
  dedupe ≠ "" → item_ok domain it → item_spec domain it = Some spec → Forall (item_ok domain) its →
  Forall (λ it', ¬ same_limit it it') its →
  ∃ m', Mem_Return m now dedupe (item_returns domain its actual) = (None, m') ∧
    vals m' !! winKey (item_key domain it spec) w = vals m !! winKey (item_key domain it spec) w ∧
    (item_mark domain it spec dedupe ∈ deduped m' ↔ item_mark domain it spec dedupe ∈ deduped m).
Proof.
  intros Hd (_ & Hbr & spec' & Hs' & Hv) Hs Hok Hne. rewrite Hs in Hs'. injection Hs' as <-.
  assert (Hal : Algo_Valid (ls_Algorithm spec) = true) by (by apply spec_valid_algo).
  revert m. induction Hok as [|it' its (_ & Hbr' & sp & Hsp & Hv') _ IH]; intros m; [by exists m|].
  apply Forall_cons in Hne as [Hne1 Hne]. specialize (IH Hne). cbn [item_returns omap list_omap].
  destruct (left_over it' actual =? 0); [apply IH|]. rewrite Hsp. cbn [fmap option_fmap option_map Mem_Return].
  destruct (prepare_item domain it' sp (left_over it' actual) dedupe Hv' Hd)
    as (inp & -> & Hpk & Hb & Hk & _ & _ & _ & _ & Hdk).
  assert (Hkey : ri_key inp ≠ item_key domain it spec).
  { rewrite Hk. intros E. apply descriptor_key_inj in E as [? ?]; try done.
    - by apply Hne1.
    - by eapply Find_name.
    - by eapply Find_name.
    - by apply spec_valid_algo. }
  destruct (IH (return_input m now inp)) as (m' & Hm' & Hvals & Hmark). exists m'. split; [done|].
  rewrite Hvals, return_input_frame by done. split; [done|]. rewrite Hmark, return_input_marks.
  case_match; [done|]. rewrite elem_of_union, elem_of_singleton, Hdk. unfold item_mark.
  split; [|by right]. intros [E%append_inj_r|?]; [|done]. by rewrite Hk in Hkey.
Qed.
(** The counter of an item that is settled, after its own return. *)
Lemma settle_own domain it spec m now dedupe actual u :
  let key := winKey (item_key domain it spec) (it_Window it) in
  let delta := left_over it actual in
  dedupe ≠ "" → Spec_validate (spec_of spec) = None → item_spec domain it = Some spec →
  Algo_Or (ls_Algorithm spec) ≠ TokenBucket → (now / windowMs (spec_of spec))%i64 = it_Window it →
  holds m key u → 0 ≤ u → u + Z.max 0 (- delta) ≤ f64_max_int →
  item_mark domain it spec dedupe ∉ deduped m →
  ∃ m', Mem_Return m now dedupe (item_returns domain [it] actual) = (None, m') ∧
    holds m' key (Z.max 0 (u - delta)).
Proof.
  intros key delta Hd Hv Hs Htb Hwin Hu Hu0 Hmax Hmark. unfold item_returns. cbn [omap list_omap]. fold delta.
  destruct (Z.eqb_spec delta 0) as [E|Hne].
  { exists m. split; [done|]. by replace (Z.max 0 (u - delta)) with u by lia. }
  rewrite Hs. cbn [fmap option_fmap option_map Mem_Return].
  destruct (prepare_item domain it spec delta dedupe Hv Hd)
    as (inp & -> & Hpk & Hb & Hk & Ha & Hw & Ht & Hwn & Hdk).
  eexists. split; [done|]. unfold return_input. rewrite Hpk, Hdk. fold (item_key domain it spec).
  fold (item_mark domain it spec dedupe). rewrite (bool_decide_eq_false_2 _ Hmark), andb_false_r. cbn [negb andb String.eqb].
  rewrite Ha, (proj2 (String.eqb_neq _ _) Htb), Hwn, Hw, Hwin, Z.eqb_refl, Hk, Ht.
  fold (item_key domain it spec). fold key. unfold Mem_credit.
  assert (Hu' : ∀ b : bool, holds (if b then m else mark_deduped (item_mark domain it spec dedupe) m) key u)
    by (by intros []).
  rewrite (holds_getInt _ _ _ (Hu' _)). pose proof (proj2 Hu) as Hsm.
  replace (u - Z.min delta u)%i64 with (Z.max 0 (u - delta)); [apply holds_set; bounds|].
  unfold i64_sub. rewrite wrap64_small; [lia|bounds].
Qed.

Lemma item_returns_app domain its1 its2 actual :
  item_returns domain (its1 ++ its2) actual = item_returns domain its1 actual ++ item_returns domain its2 actual.
Proof. apply omap_app. Qed.

(** One item of a reservation, wherever it stands. *)
Lemma settle_item domain it spec its m now dedupe actual u :
  let key := winKey (item_key domain it spec) (it_Window it) in
  dedupe ≠ "" → Forall (item_ok domain) its → it ∈ its →
  NoDup ((λ it, (it_Limit it, it_Subject it)) <$> its) → item_spec domain it = Some spec →
  Algo_Or (ls_Algorithm spec) ≠ TokenBucket → (now / windowMs (spec_of spec))%i64 = it_Window it →
  holds m key u → 0 ≤ u → u + Z.max 0 (- left_over it actual) ≤ f64_max_int →
  item_mark domain it spec dedupe ∉ deduped m →
  ∃ m', Mem_Return m now dedupe (item_returns domain its actual) = (None, m') ∧
    holds m' key (Z.max 0 (u - left_over it actual)).
Proof.
  intros key Hd Hok [l1 [l2 ->]]%list_elem_of_split Hnd Hs Htb Hwin Hu Hu0 Hmax Hmark.
  rewrite fmap_app, fmap_cons in Hnd. apply NoDup_app in Hnd as (_ & Hd1 & [Hd2 _]%NoDup_cons).
  apply Forall_app in Hok as [Hok1 [Hit Hok2]%Forall_cons].
  assert (Hne1 : Forall (λ it', ¬ same_limit it it') l1).
  { apply Forall_forall. intros it' Hin [El Es]. apply (Hd1 (it_Limit it', it_Subject it')).
    - apply list_elem_of_fmap. by exists it'.
    - rewrite El, Es. left. }
  assert (Hne2 : Forall (λ it', ¬ same_limit it it') l2).
  { apply Forall_forall. intros it' Hin [El Es]. apply Hd2, list_elem_of_fmap. exists it'. by rewrite El, Es. }
  rewrite (cons_middle it l1 l2), !item_returns_app, Mem_Return_app.
  destruct (settle_others domain it spec l1 m now dedupe actual (it_Window it)) as (m1 & -> & Hv1 & Hm1); [done..|]. rewrite Mem_Return_app.
  destruct (settle_own domain it spec m1 now dedupe actual u) as (m2 & -> & Hm2); try done.
  { by destruct Hit as (_ & _ & sp & Hsp & ?); simplify_eq. }
  { by eapply holds_vals. }
  { by rewrite Hm1. }
  destruct (settle_others domain it spec l2 m2 now dedupe actual (it_Window it)) as (m3 & -> & Hv3 & _); [done..|].
  exists m3. split; [done|]. by eapply holds_vals.
Qed.
End settle.

Section tokens.
Context (cfg : GatewayConfig) (sha64 : string → Z) (sha8 : string → string) (validKey : string → bool)
  (store : TierStore) (json : reservation → string) (unjson : string → option reservation)
  (b64 : string → string) (unb64 : string → option string) (hmac : string → string → string)
  (Secret : string).

#[local] Notation token := (DecideService.token json b64 hmac Secret).
#[local] Notation open_token := (DecideService.open_token unjson unb64 hmac Secret).
#[local] Notation Settle edge :=
  (Settle_token cfg unjson unb64 hmac Secret edge sha64 sha8 validKey store).

(** The encodings, on one reservation: base64 and JSON decode what they
    encoded, and base64 has no dot. *)
Record encodes (r : reservation) : Prop := {
  enc_b64 : ∀ s, unb64 (b64 s) = Some s;
  enc_dot : ∀ s, ¬ has_char "." (b64 s);
  enc_json : unjson (json r) = Some r;
}.

Lemma Cut_first c s t : ¬ has_char c s → Cut c (s +:+ String c t) = (s, t, true).
Proof.
  unfold has_char. induction s as [|d s IH]; cbn [chars]; intros Hs.
  - change ("" +:+ String c t) with (String c t). cbn. by rewrite Ascii.eqb_refl.
  - apply not_elem_of_cons in Hs as [Hd Hs]. change (String d s +:+ String c t) with (String d (s +:+ String c t)).
    cbn. rewrite (proj2 (Ascii.eqb_neq _ _)) by congruence. by rewrite IH.
Qed.

(** A replica with the secret opens what a replica with the secret signed. *)
Lemma open_own_token r now :
  encodes r → Secret ≠ "" → now `div` Second ≤ rs_Exp r → open_token (token r) now = Some r.
Proof.
  intros [Hb Hdot Hj] Hs%String.eqb_neq Hexp. unfold DecideService.open_token, DecideService.token, mac.
  change ("." +:+ ?x) with (String "." x). rewrite Cut_first by done.
  rewrite Hb, Hs, String.eqb_refl. cbn. rewrite Hb, Hj. by rewrite (proj2 (Z.ltb_ge _ _) Hexp).
Qed.

Definition settle_dedupe (cn : option string) (edge : string) (r : reservation) : string :=
  edgeIdentity cn edge +:+ ":" +:+ "settle-" +:+ rs_Nonce r.

Lemma settle_dedupe_ne cn edge r : settle_dedupe cn edge r ≠ "".
Proof.
  unfold settle_dedupe. intros E. apply (f_equal chars) in E. rewrite !chars_app in E.
  by destruct (chars (edgeIdentity cn edge)).
Qed.

(** What settling a reservation does to the hub. *)
Lemma Settle_ledger edge (hub : QuotaLeaseServer) now nowMs cn tok r actual :
  open_token tok now = Some r → Forall (item_ok cfg validKey (rs_Domain r)) (rs_Items r) →
  Settle edge hub now nowMs cn tok actual =
  let '(e, m) := Mem_Return (qs_ledger hub) nowMs (settle_dedupe cn edge r)
                   (item_returns cfg (rs_Domain r) (rs_Items r) actual) in
  (option_map (λ e, EHub (mkStatus Unavailable (error_Error e))) e, mkServer m (qs_region hub)).
Proof.
  intros Ho Hok. unfold Settle_token. rewrite Ho.
  pose proof (settle_returns_resolved cfg sha64 sha8 validKey store hub r actual Hok) as Hr.
  unfold ReturnLeases, return_dedupe, settle_request. cbn [rl_Returns rl_Dedupe rl_EdgeId]. rewrite Hr.
  destruct (settle_returns r actual) as [|x xs] eqn:E.
  - cbn in Hr. rewrite <-Hr. by destruct hub.
  - assert (Hd : ("settle-" +:+ rs_Nonce r =? "")%string = false) by done. rewrite Hd.
    fold (settle_dedupe cn edge r). destruct (Mem_Return _ _ _ _) as [[e|] m]; done.
Qed.


(** at another replica the same settlement is applied again.  The mark that
    makes a settlement count once carries the identity of the replica that sent
    it, so that two replicas that share the secret but not the identity both
    move the counter by the difference. *)
Theorem settle_counts_per_replica (edge1 edge2 : string) (hub : QuotaLeaseServer) (now1 ms1 now2 ms2 : Z)
  (cn1 cn2 : option string) (r : reservation) (it : reservationItem) (spec : LimitSpec) (actual u : Z) :
  let key := item_key (rs_Domain r) it spec in
  let delta := it_Estimate it - Z.max actual 0 in
  edgeIdentity cn1 edge1 ≠ edgeIdentity cn2 edge2 →
  encodes r → Secret ≠ "" → now1 `div` Second ≤ rs_Exp r → now2 `div` Second ≤ rs_Exp r →
  rs_Items r = [it] → item_ok cfg validKey (rs_Domain r) it →
  item_spec cfg (rs_Domain r) it = Some spec → Algo_Or (ls_Algorithm spec) ≠ TokenBucket →
  (ms1 / windowMs (spec_of spec))%i64 = it_Window it → (ms2 / windowMs (spec_of spec))%i64 = it_Window it →
  holds (qs_ledger hub) (winKey key (it_Window it)) u → 0 ≤ u →
  1 ≤ it_Estimate it ≤ f64_max_int → actual ≤ f64_max_int → u + 2 * Z.max 0 (- delta) ≤ f64_max_int →
  key +:+ ":ret:" +:+ settle_dedupe cn1 edge1 r ∉ deduped (qs_ledger hub) →
  key +:+ ":ret:" +:+ settle_dedupe cn2 edge2 r ∉ deduped (qs_ledger hub) →
  ∃ hub1 hub2, Settle edge1 hub now1 ms1 cn1 (token r) actual = (None, hub1) ∧
    Settle edge2 hub1 now2 ms2 cn2 (token r) actual = (None, hub2) ∧
    holds (qs_ledger hub2) (winKey key (it_Window it)) (Z.max 0 (Z.max 0 (u - delta) - delta)).
Proof.
  intros key delta Hid Henc Hsec He1 He2 Hits Hok Hs Htb Hw1 Hw2 Hu Hu0 Hest Hact Hmax Hm1 Hm2.
  assert (Hlo : left_over it actual = delta).
  { unfold left_over, i64_sub, delta. apply wrap64_small. bounds. }
  assert (Hv : Spec_validate (spec_of spec) = None) by (by destruct Hok as (_ & _ & sp & Hsp & ?); simplify_eq).
  destruct (settle_own cfg (rs_Domain r) it spec (qs_ledger hub) ms1 (settle_dedupe cn1 edge1 r) actual u)
    as (m1 & E1 & Hu1); try done; [apply settle_dedupe_ne|rewrite Hlo; lia|]. rewrite Hlo in Hu1.
  assert (Hmk : key +:+ ":ret:" +:+ settle_dedupe cn2 edge2 r ∉ deduped m1).
  { unfold item_returns in E1. cbn [omap list_omap] in E1. destruct (left_over it actual =? 0).
    { injection E1 as <-. done. }
    rewrite Hs in E1. cbn [fmap option_fmap option_map Mem_Return] in E1.
    destruct (prepare_item (rs_Domain r) it spec (left_over it actual) (settle_dedupe cn1 edge1 r) Hv
      (settle_dedupe_ne _ _ _)) as (inp & Hp & _ & _ & _ & _ & _ & _ & _ & Hdk).
    rewrite Hp in E1. injection E1 as <-. rewrite return_input_marks. case_match; [done|].
    rewrite elem_of_union, elem_of_singleton, Hdk. fold (item_key (rs_Domain r) it spec).
    intros [E|?]; [|done]. unfold key in E. do 2 apply append_inj_l in E. apply append_inj_r in E. done. }
  destruct (settle_own cfg (rs_Domain r) it spec m1 ms2 (settle_dedupe cn2 edge2 r) actual (Z.max 0 (u - delta)))
    as (m2 & E2 & Hu2); try done; [apply settle_dedupe_ne|lia|rewrite Hlo; lia|]. rewrite Hlo in Hu2.
  exists (mkServer m1 (qs_region hub)), (mkServer m2 (qs_region hub)).
  assert (Hall : Forall (item_ok cfg validKey (rs_Domain r)) (rs_Items r)) by (rewrite Hits; by constructor).
  rewrite (Settle_ledger _ _ _ _ _ _ r) by (done || by apply open_own_token). rewrite Hits, E1. split; [done|].
  rewrite (Settle_ledger _ _ _ _ _ _ r) by (done || by apply open_own_token). rewrite Hits. cbn [qs_ledger]. by rewrite E2.
Qed.
Lemma settle_no_error domain l m now dedupe actual :
  dedupe ≠ "" → Forall (item_ok cfg validKey domain) l →
  ∃ m', Mem_Return m now dedupe (item_returns cfg domain l actual) = (None, m').
Proof.
  intros Hd Hok. revert m. induction Hok as [|it l (_ & _ & sp & Hsp & Hvs) _ IH]; intros m; [by eexists|].
  cbn [item_returns omap list_omap]. destruct (left_over it actual =? 0); [apply IH|]. rewrite Hsp.
  cbn [fmap option_fmap option_map Mem_Return].
  destruct (prepare_item domain it sp (left_over it actual) dedupe Hvs Hd) as (inp & -> & _). apply IH.
Qed.

(** The second return to one counter within a settlement finds the mark of the
    first. *)
Lemma settle_second_item domain it1 it2 l m now dedupe actual :
  dedupe ≠ "" → item_ok cfg validKey domain it1 → same_limit it1 it2 → left_over it1 actual ≠ 0 →
  Forall (item_ok cfg validKey domain) l →
  ∃ m', Mem_Return m now dedupe (item_returns cfg domain (it1 :: l) actual) = (None, m') ∧
    Mem_Return m' now dedupe (item_returns cfg domain [it2] actual) = (None, m').
Proof.
  intros Hd (_ & Hbr & spec & Hs & Hv) [El Esb] Hne%Z.eqb_neq Hok.
  assert (Hs2 : item_spec cfg domain it2 = Some spec) by (unfold item_spec in *; by rewrite <-El).
  assert (Hkeys : item_key domain it2 spec = item_key domain it1 spec)
    by (unfold item_key, item_ref; by rewrite El, Esb).
  change (it1 :: l) with ([it1] ++ l). rewrite item_returns_app, Mem_Return_app.
  unfold item_returns at 1. cbn [omap list_omap]. rewrite Hne, Hs. cbn [fmap option_fmap option_map Mem_Return].
  destruct (prepare_item domain it1 spec (left_over it1 actual) dedupe Hv Hd) as (inp & -> & _ & _ & _ & _ & _ & _ & _ & Hdk).
  set (m1 := return_input m now inp).
  assert (Hmark : item_mark domain it1 spec dedupe ∈ deduped m1).
  { unfold m1. rewrite return_input_marks, Hdk. fold (item_key domain it1 spec). fold (item_mark domain it1 spec dedupe).
    assert ((item_mark domain it1 spec dedupe =? "")%string = false) as -> by done. by apply elem_of_union_l, elem_of_singleton. }
  destruct (settle_no_error domain l m1 now dedupe actual Hd Hok) as [m2 E2].
  exists m2. split; [done|]. unfold item_returns. cbn [omap list_omap].
  destruct (left_over it2 actual =? 0); [done|]. rewrite Hs2. cbn [fmap option_fmap option_map Mem_Return].
  destruct (prepare_item domain it2 spec (left_over it2 actual) dedupe Hv Hd) as (inp2 & -> & _ & _ & _ & _ & _ & _ & _ & Hdk2).
  rewrite return_input_seen; [done| |]; rewrite Hdk2; fold (item_key domain it2 spec); rewrite Hkeys.
  - done.
  - apply (f_equal snd) in E2. cbn in E2. rewrite <-E2. by apply Mem_Return_deduped.
Qed.

(** Of two items of a reservation charged to the same limit and caller
    (two descriptors of one request that resolve to one counter, each charged
    when the request was admitted) only the first is settled: with a difference
    to settle on the first, the settlement is exactly that of the reservation
    without the second. *)
Theorem settle_skips_repeated_limit (edge : string) (hub : QuotaLeaseServer) (now nowMs : Z)
  (cn : option string) (r r' : reservation) (it1 it2 : reservationItem) (l1 l2 l3 : list reservationItem)
  (actual : Z) :
  encodes r → encodes r' → Secret ≠ "" → now `div` Second ≤ rs_Exp r →
  Forall (item_ok cfg validKey (rs_Domain r)) (rs_Items r) →
  rs_Items r = l1 ++ it1 :: l2 ++ it2 :: l3 → same_limit it1 it2 → left_over it1 actual ≠ 0 →
  r' = mkRes (rs_Domain r) (l1 ++ it1 :: l2 ++ l3) (rs_Exp r) (rs_Nonce r) →
  Settle edge hub now nowMs cn (token r) actual = Settle edge hub now nowMs cn (token r') actual.
Proof.
  intros He He' Hsec Hexp Hok Hits Hsame Hne Hr'.
  assert (Hok' : Forall (item_ok cfg validKey (rs_Domain r')) (rs_Items r')).
  { subst r'. cbn. rewrite Hits in Hok. apply Forall_app in Hok as [? [? [? [? ?]%Forall_cons]%Forall_app]%Forall_cons].
    apply Forall_app; split; [done|]. apply Forall_cons; split; [done|]. by apply Forall_app. }
  rewrite (Settle_ledger _ _ _ _ _ _ r) by (done || by apply open_own_token).
  rewrite (Settle_ledger _ _ _ _ _ _ r') by (done || apply open_own_token; subst r'; done).
  assert (Hdd : settle_dedupe cn edge r' = settle_dedupe cn edge r) by (by subst r').
  rewrite Hdd, Hits, Hr'. cbn [rs_Domain rs_Items]. rewrite Hits in Hok.
  apply Forall_app in Hok as [Hok1 [Hi1 [Hok2 [Hi2 Hok3]%Forall_cons]%Forall_app]%Forall_cons].
  rewrite !app_comm_cons, (cons_middle it2 (it1 :: l2) l3), !item_returns_app, !(Mem_Return_app (qs_ledger hub)).
  destruct (Mem_Return (qs_ledger hub) _ _ (item_returns cfg (rs_Domain r) l1 actual)) as [[e|] m]; [done|].
  rewrite !Mem_Return_app.
  destruct (settle_second_item (rs_Domain r) it1 it2 l2 m nowMs (settle_dedupe cn edge r) actual)
    as (m2 & -> & E2); try done; [apply settle_dedupe_ne|]. by rewrite Mem_Return_app, E2.
Qed.
End tokens.

(** ** Examples *)

Module Example_service.
(** Encodings with the properties asked for: two letters for a byte, and names
    for the reservations used. *)
Definition nibble (a b c d : bool) : ascii := Ascii a b c d false false true false.
Fixpoint b64 (s : string) : string :=
  match s with
  | EmptyString => EmptyString
  | String (Ascii a b c d e f g h) s => String (nibble a b c d) (String (nibble e f g h) (b64 s))
  end.
Fixpoint unb64 (s : string) : option string :=
  match s with
  | EmptyString => Some EmptyString
  | String (Ascii a b c d _ _ _ _) (String (Ascii e f g h _ _ _ _) s) =>
      String (Ascii a b c d e f g h) <$> unb64 s
  | _ => None
  end.

Lemma unb64_b64 s : unb64 (b64 s) = Some s.
Proof. induction s as [|[] s IH]; cbn; [done|]. by rewrite IH. Qed.

Lemma b64_no_dot s : ¬ has_char "." (b64 s).
Proof.
  unfold has_char. induction s as [|[] s IH]; cbn; [by intros ?%elem_of_nil|].
  intros [?|[?|?]%elem_of_cons]%elem_of_cons; done.
Qed.

Definition item (estimate : Z) : reservationItem :=
  mkItem "generic_key=checkout/user_id" "valice" 28333333 estimate.
Definition r1 : reservation := mkRes "shop" [item 5] 1700000600 "n1".
Definition r2 : reservation := mkRes "shop" [item 5; item 3] 1700000600 "n1".
Definition json (r : reservation) : string := if decide (length (rs_Items r) = 1%nat) then "r1" else "r2".
Definition unjson (s : string) : option reservation := if (s =? "r1")%string then Some r1 else Some r2.
Definition hmac (k m : string) : string := k +:+ m.
Definition store : TierStore := mkTierStore (λ _ _, Ok "") None.

Lemma r1_encodes : encodes json unjson b64 unb64 r1.
Proof. split; [apply unb64_b64|apply b64_no_dot|done]. Qed.
Lemma r2_encodes : encodes json unjson b64 unb64 r2.
Proof. split; [apply unb64_b64|apply b64_no_dot|done]. Qed.

Definition cfg : GatewayConfig := Example_descriptors.cfg.
Definition key : string := item_key "shop" (item 5) Example_descriptors.per_user.
Definition hub (u : Z) : QuotaLeaseServer :=
  mkServer (set_val (winKey key 28333333) (f64_of_int u) NewMem) None.
(** Within the minute 28333333, in nanoseconds and in milliseconds. *)
Definition now : Z := 1700000001000000000.
Definition nowMs : Z := 1700000001000.

Lemma item_ok_example n : item_ok cfg (λ _, true) "shop" (item n).
Proof.
  split; [done|]. split; [no_char|]. exists Example_descriptors.per_user. split; vm_compute; reflexivity.
Qed.

Lemma hub_holds u : f64_small u → holds (qs_ledger (hub u)) (winKey key 28333333) u.
Proof. apply holds_set. Qed.

Definition user (name : string) (cost : Z) : Descriptor :=
  mkDescriptor [mkDescEntry "generic_key" "checkout"; mkDescEntry "user_id" name] cost.
Definition other : Descriptor := mkDescriptor [mkDescEntry "remote_address" "10.0.0.1"] 1.
End Example_service.


Lemma settle_counts_per_replica_witness :
  ∃ hub1 hub2,
    Settle_token Example_service.cfg Example_service.unjson Example_service.unb64 Example_service.hmac "k"
      "limiter-1" (λ _, 0) id (λ _, true) Example_service.store (Example_service.hub 7)
      Example_service.now Example_service.nowMs None
      (token Example_service.json Example_service.b64 Example_service.hmac "k" Example_service.r1) 2 = (None, hub1) ∧
    Settle_token Example_service.cfg Example_service.unjson Example_service.unb64 Example_service.hmac "k"
      "limiter-2" (λ _, 0) id (λ _, true) Example_service.store hub1
      Example_service.now Example_service.nowMs None
      (token Example_service.json Example_service.b64 Example_service.hmac "k" Example_service.r1) 2 = (None, hub2) ∧
    holds (qs_ledger hub2) (winKey Example_service.key 28333333) 1.
Proof.
  apply (settle_counts_per_replica Example_service.cfg (λ _, 0) id (λ _, true) Example_service.store
    Example_service.json Example_service.unjson Example_service.b64 Example_service.unb64 Example_service.hmac "k"
    "limiter-1" "limiter-2" (Example_service.hub 7) Example_service.now Example_service.nowMs
    Example_service.now Example_service.nowMs None None Example_service.r1
    (Example_service.item 5) Example_descriptors.per_user 2 7).
  - discriminate.
  - apply Example_service.r1_encodes.
  - discriminate.
  - vm_compute. discriminate.
  - vm_compute. discriminate.
  - reflexivity.
  - apply (Example_service.item_ok_example 5).
  - vm_compute. reflexivity.
  - vm_compute. discriminate.
  - vm_compute. reflexivity.
  - vm_compute. reflexivity.
  - apply Example_service.hub_holds. vm_compute. split; discriminate.
  - lia.
  - vm_compute. split; discriminate.
  - vm_compute. discriminate.
  - vm_compute. discriminate.
  - apply (bool_decide_eq_false_1 _). vm_compute. reflexivity.
  - apply (bool_decide_eq_false_1 _). vm_compute. reflexivity.
Defined.

Lemma settle_skips_repeated_limit_witness :
  Settle_token Example_service.cfg Example_service.unjson Example_service.unb64 Example_service.hmac "k"
    "limiter-1" (λ _, 0) id (λ _, true) Example_service.store (Example_service.hub 8)
    Example_service.now Example_service.nowMs None
    (token Example_service.json Example_service.b64 Example_service.hmac "k" Example_service.r2) 2 =
  Settle_token Example_service.cfg Example_service.unjson Example_service.unb64 Example_service.hmac "k"
    "limiter-1" (λ _, 0) id (λ _, true) Example_service.store (Example_service.hub 8)
    Example_service.now Example_service.nowMs None
    (token Example_service.json Example_service.b64 Example_service.hmac "k" Example_service.r1) 2.
Proof.
  apply (settle_skips_repeated_limit Example_service.cfg (λ _, 0) id (λ _, true) Example_service.store
    Example_service.json Example_service.unjson Example_service.b64 Example_service.unb64 Example_service.hmac "k"
    "limiter-1" (Example_service.hub 8) Example_service.now Example_service.nowMs None
    Example_service.r2 Example_service.r1 (Example_service.item 5) (Example_service.item 3) [] [] [] 2).
  - apply Example_service.r2_encodes.
  - apply Example_service.r1_encodes.
  - discriminate.
  - vm_compute. discriminate.
  - repeat constructor; apply Example_service.item_ok_example.
  - reflexivity.
  - split; reflexivity.
  - vm_compute. discriminate.
  - reflexivity.
Defined.

Lemma check_statuses_witness :
  ∃ out s st, DecideService.check id Example_service.cfg Example_service.json Example_service.b64
      Example_service.hmac "k" Example_reserve.s0 1000000000 (0, "") "shop"
      [Example_service.user "alice" 20; Example_service.other] false = (Ok out, s) ∧
    oc_Statuses out !! 1%nat = Some st ∧ st = unmatched_status.
Proof.
  assert (Hd : match (DecideService.check id Example_service.cfg Example_service.json Example_service.b64
      Example_service.hmac "k" Example_reserve.s0 1000000000 (0, "") "shop"
      [Example_service.user "alice" 20; Example_service.other] false).1 with
      | Ok out => ∃ st, oc_Statuses out !! 1%nat = Some st | Err _ => False end)
    by (vm_compute; eexists; reflexivity).
  destruct (DecideService.check id Example_service.cfg Example_service.json Example_service.b64
      Example_service.hmac "k" Example_reserve.s0 1000000000 (0, "") "shop"
      [Example_service.user "alice" 20; Example_service.other] false) as [[out|e] s] eqn:E; [|destruct Hd].
  destruct Hd as [st Hst]. exists out, s, st. split; [reflexivity|]. split; [exact Hst|].
  destruct (check_statuses id Example_service.cfg Example_service.json Example_service.b64
    Example_service.hmac "k" Example_reserve.s0 s 1000000000 (0, "") "shop"
    [Example_service.user "alice" 20; Example_service.other] false out E) as (_ & H & _).
  exact (H 1%nat Example_service.other st eq_refl Hst).
Defined.

