(* ===== verification/Rls.v ===== *)
(** * Envoy's rate-limit service ([packages/rls/server.go])

    A protocol adapter over the decision service: every descriptor of the
    request is checked, and the decision is reported in Envoy's codes and units.
    A conversion of a float to [uint32] is the one of amd64: to [int64], low 32
    bits. *)

From S2P Require Import Prelude Float64 Ledger Limiter Reserve LocalProps Wire Config Decide DecideService DecideProps.

Local Open Scope Z_scope.

Definition MaxUint32 : Z := 4294967295.
Definition f64_to_uint32 (x : float64) : Z := f64_to_int x `mod` 2 ^ 32.

Record RateLimitDescriptor := mkRateLimitDescriptor {
  rd_Entries : list Entry;
  rd_HitsAddend : option Z; (* uint64 *)
}.

Record RateLimitRequest := mkRateLimitRequest {
  rr_Domain : string;
  rr_Descriptors : list RateLimitDescriptor;
  rr_HitsAddend : Z; (* uint32 *)
}.

Inductive rls_code := RlsOK | RlsOverLimit.
Inductive rls_unit := UnitUnknown | UnitSecond | UnitMinute | UnitHour | UnitDay.

Record RateLimit := mkRateLimit {
  rl_Name : string;
  rl_RequestsPerUnit : Z; (* uint32 *)
  rl_Unit : rls_unit;
}.

Record DescriptorStatus := mkDescriptorStatus {
  rd_Code : rls_code;
  rd_CurrentLimit : option RateLimit;
  rd_LimitRemaining : Z; (* uint32 *)
  rd_DurationUntilReset : option Z;
}.

Record RateLimitResponse := mkRateLimitResponse {
  rp_OverallCode : rls_code;
  rp_Statuses : list DescriptorStatus;
  rp_Headers : list (string * string);
}.

(** The descriptors of a request, each with its own number of hits or the
    request's. *)
Definition rls_descriptor (req : RateLimitRequest) (d : RateLimitDescriptor) : Descriptor :=
  let cost := match rd_HitsAddend d with Some h => wrap64 h | None => rr_HitsAddend req end in
  mkDescriptor (rd_Entries d) (Z.max cost 1).

(** [currentLimit]: a limit in Envoy's units. *)
Definition day_units : list (Z * rls_unit) :=
  [(24 * Hour, UnitDay); (Hour, UnitHour); (Minute, UnitMinute); (Second, UnitSecond)].

Fixpoint unit_for (w quota : Z) (name : string) (units : list (Z * rls_unit)) : RateLimit :=
  match units with
  | [] => mkRateLimit name 0 UnitUnknown
  | (d, u) :: units =>
      if d <=? w
      then mkRateLimit name
             (f64_to_uint32 (f64_ceil (f64_div (f64_mul (f64_of_int quota) (f64_of_int d)) (f64_of_int w)))) u
      else unit_for w quota name units
  end.

Definition currentLimit (st : Status) : RateLimit :=
  if (ls_Algorithm (ss_Spec st) =? "token_bucket")%string
  then mkRateLimit (ss_LimitID st) (f64_to_uint32 (f64_ceil (ls_Rate (ss_Spec st)))) UnitSecond
  else unit_for (Z.max (ls_Window (ss_Spec st)) Second) (ls_Quota (ss_Spec st)) (ss_LimitID st) day_units.

Definition share (st : Status) : float64 :=
  if ss_Limit st <=? 0 then f64_of_int 1
  else f64_div (f64_of_int (ss_Remaining st)) (f64_of_int (ss_Limit st)).

Definition ceil_seconds (d : Z) : Z := f64_to_int (f64_ceil (Duration_Seconds d)).

Definition headers (st : Status) (out : Outcome) : list (string * string) :=
  [("RateLimit-Limit", itoa (ss_Limit st));
   ("RateLimit-Remaining", itoa (Z.max (ss_Remaining st) 0));
   ("RateLimit-Reset", itoa (ceil_seconds (ss_ResetIn st)))] ++
  (if oc_Allowed out then []
   else [("Retry-After", itoa (Z.max (ceil_seconds (oc_RetryAfter out)) 1))]).

(** The switch that picks the descriptor to report. *)
Definition rls_binding (binding : option Status) (st : Status) : option Status :=
  if negb (ss_Matched st) || ss_Shadow st then binding
  else
    match binding with
    | None => Some st
    | Some b =>
        if negb (ss_Allowed st) && ss_Allowed b then Some st
        else if Bool.eqb (ss_Allowed st) (ss_Allowed b) && f64_ltb (share st) (share b) then Some st
        else Some b
    end.

Definition descriptor_status (st : Status) : DescriptorStatus :=
  let code := if ss_Allowed st then RlsOK else RlsOverLimit in
  if ss_Matched st
  then mkDescriptorStatus code (Some (currentLimit st)) (Z.min (Z.max (ss_Remaining st) 0) MaxUint32)
         (Some (ss_ResetIn st))
  else mkDescriptorStatus code None 0 None.

Definition rls_response (out : Outcome) : RateLimitResponse :=
  mkRateLimitResponse
    (if oc_Allowed out then RlsOK else RlsOverLimit)
    (descriptor_status <$> oc_Statuses out)
    (match foldl rls_binding None (oc_Statuses out) with
     | Some b => headers b out
     | None => []
     end).

Section rls.
Variable sha256_hex16 : string → string.
Variable cfg : GatewayConfig.
Variable json : reservation → string.
Variable b64 : string → string.
Variable hmac : string → string → string.
Variable Secret : string.
(** [err.Error()] of a limiter's error. *)
Variable error_text : lerror → string.
Context {S : Type} `{!Limiter S}.

(** [ShouldRateLimit]: without a wait, [Check] makes one attempt. *)
Definition ShouldRateLimit (s : S) (start : Z) (tk : tick) (req : RateLimitRequest)
  : result status RateLimitResponse * S :=
  match Check sha256_hex16 cfg json b64 hmac Secret s start [tk] (rr_Domain req)
          (rls_descriptor req <$> rr_Descriptors req) 0 false with
  | (Some (Checked out), s) => (Ok (rls_response out), s)
  | (Some (CheckErr ErrUnavailable), s) => (Err (mkStatus Unavailable "rate limit ledger unavailable"), s)
  | (Some (CheckErr e), s) => (Err (mkStatus InvalidArgument (error_text e)), s)
  | (Some (CheckCtx _), s) | (None, s) => (Err (mkStatus Unknown ""), s) (* unreachable without a wait *)
  end.

(** What Envoy is told about one descriptor. *)
Definition code_for (limited : bool) : rls_code := if limited then RlsOverLimit else RlsOK.

(** the answer to Envoy.  There is one status for each descriptor and the
    call never waits; the request is over its limit exactly when the decision
    service denies it; a descriptor is then over its limit when it matches an
    enforced limit, and never otherwise; what is left of a limit is reported
    within 32 bits, exactly when it fits; and a [Retry-After] header of at least
    a second comes with a denial only. *)
Theorem rls_reports_decision (s s' : S) (start : Z) (tk : tick) (req : RateLimitRequest)
  (resp : RateLimitResponse) :
  ShouldRateLimit s start tk req = (Ok resp, s') →
  ∃ out, check sha256_hex16 cfg json b64 hmac Secret s (tk_check tk) (tk_sign tk) (rr_Domain req)
      (rls_descriptor req <$> rr_Descriptors req) false = (Ok out, s') ∧
    rp_OverallCode resp = code_for (negb (oc_Allowed out)) ∧
    length (rp_Statuses resp) = length (rr_Descriptors req) ∧
    (∀ i d st, rr_Descriptors req !! i = Some d → rp_Statuses resp !! i = Some st →
       0 ≤ rd_LimitRemaining st ≤ MaxUint32 ∧
       match Resolve sha256_hex16 cfg (rr_Domain req) (rd_Entries d) with
       | None => rd_Code st = RlsOK ∧ rd_CurrentLimit st = None
       | Some m => rd_Code st = code_for (negb (oc_Allowed out) && negb (ls_Shadow (mt_Spec m))) ∧
           ∃ o, oc_Statuses out !! i = Some o ∧
             (0 ≤ ss_Remaining o ≤ MaxUint32 → rd_LimitRemaining st = ss_Remaining o)
       end) ∧
    (∀ v, ("Retry-After", v) ∈ rp_Headers resp → oc_Allowed out = false ∧ ∃ n, 1 ≤ n ∧ v = itoa n).
Proof.
  unfold ShouldRateLimit, Check. cbn [Check_loop].
  destruct (check _ _ _ _ _ _ _ _ _ _ _ _) as [[out|e] s1] eqn:Ec; [|by destruct e].
  rewrite orb_true_r. intros [= <- <-]. exists out. split; [done|].
  destruct (check_shape _ _ _ _ _ _ _ _ _ _ _ _ _ _ Ec) as [Hlen Hst]. unfold rls_response. cbn.
  split; [by destruct (oc_Allowed out)|]. rewrite length_fmap. split; [by rewrite Hlen, length_fmap|]. split.
  - intros i d st Hd Hi. rewrite list_lookup_fmap in Hi. destruct (oc_Statuses out !! i) as [o|] eqn:Eo; [|done].
    injection Hi as <-. specialize (Hst i (rls_descriptor req d) o). rewrite list_lookup_fmap, Hd in Hst.
    specialize (Hst eq_refl Eo). cbn [rls_descriptor ds_Entries] in Hst. unfold descriptor_status, MaxUint32.
    destruct (Resolve _ _ _ _) as [m|].
    + destruct Hst as [(Hm & _) Ha]. cbn in Hm. rewrite Hm, Ha. cbn. split; [lia|]. split.
      * by destruct (oc_Allowed out), (ls_Shadow (mt_Spec m)).
      * exists o. split; [done|lia].
    + subst o. cbn. split; [lia|done].
  - intros v Hv. destruct (foldl rls_binding None (oc_Statuses out)) as [b|]; [|by apply elem_of_nil in Hv].
    unfold headers in Hv. destruct (oc_Allowed out); [set_solver|]. split; [done|].
    cbn [app] in Hv. do 3 (apply elem_of_cons in Hv as [?|Hv]; [done|]).
    apply list_elem_of_singleton in Hv. injection Hv as ->. eexists. split; [|done]. lia.
Qed.
End rls.

Module Example_rls.
Definition req : RateLimitRequest :=
  mkRateLimitRequest "shop"
    [mkRateLimitDescriptor [mkDescEntry "generic_key" "checkout"; mkDescEntry "user_id" "alice"] (Some 20)] 1.
Definition answer : result status RateLimitResponse * local_at :=
  ShouldRateLimit id Example_service.cfg Example_service.json Example_service.b64 Example_service.hmac "k"
    (λ _, "") Example_reserve.s0 1000000000 (mkTick 1000000000 (0, "") 1000000000 false) req.
End Example_rls.

Lemma rls_reports_decision_witness :
  ∃ resp s, Example_rls.answer = (Ok resp, s) ∧ length (rp_Statuses resp) = 1%nat ∧
    rp_OverallCode resp = RlsOverLimit.
Proof.
  assert (Hd : match Example_rls.answer.1 with
      | Ok resp => rp_OverallCode resp = RlsOverLimit | Err _ => False end) by (vm_compute; reflexivity).
  destruct Example_rls.answer as [[resp|e] s] eqn:E; [|destruct Hd].
  exists resp, s. split; [reflexivity|].
  destruct (rls_reports_decision id Example_service.cfg Example_service.json Example_service.b64
    Example_service.hmac "k" (λ _, "") Example_reserve.s0 s 1000000000
    (mkTick 1000000000 (0, "") 1000000000 false) Example_rls.req resp E) as (out & _ & _ & Hl & _).
  split; [exact Hl|exact Hd].
Defined.
