(* ===== verification/TtlCache.v ===== *)
(** * The edge's bounded cache ([packages/edge/ttlcache.go])

    A map in 32 shards with a cost budget each, expiry per entry and eviction by
    sampling.  The order in which Go ranges over a map is a parameter.  Each
    operation runs under its shard's lock, so that operations are atomic; clocks
    are in nanoseconds. *)

From S2P Require Import Prelude.
From Stdlib Require Import Ascii.

Local Open Scope Z_scope.

(** ** Hashing ([hash/fnv]) *)

Definition fnv_step (prime modulus : Z) (h : Z) (c : ascii) : Z :=
  (Z.lxor h (Z.of_N (N_of_ascii c)) * prime) `mod` modulus.

Fixpoint fnv (prime modulus : Z) (h : Z) (s : string) : Z :=
  match s with
  | EmptyString => h
  | String c s => fnv prime modulus (fnv_step prime modulus h c) s
  end.

Definition fnv32a : string → Z := fnv 16777619 (2 ^ 32) 2166136261.

(** ** The cache *)

Definition cacheShards : nat := 32.

Record cacheEntry (V : Type) := mkCacheEntry {
  ce_value : V;
  ce_cost : Z;
  ce_storedAt : Z; (* unix nanoseconds *)
  ce_expires : Z;  (* unix nanoseconds *)
}.
Arguments mkCacheEntry {V}.
Arguments ce_value {V}.
Arguments ce_cost {V}.
Arguments ce_storedAt {V}.
Arguments ce_expires {V}.

Record cacheShard (V : Type) := mkShard {
  sh_entries : gmap string (cacheEntry V);
  sh_cost : Z;
}.
Arguments mkShard {V}.
Arguments sh_entries {V}.
Arguments sh_cost {V}.

Record ttlCache (V : Type) := mkTtlCache {
  tc_shards : list (cacheShard V);
  tc_shardCost : Z;
}.
Arguments mkTtlCache {V}.
Arguments tc_shards {V}.
Arguments tc_shardCost {V}.

Section cache.
Context {V : Type}.

Definition newTTLCache (budget : Z) : ttlCache V :=
  mkTtlCache (replicate cacheShards (mkShard ∅ 0)) (Z.max (budget / Z.of_nat cacheShards)%i64 1).

Definition shard (key : string) : nat := Z.to_nat (fnv32a key `mod` Z.of_nat cacheShards).

(** [get]: the entry, when it was stored and whether it is fresh. *)
Definition ttl_get (c : ttlCache V) (key : string) (now : Z) : option (V * Z * bool) :=
  match tc_shards c !! shard key with
  | None => None
  | Some s =>
      match sh_entries s !! key with
      | None => None
      | Some e => Some (ce_value e, ce_storedAt e, now <? ce_expires e)
      end
  end.

(** Go ranges over a map in an order of its own. *)
Variable range : gmap string (cacheEntry V) → list (string * cacheEntry V).

(** The loop of [evictOne]: an expired entry among the first eight, else the
    first. *)
Fixpoint evict_scan (now : Z) (order : list (string * cacheEntry V)) (victim : string) (n : Z) : string :=
  match order with
  | [] => victim
  | (k, e) :: order =>
      let expired := ce_expires e <=? now in
      if ((victim =? "")%string || expired) && expired then k
      else
        let victim := if (victim =? "")%string then k else victim in
        if n + 1 =? 8 then victim else evict_scan now order victim (n + 1)
  end.

Definition evictOne (s : cacheShard V) (now : Z) : cacheShard V :=
  let victim := evict_scan now (range (sh_entries s)) "" 0 in
  mkShard (delete victim (sh_entries s))
    (sh_cost s - match sh_entries s !! victim with Some e => ce_cost e | None => 0 end)%i64.

(** [for s.cost+cost > c.shardCost && len(s.entries) > 0]; every round removes an
    entry, so that as many rounds as there are entries are enough. *)
Fixpoint evict_loop (fuel : nat) (s : cacheShard V) (now cost limit : Z) : cacheShard V :=
  match fuel with
  | O => s
  | S fuel =>
      if (limit <? (sh_cost s + cost)%i64) && (0 <? Z.of_nat (size (sh_entries s)))
      then evict_loop fuel (evictOne s now) now cost limit
      else s
  end.

Definition shard_set (s : cacheShard V) (key : string) (v : V) (ttl cost now limit : Z) : cacheShard V :=
  let s := match sh_entries s !! key with
           | Some old => mkShard (sh_entries s) (sh_cost s - ce_cost old)%i64
           | None => s
           end in
  let s := evict_loop (size (sh_entries s)) s now cost limit in
  mkShard (<[key := mkCacheEntry v cost now (now + ttl)%i64]> (sh_entries s)) (sh_cost s + cost)%i64.

Definition ttl_set (c : ttlCache V) (key : string) (v : V) (ttl cost now : Z) : ttlCache V :=
  let cost := Z.max cost 1 in
  if tc_shardCost c <? cost then c
  else mkTtlCache (alter (λ s, shard_set s key v ttl cost now (tc_shardCost c)) (shard key) (tc_shards c))
         (tc_shardCost c).

(** [deleteFunc]: forget every entry whose key matches. *)
Definition shard_delete (s : cacheShard V) (match_ : string → bool) : cacheShard V :=
  foldl (λ s ke, if match_ ke.1 then mkShard (delete ke.1 (sh_entries s)) (sh_cost s - ce_cost ke.2)%i64 else s)
    s (range (sh_entries s)).

Definition ttl_delete (c : ttlCache V) (match_ : string → bool) : ttlCache V :=
  mkTtlCache ((λ s, shard_delete s match_) <$> tc_shards c) (tc_shardCost c).
End cache.

(** ** Accounting *)

Section accounting.
Context {V : Type} (range : gmap string (cacheEntry V) → list (string * cacheEntry V)).
Hypothesis range_perm : ∀ m, range m ≡ₚ map_to_list m.

(** What the entries of a shard cost. *)
Definition total (m : gmap string (cacheEntry V)) : Z := sumZ (λ ke, ce_cost ke.2) (map_to_list m).

Lemma total_empty : total ∅ = 0.
Proof. unfold total. by rewrite map_to_list_empty. Qed.

Lemma total_insert_new m k e : m !! k = None → total (<[k := e]> m) = ce_cost e + total m.
Proof. intros Hk. unfold total. by rewrite (sumZ_perm _ _ _ (map_to_list_insert m k e Hk)). Qed.

Lemma total_delete m k e : m !! k = Some e → total (delete k m) = total m - ce_cost e.
Proof.
  intros Hk. rewrite <-(insert_delete_id m k e Hk) at 2. rewrite total_insert_new; [lia|]. apply lookup_delete_eq.
Qed.

Lemma total_insert m k e :
  total (<[k := e]> m) = total m - match m !! k with Some old => ce_cost old | None => 0 end + ce_cost e.
Proof.
  destruct (m !! k) as [old|] eqn:Hk.
  - rewrite <-insert_delete_eq, total_insert_new by apply lookup_delete_eq.
    rewrite (total_delete m k old Hk). lia.
  - rewrite total_insert_new by done. lia.
Qed.

(** A shard whose recorded cost is what its entries cost, within its limit. *)
Record shard_ok (limit : Z) (s : cacheShard V) : Prop := {
  so_costs : ∀ k e, sh_entries s !! k = Some e → 1 ≤ ce_cost e ≤ limit;
  so_total : sh_cost s = total (sh_entries s);
  so_limit : total (sh_entries s) ≤ limit;
}.

(** The limits a budget gives: at most [2^58]. *)
Definition limit_ok (limit : Z) : Prop := 1 ≤ limit ≤ 2 ^ 58.

Lemma total_nonneg limit s : shard_ok limit s → 0 ≤ total (sh_entries s).
Proof.
  intros Hs. apply sumZ_nonneg. intros [k e] Hin%elem_of_map_to_list. cbn.
  pose proof (so_costs _ _ Hs k e Hin). lia.
Qed.

Lemma evict_scan_in now (order : list (string * cacheEntry V)) victim n :
  evict_scan now order victim n ∈ order.*1 ∨ evict_scan now order victim n = victim ∧ (victim = "" → order = []).
Proof.
  revert victim n. induction order as [|[k e] order IH]; intros victim n; cbn; [by right|].
  destruct (ce_expires e <=? now); [rewrite orb_true_r; left; left|]. rewrite orb_false_r, andb_false_r.
  destruct (String.eqb_spec victim "") as [->|Hv]; destruct (n + 1 =? 8); try (left; left); try (by right).
  - destruct (IH k (n + 1)) as [?|[-> _]]; left; [by right|left].
  - destruct (IH victim (n + 1)) as [?|[-> _]]; [left; by right|by right].
Qed.

(** A round of eviction removes an entry and its cost. *)
Lemma evictOne_spec s now :
  sh_entries s ≠ ∅ → ∃ k e, sh_entries s !! k = Some e ∧
    evictOne range s now = mkShard (delete k (sh_entries s)) (sh_cost s - ce_cost e)%i64.
Proof using range_perm.
  intros Hne. unfold evictOne. set (k := evict_scan _ _ _ _).
  assert (Hk : k ∈ (range (sh_entries s)).*1).
  { destruct (evict_scan_in now (range (sh_entries s)) "" 0) as [?|[_ E]]; [done|].
    specialize (E eq_refl). pose proof (range_perm (sh_entries s)) as Hp. rewrite E in Hp.
    apply Permutation_nil_l in Hp. by symmetry in Hp; apply map_to_list_empty_iff in Hp. }
  rewrite range_perm in Hk. apply list_elem_of_fmap in Hk as [[k' e] [-> Hk]]. apply elem_of_map_to_list in Hk.
  exists k', e. cbn. by rewrite Hk.
Qed.

Lemma shard_ok_evict limit s k e :
  limit_ok limit → shard_ok limit s → sh_entries s !! k = Some e →
  shard_ok limit (mkShard (delete k (sh_entries s)) (sh_cost s - ce_cost e)%i64).
Proof.
  intros Hl Hs Hk. pose proof (total_nonneg _ _ Hs). destruct Hs as [Hc Ht Hlim]. unfold limit_ok in Hl.
  pose proof (Hc k e Hk). split; cbn.
  - intros k' e' [_ Hk']%lookup_delete_Some. by eapply Hc.
  - rewrite (total_delete _ _ _ Hk), Ht. unfold i64_sub. apply wrap64_small. i64_range.
  - rewrite (total_delete _ _ _ Hk). lia.
Qed.

(** The loop stops with room for the new entry, or with nothing left. *)
Lemma evict_loop_spec limit s now cost fuel :
  limit_ok limit → shard_ok limit s → 1 ≤ cost ≤ limit → (size (sh_entries s) ≤ fuel)%nat →
  let s' := evict_loop range fuel s now cost limit in
  shard_ok limit s' ∧ sh_entries s' ⊆ sh_entries s ∧ total (sh_entries s') + cost ≤ limit.
Proof using range_perm.
  intros Hl. revert s. induction fuel as [|fuel IH]; intros s Hs Hc Hsz; cbn [evict_loop].
  { assert (sh_entries s = ∅) as E by (apply map_size_empty_iff; lia).
    rewrite E, total_empty. split; [done|]. split; [done|lia]. }
  pose proof (total_nonneg _ _ Hs). pose proof (so_total _ _ Hs) as Ht. pose proof (so_limit _ _ Hs).
  assert (Hadd : (sh_cost s + cost)%i64 = total (sh_entries s) + cost).
  { unfold i64_add. rewrite Ht. apply wrap64_small. unfold limit_ok in Hl. i64_range. }
  rewrite Hadd. destruct (Z.ltb_spec limit (total (sh_entries s) + cost)) as [Hgt|Hle]; cbn [andb].
  2:{ split; [done|]. split; [done|lia]. }
  destruct (Z.ltb_spec 0 (Z.of_nat (size (sh_entries s)))) as [Hpos|Hz].
  - assert (Hne : sh_entries s ≠ ∅) by (intros E; rewrite E in Hpos; by vm_compute in Hpos).
    destruct (evictOne_spec s now Hne) as (k & e & Hk & ->).
    destruct (IH (mkShard (delete k (sh_entries s)) (sh_cost s - ce_cost e)%i64)) as (H1 & H2 & H3); [|done| |].
    + by apply shard_ok_evict.
    + cbn. rewrite map_size_delete, Hk. cbn. lia.
    + split; [done|]. split; [|done]. etrans; [exact H2|]. apply delete_subseteq.
  - assert (sh_entries s = ∅) as E by (apply map_size_empty_iff; lia).
    rewrite E, total_empty in Hgt. lia.
Qed.
(** Setting an entry keeps the books when the key is new, or when the new entry
    costs no more than the one it replaces. *)
Lemma shard_set_ok limit s key v ttl cost now :
  limit_ok limit → shard_ok limit s → 1 ≤ cost ≤ limit →
  (∀ old, sh_entries s !! key = Some old → cost ≤ ce_cost old) →
  shard_ok limit (shard_set range s key v ttl cost now limit).
Proof using range_perm.
  intros Hl Hs Hc Hold. pose proof (total_nonneg _ _ Hs) as Hnn. unfold shard_set.
  destruct (sh_entries s !! key) as [old|] eqn:Hk.
  - pose proof (Hold old eq_refl). pose proof (so_costs _ _ Hs key old Hk). pose proof (so_limit _ _ Hs).
    assert (E1 : (sh_cost s - ce_cost old)%i64 = total (sh_entries s) - ce_cost old).
    { unfold i64_sub. rewrite (so_total _ _ Hs). apply wrap64_small. unfold limit_ok in Hl. i64_range. }
    cbn [sh_entries sh_cost]. rewrite E1.
    assert (E2 : evict_loop range (size (sh_entries s)) (mkShard (sh_entries s) (total (sh_entries s) - ce_cost old))
      now cost limit = mkShard (sh_entries s) (total (sh_entries s) - ce_cost old)).
    { destruct (size (sh_entries s)); [done|]. cbn [evict_loop sh_cost]. unfold i64_add.
      rewrite wrap64_small by (unfold limit_ok in Hl; i64_range).
      by rewrite (proj2 (Z.ltb_ge _ _)) by lia. }
    rewrite E2. cbn [sh_entries sh_cost].
    assert (E3 : total (<[key := mkCacheEntry v cost now (now + ttl)%i64]> (sh_entries s)) =
      total (sh_entries s) - ce_cost old + cost) by (rewrite total_insert, Hk; done).
    split; cbn.
    + intros k e [[<- <-]|[_ Hke]]%lookup_insert_Some; [cbn; lia|by eapply so_costs].
    + rewrite E3. unfold i64_add. apply wrap64_small. unfold limit_ok in Hl. i64_range.
    + rewrite E3. lia.
  - destruct (evict_loop_spec limit s now cost (size (sh_entries s)) Hl Hs Hc ltac:(lia)) as (Hs' & Hsub & Hroom).
    set (s' := evict_loop _ _ _ _ _ _) in *. pose proof (total_nonneg _ _ Hs').
    assert (Hk' : sh_entries s' !! key = None) by (by eapply lookup_weaken_None).
    split; cbn.
    + intros k e [[<- <-]|[_ Hke]]%lookup_insert_Some; [cbn; lia|by eapply so_costs].
    + rewrite total_insert_new by done. cbn. rewrite (so_total _ _ Hs'). unfold i64_add.
      rewrite wrap64_small by (unfold limit_ok in Hl; i64_range). lia.
    + rewrite total_insert_new by done. cbn. lia.
Qed.

(** Deleting what matches, over any list of distinct present entries. *)
Lemma shard_delete_fold limit (f : string → bool) l s :
  limit_ok limit → NoDup l.*1 → (∀ k e, (k, e) ∈ l → sh_entries s !! k = Some e) → shard_ok limit s →
  let s' := foldl (λ s ke, if f ke.1 then mkShard (delete ke.1 (sh_entries s)) (sh_cost s - ce_cost ke.2)%i64 else s) s l in
  shard_ok limit s' ∧
  ∀ k, sh_entries s' !! k = if bool_decide (k ∈ l.*1) && f k then None else sh_entries s !! k.
Proof.
  intros Hl Hnd. revert s. induction l as [|[k e] l IH]; intros s Hin Hs; cbn [foldl fst snd]; [done|].
  cbn in Hnd. apply NoDup_cons in Hnd as [Hk Hnd]. pose proof (Hin k e (list_elem_of_here _ _)) as He.
  destruct (f k) eqn:Ef.
  - destruct (IH Hnd (mkShard (delete k (sh_entries s)) (sh_cost s - ce_cost e)%i64)) as [H1 H2].
    + intros k' e' Hl'. cbn. rewrite lookup_delete_ne; [apply Hin; by right|].
      intros ->. apply Hk, list_elem_of_fmap. by exists (k', e').
    + by apply shard_ok_evict.
    + split; [done|]. intros k'. rewrite H2. cbn. destruct (decide (k' = k)) as [->|Hne].
      * rewrite lookup_delete_eq, (bool_decide_eq_true_2 (k ∈ k :: l.*1)) by left. rewrite Ef. by case_match.
      * rewrite lookup_delete_ne by done.
        by rewrite (bool_decide_ext (k' ∈ k :: l.*1) (k' ∈ l.*1)) by (rewrite elem_of_cons; naive_solver).
  - destruct (IH Hnd s) as [H1 H2]; [intros k' e' Hl'; apply Hin; by right|done|]. split; [done|].
    intros k'. rewrite H2. cbn. destruct (decide (k' = k)) as [->|Hne].
    + by rewrite Ef, !andb_false_r.
    + by rewrite (bool_decide_ext (k' ∈ k :: l.*1) (k' ∈ l.*1)) by (rewrite elem_of_cons; naive_solver).
Qed.

Lemma shard_delete_spec limit s (f : string → bool) :
  limit_ok limit → shard_ok limit s →
  shard_ok limit (shard_delete range s f) ∧
  ∀ k, sh_entries (shard_delete range s f) !! k = if f k then None else sh_entries s !! k.
Proof using range_perm.
  intros Hl Hs. unfold shard_delete.
  destruct (shard_delete_fold limit f (range (sh_entries s)) s Hl) as [H1 H2].
  - rewrite range_perm. apply NoDup_fst_map_to_list.
  - intros k e Hin. rewrite range_perm in Hin. by apply elem_of_map_to_list.
  - done.
  - split; [done|]. intros k. rewrite H2. destruct (f k); [|by rewrite andb_false_r]. rewrite andb_true_r.
    case_bool_decide as Hk; [done|]. destruct (sh_entries s !! k) as [e|] eqn:E; [|done].
    destruct Hk. rewrite range_perm. apply list_elem_of_fmap. exists (k, e). split; [done|]. by apply elem_of_map_to_list.
Qed.
End accounting.

(** ** Histories *)

Section histories.
Context {V : Type} (range : gmap string (cacheEntry V) → list (string * cacheEntry V)).
Hypothesis range_perm : ∀ m, range m ≡ₚ map_to_list m.

Inductive cache_op :=
| CSet (key : string) (v : V) (ttl cost now : Z)
| CDelete (match_ : string → bool).

Definition cache_do (c : ttlCache V) (o : cache_op) : ttlCache V :=
  match o with
  | CSet key v ttl cost now => ttl_set range c key v ttl cost now
  | CDelete f => ttl_delete range c f
  end.

Definition entry_of (c : ttlCache V) (key : string) : option (cacheEntry V) :=
  tc_shards c !! shard key ≫= λ s, sh_entries s !! key.

(** An entry replaced by one that costs no more: always so for unit costs. *)
Definition no_growth (c : ttlCache V) (o : cache_op) : Prop :=
  match o with
  | CSet key _ _ cost _ => ∀ old, entry_of c key = Some old → Z.max cost 1 ≤ ce_cost old
  | CDelete _ => True
  end.

Inductive cache_reach (budget : Z) : ttlCache V → Prop :=
| CNew : cache_reach budget (newTTLCache budget)
| CDo c o : cache_reach budget c → no_growth c o → cache_reach budget (cache_do c o).

Record cache_ok (c : ttlCache V) : Prop := {
  co_limit : limit_ok (tc_shardCost c);
  co_shards : length (tc_shards c) = cacheShards;
  co_ok : Forall (shard_ok (tc_shardCost c)) (tc_shards c);
}.

Lemma cache_ok_new budget : is_int64 budget → cache_ok (newTTLCache budget).
Proof.
  intros Hb. assert (Hl : limit_ok (tc_shardCost (newTTLCache (V := V) budget))).
  { unfold limit_ok. cbn [tc_shardCost newTTLCache]. unfold i64_div.
    change (Z.of_nat cacheShards) with 32. unfold is_int64, int64_min, int64_max in Hb.
    assert (-288230376151711745 ≤ Z.quot budget 32 ≤ 288230376151711744).
    { pose proof (Z.quot_rem' budget 32). pose proof (Z.rem_bound_abs budget 32 ltac:(lia)). lia. }
    rewrite wrap64_small by i64_range. lia. }
  split; [done|by apply length_replicate|]. apply Forall_replicate. split; cbn [sh_cost sh_entries].
  - intros k e. by rewrite lookup_empty.
  - symmetry. apply total_empty.
  - rewrite total_empty. unfold limit_ok in Hl. lia.
Qed.

Lemma shard_lt key : (shard key < cacheShards)%nat.
Proof.
  unfold shard. pose proof (Z.mod_pos_bound (fnv32a key) (Z.of_nat cacheShards) ltac:(done)).
  change (Z.of_nat cacheShards) with 32 in *. unfold cacheShards. lia.
Qed.

Lemma cache_ok_do c o : cache_ok c → no_growth c o → cache_ok (cache_do c o).
Proof using range_perm.
  intros [Hl Hn Hok] Hg. destruct o as [key v ttl cost now|f]; cbn [cache_do].
  - unfold ttl_set. destruct (Z.ltb_spec (tc_shardCost c) (Z.max cost 1)); [done|].
    split; cbn; [done|by rewrite length_alter|]. apply Forall_alter; [done|].
    intros s Hs Hsok. apply shard_set_ok; [done..|lia|].
    intros old Hold. apply Hg. unfold entry_of. by rewrite Hs.
  - split; cbn; [done|by rewrite length_fmap|]. apply Forall_fmap. eapply Forall_impl; [exact Hok|].
    intros s Hs. by apply shard_delete_spec.
Qed.

Lemma cache_ok_reach budget c : is_int64 budget → cache_reach budget c → cache_ok c.
Proof using range_perm. intros Hb. induction 1; [by apply cache_ok_new|by apply cache_ok_do]. Qed.

(** The cache keeps its books.  After any sets and deletions, in which no
    entry is replaced by a more expensive one, every shard's recorded cost is
    what its entries cost, and is within the shard's share of the budget; every
    entry costs at least 1, so that a shard never holds more entries than that. *)
Theorem cache_stays_in_budget (budget : Z) (c : ttlCache V) :
  is_int64 budget → cache_reach budget c →
  ∀ s, s ∈ tc_shards c →
    sh_cost s = total (sh_entries s) ∧ 0 ≤ total (sh_entries s) ≤ tc_shardCost c ∧
    Z.of_nat (size (sh_entries s)) ≤ tc_shardCost c.
Proof using range_perm.
  intros Hb Hr s Hs. destruct (cache_ok_reach budget c Hb Hr) as [Hl _ Hok].
  pose proof (proj1 (Forall_forall _ _) Hok s Hs) as Hsok. destruct Hsok as [Hc Ht Hlim].
  split; [done|]. split; [split; [by eapply total_nonneg|done]|]. etrans; [|exact Hlim].
  rewrite <-(length_map_to_list (sh_entries s)). unfold total.
  assert (H : ∀ l : list (string * cacheEntry V), (∀ ke, ke ∈ l → 1 ≤ ce_cost ke.2) →
    Z.of_nat (length l) ≤ sumZ (λ ke, ce_cost ke.2) l).
  { induction l as [|ke l IH]; intros Hke; cbn [length]; [done|]. rewrite sumZ_cons.
    specialize (IH ltac:(intros; apply Hke; by right)). specialize (Hke ke ltac:(left)). lia. }
  apply H. intros [k e] Hin%elem_of_map_to_list. cbn. by apply (Hc k).
Qed.

Lemma evictOne_subset s now : sh_entries (evictOne range s now) ⊆ sh_entries s.
Proof. apply delete_subseteq. Qed.

Lemma evict_loop_subset fuel s now cost limit : sh_entries (evict_loop range fuel s now cost limit) ⊆ sh_entries s.
Proof.
  revert s. induction fuel as [|fuel IH]; intros s; cbn [evict_loop]; [done|]. case_match; [|done].
  etrans; [apply IH|apply evictOne_subset].
Qed.

Lemma ttl_get_set_same (c : ttlCache V) key v ttl cost now t :
  length (tc_shards c) = cacheShards → Z.max cost 1 ≤ tc_shardCost c →
  ttl_get (ttl_set range c key v ttl cost now) key t = Some (v, now, t <? (now + ttl)%i64).
Proof using Type.
  intros Hlen Hle. unfold ttl_set. rewrite (proj2 (Z.ltb_ge _ _) Hle). unfold ttl_get. cbn [tc_shards].
  rewrite list_lookup_alter_eq. destruct (lookup_lt_is_Some_2 (tc_shards c) (shard key)) as [s Hs].
  { rewrite Hlen. apply shard_lt. }
  rewrite Hs. cbn. by rewrite lookup_insert_eq.
Qed.

Lemma ttl_get_set_other (c : ttlCache V) key key' v ttl cost now t :
  key' ≠ key → ttl_get (ttl_set range c key v ttl cost now) key' t = ttl_get c key' t ∨
    ttl_get (ttl_set range c key v ttl cost now) key' t = None.
Proof using Type.
  intros Hne. unfold ttl_set. case_match; [by left|]. unfold ttl_get. cbn [tc_shards].
  destruct (decide (shard key = shard key')) as [E|E]; [|left; by rewrite list_lookup_alter_ne].
  rewrite E, list_lookup_alter_eq. destruct (tc_shards c !! shard key') as [s|]; [|by left]. cbn.
  rewrite lookup_insert_ne by done.
  set (s1 := match sh_entries s !! key with Some old => _ | None => s end).
  assert (E1 : sh_entries s1 = sh_entries s) by (unfold s1; by destruct (sh_entries s !! key)).
  pose proof (evict_loop_subset (size (sh_entries s1)) s1 now (Z.max cost 1) (tc_shardCost c)) as Hsub.
  destruct (sh_entries (evict_loop range _ s1 _ _ _) !! key') as [e|] eqn:Ee; [left|by right].
  pose proof (lookup_weaken _ _ _ _ Ee Hsub) as He. rewrite E1 in He. by rewrite He.
Qed.

(** A lookup finds what was last set.  After a set within the budget the key
    has the new value, fresh until its time to live is over; any other key has
    the value it had, or has been evicted, and never a value of another key; a
    value that costs more than a shard's budget is not stored. *)
Theorem cache_get_set (c : ttlCache V) (key key' : string) (v : V) (ttl cost now t : Z) :
  length (tc_shards c) = cacheShards →
  let c' := ttl_set range c key v ttl cost now in
  (Z.max cost 1 ≤ tc_shardCost c → ttl_get c' key t = Some (v, now, t <? (now + ttl)%i64)) ∧
  (tc_shardCost c < Z.max cost 1 → c' = c) ∧
  (key' ≠ key → ttl_get c' key' t = ttl_get c key' t ∨ ttl_get c' key' t = None).
Proof using Type.
  intros Hlen c'. split; [intros; by apply ttl_get_set_same|]. split; [|intros; by apply ttl_get_set_other].
  intros Hlt. unfold c', ttl_set. by rewrite (proj2 (Z.ltb_lt _ _) Hlt).
Qed.
End histories.

(** ** Replacing an entry by a more expensive one *)

(** An order that starts with a given key. *)
Definition first_key {A} (k : string) (m : gmap string A) : list (string * A) :=
  match m !! k with
  | Some e => (k, e) :: map_to_list (delete k m)
  | None => map_to_list m
  end.

Lemma first_key_perm {A} k (m : gmap string A) : first_key k m ≡ₚ map_to_list m.
Proof.
  unfold first_key. destruct (m !! k) as [e|] eqn:E; [|done].
  by rewrite <-(map_to_list_delete m k e E).
Qed.

(** Replacing an entry by a more expensive one can leave a shard over its
    budget.  [set] takes off the cost of the entry it replaces before it evicts,
    and the eviction may pick that same entry and take its cost off again: here
    a shard with a budget of 10 ends up with entries that cost 14. *)
Theorem cache_replace_overruns :
  let range := first_key (A := cacheEntry string) "ab" in
  let c0 := newTTLCache (V := string) 320 in
  let c1 := ttl_set range (ttl_set range c0 "ab" "x" Second 6 0) "bk" "y" Second 4 0 in
  let c2 := ttl_set range c1 "ab" "z" Second 10 0 in
  tc_shardCost c2 = 10 ∧ ∃ s, tc_shards c2 !! shard "ab" = Some s ∧
    total (sh_entries s) = 14 ∧ sh_cost s = 8.
Proof.
  intros range c0 c1 c2. split; [vm_compute; reflexivity|]. eexists. split; [vm_compute; reflexivity|].
  split; vm_compute; reflexivity.
Qed.

Module Example_cache.
Definition range : gmap string (cacheEntry string) → list (string * cacheEntry string) := map_to_list.
Definition c0 : ttlCache string := newTTLCache 64.
Definition ops : list (cache_op (V := string)) :=
  [CSet "ab" "x" Second 1 0; CSet "bk" "y" Second 1 0; CSet "en" "z" Second 1 5].
Definition c3 : ttlCache string := foldl (cache_do range) c0 ops.
(** Three keys of one shard that holds two. *)
Definition s3 : cacheShard string := default (mkShard ∅ 0) (tc_shards c3 !! shard "ab").

Lemma c3_reach : cache_reach range 64 c3.
Proof.
  unfold c3, ops. cbn [foldl]. repeat (apply CDo; [|vm_compute; intros old E; discriminate E]). apply CNew.
Qed.
End Example_cache.

Lemma cache_stays_in_budget_witness : Z.of_nat (size (sh_entries Example_cache.s3)) ≤ 2.
Proof.
  destruct (cache_stays_in_budget Example_cache.range (λ m, reflexivity _) 64 Example_cache.c3) with Example_cache.s3
    as (_ & _ & H).
  - vm_compute. split; discriminate.
  - exact Example_cache.c3_reach.
  - apply (list_elem_of_lookup_2 _ (shard "ab")). vm_compute. reflexivity.
  - exact H.
Defined.

Lemma cache_get_set_witness :
  ttl_get (ttl_set Example_cache.range Example_cache.c3 "ab" "new" Second 1 7) "ab" 8 = Some ("new", 7, true).
Proof.
  destruct (cache_get_set Example_cache.range Example_cache.c3 "ab" "bk" "new" Second 1 7 8) as [H _].
  - vm_compute. reflexivity.
  - rewrite H; [vm_compute; reflexivity|vm_compute; discriminate].
Defined.
