(* ===== verification/Tiers.v ===== *)
(** * Key tiers: the hub's stores and cache, the edge's cache

    [packages/hub/tier_store_memory.go] and [tiers.go] (the stores),
    [packages/hub/tier_cache.go] (a hub's cache of them, invalidated over the
    control channel), and [packages/edge/tiers.go] (an edge's cache, fed by
    lookups and by the hub's pushes).  Clocks are in nanoseconds. *)

From S2P Require Import Prelude Config TtlCache.
From Stdlib Require Import Ascii.

Local Open Scope Z_scope.

(** ** The stores *)

Record InMemoryTierStore := mkMemTiers {
  ms_tiers : gmap string string;
  ms_owners : gmap string string;
}.

Definition ms_key (prefix apiKey : string) : string := prefix +:+ ":" +:+ apiKey.

Definition ms_GetTier (s : InMemoryTierStore) (prefix apiKey : string) : string :=
  default "" (ms_tiers s !! ms_key prefix apiKey).
Definition ms_SetTier (s : InMemoryTierStore) (prefix apiKey tierID : string) : InMemoryTierStore :=
  mkMemTiers (<[ms_key prefix apiKey := tierID]> (ms_tiers s)) (ms_owners s).
Definition ms_DeleteTier (s : InMemoryTierStore) (prefix apiKey : string) : InMemoryTierStore :=
  mkMemTiers (delete (ms_key prefix apiKey) (ms_tiers s)) (ms_owners s).
Definition ms_SetOwner (s : InMemoryTierStore) (prefix apiKey owner : string) : InMemoryTierStore :=
  mkMemTiers (ms_tiers s)
    (if (owner =? "")%string then delete (ms_key prefix apiKey) (ms_owners s)
     else <[ms_key prefix apiKey := owner]> (ms_owners s)).
Definition ms_GetOwner (s : InMemoryTierStore) (prefix apiKey : string) : string :=
  default "" (ms_owners s !! ms_key prefix apiKey).

(** The store in Redis: a map of strings.  A call may fail, with the client's
    error, and then changes nothing. *)
Record TierManager := mkTierManager { tm_rdb : gmap string string }.

Definition redisTierKeyPrefix : string := "hub:tier:".
Definition redisOwnerKeyPrefix : string := "hub:owner:".

Definition getCacheKey (prefixID apiKey : string) : string :=
  redisTierKeyPrefix +:+ TrimSpace prefixID +:+ ":" +:+ TrimSpace apiKey.
Definition ownerKey (prefixID apiKey : string) : string :=
  redisOwnerKeyPrefix +:+ TrimSpace prefixID +:+ ":" +:+ TrimSpace apiKey.

(** The outcome of a command: the client's error, if any. *)
Definition redis_do {A} (fail : option string) (r : A) : result string A :=
  match fail with Some e => Err e | None => Ok r end.

Definition tm_SetTier (tm : TierManager) (fail : option string) (prefixID apiKey tierID : string)
  : result string unit * TierManager :=
  (redis_do fail (), if fail then tm else mkTierManager (<[getCacheKey prefixID apiKey := TrimSpace tierID]> (tm_rdb tm))).
Definition tm_GetTier (tm : TierManager) (fail : option string) (prefixID apiKey : string) : result string string :=
  redis_do fail (match tm_rdb tm !! getCacheKey prefixID apiKey with Some v => TrimSpace v | None => "" end).
Definition tm_DeleteTier (tm : TierManager) (fail : option string) (prefixID apiKey : string)
  : result string unit * TierManager :=
  (redis_do fail (), if fail then tm else mkTierManager (delete (getCacheKey prefixID apiKey) (tm_rdb tm))).
Definition tm_SetOwner (tm : TierManager) (fail : option string) (prefixID apiKey owner : string)
  : result string unit * TierManager :=
  (redis_do fail (),
   if fail then tm
   else mkTierManager
     (if (owner =? "")%string then delete (ownerKey prefixID apiKey) (tm_rdb tm)
      else <[ownerKey prefixID apiKey := owner]> (tm_rdb tm))).
Definition tm_GetOwner (tm : TierManager) (fail : option string) (prefixID apiKey : string) : result string string :=
  redis_do fail (default "" (tm_rdb tm !! ownerKey prefixID apiKey)).

(** ** What a store promises *)

(** [TierStore] and [OwnerStore] ([interfaces.go]), over the key of a caller. *)
Class TierRecords (St : Type) := {
  tr_tier : St → string → string → string;
  tr_owner : St → string → string → string;
  tr_set_tier : St → string → string → string → St;
  tr_del_tier : St → string → string → St;
  tr_set_owner : St → string → string → string → St;
  (** the callers whose records are kept apart *)
  tr_key : string → string → Prop;
}.

Class TierRecordsLaws (St : Type) `{!TierRecords St} := {
  tr_tier_set s p k t p' k' : tr_key p k → tr_key p' k' → TrimSpace t = t →
    tr_tier (tr_set_tier s p k t) p' k' = if decide (p' = p ∧ k' = k) then t else tr_tier s p' k';
  tr_tier_del s p k p' k' : tr_key p k → tr_key p' k' →
    tr_tier (tr_del_tier s p k) p' k' = if decide (p' = p ∧ k' = k) then "" else tr_tier s p' k';
  tr_owner_set s p k o p' k' : tr_key p k → tr_key p' k' →
    tr_owner (tr_set_owner s p k o) p' k' = if decide (p' = p ∧ k' = k) then o else tr_owner s p' k';
  tr_tier_frame s p k o p' k' : tr_tier (tr_set_owner s p k o) p' k' = tr_tier s p' k';
  tr_owner_frame s p k t p' k' : tr_owner (tr_set_tier s p k t) p' k' = tr_owner s p' k';
  tr_owner_del s p k p' k' : tr_owner (tr_del_tier s p k) p' k' = tr_owner s p' k';
}.

#[export] Instance mem_records : TierRecords InMemoryTierStore := {
  tr_tier := ms_GetTier; tr_owner := ms_GetOwner; tr_set_tier := ms_SetTier;
  tr_del_tier := ms_DeleteTier; tr_set_owner := ms_SetOwner;
  tr_key p k := ¬ has_char ":" p;
}.

(** The Redis store, as long as no command fails. *)
#[export] Instance redis_records : TierRecords TierManager := {
  tr_tier tm p k := match tm_GetTier tm None p k with Ok t => t | Err _ => "" end;
  tr_owner tm p k := match tm_GetOwner tm None p k with Ok t => t | Err _ => "" end;
  tr_set_tier tm p k t := (tm_SetTier tm None p k t).2;
  tr_del_tier tm p k := (tm_DeleteTier tm None p k).2;
  tr_set_owner tm p k o := (tm_SetOwner tm None p k o).2;
  tr_key p k := ¬ has_char ":" p ∧ TrimSpace p = p ∧ TrimSpace k = k;
}.

Lemma colon_key_inj (pre : string) p k p' k' :
  ¬ has_char ":" p → ¬ has_char ":" p' → pre +:+ p +:+ ":" +:+ k = pre +:+ p' +:+ ":" +:+ k' → p = p' ∧ k = k'.
Proof.
  intros Hp Hp' E. apply (f_equal chars) in E. rewrite !chars_app in E. apply app_inv_head in E.
  apply split_first in E as [E1 E2]; [|done..]. by apply (inj chars) in E1, E2.
Qed.

Lemma ms_key_inj p k p' k' :
  ¬ has_char ":" p → ¬ has_char ":" p' → ms_key p k = ms_key p' k' → p = p' ∧ k = k'.
Proof. apply (colon_key_inj ""). Qed.

(** A lookup after an update, for keys that differ when the callers do. *)
Lemma lookup_update {A} (f : string → string → string) (m : gmap string A) p k p' k' (v : option A) :
  (f p k = f p' k' → p = p' ∧ k = k') →
  partial_alter (λ _, v) (f p k) m !! f p' k' = if decide (p' = p ∧ k' = k) then v else m !! f p' k'.
Proof.
  intros Hinj. destruct (decide (p' = p ∧ k' = k)) as [[-> ->]|Hne]; [by rewrite lookup_partial_alter_eq|].
  rewrite lookup_partial_alter_ne; [done|]. intros [-> ->]%Hinj. by apply Hne.
Qed.

#[export] Instance mem_laws : TierRecordsLaws InMemoryTierStore.
Proof.
  split; cbn; try done; intros.
  - unfold ms_GetTier, ms_SetTier, insert, map_insert. cbn. rewrite (lookup_update ms_key) by (by apply ms_key_inj). by case_decide.
  - unfold ms_GetTier, ms_DeleteTier, delete, map_delete. cbn. rewrite (lookup_update ms_key) by (by apply ms_key_inj). by case_decide.
  - unfold ms_GetOwner, ms_SetOwner, insert, delete, map_insert, map_delete. cbn. destruct (String.eqb_spec o "") as [->|];
      rewrite (lookup_update ms_key) by (by apply ms_key_inj); by case_decide.
Qed.

#[local] Arguments getCacheKey : simpl never.
#[local] Arguments ownerKey : simpl never.

#[export] Instance redis_laws : TierRecordsLaws TierManager.
Proof.
  assert (Hk : ∀ p k p' k', (¬ has_char ":" p ∧ TrimSpace p = p ∧ TrimSpace k = k) →
    (¬ has_char ":" p' ∧ TrimSpace p' = p' ∧ TrimSpace k' = k') →
    (getCacheKey p k = getCacheKey p' k' → p = p' ∧ k = k') ∧ (ownerKey p k = ownerKey p' k' → p = p' ∧ k = k')).
  { intros p k p' k' (Hp & E1 & E2) (Hp' & E3 & E4). unfold getCacheKey, ownerKey. rewrite E1, E2, E3, E4.
    split; by apply colon_key_inj. }
  assert (Hne : ∀ p k p' k', getCacheKey p k ≠ ownerKey p' k').
  { intros p k p' k' E. apply (f_equal chars) in E. unfold getCacheKey, ownerKey in E. rewrite !chars_app in E. done. }
  split; cbn; intros.
  - unfold tm_GetTier, tm_SetTier, insert, map_insert. cbn. rewrite (lookup_update getCacheKey) by (by apply Hk).
    case_decide; [|done]. congruence.
  - unfold tm_GetTier, tm_DeleteTier, delete, map_delete. cbn. rewrite (lookup_update getCacheKey) by (by apply Hk). by case_decide.
  - unfold tm_GetOwner, tm_SetOwner, insert, delete, map_insert, map_delete. cbn. destruct (String.eqb_spec o "") as [->|]; cbn;
      rewrite (lookup_update ownerKey) by (by apply Hk); by case_decide.
  - destruct (o =? "")%string; [by rewrite lookup_delete_ne|by rewrite lookup_insert_ne].
  - rewrite lookup_insert_ne; [done|]. apply Hne.
  - rewrite lookup_delete_ne; [done|]. apply Hne.
Qed.

(** ** A hub's cache ([tier_cache.go]) *)

Record cachedTier := mkCachedTier {
  ct_tier : string;
  ct_owner : string;
  ct_hasOwner : bool;
  ct_at : Z;
}.

Record CachedTiers := mkCachedTiers {
  cc_ttl : Z; (* time.Duration *)
  cc_max : Z;
  cc_m : gmap string cachedTier;
  cc_gen : Z; (* atomic.Uint64: counts invalidations *)
}.

Definition NewCachedTiers (ttl : Z) : CachedTiers := mkCachedTiers ttl 200000 ∅ 0.

Definition cacheKey (prefix apiKey : string) : string := prefix +:+ String "000" apiKey.

Definition ct_lookup (c : CachedTiers) (k : string) (now : Z) : option cachedTier :=
  match cc_m c !! k with
  | Some e => if now - ct_at e <? cc_ttl c then Some e else None
  | None => None
  end.

(** [store1]: the zero entry of a missing key is stale at any time. *)
Definition store1 (c : CachedTiers) (k : string) (gen now : Z) (update : cachedTier → cachedTier) : CachedTiers :=
  if negb (cc_gen c =? gen) then c
  else
    let m := if cc_max c <=? Z.of_nat (size (cc_m c)) then ∅ else cc_m c in
    let zero := mkCachedTier "" "" false 0 in
    let e := match m !! k with
             | Some e => if cc_ttl c <=? now - ct_at e then zero else e
             | None => zero
             end in
    let e := update e in
    mkCachedTiers (cc_ttl c) (cc_max c)
      (<[k := mkCachedTier (ct_tier e) (ct_owner e) (ct_hasOwner e) now]> m) (cc_gen c).

Definition set_ct_tier (tier : string) (e : cachedTier) : cachedTier :=
  mkCachedTier tier (ct_owner e) (ct_hasOwner e) (ct_at e).
Definition set_ct_owner (owner : string) (e : cachedTier) : cachedTier :=
  mkCachedTier (ct_tier e) owner true (ct_at e).

(** A hit of [GetTier] and of [GetOwner]. *)
Definition tier_hit (c : CachedTiers) (k : string) (now : Z) : option string :=
  match ct_lookup c k now with
  | Some e => if (ct_tier e =? "")%string then None else Some (ct_tier e)
  | None => None
  end.
Definition owner_hit (c : CachedTiers) (k : string) (now : Z) : option string :=
  match ct_lookup c k now with
  | Some e => if ct_hasOwner e then Some (ct_owner e) else None
  | None => None
  end.

(** The end of a miss: store the answer of a lookup that began at [gen]. *)
Definition tier_store (c : CachedTiers) (k : string) (gen now : Z) (tier : string) : CachedTiers :=
  if (tier =? "")%string then c else store1 c k gen now (set_ct_tier tier).
Definition owner_store (c : CachedTiers) (k : string) (gen now : Z) (owner : string) : CachedTiers :=
  store1 c k gen now (set_ct_owner owner).

(** [Invalidate], in its two atomic parts. *)
Definition bump (c : CachedTiers) : CachedTiers :=
  mkCachedTiers (cc_ttl c) (cc_max c) (cc_m c) (cc_gen c + 1).
Definition forget (c : CachedTiers) (k : string) : CachedTiers :=
  mkCachedTiers (cc_ttl c) (cc_max c) (delete k (cc_m c)) (cc_gen c).

(** The calls run alone, over a store [s]. *)
Section calls.
Context {St : Type} `{!TierRecords St}.

Definition GetTier_cached (c : CachedTiers) (s : St) (now : Z) (prefix apiKey : string)
  : string * CachedTiers :=
  let k := cacheKey prefix apiKey in
  match tier_hit c k now with
  | Some t => (t, c)
  | None => let t := tr_tier s prefix apiKey in (t, tier_store c k (cc_gen c) now t)
  end.

Definition GetOwner_cached (c : CachedTiers) (s : St) (now : Z) (prefix apiKey : string)
  : string * CachedTiers :=
  let k := cacheKey prefix apiKey in
  match owner_hit c k now with
  | Some o => (o, c)
  | None => let o := tr_owner s prefix apiKey in (o, owner_store c k (cc_gen c) now o)
  end.

Definition Invalidate (c : CachedTiers) (prefix apiKey : string) : CachedTiers :=
  forget (bump c) (cacheKey prefix apiKey).

Definition SetTier_cached (c : CachedTiers) (s : St) (prefix apiKey tierID : string) : CachedTiers * St :=
  (Invalidate c prefix apiKey, tr_set_tier s prefix apiKey tierID).
Definition DeleteTier_cached (c : CachedTiers) (s : St) (prefix apiKey : string) : CachedTiers * St :=
  (Invalidate c prefix apiKey, tr_del_tier s prefix apiKey).
Definition SetOwner_cached (c : CachedTiers) (s : St) (prefix apiKey owner : string) : CachedTiers * St :=
  (Invalidate c prefix apiKey, tr_set_owner s prefix apiKey owner).
End calls.

(** ** Interleavings of lookups and changes *)

(** What a store holds for a caller, by its cache key. *)
Record rec := mkRec { rec_tier : string; rec_owner : string }.

Inductive field := FTier | FOwner.
Definition rec_get (f : field) (r : rec) : string :=
  match f with FTier => rec_tier r | FOwner => rec_owner r end.

(** A lookup that missed: it has noted the number of invalidations, and then
    read the store. *)
Inductive ct_look :=
| Looking (f : field) (k : string) (gen : Z)
| Looked (f : field) (k : string) (gen : Z) (v : string).

(** A change that reached the store: its invalidation on this hub is to come. *)
Inductive inv := ToBump (k : string) | ToForget (k : string).

#[export] Instance inv_eq_dec : EqDecision inv.
Proof. solve_decision. Defined.

Record tworld := mkTWorld {
  tw_now : Z;
  tw_cache : CachedTiers;
  tw_store : string → rec;
  tw_looks : list ct_look;
  tw_invs : list inv;
}.

Definition store_set (s : string → rec) (k : string) (r : rec) : string → rec :=
  λ k', if decide (k' = k) then r else s k'.

Definition store_result (c : CachedTiers) (f : field) (k : string) (gen now : Z) (v : string) : CachedTiers :=
  match f with FTier => tier_store c k gen now v | FOwner => owner_store c k gen now v end.

Inductive tstep : tworld → tworld → Prop :=
| TTick t now c s ls ivs : now ≤ t → tstep (mkTWorld now c s ls ivs) (mkTWorld t c s ls ivs)
| TLook f k now c s ls ivs :
    tstep (mkTWorld now c s ls ivs) (mkTWorld now c s (ls ++ [Looking f k (cc_gen c)]) ivs)
| TRead i f k g now c s ls ivs : ls !! i = Some (Looking f k g) →
    tstep (mkTWorld now c s ls ivs) (mkTWorld now c s (<[i := Looked f k g (rec_get f (s k))]> ls) ivs)
| TFail i now c s ls ivs : tstep (mkTWorld now c s ls ivs) (mkTWorld now c s (delete i ls) ivs)
| TStore i f k g v now c s ls ivs : ls !! i = Some (Looked f k g v) →
    tstep (mkTWorld now c s ls ivs) (mkTWorld now (store_result c f k g now v) s (delete i ls) ivs)
(** a change made by this hub or another one *)
| TChange k r now c s ls ivs :
    tstep (mkTWorld now c s ls ivs) (mkTWorld now c (store_set s k r) ls (ivs ++ [ToBump k]))
| TBump i k now c s ls ivs : ivs !! i = Some (ToBump k) →
    tstep (mkTWorld now c s ls ivs) (mkTWorld now (bump c) s ls (<[i := ToForget k]> ivs))
| TForget i k now c s ls ivs : ivs !! i = Some (ToForget k) →
    tstep (mkTWorld now c s ls ivs) (mkTWorld now (forget c k) s ls (delete i ivs)).

Inductive treach (ttl : Z) : tworld → Prop :=
| TInit now s : treach ttl (mkTWorld now (NewCachedTiers ttl) s [] [])
| TNext w w' : treach ttl w → tstep w w' → treach ttl w'.

(** No change of a caller's record is still to be applied to the cache. *)
Definition settled (w : tworld) (k : string) : Prop :=
  ToBump k ∉ tw_invs w ∧ ToForget k ∉ tw_invs w.

(** A cached entry that agrees with a record. *)
Definition agrees (r : rec) (e : cachedTier) : Prop :=
  (ct_tier e = "" ∨ ct_tier e = rec_tier r) ∧ (ct_hasOwner e = true → ct_owner e = rec_owner r).

Record tinv (w : tworld) : Prop := {
  ti_cache : ∀ k e, cc_m (tw_cache w) !! k = Some e →
    agrees (tw_store w k) e ∨ ToBump k ∈ tw_invs w ∨ ToForget k ∈ tw_invs w;
  ti_looking : ∀ f k g, Looking f k g ∈ tw_looks w → g ≤ cc_gen (tw_cache w);
  ti_looked : ∀ f k g v, Looked f k g v ∈ tw_looks w → g ≤ cc_gen (tw_cache w) ∧
    (v = rec_get f (tw_store w k) ∨ g < cc_gen (tw_cache w) ∨ ToBump k ∈ tw_invs w);
}.

Lemma store1_lookup c k gen now upd k' e :
  cc_m (store1 c k gen now upd) !! k' = Some e →
  cc_m c !! k' = Some e ∨
  (k' = k ∧ cc_gen c = gen ∧ ∃ e0, (e0 = mkCachedTier "" "" false 0 ∨ cc_m c !! k = Some e0) ∧
     e = mkCachedTier (ct_tier (upd e0)) (ct_owner (upd e0)) (ct_hasOwner (upd e0)) now).
Proof.
  unfold store1. destruct (Z.eqb_spec (cc_gen c) gen) as [Hg|]; cbn; [|by left].
  set (m := if cc_max c <=? _ then ∅ else cc_m c).
  assert (Hm : ∀ k e, m !! k = Some e → cc_m c !! k = Some e).
  { intros k0 e0. unfold m. case_match; [by rewrite lookup_empty|done]. }
  intros [[<- <-]|[_ ?]]%lookup_insert_Some; [|by left; apply Hm]. right. split; [done|]. split; [done|].
  eexists. split; [|done]. destruct (m !! k) as [e0|] eqn:E; [|by left]. case_match; [by left|right; by apply Hm].
Qed.

Lemma store_result_gen c f k g now v : cc_gen (store_result c f k g now v) = cc_gen c.
Proof. unfold store_result, tier_store, owner_store, store1. by repeat case_match. Qed.

(** An entry the cache has after a lookup's answer was stored. *)
Lemma store_result_agrees c f k g now v k' e r :
  cc_m (store_result c f k g now v) !! k' = Some e →
  cc_m c !! k' = Some e ∨
  (k' = k ∧ cc_gen c = g ∧ (v = rec_get f r → (∀ e0, cc_m c !! k = Some e0 → agrees r e0) → agrees r e)).
Proof.
  intros H. assert (Hs : cc_m c !! k' = Some e ∨ (k' = k ∧ cc_gen c = g ∧
    ∃ e0, (e0 = mkCachedTier "" "" false 0 ∨ cc_m c !! k = Some e0) ∧
      (v = rec_get f r → agrees r e0 → agrees r e))).
  { unfold store_result, tier_store, owner_store in H. destruct f; [destruct (v =? "")%string; [by left|]|].
    all: apply store1_lookup in H as [?|(-> & Hg & e0 & He0 & ->)]; [by left|right].
    all: split; [done|]; split; [done|]; exists e0; split; [done|]; intros -> [H1 H2]; split; cbn; auto. }
  destruct Hs as [?|(-> & Hg & e0 & He0 & Hag)]; [by left|]. right. split; [done|]. split; [done|].
  intros Hv Hall. apply Hag; [done|]. destruct He0 as [->|He0]; [|by apply Hall]. split; [by left|done].
Qed.

Lemma store_set_ne s k r k' : k' ≠ k → store_set s k r k' = s k'.
Proof. intros. unfold store_set. by rewrite decide_False. Qed.

Lemma tinv_look w w' : tinv w → tstep w w' →
  tw_store w' = tw_store w → tw_invs w' = tw_invs w → tw_cache w' = tw_cache w →
  (∀ l, l ∈ tw_looks w' → l ∈ tw_looks w ∨ (∃ f k, l = Looking f k (cc_gen (tw_cache w))) ∨
     ∃ f k g, Looking f k g ∈ tw_looks w ∧ l = Looked f k g (rec_get f (tw_store w k))) → tinv w'.
Proof.
  intros [Hc Hl Hd] _ Hs Hi Hcc Hlooks. split; rewrite ?Hs, ?Hi, ?Hcc.
  - done.
  - intros f k g Hin. destruct (Hlooks _ Hin) as [?|[(f' & k' & [= -> -> ->])|(? & ? & ? & _ & ?)]]; [by eapply Hl|done|done].
  - intros f k g v Hin. destruct (Hlooks _ Hin) as [?|[(? & ? & ?)|(f' & k' & g' & Hin' & [= -> -> -> ->])]]; [by apply Hd|done|].
    split; [by eapply Hl|by left].
Qed.

Lemma insert_elem {A} (l : list A) i y x : x ∈ <[i := y]> l → x ∈ l ∨ x = y.
Proof.
  intros [j Hj]%list_elem_of_lookup. apply list_lookup_insert_Some in Hj as [(_ & <- & _)|[_ Hj]]; [by right|left].
  by apply list_elem_of_lookup_2 in Hj.
Qed.

Lemma tinv_store i f k g v now c s ls ivs :
  ls !! i = Some (Looked f k g v) → tinv (mkTWorld now c s ls ivs) →
  tinv (mkTWorld now (store_result c f k g now v) s (delete i ls) ivs).
Proof.
  intros Hi [Hc Hl Hd]. cbn in *. split; cbn; rewrite ?store_result_gen.
  - intros k' e He. apply (store_result_agrees _ _ _ _ _ _ _ _ (s k)) in He as [He|(-> & Hg & Hag)]; [by apply Hc|].
    destruct (decide (ToBump k ∈ ivs)); [auto|]. destruct (decide (ToForget k ∈ ivs)); [auto|]. left. apply Hag.
    + destruct (Hd f k g v) as [_ [?|[?|?]]]; [by apply list_elem_of_lookup_2 in Hi|done|lia|done].
    + intros e0 He0. by destruct (Hc k e0 He0) as [?|[?|?]].
  - intros f' k' g' Hin%list_elem_of_delete_inv. by eapply Hl.
  - intros f' k' g' v' Hin%list_elem_of_delete_inv. by apply Hd.
Qed.

Lemma tinv_change k r now c s ls ivs :
  tinv (mkTWorld now c s ls ivs) → tinv (mkTWorld now c (store_set s k r) ls (ivs ++ [ToBump k])).
Proof.
  intros [Hc Hl Hd]. cbn in *. assert (Hk : ToBump k ∈ ivs ++ [ToBump k]) by (apply elem_of_app; right; left).
  split; cbn.
  - intros k' e He. destruct (decide (k' = k)) as [->|Hne]; [auto|]. rewrite store_set_ne by done.
    rewrite !elem_of_app. destruct (Hc k' e He) as [?|[?|?]]; auto.
  - done.
  - intros f k' g v Hin. destruct (Hd f k' g v Hin) as [Hg Hv]. split; [done|].
    destruct (decide (k' = k)) as [->|Hne]; [auto|]. rewrite store_set_ne, elem_of_app by done. naive_solver.
Qed.

Lemma tinv_bump i k now c s ls ivs :
  ivs !! i = Some (ToBump k) → tinv (mkTWorld now c s ls ivs) →
  tinv (mkTWorld now (bump c) s ls (<[i := ToForget k]> ivs)).
Proof.
  intros Hi [Hc Hl Hd]. cbn in *. pose proof (lookup_lt_Some _ _ _ Hi) as Hlt.
  assert (Hk : ToForget k ∈ <[i := ToForget k]> ivs) by (by apply list_elem_of_insert).
  assert (Hkeep : ∀ x, x ∈ ivs → x ≠ ToBump k → x ∈ <[i := ToForget k]> ivs).
  { intros x [j Hj]%list_elem_of_lookup Hx. apply (list_elem_of_lookup_2 _ j). rewrite list_lookup_insert_ne; [done|].
    intros ->. by simplify_eq. }
  split; cbn.
  - intros k' e He. destruct (decide (k' = k)) as [->|Hne]; [auto|].
    destruct (Hc k' e He) as [?|[?|?]]; [auto|right; left|right; right]; apply Hkeep; congruence.
  - intros f k' g Hin. specialize (Hl f k' g Hin). lia.
  - intros f k' g v Hin. destruct (Hd f k' g v Hin) as [Hg _]. split; [lia|]. right. left. lia.
Qed.

Lemma tinv_forget i k now c s ls ivs :
  ivs !! i = Some (ToForget k) → tinv (mkTWorld now c s ls ivs) →
  tinv (mkTWorld now (forget c k) s ls (delete i ivs)).
Proof.
  intros Hi [Hc Hl Hd]. cbn in *.
  assert (Hkeep : ∀ x, x ∈ ivs → x ≠ ToForget k → x ∈ delete i ivs).
  { intros x Hx Hne. rewrite (delete_Permutation ivs i _ Hi) in Hx. by apply elem_of_cons in Hx as [?|?]. }
  split; cbn.
  - intros k' e [Hne He]%lookup_delete_Some.
    destruct (Hc k' e He) as [?|[?|?]]; [auto|right; left|right; right]; apply Hkeep; congruence.
  - done.
  - intros f k' g v Hin. destruct (Hd f k' g v Hin) as [Hg Hv]. split; [done|].
    destruct Hv as [?|[?|?]]; [auto..|]. right. right. by apply Hkeep.
Qed.

Lemma tinv_reach ttl w : treach ttl w → tinv w.
Proof.
  induction 1 as [now s|w w' _ IH Hs].
  { split; cbn; [intros k e; by rewrite lookup_empty|by intros ??? ?%elem_of_nil|by intros ???? ?%elem_of_nil]. }
  pose proof Hs as Hs'. destruct Hs'; try by eauto using tinv_store, tinv_change, tinv_bump, tinv_forget.
  all: apply (tinv_look _ _ IH Hs); try done; cbn.
  - auto.
  - intros l [?| ->%list_elem_of_singleton]%elem_of_app; [auto|]. right. left. by eexists _, _.
  - intros l [?| ->]%insert_elem; [auto|]. right. right. eexists _, _, _. split; [|done]. by apply list_elem_of_lookup_2 in H.
  - intros l ?%list_elem_of_delete_inv. auto.
Qed.

(** C27: a hub's cache never serves an outdated tier or owner once the change
    has been applied.  Lookups of any number of requests, changes made here or on
    other hubs and their invalidations interleave in any order, in the atomic
    parts they are made of; whenever no invalidation of a caller is still under
    way, a hit for that caller is what the store holds. *)
Theorem tier_cache_current (ttl : Z) (w : tworld) (k v : string) :
  treach ttl w → settled w k →
  (tier_hit (tw_cache w) k (tw_now w) = Some v → v = rec_tier (tw_store w k)) ∧
  (owner_hit (tw_cache w) k (tw_now w) = Some v → v = rec_owner (tw_store w k)).
Proof.
  intros [Hc _ _]%tinv_reach [Hb Hf]. unfold tier_hit, owner_hit, ct_lookup.
  destruct (cc_m (tw_cache w) !! k) as [e|] eqn:He; [|done]. destruct (_ <? _); [|done].
  destruct (Hc k e He) as [[Ht Ho]|[?|?]]; [|done..]. split.
  - destruct (String.eqb_spec (ct_tier e) ""); [done|]. intros [= <-]. by destruct Ht.
  - destruct (ct_hasOwner e); [|done]. intros [= <-]. by apply Ho.
Qed.

(** The time to live does not bound how old a served tier is.  A tier
    cached at [a] is normally served until [a + ttl]; but the first owner lookup
    for the same caller, at [t1], renews the whole entry, so that the tier is
    served until [t1 + ttl], whatever the store holds by then. *)
Theorem owner_lookup_renews_tier {St} `{!TierRecords St} (c : CachedTiers) (s s' : St) (p a : string)
  (e : cachedTier) (t1 t2 : Z) :
  cc_m c !! cacheKey p a = Some e → ct_tier e ≠ "" → ct_hasOwner e = false →
  Z.of_nat (size (cc_m c)) < cc_max c →
  ct_at e ≤ t1 < ct_at e + cc_ttl c → t1 ≤ t2 < t1 + cc_ttl c →
  (GetTier_cached (GetOwner_cached c s t1 p a).2 s' t2 p a).1 = ct_tier e.
Proof.
  intros He Ht Ho Hsz Ht1 Ht2. unfold GetOwner_cached, owner_hit, ct_lookup. rewrite He.
  rewrite (proj2 (Z.ltb_lt _ _)) by lia. rewrite Ho. cbn [snd].
  unfold owner_store, store1. rewrite Z.eqb_refl, (proj2 (Z.leb_gt _ _)) by lia. cbn [negb].
  rewrite He, (proj2 (Z.leb_gt _ _)) by lia. unfold GetTier_cached, tier_hit, ct_lookup. cbn.
  rewrite lookup_insert_eq. cbn. rewrite (proj2 (Z.ltb_lt _ _)) by lia.
  cbn [ct_tier]. by rewrite (proj2 (String.eqb_neq _ _) Ht).
Qed.

(** ** An edge's cache ([packages/edge/tiers.go]) *)

Definition tierTTL : Z := Hour.
Definition unknownKeyTTL : Z := 30 * Second.
Definition tierCacheKeys : Z := 1048576.

Record tierEntry := mkTierEntry { te_tier : string; te_gen : Z }.

Record TierCache := mkTierCache {
  ec_cache : ttlCache tierEntry;
  ec_gen : Z; (* atomic.Uint64: bumped by Reset *)
}.

Definition NewTierCache : TierCache := mkTierCache (newTTLCache tierCacheKeys) 0.

Definition tierKey (prefix apiKey : string) : string := prefix +:+ String "000" apiKey.

Section edge_tiers.
Variable range : gmap string (cacheEntry tierEntry) → list (string * cacheEntry tierEntry).

(** The fast path of [Get]; without a hit the hub is asked, once for each key
    however many requests miss together. *)
Definition TierCache_hit (t : TierCache) (prefix apiKey : string) (now : Z) : option string :=
  match ttl_get (ec_cache t) (tierKey prefix apiKey) now with
  | Some (e, _, fresh) => if fresh && (te_gen e =? ec_gen t) then Some (te_tier e) else None
  | None => None
  end.

Definition TierCache_store (t : TierCache) (key tier : string) (gen now : Z) : TierCache :=
  let ttl := if (tier =? "")%string then unknownKeyTTL else tierTTL in
  mkTierCache (ttl_set range (ec_cache t) key (mkTierEntry tier gen) ttl 1 now) (ec_gen t).

(** A miss: the number of resets is read first, then the hub asked; a failed
    lookup stores nothing. *)
Definition TierCache_resolved (t : TierCache) (prefix apiKey : string) (gen now : Z)
  (answer : result string string) : result string string * TierCache :=
  match answer with
  | Err e => (Err e, t)
  | Ok tier => (Ok tier, TierCache_store t (tierKey prefix apiKey) tier gen now)
  end.

(** [Stale]: the last tier seen, if it is not older than [maxAge]. *)
Definition TierCache_Stale (t : TierCache) (prefix apiKey : string) (maxAge now : Z) : option string :=
  match ttl_get (ec_cache t) (tierKey prefix apiKey) now with
  | Some (e, storedAt, _) =>
      if (te_tier e =? "")%string || ((0 <? maxAge) && (maxAge <? (now - storedAt)%i64)) then None
      else Some (te_tier e)
  | None => None
  end.

Definition TierCache_Set (t : TierCache) (prefix apiKey tier : string) (now : Z) : TierCache :=
  TierCache_store t (tierKey prefix apiKey) tier (ec_gen t) now.

Definition TierCache_Reset (t : TierCache) : TierCache := mkTierCache (ec_cache t) (ec_gen t + 1).

(** The operations, in any order; a lookup stores what it began with, as late
    as it likes. *)
Inductive edge_op :=
| EResolved (prefix apiKey tier : string) (gen now : Z)
| ESet (prefix apiKey tier : string) (now : Z)
| EReset.

Definition edge_do (t : TierCache) (o : edge_op) : TierCache :=
  match o with
  | EResolved p a tier gen now => (TierCache_resolved t p a gen now (Ok tier)).2
  | ESet p a tier now => TierCache_Set t p a tier now
  | EReset => TierCache_Reset t
  end.

(** A lookup has read the number of resets before. *)
Definition edge_op_ok (t : TierCache) (o : edge_op) : Prop :=
  match o with EResolved _ _ _ gen _ => gen ≤ ec_gen t | _ => True end.

Inductive edge_reach : TierCache → Prop :=
| ENew : edge_reach NewTierCache
| EDo t o : edge_reach t → edge_op_ok t o → edge_reach (edge_do t o).

Definition gens_ok (t : TierCache) : Prop :=
  length (tc_shards (ec_cache t)) = cacheShards ∧
  ∀ key now e st fresh, ttl_get (ec_cache t) key now = Some (e, st, fresh) → te_gen e ≤ ec_gen t.

Lemma ttl_set_shards (c : ttlCache tierEntry) key v ttl cost now :
  length (tc_shards (ttl_set range c key v ttl cost now)) = length (tc_shards c).
Proof. unfold ttl_set. case_match; [done|]. cbn. apply length_alter. Qed.

Lemma gens_store t key tier gen now : gens_ok t → gen ≤ ec_gen t → gens_ok (TierCache_store t key tier gen now).
Proof.
  intros [Hn Hg] Hle. unfold TierCache_store. set (ttl := if (tier =? "")%string then _ else _).
  split; cbn [ec_cache ec_gen]; [by rewrite ttl_set_shards|]. intros key' now' e st fresh He.
  destruct (Z.leb_spec 1 (tc_shardCost (ec_cache t))) as [Hc|Hc].
  - destruct (decide (key' = key)) as [->|Hne].
    + rewrite (ttl_get_set_same _ _ _ _ _ _ _ _ Hn) in He by lia. by injection He as <- <- <-.
    + destruct (ttl_get_set_other range (ec_cache t) key key' (mkTierEntry tier gen) ttl 1 now now' Hne) as [E|E];
        rewrite E in He; [by eapply Hg|done].
  - unfold ttl_set in He. rewrite (proj2 (Z.ltb_lt _ _)) in He by lia. by eapply Hg.
Qed.

Lemma gens_reach t : edge_reach t → gens_ok t.
Proof.
  induction 1 as [|t o _ IH Hok].
  { split; [done|]. intros key now e st fresh. unfold ttl_get, NewTierCache. cbn [ec_cache newTTLCache tc_shards].
    destruct (_ !! shard key) as [s|] eqn:E; [|done]. apply lookup_replicate in E as [-> _]. cbn. by rewrite lookup_empty. }
  destruct o as [p a tier gen now|p a tier now|]; cbn in *.
  - by apply gens_store.
  - by apply gens_store.
  - destruct IH as [Hn Hg]. split; [done|]. cbn. intros key now e st fresh He. specialize (Hg _ _ _ _ _ He). lia.
Qed.

(** A reset makes an edge ask again.  After a reconnect, when pushes may
    have been missed, no cached tier is served any more: every key misses and
    the hub is asked; what was known stays available as a stale answer. *)
Theorem reset_revalidates (t : TierCache) (prefix apiKey : string) (maxAge now : Z) :
  edge_reach t →
  TierCache_hit (TierCache_Reset t) prefix apiKey now = None ∧
  TierCache_Stale (TierCache_Reset t) prefix apiKey maxAge now = TierCache_Stale t prefix apiKey maxAge now.
Proof.
  intros [_ Hg]%gens_reach. split; [|done]. unfold TierCache_hit, TierCache_Reset. cbn.
  destruct (ttl_get (ec_cache t) _ now) as [[[e st] fresh]|] eqn:E; [|done]. specialize (Hg _ _ _ _ _ E).
  rewrite (proj2 (Z.eqb_neq _ _)), andb_false_r by lia. done.
Qed.

(** a lookup under way can undo a pushed revocation.  A lookup that read
    the hub's record before a key was revoked, and stores its answer after the
    revocation was pushed, brings the old tier back: nothing tells it from a
    newer answer, and the edge serves it for another hour without asking. *)
Theorem late_lookup_undoes_push (t : TierCache) (prefix apiKey old : string) (now1 now2 now3 : Z) :
  length (tc_shards (ec_cache t)) = cacheShards → 1 ≤ tc_shardCost (ec_cache t) → old ≠ "" →
  0 ≤ now2 ≤ int64_max - tierTTL → now3 < now2 + tierTTL →
  let pushed := TierCache_Set t prefix apiKey "" now1 in
  let after := TierCache_resolved pushed prefix apiKey (ec_gen t) now2 (Ok old) in
  TierCache_hit after.2 prefix apiKey now3 = Some old.
Proof.
  intros Hn Hc Hold Hnow2 Hnow3. cbn [snd TierCache_resolved]. unfold TierCache_hit, TierCache_store. cbn [ec_cache ec_gen].
  rewrite ttl_get_set_same.
  - rewrite (proj2 (String.eqb_neq _ _) Hold). unfold i64_add, tierTTL, Hour in *. rewrite wrap64_small by i64_range.
    rewrite (proj2 (Z.ltb_lt _ _)) by lia. cbn. by rewrite Z.eqb_refl.
  - unfold TierCache_Set, TierCache_store. cbn [ec_cache]. by rewrite ttl_set_shards.
  - unfold TierCache_Set, TierCache_store, ttl_set. cbn [ec_cache]. case_match; cbn; lia.
Qed.
End edge_tiers.

Module Example_tiers.
Definition k : string := cacheKey "v1" "key1".
Definition gold : string → rec := λ _, mkRec "gold" "acme".
Definition silver : string → rec := store_set gold k (mkRec "silver" "acme").
Definition look : ct_look := Looking FTier k 0.
(** A lookup reads the old tier, the key changes, the change is applied, and
    only then the lookup stores its answer; a second lookup follows. *)
Definition c1 : CachedTiers := forget (bump (NewCachedTiers Minute)) k.
Definition c2 : CachedTiers := tier_store c1 k 1 7 "silver".
Definition w : tworld := mkTWorld 7 c2 silver [] [].

Lemma w_reach : treach Minute w.
Proof.
  eapply TNext; [eapply TNext; [eapply TNext; [eapply TNext; [eapply TNext; [eapply TNext; [eapply TNext;
    [eapply TNext; [eapply TNext; [apply (TInit Minute 7 gold)|]|]|]|]|]|]|]|]|].
  - apply (TLook FTier k).
  - by apply (TRead 0 FTier k 0).
  - apply (TChange k (mkRec "silver" "acme")).
  - by apply (TBump 0 k).
  - by apply (TForget 0 k).
  - by apply (TStore 0 FTier k 0 "gold").
  - apply (TLook FTier k).
  - by apply (TRead 0 FTier k 1).
  - by apply (TStore 0 FTier k 1 "silver").
Qed.

Definition range : gmap string (cacheEntry tierEntry) → list (string * cacheEntry tierEntry) := map_to_list.
Definition known : TierCache := TierCache_Set range NewTierCache "v1" "key1" "gold" 0.
Lemma known_reach : edge_reach range known.
Proof. apply (EDo range NewTierCache (ESet "v1" "key1" "gold" 0)); [apply ENew|exact I]. Qed.
End Example_tiers.

Lemma tier_cache_current_witness :
  tier_hit (tw_cache Example_tiers.w) Example_tiers.k 7 = Some "silver" ∧
  "silver" = rec_tier (tw_store Example_tiers.w Example_tiers.k).
Proof.
  assert (H : tier_hit (tw_cache Example_tiers.w) Example_tiers.k 7 = Some "silver") by (vm_compute; reflexivity).
  split; [exact H|].
  destruct (tier_cache_current Minute Example_tiers.w Example_tiers.k "silver") as [Ht _].
  - exact Example_tiers.w_reach.
  - split; apply not_elem_of_nil.
  - exact (Ht H).
Defined.

Lemma owner_lookup_renews_tier_witness :
  (GetTier_cached (GetOwner_cached (tier_store (NewCachedTiers Minute) (cacheKey "v1" "key1") 0 0 "gold")
     (mkMemTiers ∅ ∅) (50 * Second) "v1" "key1").2 (mkMemTiers ∅ ∅) (100 * Second) "v1" "key1").1 = "gold".
Proof.
  apply (owner_lookup_renews_tier (tier_store (NewCachedTiers Minute) (cacheKey "v1" "key1") 0 0 "gold")
    (mkMemTiers ∅ ∅) (mkMemTiers ∅ ∅) "v1" "key1" (mkCachedTier "gold" "" false 0) (50 * Second) (100 * Second)).
  - vm_compute. reflexivity.
  - discriminate.
  - reflexivity.
  - vm_compute. reflexivity.
  - vm_compute. split; [discriminate|reflexivity].
  - vm_compute. split; [discriminate|reflexivity].
Defined.

Lemma reset_revalidates_witness :
  TierCache_hit Example_tiers.known "v1" "key1" 1 = Some "gold" ∧
  TierCache_hit (TierCache_Reset Example_tiers.known) "v1" "key1" 1 = None.
Proof.
  split; [vm_compute; reflexivity|].
  apply (reset_revalidates Example_tiers.range Example_tiers.known "v1" "key1" 0 1). exact Example_tiers.known_reach.
Defined.

Lemma late_lookup_undoes_push_witness :
  TierCache_hit (TierCache_resolved Example_tiers.range
    (TierCache_Set Example_tiers.range Example_tiers.known "v1" "key1" "" 10) "v1" "key1" 0 20 (Ok "gold")).2
    "v1" "key1" (30 * Minute) = Some "gold".
Proof.
  apply (late_lookup_undoes_push Example_tiers.range Example_tiers.known "v1" "key1" "gold" 10 20 (30 * Minute)).
  - vm_compute. reflexivity.
  - vm_compute. discriminate.
  - discriminate.
  - vm_compute. split; discriminate.
  - vm_compute. reflexivity.
Defined.
