(* ===== verification/GoLib.v ===== *)
(** * The Go library functions the gateway uses

    Functions of [strings] and [strconv.ParseInt] and [net.SplitHostPort] on
    ASCII strings, and HTTP headers as maps from canonical names to first
    values. *)

From S2P Require Import Prelude.
From Stdlib Require Import Ascii String.

Local Open Scope Z_scope.

(** [strings.CutPrefix] and [strings.TrimPrefix]. *)
Fixpoint CutPrefix (s prefix : string) : option string :=
  match prefix, s with
  | EmptyString, _ => Some s
  | String c prefix, String d s => if (c =? d)%char then CutPrefix s prefix else None
  | _, _ => None
  end.
Definition TrimPrefix (s prefix : string) : string := default s (CutPrefix s prefix).
Definition HasPrefix (s prefix : string) : bool := bool_decide (is_Some (CutPrefix s prefix)).

(** [strings.Cut] at a character: what is before it, and what is after it
    when it occurs. *)
Fixpoint Cut (c : ascii) (s : string) : string * option string :=
  match s with
  | EmptyString => (EmptyString, None)
  | String d s =>
      if (c =? d)%char then (EmptyString, Some s)
      else let '(a, b) := Cut c s in (String d a, b)
  end.

(** [strings.SplitN] at a character, for [n ≥ 0]. *)
Fixpoint SplitN (c : ascii) (n : nat) (s : string) : list string :=
  match n with
  | O => []
  | S O => [s]
  | S n => match Cut c s with
           | (a, Some b) => a :: SplitN c n b
           | (a, None) => [a]
           end
  end.

(** [strings.Join]. *)
Fixpoint Join (l : list string) (sep : string) : string :=
  match l with
  | [] => ""
  | [x] => x
  | x :: l => x +:+ sep +:+ Join l sep
  end.

(** [strings.IndexByte] and [strings.LastIndexByte]. *)
Fixpoint IndexByte (c : ascii) (s : string) : option nat :=
  match s with
  | EmptyString => None
  | String d s => if (c =? d)%char then Some O else S <$> IndexByte c s
  end.
Fixpoint LastIndexByte (c : ascii) (s : string) : option nat :=
  match s with
  | EmptyString => None
  | String d s =>
      match LastIndexByte c s with
      | Some i => Some (S i)
      | None => if (c =? d)%char then Some O else None
      end
  end.

(** [s[from:]]. *)
Fixpoint drop_str (n : nat) (s : string) : string :=
  match n, s with
  | S n, String _ s => drop_str n s
  | _, _ => s
  end.

(** [strings.ToLower] and [strings.EqualFold]. *)
Definition lower (c : ascii) : ascii :=
  let n := nat_of_ascii c in
  if (65 <=? n)%nat && (n <=? 90)%nat then ascii_of_nat (n + 32) else c.
Fixpoint ToLower (s : string) : string :=
  match s with EmptyString => EmptyString | String c s => String (lower c) (ToLower s) end.
Definition EqualFold (a b : string) : bool := (ToLower a =? ToLower b)%string.

(** ** Numbers *)

Definition digit (c : ascii) : option Z :=
  let n := Z.of_nat (nat_of_ascii c) in
  if (48 <=? n) && (n <=? 57) then Some (n - 48) else None.

Fixpoint digits (acc : Z) (s : string) : option Z :=
  match s with
  | EmptyString => Some acc
  | String c s => d ← digit c; digits (acc * 10 + d) s
  end.

(** [strconv.ParseInt(s, 10, 64)]; [None] for any error. *)
Definition ParseInt (s : string) : option Z :=
  let '(neg, s) := match s with
                   | String "-" s => (true, s)
                   | String "+" s => (false, s)
                   | _ => (false, s)
                   end in
  match s with
  | EmptyString => None
  | _ =>
      n ← digits 0 s;
      let n := if neg then - n else n in
      if (int64_min <=? n) && (n <=? int64_max) then Some n else None
  end.

(** ** Addresses *)

(** [net.SplitHostPort]; [None] for any error. *)
Definition SplitHostPort (hostport : string) : option (string * string) :=
  i ← LastIndexByte ":" hostport;
  '(host, j, k) ←
    match hostport with
    | String "[" _ =>
        end_ ← IndexByte "]" hostport;
        if (S end_ =? i)%nat then Some (substring 1 (end_ - 1) hostport, 1%nat, S end_) else None
    | _ =>
        let host := substring 0 i hostport in
        match IndexByte ":" host with Some _ => None | None => Some (host, O, O) end
    end;
  match IndexByte "[" (drop_str j hostport), IndexByte "]" (drop_str k hostport) with
  | None, None => Some (host, drop_str (S i) hostport)
  | _, _ => None
  end.

(** ** Headers *)

Abbreviation Header := (gmap string string).

(** [http.CanonicalHeaderKey]: capitals after hyphens; a name with a byte that
    may not be in one stays as it is. *)
Definition upper (c : ascii) : ascii :=
  let n := nat_of_ascii c in
  if (97 <=? n)%nat && (n <=? 122)%nat then ascii_of_nat (n - 32) else c.

Definition token_byte (c : ascii) : bool :=
  let n := nat_of_ascii c in
  (65 <=? n)%nat && (n <=? 90)%nat || (97 <=? n)%nat && (n <=? 122)%nat || (48 <=? n)%nat && (n <=? 57)%nat
  || bool_decide (c ∈ chars "!#$%&'*+-.^_`|~").

Fixpoint canonical_go (up : bool) (s : string) : string :=
  match s with
  | EmptyString => EmptyString
  | String c s => String (if up then upper c else lower c) (canonical_go (c =? "-")%char s)
  end.

Definition CanonicalHeaderKey (s : string) : string :=
  if forallb token_byte (chars s) then canonical_go true s else s.

(** [h.Get], [h.Set] and [h.Del]. *)
Definition header_get (h : Header) (name : string) : string := default "" (h !! CanonicalHeaderKey name).
Definition header_set (h : Header) (name value : string) : Header := <[CanonicalHeaderKey name := value]> h.
Definition header_del (h : Header) (name : string) : Header := delete (CanonicalHeaderKey name) h.

(** [strings.Trim(s, c)] and [strings.TrimSuffix(s, c)] for one character. *)
Fixpoint TrimLeft (c : ascii) (s : string) : string :=
  match s with
  | EmptyString => EmptyString
  | String d s' => if (c =? d)%char then TrimLeft c s' else s
  end.
Fixpoint TrimRight (c : ascii) (s : string) : string :=
  match s with
  | EmptyString => EmptyString
  | String d s' =>
      match TrimRight c s' with
      | EmptyString => if (c =? d)%char then EmptyString else String d EmptyString
      | t => String d t
      end
  end.
Definition Trim (c : ascii) (s : string) : string := TrimRight c (TrimLeft c s).
Fixpoint TrimSuffix (c : ascii) (s : string) : string :=
  match s with
  | EmptyString => EmptyString
  | String d EmptyString => if (c =? d)%char then EmptyString else s
  | String d s' => String d (TrimSuffix c s')
  end.

(** [strings.Split] at a character. *)
Fixpoint Split (c : ascii) (s : string) : list string :=
  match s with
  | EmptyString => [EmptyString]
  | String d s' =>
      if (c =? d)%char then EmptyString :: Split c s'
      else match Split c s' with
           | [] => [String d EmptyString]
           | x :: l => String d x :: l
           end
  end.

(** [strings.ContainsAny]. *)
Definition ContainsAny (s : string) (cs : list ascii) : bool :=
  existsb (λ c, bool_decide (is_Some (IndexByte c s))) cs.

(** [strings.NewReplacer(pairs...).Replace(s)]: at each place the first pair
    that matches. *)
Fixpoint Replace_from (fuel : nat) (pairs : list (string * string)) (s : string) : string :=
  match fuel, s with
  | S fuel, String c s' =>
      match find (λ p, HasPrefix s (fst p)) pairs with
      | Some (old, new) => new +:+ Replace_from fuel pairs (drop_str (String.length old) s)
      | None => String c (Replace_from fuel pairs s')
      end
  | _, _ => s
  end.
Definition Replace (pairs : list (string * string)) (s : string) : string :=
  Replace_from (String.length s) pairs s.

(** The segments, after the first slash, of a path that the multiplexer of
    [net/http] does not redirect. *)
Fixpoint clean_segments (l : list string) : bool :=
  match l with
  | [] => true
  | [x] => negb (x =? ".")%string && negb (x =? "..")%string
  | x :: l => negb (x =? "")%string && negb (x =? ".")%string && negb (x =? "..")%string && clean_segments l
  end.

(** ** Facts *)

Lemma app_cons_str c (a b : string) : String c a +:+ b = String c (a +:+ b).
Proof. done. Qed.
Lemma app_nil_str (b : string) : "" +:+ b = b.
Proof. done. Qed.

Lemma app_assoc_str (a b c : string) : a +:+ (b +:+ c) = (a +:+ b) +:+ c.
Proof. induction a as [|x a IH]; [done|]. rewrite !app_cons_str. by rewrite IH. Qed.

Lemma length_app_str (a b : string) : length (a +:+ b) = (length a + length b)%nat.
Proof. induction a as [|c a IH]; [done|]. rewrite app_cons_str. cbn. by rewrite IH. Qed.

Lemma CutPrefix_app p s : CutPrefix (p +:+ s) p = Some s.
Proof.
  induction p as [|c p IH]; [by destruct s|]. rewrite app_cons_str. cbn [CutPrefix].
  by rewrite Ascii.eqb_refl.
Qed.

Lemma CutPrefix_Some s p r : CutPrefix s p = Some r → s = p +:+ r.
Proof.
  revert s. induction p as [|c p IH]; intros [|d s] H; cbn in H; simplify_eq; try done.
  destruct (Ascii.eqb_spec c d); [|done]. subst. rewrite app_cons_str. f_equal. auto.
Qed.

Lemma Cut_none c s : ¬ has_char c s → Cut c s = (s, None).
Proof.
  unfold has_char. induction s as [|d s IH]; cbn; intros H; [done|].
  apply not_elem_of_cons in H as [H1 H2]. apply Ascii.eqb_neq in H1. rewrite H1, IH by done. done.
Qed.

Lemma Cut_app c a b : ¬ has_char c a → Cut c (a +:+ String c b) = (a, Some b).
Proof.
  unfold has_char. induction a as [|d a IH]; intros H.
  - rewrite app_nil_str. cbn [Cut]. by rewrite Ascii.eqb_refl.
  - rewrite app_cons_str. cbn [Cut chars] in *.
    apply not_elem_of_cons in H as [H1 H2]. apply Ascii.eqb_neq in H1. rewrite H1, IH by done. done.
Qed.
