(* ===== verification/TextForms.v ===== *)
(** * Durations and rates as text ([packages/config/duration.go], [rate.go])

    How a configuration file writes a duration or a rate, and how it is read.
    [time.Duration.String] and [time.ParseDuration] are translated from Go's
    library, with its arithmetic on [uint64] and [float64]. *)

From S2P Require Import Prelude Float64 LuaNum GoLib.
From Stdlib Require Import Ascii.

Local Open Scope Z_scope.

Definition Microsecond : Z := 1000.

(** ** Writing *)

Definition digit_char (d : Z) : ascii := ascii_of_nat (48 + Z.to_nat d).

(** [fmtInt]: the number before [buf]; 20 digits are enough for [uint64]. *)
Fixpoint fmt_digits (fuel : nat) (v : Z) (buf : string) : string :=
  match fuel with
  | O => buf
  | S fuel => if v =? 0 then buf else fmt_digits fuel (v `div` 10) (String (digit_char (v `mod` 10)) buf)
  end.
Definition fmtInt (v : Z) (buf : string) : string := if v =? 0 then String "0" buf else fmt_digits 20 v buf.

(** [fmtFrac]: the fraction [v / 10^prec] before [buf], without trailing zeros,
    and the whole part. *)
Fixpoint fmtFrac (prec : nat) (print : bool) (v : Z) (buf : string) : string * Z :=
  match prec with
  | O => (if print then String "." buf else buf, v)
  | S prec =>
      let d := v `mod` 10 in
      let print := print || negb (d =? 0) in
      fmtFrac prec print (v `div` 10) (if print then String (digit_char d) buf else buf)
  end.

(** A number of nanoseconds below a second, in the unit [unit]. *)
Definition fmt_small (prec : nat) (unit : string) (u : Z) : string :=
  let '(buf, u) := fmtFrac prec false u unit in fmtInt u buf.

(** [time.Duration.String]. *)
Definition time_String (d : Z) : string :=
  let u := Z.abs d in
  let s :=
    if u <? Second then
      if u =? 0 then "0s"
      else if u <? Microsecond then fmt_small 0 "ns" u
      else if u <? Millisecond then fmt_small 3 "µs" u
      else fmt_small 6 "ms" u
    else
      let '(buf, u) := fmtFrac 9 false u "s" in
      let buf := fmtInt (u `mod` 60) buf in
      let u := u `div` 60 in
      if 0 <? u then
        let buf := fmtInt (u `mod` 60) (String "m" buf) in
        let u := u `div` 60 in
        if 0 <? u then fmtInt u (String "h" buf) else buf
      else buf in
  if d <? 0 then String "-" s else s.

Fixpoint string_of (l : list ascii) : string := match l with [] => "" | c :: l => String c (string_of l) end.

(** [strings.HasSuffix] and [strings.TrimSuffix]. *)
Definition HasSuffix (s suffix : string) : bool :=
  bool_decide (take (String.length suffix) (reverse (chars s)) = reverse (chars suffix)).
Definition TrimSuffixString (s suffix : string) : string :=
  if HasSuffix s suffix then string_of (take (String.length s - String.length suffix) (chars s)) else s.

(** [Duration.String]. *)
Definition trim_zeros (s : string) : string :=
  let s := if HasSuffix s "m0s" then TrimSuffixString s "0s" else s in
  if HasSuffix s "h0m" then TrimSuffixString s "0m" else s.
Definition Duration_String (d : Z) : string := trim_zeros (time_String d).

(** ** Reading *)

(** [leadingInt]; [None] when the number is above [1<<63]. *)
Fixpoint leadingInt (x : Z) (s : string) : option (Z * string) :=
  match s with
  | EmptyString => Some (x, s)
  | String c s' =>
      match digit c with
      | None => Some (x, s)
      | Some d =>
          if 2 ^ 63 `div` 10 <? x then None
          else let x := x * 10 + d in if 2 ^ 63 <? x then None else leadingInt x s'
      end
  end.

(** [leadingFraction]: digits that overflow are dropped. *)
Fixpoint leadingFraction (x : Z) (scale : float64) (overflow : bool) (s : string) : Z * float64 * string :=
  match s with
  | EmptyString => (x, scale, s)
  | String c s' =>
      match digit c with
      | None => (x, scale, s)
      | Some d =>
          if overflow then leadingFraction x scale true s'
          else if (2 ^ 63 - 1) `div` 10 <? x then leadingFraction x scale true s'
          else
            let y := x * 10 + d in
            if 2 ^ 63 <? y then leadingFraction x scale true s'
            else leadingFraction y (f64_mul scale (f64_of_int 10)) false s'
      end
  end.

Definition starts_number (c : ascii) : bool := (c =? ".")%char || bool_decide (is_Some (digit c)).

(** The unit: up to the next digit or dot. *)
Fixpoint take_unit (s : string) : string * string :=
  match s with
  | EmptyString => ("", "")
  | String c s' => if starts_number c then ("", s) else let '(u, rest) := take_unit s' in (String c u, rest)
  end.

(** [unitMap]; the micro sign and the Greek letter are two characters. *)
Definition unitMap (u : string) : option Z :=
  if (u =? "ns")%string then Some 1
  else if (u =? "us")%string || (u =? "µs")%string || (u =? "μs")%string then Some Microsecond
  else if (u =? "ms")%string then Some Millisecond
  else if (u =? "s")%string then Some Second
  else if (u =? "m")%string then Some Minute
  else if (u =? "h")%string then Some Hour
  else None.

Definition cut_dot (s : string) : option string :=
  match s with String c s => if (c =? ".")%char then Some s else None | EmptyString => None end.

(** The number of a component: its whole part, its fraction with the scale,
    and the rest; [None] when there is no digit. *)
Definition parse_number (s : string) : option (Z * Z * float64 * string) :=
  '(v, s1) ← leadingInt 0 s;
  let pre := negb (String.length s1 =? String.length s)%nat in
  match cut_dot s1 with
  | Some s2 =>
      let '(f, scale, s3) := leadingFraction 0 (f64_of_int 1) false s2 in
      let post := negb (String.length s3 =? String.length s2)%nat in
      if pre || post then Some (v, f, scale, s3) else None
  | None => if pre then Some (v, 0, f64_of_int 1, s1) else None
  end.

(** One turn of the loop: a component's nanoseconds and the rest. *)
Definition parse_component (s : string) : option (Z * string) :=
  match s with
  | EmptyString => None
  | String c _ =>
      if negb (starts_number c) then None
      else
        '(v, f, scale, s) ← parse_number s;
        let '(u, rest) := take_unit s in
        if (u =? "")%string then None
        else
          unit ← unitMap u;
          if 2 ^ 63 `div` unit <? v then None
          else
            let v := v * unit in
            let v := if 0 <? f then v + f64_to_int (f64_mul (f64_of_int f) (f64_div (f64_of_int unit) scale)) else v in
            if 2 ^ 63 <? v then None else Some (v, rest)
  end.

Fixpoint parse_components (fuel : nat) (d : Z) (s : string) : option Z :=
  match s with
  | EmptyString => Some d
  | _ =>
      match fuel with
      | O => None
      | S fuel =>
          '(v, rest) ← parse_component s;
          if 2 ^ 63 <? d + v then None else parse_components fuel (d + v) rest
      end
  end.

(** [time.ParseDuration]; [None] for any error. *)
Definition ParseDuration (s : string) : option Z :=
  let '(neg, s) :=
    match s with
    | String c s' => if (c =? "-")%char then (true, s') else if (c =? "+")%char then (false, s') else (false, s)
    | EmptyString => (false, s)
    end in
  if (s =? "0")%string then Some 0
  else if (s =? "")%string then None
  else
    d ← parse_components (String.length s) 0 s;
    if neg then Some (- d) else if 2 ^ 63 - 1 <? d then None else Some d.

(** [Duration.UnmarshalYAML] of a node: whether it is a scalar, its tag and
    its value. *)
Inductive text_error := NotScalar | NoUnit | Invalid | Negative.

Definition Duration_UnmarshalYAML (scalar : bool) (tag value : string) : result text_error Z :=
  if negb scalar then Err NotScalar
  else if (tag =? "!!int")%string || (tag =? "!!float")%string then Err NoUnit
  else match ParseDuration (TrimSpace value) with
       | None => Err Invalid
       | Some v => if v <? 0 then Err Negative else Ok v
       end.

(** ** Digits *)

Lemma digit_digit_char d : 0 ≤ d < 10 → digit (digit_char d) = Some d.
Proof.
  intros H. assert (d = 0 ∨ d = 1 ∨ d = 2 ∨ d = 3 ∨ d = 4 ∨ d = 5 ∨ d = 6 ∨ d = 7 ∨ d = 8 ∨ d = 9) by lia.
  naive_solver.
Qed.

(** No digit follows. *)
Definition ends_number (s : string) : Prop := match s with String c _ => digit c = None | EmptyString => True end.

Lemma leadingInt_end x s : ends_number s → leadingInt x s = Some (x, s).
Proof. destruct s as [|c s]; [done|]. cbn. by intros ->. Qed.

Lemma leadingInt_digit x d s : 0 ≤ x → 0 ≤ d < 10 → x * 10 + d ≤ 2 ^ 63 →
  leadingInt x (String (digit_char d) s) = leadingInt (x * 10 + d) s.
Proof.
  intros Hx Hd H. cbn [leadingInt]. rewrite digit_digit_char by done.
  destruct (Z.ltb_spec (2 ^ 63 `div` 10) x) as [Hlt|_].
  { assert (2 ^ 63 `div` 10 = 922337203685477580) as E by done. rewrite E in Hlt. lia. }
  destruct (Z.ltb_spec (2 ^ 63) (x * 10 + d)); [lia|done].
Qed.

Lemma leadingInt_digits fuel v buf : 0 ≤ v < 10 ^ Z.of_nat fuel → v ≤ 2 ^ 63 →
  leadingInt 0 (fmt_digits fuel v buf) = leadingInt v buf.
Proof.
  revert v buf. induction fuel as [|fuel IH]; intros v buf Hv Hm; cbn [fmt_digits].
  - by replace v with 0 by lia.
  - destruct (Z.eqb_spec v 0) as [->|Hn]; [done|].
    pose proof (Z.mod_pos_bound v 10). pose proof (Z.div_mod v 10).
    rewrite IH; [|split; [apply Z.div_pos; lia|]|].
    + rewrite leadingInt_digit; [|apply Z.div_pos; lia|lia|lia]. f_equal. lia.
    + apply Z.div_lt_upper_bound; [lia|]. rewrite Nat2Z.inj_succ, Z.pow_succ_r in Hv by lia. lia.
    + lia.
Qed.

Lemma leadingInt_fmtInt v buf : 0 ≤ v ≤ 2 ^ 63 → ends_number buf → leadingInt 0 (fmtInt v buf) = Some (v, buf).
Proof.
  intros Hv Hb. unfold fmtInt. destruct (Z.eqb_spec v 0) as [->|Hn].
  - change "0"%char with (digit_char 0). rewrite leadingInt_digit by lia. by apply leadingInt_end.
  - rewrite leadingInt_digits; [by apply leadingInt_end|split; [lia|]|lia]. change (10 ^ Z.of_nat 20) with 100000000000000000000. lia.
Qed.

(** ** Fractions *)

(** [q] digits of [w] before [buf], leading zeros included. *)
Fixpoint fixed (q : nat) (w : Z) (buf : string) : string :=
  match q with O => buf | S q => fixed q (w `div` 10) (String (digit_char (w `mod` 10)) buf) end.

Lemma fmtFrac_print q w buf : 0 ≤ w → fmtFrac q true w buf = (String "." (fixed q w buf), w `div` 10 ^ Z.of_nat q).
Proof.
  revert w buf. induction q as [|q IH]; intros w buf Hw; cbn [fmtFrac fixed orb]; [by rewrite Z.div_1_r|].
  rewrite IH by (apply Z.div_pos; lia). f_equal.
  rewrite Z.div_div by lia. f_equal. rewrite Nat2Z.inj_succ, Z.pow_succ_r by lia. done.
Qed.

(** A fraction that is not zero is written up to its last digit that is not. *)
Lemma fmtFrac_spec prec v buf : 0 ≤ v →
  (v `mod` 10 ^ Z.of_nat prec = 0 ∧ fmtFrac prec false v buf = (buf, v `div` 10 ^ Z.of_nat prec))
  ∨ ∃ q w, (1 ≤ q ≤ prec)%nat ∧ 0 ≤ w ∧ w `mod` 10 ≠ 0
      ∧ v `mod` 10 ^ Z.of_nat prec = w `mod` 10 ^ Z.of_nat q * 10 ^ Z.of_nat (prec - q)
      ∧ fmtFrac prec false v buf = (String "." (fixed q w buf), v `div` 10 ^ Z.of_nat prec).
Proof.
  revert v. induction prec as [|prec IH]; intros v Hv.
  { left. rewrite Z.mod_1_r, Z.div_1_r. done. }
  cbn [fmtFrac orb]. assert (Hd : v `div` 10 ^ Z.of_nat (S prec) = v `div` 10 `div` 10 ^ Z.of_nat prec).
  { rewrite Z.div_div, Nat2Z.inj_succ, Z.pow_succ_r by lia. done. }
  assert (Hm : v `mod` 10 ^ Z.of_nat (S prec) = v `mod` 10 + 10 * ((v `div` 10) `mod` 10 ^ Z.of_nat prec)).
  { rewrite Nat2Z.inj_succ, Z.pow_succ_r by lia. apply Z.rem_mul_r; lia. }
  destruct (Z.eqb_spec (v `mod` 10) 0) as [E|E]; cbn [negb].
  - destruct (IH (v `div` 10)) as [[Hz ->]|(q & w & Hq & Hw & Hn & Hf & ->)]; [apply Z.div_pos; lia|left|right].
    + rewrite Hd, Hm. split; [lia|done].
    + exists q, w. split_and!; [lia|lia|done|done| |by rewrite Hd]. rewrite Hm, E, Hf.
      replace (S prec - q)%nat with (S (prec - q)) by lia. rewrite (Nat2Z.inj_succ (prec - q)), Z.pow_succ_r by lia. lia.
  - right. exists (S prec), v. rewrite fmtFrac_print by (apply Z.div_pos; lia). split_and!; [lia|lia|done|done| |by rewrite Hd].
    rewrite Nat.sub_diag. lia.
Qed.

Lemma f64_pow10 k : (k ≤ 14)%nat → f64_mul (f64_of_int (10 ^ Z.of_nat k)) (f64_of_int 10) = f64_of_int (10 ^ Z.of_nat (S k)).
Proof. intros H. do 15 (destruct k as [|k]; [by vm_compute|]). lia. Qed.

Lemma leadingFraction_digit x scale d s : 0 ≤ x < 10 ^ 15 → 0 ≤ d < 10 →
  leadingFraction x scale false (String (digit_char d) s) = leadingFraction (x * 10 + d) (f64_mul scale (f64_of_int 10)) false s.
Proof.
  intros Hx Hd. cbn [leadingFraction]. rewrite digit_digit_char by done.
  destruct (Z.ltb_spec ((2 ^ 63 - 1) `div` 10) x) as [Hlt|_].
  { assert ((2 ^ 63 - 1) `div` 10 = 922337203685477580) as E by done. rewrite E in Hlt. lia. }
  destruct (Z.ltb_spec (2 ^ 63) (x * 10 + d)); [lia|done].
Qed.

Lemma leadingFraction_fixed q w buf : 0 ≤ w → (q ≤ 14)%nat → 
  leadingFraction 0 (f64_of_int 1) false (fixed q w buf)
  = leadingFraction (w `mod` 10 ^ Z.of_nat q) (f64_of_int (10 ^ Z.of_nat q)) false buf.
Proof.
  revert w buf. induction q as [|q IH]; intros w buf Hw Hq; cbn [fixed]; [by rewrite Z.mod_1_r|].
  rewrite IH by (lia || (apply Z.div_pos; lia)).
  pose proof (Z.mod_pos_bound (w `div` 10) (10 ^ Z.of_nat q)) as Hb.
  pose proof (Z.pow_le_mono_r 10 (Z.of_nat q) 14).
  rewrite leadingFraction_digit; [|split; [lia|]|apply Z.mod_pos_bound; lia].
  - rewrite f64_pow10 by lia. f_equal. rewrite Nat2Z.inj_succ, Z.pow_succ_r by lia. rewrite Z.rem_mul_r by lia. lia.
  - lia.
Qed.

(** ** Components *)

Lemma fmt_digits_app fuel v buf : fmt_digits fuel v buf = fmt_digits fuel v "" +:+ buf.
Proof.
  revert v buf. induction fuel as [|fuel IH]; intros v buf; cbn [fmt_digits]; [done|]. destruct (v =? 0); [done|].
  rewrite IH, (IH _ (String _ "")). by rewrite <- app_assoc_str.
Qed.
Lemma fmtInt_app v buf : fmtInt v buf = fmtInt v "" +:+ buf.
Proof. unfold fmtInt. destruct (v =? 0); [done|apply fmt_digits_app]. Qed.

Lemma fixed_app q w buf : fixed q w buf = fixed q w "" +:+ buf.
Proof.
  revert w buf. induction q as [|q IH]; intros w buf; cbn [fixed]; [done|].
  rewrite IH, (IH _ (String _ "")). by rewrite <- app_assoc_str.
Qed.

Definition starts_digit (s : string) : Prop := match s with String c _ => is_Some (digit c) | EmptyString => False end.

Lemma fmt_digits_starts fuel v buf : 0 ≤ v → starts_digit buf → starts_digit (fmt_digits fuel v buf).
Proof.
  revert v buf. induction fuel as [|fuel IH]; intros v buf Hv Hb; cbn [fmt_digits]; [done|]. destruct (v =? 0); [done|].
  apply IH; [apply Z.div_pos; lia|]. cbn. rewrite digit_digit_char by (apply Z.mod_pos_bound; lia). by eexists.
Qed.

Lemma fmtInt_step v buf : v ≠ 0 → fmtInt v buf = fmt_digits 19 (v `div` 10) (String (digit_char (v `mod` 10)) buf).
Proof.
  intros Hv. unfold fmtInt. apply Z.eqb_neq in Hv as E. rewrite E.
  change (fmt_digits 20 v buf) with (if v =? 0 then buf else fmt_digits 19 (v `div` 10) (String (digit_char (v `mod` 10)) buf)).
  by rewrite E.
Qed.

Lemma fmtInt_starts v buf : 0 ≤ v → starts_digit (fmtInt v buf).
Proof.
  intros Hv. destruct (decide (v = 0)) as [->|]; [by eexists|]. rewrite fmtInt_step by done. apply fmt_digits_starts; [apply Z.div_pos; lia|].
  cbn. rewrite digit_digit_char by (apply Z.mod_pos_bound; lia). by eexists.
Qed.

Lemma fixed_length q w buf : String.length (fixed q w buf) = (q + String.length buf)%nat.
Proof. revert w buf. induction q as [|q IH]; intros w buf; cbn [fixed]; [done|]. rewrite IH. cbn. lia. Qed.

Lemma fmtInt_longer v buf : 0 ≤ v → (String.length buf < String.length (fmtInt v buf))%nat.
Proof.
  intros Hv. rewrite fmtInt_app, length_app_str. pose proof (fmtInt_starts v "" Hv) as H.
  destruct (fmtInt v ""); cbn in *; [done|lia].
Qed.

Lemma longer_pre v buf : 0 ≤ v → negb (String.length buf =? String.length (fmtInt v buf))%nat = true.
Proof. intros Hv. pose proof (fmtInt_longer v buf Hv). destruct (Nat.eqb_spec (String.length buf) (String.length (fmtInt v buf))); [lia|done]. Qed.

(** A unit's text, and what may follow a component. *)
Definition is_unit (u : string) : Prop := u ≠ "" ∧ Forall (λ c, starts_number c = false) (chars u).
Definition next_component (s : string) : Prop := match s with String c _ => starts_number c = true | EmptyString => True end.

Lemma take_unit_app u rest : Forall (λ c, starts_number c = false) (chars u) → next_component rest → take_unit (u +:+ rest) = (u, rest).
Proof.
  intros Hu Hr. induction u as [|c u IH].
  - rewrite app_nil_str. destruct rest as [|c rest]; [done|]. cbn [take_unit next_component] in *. by rewrite Hr.
  - rewrite app_cons_str. cbn [take_unit chars] in *. apply Forall_cons in Hu as [Hc Hu]. rewrite Hc, IH by done. done.
Qed.

Lemma unit_ends u rest : is_unit u → ends_number (u +:+ rest) ∧ cut_dot (u +:+ rest) = None.
Proof.
  intros [Hn Hu]. destruct u as [|c u]; [done|]. rewrite app_cons_str. cbn [chars ends_number cut_dot] in *. apply Forall_cons in Hu as [Hc _].
  unfold starts_number in Hc. apply orb_false_iff in Hc as [Hd Hc]. apply bool_decide_eq_false in Hc.
  rewrite Hd. destruct (digit c); [|done]. destruct Hc. by eexists.
Qed.

Lemma starts_component v buf : 0 ≤ v → ∃ c s, fmtInt v buf = String c s ∧ starts_number c = true.
Proof.
  intros Hv. pose proof (fmtInt_starts v buf Hv) as H. destruct (fmtInt v buf) as [|c s]; [done|]. exists c, s. split; [done|].
  unfold starts_number. cbn in H. rewrite bool_decide_true by done. apply orb_true_r.
Qed.

(** A whole number of a unit. *)
Lemma component_whole v u unit rest :
  0 ≤ v → is_unit u → unitMap u = Some unit → 0 < unit → v * unit ≤ 2 ^ 63 → next_component rest →
  parse_component (fmtInt v (u +:+ rest)) = Some (v * unit, rest).
Proof.
  intros Hv Hu Hm Hp Hb Hr. destruct (starts_component v (u +:+ rest) Hv) as (c & s & E & Hc).
  unfold parse_component. rewrite E, Hc, <- E. cbn [negb]. unfold parse_number.
  destruct (unit_ends u rest Hu) as [He Hd]. rewrite leadingInt_fmtInt by (nia || done). cbn [mbind option_bind].
  rewrite longer_pre, Hd by done. cbn [mbind option_bind]. destruct Hu as [Hne Hu]. rewrite take_unit_app by done.
  apply String.eqb_neq in Hne as ->. rewrite Hm. cbn [mbind option_bind].
  destruct (Z.ltb_spec (2 ^ 63 `div` unit) v) as [Hlt|_].
  { assert (v ≤ 2 ^ 63 `div` unit) by (apply Z.div_le_lower_bound; lia). lia. }
  rewrite Z.ltb_irrefl. destruct (Z.ltb_spec (2 ^ 63) (v * unit)); [lia|done].
Qed.

(** A number of a unit of [10^prec] nanoseconds with a fraction of [q] digits. *)
Lemma fraction_exact prec q f : (prec = 3 ∨ prec = 6 ∨ prec = 9)%nat → (1 ≤ q ≤ prec)%nat → 0 ≤ f < 10 ^ Z.of_nat q →
  f64_to_int (f64_mul (f64_of_int f) (f64_div (f64_of_int (10 ^ Z.of_nat prec)) (f64_of_int (10 ^ Z.of_nat q))))
  = f * 10 ^ Z.of_nat (prec - q).
Proof.
  intros Hp Hq Hf.
  assert (Hdiv : f64_div (f64_of_int (10 ^ Z.of_nat prec)) (f64_of_int (10 ^ Z.of_nat q)) = f64_of_int (10 ^ Z.of_nat (prec - q))).
  { destruct Hp as [->|[->| ->]]; do 10 (destruct q as [|q]; [lia || by vm_compute|]); lia. }
  assert (0 < 10 ^ Z.of_nat (prec - q)) by (apply Z.pow_pos_nonneg; lia).
  assert (f * 10 ^ Z.of_nat (prec - q) < 10 ^ 9).
  { apply Z.lt_le_trans with (10 ^ Z.of_nat q * 10 ^ Z.of_nat (prec - q)); [nia|].
    rewrite <- Z.pow_add_r by lia. apply Z.pow_le_mono_r; lia. }
  assert (10 ^ Z.of_nat q ≤ 10 ^ 9 ∧ 10 ^ Z.of_nat (prec - q) ≤ 10 ^ 9) as [H1 H2] by (split; apply Z.pow_le_mono_r; lia).
  set (k := 10 ^ Z.of_nat (prec - q)) in *. assert (0 ≤ f * k) by nia. change (10 ^ 9) with 1000000000 in *.
  rewrite Hdiv, f64_mul_int, f64_to_of_int; unfold f64_small, f64_max_int; lia.
Qed.

Lemma component_fraction v q w prec u rest :
  0 ≤ v → 0 ≤ w → is_unit u → unitMap u = Some (10 ^ Z.of_nat prec) → (prec = 3 ∨ prec = 6 ∨ prec = 9)%nat → (1 ≤ q ≤ prec)%nat →
  v * 10 ^ Z.of_nat prec + w `mod` 10 ^ Z.of_nat q * 10 ^ Z.of_nat (prec - q) ≤ 2 ^ 63 → next_component rest →
  parse_component (fmtInt v (String "." (fixed q w (u +:+ rest))))
  = Some (v * 10 ^ Z.of_nat prec + w `mod` 10 ^ Z.of_nat q * 10 ^ Z.of_nat (prec - q), rest).
Proof.
  intros Hv Hw Hu Hm Hp Hq Hb Hr. set (buf := String "." _). destruct (starts_component v buf Hv) as (c & s & E & Hc).
  unfold parse_component. rewrite E, Hc, <- E. cbn [negb]. unfold parse_number.
  assert (0 < 10 ^ Z.of_nat prec) by (apply Z.pow_pos_nonneg; lia).
  assert (0 < 10 ^ Z.of_nat q) as Hq0 by (apply Z.pow_pos_nonneg; lia).
  pose proof (Z.mod_pos_bound w (10 ^ Z.of_nat q) Hq0) as Hf.
  assert (0 < 10 ^ Z.of_nat (prec - q)) by (apply Z.pow_pos_nonneg; lia).
  assert (Hv63 : v * 10 ^ Z.of_nat prec ≤ 2 ^ 63) by nia.
  rewrite leadingInt_fmtInt by (nia || done). cbn [mbind option_bind]. rewrite longer_pre by done. unfold buf at 1. cbn [cut_dot].
  change ("." =? ".")%char with true. cbn iota. rewrite leadingFraction_fixed by (done || lia).
  destruct (unit_ends u rest Hu) as [He _].
  assert (Hend : ∀ x sc, leadingFraction x sc false (u +:+ rest) = (x, sc, u +:+ rest)).
  { intros. destruct (u +:+ rest) as [|d r]; [done|]. cbn in *. by rewrite He. }
  rewrite Hend. cbn [orb mbind option_bind]. destruct Hu as [Hne Hu]. rewrite take_unit_app by done.
  apply String.eqb_neq in Hne as ->. rewrite Hm. cbn [mbind option_bind].
  destruct (Z.ltb_spec (2 ^ 63 `div` 10 ^ Z.of_nat prec) v) as [Hlt|_].
  { assert (v ≤ 2 ^ 63 `div` 10 ^ Z.of_nat prec) by (apply Z.div_le_lower_bound; lia). lia. }
  destruct (Z.ltb_spec 0 (w `mod` 10 ^ Z.of_nat q)) as [Hpos|Hz].
  - rewrite fraction_exact by done. destruct (Z.ltb_spec (2 ^ 63) (v * 10 ^ Z.of_nat prec + w `mod` 10 ^ Z.of_nat q * 10 ^ Z.of_nat (prec - q))); [lia|done].
  - replace (w `mod` 10 ^ Z.of_nat q) with 0 by lia. destruct (Z.ltb_spec (2 ^ 63) (v * 10 ^ Z.of_nat prec)); [lia|]. by rewrite Z.add_0_r.
Qed.

(** Whatever the number [x] of a unit of [10^prec] nanoseconds, the text with
    the fraction of [v] is read as [x] units and that fraction. *)
Lemma component_text prec x v u rest :
  0 ≤ x → 0 ≤ v → is_unit u → unitMap u = Some (10 ^ Z.of_nat prec) → (prec = 3 ∨ prec = 6 ∨ prec = 9)%nat →
  x * 10 ^ Z.of_nat prec + v `mod` 10 ^ Z.of_nat prec ≤ 2 ^ 63 → next_component rest →
  parse_component (fmtInt x (fmtFrac prec false v (u +:+ rest)).1) = Some (x * 10 ^ Z.of_nat prec + v `mod` 10 ^ Z.of_nat prec, rest).
Proof.
  intros Hx Hv Hu Hm Hp Hb Hr. assert (0 < 10 ^ Z.of_nat prec) by (apply Z.pow_pos_nonneg; lia).
  destruct (fmtFrac_spec prec v (u +:+ rest) Hv) as [[Hz ->]|(q & w & Hq & Hw & _ & Hf & ->)]; cbn [fst].
  - rewrite Hz, Z.add_0_r. apply component_whole; [done|done|done|done|lia|done].
  - rewrite Hf in *. by apply component_fraction.
Qed.

(** [s] is read as nanoseconds that bring [d] to [total]. *)
Definition reads (d : Z) (s : string) (total : Z) : Prop :=
  ∀ fuel, (String.length s ≤ fuel)%nat → parse_components fuel d s = Some total.

Lemma reads_eq a d s b : a = b → reads d s a → reads d s b.
Proof. by intros ->. Qed.

Lemma reads_nil d : reads d "" d.
Proof. by intros []. Qed.

Lemma reads_component d s v rest total :
  parse_component s = Some (v, rest) → (String.length rest < String.length s)%nat → d + v ≤ 2 ^ 63 →
  reads (d + v) rest total → reads d s total.
Proof.
  intros Hc Hl Hb Hr fuel Hf. destruct s as [|c s]; [done|]. destruct fuel as [|fuel]; [cbn in Hf; lia|].
  cbn [parse_components]. rewrite Hc. cbn [mbind option_bind]. destruct (Z.ltb_spec (2 ^ 63) (d + v)); [lia|].
  apply Hr. cbn [String.length] in *. lia.
Qed.

Lemma reads_whole d v u unit rest total :
  0 ≤ v → 0 ≤ d → is_unit u → unitMap u = Some unit → 0 < unit → d + v * unit ≤ 2 ^ 63 → next_component rest →
  reads (d + v * unit) rest total → reads d (fmtInt v (u +:+ rest)) total.
Proof.
  intros Hv Hd Hu Hm Hp Hb Hr Ht. eapply reads_component; [apply component_whole; (done || lia)| |done|done].
  pose proof (fmtInt_longer v (u +:+ rest) Hv). rewrite length_app_str in *. lia.
Qed.

Lemma fmtFrac_longer prec print v buf : (String.length buf ≤ String.length (fmtFrac prec print v buf).1)%nat.
Proof.
  revert print v buf. induction prec as [|prec IH]; intros print v buf; cbn [fmtFrac].
  - destruct print; cbn; lia.
  - etrans; [|apply IH]. case_match; cbn; lia.
Qed.

Lemma reads_text d prec x v u :
  0 ≤ d → 0 ≤ x → 0 ≤ v → is_unit u → unitMap u = Some (10 ^ Z.of_nat prec) → (prec = 3 ∨ prec = 6 ∨ prec = 9)%nat →
  d + (x * 10 ^ Z.of_nat prec + v `mod` 10 ^ Z.of_nat prec) ≤ 2 ^ 63 →
  reads d (fmtInt x (fmtFrac prec false v u).1) (d + (x * 10 ^ Z.of_nat prec + v `mod` 10 ^ Z.of_nat prec)).
Proof.
  intros Hd Hx Hv Hu Hm Hp Hb. pose proof (component_text prec x v u "" Hx Hv Hu Hm Hp ltac:(lia) I) as H.
  assert (Hnil : u +:+ "" = u) by (apply (inj chars); by rewrite chars_app, app_nil_r). rewrite Hnil in H.
  assert (0 < 10 ^ Z.of_nat prec) by (apply Z.pow_pos_nonneg; lia). pose proof (Z.mod_pos_bound v (10 ^ Z.of_nat prec)).
  eapply reads_component; [exact H| |lia|apply reads_nil].
  pose proof (fmtInt_longer x (fmtFrac prec false v u).1 Hx). cbn. lia.
Qed.

(** ** Endings *)

Lemma string_of_chars s : string_of (chars s) = s.
Proof. induction s as [|c s IH]; [done|]. cbn. by rewrite IH. Qed.
Lemma length_chars s : length (chars s) = String.length s.
Proof. induction s as [|c s IH]; [done|]. cbn. by rewrite IH. Qed.

Lemma HasSuffix_spec s suffix : HasSuffix s suffix = true ↔ ∃ a, s = a +:+ suffix.
Proof.
  unfold HasSuffix. rewrite bool_decide_eq_true, <- length_chars. split.
  - intros H. exists (string_of (reverse (drop (length (chars suffix)) (reverse (chars s))))).
    apply (inj chars). rewrite chars_app. rewrite <- (reverse_involutive (chars s)) at 1.
    rewrite <- (take_drop (length (chars suffix)) (reverse (chars s))) at 1. rewrite H, reverse_app, reverse_involutive. f_equal.
    generalize (reverse (drop (length (chars suffix)) (reverse (chars s)))). intros l. induction l as [|c l IH]; [done|]. cbn. by rewrite <- IH.
  - intros [a ->]. rewrite chars_app, reverse_app, take_app_length'; [done|]. by rewrite length_reverse.
Qed.

Lemma TrimSuffix_app a suffix : TrimSuffixString (a +:+ suffix) suffix = a.
Proof.
  unfold TrimSuffixString. rewrite (proj2 (HasSuffix_spec _ _)) by eauto.
  rewrite length_app_str, Nat.add_sub, chars_app, <- length_chars, take_app_length. apply string_of_chars.
Qed.

(** The last characters of a text decide about its endings. *)
Ltac by_ending :=
  let a := fresh "a" in let E := fresh "E" in
  apply not_true_is_false; rewrite HasSuffix_spec; intros [a E];
  apply (f_equal (λ s, reverse (chars s))) in E; rewrite ?chars_app, ?reverse_app in E; cbn in E; simplify_eq.

Lemma digit_char_0 d : 0 ≤ d < 10 → d ≠ 0 → digit_char d ≠ "0"%char.
Proof. intros Hd Hn E. apply (f_equal digit) in E. rewrite digit_digit_char in E by done. injection E as ->. done. Qed.

(** A number that is not zero ends with a digit that is not, or with two
    digits. *)
Lemma number_ends v buf : 0 < v → ∃ t x, fmtInt v buf = t +:+ String x buf ∧
  (x ≠ "0"%char ∨ ∃ t' y, t = t' +:+ String y "" ∧ is_Some (digit y)).
Proof.
  intros Hv. rewrite fmtInt_step, fmt_digits_app by lia. eexists _, _. split; [done|].
  pose proof (Z.mod_pos_bound v 10 ltac:(lia)). destruct (decide (v `mod` 10 = 0)) as [E|E]; [right|left; by apply digit_char_0].
  assert (v `div` 10 ≠ 0) by (pose proof (Z.div_mod v 10); lia).
  change (fmt_digits 19 (v `div` 10) "") with
    (if v `div` 10 =? 0 then "" else fmt_digits 18 (v `div` 10 `div` 10) (String (digit_char (v `div` 10 `mod` 10)) "")).
  destruct (Z.eqb_spec (v `div` 10) 0); [done|]. rewrite fmt_digits_app. eexists _, _. split; [done|].
  rewrite digit_digit_char by (apply Z.mod_pos_bound; lia). by eexists.
Qed.

Lemma no_zero_ending p v z c : 0 < v → digit z = None →
  HasSuffix (p +:+ fmtInt v (String c "")) (String z (String "0" (String c ""))) = false.
Proof.
  intros Hv Hz. destruct (number_ends v (String c "") Hv) as (t & x & -> & [Hx|(t' & y & -> & Hy)]); by_ending.
  rewrite Hz in Hy. by destruct Hy.
Qed.

(** ** The round trip *)

(** The texts a duration has: below a second, and its hours, minutes and
    seconds from there on. *)
Lemma unit_s : is_unit "s" ∧ is_unit "m" ∧ is_unit "h" ∧ is_unit "ns" ∧ is_unit "µs" ∧ is_unit "ms".
Proof. repeat split; try discriminate; repeat constructor. Qed.

Lemma next_fmtInt v buf : 0 ≤ v → next_component (fmtInt v buf).
Proof. intros Hv. by destruct (starts_component v buf Hv) as (c & s & -> & Hc). Qed.

(** No ending of a text in seconds with a remainder is dropped. *)
Lemma seconds_ending p x v : 0 ≤ x → 0 ≤ v → (x ≠ 0 ∨ v `mod` 10 ^ Z.of_nat 9 ≠ 0) →
  HasSuffix (p +:+ fmtInt x (fmtFrac 9 false v "s").1) "m0s" = false.
Proof.
  intros Hx Hv Hn. destruct (fmtFrac_spec 9 v "s" Hv) as [[Hz ->]|(q & w & Hq & Hw & Hlast & _ & ->)]; cbn [fst].
  - apply no_zero_ending; [lia|done].
  - destruct q as [|q]; [lia|]. rewrite fmtInt_app. cbn [fixed]. rewrite fixed_app.
    pose proof (digit_char_0 (w `mod` 10) (Z.mod_pos_bound w 10 ltac:(lia)) Hlast) as H0.
    generalize dependent (digit_char (w `mod` 10)). intros x0 H0.
    apply not_true_is_false. rewrite HasSuffix_spec. intros [a E]. apply (f_equal (λ s, reverse (chars s))) in E.
    rewrite !chars_app, !reverse_app in E. cbn [chars] in E. rewrite reverse_cons, chars_app, reverse_app in E. cbn in E. simplify_eq.
Qed.

Lemma ends_s_not_m p c : c ≠ "m"%char → HasSuffix (p +:+ String c "") "h0m" = false.
Proof. intros Hc. by_ending. Qed.

Lemma seconds_end_s p x v : 0 ≤ v → HasSuffix (p +:+ fmtInt x (fmtFrac 9 false v "s").1) "h0m" = false.
Proof.
  intros Hv. destruct (fmtFrac_spec 9 v "s" Hv) as [[_ ->]|(q & w & _ & _ & _ & _ & ->)]; cbn [fst]; rewrite fmtInt_app.
  - rewrite app_assoc_str. by apply ends_s_not_m.
  - change (String "." (fixed q w "s")) with ("." +:+ fixed q w "s"). rewrite fixed_app, !app_assoc_str. by apply ends_s_not_m.
Qed.

Lemma trim_zeros_keeps s : HasSuffix s "m0s" = false → HasSuffix s "h0m" = false → trim_zeros s = s.
Proof. unfold trim_zeros. by intros -> ->. Qed.

Lemma fmtFrac_app prec print v buf : ∃ t, (fmtFrac prec print v buf).1 = t +:+ buf.
Proof.
  revert print v buf. induction prec as [|prec IH]; intros print v buf; cbn [fmtFrac].
  - destruct print; [by exists "."|by exists ""].
  - destruct (IH (print || negb (v `mod` 10 =? 0)) (v `div` 10)
      (if print || negb (v `mod` 10 =? 0) then String (digit_char (v `mod` 10)) buf else buf)) as [t ->].
    case_match; [|by exists t]. exists (t +:+ String (digit_char (v `mod` 10)) ""). by rewrite <- app_assoc_str.
Qed.

Lemma fmtFrac_whole prec v buf : 0 ≤ v → (fmtFrac prec false v buf).2 = v `div` 10 ^ Z.of_nat prec.
Proof. intros Hv. destruct (fmtFrac_spec prec v buf Hv) as [[_ ->]|(q & w & _ & _ & _ & _ & ->)]; done. Qed.

(** Below a second. *)
Lemma fmt_small_text prec unit v : 0 ≤ v → fmt_small prec unit v = fmtInt (v `div` 10 ^ Z.of_nat prec) (fmtFrac prec false v unit).1.
Proof.
  intros Hv. unfold fmt_small. rewrite <- (fmtFrac_whole prec v unit) by done. by destruct (fmtFrac prec false v unit).
Qed.

Lemma fmt_small_trim prec u x v : 0 ≤ v → x ≠ "0"%char → u = String x "s" ∨ (∃ y, u = String y (String x "s")) →
  trim_zeros (fmt_small prec u v) = fmt_small prec u v.
Proof.
  intros Hv Hx Hu. rewrite fmt_small_text by done. destruct (fmtFrac_app prec false v u) as [t ->].
  rewrite fmtInt_app. apply trim_zeros_keeps; destruct Hu as [->|[y ->]]; by_ending.
Qed.

Lemma small_reads prec u x v : (prec = 3 ∨ prec = 6)%nat → 0 < v < Second → is_unit u → unitMap u = Some (10 ^ Z.of_nat prec) →
  x ≠ "0"%char → u = String x "s" ∨ (∃ y, u = String y (String x "s")) → reads 0 (trim_zeros (fmt_small prec u v)) v.
Proof.
  intros Hp Hv Hu Hm Hx Hends. rewrite (fmt_small_trim prec u x), fmt_small_text by (done || lia).
  assert (0 < 10 ^ Z.of_nat prec ≤ 10 ^ 6) as H10 by (destruct Hp as [-> | ->]; done).
  apply (reads_eq (0 + (v `div` 10 ^ Z.of_nat prec * 10 ^ Z.of_nat prec + v `mod` 10 ^ Z.of_nat prec)));
    [pose proof (Z.div_mod v (10 ^ Z.of_nat prec)); lia|].
  apply reads_text; [lia|apply Z.div_pos; lia|lia|done|done|tauto|].
  pose proof (Z.div_mod v (10 ^ Z.of_nat prec)). unfold Second in Hv. lia.
Qed.

(** From a second on: hours and minutes as [p], which is read as [base], before
    the seconds. *)
Definition prefix_reads (p : string) (base : Z) : Prop :=
  ∀ rest total, next_component rest → reads base rest total → reads 0 (p +:+ rest) total.

Lemma prefix_none : prefix_reads "" 0.
Proof. by intros rest total. Qed.

Lemma prefix_add p base v u unit : prefix_reads p base → 0 ≤ base → 0 ≤ v → is_unit u → unitMap u = Some unit → 0 < unit →
  base + v * unit ≤ 2 ^ 63 → prefix_reads (p +:+ fmtInt v u) (base + v * unit).
Proof.
  intros Hp Hb Hv Hu Hm Hpos Hle rest total Hn Hr. rewrite <- app_assoc_str. apply Hp.
  - rewrite fmtInt_app, <- app_assoc_str, <- fmtInt_app. by apply next_fmtInt.
  - rewrite fmtInt_app, <- app_assoc_str, <- fmtInt_app. by eapply reads_whole.
Qed.

Lemma prefix_whole p base : prefix_reads p base → reads 0 p base.
Proof.
  intros H. assert (E : p +:+ "" = p) by (apply (inj chars); by rewrite chars_app, app_nil_r).
  rewrite <- E. apply H; [done|apply reads_nil].
Qed.

Lemma seconds_reads p base x v : prefix_reads p base → 0 ≤ base → 0 ≤ x → 0 ≤ v → base + (x * Second + v `mod` Second) ≤ 2 ^ 63 →
  reads 0 (p +:+ fmtInt x (fmtFrac 9 false v "s").1) (base + (x * Second + v `mod` Second)).
Proof.
  intros Hp Hb Hx Hv Hle. apply Hp; [by apply next_fmtInt|]. destruct unit_s as [Hs _].
  apply (reads_text base 9 x v "s"); try done. tauto.
Qed.

Lemma minutes_reads p base M x v : prefix_reads p base → 0 ≤ base → 0 ≤ M → 0 ≤ x → 0 ≤ v →
  (M = 0 → ∃ p', p = p' +:+ "h") → base + M * Minute + (x * Second + v `mod` Second) ≤ 2 ^ 63 →
  reads 0 (trim_zeros (p +:+ (fmtInt M "m" +:+ fmtInt x (fmtFrac 9 false v "s").1)))
    (base + M * Minute + (x * Second + v `mod` Second)).
Proof.
  intros Hp Hb HM Hx Hv Hh Hle. destruct unit_s as (_ & Hm & _).
  pose proof (prefix_add p base M "m" Minute Hp Hb HM Hm eq_refl ltac:(done) ltac:(pose proof (Z.mod_pos_bound v Second ltac:(done)); unfold Second in *; lia)) as Hpm.
  rewrite app_assoc_str. destruct (decide (x = 0 ∧ v `mod` 10 ^ Z.of_nat 9 = 0)) as [[-> Hz]|Hn].
  - destruct (fmtFrac_spec 9 v "s" Hv) as [[_ ->]|(q & w & Hq & Hw & Hlast & Hf & _)].
    2:{ exfalso. rewrite Hf in Hz. apply Z.mul_eq_0 in Hz as [Hz|Hz]; [|pose proof (Z.pow_pos_nonneg 10 (Z.of_nat (9 - q))); lia].
        destruct q as [|q]; [lia|]. rewrite Nat2Z.inj_succ, Z.pow_succ_r, Z.rem_mul_r in Hz by lia.
        pose proof (Z.mod_pos_bound w 10). pose proof (Z.mod_pos_bound (w `div` 10) (10 ^ Z.of_nat q)).
        pose proof (Z.pow_pos_nonneg 10 (Z.of_nat q)). lia. }
    cbn [fst]. change (fmtInt 0 "s") with "0s". change (10 ^ Z.of_nat 9) with Second in Hz.
    replace (base + M * Minute + (0 * Second + v `mod` Second)) with (base + M * Minute) by lia.
    unfold trim_zeros. rewrite (proj2 (HasSuffix_spec _ "m0s")).
    2:{ exists (p +:+ fmtInt M ""). rewrite (fmtInt_app M "m"), <- !app_assoc_str. done. }
    rewrite TrimSuffix_app. destruct (decide (M = 0)) as [->|HM0].
    + destruct (Hh eq_refl) as [p' ->]. rewrite (proj2 (HasSuffix_spec _ "h0m")) by (exists p'; by rewrite <- app_assoc_str).
      change (fmtInt 0 "m") with "0m". rewrite TrimSuffix_app, Z.add_0_r. by apply prefix_whole.
    + rewrite no_zero_ending by (done || lia). by apply prefix_whole.
  - rewrite trim_zeros_keeps; [|apply seconds_ending; (done || lia || tauto)|by apply seconds_end_s].
    apply seconds_reads; try done. unfold Minute in *. lia.
Qed.

Lemma long_reads d : Second ≤ d ≤ int64_max → reads 0 (trim_zeros (time_String d)) d.
Proof.
  unfold int64_max. intros Hd. unfold time_String. rewrite Z.abs_eq by (unfold Second in *; lia).
  destruct (Z.ltb_spec d Second); [lia|]. destruct (Z.ltb_spec d 0); [unfold Second in *; lia|].
  pose proof (fmtFrac_whole 9 d "s" ltac:(lia)) as Hw. change (10 ^ Z.of_nat 9) with Second in Hw.
  destruct (fmtFrac 9 false d "s") as [buf secs] eqn:E. cbn in Hw. subst secs.
  assert (Hbuf : buf = (fmtFrac 9 false d "s").1) by (by rewrite E). rewrite Hbuf. clear E Hbuf buf.
  set (secs := d `div` Second). set (mins := secs `div` 60).
  assert (Hsecs : d = secs * Second + d `mod` Second) by (unfold secs; pose proof (Z.div_mod d Second); unfold Second in *; lia).
  assert (Hmins : secs = mins * 60 + secs `mod` 60) by (unfold mins; pose proof (Z.div_mod secs 60); lia).
  pose proof (Z.mod_pos_bound d Second ltac:(done)). pose proof (Z.mod_pos_bound secs 60 ltac:(done)).
  assert (Hmod : secs * Second ≤ d) by lia. destruct unit_s as (_ & _ & Hh & _).
  destruct (Z.ltb_spec 0 mins) as [Hm|Hm].
  - destruct (Z.ltb_spec 0 (mins `div` 60)) as [Hhr|Hhr].
    + pose proof (Z.div_mod mins 60). pose proof (Z.mod_pos_bound mins 60 ltac:(done)).
      pose proof (prefix_add "" 0 (mins `div` 60) "h" Hour prefix_none ltac:(done) ltac:(lia) Hh eq_refl ltac:(done)
        ltac:(unfold Hour, Second in *; lia)) as Hp.
      rewrite (fmtInt_app (mins `div` 60)). change (String "h" ?x) with ("h" +:+ x).
      rewrite (fmtInt_app (mins `mod` 60)). change (String "m" ?x) with ("m" +:+ x).
      apply (reads_eq (0 + mins `div` 60 * Hour + mins `mod` 60 * Minute + (secs `mod` 60 * Second + d `mod` Second)));
        [unfold Hour, Minute, Second in *; lia|].
      pose proof (minutes_reads _ _ (mins `mod` 60) (secs `mod` 60) d Hp) as Hr.
      rewrite (fmtInt_app (mins `div` 60) "h"), (fmtInt_app (mins `mod` 60) "m"), <- !app_assoc_str in Hr. rewrite !app_nil_str in Hr.
      apply Hr; unfold Hour, Minute, Second in *; try lia. intros _. by exists (fmtInt (mins `div` 60) "").
    + replace (mins `mod` 60) with mins by (pose proof (Z.div_mod mins 60); pose proof (Z.div_pos mins 60); lia).
      rewrite (fmtInt_app mins). change (String "m" ?x) with ("m" +:+ x).
      apply (reads_eq (0 + mins * Minute + (secs `mod` 60 * Second + d `mod` Second))); [unfold Minute, Second in *; lia|].
      pose proof (minutes_reads "" 0 mins (secs `mod` 60) d prefix_none) as Hr.
      rewrite (fmtInt_app mins "m"), <- !app_assoc_str, !app_nil_str in Hr. apply Hr; unfold Minute, Second in *; lia.
  - assert (mins = 0) by (unfold mins, secs in *; pose proof (Z.div_pos d Second); pose proof (Z.div_pos secs 60); unfold Second in *; lia).
    replace (secs `mod` 60) with secs by lia. rewrite <- (app_nil_str (fmtInt secs _)).
    rewrite trim_zeros_keeps; [|apply seconds_ending; unfold Second in *; lia|apply seconds_end_s; lia].
    apply (reads_eq (0 + (secs * Second + d `mod` Second))); [lia|]. apply seconds_reads; [apply prefix_none|unfold Second in *; lia..].
Qed.

(** The texts hold no white space. *)
Definition no_space (s : string) : Prop := Forall (λ c, is_space c = false) (chars s).

Lemma no_space_trim s : no_space s → TrimSpace s = s.
Proof. unfold no_space. intros H. apply TrimSpace_id, forallb_forall. intros c Hc%list_elem_of_In. eapply Forall_forall in H; [|exact Hc]. by apply negb_true_iff. Qed.

Lemma digit_char_no_space d : 0 ≤ d < 10 → is_space (digit_char d) = false.
Proof.
  intros H. assert (d = 0 ∨ d = 1 ∨ d = 2 ∨ d = 3 ∨ d = 4 ∨ d = 5 ∨ d = 6 ∨ d = 7 ∨ d = 8 ∨ d = 9) by lia. naive_solver.
Qed.

Lemma fmtInt_no_space v buf : no_space buf → no_space (fmtInt v buf).
Proof.
  intros H. unfold fmtInt. destruct (v =? 0); [by constructor|]. generalize 20%nat. intros fuel. revert v buf H.
  induction fuel as [|fuel IH]; intros v buf H; cbn [fmt_digits]; [done|]. destruct (v =? 0); [done|]. apply IH.
  constructor; [apply digit_char_no_space, Z.mod_pos_bound; lia|done].
Qed.

Lemma fmtFrac_no_space prec print v buf : no_space buf → no_space (fmtFrac prec print v buf).1.
Proof.
  revert print v buf. induction prec as [|prec IH]; intros print v buf H; cbn [fmtFrac]; [by destruct print; [constructor|]|].
  apply IH. case_match; [|done]. constructor; [apply digit_char_no_space, Z.mod_pos_bound; lia|done].
Qed.
#[local] Hint Resolve fmtInt_no_space fmtFrac_no_space : gate.

Lemma trim_no_space s suffix : no_space s → no_space (TrimSuffixString s suffix).
Proof.
  intros H. unfold TrimSuffixString. case_match; [|done]. unfold no_space.
  assert (E : ∀ l, chars (string_of l) = l) by (intros l; induction l as [|c l IH]; [done|]; cbn; by rewrite IH).
  rewrite E. by apply Forall_take.
Qed.

Lemma time_String_no_space d : no_space (time_String d).
Proof.
  unfold time_String, fmt_small.
  assert (Hf : ∀ prec v u, no_space u → no_space (let '(buf, w) := fmtFrac prec false v u in fmtInt w buf)).
  { intros prec v u Hu. pose proof (fmtFrac_no_space prec false v u Hu). destruct (fmtFrac prec false v u). by apply fmtInt_no_space. }
  assert (Hs : ∀ s : string, no_space s → no_space (if d <? 0 then String "-" s else s)) by (intros; case_match; [by constructor|done]).
  apply Hs. destruct (Z.abs d <? Second).
  - destruct (Z.abs d =? 0); [repeat constructor|]. destruct (Z.abs d <? Microsecond); [apply Hf; repeat constructor|].
    destruct (Z.abs d <? Millisecond); apply Hf; repeat constructor.
  - pose proof (fmtFrac_no_space 9 false (Z.abs d) "s" ltac:(repeat constructor)). destruct (fmtFrac 9 false (Z.abs d) "s").
    repeat case_match; repeat (apply fmtInt_no_space || constructor || done).
Qed.

Lemma Duration_String_no_space d : no_space (Duration_String d).
Proof.
  assert (H : ∀ s a b, no_space s → no_space (if HasSuffix s a then TrimSuffixString s b else s)).
  { intros s a b Hs. destruct (HasSuffix s a); [by apply trim_no_space|done]. }
  apply H, H, time_String_no_space.
Qed.

Lemma Duration_String_reads d : 0 < d ≤ int64_max → reads 0 (Duration_String d) d.
Proof.
  intros Hd. unfold Duration_String. destruct (Z.lt_ge_cases d Second) as [Hs|Hs]; [|apply long_reads; lia].
  unfold time_String. rewrite Z.abs_eq by lia. destruct (Z.ltb_spec d Second); [|lia]. destruct (Z.eqb_spec d 0); [lia|].
  destruct (Z.ltb_spec d 0); [lia|]. destruct unit_s as (_ & _ & _ & Hn & Hu & Hm). destruct (d <? Microsecond).
  - rewrite (fmt_small_trim 0 "ns" "n") by (done || lia || by left). rewrite fmt_small_text, Z.div_1_r by lia.
    apply (reads_eq (0 + d * 1)); [lia|]. unfold fmtFrac. cbn [fst]. change "ns" with ("ns" +:+ "").
    eapply reads_whole; (done || lia || apply reads_nil || unfold int64_max in *; lia).
  - destruct (d <? Millisecond).
    + eapply (small_reads 3 "µs"); [by left|lia|done|done| |right; by eexists]. done.
    + eapply (small_reads 6 "ms" "m"); [by right|lia|done|done|done|by left].
Qed.

(** C25: A duration survives being written to a file and read back: for every
    duration that is not negative, what [MarshalYAML] writes, with zero seconds
    and minutes dropped, is read by [UnmarshalYAML] as the same number of
    nanoseconds; the float arithmetic of [time.ParseDuration] loses nothing. *)
Theorem duration_text_round_trip d : 0 ≤ d ≤ int64_max →
  Duration_UnmarshalYAML true "!!str" (Duration_String d) = Ok d.
Proof.
  intros Hd. unfold Duration_UnmarshalYAML. rewrite no_space_trim by apply Duration_String_no_space. cbn [negb].
  destruct (decide (d = 0)) as [->|Hn]; [by vm_compute|]. pose proof (Duration_String_reads d ltac:(lia)) as Hr.
  set (s := Duration_String d) in *. clearbody s. unfold reads in Hr. specialize (Hr (String.length s) ltac:(lia)).
  change (("!!str" =? "!!int")%string || ("!!str" =? "!!float")%string) with false. cbn iota.
  assert (Hp : ParseDuration s = Some d).
  { destruct s as [|c s]; [by injection Hr as <-|]. cbn [parse_components String.length] in Hr.
    unfold ParseDuration. assert (Hc : starts_number c = true).
    { destruct (starts_number c) eqn:E; [done|]. unfold parse_component in Hr. rewrite E in Hr. done. }
    assert ((c =? "-")%char = false ∧ (c =? "+")%char = false) as [-> ->].
    { by split; apply Ascii.eqb_neq; intros ->. }
    destruct (String.eqb_spec (String c s) "0") as [E|_]; [by rewrite E in Hr|]. cbn [String.eqb].
    cbn [String.length parse_components]. rewrite Hr. cbn [mbind option_bind].
    destruct (Z.ltb_spec (2 ^ 63 - 1) d); [unfold int64_max in *; lia|done]. }
  rewrite Hp. destruct (Z.ltb_spec d 0); [lia|done].
Qed.

Lemma duration_text_round_trip_witness :
  Duration_String 5400000000000 = "1h30m" ∧ Duration_String (2 * Hour) = "2h" ∧ Duration_String 1500 = "1.5µs"
  ∧ Duration_UnmarshalYAML true "!!str" (Duration_String int64_max) = Ok int64_max.
Proof. split_and!; [by vm_compute..|]. apply (duration_text_round_trip int64_max). by vm_compute. Defined.

(** ** Rates *)

Lemma f64_eqb_refl x : x ≠ SpecFloat.S754_nan → f64_eqb x x = true.
Proof.
  unfold f64_eqb, SpecFloat.SFeqb, SpecFloat.SFcompare. destruct x as [[]|[]| |[] m e]; intros H; try done;
    by rewrite Z.compare_refl, Pos.compare_cont_refl.
Qed.

Lemma f64_of_int_not_nan n : f64_small n → f64_of_int n ≠ SpecFloat.S754_nan.
Proof.
  intros Hn E. pose proof (f64_to_of_int n Hn) as H. rewrite E in H. vm_compute in H. subst n. done.
Qed.

Section rates.
(** [strconv.ParseFloat] and [strconv.FormatFloat(x, 'g', -1, 64)]. *)
Variable ParseFloat : string → option float64.
Variable FormatFloat : float64 → string.

Definition rateUnits (u : string) : option float64 :=
  if (u =? "s")%string then Some (f64_of_int 1)
  else if (u =? "m")%string then Some (f64_of_int 60)
  else if (u =? "h")%string then Some (f64_of_int 3600)
  else None.

(** [Rate.UnmarshalYAML]. *)
Definition Rate_UnmarshalYAML (scalar : bool) (value : string) : result text_error float64 :=
  if negb scalar then Err NotScalar
  else
    let '(amount, unit) := Cut "/" (TrimSpace value) in
    match unit ≫= (λ u, rateUnits (TrimSpace u)) with
    | None => Err NoUnit
    | Some per =>
        match ParseFloat (TrimSpace amount) with
        | None => Err Invalid
        | Some v => if f64_leb v f64_zero then Err Invalid else Ok (f64_div v per)
        end
    end.

(** [Rate.String]: the first of the units in which the rate is whole. *)
Fixpoint rate_in (units : list (string * Z)) (r : float64) : string :=
  match units with
  | [] => FormatFloat r +:+ "/s"
  | (name, per) :: units =>
      let v := f64_mul r (f64_of_int per) in
      if f64_eqb v (f64_of_int (f64_to_int v)) then itoa (f64_to_int v) +:+ "/" +:+ name else rate_in units r
  end.
Definition Rate_String (r : float64) : string := rate_in [("s", 1); ("m", 60); ("h", 3600)] r.

(** A whole number of requests per second is written per second, whatever
    larger unit it is whole in too. *)
Theorem whole_rate_text n : 0 ≤ n ≤ f64_max_int → Rate_String (f64_of_int n) = itoa n +:+ "/s".
Proof.
  intros Hn. unfold Rate_String. cbn [rate_in].
  rewrite f64_mul_int, Z.mul_1_r, f64_to_of_int by (unfold f64_small, f64_max_int in *; lia).
  rewrite f64_eqb_refl; [done|]. apply f64_of_int_not_nan. unfold f64_small. lia.
Qed.

(** A rate that is not a number is read as one. *)
Theorem nan_rate_accepted : ParseFloat "NaN" = Some SpecFloat.S754_nan → Rate_UnmarshalYAML true "NaN/s" = Ok SpecFloat.S754_nan.
Proof. intros H. unfold Rate_UnmarshalYAML. cbn. by rewrite H. Qed.
End rates.
