(* ===== verification/Startup.v ===== *)
(** * Configuration of the processes ([internal/app], [packages/common/config/env.go])

    What hub, edge, decision service and analytics read from the environment,
    what they refuse to start with, and how hub and clients secure the
    connection between them.  The environment is a function, files and
    certificates are parameters; [net.ParseIP] is translated from Go's library. *)

From S2P Require Import Prelude Float64 LuaNum GoLib TextForms Policies.
From Stdlib Require Import Ascii.

Local Open Scope Z_scope.

(** ** The environment ([env.go]) *)

Definition environment : Type := string → option string.

Section env.
Variable env : environment.

Definition env_String (key fallback : string) : string := default fallback (env key).
Definition env_Int64 (key : string) (fallback : Z) : Z := default fallback (env key ≫= ParseInt).
(** [Int]: [Atoi] on 64 bits. *)
Definition env_Int (key : string) (fallback : Z) : Z := env_Int64 key fallback.

(** [strconv.ParseBool]. *)
Definition ParseBool (s : string) : option bool :=
  if bool_decide (s ∈ ["1"; "t"; "T"; "TRUE"; "true"; "True"]) then Some true
  else if bool_decide (s ∈ ["0"; "f"; "F"; "FALSE"; "false"; "False"]) then Some false else None.
Definition env_Bool (key : string) (fallback : bool) : bool := default fallback (env key ≫= ParseBool).

Definition env_Duration (key : string) (fallback : Z) : Z := default fallback (env key ≫= ParseDuration).

Definition env_DurationSeconds (key : string) (fallbackSeconds : Z) : Z :=
  let seconds := env_Int key fallbackSeconds in
  let seconds := if seconds <=? 0 then fallbackSeconds else seconds in
  (seconds * Second)%i64.

(** [Required]; [None]: the variable is missing or empty. *)
Definition env_Required (key : string) : option string :=
  match env key with Some v => if (v =? "")%string then None else Some v | None => None end.
End env.

(** ** Addresses ([appkit.go]) *)

Definition ListenAddr (v : string) : string :=
  let v := TrimSpace v in
  if (v =? "")%string || bool_decide (has_char ":" v) then v else String ":" v.

Definition SplitCSV (value : string) : list string :=
  List.filter (λ v, negb (v =? "")%string) (TrimSpace <$> Split "," value).

(** *** [net.ParseIP] *)

(** A decimal field of an IPv4 address: at most 255, no leading zero. *)
Definition ipv4_field (s : string) : option Z :=
  n ← (if (s =? "")%string then None else digits 0 s);
  let leading := match s with String "0" (String _ _) => true | _ => false end in
  if leading || (255 <? n) then None else Some n.

Definition parseIPv4 (s : string) : option (list Z) :=
  match Split "." s with
  | [a; b; c; d] => a ← ipv4_field a; b ← ipv4_field b; c ← ipv4_field c; d ← ipv4_field d; Some [a; b; c; d]
  | _ => None
  end.

Definition hex_value (c : ascii) : option Z :=
  let n := Z.of_nat (nat_of_ascii c) in
  if (48 <=? n) && (n <=? 57) then Some (n - 48)
  else if (97 <=? n) && (n <=? 102) then Some (n - 87)
  else if (65 <=? n) && (n <=? 70) then Some (n - 55)
  else None.

(** The hexadecimal digits at the start: their value, their number, the rest. *)
Fixpoint hex_digits (acc : Z) (n : nat) (s : string) : Z * nat * string :=
  match s with
  | String c s' => match hex_value c with Some d => hex_digits (acc * 16 + d) (S n) s' | None => (acc, n, s) end
  | EmptyString => (acc, n, s)
  end.

(** The loop over the fields of an IPv6 address: the bytes so far, and where
    the ellipsis was.  Each turn adds bytes, so that nine turns are enough. *)
Fixpoint ipv6_fields (fuel : nat) (ip : list Z) (ellipsis : option nat) (s : string) : option (list Z * option nat * string) :=
  match fuel with
  | O => None
  | S fuel =>
      if (16 <=? length ip)%nat then Some (ip, ellipsis, s)
      else
        let '(acc, off, rest) := hex_digits 0 0 s in
        if (off =? 0)%nat || (4 <? off)%nat then None
        else match rest with
             | EmptyString => Some (ip ++ [acc `div` 256; acc `mod` 256], ellipsis, "")
             | String c more =>
                 if (c =? ".")%char then
                   if (bool_decide (ellipsis = None) && negb (length ip =? 12)%nat) || (16 <? length ip + 4)%nat then None
                   else v4 ← parseIPv4 s; Some (ip ++ v4, ellipsis, "")
                 else if negb (c =? ":")%char then None
                 else
                   let ip := ip ++ [acc `div` 256; acc `mod` 256] in
                   match more with
                   | EmptyString => None
                   | String d more' =>
                       if (d =? ":")%char then
                         match ellipsis with
                         | Some _ => None
                         | None => match more' with
                                   | EmptyString => Some (ip, Some (length ip), "")
                                   | _ => ipv6_fields fuel ip (Some (length ip)) more'
                                   end
                         end
                       else ipv6_fields fuel ip ellipsis more
                   end
             end
  end.

Definition parseIPv6 (s : string) : option (list Z) :=
  let '(ellipsis, s) := match CutPrefix s "::" with Some rest => (Some O, rest) | None => (None, s) end in
  if bool_decide (ellipsis = Some O) && (s =? "")%string then Some (replicate 16 0)
  else
    '(ip, ellipsis, rest) ← ipv6_fields 9 [] ellipsis s;
    if negb (rest =? "")%string then None
    else match ellipsis with
         | None => if (length ip =? 16)%nat then Some ip else None
         | Some e => if (length ip <? 16)%nat then Some (take e ip ++ replicate (16 - length ip) 0 ++ drop e ip) else None
         end.

(** [net.ParseIP]: the first dot or colon decides; a zone is refused. *)
Fixpoint first_mark (s : string) : option ascii :=
  match s with
  | EmptyString => None
  | String c s => if (c =? ".")%char || (c =? ":")%char || (c =? "%")%char then Some c else first_mark s
  end.
Definition ParseIP (s : string) : option (list Z) :=
  if bool_decide (has_char "%" s) then None
  else match first_mark s with
       | Some c => if (c =? ".")%char then parseIPv4 s else parseIPv6 s
       | None => None
       end.

(** [IP.IsLoopback]: 127.0.0.0/8, also mapped into IPv6, or ::1. *)
Definition v4_mapped : list Z := replicate 10 0 ++ [255; 255].
Definition ip_IsLoopback (ip : list Z) : bool :=
  match ip with
  | [a; _; _; _] => a =? 127
  | _ =>
      if bool_decide (take 12 ip = v4_mapped) then bool_decide (nth 12 ip 0 = 127)
      else bool_decide (ip = replicate 15 0 ++ [1])
  end.

Definition IsLoopback (addr : string) : bool :=
  match SplitHostPort addr with
  | None => false
  | Some (host, _) =>
      if (host =? "localhost")%string then true
      else match ParseIP host with Some ip => ip_IsLoopback ip | None => false end
  end.

(** ** TLS *)

(** What is found under the names of certificate files: whether a key pair
    loads, and whether a file of authorities can be read and parsed. *)
Record tls_files := mkFiles {
  tf_pair : string → string → bool;
  tf_ca_read : string → bool;
  tf_ca_parse : string → bool;
}.

Inductive ClientAuth := RequireAndVerifyClientCert | RequireAnyClientCert | NoClientCert.
Record server_tls := mkServerTLS { st_ClientAuth : ClientAuth; st_MinVersion : string }.
Record client_tls := mkClientTLS { ct_ServerName : string; ct_MinVersion : string }.

Definition client_auth (mode : string) : option ClientAuth :=
  let mode := ToLower (TrimSpace mode) in
  if bool_decide (mode ∈ [""; "require-and-verify"]) then Some RequireAndVerifyClientCert
  else if (mode =? "require-any")%string then Some RequireAnyClientCert
  else if bool_decide (mode ∈ ["none"; "no-client-cert"]) then Some NoClientCert
  else None.

(** [ClientTLS] of the hub client. *)
Definition ClientTLS (files : tls_files) (serverName certFile keyFile caFile : string) : option client_tls :=
  if (serverName =? "")%string then None
  else if negb (tf_pair files certFile keyFile) then None
  else if negb (tf_ca_read files caFile) then None
  else if negb (tf_ca_parse files caFile) then None
  else Some (mkClientTLS serverName "TLS 1.3").

(** ** The hub ([hubapp.go]) *)

Record hub_Config := mkHubConfig {
  hb_HTTPAddr : string; hb_GRPCAddr : string; hb_ConfigPath : string; hb_AuthToken : string; hb_ReadToken : string;
  hb_RedisAddr : string; hb_RedisAddrs : list string; hb_EnforceNoEviction : bool; hb_EdgeOrigins : list string;
  hb_MetricsAddr : string; hb_TLSCertFile : string; hb_TLSKeyFile : string; hb_TLSCAFile : string;
  hb_GRPCClientAuthMode : string; hb_Region : string; hb_RegionPeers : gmap string string; hb_RegionServerName : string;
}.

Definition parse_peer (m : gmap string string) (p : string) : gmap string string :=
  match Cut "=" p with
  | (name, Some addr) =>
      if (name =? "")%string || (addr =? "")%string then m else <[TrimSpace name := TrimSpace addr]> m
  | _ => m
  end.
Definition parsePeers (v : string) : gmap string string := foldl parse_peer ∅ (SplitCSV v).

Definition hub_FromEnv (env : environment) : hub_Config := {|
  hb_HTTPAddr := ListenAddr (env_String env "PORT" "8080");
  hb_GRPCAddr := ListenAddr (env_String env "HUB_GRPC_PORT" "9090");
  hb_ConfigPath := TrimSpace (env_String env "CONFIG_FILE_PATH" "");
  hb_AuthToken := TrimSpace (env_String env "HUB_AUTH_TOKEN" "");
  hb_ReadToken := TrimSpace (env_String env "HUB_READ_TOKEN" "");
  hb_RedisAddr := env_String env "REDIS_ADDR" "localhost:6379";
  hb_RedisAddrs := SplitCSV (env_String env "REDIS_ADDRS" "");
  hb_EnforceNoEviction := env_Bool env "HUB_ENFORCE_REDIS_NOEVICTION" true;
  hb_EdgeOrigins := SplitCSV (env_String env "HUB_EDGE_ALLOWED_ORIGINS" "");
  hb_MetricsAddr := env_String env "METRICS_ADDR" ":9100";
  hb_TLSCertFile := TrimSpace (env_String env "HUB_TLS_CERT_FILE" "");
  hb_TLSKeyFile := TrimSpace (env_String env "HUB_TLS_KEY_FILE" "");
  hb_TLSCAFile := TrimSpace (env_String env "HUB_TLS_CA_FILE" "");
  hb_GRPCClientAuthMode := TrimSpace (env_String env "HUB_GRPC_CLIENT_AUTH_MODE" "require-and-verify");
  hb_Region := TrimSpace (env_String env "HUB_REGION" "");
  hb_RegionPeers := parsePeers (env_String env "HUB_REGION_PEERS" "");
  hb_RegionServerName := TrimSpace (env_String env "HUB_REGION_SERVER_NAME" "hub-server") |}.

Definition no_files (cert key ca : string) : bool := (cert =? "")%string && (key =? "")%string && (ca =? "")%string.
Definition hub_plaintext (c : hub_Config) : bool := no_files (hb_TLSCertFile c) (hb_TLSKeyFile c) (hb_TLSCAFile c).

Definition serverTLS (files : tls_files) (c : hub_Config) : option server_tls :=
  if negb (tf_pair files (hb_TLSCertFile c) (hb_TLSKeyFile c)) then None
  else if negb (tf_ca_read files (hb_TLSCAFile c)) then None
  else if negb (tf_ca_parse files (hb_TLSCAFile c)) then None
  else auth ← client_auth (hb_GRPCClientAuthMode c); Some (mkServerTLS auth "TLS 1.3").

Inductive start_error :=
| MissingToken | MissingConfigPath | BadConfig | MissingGRPC | NeedsTLS | BadTLS | NeedsServerName | MissingNATS | MissingHub
| NothingToServe | MissingStore | BadHubURL | BadKeyPattern | BadPeer | ListenFailed | MissingLimiterRedis.

(** [Validate]; [loads]: whether the configuration file loads. *)
Definition hub_Validate (files : tls_files) (loads : string → bool) (c : hub_Config) : list start_error :=
  (if (hb_AuthToken c =? "")%string then [MissingToken] else [])
  ++ (if (hb_ConfigPath c =? "")%string then [MissingConfigPath] else if loads (hb_ConfigPath c) then [] else [BadConfig])
  ++ (if (hb_GRPCAddr c =? "")%string then [MissingGRPC]
      else if hub_plaintext c && negb (IsLoopback (hb_GRPCAddr c)) then [NeedsTLS]
      else if negb (hub_plaintext c) then match serverTLS files c with None => [BadTLS] | Some _ => [] end
      else []).

(** What a hub that has started listens with, and the peers it dials. *)
Record hub_running := mkHubRunning {
  hr_grpc : option server_tls;                          (* None: plaintext *)
  hr_peers : option (gset string * option client_tls);  (* of a hub with a region *)
  hr_ready : bool;
}.

(** [newGRPCServer]: [None] is an error, [Some None] plaintext. *)
Definition newGRPCServer (files : tls_files) (c : hub_Config) : option (option server_tls) :=
  if hub_plaintext c then Some None else tls ← serverTLS files c; Some (Some tls).

(** [startRegion]; [dial]: whether a client for an address can be made. *)
Definition startRegion (files : tls_files) (dial : string → bool) (c : hub_Config) : result start_error (gset string * option client_tls) :=
  match (if hub_plaintext c then Some None
         else tls ← ClientTLS files (hb_RegionServerName c) (hb_TLSCertFile c) (hb_TLSKeyFile c) (hb_TLSCAFile c); Some (Some tls)) with
  | None => Err BadTLS
  | Some creds =>
      let peers := delete (hb_Region c) (hb_RegionPeers c) in
      if forallb (λ p, dial p.2) (map_to_list peers) then Ok (dom peers, creds) else Err BadPeer
  end.

(** [Start]: what it refuses and the credentials it runs with (its handlers
    are components of their own).  [pattern_ok]: whether the configured key pattern compiles;
    [listen]: whether an address can be listened on. *)
Definition hub_Start (files : tls_files) (loads : string → bool) (pattern_ok : bool) (dial listen : string → bool)
    (c : hub_Config) : result (list start_error) hub_running :=
  match hub_Validate files loads c with
  | [] =>
      if negb (loads (hb_ConfigPath c)) then Err [BadConfig]
      else if negb pattern_ok then Err [BadKeyPattern]
      else match newGRPCServer files c with
           | None => Err [BadTLS]
           | Some grpc =>
               match (if (hb_Region c =? "")%string then Ok None
                      else match startRegion files dial c with Ok r => Ok (Some r) | Err e => Err e end) with
               | Err e => Err [e]
               | Ok peers =>
                   if negb (listen (hb_GRPCAddr c)) || negb (listen (hb_HTTPAddr c)) then Err [ListenFailed]
                   else Ok (mkHubRunning grpc peers false)
               end
           end
  | errs => Err errs
  end.

(** ** The edge ([edgeapp.go]) *)

Record edge_Config := mkEdgeConfig {
  ec_HTTPAddr : string; ec_EdgeID : string; ec_HubGRPCAddr : string; ec_HubGRPCServerName : string;
  ec_TLSCertFile : string; ec_TLSKeyFile : string; ec_TLSCAFile : string; ec_RedisAddr : string; ec_CacheBytes : Z;
  ec_Limiter : string; ec_LimiterRedis : string; ec_LeaseSize : Z; ec_LeaseLowWaterPct : float64; ec_AnalyticsEnabled : bool;
  ec_NATSURL : string; ec_AnalyticsSubject : string; ec_BootstrapConfigFile : string; ec_AdminToken : string; ec_MetricsAddr : string;
}.

Definition defaultCacheBytes : Z := 64 * 2 ^ 20.

(** [natsDefault] is the NATS library's default address. *)
Definition edge_FromEnv (natsDefault : string) (env : environment) : edge_Config := {|
  ec_HTTPAddr := ListenAddr (env_String env "PORT" "8080");
  ec_EdgeID := env_String env "EDGE_ID" "";
  ec_HubGRPCAddr := TrimSpace (env_String env "HUB_GRPC_ADDR" "localhost:9090");
  ec_HubGRPCServerName := TrimSpace (env_String env "HUB_GRPC_SERVER_NAME" "");
  ec_TLSCertFile := TrimSpace (env_String env "EDGE_TLS_CERT_FILE" "");
  ec_TLSKeyFile := TrimSpace (env_String env "EDGE_TLS_KEY_FILE" "");
  ec_TLSCAFile := TrimSpace (env_String env "EDGE_TLS_CA_FILE" "");
  ec_RedisAddr := TrimSpace (env_String env "REDIS_ADDR" "");
  ec_CacheBytes := env_Int64 env "EDGE_CACHE_BYTES" defaultCacheBytes;
  ec_Limiter := TrimSpace (env_String env "EDGE_LIMITER" "lease");
  ec_LimiterRedis := TrimSpace (env_String env "EDGE_LIMITER_REDIS" "");
  ec_LeaseSize := env_Int64 env "EDGE_LEASE_SIZE" 0;
  ec_LeaseLowWaterPct := f64_of_int (env_Int env "EDGE_LEASE_LOW_WATER_PERCENT" 0);
  ec_AnalyticsEnabled := env_Bool env "GATE_ANALYTICS_ENABLED" true;
  ec_NATSURL := env_String env "NATS_URL" natsDefault;
  ec_AnalyticsSubject := env_String env "NATS_ANALYTICS_SUBJECT" "";
  ec_BootstrapConfigFile := env_String env "EDGE_BOOTSTRAP_CONFIG_FILE" "";
  ec_AdminToken := env_String env "EDGE_ADMIN_TOKEN" "";
  ec_MetricsAddr := env_String env "METRICS_ADDR" ":9100" |}.

Definition edge_plaintext (c : edge_Config) : bool := no_files (ec_TLSCertFile c) (ec_TLSKeyFile c) (ec_TLSCAFile c).

(** The check of the connection to the hub, which edge and decision service
    make alike. *)
Definition check_hub_connection (plaintext : bool) (addr serverName : string) : list start_error :=
  if (addr =? "")%string then [MissingHub]
  else if plaintext && negb (IsLoopback addr) then [NeedsTLS]
  else if negb plaintext && (serverName =? "")%string then [NeedsServerName]
  else [].

Definition edge_Validate (c : edge_Config) : list start_error :=
  check_hub_connection (edge_plaintext c) (ec_HubGRPCAddr c) (ec_HubGRPCServerName c)
  ++ (if ec_AnalyticsEnabled c && (ec_NATSURL c =? "")%string then [MissingNATS] else []).

(** An edge that has started: how it talks to the hub, whether it serves
    before the hub has sent a configuration, and whether it uses the central
    counter. *)
Record edge_running := mkEdgeRunning { eg_hub : option client_tls; eg_open : bool; eg_central : bool }.

Definition edge_Start (files : tls_files) (dial loads listen : string → bool) (c : edge_Config) : result (list start_error) edge_running :=
  match edge_Validate c with
  | [] =>
      match (if edge_plaintext c then Some None
             else tls ← ClientTLS files (ec_HubGRPCServerName c) (ec_TLSCertFile c) (ec_TLSKeyFile c) (ec_TLSCAFile c); Some (Some tls)) with
      | None => Err [BadTLS]
      | Some creds =>
          let bootstrap := negb (ec_BootstrapConfigFile c =? "")%string in
          let central := (ec_Limiter c =? "redis-counter")%string in
          if negb (dial (ec_HubGRPCAddr c)) then Err [BadPeer]
          else if bootstrap && negb (loads (ec_BootstrapConfigFile c)) then Err [BadConfig]
          else if central && (ec_LimiterRedis c =? "")%string then Err [MissingLimiterRedis]
          else if negb (listen (ec_HTTPAddr c)) then Err [ListenFailed]
          else Ok (mkEdgeRunning creds bootstrap central)
      end
  | errs => Err errs
  end.

(** The Redis servers the hub connects to ([newRedis]): one, or a cluster
    when several are listed. *)
Inductive redis_client := Single (addr : string) | Cluster (addrs : list string).
Definition newRedis (c : hub_Config) : redis_client :=
  let addrs := if bool_decide (hb_RedisAddrs c ≠ []) then hb_RedisAddrs c else [hb_RedisAddr c] in
  match addrs with [a] => Single a | _ => Cluster addrs end.

(** ** The decision service ([limiterapp.go]) *)

Record limiter_Config := mkLimiterConfig {
  lc_HTTPAddr : string; lc_GRPCAddr : string; lc_ID : string; lc_HubGRPCAddr : string; lc_HubGRPCServerName : string;
  lc_TLSCertFile : string; lc_TLSKeyFile : string; lc_TLSCAFile : string; lc_Secret : string; lc_Token : string; lc_MetricsAddr : string;
}.

Definition limiter_FromEnv (env : environment) : limiter_Config := {|
  lc_HTTPAddr := ListenAddr (env_String env "PORT" "8080");
  lc_GRPCAddr := ListenAddr (env_String env "LIMITER_GRPC_PORT" "8081");
  lc_ID := env_String env "LIMITER_ID" "";
  lc_HubGRPCAddr := TrimSpace (env_String env "HUB_GRPC_ADDR" "localhost:9090");
  lc_HubGRPCServerName := TrimSpace (env_String env "HUB_GRPC_SERVER_NAME" "");
  lc_TLSCertFile := TrimSpace (env_String env "LIMITER_TLS_CERT_FILE" "");
  lc_TLSKeyFile := TrimSpace (env_String env "LIMITER_TLS_KEY_FILE" "");
  lc_TLSCAFile := TrimSpace (env_String env "LIMITER_TLS_CA_FILE" "");
  lc_Secret := env_String env "LIMITER_SECRET" "";
  lc_Token := env_String env "LIMITER_TOKEN" "";
  lc_MetricsAddr := env_String env "METRICS_ADDR" ":9100" |}.

Definition limiter_plaintext (c : limiter_Config) : bool := no_files (lc_TLSCertFile c) (lc_TLSKeyFile c) (lc_TLSCAFile c).

Definition limiter_Validate (c : limiter_Config) : list start_error :=
  check_hub_connection (limiter_plaintext c) (lc_HubGRPCAddr c) (lc_HubGRPCServerName c)
  ++ (if (lc_HTTPAddr c =? "")%string && (lc_GRPCAddr c =? "")%string then [NothingToServe] else []).

(** A decision service that has started: its connection to the hub and the
    listeners it has. *)
Record limiter_running := mkLimiterRunning { lm_hub : option client_tls; lm_grpc : bool; lm_http : bool }.

Definition limiter_Start (files : tls_files) (dial listen : string → bool) (c : limiter_Config) : result (list start_error) limiter_running :=
  match limiter_Validate c with
  | [] =>
      match (if limiter_plaintext c then Some None
             else tls ← ClientTLS files (lc_HubGRPCServerName c) (lc_TLSCertFile c) (lc_TLSKeyFile c) (lc_TLSCAFile c); Some (Some tls)) with
      | None => Err [BadTLS]
      | Some creds =>
          let grpc := negb (lc_GRPCAddr c =? "")%string in
          let http := negb (lc_HTTPAddr c =? "")%string in
          if negb (dial (lc_HubGRPCAddr c)) then Err [BadPeer]
          else if grpc && negb (listen (lc_GRPCAddr c)) then Err [ListenFailed]
          else if http && negb (listen (lc_HTTPAddr c)) then Err [ListenFailed]
          else Ok (mkLimiterRunning creds grpc http)
      end
  | errs => Err errs
  end.

(** ** Analytics ([analyticsapp.go]) *)

Record analytics_Config := mkAnalyticsConfig {
  an_HTTPAddr : string; an_HubAddr : string; an_HubToken : string; an_APIToken : string;
  an_ClickHouseDSN : string; an_ClickHouseTable : string; an_RetentionDays : Z; an_RedisAddr : string;
  an_NATSURL : string; an_NATSSubject : string; an_NATSQueue : string; an_MetricsAddr : string; an_PrometheusURL : string;
}.

Definition analytics_FromEnv (env : environment) : analytics_Config := {|
  an_HTTPAddr := ListenAddr (env_String env "PORT" "8091");
  an_HubAddr := TrimSpace (env_String env "HUB_ADDR" "");
  an_HubToken := TrimSpace (env_String env "HUB_AUTH_TOKEN" "");
  an_APIToken := env_String env "ANALYTICS_API_TOKEN" "";
  an_ClickHouseDSN := TrimSpace (env_String env "CLICKHOUSE_DSN" "");
  an_ClickHouseTable := TrimSpace (env_String env "ANALYTICS_CLICKHOUSE_TABLE" "analytics_events");
  an_RetentionDays := env_Int env "ANALYTICS_RETENTION_DAYS" 30;
  an_RedisAddr := TrimSpace (env_String env "REDIS_ADDR" "");
  an_NATSURL := TrimSpace (env_String env "NATS_ANALYTICS_URL" (env_String env "NATS_URL" ""));
  an_NATSSubject := TrimSpace (env_String env "NATS_ANALYTICS_SUBJECT" "");
  an_NATSQueue := TrimSpace (env_String env "NATS_ANALYTICS_QUEUE" "");
  an_MetricsAddr := env_String env "METRICS_ADDR" ":9100";
  an_PrometheusURL := env_String env "PROMETHEUS_URL" "" |}.

Definition analytics_Validate (c : analytics_Config) : list start_error :=
  (if (an_ClickHouseDSN c =? "")%string && (an_RedisAddr c =? "")%string then [MissingStore] else [])
  ++ (if (an_NATSURL c =? "")%string then [MissingNATS] else [])
  ++ (if (an_HubAddr c =? "")%string then [MissingHub]
      else if negb (HasPrefix (an_HubAddr c) "http://") && negb (HasPrefix (an_HubAddr c) "https://") then [BadHubURL] else []).

(** [fetchRuntimePolicy]: the request for the hub's configuration (URL and
    the value of the Authorization header), and the policy its answer gives.
    An answer is a status and, when its body decodes, the policy in it. *)
Definition policy_request (c : analytics_Config) : string * option string :=
  ((TrimSuffixString (an_HubAddr c) "/" ++ "/config")%string,
   if (an_HubToken c =? "")%string then None else Some ("Bearer " ++ an_HubToken c)%string).
Definition fetchRuntimePolicy (answer : option (Z * option AnalyticsRuntimePolicy)) : option AnalyticsRuntimePolicy :=
  match answer with
  | Some (200, Some p) => Some (AnalyticsRuntimePolicy_Effective p (rp_Analytics DefaultRuntimePolicy))
  | _ => None
  end.

(** What analytics runs with: its policy, and subject and queue of the events. *)
Record analytics_running := mkAnalyticsRunning {
  ag_policy : AnalyticsRuntimePolicy; ag_subject : string; ag_queue : string; ag_clickhouse : bool;
}.

(** [store_ok]: whether the ClickHouse store opens. *)
Definition analytics_Start (answer : option (Z * option AnalyticsRuntimePolicy)) (store_ok : bool) (listen : string → bool)
    (c : analytics_Config) : result (list start_error) analytics_running :=
  match analytics_Validate c with
  | [] =>
      let policy := default (rp_Analytics DefaultRuntimePolicy) (fetchRuntimePolicy answer) in
      let or v d := if (v =? "")%string then d else v in
      let clickhouse := negb (an_ClickHouseDSN c =? "")%string in
      if clickhouse && negb store_ok then Err [MissingStore]
      else if negb (listen (an_HTTPAddr c)) then Err [ListenFailed]
      else Ok (mkAnalyticsRunning policy (or (an_NATSSubject c) (ar_NATSSubject policy)) (or (an_NATSQueue c) (ar_NATSQueue policy)) clickhouse)
  | errs => Err errs
  end.

(** ** Properties *)

(** A plaintext listener is on the machine itself and no certificate is
    named; otherwise the key pair and the authorities load, TLS is 1.3, and
    clients' certificates are verified unless the operator asked for less. *)
Definition weaker_mode (mode : string) : Prop := ToLower (TrimSpace mode) ∈ ["require-any"; "none"; "no-client-cert"].
Definition listener_secure (files : tls_files) (c : hub_Config) (tls : option server_tls) : Prop :=
  match tls with
  | None => IsLoopback (hb_GRPCAddr c) = true ∧ hb_TLSCertFile c = "" ∧ hb_TLSKeyFile c = "" ∧ hb_TLSCAFile c = ""
  | Some t =>
      tf_pair files (hb_TLSCertFile c) (hb_TLSKeyFile c) = true ∧ tf_ca_parse files (hb_TLSCAFile c) = true ∧
      st_MinVersion t = "TLS 1.3" ∧ (st_ClientAuth t = RequireAndVerifyClientCert ∨ weaker_mode (hb_GRPCClientAuthMode c))
  end.

(** A plaintext connection to the hub goes to the machine itself; otherwise
    the client names the hub it expects, proves itself and uses TLS 1.3. *)
Definition link_secure (files : tls_files) (addr name cert key ca : string) (tls : option client_tls) : Prop :=
  match tls with
  | None => IsLoopback addr = true ∧ cert = "" ∧ key = "" ∧ ca = ""
  | Some t => t = mkClientTLS name "TLS 1.3" ∧ name ≠ "" ∧ tf_pair files cert key = true ∧ tf_ca_parse files ca = true
  end.

Lemma no_files_true a b c : no_files a b c = true ↔ a = "" ∧ b = "" ∧ c = "".
Proof. unfold no_files. rewrite !andb_true_iff, !String.eqb_eq. tauto. Qed.

Lemma client_auth_mode mode a : client_auth mode = Some a → a = RequireAndVerifyClientCert ∨ weaker_mode mode.
Proof.
  unfold client_auth, weaker_mode. set (m := ToLower (TrimSpace mode)).
  case_bool_decide; [naive_solver|].
  destruct (m =? "require-any")%string eqn:E; [apply String.eqb_eq in E; right; set_solver|].
  case_bool_decide; [right; set_solver|done].
Qed.

Lemma serverTLS_secure files c t :
  serverTLS files c = Some t → listener_secure files c (Some t).
Proof.
  unfold serverTLS, listener_secure. intros H.
  destruct (tf_pair _ _ _); [|done]. destruct (tf_ca_read _ _); [|done]. destruct (tf_ca_parse _ _); [|done].
  apply bind_Some in H as (a & Ha & [= <-]). eauto using client_auth_mode.
Qed.

Lemma ClientTLS_secure files addr name cert key ca t :
  ClientTLS files name cert key ca = Some t → link_secure files addr name cert key ca (Some t).
Proof.
  unfold ClientTLS, link_secure. intros H.
  destruct (name =? "")%string eqn:E; [done|]. apply String.eqb_neq in E.
  destruct (tf_pair _ _ _); [|done]. destruct (tf_ca_read _ _); [|done]. destruct (tf_ca_parse _ _); [|done].
  injection H as <-. done.
Qed.

(** The credentials edge, decision service and hub derive alike. *)
Lemma link_credentials files addr name cert key ca creds :
  check_hub_connection (no_files cert key ca) addr name = [] →
  (if no_files cert key ca then Some None else tls ← ClientTLS files name cert key ca; Some (Some tls)) = Some creds →
  link_secure files addr name cert key ca creds.
Proof.
  unfold check_hub_connection. intros Hc Hk. destruct (no_files cert key ca) eqn:E.
  - simplify_eq. apply no_files_true in E. cbn. destruct (addr =? "")%string; [done|].
    by destruct (IsLoopback addr).
  - apply bind_Some in Hk as (t & Ht & [= <-]). eauto using ClientTLS_secure.
Qed.

Lemma hub_listener files loads p dial listen c h :
  hub_Start files loads p dial listen c = Ok h → listener_secure files c (hr_grpc h).
Proof.
  unfold hub_Start. destruct (hub_Validate files loads c) eqn:EV; [|done].
  destruct (negb (loads _)); [done|]. destruct (negb p); [done|].
  destruct (newGRPCServer files c) as [g|] eqn:EG; [|done].
  destruct (if (hb_Region c =? "")%string then _ else _); [|done].
  destruct (_ || _); [done|]. intros [= <-]. cbn.
  unfold newGRPCServer in EG. destruct (hub_plaintext c) eqn:EP.
  - simplify_eq. unfold hub_Validate in EV. rewrite EP in EV.
    apply app_eq_nil in EV as [_ [_ EV]%app_eq_nil]. apply no_files_true in EP. cbn.
    destruct (hb_GRPCAddr c =? "")%string; [done|]. by destruct (IsLoopback _).
  - apply bind_Some in EG as (t & Ht & [= <-]). eauto using serverTLS_secure.
Qed.

Lemma edge_link files dial loads listen c e :
  edge_Start files dial loads listen c = Ok e →
  link_secure files (ec_HubGRPCAddr c) (ec_HubGRPCServerName c) (ec_TLSCertFile c) (ec_TLSKeyFile c) (ec_TLSCAFile c) (eg_hub e).
Proof.
  unfold edge_Start, edge_plaintext. destruct (edge_Validate c) eqn:EV; [|done].
  unfold edge_Validate, edge_plaintext in EV. apply app_eq_nil in EV as [EV _].
  destruct (if no_files _ _ _ then _ else _) as [creds|] eqn:EC; [|done].
  repeat (match goal with |- context [if ?b then _ else _] => destruct b; [discriminate|] end).
  intros [= <-]. exact (link_credentials _ _ _ _ _ _ _ EV EC).
Qed.

Lemma limiter_link files dial listen c l :
  limiter_Start files dial listen c = Ok l →
  link_secure files (lc_HubGRPCAddr c) (lc_HubGRPCServerName c) (lc_TLSCertFile c) (lc_TLSKeyFile c) (lc_TLSCAFile c) (lm_hub l).
Proof.
  unfold limiter_Start, limiter_plaintext. destruct (limiter_Validate c) eqn:EV; [|done].
  unfold limiter_Validate, limiter_plaintext in EV. apply app_eq_nil in EV as [EV _].
  destruct (if no_files _ _ _ then _ else _) as [creds|] eqn:EC; [|done].
  repeat (match goal with |- context [if ?b then _ else _] => destruct b; [discriminate|] end).
  intros [= <-]. exact (link_credentials _ _ _ _ _ _ _ EV EC).
Qed.


Module Deployment.
Definition vars (l : list (string * string)) : environment := λ k, (list_to_map l : gmap string string) !! k.
Definition files : tls_files := mkFiles (λ c k, (c =? "tls.crt")%string && (k =? "tls.key")%string) (λ c, (c =? "ca.crt")%string) (λ c, (c =? "ca.crt")%string).
Definition all : string → bool := λ _, true.

Definition hub_env := vars [("HUB_AUTH_TOKEN", "s3cret"); ("CONFIG_FILE_PATH", "gate.yaml"); ("HUB_TLS_CERT_FILE", "tls.crt"); ("HUB_TLS_KEY_FILE", "tls.key"); ("HUB_TLS_CA_FILE", "ca.crt")].
Definition edge_env := vars [("HUB_GRPC_ADDR", "hub:9090"); ("HUB_GRPC_SERVER_NAME", "hub-server"); ("EDGE_TLS_CERT_FILE", "tls.crt"); ("EDGE_TLS_KEY_FILE", "tls.key"); ("EDGE_TLS_CA_FILE", "ca.crt")].
(** The decision service runs beside a hub, in plaintext. *)
Definition limiter_env := vars [("HUB_GRPC_ADDR", "127.0.0.1:9090")].
End Deployment.


(** With nothing in the environment the hub names all that it misses: its
    port listens on every interface, so that certificates are required. *)
Example empty_environment :
  hub_Start Deployment.files Deployment.all true Deployment.all Deployment.all (hub_FromEnv (λ _, None))
  = Err [MissingToken; MissingConfigPath; NeedsTLS].
Proof. vm_compute. reflexivity. Qed.

(** A hub in plaintext with a region dials its peers in plaintext, whatever
    their address. *)
Example plaintext_region_peers :
  let c := hub_FromEnv (Deployment.vars [("HUB_AUTH_TOKEN", "s3cret"); ("CONFIG_FILE_PATH", "gate.yaml"); ("HUB_GRPC_PORT", "127.0.0.1:9090");
             ("HUB_REGION", "eu"); ("HUB_REGION_PEERS", "eu=hub.eu:9090,us=hub.us:9090")]) in
  hub_Start Deployment.files Deployment.all true Deployment.all Deployment.all c
  = Ok (mkHubRunning None (Some ({["us"]}, None)) false).
Proof. vm_compute. reflexivity. Qed.

(** Which addresses are the machine itself. *)
Example loopback_addresses :
  IsLoopback <$> ["localhost:1"; "127.0.0.1:9090"; "127.8.9.10:9090"; "[::1]:9090"; "[0:0:0:0:0:0:0:1]:9090"; "[::ffff:127.0.0.1]:80"]
  = [true; true; true; true; true; true] ∧
  IsLoopback <$> [":9090"; "0.0.0.0:9090"; "[::]:9090"; "10.0.0.1:9090"; "hub:9090"; "127.0.0.1"; "127.0.0.01:9"; "[::1%lo]:1"; "LOCALHOST:1"; "dns:///localhost:1"]
  = [false; false; false; false; false; false; false; false; false; false].
Proof. vm_compute. done. Qed.
