(* ===== verification/DecideHttp.v ===== *)
(** * The decision service over HTTP ([packages/decide/http.go])

    The JSON API around [Check] and [Settle]: the token, the bound on how long
    a caller may wait, and what each outcome is reported as.  Bodies are the
    values JSON decodes them to; [None] is a body that does not decode. *)

From Stdlib Require Import Ascii.
From S2P Require Import Prelude Float64 Ledger Limiter Reserve Wire Config Decide Hub DecideService DecideProps GoLib.

Local Open Scope Z_scope.

Record checkRequest := mkCheckRequest {
  kr_Domain : string;
  kr_Descriptors : list Descriptor;
  kr_MaxWaitMs : Z; (* int64 *)
  kr_Reserve : bool;
}.

Record checkStatus := mkCheckStatus {
  ks_Limit : string;
  ks_Matched : bool;
  ks_Allowed : bool;
  ks_ShadowDenied : bool;
  ks_LimitValue : Z;
  ks_Remaining : Z;
  ks_ResetMs : Z;
  ks_Window : Z;
}.

Record checkResponse := mkCheckResponse {
  kp_Allowed : bool;
  kp_RetryAfterMs : Z;
  kp_Reservation : string;
  kp_Statuses : list checkStatus;
}.

Inductive api_answer :=
| ApiProblem (status : Z) (code : string)
| ApiDecision (resp : checkResponse) (retry_after : option Z) (* status 200, with the header's seconds *)
| ApiNoContent.

Definition maxWaitCap : Z := 30 * Second.

(** The wait a request asks for; the product is one of [int64]. *)
Definition wait_of (maxWaitMs : Z) : Z := Z.min (Z.max maxWaitMs 0 * Millisecond)%i64 maxWaitCap.

Definition check_status (st : Status) : checkStatus :=
  mkCheckStatus (ss_LimitID st) (ss_Matched st) (ss_Allowed st) (ss_ShadowDenied st) (ss_Limit st)
    (Z.max (ss_Remaining st) 0) (Milliseconds (ss_ResetIn st)) (ss_Window st).

(** The answer to an outcome of [Check]. *)
Definition decision_answer (out : Outcome) : api_answer :=
  if oc_Allowed out
  then ApiDecision (mkCheckResponse true 0 (oc_Reservation out) (check_status <$> oc_Statuses out)) None
  else ApiDecision (mkCheckResponse false (Z.max (Milliseconds (oc_RetryAfter out)) 1) (oc_Reservation out)
                      (check_status <$> oc_Statuses out))
         (Some (Z.max (f64_to_int (f64_ceil (Duration_Seconds (oc_RetryAfter out)))) 1)).

Definition check_answer (c : checked) : api_answer :=
  match c with
  | CheckErr ErrUnavailable => ApiProblem 503 "ledger_unavailable"
  | CheckErr _ => ApiProblem 400 "rejected"
  | CheckCtx _ => ApiProblem 400 "rejected"
  | Checked out => decision_answer out
  end.

Definition settle_answer (e : option derror) : api_answer :=
  match e with
  | Some ErrBadReservation => ApiProblem 400 "bad_reservation"
  | Some _ => ApiProblem 503 "ledger_unavailable"
  | None => ApiNoContent
  end.

(** The bearer token of a request; [token] is the one configured, if any. *)
Definition api_authorized (token authorization : string) : bool :=
  (token =? "")%string
  || match CutPrefix authorization "Bearer " with Some got => (got =? token)%string | None => false end.

(** [HTTP]: what a request is handed to.  The multiplexer matches the segments
    of the escaped path, unescaped by [unescape], and redirects a path that is
    not clean. *)
Inductive api_route := RouteUnauthorized | RouteCheck | RouteSettle | RouteRedirect | RouteMethodNotAllowed | RouteNotFound.

Definition api_mux (unescape : string → string) (method path : string) : api_route :=
  let post route := if (method =? "POST")%string then route else RouteMethodNotAllowed in
  match GoLib.Split "/" path with
  | "" :: segments =>
      if negb (clean_segments segments) && negb (method =? "CONNECT")%string then RouteRedirect
      else match unescape <$> segments with
           | ["v1"; "check"] => post RouteCheck
           | ["v1"; "settle"] => post RouteSettle
           | _ => RouteNotFound
           end
  | _ => RouteNotFound
  end.

Definition HTTP (unescape : string → string) (token authorization method path : string) : api_route :=
  if api_authorized token authorization then api_mux unescape method path else RouteUnauthorized.

Section api.
Context (sha16 : string → string) (cfg : GatewayConfig) (json : reservation → string)
  (b64 : string → string) (hmac : string → string → string) (Secret : string).
Context {S : Type} `{!Limiter S}.

(** [httpCheck]; [None] when the ticks run out. *)
Definition httpCheck (s : S) (start : Z) (ticks : list tick) (body : option checkRequest) : option api_answer * S :=
  match body with
  | None => (Some (ApiProblem 400 "bad_request"), s)
  | Some req =>
      if (kr_Domain req =? "")%string || bool_decide (kr_Descriptors req = [])
      then (Some (ApiProblem 400 "bad_request"), s)
      else
        let '(out, s) := Check sha16 cfg json b64 hmac Secret s start ticks (kr_Domain req) (kr_Descriptors req)
                           (wait_of (kr_MaxWaitMs req)) (kr_Reserve req) in
        (check_answer <$> out, s)
  end.

(** [httpSettle], whose settlement reaches the hub. *)
Definition httpSettle (unjson : string → option reservation) (unb64 : string → option string) (EdgeID : string)
  (sha256_uint64 : string → Z) (sha256_hex8 : string → string) (validKey : string → bool) (tierStore : TierStore)
  (hub : QuotaLeaseServer) (now nowMs : Z) (cn : option string) (body : option (string * Z)) : api_answer * QuotaLeaseServer :=
  match body with
  | None => (ApiProblem 400 "bad_request", hub)
  | Some (reservation, actual) =>
      if (reservation =? "")%string then (ApiProblem 400 "bad_request", hub)
      else
        let '(e, hub) := Settle_token cfg unjson unb64 hmac Secret EdgeID sha256_uint64 sha256_hex8 validKey tierStore
                           hub now nowMs cn reservation actual in
        (settle_answer e, hub)
  end.

Lemma wait_of_cap ms : wait_of ms ≤ maxWaitCap.
Proof. unfold wait_of. lia. Qed.

(** Up to the largest number of milliseconds a duration holds, a request
    waits as long as it asks, up to the cap. *)
Lemma wait_of_exact ms : ms ≤ 9223372036854 → wait_of ms = Z.min (Z.max ms 0 * Millisecond) maxWaitCap.
Proof.
  intros H. unfold wait_of, i64_mul. rewrite wrap64_small; [done|]. unfold is_int64, int64_min, int64_max, Millisecond. lia.
Qed.

(** Above it the product wraps: a request that asks for more may not wait at
    all. *)
Lemma wait_of_wraps : wait_of 9223372036855 < 0.
Proof. vm_compute. reflexivity. Qed.

(** What an answer reports. *)
Definition reports (r : checked) (a : api_answer) : Prop :=
  match r with
  | Checked out =>
      ∃ resp retry, a = ApiDecision resp retry ∧ kp_Allowed resp = oc_Allowed out ∧ kp_Reservation resp = oc_Reservation out
        ∧ length (kp_Statuses resp) = length (oc_Statuses out)
        ∧ Forall2 (λ st k, ks_Allowed k = ss_Allowed st ∧ ks_Matched k = ss_Matched st ∧ 0 ≤ ks_Remaining k) (oc_Statuses out) (kp_Statuses resp)
        ∧ if oc_Allowed out then retry = None else ∃ sec, retry = Some sec ∧ 1 ≤ sec ∧ 1 ≤ kp_RetryAfterMs resp
  | CheckErr ErrUnavailable => a = ApiProblem 503 "ledger_unavailable"
  | _ => a = ApiProblem 400 "rejected"
  end.

Lemma check_answer_reports r : reports r (check_answer r).
Proof.
  destruct r as [out|[]|out]; try done. cbn. unfold decision_answer.
  assert (Hs : Forall2 (λ st k, ks_Allowed k = ss_Allowed st ∧ ks_Matched k = ss_Matched st ∧ 0 ≤ ks_Remaining k)
                 (oc_Statuses out) (check_status <$> oc_Statuses out)).
  { apply Forall2_fmap_r, Forall_Forall2_diag, Forall_forall. intros st _. cbn. split_and!; [done|done|lia]. }
  destruct (oc_Allowed out); eexists _, _; (split; [reflexivity|]); cbn; rewrite length_fmap; split_and!; try done.
  eexists. split; [done|]. split; lia.
Qed.

(** Every well-formed check is answered, after at most three thousand and one
    attempts whatever wait it asks for, with the outcome of [Check]. *)
Theorem http_check_answers (s : S) start ticks req :
  kr_Domain req ≠ "" → kr_Descriptors req ≠ [] → spaced start ticks → 3001 ≤ Z.of_nat (length ticks) →
  ∃ r a s', Check sha16 cfg json b64 hmac Secret s start ticks (kr_Domain req) (kr_Descriptors req)
              (wait_of (kr_MaxWaitMs req)) (kr_Reserve req) = (Some r, s')
    ∧ httpCheck s start ticks (Some req) = (Some a, s') ∧ reports r a.
Proof.
  intros Hd Hds Hsp Hlen. unfold httpCheck. apply String.eqb_neq in Hd as ->. rewrite bool_decide_false by done. cbn [orb].
  set (w := wait_of (kr_MaxWaitMs req)). pose proof (wait_of_cap (kr_MaxWaitMs req)) as Hcap. fold w in Hcap.
  assert (H : ∃ r s', Check sha16 cfg json b64 hmac Secret s start ticks (kr_Domain req) (kr_Descriptors req) w (kr_Reserve req) = (Some r, s')).
  { destruct (Z.le_gt_cases w 0) as [Hw|Hw].
    - destruct ticks as [|tk ticks]; [cbn in Hlen; lia|]. unfold Check. cbn [Check_loop].
      destruct (check _ _ _ _ _ _ _ _ _ _ _ _) as [[out|e] s1]; [|by eexists _, _].
      destruct (Z.leb_spec w 0); [|lia]. rewrite orb_true_r. by eexists _, _.
    - destruct (Check_loop_returns sha16 cfg json b64 hmac Secret s ticks start (start + w) (kr_Domain req) (kr_Descriptors req) w (kr_Reserve req))
        as (r & s' & E & _); [done|lia| |by exists r, s'].
      replace (start + w - start) with w by lia. eapply Z.le_lt_trans; [apply Z.div_le_mono; [done|exact Hcap]|].
      change (maxWaitCap / minRetry) with 3000. lia. }
  destruct H as (r & s' & E). rewrite E. exists r, (check_answer r), s'. split_and!; [done|done|apply check_answer_reports].
Qed.
End api.

(** A request reaches a handler only as a POST, and with the token when one is
    configured. *)
Theorem http_guarded unescape token authorization method path :
  HTTP unescape token authorization method path = RouteCheck ∨ HTTP unescape token authorization method path = RouteSettle →
  method = "POST" ∧ (token = "" ∨ authorization = "Bearer " +:+ token).
Proof.
  unfold HTTP, api_mux. destruct (api_authorized token authorization) eqn:Ha; [|by intros [|]]. intros H. split.
  - destruct (String.eqb_spec method "POST"); [done|]. exfalso. repeat (case_match; try by destruct H).
  - unfold api_authorized in Ha. apply orb_true_iff in Ha as [->%String.eqb_eq|Ha]; [by left|right].
    destruct (CutPrefix authorization "Bearer ") as [got|] eqn:E; [|done].
    apply String.eqb_eq in Ha as ->. by apply CutPrefix_Some.
Qed.
