(* ===== verification/Upstream.v ===== *)
(** * Upstream replicas ([packages/edge/upstream.go], [proxy.go])

    The pool of a service's replicas with its circuit breaker, and the
    transport that tries replicas in turn.  A replica is its position in the
    pool.  The pool is shared by all requests of the service: [others (2 * i)] is
    what they do to it while attempt [i] of this request is under way,
    [others (2 * i + 1)] what they do while it backs off, and [answers i] is what
    the upstream made of that attempt.  Clock readings are in
    nanoseconds. *)

From S2P Require Import Prelude Float64 Policies Config GoLib.
From Stdlib Require Import Ascii.

Local Open Scope Z_scope.

(** ** The pool *)

Record target (U : Type) := mkTarget {
  tg_url : U;
  tg_inflight : Z;
  tg_failures : Z;
  tg_openUntil : Z;
}.
Arguments mkTarget {U}.
Arguments tg_url {U}.
Arguments tg_inflight {U}.
Arguments tg_failures {U}.
Arguments tg_openUntil {U}.

Record pool (U : Type) := mkPool {
  pl_service : string;
  pl_upstreams : list string;
  pl_balance : string;
  pl_breaker : option CircuitBreakerConfig;
  pl_targets : list (target U);
  pl_next : Z; (* uint64 *)
}.
Arguments mkPool {U}.
Arguments pl_service {U}.
Arguments pl_upstreams {U}.
Arguments pl_balance {U}.
Arguments pl_breaker {U}.
Arguments pl_targets {U}.
Arguments pl_next {U}.

#[export] Instance CircuitBreakerConfig_eq_dec : EqDecision CircuitBreakerConfig.
Proof. solve_decision. Defined.

Definition sameBreaker (a b : option CircuitBreakerConfig) : bool := bool_decide (a = b).

Section upstream.
Context {U : Type}.
(** [url.Parse] and the host of the result. *)
Variable url_Parse : string → option U.
Variable url_Host : U → string.

Fixpoint parse_targets (raws : list string) : option (list (target U)) :=
  match raws with
  | [] => Some []
  | raw :: raws =>
      match url_Parse raw with
      | Some u => if (url_Host u =? "")%string then None
                  else ts ← parse_targets raws; Some (mkTarget u 0 0 0 :: ts)
      | None => None
      end
  end.

(** The pool of a service, made anew when its configuration changed: the pool
    and the map of pools, or nothing when a URL is invalid. *)
Definition poolFor (pools : gmap string (pool U)) (label : string) (svc : ServiceConfig)
  : option (pool U * gmap string (pool U)) :=
  let make :=
    ts ← parse_targets (ServiceConfig_Targets svc);
    let p := mkPool label (ServiceConfig_Targets svc) (sv_LoadBalancing svc) (sv_CircuitBreaker svc) ts 0 in
    Some (p, <[label := p]> pools) in
  match pools !! label with
  | Some p =>
      if bool_decide (pl_upstreams p = ServiceConfig_Targets svc)
         && (pl_balance p =? sv_LoadBalancing svc)%string
         && sameBreaker (pl_breaker p) (sv_CircuitBreaker svc)
      then Some (p, pools) else make
  | None => make
  end.

(** The loop of [pick] over the positions still to look at. *)
Fixpoint pick_loop (p : pool U) (now : Z) (avoid : option nat) (order : list nat) (best : option nat)
  : option nat :=
  match order with
  | [] => best
  | i :: order =>
      match pl_targets p !! i with
      | None => best (* unreachable: positions are in range *)
      | Some t =>
          if (now <? tg_openUntil t)
             || (bool_decide (avoid = Some i) && (1 <? Z.of_nat (length (pl_targets p))))
          then pick_loop p now avoid order best
          else if negb (pl_balance p =? "least_requests")%string then Some i
          else
            let best :=
              match best with
              | None => Some i
              | Some b =>
                  match pl_targets p !! b with
                  | Some tb => if tg_inflight t <? tg_inflight tb then Some i else best
                  | None => best
                  end
              end in
            pick_loop p now avoid order best
      end
  end.

(** The order the loop looks in: every position once, from [start] on. *)
Definition pick_order (n start : nat) : list nat := (λ i, (start + i) `mod` n)%nat <$> seq 0 n.

Definition open_at (p : pool U) (i : nat) (now : Z) : bool :=
  match pl_targets p !! i with Some t => now <? tg_openUntil t | None => true end.

Definition pick (p : pool U) (now : Z) (avoid : option nat) : option nat * pool U :=
  let next := (pl_next p + 1) `mod` 2 ^ 64 in
  let p := mkPool (pl_service p) (pl_upstreams p) (pl_balance p) (pl_breaker p) (pl_targets p) next in
  let n := length (pl_targets p) in
  let start := Z.to_nat (next `mod` Z.of_nat n) in
  let best := pick_loop p now avoid (pick_order n start) None in
  match best, avoid with
  | None, Some a => if negb (open_at p a now) then (Some a, p) else (None, p)
  | _, _ => (best, p)
  end.

Definition set_target (p : pool U) (i : nat) (f : target U → target U) : pool U :=
  mkPool (pl_service p) (pl_upstreams p) (pl_balance p) (pl_breaker p)
    (alter f i (pl_targets p)) (pl_next p).

Definition add_inflight (n : Z) (t : target U) : target U :=
  mkTarget (tg_url t) (tg_inflight t + n)%i64 (tg_failures t) (tg_openUntil t).

(** [report], at the time [now]. *)
Definition report (p : pool U) (i : nat) (ok : bool) (now : Z) : pool U :=
  match pl_breaker p with
  | None => p
  | Some b =>
      set_target p i (λ t,
        if ok then mkTarget (tg_url t) (tg_inflight t) 0 (tg_openUntil t)
        else
          let failures := (tg_failures t + 1)%i64 in
          mkTarget (tg_url t) (tg_inflight t) failures
            (if cb_Failures b <=? failures then (now + cb_Cooldown b)%i64 else tg_openUntil t))
  end.

(** ** The transport ([proxy.go]) *)

Definition retryStatus (code : Z) (p : UpstreamFailurePolicy) : bool :=
  bool_decide (code ∈ uf_RetryOnStatuses p).

Definition retryable (method : string) (p : UpstreamFailurePolicy) : bool :=
  bool_decide (method ∈ ["GET"; "HEAD"; "OPTIONS"; "PUT"; "DELETE"]) || uf_RetryNonIdempotentMethods p.

Inductive aerror :=
| AttemptFailed (e : string)
| BodyTooLarge (limit : Z)       (* http.MaxBytesError *)
| DeadlineExceeded.

Inductive uerror :=
| ErrCircuitOpen
| ErrBody (e : string)           (* the body could not be opened again *)
| ErrAttempt (e : aerror)        (* the attempt failed *)
| ErrRetryableStatus (code : Z)  (* the last response's status is a failure *)
| ErrCanceled.                   (* the request's context ended *)

(** What becomes of attempt [i]: whether its body could be opened, the answer,
    and whether the caller waited for the back-off after it. *)
Record attempt := mkAttempt {
  at_body : option string;         (* an error of GetBody *)
  at_answer : result aerror Z;     (* an error, or the status code *)
  at_pick : Z;                     (* the time the replica was picked *)
  at_done : Z;                     (* the time the answer came *)
  at_slept : bool;
}.

Definition StatusSwitchingProtocols : Z := 101.

(** [RoundTrip], from attempt [i] on with [more] further attempts allowed: the
    replicas tried, the status or error, the replica that stays busy until the
    response's body is closed, and the pool. *)
Section round_trip.
Variable policy : UpstreamFailurePolicy.
Variable answers : nat → attempt.
Variable others : nat → pool U → pool U.

Fixpoint attempts_from (p : pool U) (i : nat) (target : nat) (more : nat)
  : list nat * result uerror Z * option nat * pool U :=
  let a := answers i in
  match (if (i =? 0)%nat then None else at_body a) with
  | Some e => ([], Err (ErrBody e), None, p)
  | None =>
      let p := set_target p target (add_inflight 1) in
      let p := others (2 * i) p in
      let ok := match at_answer a with Ok code => code <? 500 | Err _ => false end in
      let p := report p target ok (at_done a) in
      let done_ p := set_target p target (add_inflight (-1)) in
      let again e :=
        let p := done_ p in
        match more with
        | O => ([target], Err e, None, p)
        | S more =>
            if at_slept a then
              let p := others (2 * i + 1) p in
              let '(t, p) := pick p (at_pick (answers (S i))) (Some target) in
              match t with
              | None => ([target], Err ErrCircuitOpen, None, p)
              | Some t => let '(tr, r, o, p) := attempts_from p (S i) t more in (target :: tr, r, o, p)
              end
            else ([target], Err ErrCanceled, None, p)
        end in
      match at_answer a with
      | Err e => again (ErrAttempt e)
      | Ok code =>
          if retryStatus code policy then again (ErrRetryableStatus code)
          else if code =? StatusSwitchingProtocols then ([target], Ok code, None, done_ p)
          else ([target], Ok code, Some target, p)
      end
  end.

Definition RoundTrip (p : pool U) (method : string) (replayable : bool) (target : nat) :=
  let more := if retryable method policy && replayable then Z.to_nat (uf_MaxRetries policy) else O in
  attempts_from p 0 target more.
End round_trip.

(** [onClose.Close]: the replica is free again, once. *)
Definition onClose_Close (p : pool U) (busy : option nat) : option nat * pool U :=
  match busy with
  | Some i => (None, set_target p i (add_inflight (-1)))
  | None => (None, p)
  end.

(** [upstreamPath] drops the [/group/service] prefix. *)
Definition upstreamPath (path : string) (strip : bool) : string :=
  if negb strip then path
  else match SplitN "/" 3 (TrimPrefix path "/") with
       | [_; _; rest] => "/" +:+ rest
       | _ => "/"
       end.
End upstream.

(** ** Picking a replica *)

Section picking.
Context {U : Type}.
Implicit Types p : pool U.

(** A position the loop may choose. *)
Definition usable p (now : Z) (avoid : option nat) (i : nat) : bool :=
  negb (open_at p i now) && negb (bool_decide (avoid = Some i) && (1 <? Z.of_nat (length (pl_targets p)))).

Definition busier p (i j : nat) : Prop :=
  ∀ t t', pl_targets p !! i = Some t → pl_targets p !! j = Some t' → tg_inflight t ≤ tg_inflight t'.

(** What the loop has found: a usable position, the least busy one seen where
    that is asked for; or none, and then none was usable. *)
Definition found p now avoid (seen : list nat) (r : option nat) : Prop :=
  match r with
  | Some i => i ∈ seen ∧ usable p now avoid i = true ∧
      (pl_balance p = "least_requests" → ∀ j, j ∈ seen → usable p now avoid j = true → busier p i j)
  | None => ∀ j, j ∈ seen → usable p now avoid j = false
  end.

Lemma pick_loop_found p now avoid order seen best :
  (∀ i, i ∈ seen ++ order → (i < length (pl_targets p))%nat) →
  (pl_balance p ≠ "least_requests" → best = None) →
  found p now avoid seen best → found p now avoid (seen ++ order) (pick_loop p now avoid order best).
Proof.
  revert seen best. induction order as [|i order IH]; intros seen best Hr Hb Hf.
  { by rewrite app_nil_r. }
  cbn [pick_loop]. assert (Hi : (i < length (pl_targets p))%nat) by (apply Hr; set_solver).
  apply lookup_lt_is_Some in Hi as [t Ht]. rewrite Ht.
  assert (Hu : usable p now avoid i = negb ((now <? tg_openUntil t)
    || bool_decide (avoid = Some i) && (1 <? Z.of_nat (length (pl_targets p))))).
  { unfold usable, open_at. rewrite Ht. by rewrite negb_orb. }
  rewrite (cons_middle i seen), app_assoc. rewrite (cons_middle i seen), app_assoc in Hr.
  destruct ((now <? tg_openUntil t) || _) eqn:Eskip.
  { apply IH; [done|done|]. destruct best as [b|]; cbn in *.
    - destruct Hf as (H1 & H2 & H3). split; [set_solver|]. split; [done|].
      intros Hl j [Hj| ->%list_elem_of_singleton]%elem_of_app Hj'; [by apply H3|congruence].
    - intros j [Hj| ->%list_elem_of_singleton]%elem_of_app; [by apply Hf|done]. }
  destruct (String.eqb_spec (pl_balance p) "least_requests") as [Hl|Hl]; cbn [negb].
  - apply IH; [done|done|]. destruct best as [b|]; cbn in Hf.
    + destruct Hf as (H1 & H2 & H3). destruct (pl_targets p !! b) as [tb|] eqn:Eb.
      * destruct (tg_inflight t <? tg_inflight tb) eqn:Elt; cbn [found].
        -- split; [set_solver|]. split; [done|].
           intros _ j [Hj| ->%list_elem_of_singleton]%elem_of_app Hj' t1 t2 Ht1 Ht2.
           ++ specialize (H3 Hl j Hj Hj' tb t2 Eb Ht2). assert (t1 = t) by congruence. subst. lia.
           ++ rewrite Ht1 in Ht2. by injection Ht2 as ->.
        -- split; [set_solver|]. split; [done|].
           intros _ j [Hj| ->%list_elem_of_singleton]%elem_of_app Hj' t1 t2 Ht1 Ht2; [by eapply H3|].
           assert (t1 = tb ∧ t2 = t) as [-> ->] by (split; congruence). lia.
      * unfold usable, open_at in H2. by rewrite Eb in H2.
    + split; [set_solver|]. split; [done|].
      intros _ j [Hj| ->%list_elem_of_singleton]%elem_of_app Hj' t1 t2 Ht1 Ht2; [by rewrite Hf in Hj'|].
      rewrite Ht1 in Ht2. by injection Ht2 as ->.
  - cbn. split; [set_solver|]. split; [done|]. done.
Qed.

Lemma pick_order_elem n start i : (0 < n)%nat → i ∈ pick_order n start ↔ (i < n)%nat.
Proof.
  intros Hn. unfold pick_order. rewrite list_elem_of_fmap. split.
  - intros (j & -> & _). apply Nat.mod_upper_bound. lia.
  - intros Hi. exists ((i + n - start `mod` n) `mod` n)%nat. split.
    + rewrite Nat.Div0.add_mod_idemp_r, <-Nat.Div0.add_mod_idemp_l.
      replace (start `mod` n + (i + n - start `mod` n))%nat with (i + 1 * n)%nat
        by (pose proof (Nat.mod_upper_bound start n); lia).
      by rewrite Nat.Div0.mod_add, Nat.mod_small by lia.
    + apply elem_of_seq. pose proof (Nat.mod_upper_bound (i + n - start `mod` n) n). lia.
Qed.

Lemma usable_false p now avoid i :
  usable p now avoid i = false →
  open_at p i now = true ∨ (avoid = Some i ∧ 1 < Z.of_nat (length (pl_targets p))).
Proof.
  unfold usable. destruct (open_at p i now); [by left|]. cbn. case_bool_decide; [|done]. cbn.
  destruct (Z.ltb_spec 1 (Z.of_nat (length (pl_targets p)))); [by right|done].
Qed.

(** While nothing is ejected, the position whose turn it is. *)
Lemma pick_loop_turn p now start :
  pl_balance p ≠ "least_requests" → (start < length (pl_targets p))%nat →
  (∀ j, (j < length (pl_targets p))%nat → open_at p j now = false) →
  pick_loop p now None (pick_order (length (pl_targets p)) start) None = Some start.
Proof.
  intros Hl Hs Hall. specialize (Hall start Hs). unfold open_at in Hall. unfold pick_order.
  destruct (length (pl_targets p)) as [|n']; [lia|]. cbn [seq fmap list_fmap pick_loop].
  rewrite Nat.add_0_r, Nat.mod_small by done. destruct (pl_targets p !! start) as [t|]; [|done].
  rewrite Hall, bool_decide_eq_false_2 by done. by rewrite (proj2 (String.eqb_neq _ _) Hl).
Qed.

(** which replica a request goes to.  The replica picked is in the pool and
    not ejected; it is the one to avoid only when every other one is ejected;
    with least-requests balancing no other candidate has fewer requests in
    flight, and otherwise, while nothing is ejected, replicas take turns; and
    none is picked only when all are ejected.  Picking changes nothing but the
    turn. *)
Theorem pick_correct p (now : Z) (avoid : option nat) :
  pl_targets p ≠ [] →
  let '(r, p') := pick p now avoid in
  match r with
  | Some i =>
      (i < length (pl_targets p))%nat ∧ open_at p i now = false ∧
      (avoid = Some i → ∀ j, (j < length (pl_targets p))%nat → j ≠ i → open_at p j now = true) ∧
      (pl_balance p = "least_requests" → avoid ≠ Some i →
         ∀ j, open_at p j now = false → avoid ≠ Some j → busier p i j) ∧
      (pl_balance p ≠ "least_requests" → avoid = None → (∀ j, (j < length (pl_targets p))%nat → open_at p j now = false) →
         i = Z.to_nat (((pl_next p + 1) `mod` 2 ^ 64) `mod` Z.of_nat (length (pl_targets p))))
  | None => ∀ j, (j < length (pl_targets p))%nat → open_at p j now = true
  end ∧
  pl_targets p' = pl_targets p ∧ pl_next p' = (pl_next p + 1) `mod` 2 ^ 64.
Proof.
  intros Hne. unfold pick. cbn zeta.
  set (next := (pl_next p + 1) `mod` 2 ^ 64).
  set (p1 := mkPool _ _ _ _ _ next). change (pl_targets p1) with (pl_targets p).
  set (n := length (pl_targets p)). set (start := Z.to_nat (next `mod` Z.of_nat n)).
  assert (Hn : (0 < n)%nat) by (unfold n; destruct (pl_targets p); cbn; [done|lia]).
  pose proof (pick_loop_found p1 now avoid (pick_order n start) [] None) as Hf.
  specialize (Hf (λ i Hi, proj1 (pick_order_elem n start i Hn) Hi) (λ _, eq_refl)).
  specialize (Hf ltac:(by intros j Hj%elem_of_nil)). cbn [app] in Hf.
  destruct (pick_loop p1 now avoid (pick_order n start) None) as [i|] eqn:Er; cbn [found] in Hf.
  - destruct Hf as (Hin & Hu & Hbusy). rewrite pick_order_elem in Hin by done.
    cbn beta iota. split; [|done]. unfold usable in Hu. apply andb_prop in Hu as [Ho Ha].
    apply negb_true_iff in Ho. split; [done|]. split; [done|]. split; [|split].
    + intros -> j Hj Hij. rewrite bool_decide_eq_true_2 in Ha by done. cbn in Ha.
      change (pl_targets p1) with (pl_targets p) in Ha. fold n in Ha.
      destruct (Z.ltb_spec 1 (Z.of_nat n)); [done|]. lia.
    + intros Hl Hav j Hj Hja. apply Hbusy; [done| |].
      * apply pick_order_elem; [done|]. unfold open_at in Hj. unfold n. apply lookup_lt_is_Some. by destruct (_ !! j).
      * unfold usable. rewrite bool_decide_eq_false_2 by done. by rewrite andb_true_r, negb_true_iff.
    + intros Hl -> Hall. pose proof (pick_loop_turn p1 now start Hl) as Ht. change (pl_targets p1) with (pl_targets p) in Ht.
      fold n in Ht. rewrite Ht in Er; [congruence| |done].
      unfold start. pose proof (Z.mod_pos_bound next (Z.of_nat n)). lia.
  - assert (Hall : ∀ j, (j < n)%nat → open_at p j now = true ∨ (avoid = Some j ∧ 1 < Z.of_nat n)).
    { intros j Hj. apply usable_false. apply Hf. by apply pick_order_elem. }
    destruct avoid as [a|].
    + destruct (open_at p1 a now) eqn:Ea; cbn [negb].
      * split; [|done]. intros j Hj. destruct (Hall j Hj) as [?|[[= ->] _]]; done.
      * split; [|done]. assert (Han : (a < n)%nat).
        { unfold open_at in Ea. unfold n. apply lookup_lt_is_Some. change (pl_targets p1) with (pl_targets p) in Ea.
          by destruct (_ !! a). }
        split; [done|]. split; [done|]. split; [|split; [done|done]].
        intros _ j Hj Hja. destruct (Hall j Hj) as [?|[[= ->] _]]; done.
    + split; [|done]. intros j Hj. by destruct (Hall j Hj) as [?|[? _]].
Qed.
End picking.

(** ** Trying replicas in turn *)

Section transport.
Context {U : Type}.
Implicit Types p : pool U.

(** The requests in flight at each replica. *)
Definition loads p : list Z := tg_inflight <$> pl_targets p.

Lemma loads_pick p now avoid : loads (pick p now avoid).2 = loads p.
Proof. unfold pick. cbn zeta. case_match; [done|]. destruct avoid; [case_match|]; done. Qed.

Lemma loads_report p i ok now : loads (report p i ok now) = loads p.
Proof.
  unfold report, loads. destruct (pl_breaker p) as [b|]; [|done]. cbn [set_target pl_targets].
  apply list_eq. intros j. rewrite !list_lookup_fmap. destruct (decide (i = j)) as [->|Hne].
  - rewrite list_lookup_alter_eq. destruct (pl_targets p !! j); [|done]. cbn. by destruct ok.
  - by rewrite list_lookup_alter_ne.
Qed.

Lemma loads_add p i n : loads (set_target p i (add_inflight n)) = alter (λ x, (x + n)%i64) i (loads p).
Proof.
  unfold loads. cbn [set_target pl_targets]. apply list_eq. intros j.
  rewrite list_lookup_fmap. destruct (decide (i = j)) as [->|Hne].
  - rewrite !list_lookup_alter_eq, list_lookup_fmap. by destruct (pl_targets p !! j).
  - by rewrite !list_lookup_alter_ne, list_lookup_fmap.
Qed.

(** A request more and a request less. *)
Lemma alter_add_sub (l : list Z) i : Forall is_int64 l →
  alter (λ x, (x + -1)%i64) i (alter (λ x, (x + 1)%i64) i l) = l.
Proof.
  intros Hl. apply list_eq. intros j. destruct (decide (i = j)) as [->|Hne].
  - rewrite !list_lookup_alter_eq. destruct (l !! j) as [x|] eqn:E; [|done]. cbn. f_equal.
    pose proof (proj1 (Forall_lookup _ _) Hl j x E) as Hx. unfold i64_add, wrap64.
    revert Hx. unfold is_int64, int64_min, int64_max. intros Hx.
    replace ((x + 1 + 2 ^ 63) `mod` 2 ^ 64 - 2 ^ 63 + -1 + 2 ^ 63)
      with ((x + 1 + 2 ^ 63) `mod` 2 ^ 64 + -1) by lia.
    rewrite Z.add_mod_idemp_l by lia. rewrite Z.mod_small; lia.
  - by rewrite !list_lookup_alter_ne.
Qed.

Section attempts.
Variable policy : UpstreamFailurePolicy.
Variable answers : nat → attempt.
Variable others : nat → pool U → pool U.
(** Other requests leave a replica's load as they found it. *)
Hypothesis others_loads : ∀ k p, loads (others k p) = loads p.

Lemma attempts_from_ok p i target more :
  Forall is_int64 (loads p) →
  let '(tr, r, busy, p') := attempts_from policy answers others p i target more in
  (length tr ≤ S more)%nat ∧
  match r with
  | Ok code =>
      retryStatus code policy = false ∧ at_answer (answers (i + length tr - 1)) = Ok code ∧
      busy = (if code =? StatusSwitchingProtocols then None else last tr) ∧ tr ≠ []
  | Err _ => busy = None
  end ∧
  loads p' = match busy with Some j => alter (λ x, (x + 1)%i64) j (loads p) | None => loads p end.
Proof using others_loads.
  revert p i target. induction more as [|more IH]; intros p i target Hl; cbn [attempts_from].
  all: destruct (if (i =? 0)%nat then None else at_body (answers i)); [cbn; split; [lia|done]|].
  all: set (p1 := report _ target _ _).
  all: assert (Hp1 : loads p1 = alter (λ x, (x + 1)%i64) target (loads p))
    by (unfold p1; by rewrite loads_report, others_loads, loads_add).
  all: assert (Hdone : loads (set_target p1 target (add_inflight (-1))) = loads p)
    by (by rewrite loads_add, Hp1, alter_add_sub).
  all: destruct (at_answer (answers i)) as [code|e] eqn:Ea; [destruct (retryStatus code policy) eqn:Es|].
  (* a final answer *)
  all: try (destruct (Z.eqb_spec code StatusSwitchingProtocols) as [->|Hsw]; cbn [length last];
    (split; [lia|]; split; [|done]; split; [done|]; split; [by rewrite Nat.add_sub|]; split; [|done]);
    [done|by rewrite (proj2 (Z.eqb_neq _ _) Hsw)]).
  (* the last attempt failed *)
  1,2: by (split; [cbn; lia|]).
  (* another attempt *)
  all: destruct (at_slept (answers i)); [|by (split; [cbn; lia|])].
  all: destruct (pick _ _ _) as [[t|] p2] eqn:Ep;
    [|split; [cbn; lia|]; split; [done|];
      pose proof (loads_pick (others (2 * i + 1) (set_target p1 target (add_inflight (-1)))) (at_pick (answers (S i))) (Some target)) as Hk;
      rewrite Ep in Hk; cbn [snd] in Hk; by rewrite Hk, others_loads].
  all: pose proof (loads_pick (others (2 * i + 1) (set_target p1 target (add_inflight (-1)))) (at_pick (answers (S i))) (Some target)) as Hk;
    rewrite Ep in Hk; cbn [snd] in Hk; rewrite others_loads, Hdone in Hk.
  all: specialize (IH p2 (S i) t); rewrite Hk in IH; specialize (IH Hl).
  all: destruct (attempts_from _ _ _ p2 (S i) t more) as [[[tr r] busy] p3]; destruct IH as (H1 & H2 & H3).
  all: split; [cbn; lia|]; split; [|done]; destruct r as [code'|]; [|done].
  all: destruct H2 as (Hr & Ha & Hb & Hne); split; [done|]; split;
    [rewrite <-Ha; destruct tr; [done|]; cbn; do 2 f_equal; lia|]; split; [|done];
    rewrite Hb; by destruct tr.
Qed.

End attempts.

(** Failures in a row, reported at [times]: the replica is ejected from the
    report that makes them [cb_Failures], for the cool-down; a success starts
    the count again. *)
Lemma failures_eject p b i t times :
  pl_breaker p = Some b → pl_targets p !! i = Some t → tg_failures t = 0 →
  1 ≤ cb_Failures b → Z.of_nat (length times) ≤ int64_max →
  ∃ t', pl_targets (foldl (λ p now, report p i false now) p times) !! i = Some t' ∧
    tg_failures t' = Z.of_nat (length times) ∧
    tg_openUntil t' = match last times with
                      | Some now => if cb_Failures b <=? Z.of_nat (length times)
                                    then (now + cb_Cooldown b)%i64 else tg_openUntil t
                      | None => tg_openUntil t
                      end.
Proof.
  intros Hb Ht H0 Hpos. induction times as [|now times IH] using rev_ind; intros Hlen; [by exists t|].
  rewrite length_app in *. cbn [length] in *. destruct IH as (t' & Ht' & Hf & Ho); [lia|].
  rewrite foldl_app, last_snoc. cbn [foldl].
  set (q := foldl _ p times) in *.
  assert (Hq : pl_breaker q = Some b).
  { unfold q. clear -Hb. revert p Hb. induction times as [|n times IH]; intros p Hb; [done|]. cbn. apply IH.
    unfold report. by rewrite Hb. }
  unfold report. rewrite Hq. cbn [set_target pl_targets]. rewrite list_lookup_alter_eq, Ht'.
  eexists. split; [done|]. cbn [tg_failures tg_openUntil]. rewrite Hf.
  assert (E : (Z.of_nat (length times) + 1)%i64 = Z.of_nat (length times + 1)) by (rewrite Nat2Z.inj_add; i64_simp; done).
  rewrite E. split; [done|]. destruct (cb_Failures b <=? Z.of_nat (length times + 1)) eqn:Ec; [done|].
  apply Z.leb_gt in Ec. rewrite Ho. destruct (last times); [|done]. destruct (Z.leb_spec (cb_Failures b) (Z.of_nat (length times))); [lia|done].
Qed.
End transport.

(** ** Examples *)

Module Example_pool.
Definition tgt (load until : Z) : target string := mkTarget "http://up" load 0 until.
(** The second of three replicas is ejected until 50. *)
Definition p : pool string :=
  mkPool "v1/api" ["a"; "b"; "c"] "least_requests" (Some (mkBreaker 2 30)) [tgt 4 0; tgt 0 50; tgt 3 0] 7.
Definition policy : UpstreamFailurePolicy := mkUpstreamFailure "" 2 0 [503] false 0 0 "" ∅.
(** The first attempt is answered 503, the second 200. *)
Definition answers (i : nat) : attempt :=
  mkAttempt None (Ok (if (i =? 0)%nat then 503 else 200)) 10 20 true.
End Example_pool.

Lemma pick_correct_witness :
  (pick Example_pool.p 10 (Some 2%nat)).1 = Some 0%nat ∧
  open_at Example_pool.p 0 10 = false ∧
  (∀ j, open_at Example_pool.p j 10 = false → Some 2%nat ≠ Some j → busier Example_pool.p 0 j).
Proof.
  pose proof (pick_correct Example_pool.p 10 (Some 2%nat) ltac:(discriminate)) as H.
  change (pick Example_pool.p 10 (Some 2%nat)) with
    (Some 0%nat, mkPool "v1/api" ["a"; "b"; "c"] "least_requests" (Some (mkBreaker 2 30))
       (pl_targets Example_pool.p) 8) in *.
  split; [done|]. destruct H as [(_ & Ho & _ & Hb & _) _]. split; [exact Ho|].
  intros j. apply Hb; done.
Defined.

