(* ===== verification/Edge.v ===== *)
(** * An edge's requests: routing, CORS and authentication
    ([packages/edge/config.go], [route.go], [auth.go])

    Every proxied request runs through a chain of steps.  A step reads and fills
    the request's state, sets headers of the response to come, and either
    answers or calls the next step; the edge's shared state is threaded through
    the chain.  Parameters: the hash of keys, the key pattern, the verification
    of bearer tokens, and the hub's answers to tier lookups. *)

From S2P Require Import Prelude Float64 Policies Config GoLib TtlCache Tiers Limiter Upstream.
From Stdlib Require Import Ascii.

Local Open Scope Z_scope.

(** ** The edge's configuration ([config.go]) *)

Record configIndex := mkConfigIndex {
  ci_cfg : GatewayConfig;
  ci_prefixes : gmap string PrefixConfig;
  ci_services : gmap string ServiceConfig;
}.

Definition index_service (px : PrefixConfig) (m : gmap string ServiceConfig) (s : ServiceConfig) :=
  <[px_Prefix px +:+ String "000" (sv_ServiceID s) := s]> m.

Definition Apply (cfg : GatewayConfig) : configIndex :=
  mkConfigIndex cfg
    (foldl (λ m px, <[px_Prefix px := px]> m) ∅ (gc_Prefixes cfg))
    (foldl (λ m px, foldl (index_service px) m (px_Services px)) ∅ (gc_Prefixes cfg)).

Definition EdgePolicy (idx : configIndex) : EdgeRuntimePolicy := rp_Edge (gc_Runtime (ci_cfg idx)).

Definition GetPrefix (idx : configIndex) (prefix : string) : option PrefixConfig := ci_prefixes idx !! prefix.

Definition GetServiceConfig (idx : configIndex) (prefix service : string) : option ServiceConfig :=
  match ci_prefixes idx !! prefix with
  | None => None
  | Some _ => ci_services idx !! (prefix +:+ String "000" service)
  end.

(** [GetTier]: a tier of a service; the safety tier is none of them. *)
Definition edge_GetTier (svc : ServiceConfig) (tierID : string) : option TierConfig :=
  find (λ t, (t_TierID t =? tierID)%string) (sv_Tiers svc).

(** ** Requests and responses *)

Record http_request := mkHttpRequest {
  hq_Method : string;
  hq_Path : string;
  hq_Query : string; (* r.URL.Query().Encode() *)
  hq_Host : string;
  hq_RemoteAddr : string;
  hq_Header : Header;
}.

(** What a handler wrote; a status of 0 when it wrote nothing. *)
Record response := mkResponse {
  rs_Status : Z;
  rs_Header : Header;
  rs_Body : list string; (* the writes *)
}.

(** [WriteProblem], its body reduced to code and detail. *)
Definition WriteProblem (h : Header) (status : Z) (code detail : string) : response :=
  mkResponse status
    (header_del (header_set (header_set h "Content-Type" "application/problem+json")
       "X-Content-Type-Options" "nosniff") "Content-Length")
    [code; detail].

Record request := mkState {
  st_scope : string;
  st_service : string;
  st_svc : option ServiceConfig;
  st_prefix : option PrefixConfig;
  st_key : string;
  st_tier : option TierConfig;
  st_org : string;
  st_clientIP : string;
  st_upstreamFailed : bool;
  st_actual : Z;
}.

Definition new_request : request := mkState "" "" None None "" None "" "" false 0.

Definition label (st : request) : string :=
  match st_svc st with
  | None => "unrouted"
  | Some _ => st_scope st +:+ "/" +:+ st_service st
  end.

(** ** Routing ([route.go]) *)

Definition splitRoute (path : string) : string * string :=
  match SplitN "/" 3 (TrimPrefix path "/") with
  | a :: b :: _ => if (a =? "")%string || (b =? "")%string then ("", "") else (a, b)
  | _ => ("", "")
  end.

Definition hostOnly (host : string) : string :=
  match SplitHostPort host with Some (h, _) => h | None => host end.

Definition allowedOrigin (origin : string) (allowed : list string) : option string :=
  let origin := TrimSpace origin in
  if (origin =? "")%string then None
  else if existsb (λ a, (TrimSpace a =? "*")%string || (TrimSpace a =? origin)%string) allowed
  then Some origin else None.

Section steps.
(** The shared state of the edge, and the next step. *)
Context {W : Type}.
Definition step : Type := request → Header → W → response * request * W.
Variable r : http_request.

Definition route (idx : configIndex) (next : step) : step := λ st h w,
  let '(scope, service) := splitRoute (hq_Path r) in
  if (scope =? "")%string
  then (WriteProblem h 404 "no_route" "paths have the form /{group}/{service}/...", st, w)
  else
    match GetServiceConfig idx scope service with
    | None => (WriteProblem h 404 "no_route"
                 ("no service is configured at /" +:+ scope +:+ "/" +:+ service), st, w)
    | Some svc =>
        if negb (sv_Host svc =? "")%string && negb (hostOnly (hq_Host r) =? sv_Host svc)%string
        then (WriteProblem h 404 "no_route"
                ("no service is configured at /" +:+ scope +:+ "/" +:+ service +:+ " for this host"), st, w)
        else if negb (bool_decide (sv_Methods svc = [])) && negb (bool_decide (hq_Method r ∈ sv_Methods svc))
                && negb ((hq_Method r =? "OPTIONS")%string && bool_decide (is_Some (sv_CORS svc)))
        then (WriteProblem (header_set h "Allow" (Join (sv_Methods svc) ", ")) 405 "method_not_allowed" "", st, w)
        else
          next (mkState scope service (Some svc) (GetPrefix idx scope) (st_key st) (st_tier st) (st_org st)
                  (st_clientIP st) (st_upstreamFailed st) (st_actual st)) h w
    end.

(** Without a service (which routing has set) the step would stop the
    connection. *)
Definition aborted : response := mkResponse 0 ∅ [].

Definition cors (next : step) : step := λ st h w,
  match st_svc st with
  | None => (aborted, st, w)
  | Some svc =>
      match sv_CORS svc with
      | None => next st h w
      | Some c =>
          let h := match allowedOrigin (header_get (hq_Header r) "Origin") (co_AllowedOrigins c) with
                   | Some origin =>
                       header_set (header_set h "Access-Control-Allow-Origin" origin) "Vary" "Origin"
                   | None => h
                   end in
          if negb (hq_Method r =? "OPTIONS")%string then next st h w
          else
            let allowHeaders := or_list (co_AllowedHeaders c)
                                  (hr_CORSAllowedHeaders (rp_Hub DefaultRuntimePolicy)) in
            let h := header_set h "Access-Control-Allow-Methods" (Join (co_AllowedMethods c) ", ") in
            let h := header_set h "Access-Control-Allow-Headers" (Join allowHeaders ", ") in
            let h := header_set h "Access-Control-Max-Age"
                       (itoa (f64_to_int (Duration_Seconds (co_MaxAge c)))) in
            (mkResponse 204 h [], st, w)
      end
  end.
End steps.

(** ** The edge's shared state *)

Record edge (P F U : Type) := mkEdge {
  ed_config : configIndex;
  ed_tiers : TierCache;
  ed_limiter : P;            (* Limiter: leases, or the central counter *)
  ed_safety : F;             (* the per-edge safety limiter *)
  ed_inflight : Concurrency;
  ed_responses : option (ttlCache string);
  ed_pools : gmap string (pool U);
}.
Arguments mkEdge {P F U}.
Arguments ed_config {P F U}.
Arguments ed_tiers {P F U}.
Arguments ed_limiter {P F U}.
Arguments ed_safety {P F U}.
Arguments ed_inflight {P F U}.
Arguments ed_responses {P F U}.
Arguments ed_pools {P F U}.

(** ** Authentication ([auth.go]) *)

(** [defaultTier]: the service's default tier, or its only tier. *)
Definition defaultTier (svc : ServiceConfig) : string :=
  let t := hf_DefaultTier (fc_Hub (sv_Failure svc)) in
  if negb (t =? "")%string then t
  else match sv_Tiers svc with [t] => t_TierID t | _ => "" end.

Definition clientIP (r : http_request) : string :=
  match SplitHostPort (hq_RemoteAddr r) with Some (host, _) => host | None => hq_RemoteAddr r end.

Section authentication.
Context {P F U : Type}.
Variable range : gmap string (cacheEntry tierEntry) → list (string * cacheEntry tierEntry).
(** [keys.Hash], the key pattern, and the claims of a verified token that are
    strings. *)
Variable Hash : string → string.
Variable validKey : GatewayConfig → string → bool.
Variable jwt_verify : JWTConfig → string → option (gmap string string).
(** The hub's answer to a tier lookup, and the clock. *)
Variable lookup_tier : string → string → result string string.
Variable now : Z.

(** [TierCache.Get], not waiting for other requests' lookups. *)
Definition TierCache_Get (t : TierCache) (prefix apiKey : string) : result string string * TierCache :=
  match TierCache_hit t prefix apiKey now with
  | Some tier => (Ok tier, t)
  | None => TierCache_resolved range t prefix apiKey (ec_gen t) now (lookup_tier prefix apiKey)
  end.

Definition resolveTier (t : TierCache) (svc : ServiceConfig) (scope key : string)
  : result string string * TierCache :=
  let '(a, t) := TierCache_Get t scope key in
  match a with
  | Ok tier => (Ok tier, t)
  | Err e =>
      let p := EffectiveHubPolicy (sv_Failure svc) in
      let or_err tier := if (tier =? "")%string then Err e else Ok tier in
      if (hf_TierLookupStrategy p =? "default-tier")%string then (or_err (hf_DefaultTier p), t)
      else if (hf_TierLookupStrategy p =? "stale-or-default")%string then
        match TierCache_Stale t scope key (hf_StaleTierMaxAge p) now with
        | Some stale => (Ok stale, t)
        | None => (or_err (hf_DefaultTier p), t)
        end
      else (Err e, t)
  end.

(** A caller: identity, tier and organisation; or the response that refuses
    it. *)
Record identity := mkIdentity { id_key : string; id_tier : string; id_org : string }.

Definition apiKey (r : http_request) (st : request) (svc : ServiceConfig) (h : Header) (cfg : GatewayConfig)
  (t : TierCache) : (response + identity) * TierCache :=
  let key := header_get (hq_Header r) "X-API-Key" in
  if (key =? "")%string
  then (inl (WriteProblem h 401 "missing_api_key" "send your API key in the X-API-Key header"), t)
  else if negb (validKey cfg key) then (inl (WriteProblem h 401 "invalid_api_key" ""), t)
  else
    let id := Hash key in
    match resolveTier t svc (st_scope st) id with
    | (Err _, t) => (inl (WriteProblem h 503 "tier_lookup_failed"
                            "the key's tier could not be resolved; retry shortly"), t)
    | (Ok tier, t) =>
        if (tier =? "")%string then (inl (WriteProblem h 401 "invalid_api_key" ""), t)
        else (inr (mkIdentity id tier (st_org st)), t)
    end.

Definition claim (claims : gmap string string) (name : string) : string := default "" (claims !! name).

Definition bearerToken (r : http_request) (st : request) (svc : ServiceConfig) (h : Header)
  : response + identity :=
  match CutPrefix (header_get (hq_Header r) "Authorization") "Bearer " with
  | Some raw =>
      if (raw =? "")%string
      then inl (WriteProblem (header_set h "WWW-Authenticate" "Bearer") 401 "missing_token"
                  "send a bearer token in the Authorization header")
      else
        match au_JWT (sv_Auth svc) with
        | None => inl aborted (* excluded by validation: a service with jwt auth has a jwt block *)
        | Some cfg =>
            match jwt_verify cfg raw with
            | None =>
                inl (WriteProblem (header_set h "WWW-Authenticate"
                       ("Bearer error=" +:+ String "034" ("invalid_token" +:+ String "034" ""))) 401 "invalid_token"
                       "the bearer token could not be verified")
            | Some claims =>
                if (claim claims "sub" =? "")%string
                then inl (WriteProblem h 401 "invalid_token" "the token has no subject")
                else
                  let tier :=
                    if negb (jw_TierClaim cfg =? "")%string && negb (claim claims (jw_TierClaim cfg) =? "")%string
                    then claim claims (jw_TierClaim cfg) else defaultTier svc in
                  let org := match sv_Org svc with
                             | Some o => if negb (og_Claim o =? "")%string then claim claims (og_Claim o)
                                         else st_org st
                             | None => st_org st
                             end in
                  inr (mkIdentity (Hash ("jwt:" +:+ claim claims "iss" +:+ ":" +:+ claim claims "sub")) tier org)
            end
        end
  | None => inl (WriteProblem (header_set h "WWW-Authenticate" "Bearer") 401 "missing_token"
                   "send a bearer token in the Authorization header")
  end.

Definition identify (r : http_request) (st : request) (svc : ServiceConfig) (h : Header) (ip : string)
  (cfg : GatewayConfig) (t : TierCache) : (response + identity) * TierCache :=
  if (ServiceConfig_AuthType svc =? "jwt")%string then (bearerToken r st svc h, t)
  else if (ServiceConfig_AuthType svc =? "none")%string
  then (inr (mkIdentity (Hash ("ip:" +:+ ip)) (defaultTier svc) (st_org st)), t)
  else apiKey r st svc h cfg t.

Definition authenticate (r : http_request) (next : step) : step (W := edge P F U) := λ st h w,
  match st_svc st with
  | None => (aborted, st, w)
  | Some svc =>
      let ip := clientIP r in
      let '(a, t) := identify r st svc h ip (ci_cfg (ed_config w)) (ed_tiers w) in
      let w := mkEdge (ed_config w) t (ed_limiter w) (ed_safety w) (ed_inflight w) (ed_responses w) (ed_pools w) in
      let st := mkState (st_scope st) (st_service st) (st_svc st) (st_prefix st) (st_key st) (st_tier st)
                  (st_org st) ip (st_upstreamFailed st) (st_actual st) in
      match a with
      | inl resp => (resp, st, w)
      | inr id =>
          match edge_GetTier svc (id_tier id) with
          | None => (WriteProblem h 403 "tier_not_allowed" "the caller's tier has no access to this service", st, w)
          | Some tier =>
              next (mkState (st_scope st) (st_service st) (st_svc st) (st_prefix st) (id_key id) (Some tier)
                      (id_org id) ip (st_upstreamFailed st) (st_actual st)) h w
          end
      end
  end.
End authentication.
