(* ===== verification/EdgeLimits.v ===== *)
(** * Rate limiting at an edge ([packages/edge/ratelimit.go])

    The checks a request must pass, the safety limits used while the hub is
    unreachable, the step of the chain that reserves and settles, and the
    headers that report the decision.  The step is written against the limiter
    interface; telemetry and analytics are left out. *)

From S2P Require Import Prelude Float64 Policies Config GoLib TtlCache Tiers Limiter Upstream Edge Reserve.
From Stdlib Require Import Ascii.

Local Open Scope Z_scope.

Definition methodCost (method : string) (t : TierConfig) : Z :=
  if (method =? "GET")%string then t_GetCost t
  else if (method =? "POST")%string then t_PostCost t
  else if (method =? "PUT")%string then t_PutCost t
  else if (method =? "DELETE")%string then t_DeleteCost t
  else t_OtherCost t.

(** [estimate]: the client's estimate when it sends a positive one, else the
    configured one, else the method's cost. *)
Definition estimate (r : http_request) (c : CostPolicy) (methodCost : Z) : Z :=
  let configured := if 0 <? cp_Estimate c then cp_Estimate c else methodCost in
  if negb (cp_EstimateHeader c =? "")%string then
    match ParseInt (header_get (hq_Header r) (cp_EstimateHeader c)) with
    | Some v => if 0 <? v then v else configured
    | None => configured
    end
  else configured.

Definition parseCost (v : string) : option Z :=
  n ← ParseInt (TrimSpace v); if 0 <=? n then Some n else None.

Definition limitLabel (id : string) : string := if (id =? "")%string then "tier" else id.

Section checks.
Variable Hash : string → string.

(** The check of the caller's tier. *)
Definition base_check (r : http_request) (st : request) (svc : ServiceConfig) (tier : TierConfig)
  (policy : EdgeRuntimePolicy) : Request :=
  let cost := methodCost (hq_Method r) tier in
  let cost := match sv_Cost svc with Some c => estimate r c cost | None => cost end in
  let '(window, leaseSize) :=
    match st_prefix st with
    | Some p => (Z.max (px_QuotaPeriod p) Second,
                 lc_LeaseQuantum (LeasingConfig_Effective (px_Leasing p) policy (px_QuotaPeriod p)))
    | None => (0, 0)
    end in
  {| rq_Scope := st_scope st; rq_Service := st_service st; rq_LimitID := ""; rq_Key := st_key st;
     rq_Tier := t_TierID tier; rq_Org := st_org st; rq_Limit := t_Quota tier; rq_Cost := cost;
     rq_Window := window; rq_Algo := t_Algorithm tier; rq_LeaseSize := leaseSize;
     rq_Shadow := sv_Shadow svc;
     rq_MaxDebt := match sv_Cost svc with Some c => cp_MaxDebt c | None => 0 end |}.

(** The check of one more limit of the service. *)
Definition limit_check (st : request) (base : Request) (l : LimitSpec) : Request :=
  {| rq_Scope := rq_Scope base; rq_Service := rq_Service base; rq_LimitID := ls_ID l;
     rq_Key := if (ls_Per l =? PerClientIP)%string then Hash ("ip:" +:+ st_clientIP st)
               else if (ls_Per l =? PerService)%string then ServiceSubject
               else rq_Key base;
     rq_Tier := ""; rq_Org := ""; rq_Limit := ls_Quota l; rq_Cost := rq_Cost base;
     rq_Window := if 0 <? ls_Window l then ls_Window l else rq_Window base;
     rq_Algo := ls_Algorithm l; rq_LeaseSize := rq_LeaseSize base; rq_Shadow := ls_Shadow l;
     rq_MaxDebt := rq_MaxDebt base |}.

Definition checks (r : http_request) (st : request) (svc : ServiceConfig) (tier : TierConfig)
  (policy : EdgeRuntimePolicy) : list Request :=
  let base := base_check r st svc tier policy in
  base :: (limit_check st base <$> sv_Limits svc).

(** [safetyRule]: the substitute for a check, while the hub is unreachable. *)
Definition safetyRule (svc : ServiceConfig) (method : string) (req : Request) : option Request :=
  match sv_SafetyTier svc with
  | None => None
  | Some safety =>
      if negb (hf_AllowOnRateServiceError (EffectiveHubPolicy (sv_Failure svc))) then None
      else
        let tier := (rq_LimitID req =? "")%string in
        Some {| rq_Scope := rq_Scope req; rq_Service := rq_Service req; rq_LimitID := rq_LimitID req;
                rq_Key := rq_Key req; rq_Tier := rq_Tier req; rq_Org := rq_Org req;
                rq_Limit := if tier then t_Quota safety else rq_Limit req;
                rq_Cost := if tier then methodCost method safety else rq_Cost req;
                rq_Window := if rq_Window req <=? 0 then Second else rq_Window req;
                rq_Algo := ""; rq_LeaseSize := rq_LeaseSize req; rq_Shadow := rq_Shadow req;
                rq_MaxDebt := rq_MaxDebt req |}
  end.
End checks.

(** ** Reporting a decision *)

(** Seconds from [now] (in nanoseconds) until a time in milliseconds, rounded
    up. *)
Definition seconds_until (at_ now : Z) : Z :=
  f64_to_int (f64_ceil (Duration_Seconds (at_ * Millisecond - now)%i64)).

Definition writeRateLimitHeaders (h : Header) (d : Decision) (allowed : bool) (now : Z) : Header :=
  let h := header_set h "RateLimit-Limit" (itoa (d_Limit d)) in
  let h := header_set h "RateLimit-Remaining" (itoa (d_Remaining d)) in
  let '(reset, h) :=
    match d_ResetAt d with
    | Some at_ => let reset := Z.max 0 (seconds_until at_ now) in
                  (reset, header_set h "RateLimit-Reset" (itoa reset))
    | None => (1, h)
    end in
  if allowed then h
  else
    let retry := match Decision_RetryAt d with Some at_ => seconds_until at_ now | None => reset end in
    header_set h "Retry-After" (itoa (Z.max retry 1)).

(** ** The limiter of one request *)

(** The primary limiter with the safety limiter behind it.  A decision of the
    safety limiter adjusts one of its windows; the primary's decisions adjust
    leases, or nothing. *)
Definition Fallback_adjust {P F : Type} `{!Limiter P, !Limiter F} (s : P * F) (a : adjuster)
  (gen delta maxDebt : Z) : P * F :=
  match a with
  | AdjHeld _ _ => (adjuster_adjust s.1 a gen delta maxDebt, s.2)
  | AdjWindow _ => (s.1, adjuster_adjust s.2 a gen delta maxDebt)
  end.

Definition Fallback_Limiter {P F : Type} `{!Limiter P, !Limiter F} (rule : Request → option Request)
  : Limiter (P * F) :=
  {| Allow := Fallback_Allow rule; adjuster_adjust := Fallback_adjust |}.

Section rate_limit.
Context {P F U : Type} `{!Limiter P, !Limiter F}.
Variable Hash : string → string.
Variable now : Z.
Variable r : http_request.

Definition with_limits (w : edge P F U) (s : P * F) : edge P F U :=
  mkEdge (ed_config w) (ed_tiers w) s.1 s.2 (ed_inflight w) (ed_responses w) (ed_pools w).
Definition with_inflight (w : edge P F U) (c : Concurrency) : edge P F U :=
  mkEdge (ed_config w) (ed_tiers w) (ed_limiter w) (ed_safety w) c (ed_responses w) (ed_pools w).
Definition set_actual (st : request) (v : Z) : request :=
  mkState (st_scope st) (st_service st) (st_svc st) (st_prefix st) (st_key st) (st_tier st) (st_org st)
    (st_clientIP st) (st_upstreamFailed st) v.

(** The headers of a decision. *)
Definition decision_headers (h : Header) (checks : list Request) (rv : Reservation) : Header :=
  let h := writeRateLimitHeaders h (rv_Binding rv) (rv_Allowed rv) now in
  match rv_ShadowDenied rv with
  | [] => h
  | ids => header_set h "Gate-Shadow-Denied"
             (Join ((λ i, limitLabel (default "" (rq_LimitID <$> checks !! i))) <$> ids) ", ")
  end.

(** Serving an admitted request, and settling what it cost. *)
Definition serve_admitted (next : step) (st : request) (h : Header) (w : edge P F U) (svc : ServiceConfig)
  (rv : Reservation) : response * request * edge P F U :=
  let h := match rv_Results rv with
           | d :: _ => if 0 <? d_Window d then header_set h "Gate-Window" (itoa (d_Window d)) else h
           | [] => h
           end in
  match sv_Cost svc with
  | None => next st h w
  | Some cost =>
      let '(resp, st, w) := next (set_actual st (-1)) h w in
      let settle v := with_limits w
        (Settle (Limiter0 := Fallback_Limiter (safetyRule svc (hq_Method r))) (ed_limiter w, ed_safety w) rv v).2 in
      (resp, st,
       if 0 <=? st_actual st then settle (st_actual st)
       else if (cp_OnMissing cost =? "refund")%string || st_upstreamFailed st then settle 0
       else w)
  end.

(** Reserving every limit of a request. *)
Definition reserve_and_serve (next : step) (st : request) (h : Header) (w : edge P F U)
  (svc : ServiceConfig) (tier : TierConfig) : response * request * edge P F U :=
  let cs := checks Hash r st svc tier (EdgePolicy (ed_config w)) in
  let '(res, s) := Reserve (Limiter0 := Fallback_Limiter (safetyRule svc (hq_Method r)))
                     (ed_limiter w, ed_safety w) cs in
  let w := with_limits w s in
  match res with
  | Err (ErrRejected, _) =>
      (WriteProblem h 403 "key_not_permitted" "the hub does not permit this key on this service", st, w)
  | Err (_, _) =>
      (WriteProblem h 503 "rate_limit_unavailable" "the rate limit service is unreachable; retry shortly", st, w)
  | Ok rv =>
      let h := decision_headers h cs rv in
      if negb (rv_Allowed rv) then
        let id := default "" (rq_LimitID <$> cs !! Z.to_nat (rv_BindingIndex rv)) in
        (WriteProblem h 429 "rate_limited"
           (if (id =? "")%string then "quota exhausted for this window; see Retry-After"
            else "limit " +:+ id +:+ " exhausted; see Retry-After"), st, w)
      else serve_admitted next st h w svc rv
  end.

Definition rateLimit (next : step) : step := λ st h w,
  match st_svc st, st_tier st with
  | Some svc, Some tier =>
      if 0 <? sv_MaxConcurrent svc then
        match Concurrency_Acquire (ed_inflight w) (label st +:+ String "000" (st_key st)) (sv_MaxConcurrent svc) with
        | (None, c) =>
            (WriteProblem (header_set h "Retry-After" "1") 429 "concurrency_limited"
               "too many requests in flight for this caller", st, with_inflight w c)
        | (Some slot, c) =>
            let '(resp, st, w) := reserve_and_serve next st h (with_inflight w c) svc tier in
            (resp, st, with_inflight w (Concurrency_release (ed_inflight w) slot))
        end
      else reserve_and_serve next st h w svc tier
  | _, _ => (aborted, st, w)
  end.
End rate_limit.
