(* ===== verification/JwtKeys.v ===== *)
(** * Keys of token issuers at an edge ([packages/edge/jwt.go])

    An edge verifies bearer tokens with public keys it caches per issuer: how a
    key set is read from a JWKS document, when it is fetched again, and which
    key a token is checked with.  The signature check itself, JSON, base64 and
    the arithmetic of curves are parameters.  Clocks are in nanoseconds. *)

From S2P Require Import Prelude.

Local Open Scope Z_scope.

Definition jwksTTL : Z := 10 * Minute.
Definition jwksMinRefresh : Z := 30 * Second.
(** The timeout of the client that fetches. *)
Definition jwks_timeout : Z := 5 * Second.

(** ** Key sets *)

Inductive curve := P256 | P384 | P521.
Definition curve_of (crv : string) : option curve :=
  if (crv =? "P-256")%string then Some P256
  else if (crv =? "P-384")%string then Some P384
  else if (crv =? "P-521")%string then Some P521 else None.
Definition BitSize (c : curve) : Z := match c with P256 => 256 | P384 => 384 | P521 => 521 end.

Inductive public_key := RSA (n e : Z) | EC (c : curve) (point : list Z).

Record jwk := mkJwk {
  jk_Kty : string; jk_Kid : string; jk_Use : string; jk_Crv : string;
  jk_N : string; jk_E : string; jk_X : string; jk_Y : string;
}.

Record keySet := mkKeySet { ks_keys : gmap string public_key; ks_fetched : Z }.

(** [big.Int.SetBytes]: big-endian. *)
Definition SetBytes (b : list Z) : Z := foldl (λ n x, n * 256 + x) 0 b.

Definition pad (b : list Z) (size : nat) : list Z :=
  if (size <=? length b)%nat then b else replicate (size - length b) 0 ++ b.

Section jwks.
Variable b64 : string → option (list Z).                          (* base64.RawURLEncoding *)
Variable on_curve : curve → list Z → bool.                        (* ecdsa.ParseUncompressedPublicKey *)

(** The key an entry of the document stands for, if it is usable. *)
Definition parse_key (k : jwk) : option public_key :=
  if negb (jk_Use k =? "")%string && negb (jk_Use k =? "sig")%string then None
  else if (jk_Kty k =? "RSA")%string then
    n ← b64 (jk_N k); e ← b64 (jk_E k);
    if (4 <? length e)%nat then None else Some (RSA (SetBytes n) (SetBytes e))
  else if (jk_Kty k =? "EC")%string then
    c ← curve_of (jk_Crv k); x ← b64 (jk_X k); y ← b64 (jk_Y k);
    let size := Z.to_nat ((BitSize c + 7) / 8) in
    let point := 4 :: pad x size ++ pad y size in
    if on_curve c point then Some (EC c point) else None
  else None.

(** [parseJWKS] of a document that decodes, finished at [now]. *)
Definition parseJWKS (doc : list jwk) (now : Z) : keySet :=
  mkKeySet (foldl (λ m k, match parse_key k with Some pk => <[jk_Kid k := pk]> m | None => m end) ∅ doc) now.
End jwks.

(** ** The cache *)

(** [jwtVerifier.sets], by URL. *)
Definition key_sets : Type := gmap string keySet.

(** What a fetch comes to: the set it stores, if it gets one, and whether the
    caller waits for it (its context may end before; the fetch goes on for others). *)
Record fetched := mkFetched { fe_set : option keySet; fe_waited : bool }.

Definition fetch_store (sets : key_sets) (url : string) (f : fetched) : key_sets :=
  match fe_set f with Some s => <[url := s]> sets | None => sets end.
Definition fetch_result (f : fetched) : option keySet := if fe_waited f then fe_set f else None.

Inductive key_error := errFetch | errUnknownKey.

(** [key]; [now] and [now'] are the two readings of the clock, and [f] is what
    a fetch comes to if the code makes one.  Also whether it did. *)
Definition key (sets : key_sets) (url kid : string) (now now' : Z) (f : fetched) : result key_error public_key * key_sets * bool :=
  let cached := sets !! url in
  let hit :=
    match cached with
    | Some s => if now - ks_fetched s <? jwksTTL then ks_keys s !! kid else None
    | None => None
    end in
  match hit with
  | Some k => (Ok k, sets, false)
  | None =>
      let find (s : keySet) := match ks_keys s !! kid with Some k => Ok k | None => Err errUnknownKey end in
      let due := match cached with None => true | Some s => jwksMinRefresh <? now' - ks_fetched s end in
      if due then
        let sets := fetch_store sets url f in
        match fetch_result f, cached with
        | Some s, _ => (find s, sets, true)
        | None, Some s => (find s, sets, true)
        | None, None => (Err errFetch, sets, true)
        end
      else match cached with Some s => (find s, sets, false) | None => (Err errFetch, sets, false) end
  end.

(** ** What an issuer publishes *)

Section issuer.
(** The keys an issuer's URL serves at a time. *)
Variable published : string → Z → gmap string public_key.

(** A set as a fetch gets it: what was published at some moment of the fetch. *)
Definition genuine (url : string) (s : keySet) : Prop :=
  ∃ r, r ≤ ks_fetched s ≤ r + jwks_timeout ∧ ks_keys s = published url r.

(** The cache is used by any number of requests; fetches that outlive their
    request store what they got later. *)
Inductive cache_step : key_sets → key_sets → Prop :=
| step_key sets url kid now now' f :
    (∀ s, fe_set f = Some s → genuine url s) → cache_step sets (key sets url kid now now' f).1.2
| step_late sets url s : genuine url s → cache_step sets (<[url := s]> sets).

Definition all_genuine (sets : key_sets) : Prop := map_Forall genuine sets.

Lemma fetch_store_genuine sets url f :
  (∀ s, fe_set f = Some s → genuine url s) → all_genuine sets → all_genuine (fetch_store sets url f).
Proof.
  intros Hf Hs. unfold fetch_store. destruct (fe_set f) as [s|]; [|done]. apply map_Forall_insert_2; [by apply Hf|done].
Qed.

Lemma key_genuine sets url kid now now' f :
  (∀ s, fe_set f = Some s → genuine url s) → all_genuine sets → all_genuine (key sets url kid now now' f).1.2.
Proof.
  intros Hf Hs. pose proof (fetch_store_genuine sets url f Hf Hs) as Hn. unfold key.
  repeat (case_match; cbn; try done).
Qed.

Lemma reachable_genuine sets : rtc cache_step ∅ sets → all_genuine sets.
Proof.
  intros H. assert (H0 : all_genuine ∅) by apply map_Forall_empty.
  induction H as [|s1 s2 s3 Hs _ IH]; [done|]. apply IH.
  destruct Hs as [sets url kid now now' f Hf|sets url s Hg]; [by apply key_genuine|by apply map_Forall_insert_2].
Qed.

(** A fetch made by a call at [now]. *)
Definition made_at (url : string) (now : Z) (f : fetched) : Prop := ∀ s, fe_set f = Some s → genuine url s ∧ now ≤ ks_fetched s.
Definition succeeds (f : fetched) : Prop := is_Some (fe_set f) ∧ fe_waited f = true.

(** The answer is that of the cached set, or of the set just fetched. *)
Lemma key_source sets url kid now now' f :
  match (key sets url kid now now' f).1.1 with
  | Ok k => ∃ s, (sets !! url = Some s ∨ fe_set f = Some s) ∧ ks_keys s !! kid = Some k
  | Err _ => True
  end.
Proof.
  unfold key, fetch_result. destruct (sets !! url) as [s|] eqn:Es, (fe_waited f), (fe_set f) as [s'|] eqn:Ef; cbn;
    repeat (case_match; simplify_eq/=; try done); eauto 6.
Qed.

(** With a fetch that succeeds, a set in which the key is missing or that is
    stale is not used when a new one is due. *)
Lemma key_fetched sets url kid now now' f s' :
  fe_set f = Some s' → fe_waited f = true →
  (∀ s, sets !! url = Some s → jwksMinRefresh < now' - ks_fetched s ∧ (jwksTTL ≤ now - ks_fetched s ∨ ks_keys s !! kid = None)) →
  (key sets url kid now now' f).1.1 = match ks_keys s' !! kid with Some k => Ok k | None => Err errUnknownKey end.
Proof.
  intros Hf Hw Hs. unfold key, fetch_result. rewrite Hw, Hf. destruct (sets !! url) as [s|] eqn:Es; [|done].
  destruct (Hs s eq_refl) as [Hdue Hold]. destruct (Z.ltb_spec jwksMinRefresh (now' - ks_fetched s)); [|lia].
  destruct (Z.ltb_spec (now - ks_fetched s) jwksTTL); [|done]. destruct Hold as [|Hold]; [lia|]. by rewrite Hold.
Qed.

Lemma key_not_due sets url kid now now' f s :
  sets !! url = Some s → now' - ks_fetched s ≤ jwksMinRefresh → ks_keys s !! kid = None →
  (key sets url kid now now' f).1.1 = Err errUnknownKey.
Proof.
  intros Hs Hd Hk. unfold key. rewrite Hs, Hk. destruct (Z.ltb_spec jwksMinRefresh (now' - ks_fetched s)); [lia|].
  destruct (now - ks_fetched s <? jwksTTL); cbn; by rewrite ?Hk.
Qed.

(** C28: An edge follows an issuer's keys, whatever other requests do to the
    cache.  A token is only ever checked with a key the issuer has published
    under the token's key id.  Once the issuer has dropped the id, the edge
    refuses it after the time to live of a set and the duration of a fetch,
    unless the fetch that is then due fails.  And a key published since before
    a fetch that is due, under an id not yet cached, is found with that fetch. *)
Theorem keys_follow_issuer sets url kid now now' f :
  rtc cache_step ∅ sets → made_at url now' f → now ≤ now' →
  let res := (key sets url kid now now' f).1.1 in
  (∀ k, res = Ok k → ∃ r, published url r !! kid = Some k)
  ∧ (∀ T, (∀ r, T ≤ r → published url r !! kid = None) → T + jwksTTL + jwks_timeout ≤ now → succeeds f →
       res = Err errUnknownKey)
  ∧ (∀ T k, (∀ r, T ≤ r → published url r !! kid = Some k) → T + jwks_timeout ≤ now' → succeeds f →
       (∀ s, sets !! url = Some s → jwksMinRefresh < now' - ks_fetched s ∧ ks_keys s !! kid = None) → res = Ok k).
Proof.
  intros Hr Hf Hnow. apply reachable_genuine in Hr. cbv zeta.
  assert (jwksMinRefresh ≤ jwksTTL ∧ 0 ≤ jwksTTL) as [HM HT] by done. split_and!.
  - intros k Hk. pose proof (key_source sets url kid now now' f) as H. rewrite Hk in H. destruct H as (s & Hs & Hkid).
    assert (genuine url s) as (r & _ & Ep) by (destruct Hs as [Hs|Hs]; [by apply (Hr url)|by apply Hf]).
    exists r. by rewrite <- Ep.
  - intros T Hgone Ht [[s' Hs'] Hw]. destruct (Hf s' Hs') as [(r' & Hr' & Ep') Hlate].
    assert (Hno : ks_keys s' !! kid = None) by (rewrite Ep'; apply Hgone; lia).
    destruct (sets !! url) as [s|] eqn:Es; [|by rewrite (key_fetched _ _ _ _ _ _ s'), Hno by (done || intros; congruence)].
    destruct (Hr url s Es) as (r & Hrs & Ep).
    assert (Hold : T + jwks_timeout ≤ ks_fetched s → ks_keys s !! kid = None) by (intros; rewrite Ep; apply Hgone; lia).
    destruct (Z.lt_ge_cases jwksMinRefresh (now' - ks_fetched s)) as [Hdue|Hrecent].
    + rewrite (key_fetched _ _ _ _ _ _ s'), Hno; [done|done|done|]. intros s0 Hs0. simplify_eq. split; [done|].
      destruct (Z.le_gt_cases jwksTTL (now - ks_fetched s)); [by left|right]. apply Hold. lia.
    + apply (key_not_due _ _ _ _ _ _ s); [done|done|]. apply Hold. lia.
  - intros T k Hhas Ht [[s' Hs'] Hw] Hs. destruct (Hf s' Hs') as [(r' & Hr' & Ep') Hlate].
    rewrite (key_fetched _ _ _ _ _ _ s'); [|done|done|intros s Es; destruct (Hs s Es); tauto].
    rewrite Ep', Hhas by lia. done.
Qed.
End issuer.

(** While the issuer cannot be reached, a key is used however old its set is,
    and every call asks for the set again: only a fetch that succeeds counts
    for the least time between fetches. *)
Theorem unreachable_issuer sets url kid now now' f s k :
  sets !! url = Some s → ks_keys s !! kid = Some k → jwksTTL ≤ now - ks_fetched s → now ≤ now' → fe_set f = None →
  key sets url kid now now' f = (Ok k, sets, true).
Proof.
  intros Hs Hk Hold Hn Hf. assert (jwksMinRefresh < jwksTTL) by done. unfold key, fetch_result, fetch_store. rewrite Hs, Hk, Hf.
  destruct (Z.ltb_spec (now - ks_fetched s) jwksTTL); [lia|]. destruct (Z.ltb_spec jwksMinRefresh (now' - ks_fetched s)); [|lia].
  by destruct (fe_waited f).
Qed.

(** An issuer that replaces key [a] by key [b] after an hour. *)
Module Example_keys.
Definition rotated (url : string) (t : Z) : gmap string public_key :=
  if t <? Hour then {[ "a" := RSA 35 5 ]} else {[ "b" := RSA 77 7 ]}.
Definition at_time (t : Z) : keySet := mkKeySet (rotated "u" t) t.
Definition got (t : Z) : fetched := mkFetched (Some (at_time t)) true.
Definition first : key_sets := (key ∅ "u" "a" 0 0 (got 0)).1.2.

Lemma keys_follow_issuer_witness :
  (key first "u" "a" (2 * Hour) (2 * Hour) (got (2 * Hour))).1.1 = Err errUnknownKey
  ∧ (key first "u" "b" (2 * Hour) (2 * Hour) (got (2 * Hour))).1.1 = Ok (RSA 77 7).
Proof.
  assert (Hgot : ∀ t, made_at rotated "u" t (got t)).
  { intros t s [= <-]. split; [|done]. exists t. cbn. split; [unfold jwks_timeout, Second; lia|done]. }
  assert (Hr : rtc (cache_step rotated) ∅ first) by (apply rtc_once, step_key; intros s Hs; by destruct (Hgot 0 s Hs)).
  destruct (keys_follow_issuer rotated first "u" "a" (2 * Hour) (2 * Hour) _ Hr (Hgot _) ltac:(reflexivity)) as (_ & Ha & _).
  destruct (keys_follow_issuer rotated first "u" "b" (2 * Hour) (2 * Hour) _ Hr (Hgot _) ltac:(reflexivity)) as (_ & _ & Hb).
  assert (Hlater : ∀ r, Hour ≤ r → rotated "u" r = {[ "b" := RSA 77 7 ]}).
  { intros r H. unfold rotated. destruct (Z.ltb_spec r Hour); [lia|done]. }
  split.
  - apply (Ha Hour); [|done|done]. intros r H. by rewrite Hlater.
  - apply (Hb Hour); [|done|done|]. { intros r H. by rewrite Hlater. } intros s Hs. vm_compute in Hs. injection Hs as <-. by vm_compute.
Defined.
End Example_keys.
