(* ===== verification/EdgeProps.v ===== *)
(** * What an edge's rate limiting promises

    The checks an edge makes are the limits the hub leases for them; a request
    is served only after every enforced limit admitted it; and, an error of the
    code, what is refunded to a safety limit is not what was charged to it. *)

From S2P Require Import Prelude Float64 Ledger Region Wire Policies Config Decide Hub GoLib TtlCache Tiers Limiter Upstream.
From S2P Require Import Edge Reserve EdgeLimits LocalProps.
From Stdlib Require Import Ascii.

Local Open Scope Z_scope.

(** ** The edge's index and the hub's lookups *)

Record name_ok (n : string) : Prop := {
  nk_trim : TrimSpace n = n;
  nk_some : n ≠ "";
  nk_sep : ¬ has_char "000" n;
}.

(** Names as validation leaves them: trimmed, not empty, and each once. *)
Record names_ok (cfg : GatewayConfig) : Prop := {
  no_prefixes : NoDup (px_Prefix <$> gc_Prefixes cfg);
  no_prefix px : px ∈ gc_Prefixes cfg → name_ok (px_Prefix px);
  no_services px : px ∈ gc_Prefixes cfg → NoDup (sv_ServiceID <$> px_Services px);
  no_service px svc : px ∈ gc_Prefixes cfg → svc ∈ px_Services px → name_ok (sv_ServiceID svc);
}.

Lemma NoDup_fmap_same {A B} (f : A → B) (l : list A) x y :
  NoDup (f <$> l) → x ∈ l → y ∈ l → f x = f y → x = y.
Proof.
  induction l as [|z l IH]; cbn; intros Hnd Hx Hy E; [by apply elem_of_nil in Hx|].
  apply NoDup_cons in Hnd as [Hz Hnd]. apply elem_of_cons in Hx, Hy.
  destruct Hx as [->|Hx], Hy as [->|Hy]; [done| | |by apply IH]; exfalso; apply Hz; apply list_elem_of_fmap; eauto.
Qed.

Lemma find_unique {A} (f : A → bool) (l : list A) x :
  x ∈ l → f x = true → (∀ y, y ∈ l → f y = true → y = x) → find f l = Some x.
Proof.
  intros Hx Hf Hu. destruct (find f l) as [y|] eqn:E.
  - apply find_some in E as [Hy Hfy]. f_equal. apply Hu; [by apply list_elem_of_In|done].
  - apply list_elem_of_In in Hx. by rewrite (find_none _ _ E x Hx) in Hf.
Qed.

Lemma find_by_name {A} (f : A → string) (l : list A) x :
  NoDup (f <$> l) → x ∈ l → find (λ y, (f y =? f x)%string) l = Some x.
Proof.
  intros Hnd Hx. apply find_unique; [done|by rewrite String.eqb_refl|].
  intros y Hy E%String.eqb_eq. by eapply NoDup_fmap_same.
Qed.

Lemma foldl_insert_elem {A B} (f : A → string) (g : A → B) (l : list A) (m : gmap string B) k v :
  foldl (λ m a, <[f a := g a]> m) m l !! k = Some v →
  m !! k = Some v ∨ ∃ a, a ∈ l ∧ f a = k ∧ g a = v.
Proof.
  revert m. induction l as [|a l IH]; cbn; intros m H; [by left|].
  destruct (IH _ H) as [Hm|(b & Hb & Hk & Hv)].
  - destruct (decide (f a = k)) as [<-|Hne].
    + rewrite lookup_insert_eq in Hm. injection Hm as <-. right. exists a. split; [set_solver|done].
    + rewrite lookup_insert_ne in Hm by done. by left.
  - right. exists b. split; [set_solver|done].
Qed.

Lemma index_services_elem (l : list PrefixConfig) (m : gmap string ServiceConfig) k svc :
  foldl (λ m px, foldl (index_service px) m (px_Services px)) m l !! k = Some svc →
  m !! k = Some svc ∨
  ∃ px, px ∈ l ∧ svc ∈ px_Services px ∧ px_Prefix px +:+ String "000" (sv_ServiceID svc) = k.
Proof.
  revert m. induction l as [|px l IH]; cbn; intros m H; [by left|].
  destruct (IH _ H) as [Hm|(px' & H1 & H2 & H3)].
  - apply (foldl_insert_elem (λ s, px_Prefix px +:+ String "000" (sv_ServiceID s)) (λ s, s)) in Hm
      as [Hm|(s & Hs & <- & ->)]; [by left|]. right. exists px. split; [set_solver|done].
  - right. exists px'. split; [set_solver|done].
Qed.

(** What an edge finds under a name is what the hub finds. *)
Lemma GetServiceConfig_FindService cfg p s svc :
  names_ok cfg → GetServiceConfig (Apply cfg) p s = Some svc →
  ∃ px, GetPrefix (Apply cfg) p = Some px ∧ FindService cfg p s = Some (px, svc).
Proof.
  intros [Hnp Hp Hns Hs]. unfold GetServiceConfig, GetPrefix. cbn [ci_prefixes ci_services Apply].
  destruct (foldl _ ∅ _ !! p) as [px|] eqn:Epx; [|done]. intros H.
  apply (foldl_insert_elem px_Prefix (λ x, x)) in Epx as [Epx|(px' & Hpx & Ep & Ex)]; [by rewrite lookup_empty in Epx|].
  cbv beta in Ex. subst px'. subst p.
  apply index_services_elem in H as [H|(px' & Hpx' & Hsvc & Ek)]; [by rewrite lookup_empty in H|].
  apply (f_equal chars) in Ek. rewrite !chars_app in Ek. cbn [chars] in Ek.
  apply split_first in Ek as [Ek1 Ek2]; [|apply (Hp px' Hpx')|apply (Hp px Hpx)].
  apply (inj chars) in Ek1, Ek2. assert (px' = px) as -> by (by eapply (NoDup_fmap_same px_Prefix)). subst s.
  exists px. split; [done|]. unfold FindService, FindPrefix.
  rewrite (nk_trim _ (Hp px Hpx)), (proj2 (String.eqb_neq _ _) (nk_some _ (Hp px Hpx))).
  rewrite (find_by_name px_Prefix) by done. rewrite (nk_trim _ (Hs px svc Hpx Hsvc)).
  by rewrite (find_by_name sv_ServiceID) by auto.
Qed.

(** ** The checks of an edge and the limits of the hub *)

(** A limit as validation leaves it. *)
Definition limit_ok (l : LimitSpec) : Prop := ls_ID l ≠ "" ∧ (ls_Window l = 0 ∨ Second ≤ ls_Window l).

(** A hub that leases [l] for the check [c] enforces what the edge expects. *)
Record leases_for (c : Request) (l : lease) : Prop := {
  lf_limit : le_limit l = rq_Limit c;
  lf_spec : spec_Limit (bi_Spec (le_item l)) = rq_Limit c;
  lf_algo : spec_Algo (bi_Spec (le_item l)) = rq_Algo c;
  lf_window : Algo_Or (rq_Algo c) ≠ TokenBucket → Spec_Period (bi_Spec (le_item l)) = rq_Window c;
  lf_ref : ref_Scope (bi_Ref (le_item l)) = rq_Scope c ∧ ref_Service (bi_Ref (le_item l)) = rq_Service c ∧
           ref_Limit (bi_Ref (le_item l)) = rq_LimitID c ∧ ref_Subject (bi_Ref (le_item l)) = rq_Key c;
}.

Section match_hub.
Variable sha256_uint64 : string → Z.
Variable sha256_hex8 : string → string.
Variable Hash : string → string.
Variable validKey : string → bool.
Variable cfg : GatewayConfig.
Variable tierStore : TierStore.
Variable region : option Node.

Abbreviation hub_resolve := (Hub.resolve sha256_uint64 sha256_hex8 validKey cfg tierStore region).

(** The hub's records name this tier for the key, and can be read. *)
Definition records_agree (st : request) (svc : ServiceConfig) (tier : TierConfig) : Prop :=
  ServiceConfig_AuthType svc = "api_key" →
  GetTier tierStore (st_scope st) (st_key st) = Ok (t_TierID tier) ∧
  match GetOwner tierStore with
  | Some owners => ∃ o, owners (st_scope st) (st_key st) = Ok o
  | None => True
  end.

Lemma windowed_period s : Algo_Or (spec_Algo s) ≠ TokenBucket → Spec_Period s = Z.max (spec_Window s) Second.
Proof. intros H. unfold Spec_Period. by rewrite (proj2 (String.eqb_neq _ _) H). Qed.

Lemma base_check_resolved r st svc tier px policy :
  FindService cfg (st_scope st) (st_service st) = Some (px, svc) → st_prefix st = Some px →
  st_scope st ≠ Scope → edge_GetTier svc (t_TierID tier) = Some tier → records_agree st svc tier →
  let c := base_check r st svc tier policy in
  validKey (rq_Key c) = true →
  ∃ l, hub_resolve (rq_Scope c) (rq_Service c) (rq_Key c) (rq_LimitID c) (rq_Tier c) (rq_Org c) = Ok l ∧
       leases_for c l.
Proof.
  intros Hfind Hpx Hsc Htier Hrec. unfold base_check. rewrite Hpx.
  cbn [rq_Key rq_Scope rq_Service rq_LimitID rq_Tier rq_Org rq_Limit rq_Algo rq_Window].
  intros Hv. unfold Hub.resolve. rewrite Hv, (proj2 (String.eqb_neq _ _) Hsc), Hfind. cbn [negb String.eqb].
  assert (Hc : ∃ org, caller tierStore svc (st_scope st) (st_key st) (t_TierID tier) (st_org st) = Ok (t_TierID tier, org)).
  { unfold caller. destruct (String.eqb_spec (ServiceConfig_AuthType svc) "api_key") as [Ha|]; [|by eexists].
    destruct (Hrec Ha) as [-> Ho]. destruct (GetOwner tierStore) as [owners|]; [|by eexists].
    destruct Ho as [o ->]. destruct (sv_Org svc); by eexists. }
  destruct Hc as [org ->]. unfold findTier. unfold edge_GetTier in Htier. rewrite Htier.
  eexists. split; [done|]. unfold resolve_tier.
  destruct (match sv_Global svc with Some _ => _ | None => _ end) as [regional base].
  destruct (match sv_Org svc with Some _ => _ | None => _ end) as [parent parentSpec].
  split; cbn; try done. intros Ha. by rewrite windowed_period.
Qed.

Lemma limit_check_resolved st svc base px l :
  FindService cfg (st_scope st) (st_service st) = Some (px, svc) → st_scope st ≠ Scope →
  rq_Scope base = st_scope st → rq_Service base = st_service st →
  rq_Window base = Z.max (px_QuotaPeriod px) Second →
  NoDup (ls_ID <$> sv_Limits svc) → l ∈ sv_Limits svc → limit_ok l →
  let c := limit_check Hash st base l in
  validKey (rq_Key c) = true →
  ∃ le, hub_resolve (rq_Scope c) (rq_Service c) (rq_Key c) (rq_LimitID c) (rq_Tier c) (rq_Org c) = Ok le ∧
        leases_for c le.
Proof.
  intros Hfind Hsc Hbs Hbv Hbw Hnd Hl [Hid Hwin]. unfold limit_check.
  cbn [rq_Key rq_Scope rq_Service rq_LimitID rq_Tier rq_Org rq_Limit rq_Algo rq_Window].
  intros Hv. rewrite Hbs, Hbv. unfold Hub.resolve.
  rewrite Hv, (proj2 (String.eqb_neq _ _) Hsc), Hfind, (proj2 (String.eqb_neq _ _) Hid). cbn [negb].
  unfold findLimit. rewrite (find_by_name ls_ID) by done. eexists. split; [done|].
  split; cbn; try done. intros Ha. rewrite windowed_period by done. cbn [spec_Window]. rewrite Hbw.
  unfold Second in *. destruct (Z.leb_spec (ls_Window l) 0), (Z.ltb_spec 0 (ls_Window l)); lia.
Qed.

End match_hub.

(** ** In-flight caps *)

(** The requests a caller has in flight. *)
Definition in_flight (c : Concurrency) (key : string) : Z :=
  match tb_m c !! key with Some i => default 0 (tb_objs c !! i) | None => 0 end.

Record table_ok {T} (t : table T) : Prop := {
  to_range k i : tb_m t !! k = Some i → (i < length (tb_objs t))%nat;
  to_inj k k' i : tb_m t !! k = Some i → tb_m t !! k' = Some i → k = k';
}.

Definition cap_ok (c : Concurrency) : Prop := table_ok c ∧ Forall is_int64 (tb_objs c).

Lemma table_get_ok {T} (t : table T) key init :
  table_ok t → table_ok (table_get t key init).2 ∧ tb_m (table_get t key init).2 !! key = Some (table_get t key init).1.
Proof.
  intros [Hr Hi]. unfold table_get. destruct (tb_m t !! key) as [i|] eqn:E; [by split; [split|]|]. cbn.
  split; [|by rewrite lookup_insert_eq]. split; cbn.
  - intros k i Hk. rewrite length_app. cbn. destruct (decide (k = key)) as [->|Hne].
    + rewrite lookup_insert_eq in Hk. injection Hk as <-. lia.
    + rewrite lookup_insert_ne in Hk by done. specialize (Hr _ _ Hk). lia.
  - intros k k' i Hk Hk'. destruct (decide (k = key)) as [->|Hne], (decide (k' = key)) as [->|Hne']; [done| | |].
    + rewrite lookup_insert_eq in Hk. rewrite lookup_insert_ne in Hk' by done. injection Hk as <-. specialize (Hr _ _ Hk'). lia.
    + rewrite lookup_insert_eq in Hk'. rewrite lookup_insert_ne in Hk by done. injection Hk' as <-. specialize (Hr _ _ Hk). lia.
    + rewrite lookup_insert_ne in Hk, Hk' by done. eauto.
Qed.

Lemma in_flight_get c key k : cap_ok c → in_flight (table_get c key 0).2 k = in_flight c k.
Proof.
  intros [[Hr Hi] _]. unfold table_get, in_flight. destruct (tb_m c !! key) as [i|] eqn:E; [done|]. cbn.
  destruct (decide (k = key)) as [->|Hne].
  - rewrite lookup_insert_eq, E, lookup_app_r, Nat.sub_diag by lia. done.
  - rewrite lookup_insert_ne by done. destruct (tb_m c !! k) as [j|] eqn:Ek; [|done].
    by rewrite lookup_app_l by (by eapply Hr).
Qed.

Lemma in_flight_set c key i n k :
  table_ok c → tb_m c !! key = Some i →
  in_flight (table_set c i n) k = if decide (k = key) then n else in_flight c k.
Proof.
  intros [Hr Hi] Hk. unfold in_flight, table_set. cbn. destruct (decide (k = key)) as [->|Hne].
  - by rewrite Hk, list_lookup_insert_eq by (by eapply Hr).
  - destruct (tb_m c !! k) as [j|] eqn:Ej; [|done]. rewrite list_lookup_insert_ne; [done|]. intros ->.
    destruct Hne. by eapply Hi.
Qed.

(** Acquiring a slot succeeds exactly below the limit, and releasing it undoes
    it. *)
Lemma Concurrency_Acquire_spec c key limit :
  cap_ok c → in_flight c key < int64_max →
  let '(slot, c') := Concurrency_Acquire c key limit in
  match slot with
  | Some i => in_flight c key < limit ∧ (∀ k, in_flight (Concurrency_release c' i) k = in_flight c k)
  | None => limit ≤ in_flight c key ∧ ∀ k, in_flight c' k = in_flight c k
  end.
Proof.
  intros Hok Hmax. unfold Concurrency_Acquire.
  pose proof (table_get_ok c key 0 (proj1 Hok)) as [Hok1 Hm]. pose proof (in_flight_get c key) as Hg.
  assert (Hints : Forall is_int64 (tb_objs (table_get c key 0).2)).
  { unfold table_get. destruct (tb_m c !! key); [apply Hok|]. cbn. apply Forall_app. split; [apply Hok|].
    repeat constructor; vm_compute; discriminate. }
  destruct (table_get c key 0) as [i c1]. cbn [fst snd] in *. unfold table_obj.
  destruct (lookup_lt_is_Some_2 (tb_objs c1) i (to_range c1 Hok1 key i Hm)) as [n Hn]. rewrite Hn.
  assert (En : n = in_flight c key) by (rewrite <-Hg by done; unfold in_flight; by rewrite Hm, Hn).
  pose proof (Forall_lookup_1 _ _ _ _ Hints Hn) as Hni. cbv beta in Hni.
  assert (Eadd : (n + 1)%i64 = n + 1) by (i64_simp; done). rewrite Eadd.
  assert (Esub : i64_sub (n + 1)%Z 1 = n) by (unfold i64_sub; rewrite wrap64_small; [lia|unfold is_int64 in *; lia]).
  destruct (Z.ltb_spec limit (n + 1)).
  - split; [lia|]. intros k. rewrite Esub, (in_flight_set c1 key) by done. rewrite Hg by done.
    case_decide; [by subst|done].
  - split; [lia|]. intros k. unfold Concurrency_release, table_obj. cbn [tb_objs table_set].
    rewrite list_lookup_insert_eq by (by eapply lookup_lt_Some).
    change (in_flight (table_set (table_set c1 i (n + 1)) i (i64_sub (n + 1)%Z 1)) k = in_flight c k).
    rewrite (in_flight_set _ key); [|split; cbn; [rewrite length_insert; apply Hok1|apply Hok1]|done].
    rewrite Esub, (in_flight_set c1 key) by done. rewrite Hg by done. case_decide; [by subst|done].
Qed.

(** ** The rate-limiting step *)

Section metered.
Context {P F U : Type} `{!Limiter P, !Limiter F}.
Variable Hash : string → string.
Variable now : Z.
Variable r : http_request.
Implicit Types (w : edge P F U) (next : @step (edge P F U)).

(** The reservation made for a request. *)
Definition reservation_of w (st : request) (svc : ServiceConfig) (tier : TierConfig) :=
  Reserve (Limiter0 := Fallback_Limiter (safetyRule svc (hq_Method r))) (ed_limiter w, ed_safety w)
    (checks Hash r st svc tier (EdgePolicy (ed_config w))).

(** The response is that of the next step, called after all of the checks were
    admitted and with their charges made. *)
Definition served next (st : request) w (svc : ServiceConfig) (tier : TierConfig)
  (resp : response) (st' : request) : Prop :=
  ∃ rv s h0 w0,
    reservation_of w st svc tier = (Ok rv, s) ∧ rv_Allowed rv = true ∧
    (∀ j c d, checks Hash r st svc tier (EdgePolicy (ed_config w)) !! j = Some c →
       rv_Results rv !! j = Some d → rq_Shadow c = false → d_Allowed d = true) ∧
    (ed_limiter w0, ed_safety w0) = s ∧
    (next (match sv_Cost svc with Some _ => set_actual st (-1) | None => st end) h0 w0).1 = (resp, st').

Lemma reserve_and_serve_cases next st h w svc tier :
  let '(resp, st', w') := reserve_and_serve Hash now r next st h w svc tier in
  (rs_Status resp ∈ [403; 429; 503] ∧ st' = st ∧
     ∀ next', reserve_and_serve Hash now r next' st h w svc tier = (resp, st', w')) ∨
  served next st w svc tier resp st'.
Proof.
  unfold reserve_and_serve, served, reservation_of.
  destruct (Reserve _ _) as [[rv|[[] rv]] s] eqn:Er; [|left; split; [set_solver|done]..].
  destruct (Reserve_shape _ _ _ _ Er) as [_ Hadm]. destruct (rv_Allowed rv) eqn:Ea; cbn [negb];
    [|left; split; [set_solver|done]].
  unfold serve_admitted. set (h0 := match rv_Results rv with [] => _ | _ => _ end).
  destruct (sv_Cost svc) as [cost|].
  - destruct (next (set_actual st (-1)) h0 (with_limits w s)) as [[resp st'] w'] eqn:En. right.
    exists rv, s, h0, (with_limits w s). rewrite En. by destruct s.
  - destruct (next st h0 (with_limits w s)) as [[resp st'] w'] eqn:En. right.
    exists rv, s, h0, (with_limits w s). rewrite En. by destruct s.
Qed.

Lemma reserve_and_serve_inflight next st h w svc tier :
  (∀ st h w, ed_inflight (next st h w).2 = ed_inflight w) →
  ed_inflight (reserve_and_serve Hash now r next st h w svc tier).2 = ed_inflight w.
Proof.
  intros Hn. unfold reserve_and_serve. destruct (Reserve _ _) as [[rv|[[] rv]] s]; [|done..].
  destruct (negb (rv_Allowed rv)); [done|]. unfold serve_admitted. destruct (sv_Cost svc) as [cost|].
  - match goal with |- context [next ?a ?b ?c] => pose proof (Hn a b c) as H; destruct (next a b c) as [[resp st'] w'] end.
    cbn in *. repeat case_match; exact H.
  - by rewrite Hn.
Qed.

(** A request is served only when it is metered.  Either the step refuses
    it with 403, 429 or 503, without calling the rest of the chain; or every
    enforced check admitted it, at the hub's quota or at the safety limit, before
    the rest of the chain ran.  A cap on requests in flight refuses exactly the
    requests above it, and when the step returns the caller has as many in
    flight as before. *)
Theorem served_only_when_metered next st h w svc tier :
  st_svc st = Some svc → st_tier st = Some tier →
  cap_ok (ed_inflight w) →
  let key := label st +:+ String "000" (st_key st) in
  in_flight (ed_inflight w) key < int64_max →
  (∀ st h w, ed_inflight (next st h w).2 = ed_inflight w) →
  let '(resp, st', w') := rateLimit Hash now r next st h w in
  ((rs_Status resp ∈ [403; 429; 503] ∧ st' = st ∧
     ∀ next', rateLimit Hash now r next' st h w = (resp, st', w')) ∨
   (served next st w svc tier resp st' ∧
    (0 < sv_MaxConcurrent svc → in_flight (ed_inflight w) key < sv_MaxConcurrent svc))) ∧
  ∀ k, in_flight (ed_inflight w') k = in_flight (ed_inflight w) k.
Proof.
  intros Hs Ht Hok key Hmax Hn. unfold rateLimit. rewrite Hs, Ht.
  destruct (Z.ltb_spec 0 (sv_MaxConcurrent svc)) as [Hpos|Hpos].
  - fold key. pose proof (Concurrency_Acquire_spec (ed_inflight w) key (sv_MaxConcurrent svc) Hok Hmax) as Hacq.
    destruct (Concurrency_Acquire _ key _) as [[slot|] c] eqn:Eacq.
    + destruct Hacq as [Hlt Hrel].
      pose proof (reserve_and_serve_cases next st h (with_inflight w c) svc tier) as Hc.
      pose proof (reserve_and_serve_inflight next st h (with_inflight w c) svc tier Hn) as Hi.
      destruct (reserve_and_serve _ _ _ _ _ _ _ _ _) as [[resp st'] w'] eqn:Er. cbn [snd] in Hi.
      split; [|intros k; cbn; by rewrite Hi].
      destruct Hc as [(H1 & H2 & H3)|Hc]; [left|right; by split].
      split; [done|]. split; [done|]. intros next'. by rewrite H3.
    + split; [left; split; [set_solver|done]|]. intros k. apply Hacq.
  - pose proof (reserve_and_serve_cases next st h w svc tier) as Hc.
    pose proof (reserve_and_serve_inflight next st h w svc tier Hn) as Hi.
    destruct (reserve_and_serve _ _ _ _ _ _ _ _ _) as [[resp st'] w']. cbn [snd] in Hi.
    split; [|intros k; by rewrite Hi]. destruct Hc; [by left|right]. split; [done|lia].
Qed.
End metered.

(** ** Refunds to the safety limiter *)

Section safety.
Context {P F : Type} `{!Limiter P, !Limiter F, !LimiterLaws F}.
(** The hub is unreachable. *)
Hypothesis down : ∀ (p : P) req, Allow p req = (Err ErrUnavailable, p).

Definition flagged (d : Decision) : Decision :=
  mkDecision (d_Allowed d) (d_Limit d) (d_Remaining d) (d_ResetAt d) true (d_Window d) (d_retry d)
    (d_adj d) (d_gen d) (d_maxDebt d).

Lemma Fallback_Allow_down rule (p : P) (f f' : F) req sreq d :
  rule req = Some sreq → Allow f sreq = (Ok d, f') →
  Fallback_Allow rule (p, f) req = (Ok (flagged d), (p, f')).
Proof using down. intros Hr Ha. unfold Fallback_Allow. cbn [fst snd]. by rewrite down, Hr, Ha. Qed.

(** a refund to a safety limit is not what was charged.  While the hub is
    unreachable and the safety limiter admits the caller's check at the safety
    tier's cost, a request that a later limit denies gives back the cost of the
    caller's own tier: the safety counter moves by the difference, although the
    request was refused. *)
Theorem safety_refund_mismatch (p : P) (f f1 f2 : F) (svc : ServiceConfig) (method : string)
  (c1 c2 s1 s2 : Request) (d1 d2 : Decision) (i : nat) :
  safetyRule svc method c1 = Some s1 → safetyRule svc method c2 = Some s2 →
  admissible s1 → admissible s2 → is_int64 (rq_Cost c1) → is_int64 (rq_Cost s1) →
  rq_Shadow c2 = false →
  Allow f s1 = (Ok d1, f1) → d_Allowed d1 = true → d_adj d1 = Some (AdjWindow i) →
  Allow f1 s2 = (Ok d2, f2) → d_Allowed d2 = false →
  let '(res, (p', f')) := Reserve (Limiter0 := Fallback_Limiter (safetyRule svc method)) (p, f) [c1; c2] in
  (∃ rv, res = Ok rv ∧ rv_Allowed rv = false) ∧
  ∀ k, usage f' k = if decide (k = stateKey c1) then wrap64 (usage f k + (cost_of s1 - cost_of c1)) else usage f k.
Proof using down.
  intros Hr1 Hr2 Ha1 Ha2 Hc1 Hcs Hsh H1 Hd1 Hadj H2 Hd2.
  assert (Hkey : stateKey s1 = stateKey c1).
  { unfold safetyRule in Hr1. destruct (sv_SafetyTier svc); [|done]. destruct (negb _); [done|].
    injection Hr1 as <-. done. }
  unfold Reserve. cbn [reserve_loop Allow Fallback_Limiter].
  rewrite (Fallback_Allow_down _ p f f1 c1 s1 d1 Hr1 H1). cbn [d_Allowed flagged]. rewrite Hd1.
  rewrite (Fallback_Allow_down _ p f1 f2 c2 s2 d2 Hr2 H2). cbn [d_Allowed flagged]. rewrite Hd2, Hsh.
  cbn [rollback app]. cbn [d_Allowed flagged]. rewrite ?Hd1.
  set (x := - Z.max (rq_Cost c1) 1). unfold Decision_Adjust. cbn [d_adj flagged d_gen d_maxDebt]. rewrite Hadj.
  assert (Hx : x =? 0 = false) by (unfold x; lia). rewrite Hx. cbn [adjuster_adjust Fallback_Limiter Fallback_adjust fst snd].
  split; [eexists; split; [done|done]|]. intros k.
  destruct (allow_charges f s1 d1 f1 Ha1 H1 Hd1) as [Hlive Hus].
  pose proof (allow_live f1 s2 (Ok d2) f2 d1 (stateKey s1) Ha2 H2 Hlive) as Hlive2.
  pose proof (adjust_charges f2 d1 (stateKey s1) x Hlive2) as Hadj2. unfold Decision_Adjust in Hadj2.
  rewrite Hadj, Hx in Hadj2. rewrite Hadj2 by (unfold x, is_int64, int64_min, int64_max in *; lia).
  rewrite (allow_free f1 s2 (Ok d2) f2 Ha2 H2 Hd2), Hus, Hkey. destruct (decide (k = stateKey c1)); [|done].
  unfold i64_add. rewrite i64_add_wrap. f_equal. unfold x, cost_of. lia.
Qed.
End safety.

(** ** Examples *)

Module Example_edge.
Definition gold : TierConfig := mkTier "gold" 100 10 10 10 10 10 "" f64_zero.
Definition safe : TierConfig := mkTier "safe" 5 1 1 1 1 1 "" f64_zero.
Definition llm : LimitSpec := mkLimitSpec "llm" PerKey "" 5 0 f64_zero false.
Definition plain : ServiceConfig := plain_service "api" "http://up" [gold] (Some safe) [llm] (mkLeasePolicy "" 0 0 0) None.
Definition svc : ServiceConfig :=
  mkService (sv_ServiceID plain) (sv_TargetURL plain) (sv_Tiers plain) (sv_SafetyTier plain) (sv_Transform plain)
    None (sv_Analytics plain) None
    (mkFailure false "" (mkHubFailure "" "" 0 true) (fc_Upstream no_failure_config))
    [] "" None (sv_Auth plain) 2 [] "" 0 0 (sv_Limits plain) None false None (sv_Lease plain) None.
Definition px : PrefixConfig := mkPrefix "v1" Minute (mkLeasing 0 f64_zero 0 0) [svc].
Definition cfg : GatewayConfig := mkGateway [px] DefaultRuntimePolicy [].
Definition store : TierStore := mkTierStore (λ _ _, Ok "gold") None.
Definition r : http_request := mkHttpRequest "GET" "/v1/api/x" "" "gw" "10.0.0.1:99" ∅.
Definition st : request := mkState "v1" "api" (Some svc) (Some px) "key1" (Some gold) "" "10.0.0.1" false 0.
Definition c1 : Request := base_check r st svc gold (EdgePolicy (Apply cfg)).
Definition c2 : Request := limit_check id st c1 llm.
Definition rule : Request → option Request := safetyRule svc "GET".
(** A limiter that cannot reach the hub. *)
#[global] Instance unreachable : Limiter unit := {
  Allow s req := (Err ErrUnavailable, s);
  adjuster_adjust s _ _ _ _ := s;
}.
Definition f0 : local_at := exist _ (empty_table, 1000) local_wf_empty.
Definition s1 : Request := default c1 (rule c1).
Definition s2 : Request := default c2 (rule c2).
Definition decision (a : result lerror Decision * local_at) : Decision :=
  match a.1 with Ok d => d | Err _ => zero_decision end.
Definition f1 : local_at := (Allow f0 s1).2.
Definition f2 : local_at := (Allow f1 s2).2.
Definition next : @step (edge unit local_at string) := λ st h w, (mkResponse 200 h ["hello"], st, w).
Definition w : edge unit local_at string := mkEdge (Apply cfg) NewTierCache tt f0 empty_table None ∅.

Lemma cfg_names_ok : names_ok cfg.
Proof.
  split.
  - apply NoDup_singleton.
  - intros ? ->%list_elem_of_singleton. split; [reflexivity|discriminate|no_char].
  - intros ? ->%list_elem_of_singleton. apply NoDup_singleton.
  - intros ? ? ->%list_elem_of_singleton ->%list_elem_of_singleton. split; [reflexivity|discriminate|no_char].
Qed.
End Example_edge.


Lemma served_only_when_metered_witness :
  let '(resp, _, w') := rateLimit id 0 Example_edge.r Example_edge.next Example_edge.st ∅ Example_edge.w in
  rs_Status resp = 429 ∧ ∀ k, in_flight (ed_inflight w') k = in_flight (ed_inflight Example_edge.w) k.
Proof.
  pose proof (served_only_when_metered id 0 Example_edge.r Example_edge.next Example_edge.st ∅ Example_edge.w
    Example_edge.svc Example_edge.gold eq_refl eq_refl) as H.
  assert (E : rs_Status (rateLimit id 0 Example_edge.r Example_edge.next Example_edge.st ∅ Example_edge.w).1.1 = 429)
    by (vm_compute; reflexivity).
  destruct (rateLimit _ _ _ _ _ _ _) as [[resp st'] w']. split; [exact E|].
  apply H.
  - split; [|constructor]. split; intros ?; cbn; intros; exfalso; by rewrite lookup_empty in *.
  - vm_compute. reflexivity.
  - reflexivity.
Defined.

Lemma safety_refund_mismatch_witness :
  usage (LimiterLaws := Local_Laws (λ _, Minute)) Example_edge.f0 (stateKey Example_edge.c1) = 0 ∧
  usage (LimiterLaws := Local_Laws (λ _, Minute))
    (Reserve (Limiter0 := Fallback_Limiter Example_edge.rule) (tt, Example_edge.f0)
       [Example_edge.c1; Example_edge.c2]).2.2 (stateKey Example_edge.c1) = -9.
Proof.
  split; [vm_compute; reflexivity|].
  pose proof (safety_refund_mismatch (LimiterLaws0 := Local_Laws (λ _, Minute)) (λ p req, eq_refl) tt Example_edge.f0
    Example_edge.f1 Example_edge.f2 Example_edge.svc "GET" Example_edge.c1 Example_edge.c2 Example_edge.s1 Example_edge.s2
    (Example_edge.decision (Allow Example_edge.f0 Example_edge.s1))
    (Example_edge.decision (Allow Example_edge.f1 Example_edge.s2)) 0) as H.
  do 12 (specialize (H ltac:(first [reflexivity | vm_compute; split; discriminate | vm_compute; reflexivity]))).
  change (safetyRule Example_edge.svc "GET") with Example_edge.rule in H.
  destruct (Reserve _ _) as [res [p' f']]. destruct H as [_ H]. cbn [snd]. rewrite H. vm_compute. reflexivity.
Defined.
