(* ===== verification/EdgeCache.v ===== *)
(** * The edge's response cache ([packages/edge/cache.go])

    Cache keys from a template, the in-memory store of responses, and the step
    of the chain that answers GETs from it.  The store in Redis and the JSON
    form of a stored response are not modelled: the latter is a parameter. *)

From S2P Require Import Prelude Float64 Policies Config GoLib TtlCache Tiers Limiter Upstream Edge.
From Stdlib Require Import Ascii String.

Local Open Scope Z_scope.

(** ** Keys *)

Inductive cacheToken := tokenLiteral | tokenPath | tokenQuery | tokenAPIKey | tokenEncoding | tokenMethod.

Record cacheTemplatePart := mkPart { tp_token : cacheToken; tp_literal : string }.

Definition cache_tokens : list (string * cacheToken) :=
  [("path", tokenPath); ("query", tokenQuery); ("key", tokenAPIKey); ("enc", tokenEncoding); ("method", tokenMethod)].

(** The token a string that begins with a dollar sign begins with, and its
    length; [0] when it begins with none. *)
Fixpoint match_token (tokens : list (string * cacheToken)) (s : string) : cacheToken * nat :=
  match tokens with
  | [] => (tokenLiteral, O)
  | (name, token) :: tokens =>
      let n := S (length name) in
      if (n <=? length s)%nat && EqualFold (substring 1 (n - 1) s) name then (token, n)
      else match_token tokens s
  end.
Definition matchCacheToken : string → cacheToken * nat := match_token cache_tokens.

(** The loop of [compileCacheTemplate]: every round takes at least one
    character off the template. *)
Fixpoint compile_loop (fuel : nat) (tpl : string) : list cacheTemplatePart :=
  match fuel with
  | O => []
  | S fuel =>
      if (tpl =? "")%string then []
      else
        match IndexByte "$" tpl with
        | None => [mkPart tokenLiteral tpl]
        | Some dollar =>
            let before := substring 0 dollar tpl in
            let tpl := drop_str dollar tpl in
            (if (0 <? dollar)%nat then [mkPart tokenLiteral before] else []) ++
            match matchCacheToken tpl with
            | (_, O) => mkPart tokenLiteral "$" :: compile_loop fuel (drop_str 1 tpl)
            | (token, size) => mkPart token "" :: compile_loop fuel (drop_str size tpl)
            end
        end
  end.

Definition compileCacheTemplate (tpl : string) : list cacheTemplatePart :=
  let tpl := if (tpl =? "")%string then "$method:$path" else tpl in
  compile_loop (length tpl) tpl.

Definition fnv64a : string → Z := fnv 1099511628211 (2 ^ 64) 14695981039346656037.

(** [strconv.FormatUint(n, 16)], for 64-bit numbers. *)
Definition hex_digit (n : Z) : ascii :=
  ascii_of_nat (if n <? 10 then 48 + Z.to_nat n else 87 + Z.to_nat n).
Fixpoint hex_go (fuel : nat) (n : Z) (acc : string) : string :=
  match fuel with
  | O => acc
  | S fuel =>
      let acc := String (hex_digit (n `mod` 16)) acc in
      if n <? 16 then acc else hex_go fuel (n `div` 16) acc
  end.
Definition FormatHex (n : Z) : string := hex_go 16 n "".

Definition part_text (r : http_request) (apiKey : string) (p : cacheTemplatePart) : string :=
  match tp_token p with
  | tokenLiteral => tp_literal p
  | tokenPath => hq_Path r
  | tokenMethod => hq_Method r
  | tokenEncoding => header_get (hq_Header r) "Accept-Encoding"
  | tokenAPIKey => apiKey
  | tokenQuery => hq_Query r
  end.

(** What the hash is taken of. *)
Definition key_text (plan : list cacheTemplatePart) (r : http_request) (apiKey : string) : string :=
  foldr (λ p s, part_text r apiKey p +:+ s) "" plan.

Definition generateCacheKey (cfg : CacheConfig) (r : http_request) (apiKey : string) : string :=
  "c:" +:+ hq_Path r +:+ ":" +:+ FormatHex (fnv64a (key_text (compileCacheTemplate (cc_CacheKey cfg)) r apiKey)).

Definition scopePattern (prefix service : string) : string :=
  let p := "c:/" +:+ TrimPrefix prefix "/" in
  if (service =? "")%string then p else p +:+ "/" +:+ service.

(** ** The store in memory *)

Section store.
Variable range : gmap string (cacheEntry string) → list (string * cacheEntry string).

Definition responses_Get (c : ttlCache string) (key : string) (now : Z) : option string :=
  match ttl_get c key now with
  | Some (v, _, fresh) => if fresh then Some v else None
  | None => None
  end.

Definition responses_Set (c : ttlCache string) (key v : string) (ttl now : Z) : ttlCache string :=
  ttl_set range c key v ttl (Z.of_nat (length v + length key)) now.

Definition responses_Invalidate (c : ttlCache string) (prefix service : string) : ttlCache string :=
  ttl_delete range c (λ k, HasPrefix k (scopePattern prefix service)).
End store.

(** ** Copying a response *)

Record cacheWriter := mkCacheWriter {
  cw_status : Z;
  cw_buf : string;
  cw_overflow : bool;
}.

Definition cw_WriteHeader (cw : cacheWriter) (code : Z) : cacheWriter :=
  if (cw_status cw =? 0) && (200 <=? code) then mkCacheWriter code (cw_buf cw) (cw_overflow cw) else cw.

Definition cw_Write (limit : Z) (cw : cacheWriter) (b : string) : cacheWriter :=
  let status := if cw_status cw =? 0 then 200 else cw_status cw in
  if cw_overflow cw then mkCacheWriter status (cw_buf cw) true
  else if limit <? Z.of_nat (length (cw_buf cw) + length b) then mkCacheWriter status "" true
  else mkCacheWriter status (cw_buf cw +:+ b) false.

(** The copy of a whole response. *)
Definition copied (limit : Z) (resp : response) : cacheWriter :=
  foldl (cw_Write limit)
    (if rs_Status resp =? 0 then mkCacheWriter 0 "" false
     else cw_WriteHeader (mkCacheWriter 0 "" false) (rs_Status resp)) (rs_Body resp).

Definition cacheableStatus (code : Z) : bool :=
  bool_decide (code ∈ [200; 203; 204; 300; 301; 308; 404; 405; 410; 414; 501]).

Record CachedResponse := mkCached {
  ca_StatusCode : Z;
  ca_ContentType : string;
  ca_Body : string;
}.

(** ** The step *)

Section serve_from_cache.
Context {P F U : Type}.
Variable range : gmap string (cacheEntry string) → list (string * cacheEntry string).
(** [json.Marshal] and [json.Unmarshal] of a stored response. *)
Variable marshal : CachedResponse → string.
Variable unmarshal : string → option CachedResponse.
Variable maxBytes : Z. (* opts.MaxCacheableBytes *)

Definition CheckCache (store : ttlCache string) (cfg : CacheConfig) (r : http_request) (apiKey : string) (now : Z)
  : option CachedResponse :=
  match responses_Get store (generateCacheKey cfg r apiKey) now with
  | None => None
  | Some val =>
      match unmarshal val with
      | Some cached => if ca_StatusCode cached =? 0 then None else Some cached
      | None => None
      end
  end.

Definition SetCache (store : ttlCache string) (cfg : CacheConfig) (r : http_request) (apiKey : string) (now : Z)
  (cached : CachedResponse) : ttlCache string :=
  responses_Set range store (generateCacheKey cfg r apiKey) (marshal cached) (cc_TTL cfg) now.

Definition with_responses (w : edge P F U) (s : ttlCache string) : edge P F U :=
  mkEdge (ed_config w) (ed_tiers w) (ed_limiter w) (ed_safety w) (ed_inflight w) (Some s) (ed_pools w).

(** [now] is the time of the lookup, [later] of the storing. *)
Definition serveFromCache (now later : Z) (r : http_request) (next : step) : step (W := edge P F U) := λ st h w,
  match st_svc st with
  | None => (aborted, st, w)
  | Some svc =>
      match ed_responses w, sv_Cache svc with
      | Some store, Some cfg =>
          if negb (hq_Method r =? "GET")%string || negb (cc_Enabled cfg) then next st h w
          else
            match CheckCache store cfg r (st_key st) now with
            | Some cached =>
                let h := header_set h "X-Cache" "HIT" in
                let h := if (ca_ContentType cached =? "")%string then h
                         else header_set h "Content-Type" (ca_ContentType cached) in
                (mkResponse (ca_StatusCode cached) h [ca_Body cached], st, w)
            | None =>
                let '(resp, st, w) := next st (header_set h "X-Cache" "MISS") w in
                let cw := copied maxBytes resp in
                if cacheableStatus (cw_status cw) && negb (cw_overflow cw) && negb (st_upstreamFailed st)
                then
                  match ed_responses w with
                  | Some store =>
                      (resp, st, with_responses w (SetCache store cfg r (st_key st) later
                         (mkCached (cw_status cw) (header_get (rs_Header resp) "Content-Type") (cw_buf cw))))
                  | None => (resp, st, w)
                  end
                else (resp, st, w)
            end
      | _, _ => next st h w
      end
  end.
End serve_from_cache.

(** ** Replay *)

Definition body_text (b : list string) : string := foldr (λ x s, x +:+ s) "" b.

Lemma app_nil_r_str (a : string) : a +:+ "" = a.
Proof. induction a as [|c a IH]; [done|]. by rewrite app_cons_str, IH. Qed.

Lemma cw_Write_all limit cw (b : list string) :
  cw_status cw ≠ 0 → cw_overflow cw = false → Z.of_nat (length (cw_buf cw)) ≤ limit →
  foldl (cw_Write limit) cw b =
    if limit <? Z.of_nat (length (cw_buf cw) + length (body_text b)) then mkCacheWriter (cw_status cw) "" true
    else mkCacheWriter (cw_status cw) (cw_buf cw +:+ body_text b) false.
Proof.
  assert (Hov : ∀ s, s ≠ 0 → ∀ b, foldl (cw_Write limit) (mkCacheWriter s "" true) b = mkCacheWriter s "" true).
  { intros s Hs b'. induction b' as [|x b' IH]; [done|]. cbn [foldl].
    assert (E : cw_Write limit (mkCacheWriter s "" true) x = mkCacheWriter s "" true)
      by (unfold cw_Write; cbn; by rewrite (proj2 (Z.eqb_neq _ _) Hs)). by rewrite E. }
  revert cw. induction b as [|x b IH]; intros cw Hs Ho Hl.
  - cbn. rewrite Nat.add_0_r, app_nil_r_str, (proj2 (Z.ltb_ge _ _)) by lia. destruct cw. cbn in *. by subst.
  - cbn [foldl body_text foldr]. unfold cw_Write at 2. rewrite Ho, (proj2 (Z.eqb_neq _ _) Hs), length_app_str.
    destruct (Z.ltb_spec limit (Z.of_nat (length (cw_buf cw) + length x))) as [Hlt|Hge].
    + rewrite Hov by done. rewrite (proj2 (Z.ltb_lt _ _)) by (unfold body_text; lia). done.
    + rewrite IH by (cbn; rewrite ?length_app_str; lia || done). cbn. rewrite length_app_str.
      unfold body_text. rewrite Nat.add_assoc. by rewrite app_assoc_str.
Qed.

Lemma copied_spec limit resp :
  0 ≤ limit → 200 ≤ rs_Status resp →
  copied limit resp =
    if limit <? Z.of_nat (length (body_text (rs_Body resp))) then mkCacheWriter (rs_Status resp) "" true
    else mkCacheWriter (rs_Status resp) (body_text (rs_Body resp)) false.
Proof.
  intros Hl Hs. unfold copied. rewrite (proj2 (Z.eqb_neq _ _)) by lia. unfold cw_WriteHeader. cbn.
  rewrite (proj2 (Z.leb_le _ _)) by lia. rewrite cw_Write_all by (cbn; lia || done). done.
Qed.

Section replay.
Context {P F U : Type}.
Variable range : gmap string (cacheEntry string) → list (string * cacheEntry string).
Variable marshal : CachedResponse → string.
Variable unmarshal : string → option CachedResponse.
Variable maxBytes : Z.
(** JSON gives back what was stored. *)
Hypothesis json_round_trip : ∀ c, unmarshal (marshal c) = Some c.
Hypothesis maxBytes_ok : 0 ≤ maxBytes.

Abbreviation cache_step := (serveFromCache (P := P) (F := F) (U := U) range marshal unmarshal maxBytes).

(** The response may be stored. *)
Definition storable (resp : response) (st : request) : Prop :=
  cacheableStatus (rs_Status resp) = true ∧ Z.of_nat (length (body_text (rs_Body resp))) ≤ maxBytes ∧
  st_upstreamFailed st = false.

(** What is stored of it. *)
Definition cached_of (resp : response) : CachedResponse :=
  mkCached (rs_Status resp) (header_get (rs_Header resp) "Content-Type") (body_text (rs_Body resp)).

Definition hit_of (c : CachedResponse) (h : Header) : response :=
  mkResponse (ca_StatusCode c)
    (let h := header_set h "X-Cache" "HIT" in
     if (ca_ContentType c =? "")%string then h else header_set h "Content-Type" (ca_ContentType c)) [ca_Body c].

Lemma storable_copied resp st :
  200 ≤ rs_Status resp →
  cacheableStatus (cw_status (copied maxBytes resp)) && negb (cw_overflow (copied maxBytes resp))
    && negb (st_upstreamFailed st) = true ↔ storable resp st.
Proof using maxBytes_ok.
  intros Hs. rewrite copied_spec by done. unfold storable.
  rewrite !andb_true_iff, !negb_true_iff. destruct (Z.ltb_spec maxBytes (Z.of_nat (length (body_text (rs_Body resp))))); cbn [cw_status cw_overflow negb].
  - split; [by intros [[_ ?] _]|lia].
  - split; [intros [[? _] ?]|intros (? & _ & ?)]; done.
Qed.

Lemma cacheable_nonzero code : cacheableStatus code = true → code ≠ 0.
Proof. intros H ->. by vm_compute in H. Qed.

End replay.

(** ** Templates *)

Definition token_name (t : cacheToken) : string :=
  match t with
  | tokenLiteral => ""
  | tokenPath => "path" | tokenQuery => "query" | tokenAPIKey => "key"
  | tokenEncoding => "enc" | tokenMethod => "method"
  end.

(** The text of a part in a template. *)
Definition part_source (p : cacheTemplatePart) : string :=
  match tp_token p with tokenLiteral => tp_literal p | t => String "$" (token_name t) end.

Definition plan_source (plan : list cacheTemplatePart) : string := foldr (λ p s, part_source p +:+ s) "" plan.

Lemma ToLower_app a b : ToLower (a +:+ b) = ToLower a +:+ ToLower b.
Proof. induction a as [|c a IH]; [done|]. rewrite app_cons_str. cbn [ToLower]. by rewrite IH. Qed.

Lemma take_drop_str n s : substring 0 n s +:+ drop_str n s = s.
Proof.
  revert s. induction n as [|n IH]; intros [|c s]; try done. cbn [substring drop_str].
  by rewrite app_cons_str, IH.
Qed.

Lemma length_drop_str n s : length (drop_str n s) = (length s - n)%nat.
Proof. revert s. induction n as [|n IH]; intros [|c s]; try done. cbn [drop_str]. by rewrite IH. Qed.

Lemma IndexByte_drop c s d :
  IndexByte c s = Some d → ∃ rest, drop_str d s = String c rest ∧ (d + S (length rest) = length s)%nat.
Proof.
  revert d. induction s as [|x s IH]; cbn; intros d H; [done|].
  destruct (Ascii.eqb_spec c x) as [->|Hne].
  - injection H as <-. by exists s.
  - destruct (IndexByte c s) as [d'|]; [|done]. injection H as <-. destruct (IH d' eq_refl) as (rest & E & Hl).
    exists rest. split; [done|]. lia.
Qed.

Lemma match_token_spec tokens s tok n :
  match_token tokens s = (tok, S n) →
  ∃ name, (name, tok) ∈ tokens ∧ n = length name ∧ (S n ≤ length s)%nat ∧ ToLower (substring 1 n s) = ToLower name.
Proof.
  induction tokens as [|[name t] tokens IH]; cbn [match_token]; intros H; [done|].
  destruct ((S (length name) <=? length s)%nat && _) eqn:E.
  - injection H as <- <-. apply andb_true_iff in E as [E1 E2]. rewrite Nat.leb_le in E1.
    apply String.eqb_eq in E2. cbn [Nat.sub] in E2. rewrite Nat.sub_0_r in E2.
    exists name. split; [left|]. done.
  - destruct (IH H) as (nm & Hin & Hrest). exists nm. split; [by right|done].
Qed.

Lemma cache_tokens_source name tok :
  (name, tok) ∈ cache_tokens → tok ≠ tokenLiteral ∧ token_name tok = name ∧ ToLower name = name.
Proof.
  unfold cache_tokens. intros H. repeat (apply elem_of_cons in H as [[= -> ->]|H]; [done|]).
  by apply elem_of_nil in H.
Qed.

(** A compiled template is the template, part for part (upper and lower case in
    the names of tokens apart); in particular the loop has rounds enough. *)
Lemma compile_source fuel tpl :
  (length tpl ≤ fuel)%nat → ToLower (plan_source (compile_loop fuel tpl)) = ToLower tpl.
Proof.
  revert tpl. induction fuel as [|fuel IH]; intros tpl Hf; [by destruct tpl; cbn in *; [|lia]|].
  cbn [compile_loop]. destruct (String.eqb_spec tpl "") as [->|Hne]; [done|].
  destruct (IndexByte "$" tpl) as [d|] eqn:Ed; [|cbn; by rewrite app_nil_r_str].
  destruct (IndexByte_drop _ _ _ Ed) as (rest & Er & Hl). rewrite Er. cbn [drop_str].
  assert (Hpre : ∀ plan, ToLower (plan_source plan) = ToLower (String "$" rest) →
    ToLower (plan_source ((if (0 <? d)%nat then [mkPart tokenLiteral (substring 0 d tpl)] else []) ++ plan)) = ToLower tpl).
  { intros plan Hplan. rewrite <-(take_drop_str d tpl) at 2. rewrite Er, ToLower_app, <-Hplan.
    destruct d as [|d]; [by destruct tpl|]. cbn [Nat.ltb Nat.leb app plan_source foldr part_source tp_token tp_literal].
    by rewrite ToLower_app. }
  destruct (matchCacheToken (String "$" rest)) as [tok [|n]] eqn:Em; apply Hpre.
  - cbn [plan_source foldr]. rewrite ToLower_app. fold (plan_source (compile_loop fuel rest)).
    rewrite IH by lia. done.
  - apply match_token_spec in Em as (name & Hin & -> & Hle & Hlow).
    destruct (cache_tokens_source _ _ Hin) as (Htok & Hname & Hself). cbn [drop_str].
    cbn [plan_source foldr]. rewrite ToLower_app. fold (plan_source (compile_loop fuel (drop_str (length name) rest))).
    rewrite IH by (rewrite length_drop_str; lia).
    assert (Hsrc : part_source (mkPart tok "") = String "$" name) by (by destruct tok; cbn in *; subst).
    rewrite Hsrc. cbn [ToLower]. rewrite app_cons_str. f_equal.
    assert (Hsub : substring 1 (length name) (String "$" rest) = substring 0 (length name) rest) by done.
    rewrite Hsub in Hlow. rewrite <-Hlow, <-ToLower_app. by rewrite take_drop_str.
Qed.

(** ** Example *)

Module Example_cache.
#[local] Instance CachedResponse_eq_dec : EqDecision CachedResponse.
Proof. solve_decision. Defined.
#[local] Instance CachedResponse_countable : Countable CachedResponse.
Proof.
  by apply (inj_countable' (λ c, (ca_StatusCode c, ca_ContentType c, ca_Body c)) (λ x, mkCached x.1.1 x.1.2 x.2)); intros [].
Defined.
Fixpoint bits (p : positive) : string :=
  match p with xH => "" | xO p => String "0" (bits p) | xI p => String "1" (bits p) end.
Fixpoint unbits (s : string) : positive :=
  match s with EmptyString => xH | String c s => if (c =? "0")%char then xO (unbits s) else xI (unbits s) end.
Definition marshal (c : CachedResponse) : string := bits (encode c).
Definition unmarshal (s : string) : option CachedResponse := decode (unbits s).
Lemma json_ok c : unmarshal (marshal c) = Some c.
Proof.
  unfold unmarshal, marshal. assert (E : ∀ p, unbits (bits p) = p) by (by induction p as [p IH|p IH|]; cbn; rewrite ?IH).
  rewrite E. apply decode_encode.
Qed.
Definition cfg : CacheConfig := mkCacheConfig true Minute "$path?$query".
Definition plain : ServiceConfig := plain_service "api" "http://up" [] None [] (mkLeasePolicy "" 0 0 0) None.
Definition svc : ServiceConfig :=
  mkService "api" "http://up" [] None (sv_Transform plain) None (sv_Analytics plain) (Some cfg) no_failure_config
    [] "" None (sv_Auth plain) 0 [] "" 0 0 [] None false None (sv_Lease plain) None.
Definition r : http_request := mkHttpRequest "GET" "/v1/api/x" "q=1" "gw" "10.0.0.1:99" ∅.
Definition st (key : string) : request := mkState "v1" "api" (Some svc) None key None "" "" false 0.
Definition next : @step (edge unit unit string) :=
  λ st h w, (mkResponse 200 (header_set h "Content-Type" "text/plain") ["hello, "; "world"], st, w).
Definition store : ttlCache string := newTTLCache 1000000.
Definition w : edge unit unit string :=
  mkEdge (Apply (mkGateway [] DefaultRuntimePolicy [])) NewTierCache tt tt empty_table (Some store) ∅.
Definition range : gmap string (cacheEntry string) → list (string * cacheEntry string) := map_to_list.
End Example_cache.

