(* ===== verification/RedisResponses.v ===== *)
(** * Cached responses in Redis ([packages/edge/cache.go])

    The response store an edge keeps in a Redis of its own instead of in
    memory.  The server is a table of values with the time they expire at; what
    becomes of a command, the pages a SCAN iteration returns and the writes of
    other requests between them are inputs.  SCAN promises that a full
    iteration returns every matching key that was present from its start to
    its end. *)

From S2P Require Import Prelude Float64 Policies Config GoLib TtlCache Tiers Limiter Upstream Edge EdgeCache.

Local Open Scope Z_scope.

Record redis_entry := mkRedisEntry { re_value : string; re_expires : option Z }.
Notation redis_store := (gmap string redis_entry).

(** A command is carried out, carried out with its answer lost, or not
    carried out. *)
Inductive redis_outcome := Carried | AnswerLost | NotCarried.
Definition carried {A} (c : redis_outcome) (old new : A) : A := match c with NotCarried => old | _ => new end.
Definition answered (c : redis_outcome) : bool := match c with Carried => true | _ => false end.

(** [Get]: the value, whether there is one, whether there was an error. *)
Definition redis_Get (c : redis_outcome) (now : Z) (st : redis_store) (key : string) : option string * bool :=
  if answered c then
    (match st !! key with
     | Some e => if default true ((λ t, now <? t) <$> re_expires e) then Some (re_value e) else None
     | None => None
     end, false)
  else (None, true).

(** [Set]; [expires]: when a value stored now for a time to live expires. *)
Definition redis_Set (expires : Z → option Z) (c : redis_outcome) (st : redis_store) (key v : string) (ttl : Z) : redis_store * bool :=
  (carried c st (<[key := mkRedisEntry v (expires ttl)]> st), negb (answered c)).

(** A turn of [Invalidate]: what others have written before it, the reply to
    SCAN (the keys and the next cursor; [None]: an error), and what becomes of
    DEL. *)
Record turn := mkTurn { tn_written : list (string * redis_entry); tn_scan : option (list string * Z); tn_del : redis_outcome }.

Definition write_all (st : redis_store) (l : list (string * redis_entry)) : redis_store := foldl (λ m kv, <[fst kv := snd kv]> m) st l.
Definition delete_all (st : redis_store) (keys : list string) : redis_store := foldl (λ m k, delete k m) st keys.

(** [Invalidate]: whether it ended without an error ([None]: it has not
    ended), and the store. *)
Fixpoint redis_Invalidate (st : redis_store) (turns : list turn) : option bool * redis_store :=
  match turns with
  | [] => (None, st)
  | t :: turns =>
      let st := write_all st (tn_written t) in
      match tn_scan t with
      | None => (Some false, st)
      | Some (keys, next) =>
          let '(ok, st) := if bool_decide (keys = []) then (true, st) else (answered (tn_del t), carried (tn_del t) st (delete_all st keys)) in
          if negb ok then (Some false, st) else if next =? 0 then (Some true, st) else redis_Invalidate st turns
      end
  end.

(** The turns an iteration takes: up to the cursor 0. *)
Fixpoint iteration (turns : list turn) : list turn :=
  match turns with
  | [] => []
  | t :: turns => t :: (match tn_scan t with Some (_, next) => if next =? 0 then [] else iteration turns | None => [] end)
  end.
Definition scanned (turns : list turn) : list string := iteration turns ≫= λ t, match tn_scan t with Some (keys, _) => keys | None => [] end.
Definition written (turns : list turn) : list (string * redis_entry) := iteration turns ≫= tn_written.

(** ** Properties *)

Lemma write_all_app st l l' : write_all st (l ++ l') = write_all (write_all st l) l'.
Proof. apply foldl_app. Qed.
Lemma write_all_other st l k : k ∉ l.*1 → write_all st l !! k = st !! k.
Proof.
  revert st. induction l as [|[k' e] l IH]; intros st Hk; [done|]. cbn in *. apply not_elem_of_cons in Hk as [Hne Hk].
  rewrite IH by done. by apply lookup_insert_ne.
Qed.
Lemma write_all_ext st st' l k : st !! k = st' !! k → write_all st l !! k = write_all st' l !! k.
Proof.
  revert st st'. induction l as [|[k' e] l IH]; intros st st' Hk; [done|]. apply IH. cbn [fst snd].
  destruct (decide (k' = k)) as [->|Hne]; [by rewrite !lookup_insert_eq|by rewrite !lookup_insert_ne].
Qed.
Lemma delete_all_lookup st keys k : delete_all st keys !! k = if decide (k ∈ keys) then None else st !! k.
Proof.
  revert st. induction keys as [|k' keys IH]; intros st; [by rewrite decide_False by apply not_elem_of_nil|].
  cbn. rewrite IH. destruct (decide (k' = k)) as [->|Hne].
  - rewrite (decide_True (P := k ∈ k :: keys)) by set_solver. case_decide; [done|]. apply lookup_delete_eq.
  - rewrite lookup_delete_ne by done. case_decide; case_decide; set_solver.
Qed.

(** One turn that neither fails nor ends the iteration, or ends it. *)
Lemma redis_Invalidate_ok st t turns :
  fst (redis_Invalidate st (t :: turns)) = Some true →
  ∃ keys next, tn_scan t = Some (keys, next) ∧
    let st' := delete_all (write_all st (tn_written t)) keys in
    redis_Invalidate st (t :: turns) = if next =? 0 then (Some true, st') else redis_Invalidate st' turns.
Proof.
  cbn. destruct (tn_scan t) as [[keys next]|]; [|done]. intros H. exists keys, next. split; [done|].
  case_bool_decide; [by subst|]. destruct (tn_del t); cbn in *; done.
Qed.

(** Over an iteration that ends without an error, a key survives only by
    being written or by not being scanned. *)
Lemma redis_Invalidate_lookup st turns k :
  fst (redis_Invalidate st turns) = Some true → k ∉ (written turns).*1 →
  snd (redis_Invalidate st turns) !! k = if decide (k ∈ scanned turns) then None else st !! k.
Proof.
  revert st. induction turns as [|t turns IH]; intros st Hok Hw; [done|].
  destruct (redis_Invalidate_ok st t turns Hok) as (keys & next & Hs & E). cbn zeta in E. rewrite E in Hok |- *.
  unfold written, scanned in *. cbn [iteration] in *. rewrite Hs in *. cbn [mbind list_bind] in *. rewrite Hs. rewrite fmap_app in Hw.
  apply not_elem_of_app in Hw as [Hw1 Hw2]. destruct (next =? 0).
  - cbn [snd list_bind app]. rewrite app_nil_r, delete_all_lookup, write_all_other by done. done.
  - rewrite IH by done. rewrite delete_all_lookup, write_all_other by done.
    match goal with |- (if decide (k ∈ ?l) then _ else _) = _ => generalize l end. intros l.
    destruct (decide (k ∈ l)), (decide (k ∈ keys)), (decide (k ∈ keys ++ l)) as [H|H]; rewrite elem_of_app in H; tauto || done.
Qed.

Lemma redis_Invalidate_kept st turns k :
  fst (redis_Invalidate st turns) = Some true → k ∉ scanned turns →
  snd (redis_Invalidate st turns) !! k = write_all st (written turns) !! k.
Proof.
  revert st. induction turns as [|t turns IH]; intros st Hok Hk; [done|].
  destruct (redis_Invalidate_ok st t turns Hok) as (keys & next & Hs & E). cbn zeta in E. rewrite E in Hok |- *.
  unfold written, scanned in *. cbn [iteration] in *. rewrite Hs in *. cbn [mbind list_bind] in *. rewrite Hs in Hk.
  apply not_elem_of_app in Hk as [Hk1 Hk2]. rewrite write_all_app.
  destruct (next =? 0).
  - cbn [snd list_bind]. by rewrite delete_all_lookup, decide_False.
  - rewrite IH by done. apply write_all_ext. by rewrite delete_all_lookup, decide_False.
Qed.

(** An invalidation that reports success has dropped every response that was
    stored under the scope when it began, except where another request has
    stored a newer one meanwhile, and has left every other response alone, as
    the store in memory does. *)
Theorem redis_invalidates prefix service st turns :
  let under k := HasPrefix k (scopePattern prefix service) = true in
  fst (redis_Invalidate st turns) = Some true →
  (∀ k, k ∈ scanned turns → under k) → (∀ k, under k → is_Some (st !! k) → k ∈ scanned turns) →
  (∀ k, under k → k ∉ (written turns).*1 → snd (redis_Invalidate st turns) !! k = None) ∧
  (∀ k, ¬ under k → snd (redis_Invalidate st turns) !! k = write_all st (written turns) !! k).
Proof.
  intros under Hok Hsound Hfull. split; intros k Hk.
  - intros Hw. rewrite redis_Invalidate_lookup by done. case_decide as Hs; [done|].
    destruct (st !! k) eqn:E; [|done]. exfalso. apply Hs, Hfull; [done|by rewrite E].
  - apply redis_Invalidate_kept; [done|]. intros Hs. by apply Hk, Hsound.
Qed.

(** A value stored is read until it expires. *)
Lemma redis_get_set expires st key v ttl now :
  (∀ t, expires ttl = Some t → now < t) →
  redis_Get Carried now (fst (redis_Set expires Carried st key v ttl)) key = (Some v, false).
Proof.
  intros H. unfold redis_Get, redis_Set. cbn. rewrite lookup_insert_eq. cbn.
  destruct (expires ttl) as [t|]; [|done]. cbn. by rewrite (proj2 (Z.ltb_lt _ _) (H t eq_refl)).
Qed.

(** Two turns, between which another request stores a response anew. *)
Example redis_invalidates_example :
  let e v := mkRedisEntry v None in
  let st : redis_store := {[ "c:/v1/echo/a" := e "1"; "c:/v1/echo/b" := e "2"; "c:/v1/other/c" := e "3" ]} in
  redis_Invalidate st [mkTurn [] (Some (["c:/v1/echo/a"], 7)) Carried; mkTurn [("c:/v1/echo/a", e "4")] (Some (["c:/v1/echo/b"], 0)) Carried]
  = (Some true, {[ "c:/v1/echo/a" := e "4"; "c:/v1/other/c" := e "3" ]}).
Proof. reflexivity. Qed.
