(* ===== verification/Gateway.v ===== *)
(** * The gateway ([packages/edge/proxy.go], [server.go])

    The end of the chain, which proxies to an upstream replica, and the chain
    itself.  [httputil.ReverseProxy] is not modelled beyond what the sources
    give it: the headers it starts from, the attempts and the final answer are
    parameters. *)

From S2P Require Import Prelude Float64 Policies Config GoLib TtlCache Tiers Limiter Upstream Edge Reserve EdgeLimits EdgeCache EdgeProps.
From Stdlib Require Import Ascii.

Local Open Scope Z_scope.

(** ** Headers ([rewrite], [modifyResponse]) *)

(** The headers sent to the upstream, from those [ReverseProxy] starts with;
    [adds] is the map of headers to add, in the order Go ranges over it. *)
Definition rewrite_headers (out : Header) (adds : list (string * string)) (hide : list string) : Header :=
  let h := header_del out "X-API-Key" in
  let h := filter (λ kv, HasPrefix (CanonicalHeaderKey kv.1) "X-Gate-" = false) h in
  let h := foldl (λ h kv, header_set h kv.1 kv.2) h adds in
  foldl header_del h hide.

Definition modify_headers (h : Header) (hide : list string) : Header :=
  header_del (foldl header_del h hide) "X-Request-Id".

(** [captureCost]: the cost the upstream reported, in a header or else in a
    trailer. *)
Definition captureCost (st : request) (svc : ServiceConfig) (h trailer : Header) : request :=
  match sv_Cost svc with
  | None => st
  | Some c =>
      if (cp_ActualHeader c =? "")%string then st
      else
        match parseCost (header_get h (cp_ActualHeader c)) with
        | Some v => set_actual st v
        | None =>
            match parseCost (header_get trailer (cp_ActualHeader c)) with
            | Some v => set_actual st v
            | None => st
            end
        end
  end.

(** ** Failures *)

Definition bodyError (h : Header) (tooLarge : option Z) : response :=
  match tooLarge with
  | Some limit => WriteProblem h 413 "body_too_large"
                    ("request bodies are limited to " +:+ itoa limit +:+ " bytes")
  | None => WriteProblem h 400 "bad_body" "the request body could not be read"
  end.

Definition set_upstreamFailed (st : request) : request :=
  mkState (st_scope st) (st_service st) (st_svc st) (st_prefix st) (st_key st) (st_tier st) (st_org st)
    (st_clientIP st) true (st_actual st).

(** The service's failure policy, once retries are exhausted; [canceled] when
    the client went away. *)
Definition proxyError (range : gmap string string → list (string * string)) (svc : ServiceConfig) (h : Header)
  (canceled : bool) (e : uerror) : response :=
  let p := EffectiveUpstreamPolicy (sv_Failure svc) in
  let failed :=
    if canceled then mkResponse 0 h []
    else if (uf_Mode p =? "fail-open")%string then
      let h := header_set h "X-Upstream-Error" "true" in
      let h := foldl (λ h kv, header_set h kv.1 kv.2) h (range (uf_FallbackHeaders p)) in
      mkResponse (uf_FallbackStatusCode p) h [uf_FallbackBody p]
    else
      match e with
      | ErrAttempt DeadlineExceeded | ErrCanceled =>
          WriteProblem h 504 "upstream_timeout" "the upstream service did not respond in time"
      | ErrCircuitOpen =>
          WriteProblem (header_set h "Retry-After" "1") 503 "upstream_circuit_open"
            "every replica of the upstream is failing; retry shortly"
      | _ => WriteProblem h 502 "upstream_unavailable" "the upstream service failed"
      end in
  match e with
  | ErrAttempt (BodyTooLarge limit) => bodyError h (Some limit)
  | _ => failed
  end.

(** ** The end of the chain *)

Record upstream_answer := mkAnswer { ua_Header : Header; ua_Body : list string; ua_Trailer : Header }.

Section forward.
Context {P F U : Type}.
Variable url_Parse : string → option U.
Variable url_Host : U → string.
Variable range : gmap string string → list (string * string).
Variable maxRequestBody : Z.   (* opts.MaxRequestBodyBytes *)
Variable r : http_request.
Variable body : option Z.      (* the length of the request's body *)
Variable now : Z.
Variable answers : nat → attempt.
Variable others : nat → pool U → pool U.
Variable final : upstream_answer.
Variable canceled : bool.

Definition with_pools (w : edge P F U) (pools : gmap string (pool U)) : edge P F U :=
  mkEdge (ed_config w) (ed_tiers w) (ed_limiter w) (ed_safety w) (ed_inflight w) (ed_responses w) pools.

Definition body_limit (svc : ServiceConfig) : Z :=
  if 0 <? sv_MaxBodyBytes svc then sv_MaxBodyBytes svc else maxRequestBody.

(** Whether the body is buffered so that it can be sent again. *)
Definition buffered (svc : ServiceConfig) : bool :=
  let p := fc_Upstream (sv_Failure svc) in
  bool_decide (is_Some body) && (0 <? uf_MaxRetries p) && retryable (hq_Method r) p.

Definition forward : step (W := edge P F U) := λ st h w,
  match st_svc st with
  | None => (aborted, st, w)
  | Some svc =>
      match poolFor url_Parse url_Host (ed_pools w) (label st) svc with
      | None => (WriteProblem h 502 "bad_upstream" "the service's upstream URL is invalid", st, w)
      | Some (p, pools) =>
          let '(t, p) := pick p now None in
          let fails e := (proxyError range svc h canceled e, set_upstreamFailed st) in
          match t with
          | None => (fails ErrCircuitOpen, with_pools w (<[label st := p]> pools))
          | Some t =>
              if buffered svc && (body_limit svc <? default 0 body)
              then (bodyError h (Some (body_limit svc)), st, with_pools w (<[label st := p]> pools))
              else
                let replayable := buffered svc || bool_decide (body = None) in
                let '(_, res, busy, p) :=
                  RoundTrip (EffectiveUpstreamPolicy (sv_Failure svc)) answers others p (hq_Method r) replayable t in
                let p := (onClose_Close p busy).2 in
                let w := with_pools w (<[label st := p]> pools) in
                match res with
                | Err e => (fails e, w)
                | Ok code =>
                    (mkResponse code (h ∪ modify_headers (ua_Header final) (tf_HideHeaders (sv_Transform svc)))
                       (ua_Body final),
                     captureCost st svc (ua_Header final) (ua_Trailer final), w)
                end
          end
      end
  end.
End forward.

(** ** The chain ([server.go]) *)

Definition chain {W} (h : @step W) (mw : list (@step W → @step W)) : @step W := foldr (λ m h, m h) h mw.

Section gateway.
Context {P F U : Type} `{!Limiter P, !Limiter F}.
Variable range_tiers : gmap string (cacheEntry tierEntry) → list (string * cacheEntry tierEntry).
Variable range_responses : gmap string (cacheEntry string) → list (string * cacheEntry string).
Variable Hash : string → string.
Variable validKey : GatewayConfig → string → bool.
Variable jwt_verify : JWTConfig → string → option (gmap string string).
Variable lookup_tier : string → string → result string string.
Variable marshal : CachedResponse → string.
Variable unmarshal : string → option CachedResponse.
Variable maxCacheable : Z.
Variable r : http_request.
(** The clock, when each step reads it. *)
Variable now : nat → Z.

Definition gateway (idx : configIndex) (forward : @step (edge P F U)) : @step (edge P F U) :=
  chain forward
    [ route r idx;
      cors r;
      authenticate range_tiers Hash validKey jwt_verify lookup_tier (now 0) r;
      serveFromCache range_responses marshal unmarshal maxCacheable (now 1) (now 2) r;
      rateLimit Hash (now 3) r ].

Definition holdUntilStarted (startupReady : bool) (pending : string) (next : @step (edge P F U))
  : @step (edge P F U) := λ st h w,
  if negb startupReady
  then (WriteProblem (header_set h "Retry-After" "5") 503 "starting" ("edge is waiting for " +:+ pending), st, w)
  else next st h w.
End gateway.

(** ** What reaches an upstream *)

Section reaching.
Context {W : Type}.
Implicit Types (m : @step W → @step W).

(** A step that answers by itself, whatever comes after it. *)
Definition answers_itself m st h w : Prop := ∃ out, ∀ next, m next st h w = out.

(** A step that calls the next one, once, and works on its outcome. *)
Definition calls m st h w st' h' w' : Prop := ∃ finish, ∀ next, m next st h w = finish (next st' h' w').

Lemma calls_comp m m' st h w st1 h1 w1 st2 h2 w2 :
  calls m st h w st1 h1 w1 → calls m' st1 h1 w1 st2 h2 w2 → calls (λ next, m (m' next)) st h w st2 h2 w2.
Proof. intros [k Hk] [k' Hk']. exists (λ o, k (k' o)). intros next. by rewrite Hk, Hk'. Qed.

Lemma answers_comp m m' st h w st1 h1 w1 :
  calls m st h w st1 h1 w1 → answers_itself m' st1 h1 w1 → answers_itself (λ next, m (m' next)) st h w.
Proof. intros [k Hk] [o Ho]. exists (k o). intros next. by rewrite Hk, Ho. Qed.

Lemma answers_first m m' st h w : answers_itself m st h w → answers_itself (λ next, m (m' next)) st h w.
Proof. intros [o Ho]. by exists o. Qed.

Lemma calls_here m st h w st' h' w' : (∀ next, m next st h w = next st' h' w') → calls m st h w st' h' w'.
Proof. intros H. by exists (λ o, o). Qed.
End reaching.

Section metered_chain.
Context {P F U : Type} `{!Limiter P, !Limiter F}.
Variable range_tiers : gmap string (cacheEntry tierEntry) → list (string * cacheEntry tierEntry).
Variable range_responses : gmap string (cacheEntry string) → list (string * cacheEntry string).
Variable Hash : string → string.
Variable validKey : GatewayConfig → string → bool.
Variable jwt_verify : JWTConfig → string → option (gmap string string).
Variable lookup_tier : string → string → result string string.
Variable marshal : CachedResponse → string.
Variable unmarshal : string → option CachedResponse.
Variable maxCacheable : Z.
Variable r : http_request.
Variable now : nat → Z.
Implicit Types (w : edge P F U) (st : request) (h : Header).

Lemma route_calls idx st h w :
  answers_itself (route r idx) st h w ∨
  ∃ svc, GetServiceConfig idx (splitRoute (hq_Path r)).1 (splitRoute (hq_Path r)).2 = Some svc ∧
    calls (route r idx) st h w
      (mkState (splitRoute (hq_Path r)).1 (splitRoute (hq_Path r)).2 (Some svc)
         (GetPrefix idx (splitRoute (hq_Path r)).1) (st_key st) (st_tier st) (st_org st) (st_clientIP st)
         (st_upstreamFailed st) (st_actual st)) h w.
Proof.
  unfold route, answers_itself. destruct (splitRoute (hq_Path r)) as [scope service]. cbn [fst snd].
  destruct (scope =? "")%string; [left; by eexists|].
  destruct (GetServiceConfig idx scope service) as [svc|]; [|left; by eexists].
  destruct (negb (sv_Host svc =? "")%string && _); [left; by eexists|].
  destruct (negb (bool_decide (sv_Methods svc = [])) && _ && _); [left; by eexists|].
  right. exists svc. split; [done|]. by apply calls_here.
Qed.

Lemma cors_calls st h w svc :
  st_svc st = Some svc → answers_itself (cors r) st h w ∨ ∃ h', calls (cors r) st h w st h' w.
Proof.
  intros Hs. unfold cors, answers_itself, calls. rewrite Hs. destruct (sv_CORS svc) as [c|].
  - destruct (negb (hq_Method r =? "OPTIONS")%string); [right|left; by eexists].
    eexists. by exists (λ o, o).
  - right. exists h. by exists (λ o, o).
Qed.

Abbreviation authenticate_r := (authenticate (P := P) (F := F) (U := U) range_tiers Hash validKey jwt_verify lookup_tier (now 0) r).
Abbreviation identify_r := (identify range_tiers Hash validKey jwt_verify lookup_tier (now 0) r).

Lemma authenticate_calls st h w svc :
  st_svc st = Some svc →
  answers_itself authenticate_r st h w ∨
  ∃ id t tier,
    identify_r st svc h (clientIP r) (ci_cfg (ed_config w)) (ed_tiers w) = (inr id, t) ∧
    edge_GetTier svc (id_tier id) = Some tier ∧
    calls authenticate_r st h w
      (mkState (st_scope st) (st_service st) (Some svc) (st_prefix st) (id_key id) (Some tier) (id_org id)
         (clientIP r) (st_upstreamFailed st) (st_actual st)) h
      (mkEdge (ed_config w) t (ed_limiter w) (ed_safety w) (ed_inflight w) (ed_responses w) (ed_pools w)).
Proof.
  intros Hs. unfold authenticate, answers_itself, calls. rewrite Hs.
  destruct (identify _ _ _ _ _ _ _ _ _ _ _ _ _) as [[resp|id] t] eqn:Ei; [left; by eexists|].
  destruct (edge_GetTier svc (id_tier id)) as [tier|] eqn:Et; [|left; by eexists].
  right. exists id, t, tier. split; [done|]. split; [done|]. by exists (λ o, o).
Qed.

Abbreviation cache_r := (serveFromCache (P := P) (F := F) (U := U) range_responses marshal unmarshal maxCacheable (now 1) (now 2) r).

Lemma cache_calls st h w svc :
  st_svc st = Some svc → answers_itself cache_r st h w ∨ ∃ h', calls cache_r st h w st h' w.
Proof.
  intros Hs. unfold serveFromCache, answers_itself, calls. rewrite Hs.
  destruct (ed_responses w) as [store|]; [|right; exists h; by exists (λ o, o)].
  destruct (sv_Cache svc) as [cfg|]; [|right; exists h; by exists (λ o, o)].
  destruct (negb (hq_Method r =? "GET")%string || negb (cc_Enabled cfg)); [right; exists h; by exists (λ o, o)|].
  destruct (CheckCache _ _ _ _ _ _) as [cached|]; [left; by eexists|].
  right. eexists. refine (ex_intro _ (λ o : response * request * edge P F U, let '(resp, st, w) := o in _) _).
  intros next. reflexivity.
Qed.

Lemma limit_calls st h w svc tier :
  st_svc st = Some svc → st_tier st = Some tier →
  answers_itself (rateLimit Hash (now 3) r) st h w ∨
  ∃ rv s st' h' w',
    reservation_of Hash r w st svc tier = (Ok rv, s) ∧ rv_Allowed rv = true ∧
    (ed_limiter w', ed_safety w') = s ∧ calls (rateLimit Hash (now 3) r) st h w st' h' w'.
Proof.
  intros Hs Ht.
  assert (Hres : ∀ w, answers_itself (λ next st h w, reserve_and_serve Hash (now 3) r next st h w svc tier) st h w ∨
    ∃ rv s st' h' w', reservation_of Hash r w st svc tier = (Ok rv, s) ∧ rv_Allowed rv = true ∧
      (ed_limiter w', ed_safety w') = s ∧
      calls (λ next st h w, reserve_and_serve Hash (now 3) r next st h w svc tier) st h w st' h' w').
  { clear w. intros w. unfold reserve_and_serve, reservation_of, answers_itself, calls.
    destruct (Reserve _ _) as [[rv|[[] rv]] s]; [|left; by eexists..].
    destruct (rv_Allowed rv) eqn:Ea; cbn [negb]; [right|left; by eexists]. unfold serve_admitted.
    exists rv, s. destruct (sv_Cost svc) as [cost|].
    - eexists _, _, (with_limits w s). split; [done|]. split; [done|]. split; [by destruct s|].
      refine (ex_intro _ (λ o : response * request * edge P F U, let '(resp, st, w) := o in _) _).
      intros next. reflexivity.
    - eexists _, _, (with_limits w s). split; [done|]. split; [done|]. split; [by destruct s|]. by exists (λ o, o). }
  unfold answers_itself, calls, rateLimit in *. rewrite Hs, Ht.
  destruct (0 <? sv_MaxConcurrent svc); [|apply Hres].
  destruct (Concurrency_Acquire _ _ _) as [[slot|] c]; [|left; by eexists].
  destruct (Hres (with_inflight w c)) as [[o Ho]|(rv & s & st' & h' & w' & H1 & H2 & H3 & k & Hk)].
  - left. eexists. intros next. by rewrite Ho.
  - right. exists rv, s, st', h', w'. split; [exact H1|]. split; [done|]. split; [done|].
    refine (ex_intro _ (λ o, let '(resp, st, w) := k o in (resp, st, with_inflight w (Concurrency_release (ed_inflight w) slot))) _).
    intros next. by rewrite Hk.
Qed.

Abbreviation gateway_r := (gateway (P := P) (F := F) (U := U) range_tiers range_responses Hash validKey jwt_verify lookup_tier marshal
  unmarshal maxCacheable r now).

(** C5: only metered requests reach an upstream.  For every request and state
    of the edge, either the answer does not depend on the upstream at all; or
    the path names a configured service, the caller was identified and has one
    of the service's tiers, and every enforced limit admitted the request,
    charged to that caller; and then the upstream part of the chain runs once,
    with those charges made. *)
Theorem upstream_needs_metering w :
  answers_itself (gateway_r (ed_config w)) new_request ∅ w ∨
  ∃ svc id tier h t st rv s,
    GetServiceConfig (ed_config w) (splitRoute (hq_Path r)).1 (splitRoute (hq_Path r)).2 = Some svc ∧
    identify_r (mkState (splitRoute (hq_Path r)).1 (splitRoute (hq_Path r)).2 (Some svc)
      (GetPrefix (ed_config w) (splitRoute (hq_Path r)).1) "" None "" "" false 0)
      svc h (clientIP r) (ci_cfg (ed_config w)) (ed_tiers w) = (inr id, t) ∧
    edge_GetTier svc (id_tier id) = Some tier ∧
    st_key st = id_key id ∧ st_scope st = (splitRoute (hq_Path r)).1 ∧ st_service st = (splitRoute (hq_Path r)).2 ∧
    reservation_of Hash r w st svc tier = (Ok rv, s) ∧ rv_Allowed rv = true ∧
    ∃ st' h' w', (ed_limiter w', ed_safety w') = s ∧
      calls (gateway_r (ed_config w)) new_request ∅ w st' h' w'.
Proof.
  unfold gateway, chain. cbn [foldr].
  destruct (route_calls (ed_config w) new_request ∅ w) as [Ha|(svc & Hsvc & Hc1)].
  { left. by apply (answers_first (route r (ed_config w))). }
  set (st1 := mkState _ _ _ _ _ _ _ _ _ _) in Hc1.
  destruct (cors_calls st1 ∅ w svc eq_refl) as [Ha|[h1 Hc2]].
  { left. eapply answers_comp; [exact Hc1|]. by apply (answers_first (cors r)). }
  destruct (authenticate_calls st1 h1 w svc eq_refl) as [Ha|(id & t & tier & Hid & Htier & Hc3)].
  { left. eapply answers_comp; [exact Hc1|]. eapply answers_comp; [exact Hc2|]. by apply (answers_first authenticate_r). }
  set (st2 := mkState _ _ _ _ _ _ _ _ _ _) in Hc3. set (w2 := mkEdge _ _ _ _ _ _ _) in Hc3.
  destruct (cache_calls st2 h1 w2 svc eq_refl) as [Ha|[h2 Hc4]].
  { left. do 3 (eapply answers_comp; [eassumption|]). by apply (answers_first cache_r). }
  destruct (limit_calls st2 h2 w2 svc tier eq_refl eq_refl) as [Ha|(rv & s & st' & h' & w' & Hres & Hal & Hw & Hc5)].
  { left. do 4 (eapply answers_comp; [eassumption|]). exact Ha. }
  right. exists svc, id, tier, h1, t, st2, rv, s. do 8 (split; [done|]).
  exists st', h', w'. split; [done|]. do 4 (eapply calls_comp; [eassumption|]). exact Hc5.
Qed.

End metered_chain.

(** ** Credentials *)

Lemma foldl_set_lookup (adds : list (string * string)) (h : Header) name :
  CanonicalHeaderKey name ∉ (CanonicalHeaderKey ∘ fst <$> adds) →
  foldl (λ h kv, header_set h kv.1 kv.2) h adds !! CanonicalHeaderKey name = h !! CanonicalHeaderKey name.
Proof.
  revert h. induction adds as [|[k v] adds IH]; cbn; intros h Hn; [done|].
  apply not_elem_of_cons in Hn as [H1 H2]. rewrite IH by done. unfold header_set. cbn.
  by rewrite lookup_insert_ne.
Qed.

Lemma foldl_del_lookup (hide : list string) (h : Header) k v :
  foldl header_del h hide !! k = Some v → h !! k = Some v.
Proof.
  revert h. induction hide as [|x hide IH]; cbn; intros h H; [done|].
  apply IH in H. unfold header_del in H. by apply lookup_delete_Some in H as [_ H].
Qed.

(** The caller's key goes no further than the gateway: unless the service adds
    such a header itself, no request to an upstream carries [X-API-Key] or a
    header for the gateway's own use. *)
Lemma credential_not_forwarded (out : Header) (adds : list (string * string)) (hide : list string) (name : string) :
  CanonicalHeaderKey name ∉ (CanonicalHeaderKey ∘ fst <$> adds) →
  name = "X-API-Key" ∨ HasPrefix (CanonicalHeaderKey (CanonicalHeaderKey name)) "X-Gate-" = true →
  rewrite_headers out adds hide !! CanonicalHeaderKey name = None.
Proof.
  intros Hadds Hname. destruct (rewrite_headers out adds hide !! CanonicalHeaderKey name) as [v|] eqn:E; [|done].
  unfold rewrite_headers in E. apply foldl_del_lookup in E. rewrite foldl_set_lookup in E by done.
  apply map_lookup_filter_Some in E as [E Hp]. destruct Hname as [->|Hg]; [|cbn in Hp; congruence].
  unfold header_del in E. by rewrite lookup_delete_eq in E.
Qed.
