(* ===== verification/ConfigFile.v ===== *)
(** * Configuration files ([packages/config])

    The file an operator writes ([schema.go]) and its compilation to the
    runtime model the hub serves, and back ([compile.go]).  Decoding YAML into
    these records is left to the YAML library.  Pointers are options, slices
    lists, maps finite maps; [uint32], [uint8] and [int] fields are integers,
    converted where the code converts them. *)

From S2P Require Import Prelude Float64 GoLib Policies.
From S2P Require Import Config.
From stdpp Require Import sorting.
From Stdlib Require Import Ascii.

Local Open Scope Z_scope.

(** ** Schema ([schema.go]) *)

Definition Version : Z := 2.

Record DescriptorLimit := mkDescriptorLimit {
  dl_Algorithm : string;
  dl_Requests : Z; (* uint32 *)
  dl_Window : Z;   (* Duration *)
  dl_Rate : float64;
  dl_Burst : Z;    (* uint32 *)
}.

Inductive DescriptorEntry := mkFileEntry {
  fe_Key : string;
  fe_Value : string;
  fe_Limit : option DescriptorLimit;
  fe_Mode : string;
  fe_Entries : list DescriptorEntry;
}.

Record DescriptorDomain := mkFileDomain {
  fd_Domain : string;
  fd_Entries : list DescriptorEntry;
}.

Record Match := mkMatch {
  ma_PathPrefix : string;
  ma_Methods : list string;
  ma_Host : string;
}.

Record CircuitBreaker := mkCircuitBreaker {
  br_Failures : Z;
  br_Cooldown : Z;
}.

Record JWT := mkFileJWT {
  fj_JWKSURL : string;
  fj_Issuer : string;
  fj_Audience : string;
  fj_TierClaim : string;
}.

Record Auth := mkFileAuth {
  fa_Type : string;
  fa_JWT : option JWT;
}.

Record Headers := mkHeaders {
  hd_Add : gmap string string;
  hd_Hide : list string;
}.

Record Tier := mkFileTier {
  ti_Requests : Z;          (* uint32 *)
  ti_Cost : gmap string Z;  (* uint8 *)
  ti_Algorithm : string;
  ti_Rate : float64;
  ti_Burst : Z;             (* uint32 *)
}.

Record Global := mkGlobal { gl_Floors : gmap string float64 }.

Record Leasing := mkFileLeasing {
  le_Mode : string;
  le_Horizon : Z;
  le_Min : Z;
  le_Max : Z;
}.

Record OrgLimit := mkFileOrg {
  or_Requests : Z; (* uint32 *)
  or_Window : Z;
  or_Claim : string;
}.

Record ExtraLimit := mkExtra {
  ex_Name : string;
  ex_Per : string;
  ex_Algorithm : string;
  ex_Requests : Z; (* uint32 *)
  ex_Window : Z;
  ex_Rate : float64;
  ex_Burst : Z;    (* uint32 *)
  ex_Mode : string;
}.

Record Cost := mkCost {
  cs_ActualHeader : string;
  cs_Estimate : Z;
  cs_EstimateHeader : string;
  cs_OnMissing : string;
  cs_MaxDebt : Z;
}.

Record Fallback := mkFallback { fb_Allow : Z (* uint32 *) }.

Record Limits := mkLimits {
  li_Window : Z;
  li_Tiers : gmap string Tier;
  li_DefaultTier : string;
  li_WhenHubUnavailable : option Fallback;
  li_LeaseSize : Z;
  li_MaxConcurrent : Z;
  li_Algorithm : string;
  li_Mode : string;
  li_Leasing : option Leasing;
  li_Org : option OrgLimit;
  li_Also : list ExtraLimit;
  li_Global : option Global;
  li_Cost : option Cost;
}.

Record Cache := mkCache {
  ch_TTL : Z;
  ch_Key : string;
}.

Record Retries := mkRetries {
  rt_Attempts : Z;
  rt_Statuses : list Z;
  rt_Backoff : Z;
  rt_PerAttemptTimeout : Z;
  rt_NonIdempotent : bool;
}.

Record CORS := mkFileCORS {
  fo_Origins : list string;
  fo_Methods : list string;
  fo_Headers : list string;
  fo_MaxAge : Z;
}.

Record Analytics := mkFileAnalytics {
  fn_Enabled : option bool;
  fn_SampleRate : option float64;
}.

Record UpstreamError := mkUpstreamError {
  ue_Mode : string;
  ue_Status : Z;
  ue_Body : string;
  ue_Headers : gmap string string;
}.

Record Service := mkFileService {
  se_Name : string;
  se_Match : Match;
  se_Upstream : string;
  se_Upstreams : list string;
  se_LoadBalancing : string;
  se_CircuitBreaker : option CircuitBreaker;
  se_Timeout : Z;
  se_MaxRequestBody : Z;
  se_Auth : option Auth;
  se_StripPathPrefix : option bool;
  se_Headers : option Headers;
  se_Limits : Limits;
  se_Cache : option Cache;
  se_Retries : option Retries;
  se_CORS : option CORS;
  se_Analytics : option Analytics;
  se_OnUpstreamError : option UpstreamError;
}.

Record HubRuntime := mkFileHub {
  fh_APIKeyPattern : string;
  fh_CORSHeaders : list string;
  fh_CORSMethods : list string;
  fh_CORSMaxAge : Z;
  fh_ReadTimeout : Z;
  fh_WriteTimeout : Z;
  fh_ShutdownTimeout : Z;
}.

Record EdgeRuntime := mkFileEdge {
  fg_LeaseSize : Z;
  fg_LeaseLowWaterPct : float64;
  fg_AnalyticsBufferSize : Z;
  fg_AnalyticsPublishTimeout : Z;
  fg_CacheMaxObjectBytes : Z;
  fg_UpstreamTimeout : Z;
  fg_UpstreamMaxIdleConns : Z;
  fg_UpstreamIdleConnTimeout : Z;
  fg_ReadTimeout : Z;
  fg_WriteTimeout : Z;
  fg_IdleTimeout : Z;
}.

Record AnalyticsRuntime := mkFileAnalyticsRuntime {
  fr_NATSSubject : string;
  fr_NATSQueue : string;
  fr_DefaultEventsLimit : Z;
  fr_MaxEventsLimit : Z;
  fr_MaxEventsOffset : Z;
  fr_DefaultSummaryLimit : Z;
  fr_MaxSummaryLimit : Z;
  fr_ReadTimeout : Z;
  fr_WriteTimeout : Z;
  fr_IdleTimeout : Z;
  fr_ConfigFetchTimeout : Z;
  fr_ShutdownTimeout : Z;
}.

Record Runtime := mkFileRuntime {
  ru_Hub : HubRuntime;
  ru_Edge : EdgeRuntime;
  ru_Analytics : AnalyticsRuntime;
}.

Record File := mkFile {
  f_Version : Z;
  f_Services : list Service;
  f_Descriptors : list DescriptorDomain;
  f_Runtime : Runtime;
}.

(** ** Compilation ([compile.go]) *)

Definition defaultCacheKey : string := "{method}:{path}:{query}:{key}".
Definition safetyTierID : string := "_hub_unavailable".
Definition defaultCORSMethods : list string := ["GET"; "POST"; "PUT"; "DELETE"; "OPTIONS"].
Definition toInternalCacheKey : list (string * string) :=
  [("{method}", "$method"); ("{path}", "$path"); ("{query}", "$query"); ("{key}", "$key");
   ("{encoding}", "$enc")].

Definition orDefault (v def : string) : string := if (v =? "")%string then def else v.

(** The first path segment of a service's prefix. *)
Definition Service_group (s : Service) : string :=
  match Split "/" (Trim "/" (ma_PathPrefix (se_Match s))) with
  | part :: _ => part
  | [] => ""
  end.

Definition internalAlgo (a : string) : string := if (a =? "fixed_window")%string then "" else a.

(** [int64(x)] of a [uint32] and [uint32(x)] of an [int64]. *)
Definition uint32 (x : Z) : Z := x `mod` 2 ^ 32.

Definition entry_spec (e : DescriptorEntry) (l : DescriptorLimit) : LimitSpec :=
  let algo := internalAlgo (dl_Algorithm l) in
  let bucket := (algo =? "token_bucket")%string in
  {| ls_ID := fe_Key e; ls_Per := ""; ls_Algorithm := algo;
     ls_Quota := if bucket then dl_Burst l else dl_Requests l;
     ls_Window := dl_Window l;
     ls_Rate := if bucket then dl_Rate l else f64_zero;
     ls_Shadow := (fe_Mode e =? "shadow")%string |}.

Fixpoint compileEntry (e : DescriptorEntry) : Config.DescriptorEntry :=
  Config.mkEntry (fe_Key e) (fe_Value e) (entry_spec e <$> fe_Limit e) (map compileEntry (fe_Entries e)).

Definition compileEntries (es : list DescriptorEntry) : list Config.DescriptorEntry := map compileEntry es.

Definition tier_cost (t : Tier) (method : string) : Z :=
  match ti_Cost t !! method with
  | Some c => c
  | None => default 1 (ti_Cost t !! "*")
  end.

Definition compileTier (name : string) (t : Tier) (defaultAlgo : string) : TierConfig :=
  let algo := internalAlgo (orDefault (ti_Algorithm t) defaultAlgo) in
  let bucket := (algo =? "token_bucket")%string in
  {| t_TierID := name;
     t_Quota := if bucket then ti_Burst t else ti_Requests t;
     t_GetCost := tier_cost t "GET";
     t_PostCost := tier_cost t "POST";
     t_PutCost := tier_cost t "PUT";
     t_DeleteCost := tier_cost t "DELETE";
     t_OtherCost := tier_cost t "*";
     t_Algorithm := algo;
     t_Rate := if bucket then ti_Rate t else f64_zero |}.

Definition sortedTierNames (m : gmap string Tier) : list string :=
  merge_sort String.le (map_to_list m).*1.

Definition extra_spec (a : ExtraLimit) : LimitSpec :=
  let algo := internalAlgo (ex_Algorithm a) in
  let bucket := (algo =? "token_bucket")%string in
  {| ls_ID := ex_Name a; ls_Per := orDefault (ex_Per a) PerKey; ls_Algorithm := algo;
     ls_Quota := if bucket then ex_Burst a else ex_Requests a;
     ls_Window := ex_Window a;
     ls_Rate := if bucket then ex_Rate a else f64_zero;
     ls_Shadow := (ex_Mode a =? "shadow")%string |}.

(** What [compileLimits] sets of a service: the shadow flag, the lease policy,
    the organisation's budget, the further limits, the regions' shares and
    the cost policy. *)
Record limit_fields := mkLimitFields {
  lf_Shadow : bool;
  lf_Lease : LeasePolicy;
  lf_Org : option Config.OrgLimit;
  lf_Limits : list LimitSpec;
  lf_Global : option (gmap string float64);
  lf_Cost : option CostPolicy;
}.

Definition compileLimits (l : Limits) : limit_fields :=
  {| lf_Shadow := (li_Mode l =? "shadow")%string;
     lf_Lease := match li_Leasing l with
                 | Some p => mkLeasePolicy (le_Mode p) (le_Horizon p) (le_Min p) (le_Max p)
                 | None => mkLeasePolicy "" 0 0 0
                 end;
     lf_Org := (λ o, mkOrgLimit (or_Requests o) (or_Window o) (or_Claim o)) <$> li_Org l;
     lf_Limits := map extra_spec (li_Also l);
     lf_Global := gl_Floors <$> li_Global l;
     lf_Cost := (λ c, mkCostPolicy (cs_Estimate c) (cs_EstimateHeader c) (cs_ActualHeader c)
                        (cs_OnMissing c) (cs_MaxDebt c)) <$> li_Cost l |}.

Definition compile_hub_policy (l : Limits) : HubFailurePolicy :=
  {| hf_TierLookupStrategy := if (li_DefaultTier l =? "")%string then "fail-closed" else "stale-or-default";
     hf_DefaultTier := li_DefaultTier l;
     hf_StaleTierMaxAge := 0;
     hf_AllowOnRateServiceError := bool_decide (is_Some (li_WhenHubUnavailable l)) |}.

Definition compile_upstream_policy (s : Service) : UpstreamFailurePolicy :=
  let e := default (mkUpstreamError "fail-closed" 0 "" ∅) (se_OnUpstreamError s) in
  let r := default (mkRetries 1 [] 0 0 false) (se_Retries s) in
  {| uf_Mode := ue_Mode e;
     uf_MaxRetries := (rt_Attempts r - 1)%i64;
     uf_RetryBackoff := rt_Backoff r;
     uf_RetryOnStatuses := rt_Statuses r;
     uf_RetryNonIdempotentMethods := rt_NonIdempotent r;
     uf_AttemptTimeout := rt_PerAttemptTimeout r;
     uf_FallbackStatusCode := ue_Status e;
     uf_FallbackBody := ue_Body e;
     uf_FallbackHeaders := ue_Headers e |}.

Definition compile_breaker (s : Service) : option CircuitBreakerConfig :=
  match se_CircuitBreaker s with
  | Some cb => Some (mkBreaker (br_Failures cb) (br_Cooldown cb))
  | None => if 1 <? Z.of_nat (length (se_Upstreams s)) then Some (mkBreaker 5 (10 * Second)) else None
  end.

Definition compile_cache (c : Cache) : CacheConfig :=
  mkCacheConfig true (ch_TTL c) (Replace toInternalCacheKey (orDefault (ch_Key c) defaultCacheKey)).

Definition compile_cors (c : CORS) : CORSConfig :=
  mkCORS (fo_Origins c) (or_list (fo_Methods c) defaultCORSMethods) (fo_Headers c)
    (if fo_MaxAge c =? 0 then 5 * Minute else fo_MaxAge c).

Definition compileService (s : Service) : ServiceConfig :=
  let l := se_Limits s in
  let lf := compileLimits l in
  {| sv_ServiceID := se_Name s;
     sv_TargetURL := match se_Upstreams s with u :: _ => u | [] => se_Upstream s end;
     sv_Tiers := map (λ name, compileTier name (default (mkFileTier 0 ∅ "" f64_zero 0) (li_Tiers l !! name))
                               (li_Algorithm l)) (sortedTierNames (li_Tiers l));
     sv_SafetyTier := (λ fb, compileTier safetyTierID (mkFileTier (fb_Allow fb) ∅ "" f64_zero 0) "")
                        <$> li_WhenHubUnavailable l;
     sv_Transform :=
       {| tf_StripPrefix := default true (se_StripPathPrefix s);
          tf_AddHeaders := from_option hd_Add ∅ (se_Headers s);
          tf_HideHeaders := from_option hd_Hide [] (se_Headers s) |};
     sv_CORS := compile_cors <$> se_CORS s;
     sv_Analytics :=
       {| an_Enabled := default true (a ← se_Analytics s; fn_Enabled a);
          an_Mode := AnalyticsModeHeavy; an_FlushingInterval := 0;
          an_SamplingRate := default (f64_of_int 1) (a ← se_Analytics s; fn_SampleRate a) |};
     sv_Cache := compile_cache <$> se_Cache s;
     sv_Failure :=
       {| fc_FailOpen := from_option (λ e, ue_Mode e =? "fail-open")%string false (se_OnUpstreamError s);
          fc_FallbackTier := "";
          fc_Hub := compile_hub_policy l;
          fc_Upstream := compile_upstream_policy s |};
     sv_Upstreams := se_Upstreams s;
     sv_LoadBalancing := se_LoadBalancing s;
     sv_CircuitBreaker := compile_breaker s;
     sv_Auth := match se_Auth s with
                | Some a => mkAuth (fa_Type a)
                    ((λ j, Config.mkJWT (fj_JWKSURL j) (fj_Issuer j) (fj_Audience j) (fj_TierClaim j)) <$> fa_JWT a)
                | None => mkAuth "" None
                end;
     sv_MaxConcurrent := li_MaxConcurrent l;
     sv_Methods := ma_Methods (se_Match s);
     sv_Host := ma_Host (se_Match s);
     sv_Timeout := se_Timeout s;
     sv_MaxBodyBytes := se_MaxRequestBody s;
     sv_Limits := lf_Limits lf; sv_Org := lf_Org lf; sv_Shadow := lf_Shadow lf; sv_Cost := lf_Cost lf;
     sv_Lease := lf_Lease lf; sv_Global := lf_Global lf |}.

Definition compileRuntime (r : Runtime) : RuntimePolicy :=
  let h := ru_Hub r in let e := ru_Edge r in let a := ru_Analytics r in
  RuntimePolicy_Effective
    {| rp_Hub :=
         {| hr_CORSAllowedHeaders := fh_CORSHeaders h; hr_CORSAllowedMethods := fh_CORSMethods h;
            hr_CORSPreflightMaxAge := fh_CORSMaxAge h; hr_APIKeyPattern := fh_APIKeyPattern h;
            hr_HTTPReadTimeout := fh_ReadTimeout h; hr_HTTPWriteTimeout := fh_WriteTimeout h;
            hr_HTTPShutdownTimeout := fh_ShutdownTimeout h |};
       rp_Edge :=
         {| er_AnalyticsBufferSize := fg_AnalyticsBufferSize e;
            er_AnalyticsPublishTimeout := fg_AnalyticsPublishTimeout e;
            er_RateLeaseSize := fg_LeaseSize e; er_RateLowWaterPct := fg_LeaseLowWaterPct e;
            er_CacheMaxObjectBytes := fg_CacheMaxObjectBytes e;
            er_UpstreamClientTimeout := fg_UpstreamTimeout e;
            er_UpstreamMaxIdleConns := fg_UpstreamMaxIdleConns e;
            er_UpstreamIdleConnTimeout := fg_UpstreamIdleConnTimeout e;
            er_HTTPReadTimeout := fg_ReadTimeout e; er_HTTPWriteTimeout := fg_WriteTimeout e;
            er_HTTPIdleTimeout := fg_IdleTimeout e |};
       rp_Analytics :=
         {| ar_ReadTimeout := fr_ReadTimeout a; ar_WriteTimeout := fr_WriteTimeout a;
            ar_IdleTimeout := fr_IdleTimeout a; ar_DefaultEventsLimit := fr_DefaultEventsLimit a;
            ar_MaxEventsLimit := fr_MaxEventsLimit a; ar_MaxEventsOffset := fr_MaxEventsOffset a;
            ar_DefaultSummaryLimit := fr_DefaultSummaryLimit a; ar_MaxSummaryLimit := fr_MaxSummaryLimit a;
            ar_NATSSubject := fr_NATSSubject a; ar_NATSQueue := fr_NATSQueue a;
            ar_ConfigFetchTimeout := fr_ConfigFetchTimeout a; ar_ShutdownTimeout := fr_ShutdownTimeout a |} |}.

Definition add_service (svc : ServiceConfig) (p : PrefixConfig) : PrefixConfig :=
  mkPrefix (px_Prefix p) (px_QuotaPeriod p) (px_Leasing p) (px_Services p ++ [svc]).

Definition new_prefix (g : string) (s : Service) : PrefixConfig :=
  mkPrefix g (li_Window (se_Limits s)) (mkLeasing (li_LeaseSize (se_Limits s)) f64_zero 0 0) [].

(** The loop of [Compile] over the services: [byGroup] and the prefixes. *)
Definition compile_step (st : gmap string nat * list PrefixConfig) (s : Service)
  : gmap string nat * list PrefixConfig :=
  let '(byGroup, prefixes) := st in
  let g := Service_group s in
  let '(i, byGroup, prefixes) :=
    match byGroup !! g with
    | Some i => (i, byGroup, prefixes)
    | None => (length prefixes, <[g := length prefixes]> byGroup, prefixes ++ [new_prefix g s])
    end in
  (byGroup, alter (add_service (compileService s)) i prefixes).

Definition Compile (f : File) : GatewayConfig :=
  {| gc_Prefixes := snd (foldl compile_step (∅, []) (f_Services f));
     gc_Runtime := compileRuntime (f_Runtime f);
     gc_Descriptors := map (λ d, Config.mkDomain (fd_Domain d) (compileEntries (fd_Entries d))) (f_Descriptors f) |}.

(** ** Back to a file *)

Definition limit_file (l : LimitSpec) : DescriptorLimit :=
  if (ls_Algorithm l =? "token_bucket")%string
  then mkDescriptorLimit (ls_Algorithm l) 0 (ls_Window l) (ls_Rate l) (uint32 (ls_Quota l))
  else mkDescriptorLimit (ls_Algorithm l) (uint32 (ls_Quota l)) (ls_Window l) f64_zero 0.

Fixpoint entryFromInternal (e : Config.DescriptorEntry) : DescriptorEntry :=
  mkFileEntry (de_Key e) (de_Value e) (limit_file <$> de_Limit e)
    (match de_Limit e with Some l => if ls_Shadow l then "shadow" else "" | None => "" end)
    (map entryFromInternal (de_Entries e)).

Definition entriesFromInternal (es : list Config.DescriptorEntry) : list DescriptorEntry :=
  map entryFromInternal es.

(** [add]: a cost is written when it is more than one. *)
Definition add_cost (m : string) (c : Z) (costs : gmap string Z) : gmap string Z :=
  if 1 <? c then <[m := c]> costs else costs.

Definition tierFromInternal (t : TierConfig) : Tier :=
  let bucket := (t_Algorithm t =? "token_bucket")%string in
  {| ti_Requests := if bucket then 0 else t_Quota t;
     ti_Cost := add_cost "*" (t_OtherCost t) (add_cost "DELETE" (t_DeleteCost t)
                  (add_cost "PUT" (t_PutCost t) (add_cost "POST" (t_PostCost t)
                    (add_cost "GET" (t_GetCost t) ∅))));
     ti_Algorithm := t_Algorithm t;
     ti_Rate := if bucket then t_Rate t else f64_zero;
     ti_Burst := if bucket then t_Quota t else 0 |}.

Definition extra_file (spec : LimitSpec) : ExtraLimit :=
  let bucket := (ls_Algorithm spec =? "token_bucket")%string in
  {| ex_Name := ls_ID spec;
     ex_Per := if (ls_Per spec =? PerKey)%string then "" else ls_Per spec;
     ex_Algorithm := ls_Algorithm spec;
     ex_Requests := if bucket then 0 else uint32 (ls_Quota spec);
     ex_Window := ls_Window spec;
     ex_Rate := if bucket then ls_Rate spec else f64_zero;
     ex_Burst := if bucket then uint32 (ls_Quota spec) else 0;
     ex_Mode := if ls_Shadow spec then "shadow" else "" |}.

#[export] Instance LeasePolicy_eq_dec : EqDecision LeasePolicy.
Proof. solve_decision. Defined.

(** [limitsFromInternal], with the fields [serviceFromInternal] has set. *)
Definition limitsFromInternal (window leaseSize maxConcurrent : Z) (tiers : gmap string Tier)
  (defaultTier : string) (fallback : option Fallback) (svc : ServiceConfig) : Limits :=
  {| li_Window := window; li_Tiers := tiers; li_DefaultTier := defaultTier;
     li_WhenHubUnavailable := fallback; li_LeaseSize := leaseSize; li_MaxConcurrent := maxConcurrent;
     li_Algorithm := "";
     li_Mode := if sv_Shadow svc then "shadow" else "";
     li_Leasing := if bool_decide (sv_Lease svc = mkLeasePolicy "" 0 0 0) then None
                   else let p := sv_Lease svc in
                        Some (mkFileLeasing (lp_Mode p) (lp_Horizon p) (lp_Min p) (lp_Max p));
     li_Org := (λ o, mkFileOrg (uint32 (og_Quota o)) (og_Window o) (og_Claim o)) <$> sv_Org svc;
     li_Also := map extra_file (sv_Limits svc);
     li_Global := mkGlobal <$> sv_Global svc;
     li_Cost := (λ c, mkCost (cp_ActualHeader c) (cp_Estimate c) (cp_EstimateHeader c)
                        (cp_OnMissing c) (cp_MaxDebt c)) <$> sv_Cost svc |}.

Definition fromInternalCacheKey : list (string * string) :=
  [("$method", "{method}"); ("$path", "{path}"); ("$query", "{query}"); ("$key", "{key}");
   ("$enc", "{encoding}"); ("$METHOD", "{method}"); ("$PATH", "{path}"); ("$QUERY", "{query}");
   ("$KEY", "{key}"); ("$ENC", "{encoding}")].

Definition cache_file (c : CacheConfig) : option Cache :=
  if cc_Enabled c then
    let key := Replace fromInternalCacheKey (cc_CacheKey c) in
    Some (mkCache (cc_TTL c) (if (key =? defaultCacheKey)%string then "" else key))
  else None.

Definition equalStrings (a b : list string) : bool := bool_decide (a = b).

Definition cors_file (c : CORSConfig) : CORS :=
  mkFileCORS (co_AllowedOrigins c)
    (if equalStrings (co_AllowedMethods c) defaultCORSMethods then [] else co_AllowedMethods c)
    (co_AllowedHeaders c) (if co_MaxAge c =? 5 * Minute then 0 else co_MaxAge c).

Definition breaker_file (svc : ServiceConfig) : option CircuitBreaker :=
  match sv_CircuitBreaker svc with
  | Some cb =>
      if (1 <? Z.of_nat (length (sv_Upstreams svc))) && (cb_Failures cb =? 5) && (cb_Cooldown cb =? 10 * Second)
      then None else Some (mkCircuitBreaker (cb_Failures cb) (cb_Cooldown cb))
  | None => None
  end.

Definition auth_file (a : AuthConfig) : option Auth :=
  if (au_Type a =? "")%string || (au_Type a =? "api_key")%string then None
  else Some (mkFileAuth (au_Type a)
         ((λ j, mkFileJWT (jw_JWKSURL j) (jw_Issuer j) (jw_Audience j) (jw_TierClaim j)) <$> au_JWT a)).

Definition analytics_file (a : AnalyticsConfig) : option Analytics :=
  if negb (an_Enabled a) then Some (mkFileAnalytics (Some false) None)
  else if f64_eqb (an_SamplingRate a) (f64_of_int 1) then None
  else Some (mkFileAnalytics None (Some (an_SamplingRate a))).

Definition retries_file (up : UpstreamFailurePolicy) : option Retries :=
  if 0 <? uf_MaxRetries up
  then Some (mkRetries (uf_MaxRetries up + 1)%i64 (uf_RetryOnStatuses up) (uf_RetryBackoff up)
               (uf_AttemptTimeout up) (uf_RetryNonIdempotentMethods up))
  else None.

Definition tiers_file (ts : list TierConfig) : gmap string Tier :=
  foldl (λ m t, <[t_TierID t := tierFromInternal t]> m) ∅ ts.

Definition serviceFromInternal (group : string) (p : PrefixConfig) (svc : ServiceConfig) : Service :=
  let hp := EffectiveHubPolicy (sv_Failure svc) in
  let up := fc_Upstream (sv_Failure svc) in
  {| se_Name := sv_ServiceID svc;
     se_Match := mkMatch ("/" +:+ group +:+ "/" +:+ sv_ServiceID svc) (sv_Methods svc) (sv_Host svc);
     se_Upstream := match sv_Upstreams svc with [] => sv_TargetURL svc | _ => "" end;
     se_Upstreams := sv_Upstreams svc;
     se_LoadBalancing := sv_LoadBalancing svc;
     se_CircuitBreaker := breaker_file svc;
     se_Timeout := sv_Timeout svc;
     se_MaxRequestBody := sv_MaxBodyBytes svc;
     se_Auth := auth_file (sv_Auth svc);
     se_StripPathPrefix := if tf_StripPrefix (sv_Transform svc) then None else Some false;
     se_Headers := if bool_decide (tf_AddHeaders (sv_Transform svc) = ∅)
                      && bool_decide (tf_HideHeaders (sv_Transform svc) = [])
                   then None
                   else Some (mkHeaders (tf_AddHeaders (sv_Transform svc)) (tf_HideHeaders (sv_Transform svc)));
     se_Limits :=
       limitsFromInternal (px_QuotaPeriod p) (lc_LeaseQuantum (px_Leasing p)) (sv_MaxConcurrent svc)
         (tiers_file (sv_Tiers svc))
         (if negb (hf_TierLookupStrategy hp =? "fail-closed")%string && negb (hf_DefaultTier hp =? "")%string
          then hf_DefaultTier hp else "")
         (if hf_AllowOnRateServiceError hp then (λ t, mkFallback (t_Quota t)) <$> sv_SafetyTier svc else None)
         svc;
     se_Cache := sv_Cache svc ≫= cache_file;
     se_Retries := retries_file up;
     se_CORS := cors_file <$> sv_CORS svc;
     se_Analytics := analytics_file (sv_Analytics svc);
     se_OnUpstreamError :=
       if (uf_Mode (EffectiveUpstreamPolicy (sv_Failure svc)) =? "fail-open")%string
       then Some (mkUpstreamError "fail-open" (uf_FallbackStatusCode up) (uf_FallbackBody up) (uf_FallbackHeaders up))
       else None |}.

(** The runtime settings that differ from the defaults. *)
Definition diff_str (v def : string) : string := if (v =? def)%string then "" else v.
Definition diff_num (v def : Z) : Z := if v =? def then 0 else v.
Definition diff_strs (v def : list string) : list string := if equalStrings v def then [] else v.

Definition runtimeFromInternal (rp : RuntimePolicy) : Runtime :=
  let d := DefaultRuntimePolicy in
  let rp := RuntimePolicy_Effective rp in
  let h := rp_Hub rp in let dh := rp_Hub d in
  let e := rp_Edge rp in let de := rp_Edge d in
  let a := rp_Analytics rp in let da := rp_Analytics d in
  {| ru_Hub :=
       {| fh_APIKeyPattern := diff_str (hr_APIKeyPattern h) (hr_APIKeyPattern dh);
          fh_CORSHeaders := diff_strs (hr_CORSAllowedHeaders h) (hr_CORSAllowedHeaders dh);
          fh_CORSMethods := diff_strs (hr_CORSAllowedMethods h) (hr_CORSAllowedMethods dh);
          fh_CORSMaxAge := diff_num (hr_CORSPreflightMaxAge h) (hr_CORSPreflightMaxAge dh);
          fh_ReadTimeout := diff_num (hr_HTTPReadTimeout h) (hr_HTTPReadTimeout dh);
          fh_WriteTimeout := diff_num (hr_HTTPWriteTimeout h) (hr_HTTPWriteTimeout dh);
          fh_ShutdownTimeout := diff_num (hr_HTTPShutdownTimeout h) (hr_HTTPShutdownTimeout dh) |};
     ru_Edge :=
       {| fg_LeaseSize := diff_num (er_RateLeaseSize e) (er_RateLeaseSize de);
          fg_LeaseLowWaterPct := if f64_eqb (er_RateLowWaterPct e) (er_RateLowWaterPct de) then f64_zero
                                 else er_RateLowWaterPct e;
          fg_AnalyticsBufferSize := diff_num (er_AnalyticsBufferSize e) (er_AnalyticsBufferSize de);
          fg_AnalyticsPublishTimeout := diff_num (er_AnalyticsPublishTimeout e) (er_AnalyticsPublishTimeout de);
          fg_CacheMaxObjectBytes := diff_num (er_CacheMaxObjectBytes e) (er_CacheMaxObjectBytes de);
          fg_UpstreamTimeout := diff_num (er_UpstreamClientTimeout e) (er_UpstreamClientTimeout de);
          fg_UpstreamMaxIdleConns := diff_num (er_UpstreamMaxIdleConns e) (er_UpstreamMaxIdleConns de);
          fg_UpstreamIdleConnTimeout := diff_num (er_UpstreamIdleConnTimeout e) (er_UpstreamIdleConnTimeout de);
          fg_ReadTimeout := diff_num (er_HTTPReadTimeout e) (er_HTTPReadTimeout de);
          fg_WriteTimeout := diff_num (er_HTTPWriteTimeout e) (er_HTTPWriteTimeout de);
          fg_IdleTimeout := diff_num (er_HTTPIdleTimeout e) (er_HTTPIdleTimeout de) |};
     ru_Analytics :=
       {| fr_NATSSubject := diff_str (ar_NATSSubject a) (ar_NATSSubject da);
          fr_NATSQueue := diff_str (ar_NATSQueue a) (ar_NATSQueue da);
          fr_DefaultEventsLimit := diff_num (ar_DefaultEventsLimit a) (ar_DefaultEventsLimit da);
          fr_MaxEventsLimit := diff_num (ar_MaxEventsLimit a) (ar_MaxEventsLimit da);
          fr_MaxEventsOffset := diff_num (ar_MaxEventsOffset a) (ar_MaxEventsOffset da);
          fr_DefaultSummaryLimit := diff_num (ar_DefaultSummaryLimit a) (ar_DefaultSummaryLimit da);
          fr_MaxSummaryLimit := diff_num (ar_MaxSummaryLimit a) (ar_MaxSummaryLimit da);
          fr_ReadTimeout := diff_num (ar_ReadTimeout a) (ar_ReadTimeout da);
          fr_WriteTimeout := diff_num (ar_WriteTimeout a) (ar_WriteTimeout da);
          fr_IdleTimeout := diff_num (ar_IdleTimeout a) (ar_IdleTimeout da);
          fr_ConfigFetchTimeout := diff_num (ar_ConfigFetchTimeout a) (ar_ConfigFetchTimeout da);
          fr_ShutdownTimeout := diff_num (ar_ShutdownTimeout a) (ar_ShutdownTimeout da) |} |}.

Definition FromInternal (cfg : GatewayConfig) : File :=
  {| f_Version := Version;
     f_Services := concat (map (λ p, map (serviceFromInternal (Trim "/" (px_Prefix p)) p) (px_Services p))
                               (gc_Prefixes cfg));
     f_Descriptors := map (λ d, mkFileDomain (dd_Domain d) (entriesFromInternal (dd_Entries d))) (gc_Descriptors cfg);
     f_Runtime := runtimeFromInternal (gc_Runtime cfg) |}.
