(* ===== verification/ConfigCheck.v ===== *)
(** * Checking a configuration file ([packages/config/validate.go])

    Everything [gate config validate] and the hub's loader report about a
    decoded file.  A problem is what the code passes to [p.at]: the path, the
    format and its arguments; [ConfigLoad] finds its line in the document.
    A file is accepted when there is no problem. *)

From S2P Require Import Prelude Float64 GoLib Policies.
From S2P Require Import Config ConfigFile.
From Stdlib Require Import Ascii.

Local Open Scope Z_scope.

Inductive arg := AStr (s : string) | AInt (n : Z) | AFloat (x : float64).

Record Problem := mkProblem {
  pr_Path : string;
  pr_Format : string;
  pr_Args : list arg;
}.

(** [p.at], under a condition. *)
Definition report (c : bool) (path format : string) (args : list arg) : list Problem :=
  if c then [mkProblem path format args] else [].

Definition nth_path (path : string) (i : nat) : string := path +:+ "[" +:+ itoa (Z.of_nat i) +:+ "]".

(** ** Names *)

Definition in_range (lo hi c : ascii) : bool :=
  (N_of_ascii lo <=? N_of_ascii c)%N && (N_of_ascii c <=? N_of_ascii hi)%N.
Definition is_lower (c : ascii) : bool := in_range "a" "z" c.
Definition is_upper (c : ascii) : bool := in_range "A" "Z" c.
Definition is_digit (c : ascii) : bool := in_range "0" "9" c.

(** [^head tail{0,max}$]. *)
Definition re_match (head tail : ascii → bool) (max : option nat) (s : string) : bool :=
  match chars s with
  | [] => false
  | c :: cs => head c && forallb tail cs && match max with Some n => (length cs <=? n)%nat | None => true end
  end.

Definition nameRe (s : string) : bool :=
  re_match (λ c, is_lower c || is_digit c) (λ c, is_lower c || is_digit c || (c =? "-")%char) (Some 62%nat) s.
Definition segmentRe (s : string) : bool :=
  re_match (λ c, is_upper c || is_lower c || is_digit c)
    (λ c, is_upper c || is_lower c || is_digit c || (c =? ".")%char || (c =? "_")%char || (c =? "-")%char)
    None s.
Definition tierRe (s : string) : bool :=
  re_match (λ c, is_upper c || is_lower c || is_digit c)
    (λ c, is_upper c || is_lower c || is_digit c || (c =? "_")%char || (c =? "-")%char) (Some 63%nat) s.

(** [cacheTokenRe.FindAllStringSubmatch]: the names in braces.  [word] is the
    run of letters since the last opening brace. *)
Fixpoint cache_tokens_in (word : option string) (s : string) : list string :=
  match s with
  | EmptyString => []
  | String c s =>
      if (c =? "{")%char then cache_tokens_in (Some "") s
      else match word with
           | Some w =>
               if is_lower c then cache_tokens_in (Some (w +:+ String c "")) s
               else if (c =? "}")%char && negb (w =? "")%string then w :: cache_tokens_in None s
               else cache_tokens_in None s
           | None => cache_tokens_in None s
           end
  end.

Definition one_of (l : list string) (s : string) : bool := existsb (String.eqb s) l.

Definition file_cache_tokens : list string := ["method"; "path"; "query"; "key"; "encoding"].
Definition costMethods : list string := ["GET"; "POST"; "PUT"; "DELETE"; "*"].
Definition upstreamModes : list string := ["fail-closed"; "fail-open"].
Definition balancers : list string := [""; "round_robin"; "least_requests"].
Definition authTypes : list string := ["api_key"; "jwt"; "none"].
Definition httpMethods : list string := ["GET"; "HEAD"; "POST"; "PUT"; "PATCH"; "DELETE"; "OPTIONS"].
Definition algorithms : list string := ["fixed_window"; "sliding_window"; "token_bucket"].
Definition modes : list string := [""; "enforce"; "shadow"].
Definition subjects : list string := [""; "key"; "client_ip"; "service"].

Definition bad_algo (a : string) : bool := negb (a =? "")%string && negb (one_of algorithms a).
Definition algo_msg : string := "must be fixed_window, sliding_window or token_bucket (got %q)".
Definition mode_msg : string := "must be enforce or shadow (got %q)".

(** ** Budgets and limits *)

Definition validateBudget (path algo : string) (requests : Z) (rate : float64) (burst : Z) : list Problem :=
  if (algo =? "token_bucket")%string then
    report (f64_leb rate f64_zero) (path +:+ ".rate") "is required for token_bucket, e.g. 20/s" []
    ++ report (burst =? 0) (path +:+ ".burst") "is required for token_bucket (the most admitted at once)" []
    ++ report (negb (requests =? 0)) (path +:+ ".requests")
         "does not apply to token_bucket; use rate and burst" []
  else
    report (requests =? 0) (path +:+ ".requests") "must be greater than 0" []
    ++ report (negb (f64_eqb rate f64_zero) || negb (burst =? 0)) path
         "rate and burst apply only to algorithm token_bucket" [].

Section checks.
(** Go ranges over maps in no particular order. *)
Variable range_cost : gmap string Z → list (string * Z).
Variable range_floors : gmap string float64 → list (string * float64).

Definition validate_cost (tp : string) (mc : string * Z) : list Problem :=
  let '(m, c) := mc in
  report (negb (one_of costMethods m)) (tp +:+ ".cost." +:+ m)
    "unknown method %q (use GET, POST, PUT, DELETE or *)" [AStr m]
  ++ report (c =? 0) (tp +:+ ".cost." +:+ m) "must be at least 1" [].

Definition validate_tier (path : string) (l : Limits) (name : string) : list Problem :=
  let t := default (mkFileTier 0 ∅ "" f64_zero 0) (li_Tiers l !! name) in
  let tp := path +:+ ".tiers." +:+ name in
  report (negb (tierRe name)) tp "tier name %q must be letters, digits, dashes or underscores" [AStr name]
  ++ validateBudget tp (orDefault (ti_Algorithm t) (li_Algorithm l)) (ti_Requests t) (ti_Rate t) (ti_Burst t)
  ++ report (bad_algo (ti_Algorithm t)) (tp +:+ ".algorithm") algo_msg [AStr (ti_Algorithm t)]
  ++ concat (map (validate_cost tp) (range_cost (ti_Cost t))).

(** The loop over [also], with the names seen: a tier's as -1. *)
Fixpoint validate_also (path : string) (seen : gmap string Z) (i : nat) (also : list ExtraLimit) : list Problem :=
  match also with
  | [] => []
  | a :: rest =>
      let ap := nth_path (path +:+ ".also") i in
      (if negb (nameRe (ex_Name a))
       then report true (ap +:+ ".name") "%q must be lowercase letters, digits and dashes" [AStr (ex_Name a)]
       else match seen !! ex_Name a with
            | Some j =>
                if 0 <=? j
                then report true (ap +:+ ".name") "%q is already used by also[%d]" [AStr (ex_Name a); AInt j]
                else report true (ap +:+ ".name") "%q is already the name of a tier" [AStr (ex_Name a)]
            | None => []
            end)
      ++ report (negb (one_of subjects (ex_Per a))) (ap +:+ ".per")
           "must be key, client_ip or service (got %q)" [AStr (ex_Per a)]
      ++ report (bad_algo (ex_Algorithm a)) (ap +:+ ".algorithm") algo_msg [AStr (ex_Algorithm a)]
      ++ report (negb (one_of modes (ex_Mode a))) (ap +:+ ".mode") mode_msg [AStr (ex_Mode a)]
      ++ report (negb (ex_Window a =? 0) && (ex_Window a <? Second)) (ap +:+ ".window") "must be at least 1s" []
      ++ validateBudget ap (ex_Algorithm a) (ex_Requests a) (ex_Rate a) (ex_Burst a)
      ++ validate_also path (<[ex_Name a := Z.of_nat i]> seen) (S i) rest
  end.

Definition validate_leasing (path : string) (lp : Leasing) : list Problem :=
  report (negb (one_of [""; "adaptive"; "fixed"] (le_Mode lp))) (path +:+ ".leasing.mode")
    "must be adaptive or fixed (got %q)" [AStr (le_Mode lp)]
  ++ report ((le_Min lp <? 0) || (le_Max lp <? 0)) (path +:+ ".leasing") "min and max must not be negative" []
  ++ report ((0 <? le_Max lp) && (le_Max lp <? le_Min lp)) (path +:+ ".leasing.min")
       "%d is more than max (%d)" [AInt (le_Min lp); AInt (le_Max lp)].

Definition validate_org (path : string) (o : OrgLimit) : list Problem :=
  report (or_Requests o =? 0) (path +:+ ".org.requests") "must be greater than 0" []
  ++ report (negb (or_Window o =? 0) && (or_Window o <? Second)) (path +:+ ".org.window") "must be at least 1s" [].

Definition validate_floor (path : string) (nf : string * float64) : list Problem :=
  let '(name, f) := nf in
  report (negb (nameRe name)) (path +:+ ".global.floors." +:+ name)
    "region name %q must be lowercase letters, digits and dashes" [AStr name]
  ++ report (f64_ltb f f64_zero || f64_ltb (f64_of_int 1) f) (path +:+ ".global.floors." +:+ name)
       "must be between 0 and 1" [].

Definition validate_global (path : string) (l : Limits) (g : Global) (tiers : list string) : list Problem :=
  let floors := range_floors (gl_Floors g) in
  let sum := foldl (λ sum nf, f64_add sum (snd nf)) f64_zero floors in
  concat (map (validate_floor path) floors)
  ++ report (bool_decide (gl_Floors g = ∅)) (path +:+ ".global.floors")
       "list every region, e.g. {eu-west: 0.3, us-east: 0.3}" []
  ++ report (f64_ltb (f64_of_int 1) sum) (path +:+ ".global.floors")
       "shares sum to %.2f; they must sum to at most 1" [AFloat sum]
  ++ concat (map (λ name,
       let a := orDefault (from_option ti_Algorithm "" (li_Tiers l !! name)) (li_Algorithm l) in
       report (negb (a =? "")%string && negb (a =? "fixed_window")%string)
         (path +:+ ".tiers." +:+ name +:+ ".algorithm") "global quotas support fixed_window only" []) tiers)
  ++ report (bool_decide (is_Some (li_Org l))) (path +:+ ".org")
       "an org budget cannot be combined with global (multi-region) quotas" [].

Definition validate_cost_policy (path : string) (c : Cost) : list Problem :=
  report (TrimSpace (cs_ActualHeader c) =? "")%string (path +:+ ".cost.actual_header")
    "is required: the response header (or trailer) carrying the actual cost" []
  ++ report (negb (one_of [""; "estimate"; "refund"] (cs_OnMissing c))) (path +:+ ".cost.on_missing")
       "must be estimate or refund (got %q)" [AStr (cs_OnMissing c)]
  ++ report ((cs_Estimate c <? 0) || (cs_MaxDebt c <? 0)) (path +:+ ".cost")
       "estimate and max_debt must not be negative" [].

(** A check of an optional block. *)
Definition on_some {A} (f : A → list Problem) (x : option A) : list Problem := from_option f [] x.

Definition validateV3Limits (path : string) (l : Limits) (tiers : list string) : list Problem :=
  report (bad_algo (li_Algorithm l)) (path +:+ ".algorithm") algo_msg [AStr (li_Algorithm l)]
  ++ report (negb (one_of modes (li_Mode l))) (path +:+ ".mode") mode_msg [AStr (li_Mode l)]
  ++ on_some (validate_leasing path) (li_Leasing l)
  ++ on_some (validate_org path) (li_Org l)
  ++ validate_also path (list_to_map (map (λ t, (t, -1)) tiers)) 0 (li_Also l)
  ++ on_some (λ g, validate_global path l g tiers) (li_Global l)
  ++ on_some (validate_cost_policy path) (li_Cost l).

Definition validateLimits (path : string) (l : Limits) : list Problem :=
  let names := sortedTierNames (li_Tiers l) in
  report (li_Window l <=? 0) (path +:+ ".window") "is required, e.g. 1m" []
  ++ report (bool_decide (li_Tiers l = ∅)) (path +:+ ".tiers")
       "define at least one tier, e.g. free: {requests: 100}" []
  ++ concat (map (validate_tier path l) names)
  ++ report (negb (li_DefaultTier l =? "")%string && bool_decide (li_Tiers l !! li_DefaultTier l = None))
       (path +:+ ".default_tier") "%q is not one of the tiers (%s)" [AStr (li_DefaultTier l); AStr (Join names ", ")]
  ++ on_some (λ fb, report (fb_Allow fb =? 0) (path +:+ ".when_hub_unavailable.allow")
                "must be greater than 0 (omit when_hub_unavailable to reject with 503)" []) (li_WhenHubUnavailable l)
  ++ report (li_LeaseSize l <? 0) (path +:+ ".lease_size") "must not be negative" []
  ++ validateV3Limits path l names.

(** ** Upstreams and authentication *)

(** [url.Parse], and what is used of its result. *)
Record URL := mkURL { u_Scheme : string; u_Host : string; u_Path : string }.
Variable url_Parse : string → option URL.

Definition http_scheme (u : URL) : bool := (u_Scheme u =? "http")%string || (u_Scheme u =? "https")%string.

(** The closure [check]. *)
Definition check_upstream (raw : string) : option URL :=
  match url_Parse raw with
  | Some u => if http_scheme u && negb (u_Host u =? "")%string then Some u else None
  | None => None
  end.

Definition upstream_msg : string := "%q must be an http(s) URL with a host".

Fixpoint validate_replicas (path basePath : string) (i : nat) (raws : list string) : list Problem :=
  match raws with
  | [] => []
  | raw :: rest =>
      let p := nth_path (path +:+ ".upstreams") i in
      match check_upstream raw with
      | None => mkProblem p upstream_msg [AStr raw] :: validate_replicas path basePath (S i) rest
      | Some u =>
          let up := TrimSuffix "/" (u_Path u) in
          if (i =? 0)%nat then validate_replicas path up (S i) rest
          else report (negb (up =? basePath)%string) p
                 "must have the same path as upstreams[0] (%q) so retries can move between replicas"
                 [AStr basePath]
               ++ validate_replicas path basePath (S i) rest
      end
  end.

Definition validate_breaker (path : string) (cb : CircuitBreaker) : list Problem :=
  report (br_Failures cb <? 1) (path +:+ ".circuit_breaker.failures") "must be at least 1" []
  ++ report (br_Cooldown cb <=? 0) (path +:+ ".circuit_breaker.cooldown") "is required, e.g. 10s" [].

Definition validateUpstreams (path : string) (s : Service) : list Problem :=
  let single := negb (se_Upstream s =? "")%string in
  let several := bool_decide (se_Upstreams s ≠ []) in
  if negb single && negb several then
    report true (path +:+ ".upstream")
      "is required, e.g. http://%s:8080 (or upstreams: [...] for replicas)" [AStr (orDefault (se_Name s) "orders")]
  else if single && several then
    report true (path +:+ ".upstreams") "set upstream or upstreams, not both" []
  else
    (if single then report (bool_decide (check_upstream (se_Upstream s) = None)) (path +:+ ".upstream")
                      upstream_msg [AStr (se_Upstream s)] else [])
    ++ validate_replicas path "" 0 (se_Upstreams s)
    ++ report (negb (one_of balancers (se_LoadBalancing s))) (path +:+ ".load_balancing")
         "must be round_robin or least_requests (got %q)" [AStr (se_LoadBalancing s)]
    ++ on_some (validate_breaker path) (se_CircuitBreaker s).

Definition validate_jwt (path : string) (a : Auth) (hasDefault : bool) : list Problem :=
  match fa_JWT a with
  | None => report true (path +:+ ".auth.jwt.jwks_url") "is required for jwt auth" []
  | Some j =>
      if (fj_JWKSURL j =? "")%string
      then report true (path +:+ ".auth.jwt.jwks_url") "is required for jwt auth" []
      else report (match url_Parse (fj_JWKSURL j) with Some u => negb (http_scheme u) | None => true end)
             (path +:+ ".auth.jwt.jwks_url") "%q must be an http(s) URL" [AStr (fj_JWKSURL j)]
  end
  ++ report (from_option (λ j, fj_TierClaim j =? "")%string true (fa_JWT a) && negb hasDefault)
       (path +:+ ".limits.default_tier") "is required for jwt auth without auth.jwt.tier_claim" [].

Definition validateAuth (path : string) (s : Service) : list Problem :=
  match se_Auth s with
  | None => []
  | Some a =>
      if negb (one_of authTypes (fa_Type a))
      then report true (path +:+ ".auth.type") "must be api_key, jwt or none (got %q)" [AStr (fa_Type a)]
      else
        let l := se_Limits s in
        let hasDefault := negb (li_DefaultTier l =? "")%string || (size (li_Tiers l) =? 1)%nat in
        (if (fa_Type a =? "jwt")%string then validate_jwt path a hasDefault
         else if (fa_Type a =? "none")%string then
           report (negb hasDefault) (path +:+ ".limits.default_tier")
             "is required for auth type none (callers are limited by client IP on that tier)" []
         else [])
        ++ report (negb (fa_Type a =? "jwt")%string && bool_decide (is_Some (fa_JWT a))) (path +:+ ".auth.jwt")
             "only applies to auth type jwt" []
  end.

(** ** Descriptors *)

Definition validate_entry_limit (ep : string) (l : DescriptorLimit) : list Problem :=
  report (bad_algo (dl_Algorithm l)) (ep +:+ ".limit.algorithm") algo_msg [AStr (dl_Algorithm l)]
  ++ validateBudget (ep +:+ ".limit") (dl_Algorithm l) (dl_Requests l) (dl_Rate l) (dl_Burst l)
  ++ report (negb (dl_Algorithm l =? "token_bucket")%string && (dl_Window l <? Second)) (ep +:+ ".limit.window")
       "is required and at least 1s, e.g. 1m" [].

(** The loop of [validateEntries], with the positions of the entries seen;
    [check] is the rest of the body. *)
Definition validate_siblings (check : string → DescriptorEntry → list Problem) (path : string)
  : gmap string nat → nat → list DescriptorEntry → list Problem :=
  fix go seen i es :=
    match es with
    | [] => []
    | e :: rest =>
        let ep := nth_path path i in
        let id := fe_Key e +:+ "=" +:+ fe_Value e in
        if (fe_Key e =? "")%string then
          mkProblem (ep +:+ ".key") "is required" [] :: check ep e ++ go seen (S i) rest
        else if ContainsAny (fe_Key e +:+ fe_Value e) ["/"; "="]%char then
          mkProblem ep "key and value must not contain / or =" [] :: check ep e ++ go seen (S i) rest
        else
          match seen !! id with
          | Some j => [mkProblem ep "duplicates %s[%d]" [AStr path; AInt (Z.of_nat j)]]
          | None => []
          end ++ check ep e ++ go (<[id := i]> seen) (S i) rest
    end.

Fixpoint validateEntry (ep : string) (e : DescriptorEntry) : list Problem :=
  report (negb (one_of modes (fe_Mode e))) (ep +:+ ".mode") mode_msg [AStr (fe_Mode e)]
  ++ match fe_Limit e with
     | Some l => validate_entry_limit ep l
     | None => report (bool_decide (fe_Entries e = [])) ep "has neither a limit nor nested entries" []
     end
  ++ validate_siblings validateEntry (ep +:+ ".entries") ∅ 0 (fe_Entries e).

Definition validateEntries (path : string) (es : list DescriptorEntry) : list Problem :=
  validate_siblings validateEntry path ∅ 0 es.

Fixpoint validate_domains (domains : gmap string nat) (i : nat) (ds : list DescriptorDomain) : list Problem :=
  match ds with
  | [] => []
  | d :: rest =>
      let path := nth_path "descriptors" i in
      (if (fd_Domain d =? "")%string then report true (path +:+ ".domain") "is required" []
       else match domains !! fd_Domain d with
            | Some j => report true (path +:+ ".domain") "%q is already used by descriptors[%d]"
                          [AStr (fd_Domain d); AInt (Z.of_nat j)]
            | None => []
            end)
      ++ report (bool_decide (fd_Entries d = [])) (path +:+ ".entries")
           "list at least one entry, e.g. {key: remote_address, limit: {requests: 100, window: 1s}}" []
      ++ validateEntries (path +:+ ".entries") (fd_Entries d)
      ++ validate_domains (<[fd_Domain d := i]> domains) (S i) rest
  end.

Definition validateDescriptors (ds : list DescriptorDomain) : list Problem := validate_domains ∅ 0 ds.

(** ** The file *)

(** The maps the loop over the services fills. *)
Record groupInfo := mkGroupInfo { gi_first : nat; gi_window : Z; gi_lease : Z }.
Record seen_services := mkSeen {
  sn_names : gmap string nat;
  sn_prefixes : gmap string nat;
  sn_groups : gmap string groupInfo;
}.

Definition validate_name (path : string) (i : nat) (s : Service) (names : gmap string nat)
  : list Problem * gmap string nat :=
  if (se_Name s =? "")%string then (report true (path +:+ ".name") "is required" [], names)
  else if negb (nameRe (se_Name s))
  then (report true (path +:+ ".name") "%q must be lowercase letters, digits and dashes" [AStr (se_Name s)], names)
  else (match names !! se_Name s with
        | Some j => report true (path +:+ ".name") "%q is already used by services[%d]"
                      [AStr (se_Name s); AInt (Z.of_nat j)]
        | None => []
        end, <[se_Name s := i]> names).

Definition validate_prefix (path : string) (i : nat) (s : Service) (prefixes : gmap string nat)
  : list Problem * gmap string nat :=
  let pp := ma_PathPrefix (se_Match s) in
  let mp := path +:+ ".match.path_prefix" in
  let segs := Split "/" (Trim "/" pp) in
  if (pp =? "")%string then (report true mp "is required, e.g. /v1/%s" [AStr (orDefault (se_Name s) "orders")], prefixes)
  else
    match segs with
    | [g; n] =>
        if negb (HasPrefix pp "/") || negb (segmentRe g) || negb (segmentRe n)
        then (report true mp "%q must be two path segments, /<group>/<service>" [AStr pp], prefixes)
        else if negb (se_Name s =? "")%string && negb (n =? se_Name s)%string
        then (report true mp "%q must end with the service name (/%s/%s)" [AStr pp; AStr g; AStr (se_Name s)], prefixes)
        else (match prefixes !! pp with
              | Some j => report true mp "%q is already used by services[%d]" [AStr pp; AInt (Z.of_nat j)]
              | None => []
              end, <[pp := i]> prefixes)
    | _ => (report true mp "%q must be two path segments, /<group>/<service>" [AStr pp], prefixes)
    end.

(** Services of a group share a window and a lease size. *)
Definition validate_group (path : string) (i : nat) (s : Service) (groups : gmap string groupInfo)
  : list Problem * gmap string groupInfo :=
  let l := se_Limits s in
  let pp := ma_PathPrefix (se_Match s) in
  if negb (pp =? "")%string && (length (Split "/" (Trim "/" pp)) =? 2)%nat && (0 <? li_Window l) then
    let g := Service_group s in
    match groups !! g with
    | None => ([], <[g := mkGroupInfo i (li_Window l) (li_LeaseSize l)]> groups)
    | Some info =>
        (report (negb (gi_window info =? li_Window l)) (path +:+ ".limits.window")
           "%s differs from services[%d] (%s); services under /%s must share a window"
           [AInt (li_Window l); AInt (Z.of_nat (gi_first info)); AInt (gi_window info); AStr g]
         ++ report (negb (gi_lease info =? li_LeaseSize l)) (path +:+ ".limits.lease_size")
              "%d differs from services[%d] (%d); services under /%s must share a lease size"
              [AInt (li_LeaseSize l); AInt (Z.of_nat (gi_first info)); AInt (gi_lease info); AStr g], groups)
    end
  else ([], groups).

Definition bad_status (code : Z) : bool := (code <? 100) || (599 <? code).

Definition validate_cache (path : string) (c : Cache) : list Problem :=
  report (ch_TTL c <=? 0) (path +:+ ".cache.ttl") "is required, e.g. 30s" []
  ++ concat (map (λ t, report (negb (one_of file_cache_tokens t)) (path +:+ ".cache.key")
                         "unknown token {%s} (use {method} {path} {query} {key} {encoding})" [AStr t])
               (cache_tokens_in None (ch_Key c))).

Definition validate_retries (path : string) (r : Retries) : list Problem :=
  report (rt_Attempts r <? 1) (path +:+ ".retries.attempts") "must be at least 1 (1 = no retry)" []
  ++ concat (imap (λ j code, report (bad_status code) (nth_path (path +:+ ".retries.statuses") j)
                               "%d is not an HTTP status code" [AInt code]) (rt_Statuses r)).

Definition validate_upstream_error (path : string) (e : UpstreamError) : list Problem :=
  report (negb (one_of upstreamModes (ue_Mode e))) (path +:+ ".on_upstream_error.mode")
    "must be fail-closed or fail-open (got %q)" [AStr (ue_Mode e)]
  ++ report (negb (ue_Status e =? 0) && bad_status (ue_Status e)) (path +:+ ".on_upstream_error.status")
       "%d is not an HTTP status code" [AInt (ue_Status e)].

(** The checks of a service that look at nothing else. *)
Definition validate_rest (path : string) (s : Service) : list Problem :=
  on_some (validate_cache path) (se_Cache s)
  ++ on_some (validate_retries path) (se_Retries s)
  ++ on_some (λ c, report (bool_decide (fo_Origins c = [])) (path +:+ ".cors.origins")
                     ("list at least one origin, or [" +:+ String "034" ("*" +:+ String "034" "]")) []) (se_CORS s)
  ++ on_some (λ r, report (f64_ltb r f64_zero || f64_ltb (f64_of_int 1) r) (path +:+ ".analytics.sample_rate")
                     "must be between 0 and 1" []) (a ← se_Analytics s; fn_SampleRate a)
  ++ on_some (validate_upstream_error path) (se_OnUpstreamError s).

Definition validate_service (i : nat) (s : Service) (seen : seen_services) : list Problem * seen_services :=
  let path := nth_path "services" i in
  let '(p1, names) := validate_name path i s (sn_names seen) in
  let '(p2, prefixes) := validate_prefix path i s (sn_prefixes seen) in
  let p3 := validateUpstreams path s in
  let p4 := validateAuth path s in
  let p5 := concat (imap (λ j m, report (negb (one_of httpMethods m)) (nth_path (path +:+ ".match.methods") j)
                                   "%q is not an HTTP method (use upper case, e.g. GET)" [AStr m])
                         (ma_Methods (se_Match s))) in
  let p6 := report (li_MaxConcurrent (se_Limits s) <? 0) (path +:+ ".limits.max_concurrent") "must not be negative" []
            ++ report (se_MaxRequestBody s <? 0) (path +:+ ".max_request_body") "must not be negative" [] in
  let p7 := validateLimits (path +:+ ".limits") (se_Limits s) in
  let '(p8, groups) := validate_group path i s (sn_groups seen) in
  (p1 ++ p2 ++ p3 ++ p4 ++ p5 ++ p6 ++ p7 ++ p8 ++ validate_rest path s, mkSeen names prefixes groups).

Fixpoint validate_services (i : nat) (seen : seen_services) (ss : list Service) : list Problem :=
  match ss with
  | [] => []
  | s :: rest =>
      let '(ps, seen) := validate_service i s seen in
      ps ++ validate_services (S i) seen rest
  end.

(** [regexp.Compile] succeeds. *)
Variable regexp_ok : string → bool.

Definition validate_runtime (r : Runtime) : list Problem :=
  let pat := fh_APIKeyPattern (ru_Hub r) in
  let v := fg_LeaseLowWaterPct (ru_Edge r) in
  report (negb (pat =? "")%string && negb (regexp_ok pat)) "runtime.hub.api_key_pattern"
    "invalid regular expression: %v" []
  ++ report (f64_ltb v f64_zero || f64_ltb (f64_of_int 100) v) "runtime.edge.lease_low_water_pct"
       "must be between 0 and 100" [].

Definition validate (f : File) : list Problem :=
  report (negb (f_Version f =? Version)) "version" "must be %d (got %d)" [AInt Version; AInt (f_Version f)]
  ++ report (bool_decide (f_Services f = []) && bool_decide (f_Descriptors f = [])) "services"
       "at least one service (or a descriptors domain for gate limiter) is required" []
  ++ validateDescriptors (f_Descriptors f)
  ++ validate_services 0 (mkSeen ∅ ∅ ∅) (f_Services f)
  ++ validate_runtime (f_Runtime f).

End checks.
