(* ===== verification/ConfigAccepted.v ===== *)
(** * What an accepted configuration file satisfies

    The facts that follow from [validate] reporting nothing, in the form the
    theorems on compiled configurations use: about each service by itself, and
    about the names and groups of all of them. *)

From S2P Require Import Prelude Float64 GoLib Policies.
From S2P Require Import Config ConfigFile ConfigCheck.
From stdpp Require Import sorting.
From Stdlib Require Import Ascii.

Local Open Scope Z_scope.

(** ** Names *)

(** Decide a property of all characters by trying each. *)
Ltac by_chars c := destruct c as [[] [] [] [] [] [] [] []]; vm_compute; reflexivity.

Lemma re_match_all (P : ascii → bool) hd tl max s :
  (∀ c, implb (hd c) (P c) = true) → (∀ c, implb (tl c) (P c) = true) →
  re_match hd tl max s = true → s ≠ "" ∧ forallb P (chars s) = true.
Proof.
  unfold re_match. intros Hh Ht. destruct s as [|c s]; [done|]. cbn [chars forallb].
  intros [[Hc Hs]%andb_true_iff _]%andb_true_iff. split; [done|]. apply andb_true_iff. split.
  - specialize (Hh c). by rewrite Hc in Hh.
  - apply forallb_forall. intros d Hd. rewrite forallb_forall in Hs. specialize (Ht d). by rewrite (Hs d Hd) in Ht.
Qed.

(** The characters of names: neither space nor slash. *)
Definition name_char (c : ascii) : bool := negb (is_space c) && negb (c =? "/")%char.

Definition plain_name (s : string) : Prop := s ≠ "" ∧ forallb name_char (chars s) = true.

Lemma nameRe_plain s : nameRe s = true → plain_name s.
Proof. apply re_match_all; intros c; by_chars c. Qed.
Lemma segmentRe_plain s : segmentRe s = true → plain_name s.
Proof. apply re_match_all; intros c; by_chars c. Qed.
Lemma tierRe_plain s : tierRe s = true → plain_name s.
Proof. apply re_match_all; intros c; by_chars c. Qed.

Lemma plain_TrimSpace s : plain_name s → TrimSpace s = s.
Proof.
  intros [_ H]. apply TrimSpace_id. rewrite forallb_forall in *. intros c Hc.
  specialize (H c Hc). apply andb_true_iff in H. tauto.
Qed.

Lemma plain_no_slash s : plain_name s → ¬ has_char "/" s.
Proof.
  intros [_ H]. unfold has_char. rewrite forallb_forall in H. intros Hin.
  apply list_elem_of_In, H in Hin. done.
Qed.

Lemma tierRe_safety : tierRe safetyTierID = false.
Proof. done. Qed.

Create HintDb config.
#[export] Hint Resolve nameRe_plain segmentRe_plain tierRe_plain plain_TrimSpace plain_no_slash : config.

(** ** Reports *)

Lemma report_nil c p m a : report c p m a = [] ↔ c = false.
Proof. by destruct c. Qed.

Lemma concat_map_nil {A B} (f : A → list B) l : concat (map f l) = [] ↔ ∀ x, x ∈ l → f x = [].
Proof.
  induction l as [|x l IH]; cbn; [set_solver|]. rewrite app_nil, IH. set_solver.
Qed.

Lemma concat_imap_nil {A B} (f : nat → A → list B) l :
  concat (imap f l) = [] ↔ ∀ i x, l !! i = Some x → f i x = [].
Proof.
  revert f. induction l as [|x l IH]; intros f; cbn; [naive_solver|]. rewrite app_nil, IH. split.
  - intros [H1 H2] [|i] y E; cbn in E; [by simplify_eq|]. by apply (H2 i).
  - intros H. split; [by apply (H O)|]. intros i y E. by apply (H (S i)).
Qed.

(** Split the reports of a check that found nothing. *)
Ltac no_reports :=
  repeat match goal with
    | H : _ ++ _ = [] |- _ => apply app_nil in H as [? ?]
    | H : report _ _ _ _ = [] |- _ => apply report_nil in H
    | H : concat (map _ _) = [] |- _ => rewrite concat_map_nil in H
    | H : concat (imap _ _) = [] |- _ => rewrite concat_imap_nil in H
    | H : _ || _ = false |- _ => apply orb_false_iff in H as [? ?]
    | H : negb _ = false |- _ => apply negb_false_iff in H
    | H : (_ <? _) = false |- _ => apply Z.ltb_ge in H
    | H : (_ <=? _) = false |- _ => apply Z.leb_gt in H
    | H : (_ =? _) = false |- _ => apply Z.eqb_neq in H
    | H : bool_decide _ = false |- _ => apply bool_decide_eq_false in H
    end.

Lemma one_of_elem l s : one_of l s = true ↔ s ∈ l.
Proof.
  unfold one_of. rewrite existsb_exists. split.
  - intros (x & Hx & ->%String.eqb_eq). by apply list_elem_of_In.
  - intros Hs. exists s. split; [by apply list_elem_of_In|apply String.eqb_refl].
Qed.

(** ** One service *)

Record service_ok (url_Parse : string → option URL) (s : Service) : Prop := {
  ok_name : nameRe (se_Name s) = true;
  ok_segments : ∃ g, Split "/" (Trim "/" (ma_PathPrefix (se_Match s))) = [g; se_Name s] ∧ segmentRe g = true;
  ok_url : is_Some (check_upstream url_Parse (sv_TargetURL (compileService s)));
  ok_window : 0 < li_Window (se_Limits s);
  ok_lease : 0 ≤ li_LeaseSize (se_Limits s);
  ok_tiers : li_Tiers (se_Limits s) ≠ ∅;
  ok_tier : ∀ name t, li_Tiers (se_Limits s) !! name = Some t →
    tierRe name = true ∧ t_Quota (compileTier name t (li_Algorithm (se_Limits s))) ≠ 0;
  ok_default : li_DefaultTier (se_Limits s) = "" ∨ is_Some (li_Tiers (se_Limits s) !! li_DefaultTier (se_Limits s));
  ok_fallback : ∀ fb, li_WhenHubUnavailable (se_Limits s) = Some fb → fb_Allow fb ≠ 0;
  ok_also : NoDup (ex_Name <$> li_Also (se_Limits s));
  ok_cache : ∀ c, se_Cache s = Some c → 0 < ch_TTL c;
  ok_statuses : ∀ r i code, se_Retries s = Some r → rt_Statuses r !! i = Some code → bad_status code = false;
  ok_rate : ∀ r, (a ← se_Analytics s; fn_SampleRate a) = Some r →
    f64_ltb r f64_zero = false ∧ f64_ltb (f64_of_int 1) r = false;
  ok_mode : ∀ e, se_OnUpstreamError s = Some e → ue_Mode e ∈ upstreamModes;
}.

Lemma ok_plain_group up s : service_ok up s → plain_name (Service_group s).
Proof. intros Hs. destruct (ok_segments _ _ Hs) as (g & E & Hg). unfold Service_group. rewrite E. eauto with config. Qed.

Lemma internalAlgo_bucket a : (internalAlgo a =? "token_bucket")%string = (a =? "token_bucket")%string.
Proof. unfold internalAlgo. by destruct (String.eqb_spec a "fixed_window") as [->|]. Qed.

Lemma validateBudget_quota path name t def :
  validateBudget path (orDefault (ti_Algorithm t) def) (ti_Requests t) (ti_Rate t) (ti_Burst t) = [] →
  t_Quota (compileTier name t def) ≠ 0.
Proof.
  unfold validateBudget, compileTier. cbn [t_Quota]. rewrite internalAlgo_bucket.
  destruct (_ =? _)%string; intros; no_reports; done.
Qed.

Lemma elem_of_sortedTierNames m name : name ∈ sortedTierNames m ↔ is_Some (m !! name).
Proof.
  unfold sortedTierNames. rewrite (merge_sort_Permutation String.le), list_elem_of_fmap. split.
  - intros ([k t] & -> & H%elem_of_map_to_list). by exists t.
  - intros [t Ht]. exists (name, t). by rewrite elem_of_map_to_list.
Qed.

Lemma sortedTierNames_NoDup m : NoDup (sortedTierNames m).
Proof. unfold sortedTierNames. rewrite (merge_sort_Permutation String.le). apply NoDup_fst_map_to_list. Qed.

(** Further limits have names of their own. *)
Lemma validate_also_names path seen i also :
  validate_also path seen i also = [] →
  NoDup (ex_Name <$> also) ∧ ∀ a, a ∈ also → seen !! ex_Name a = None.
Proof.
  revert seen i. induction also as [|a also IH]; intros seen i; [intros _; split; [constructor|set_solver]|].
  cbn [validate_also]. intros H. no_reports. cbn [fmap list_fmap].
  match goal with H : validate_also _ _ _ _ = [] |- _ => apply IH in H as [Hnd Hout] end.
  assert (Hs : seen !! ex_Name a = None).
  { destruct (negb _); [done|]. destruct (seen !! ex_Name a) as [j|]; [|done]. by destruct (0 <=? j). }
  split.
  - constructor; [|done]. intros (b & Eb & Hb)%list_elem_of_fmap.
    specialize (Hout b Hb). rewrite <- Eb, lookup_insert_eq in Hout. done.
  - intros b [->|Hb]%elem_of_cons; [done|]. specialize (Hout b Hb).
    by apply lookup_insert_None in Hout as [? _].
Qed.

Section accepted.
Variable range_cost : gmap string Z → list (string * Z).
Variable range_floors : gmap string float64 → list (string * float64).
Variable url_Parse : string → option URL.
Variable regexp_ok : string → bool.

Lemma validate_limits_ok path l :
  validateLimits range_cost range_floors path l = [] →
  0 < li_Window l ∧ 0 ≤ li_LeaseSize l ∧ li_Tiers l ≠ ∅ ∧
  (∀ name t, li_Tiers l !! name = Some t → tierRe name = true ∧ t_Quota (compileTier name t (li_Algorithm l)) ≠ 0) ∧
  (li_DefaultTier l = "" ∨ is_Some (li_Tiers l !! li_DefaultTier l)) ∧
  (∀ fb, li_WhenHubUnavailable l = Some fb → fb_Allow fb ≠ 0) ∧
  NoDup (ex_Name <$> li_Also l).
Proof.
  unfold validateLimits, validateV3Limits. intros H. no_reports. split_and!; try done.
  - intros name t Ht.
    match goal with H : ∀ x, _ → validate_tier _ _ _ _ = [] |- _ => specialize (H name) end.
    rewrite elem_of_sortedTierNames, Ht in *. unfold validate_tier in *. rewrite Ht in *. cbn [default from_option] in *.
    match goal with H : is_Some (Some t) → _ |- _ => specialize (H ltac:(eauto)) end. no_reports.
    split; [done|]. eapply validateBudget_quota. eassumption.
  - match goal with H : _ && _ = false |- _ => apply andb_false_iff in H as [Hd|Hd] end.
    + left. apply negb_false_iff in Hd. by apply String.eqb_eq.
    + right. apply bool_decide_eq_false in Hd. destruct (_ !! _); [eauto|done].
  - intros fb E. rewrite E in *. cbn in *. by no_reports.
  - eapply validate_also_names. eassumption.
Qed.

Lemma validate_upstreams_ok path s :
  validateUpstreams url_Parse path s = [] → is_Some (check_upstream url_Parse (sv_TargetURL (compileService s))).
Proof.
  unfold validateUpstreams. cbn [compileService sv_TargetURL]. destruct (se_Upstreams s) as [|u us].
  - rewrite bool_decide_false by (intros Hn; by destruct Hn). destruct (se_Upstream s =? "")%string; cbn [negb andb].
    + done.
    + intros H. no_reports. by destruct (check_upstream _ _).
  - rewrite bool_decide_true by done. destruct (se_Upstream s =? "")%string; cbn [negb andb]; [|done].
    intros H. no_reports. cbn [validate_replicas] in *. by destruct (check_upstream _ u).
Qed.

Lemma validate_name_ok path i s names :
  fst (validate_name path i s names) = [] →
  nameRe (se_Name s) = true ∧ names !! se_Name s = None ∧
  snd (validate_name path i s names) = <[se_Name s := i]> names.
Proof.
  unfold validate_name. destruct (_ =? _)%string; [done|]. destruct (nameRe _); [|done].
  cbn. by destruct (names !! _).
Qed.

Lemma validate_prefix_ok path i s prefixes :
  nameRe (se_Name s) = true → fst (validate_prefix path i s prefixes) = [] →
  ma_PathPrefix (se_Match s) ≠ "" ∧
  ∃ g, Split "/" (Trim "/" (ma_PathPrefix (se_Match s))) = [g; se_Name s] ∧ segmentRe g = true.
Proof.
  intros [Hn _]%nameRe_plain. unfold validate_prefix.
  destruct (String.eqb_spec (ma_PathPrefix (se_Match s)) "") as [|Hpp]; [done|].
  destruct (Split _ _) as [|g [|n [|? ?]]]; try done.
  destruct (HasPrefix _ _); [|done]. destruct (segmentRe g) eqn:Eg; [|done]. destruct (segmentRe n); [|done].
  cbn [negb orb]. apply String.eqb_neq in Hn. rewrite Hn. cbn [negb andb].
  destruct (String.eqb_spec n (se_Name s)) as [->|]; [|done]. eauto.
Qed.

(** [fst] and [snd] of a step of the loop. *)
Lemma validate_service_split i s seen :
  let path := nth_path "services" i in
  fst (validate_service range_cost range_floors url_Parse i s seen) = [] →
  service_ok url_Parse s ∧
  sn_names seen !! se_Name s = None ∧
  sn_names (snd (validate_service range_cost range_floors url_Parse i s seen)) = <[se_Name s := i]> (sn_names seen) ∧
  fst (validate_group path i s (sn_groups seen)) = [] ∧
  sn_groups (snd (validate_service range_cost range_floors url_Parse i s seen))
  = snd (validate_group path i s (sn_groups seen)).
Proof.
  cbv zeta. unfold validate_service. set (path := nth_path "services" i).
  pose proof (validate_name_ok path i s (sn_names seen)) as Hname.
  destruct (validate_name path i s (sn_names seen)) as [p1 names]. cbn [fst snd] in Hname.
  pose proof (validate_prefix_ok path i s (sn_prefixes seen)) as Hpre.
  destruct (validate_prefix path i s (sn_prefixes seen)) as [p2 prefixes]. cbn [fst] in Hpre.
  destruct (validate_group path i s (sn_groups seen)) as [p8 groups]. cbn [fst snd sn_names sn_groups].
  intros H. no_reports.
  destruct Hname as (Hn & Hfresh & Hins); [done|]. destruct Hpre as (_ & Hseg); [done..|].
  split; [|done].
  match goal with H : validateLimits _ _ _ _ = [] |- _ => apply validate_limits_ok in H as (?&?&?&?&?&?&?) end.
  match goal with H : validateUpstreams _ _ _ = [] |- _ => apply validate_upstreams_ok in H end.
  match goal with H : validate_rest _ _ = [] |- _ => unfold validate_rest in H end. no_reports.
  split; try done.
  - intros c E. rewrite E in *. cbn in *. unfold validate_cache in *. by no_reports.
  - intros r j code E Hj. rewrite E in *. cbn in *. unfold validate_retries in *. no_reports.
    match goal with H : ∀ i x, _ !! i = Some x → _ |- _ => specialize (H j code Hj) end. by no_reports.
  - intros r E. rewrite E in *. cbn in *. by no_reports.
  - intros e E. rewrite E in *. cbn in *. unfold validate_upstream_error in *. no_reports.
    by apply one_of_elem.
Qed.

(** ** All services *)

Definition same_budget (s : Service) (info : groupInfo) : Prop :=
  gi_window info = li_Window (se_Limits s) ∧ gi_lease info = li_LeaseSize (se_Limits s).

Lemma validate_group_ok path i s groups :
  service_ok url_Parse s → fst (validate_group path i s groups) = [] →
  ∃ info, same_budget s info ∧
    snd (validate_group path i s groups) = <[Service_group s := info]> groups ∧
    (groups !! Service_group s = None ∨ groups !! Service_group s = Some info).
Proof.
  intros Hs. unfold validate_group. destruct (ok_segments _ _ Hs) as (g & E & _). pose proof (ok_window _ _ Hs) as Hw.
  rewrite E. apply Z.ltb_lt in Hw. rewrite Hw.
  destruct (String.eqb_spec (ma_PathPrefix (se_Match s)) "") as [Epp|]; [by rewrite Epp in E|]. cbn [negb andb length].
  destruct (groups !! Service_group s) as [info|] eqn:Eg; cbn; intros H; [|by eexists; split; [|eauto]].
  no_reports. exists info. rewrite insert_id by done. unfold same_budget. rewrite <- !Z.eqb_eq. auto.
Qed.

Lemma validate_services_ok i seen ss :
  validate_services range_cost range_floors url_Parse i seen ss = [] →
  Forall (service_ok url_Parse) ss ∧ NoDup (se_Name <$> ss) ∧
  (∀ s, s ∈ ss → sn_names seen !! se_Name s = None) ∧
  ∃ budget : string → groupInfo, ∀ s, s ∈ ss →
    same_budget s (budget (Service_group s)) ∧
    (∀ info, sn_groups seen !! Service_group s = Some info → budget (Service_group s) = info).
Proof.
  revert i seen. induction ss as [|s ss IH]; intros i seen.
  { intros _. split_and!; [constructor|constructor|set_solver|]. exists (λ _, mkGroupInfo 0 0 0). set_solver. }
  cbn [validate_services]. pose proof (validate_service_split i s seen) as Hsplit. cbv zeta in Hsplit.
  destruct (validate_service range_cost range_floors url_Parse i s seen) as [ps seen']. cbn [fst snd] in Hsplit.
  intros [-> Hrest]%app_nil. destruct Hsplit as (Hok & Hfresh & Hnames & Hg & Hgroups); [done|].
  apply IH in Hrest as (Hall & Hnd & Hout & budget & Hb). clear IH.
  destruct (validate_group_ok _ _ _ _ Hok Hg) as (info & Hsame & Hins & Hold). rewrite Hgroups, Hins in Hb.
  rewrite Hnames in Hout. split_and!; [by constructor| | |].
  - cbn. constructor; [|done]. intros (s' & E & Hs')%list_elem_of_fmap. specialize (Hout s' Hs').
    by rewrite <- E, lookup_insert_eq in Hout.
  - intros s' [->|Hs']%elem_of_cons; [done|]. specialize (Hout s' Hs').
    by apply lookup_insert_None in Hout as [? _].
  - exists (λ g, if decide (g = Service_group s) then info else budget g).
    intros s' [->|Hs']%elem_of_cons.
    + rewrite decide_True by done. split; [done|]. intros info' E. destruct Hold; congruence.
    + destruct (Hb s' Hs') as [Hb1 Hb2]. case_decide as Hd; [rewrite Hd in *|].
      * rewrite lookup_insert_eq in Hb2. rewrite (Hb2 info) in Hb1 by done. split; [done|].
        intros info' E. destruct Hold; congruence.
      * split; [done|]. intros info' E. apply Hb2. by rewrite lookup_insert_ne.
Qed.

(** What is known of a file without problems. *)
Record file_ok (f : File) : Prop := {
  fk_services : Forall (service_ok url_Parse) (f_Services f);
  fk_names : NoDup (se_Name <$> f_Services f);
  fk_groups : ∀ s s', s ∈ f_Services f → s' ∈ f_Services f → Service_group s = Service_group s' →
    li_Window (se_Limits s) = li_Window (se_Limits s') ∧ li_LeaseSize (se_Limits s) = li_LeaseSize (se_Limits s');
}.

Lemma validate_file_ok f : validate range_cost range_floors url_Parse regexp_ok f = [] → file_ok f.
Proof.
  unfold validate, validate_runtime. intros H. no_reports.
  match goal with H : validate_services _ _ _ _ _ _ = [] |- _ =>
    apply validate_services_ok in H as (Hall & Hnd & _ & budget & Hb) end.
  split; [done..|]. intros s s' Hs Hs' E. destruct (Hb s Hs) as [[] _], (Hb s' Hs') as [[] _].
  rewrite E in *. split; congruence.
Qed.
End accepted.
