(* ===== verification/ConfigLoad.v ===== *)
(** * Reading a configuration file ([packages/config/load.go])

    From the nodes of a YAML document to an accepted file or a list of
    problems with their lines: unknown fields and what they were meant to be, the
    lines of problems found by the checks, and which problems are reported.  The
    YAML library is a parameter: the document's nodes or its syntax error, and
    the file it decodes to with its complaints.  Nodes refer to each other by position, because
    aliases may refer to any node, an enclosing one included. *)

From S2P Require Import Prelude Float64 GoLib Policies.
From S2P Require Import Config ConfigFile ConfigCheck.
From Stdlib Require Import Ascii.
From stdpp Require Import sorting.

Local Open Scope Z_scope.

(** ** Suggestions *)

(** One row of [editDistance]: [prev] is the row above from [j - 1] on, and
    [left] the value just computed. *)
Fixpoint next_row (a : ascii) (b : list ascii) (prev : list nat) (left : nat) : list nat :=
  match b, prev with
  | c :: b, diag :: ((up :: _) as prev') =>
      let v := (up + 1) `min` (left + 1) `min` (diag + if (a =? c)%char then 0 else 1) in
      v :: next_row a b prev' v
  | _, _ => []
  end%nat.

Definition row_after (b : list ascii) (st : nat * list nat) (a : ascii) : nat * list nat :=
  let i := S st.1 in (i, i :: next_row a b st.2 i).

Definition editDistance (a b : list ascii) : nat :=
  List.last (foldl (row_after b) (0%nat, seq 0 (S (length b))) a).2 0%nat.

Definition suggest_step (word : list ascii) (best : string * nat) (c : string) : string * nat :=
  let d := editDistance word (chars c) in if (d <? best.2)%nat then (c, d) else best.

Definition suggest (word : string) (candidates : list string) : string :=
  (foldl (suggest_step (chars (ToLower word))) ("", 3%nat) candidates).1.

(** ** Nodes and types *)

Inductive ykind := Scalar | Mapping | Sequence | Alias.

#[export] Instance ykind_eq : EqDecision ykind.
Proof. solve_decision. Defined.

Record ynode := mkNode {
  yn_Kind : ykind;
  yn_Tag : string;
  yn_Value : string;
  yn_Line : Z;
  yn_Content : list nat;
  yn_Alias : nat;
}.

Definition document : Type := list ynode.
Definition node (doc : document) (n : nat) : ynode := default (mkNode Scalar "" "" 0 [] 0) (doc !! n).

(** A type of the schema, pointers followed; structs are named, since entries of
    descriptors hold entries. *)
Inductive gotype :=
| TStruct (name : string) | TMap (elem : gotype) | TSlice (elem : gotype)
| TString | TBool | TFloat | TUint | TInt | TDuration | TRate.

(** A field with a name in its tag: whether it is a pointer and has
    [omitempty], and the values of its [enum] tag. *)
Record field := mkField {
  fd_name : string;
  fd_type : gotype;
  fd_pointer : bool;
  fd_omitempty : bool;
  fd_enum : list string;
}.
Definition schema : Type := list (string * list field).
Definition yamlFields (types : schema) (name : string) : list field :=
  from_option snd [] (find (λ t, (t.1 =? name)%string) types).

(** The types of [packages/config/schema.go]. *)
Definition file_schema : schema :=
  [
   ("File", [
      mkField "version" TInt false false [];
      mkField "services" (TSlice (TStruct "Service")) false true [];
      mkField "descriptors" (TSlice (TStruct "DescriptorDomain")) false true [];
      mkField "runtime" (TStruct "Runtime") false true []]);
   ("Service", [
      mkField "name" TString false false [];
      mkField "match" (TStruct "Match") false false [];
      mkField "upstream" TString false true [];
      mkField "upstreams" (TSlice TString) false true [];
      mkField "load_balancing" TString false true ["round_robin"; "least_requests"];
      mkField "circuit_breaker" (TStruct "CircuitBreaker") true true [];
      mkField "timeout" TDuration false true [];
      mkField "max_request_body" TInt false true [];
      mkField "auth" (TStruct "Auth") true true [];
      mkField "strip_path_prefix" TBool true true [];
      mkField "headers" (TStruct "Headers") true true [];
      mkField "limits" (TStruct "Limits") false false [];
      mkField "cache" (TStruct "Cache") true true [];
      mkField "retries" (TStruct "Retries") true true [];
      mkField "cors" (TStruct "CORS") true true [];
      mkField "analytics" (TStruct "Analytics") true true [];
      mkField "on_upstream_error" (TStruct "UpstreamError") true true []]);
   ("DescriptorDomain", [
      mkField "domain" TString false false [];
      mkField "entries" (TSlice (TStruct "DescriptorEntry")) false false []]);
   ("DescriptorEntry", [
      mkField "key" TString false false [];
      mkField "value" TString false true [];
      mkField "limit" (TStruct "DescriptorLimit") true true [];
      mkField "mode" TString false true ["enforce"; "shadow"];
      mkField "entries" (TSlice (TStruct "DescriptorEntry")) false true []]);
   ("DescriptorLimit", [
      mkField "algorithm" TString false true ["fixed_window"; "sliding_window"; "token_bucket"];
      mkField "requests" TUint false true [];
      mkField "window" TDuration false true [];
      mkField "rate" TRate false true [];
      mkField "burst" TUint false true []]);
   ("Match", [
      mkField "path_prefix" TString false false [];
      mkField "methods" (TSlice TString) false true [];
      mkField "host" TString false true []]);
   ("CircuitBreaker", [
      mkField "failures" TInt false false [];
      mkField "cooldown" TDuration false false []]);
   ("Auth", [
      mkField "type" TString false false ["api_key"; "jwt"; "none"];
      mkField "jwt" (TStruct "JWT") true true []]);
   ("JWT", [
      mkField "jwks_url" TString false false [];
      mkField "issuer" TString false true [];
      mkField "audience" TString false true [];
      mkField "tier_claim" TString false true []]);
   ("Headers", [
      mkField "add" (TMap TString) false true [];
      mkField "hide" (TSlice TString) false true []]);
   ("Limits", [
      mkField "window" TDuration false false [];
      mkField "tiers" (TMap (TStruct "Tier")) false false [];
      mkField "default_tier" TString false true [];
      mkField "when_hub_unavailable" (TStruct "Fallback") true true [];
      mkField "lease_size" TInt false true [];
      mkField "max_concurrent" TInt false true [];
      mkField "algorithm" TString false true ["fixed_window"; "sliding_window"; "token_bucket"];
      mkField "mode" TString false true ["enforce"; "shadow"];
      mkField "leasing" (TStruct "Leasing") true true [];
      mkField "org" (TStruct "OrgLimit") true true [];
      mkField "also" (TSlice (TStruct "ExtraLimit")) false true [];
      mkField "global" (TStruct "Global") true true [];
      mkField "cost" (TStruct "Cost") true true []]);
   ("Tier", [
      mkField "requests" TUint false true [];
      mkField "cost" (TMap TUint) false true [];
      mkField "algorithm" TString false true ["fixed_window"; "sliding_window"; "token_bucket"];
      mkField "rate" TRate false true [];
      mkField "burst" TUint false true []]);
   ("Global", [
      mkField "floors" (TMap TFloat) false false []]);
   ("Leasing", [
      mkField "mode" TString false true ["adaptive"; "fixed"];
      mkField "horizon" TDuration false true [];
      mkField "min" TInt false true [];
      mkField "max" TInt false true []]);
   ("OrgLimit", [
      mkField "requests" TUint false false [];
      mkField "window" TDuration false true [];
      mkField "claim" TString false true []]);
   ("ExtraLimit", [
      mkField "name" TString false false [];
      mkField "per" TString false true ["key"; "client_ip"; "service"];
      mkField "algorithm" TString false true ["fixed_window"; "sliding_window"; "token_bucket"];
      mkField "requests" TUint false true [];
      mkField "window" TDuration false true [];
      mkField "rate" TRate false true [];
      mkField "burst" TUint false true [];
      mkField "mode" TString false true ["enforce"; "shadow"]]);
   ("Cost", [
      mkField "actual_header" TString false false [];
      mkField "estimate" TInt false true [];
      mkField "estimate_header" TString false true [];
      mkField "on_missing" TString false true ["estimate"; "refund"];
      mkField "max_debt" TInt false true []]);
   ("Fallback", [
      mkField "allow" TUint false false []]);
   ("Cache", [
      mkField "ttl" TDuration false false [];
      mkField "key" TString false true []]);
   ("Retries", [
      mkField "attempts" TInt false false [];
      mkField "statuses" (TSlice TInt) false true [];
      mkField "backoff" TDuration false true [];
      mkField "per_attempt_timeout" TDuration false true [];
      mkField "non_idempotent" TBool false true []]);
   ("CORS", [
      mkField "origins" (TSlice TString) false false [];
      mkField "methods" (TSlice TString) false true [];
      mkField "headers" (TSlice TString) false true [];
      mkField "max_age" TDuration false true []]);
   ("Analytics", [
      mkField "enabled" TBool true true [];
      mkField "sample_rate" TFloat true true []]);
   ("UpstreamError", [
      mkField "mode" TString false false ["fail-closed"; "fail-open"];
      mkField "status" TInt false true [];
      mkField "body" TString false true [];
      mkField "headers" (TMap TString) false true []]);
   ("Runtime", [
      mkField "hub" (TStruct "HubRuntime") false true [];
      mkField "edge" (TStruct "EdgeRuntime") false true [];
      mkField "analytics" (TStruct "AnalyticsRuntime") false true []]);
   ("HubRuntime", [
      mkField "api_key_pattern" TString false true [];
      mkField "cors_headers" (TSlice TString) false true [];
      mkField "cors_methods" (TSlice TString) false true [];
      mkField "cors_max_age" TDuration false true [];
      mkField "read_timeout" TDuration false true [];
      mkField "write_timeout" TDuration false true [];
      mkField "shutdown_timeout" TDuration false true []]);
   ("EdgeRuntime", [
      mkField "lease_size" TInt false true [];
      mkField "lease_low_water_pct" TFloat false true [];
      mkField "analytics_buffer_size" TInt false true [];
      mkField "analytics_publish_timeout" TDuration false true [];
      mkField "cache_max_object_bytes" TInt false true [];
      mkField "upstream_timeout" TDuration false true [];
      mkField "upstream_max_idle_conns" TInt false true [];
      mkField "upstream_idle_conn_timeout" TDuration false true [];
      mkField "read_timeout" TDuration false true [];
      mkField "write_timeout" TDuration false true [];
      mkField "idle_timeout" TDuration false true []]);
   ("AnalyticsRuntime", [
      mkField "nats_subject" TString false true [];
      mkField "nats_queue" TString false true [];
      mkField "default_events_limit" TInt false true [];
      mkField "max_events_limit" TInt false true [];
      mkField "max_events_offset" TInt false true [];
      mkField "default_summary_limit" TInt false true [];
      mkField "max_summary_limit" TInt false true [];
      mkField "read_timeout" TDuration false true [];
      mkField "write_timeout" TDuration false true [];
      mkField "idle_timeout" TDuration false true [];
      mkField "config_fetch_timeout" TDuration false true [];
      mkField "shutdown_timeout" TDuration false true []])
  ].

(** ** The walk *)

Record lined_problem := mkLined {
  lp_Line : Z;
  lp_Path : string;
  lp_Msg : string + (string * list arg); (* a text, or a format with its arguments *)
}.

(** [parser]: the nodes by path, and the problems so far. *)
Record parser := mkParser { ps_nodes : gmap string nat; ps_problems : list lined_problem }.

Definition joinPath (path key : string) : string := if (path =? "")%string then key else path +:+ "." +:+ key.

Definition fieldNames (fields : list field) : list string := merge_sort String.le (fd_name <$> fields).

Definition unknown_field (line : Z) (path name : string) (fields : list field) : lined_problem :=
  let s := suggest name (fieldNames fields) in
  mkLined line path
    (inr (if (s =? "")%string then ("unknown field %q", [AStr name])
          else ("unknown field %q (did you mean %q?)", [AStr name; AStr s]))).

Fixpoint pairs (l : list nat) : list (nat * nat) :=
  match l with k :: v :: l => (k, v) :: pairs l | _ => [] end.

Definition each {A} (f : A → parser → option parser) (l : list A) (p : parser) : option parser :=
  foldl (λ r x, r ≫= f x) (Some p) l.

(** ** The library's messages *)

(** The number at the start of a text, and whether there is one. *)
Fixpoint leading_digits (acc : Z) (some : bool) (s : string) : option Z :=
  match s with
  | String c s' => match digit c with Some d => leading_digits (acc * 10 + d) true s' | None => if some then Some acc else None end
  | EmptyString => if some then Some acc else None
  end.

(** [lineOf]: the number of the first [line (\d+)]; [Atoi] gives the largest
    integer when it is out of range. *)
Fixpoint lineOf (msg : string) : Z :=
  match CutPrefix msg "line " ≫= leading_digits 0 false with
  | Some n => Z.min n int64_max
  | None => match msg with EmptyString => 0 | String _ msg => lineOf msg end
  end.

(** What follows the first colon and space. *)
Fixpoint after_colon (s : string) : option string :=
  match CutPrefix s ": " with
  | Some rest => Some rest
  | None => match s with EmptyString => None | String _ s => after_colon s end
  end.

Definition stripLine (msg : string) : string :=
  let msg := TrimPrefix msg "yaml: " in
  match after_colon msg with
  | Some rest => if HasPrefix msg "line " then rest else msg
  | None => msg
  end.

Definition friendlyTypeError (msg : string) : string :=
  Replace [("cannot unmarshal !!str", "expected a different type, got string");
           ("cannot unmarshal !!int", "expected a different type, got number");
           ("cannot unmarshal !!seq", "expected a different type, got a list");
           ("cannot unmarshal !!map", "expected a different type, got a mapping");
           ("config.", "")] msg.

(** The error of [Decode]: a list of mismatches, or another one. *)
Inductive decode_error := TypeError (errors : list string) | OtherError (msg : string).
Definition complaints (e : option decode_error) : list lined_problem :=
  match e with
  | None => []
  | Some (TypeError errors) => (λ msg, mkLined (lineOf msg) "" (inl (friendlyTypeError (stripLine msg)))) <$> errors
  | Some (OtherError msg) => [mkLined 0 "" (inl msg)]
  end.

Section walk.
Variable doc : document.
Variable types : schema.

(** [walk]; [None] when the fuel runs out. *)
Fixpoint walk (fuel : nat) (n : nat) (t : gotype) (path : string) (p : parser) : option parser :=
  match fuel with
  | O => None
  | S fuel =>
      let p := if (path =? "")%string then p else mkParser (<[path := n]> (ps_nodes p)) (ps_problems p) in
      let n := if decide (yn_Kind (node doc n) = Alias) then yn_Alias (node doc n) else n in
      let kind := yn_Kind (node doc n) in
      let content := yn_Content (node doc n) in
      match t with
      | TStruct name =>
          let fields := yamlFields types name in
          if decide (kind = Mapping) then
            each (λ '(k, v) p,
              if (yn_Tag (node doc k) =? "!!merge")%string then
                let merged := if decide (yn_Kind (node doc v) = Sequence) then yn_Content (node doc v) else [v] in
                each (λ m p, walk fuel m t path p) merged p
              else
                let name := yn_Value (node doc k) in
                let child := joinPath path name in
                match find (λ f, (fd_name f =? name)%string) fields with
                | None => Some (mkParser (ps_nodes p) (ps_problems p ++ [unknown_field (yn_Line (node doc k)) child name fields]))
                | Some f => walk fuel v (fd_type f) child p
                end) (pairs content) p
          else Some p
      | TMap elem =>
          if decide (kind = Mapping) then
            each (λ '(k, v) p, walk fuel v elem (joinPath path (yn_Value (node doc k))) p) (pairs content) p
          else Some p
      | TSlice elem =>
          if decide (kind = Sequence) then
            each (λ '(i, el) p, walk fuel el elem (nth_path path i) p) (zip (seq 0 (length content)) content) p
          else Some p
      | _ => Some p
      end
  end.

(** ** Lines of problems *)

(** The path up to its last dot or bracket. *)
Fixpoint parent (path : string) : option string :=
  match path with
  | EmptyString => None
  | String c path =>
      match parent path with
      | Some q => Some (String c q)
      | None => if (c =? ".")%char || (c =? "[")%char then Some "" else None
      end
  end.

(** The loop of [at]. *)
Fixpoint line_from (fuel : nat) (nodes : gmap string nat) (q : string) : Z :=
  match fuel with
  | O => 0
  | S fuel =>
      match nodes !! q with
      | Some n => yn_Line (node doc n)
      | None => match parent q with None => 0 | Some q => line_from fuel nodes q end
      end
  end.
Definition line_at (nodes : gmap string nat) (path : string) : Z := line_from (S (String.length path)) nodes path.

Definition at_line (nodes : gmap string nat) (p : Problem) : lined_problem :=
  mkLined (line_at nodes (pr_Path p)) (pr_Path p) (inr (pr_Format p, pr_Args p)).

(** ** Parsing *)

(** [sort.SliceStable] by line. *)
Fixpoint insert_line (x : lined_problem) (l : list lined_problem) : list lined_problem :=
  match l with
  | [] => [x]
  | y :: l' => if lp_Line x <=? lp_Line y then x :: l else y :: insert_line x l'
  end.
Definition sort_lines (l : list lined_problem) : list lined_problem := foldr insert_line [] l.

Definition hasKey (n : nat) (key : string) : bool :=
  existsb (λ kv, (yn_Value (node doc kv.1) =? key)%string) (pairs (yn_Content (node doc n))).

(** The problems that are reported: those of the document's structure, and
    those of the checks on lines without one. *)
Definition kept (structural semantic : list lined_problem) : list lined_problem :=
  structural ++ List.filter (λ p, (lp_Line p =? 0) || negb (existsb (λ q, lp_Line q =? lp_Line p) structural)) semantic.

(** The problems of a file, by line, as [err] gives them. *)
Record Error := mkError { ce_File : string; ce_Problems : list lined_problem }.

Definition displayName (name : string) : string := if (name =? "")%string then "<file>" else name.

Variable range_cost : gmap string Z → list (string * Z).
Variable range_floors : gmap string float64 → list (string * float64).
Variable url_Parse : string → option URL.
Variable regexp_ok : string → bool.

(** [Parse]: [unmarshalled] is the library's syntax error, or the document's
    content if it has any; [decoded] what it decodes the content to, with its
    complaints.  [None]: the walk needs more fuel. *)
Definition Parse (fuel : nat) (name : string) (unmarshalled : string + option nat)
    (decoded : File * option decode_error) : option (result Error File) :=
  let refuse line msg := Some (Err (mkError name [mkLined line "" (inl msg)])) in
  match unmarshalled with
  | inl e => refuse (lineOf e) (TrimPrefix (stripLine e) "yaml: ")
  | inr None => refuse 0 "file is empty"
  | inr (Some n) =>
      let line := yn_Line (node doc n) in
      if negb (bool_decide (yn_Kind (node doc n) = Mapping))
      then refuse line "expected a mapping with version and services"
      else if hasKey n "prefixes" && negb (hasKey n "version")
      then refuse line ("this is a version 1 config; convert it with: gate config migrate " +:+ displayName name)
      else
        p ← walk fuel n (TStruct "File") "" (mkParser ∅ []);
        let structural := ps_problems p ++ complaints (snd decoded) in
        match kept structural (at_line (ps_nodes p) <$> validate range_cost range_floors url_Parse regexp_ok (fst decoded)) with
        | [] => Some (Ok (fst decoded))
        | ps => Some (Err (mkError name (sort_lines ps)))
        end
  end.
End walk.
