(* ===== verification/LoadProps.v ===== *)
(** * What reading a configuration file promises

    The edit distance is the least number of edits; the suggestion is the
    closest field; a file is accepted exactly when nothing is wrong with it;
    and the walk ends on every document whose aliases do not form a cycle. *)

From S2P Require Import Prelude Float64 GoLib Policies.
From S2P Require Import Config ConfigFile ConfigCheck ConfigLoad.
From Stdlib Require Import Ascii.
From stdpp Require Import sorting.

Local Open Scope nat_scope.

(** ** Edit distance *)

(** [a] becomes [b] with [n] insertions, deletions and replacements. *)
Inductive edits : list ascii → list ascii → nat → Prop :=
| edits_nil : edits [] [] 0
| edits_keep c a b n : edits a b n → edits (c :: a) (c :: b) n
| edits_replace c d a b n : edits a b n → edits (c :: a) (d :: b) (S n)
| edits_delete c a b n : edits a b n → edits (c :: a) b (S n)
| edits_insert c a b n : edits a b n → edits a (c :: b) (S n).

Lemma edits_app a b n c d m : edits a b n → edits c d m → edits (a ++ c) (b ++ d) (n + m).
Proof. induction 1; intros; cbn; eauto using edits. Qed.

Lemma edits_reverse a b n : edits a b n → edits (reverse a) (reverse b) n.
Proof.
  induction 1 as [|c a b n H IH|c d a b n H IH|c a b n H IH|c a b n H IH]; [constructor|rewrite ?reverse_cons..].
  - rewrite <- (Nat.add_0_r n). apply edits_app; [done|]. repeat constructor.
  - rewrite <- Nat.add_1_r. apply edits_app; [done|]. repeat constructor.
  - rewrite <- Nat.add_1_r, <- (app_nil_r (reverse b)). apply edits_app; [done|]. repeat constructor.
  - rewrite <- Nat.add_1_r, <- (app_nil_r (reverse a)). apply edits_app; [done|]. repeat constructor.
Qed.

(** The recurrence the rows compute. *)
Definition differ (c d : ascii) : nat := if (c =? d)%char then 0 else 1.
Fixpoint lev (a : list ascii) : list ascii → nat :=
  match a with
  | [] => length
  | c :: a =>
      fix go (b : list ascii) : nat :=
        match b with
        | [] => S (length a)
        | d :: b => (lev a (d :: b) + 1) `min` (go b + 1) `min` (lev a b + differ c d)
        end
  end.

Lemma lev_nil_r a : lev a [] = length a.
Proof. by destruct a. Qed.
Lemma lev_cons c a d b : lev (c :: a) (d :: b) = (lev a (d :: b) + 1) `min` (lev (c :: a) b + 1) `min` (lev a b + differ c d).
Proof. done. Qed.

Lemma lev_edits a b : edits a b (lev a b).
Proof.
  revert b. induction a as [|c a IHa]; intros b.
  - induction b; cbn; eauto using edits.
  - induction b as [|d b IHb]; [rewrite lev_nil_r; cbn; rewrite <- (lev_nil_r a); eauto using edits|].
    rewrite lev_cons. unfold differ. destruct (Ascii.eqb_spec c d) as [->|_].
    + repeat apply Nat.min_case; rewrite ?Nat.add_1_r, ?Nat.add_0_r; eauto using edits.
    + repeat apply Nat.min_case; rewrite ?Nat.add_1_r; eauto using edits.
Qed.

Lemma lev_least a b n : edits a b n → lev a b ≤ n.
Proof.
  induction 1 as [|c a b n H IH|c d a b n H IH|c a b n H IH|c a b n H IH]; [done| | | |].
  - rewrite lev_cons. unfold differ. rewrite Ascii.eqb_refl. lia.
  - rewrite lev_cons. unfold differ. destruct (_ =? _)%char; lia.
  - destruct b as [|d b]; [rewrite lev_nil_r in *; cbn; lia|rewrite lev_cons; lia].
  - destruct a as [|d a]; [cbn in *; lia|rewrite lev_cons; lia].
Qed.

(** The row of distances from [ra] to the prefixes of [b], which follow [rb];
    prefixes are reversed, so that they grow at the front. *)
Fixpoint levs (ra rb b : list ascii) : list nat :=
  lev ra rb :: match b with [] => [] | c :: b => levs ra (c :: rb) b end.

Lemma next_row_exact c ra rb b : next_row c b (levs ra rb b) (lev (c :: ra) rb) = tail (levs (c :: ra) rb b).
Proof.
  revert rb. induction b as [|d b IH]; intros rb; [done|].
  cbn [levs tail]. cbn [next_row]. destruct (levs ra (d :: rb) b) as [|up row] eqn:E; [by destruct b|].
  assert (up = lev ra (d :: rb)) as -> by (destruct b; cbn in E; congruence).
  fold (differ c d). rewrite <- lev_cons. rewrite <- E, IH. by destruct b.
Qed.

Lemma row_zero rb b : seq (length rb) (S (length b)) = levs [] rb b.
Proof. revert rb. induction b as [|c b IH]; intros rb; [done|]. cbn [levs length seq]. f_equal. apply (IH (c :: rb)). Qed.

Lemma rows_exact b a ra :
  foldl (row_after b) (length ra, levs ra [] b) a = (length (reverse a ++ ra), levs (reverse a ++ ra) [] b).
Proof.
  revert ra. induction a as [|c a IH]; intros ra; [done|]. cbn [foldl]. rewrite reverse_cons, <- app_assoc. cbn [app].
  rewrite <- IH. f_equal. unfold row_after. cbn [fst snd length]. f_equal.
  rewrite <- (lev_nil_r (c :: ra)) at 1. cbn [length]. 
  pose proof (next_row_exact c ra [] b) as H. rewrite lev_nil_r in H. cbn [length] in H. rewrite H. by destruct b.
Qed.

Lemma levs_last ra rb b : List.last (levs ra rb b) 0 = lev ra (reverse b ++ rb).
Proof.
  revert rb. induction b as [|c b IH]; intros rb; [done|]. rewrite reverse_cons, <- app_assoc. cbn [app].
  rewrite <- IH. cbn [levs]. by destruct b.
Qed.

(** The edit distance is the least number of edits between the two words. *)
Theorem editDistance_least a b : edits a b (editDistance a b) ∧ ∀ n, edits a b n → editDistance a b ≤ n.
Proof.
  assert (E : editDistance a b = lev (reverse a) (reverse b)).
  { unfold editDistance. change (0, seq 0 (S (length b))) with (length (@nil ascii), seq (length (@nil ascii)) (S (length b))).
    rewrite row_zero, rows_exact. cbn [snd]. by rewrite levs_last, !app_nil_r. }
  rewrite E. split.
  - pose proof (edits_reverse _ _ _ (lev_edits (reverse a) (reverse b))) as H. by rewrite !reverse_involutive in H.
  - intros n H. by apply lev_least, edits_reverse.
Qed.

(** ** Suggestions *)

(** The suggestion is the first of the closest candidates, if one is within
    two edits. *)
Theorem suggest_closest word candidates :
  let d c := editDistance (chars (ToLower word)) (chars c) in
  (suggest word candidates = "" ∧ ∀ c, c ∈ candidates → 3 ≤ d c)
  ∨ (∃ before after, candidates = before ++ suggest word candidates :: after ∧ d (suggest word candidates) < 3
      ∧ (∀ c, c ∈ before → d (suggest word candidates) < d c) ∧ (∀ c, c ∈ after → d (suggest word candidates) ≤ d c)).
Proof.
  cbv zeta. unfold suggest. set (d := λ c, editDistance (chars (ToLower word)) (chars c)).
  assert (H : let best := foldl (suggest_step (chars (ToLower word))) ("", 3) candidates in
    (best = ("", 3) ∧ ∀ c, c ∈ candidates → 3 ≤ d c)
    ∨ (∃ before after, candidates = before ++ best.1 :: after ∧ best.2 = d best.1 ∧ best.2 < 3
       ∧ (∀ c, c ∈ before → best.2 < d c) ∧ (∀ c, c ∈ after → best.2 ≤ d c))).
  { cbv zeta. induction candidates as [|c l IH] using rev_ind; [left; split; [done|set_solver]|].
    rewrite foldl_snoc. set (best := foldl _ _ _) in *. clearbody best. unfold suggest_step. fold (d c).
    destruct (Nat.ltb_spec (d c) best.2) as [Hlt|Hge].
    - right. exists l, []. cbn. destruct IH as [[-> IH]|(before & after & -> & E & H3 & Hb & Ha)]; cbn in *.
      + split_and!; [done|done|done| |set_solver]. intros c' Hc'. specialize (IH c' Hc'). lia.
      + split_and!; [done|done|lia| |set_solver]. intros c' Hc'. apply elem_of_app in Hc' as [Hc'|Hc'].
        * specialize (Hb c' Hc'). lia.
        * apply elem_of_cons in Hc' as [->|Hc']; [lia|]. specialize (Ha c' Hc'). lia.
    - destruct IH as [[E IH]|(before & after & E' & E & H3 & Hb & Ha)].
      + left. split; [done|]. intros c' Hc'. apply elem_of_app in Hc' as [Hc'|Hc']; [by apply IH|].
        apply list_elem_of_singleton in Hc' as ->. by rewrite E in Hge.
      + right. exists before, (after ++ [c]). rewrite E', <- app_assoc. split_and!; [done|done|done|done|].
        intros c' Hc'. apply elem_of_app in Hc' as [Hc'|Hc']; [by apply Ha|]. apply list_elem_of_singleton in Hc' as ->. done. }
  cbv zeta in H. set (best := foldl _ _ _) in *. clearbody best. destruct H as [[-> H]|(before & after & E & E2 & H)]; [by left|].
  right. exists before, after. rewrite E2 in H. split; [done|exact H].
Qed.

(** ** The walk *)

(** A document without cycles: there is a measure that children and the
    targets of aliases lower. *)
Definition acyclic (doc : document) (rank : nat → nat) : Prop :=
  ∀ n, (∀ c, c ∈ yn_Content (node doc n) → rank c < rank n)
       ∧ (yn_Kind (node doc n) = Alias → rank (yn_Alias (node doc n)) < rank n).

Lemma each_returns {A} (f : A → parser → option parser) l p :
  (∀ x p, x ∈ l → is_Some (f x p)) → is_Some (each f l p).
Proof.
  unfold each. revert p. induction l as [|x l IH]; intros p H; [by eexists|]. cbn.
  destruct (H x p) as [p' ->]; [by left|]. apply IH. intros y q Hy. apply H. by right.
Qed.

Lemma pairs_in l k v : (k, v) ∈ pairs l → k ∈ l ∧ v ∈ l.
Proof.
  remember (length l) as n eqn:Hn. revert l Hn. induction n as [n IH] using lt_wf_ind. intros [|a [|b l]] -> H; cbn in H;
    [by apply elem_of_nil in H..|].
  apply elem_of_cons in H as [[= -> ->]|H]; [set_solver|]. destruct (IH (length l) ltac:(cbn; lia) l eq_refl H). set_solver.
Qed.

(** The walk ends: on a document without cycles, fuel above the rank of the
    node suffices. *)
Theorem walk_ends doc types rank : acyclic doc rank →
  ∀ fuel n t path p, rank n < fuel → is_Some (walk doc types fuel n t path p).
Proof.
  intros Hrank. induction fuel as [|fuel IH]; intros n t path p Hf; [lia|]. cbn [walk].
  set (m := if decide (yn_Kind (node doc n) = Alias) then _ else n).
  assert (Hm : rank m ≤ rank n) by (unfold m; case_decide; [apply Nat.lt_le_incl, (Hrank n); done|done]).
  assert (Hc : ∀ c, c ∈ yn_Content (node doc m) → rank c < fuel) by (intros c Hc; apply (Hrank m) in Hc; lia).
  destruct t as [name|elem|elem| | | | | | |]; try (by eexists); (case_decide; [|by eexists]); apply each_returns.
  - intros [k v] q Hkv. apply pairs_in in Hkv as [_ Hv]. case_match.
    + apply each_returns. intros x q' Hx. apply IH. specialize (Hc v Hv). case_decide; [|set_solver].
      apply (Hrank v) in Hx. lia.
    + case_match; [|by eexists]. apply IH, Hc, Hv.
  - intros [k v] q Hkv. apply pairs_in in Hkv as [_ Hv]. apply IH, Hc, Hv.
  - intros [i el] q Hel. apply elem_of_zip_r in Hel. apply IH, Hc, Hel.
Qed.

(** A mapping that merges itself, [&a {<<: *a}]: the walk never ends, whatever
    structure it is read as. *)
Definition self_merge : document :=
  [mkNode Mapping "!!map" "" 1 [1; 2] 0; mkNode Scalar "!!merge" "<<" 1 [] 0; mkNode Alias "" "a" 1 [] 0].

Theorem self_merge_never_ends types name fuel path p : walk self_merge types fuel 0 (TStruct name) path p = None.
Proof.
  assert (H : ∀ n, n = 0 ∨ n = 2 → ∀ path p, walk self_merge types fuel n (TStruct name) path p = None);
    [|apply H; by left].
  induction fuel as [|fuel IH]; intros n Hn path' p'; [done|]. cbn [walk].
  destruct Hn as [-> | ->]; unfold each; simpl; by rewrite (IH 2) by tauto.
Qed.

(** ** Parsing *)

Lemma insert_line_perm x l : insert_line x l ≡ₚ x :: l.
Proof. induction l as [|y l IH]; [done|]. cbn. case_match; [done|]. rewrite IH. apply Permutation_swap. Qed.

Lemma sort_lines_perm l : sort_lines l ≡ₚ l.
Proof. induction l as [|x l IH]; [done|]. cbn. by rewrite insert_line_perm, IH. Qed.

Definition line_le (p q : lined_problem) : Prop := (lp_Line p ≤ lp_Line q)%Z.

Lemma insert_line_sorted x l : Sorted line_le l → Sorted line_le (insert_line x l).
Proof.
  unfold line_le. induction 1 as [|y l Hl IH Hy]; [by repeat constructor|]. cbn.
  destruct (Z.leb_spec (lp_Line x) (lp_Line y)); [by repeat constructor|]. constructor; [done|].
  destruct l as [|z l]; cbn; [constructor; lia|]. inversion Hy. case_match; constructor; lia.
Qed.

Lemma sort_lines_sorted l : Sorted line_le (sort_lines l).
Proof. induction l as [|x l IH]; [constructor|]. by apply insert_line_sorted. Qed.

(** What a report holds of the problems found. *)
Record reported (structural semantic ps : list lined_problem) : Prop := {
  rp_some : ps ≠ [];
  rp_sorted : Sorted line_le ps;
  rp_structural : ∀ q, q ∈ structural → q ∈ ps;
  rp_semantic : ∀ q, q ∈ semantic → q ∈ ps ∨ ∃ q', q' ∈ structural ∧ lp_Line q' = lp_Line q;
  rp_only : ∀ q, q ∈ ps → q ∈ structural ∨ q ∈ semantic;
}.

Lemma kept_reported structural semantic :
  match kept structural semantic with
  | [] => structural = [] ∧ semantic = []
  | ps => reported structural semantic (sort_lines ps)
  end.
Proof.
  assert (Hin : ∀ q, q ∈ kept structural semantic ↔ q ∈ structural
    ∨ (q ∈ semantic ∧ (lp_Line q = 0%Z ∨ ¬ ∃ q', q' ∈ structural ∧ lp_Line q' = lp_Line q))).
  { intros q. unfold kept. rewrite elem_of_app, !list_elem_of_In, List.filter_In, orb_true_iff, negb_true_iff, Z.eqb_eq.
    assert (Hex : existsb (λ q', (lp_Line q' =? lp_Line q)%Z) structural = false ↔ ¬ ∃ q', q' ∈ structural ∧ lp_Line q' = lp_Line q).
    { rewrite <- not_true_iff_false, List.existsb_exists. setoid_rewrite list_elem_of_In. by setoid_rewrite Z.eqb_eq. }
    by rewrite Hex. }
  destruct (kept structural semantic) as [|x ps] eqn:E.
  - unfold kept in E. apply app_eq_nil in E as [-> E]. split; [done|]. cbn in E.
    destruct semantic as [|q l]; [done|]. cbn in E. by rewrite orb_true_r in E.
  - split; [|apply sort_lines_sorted|..].
    + intros En. apply (f_equal length) in En. rewrite (Permutation_length (sort_lines_perm _)) in En. done.
    + intros q Hq. rewrite sort_lines_perm. apply Hin. by left.
    + intros q Hq. rewrite sort_lines_perm, Hin.
      destruct (decide (Exists (λ q', lp_Line q' = lp_Line q) structural)) as [He|He]; rewrite Exists_exists in He; [by right|].
      left. right. tauto.
    + intros q. rewrite sort_lines_perm, Hin. tauto.
Qed.


(** A file with a misspelt field. *)
Module Example_load.
(** [{version: 2, servces: []}]. *)
Definition misspelt : document :=
  [mkNode Mapping "!!map" "" 1 [1; 2; 3; 4] 0; mkNode Scalar "!!str" "version" 1 [] 0; mkNode Scalar "!!int" "2" 1 [] 0;
   mkNode Scalar "!!str" "servces" 2 [] 0; mkNode Sequence "!!seq" "" 2 [] 0].
Definition f : File := FromInternal (mkGateway [] DefaultRuntimePolicy []).
Definition parsed : option (result Error File) :=
  Parse misspelt file_schema map_to_list map_to_list (λ _, None) (λ _, true) 2 "gate.yaml" (inr (Some 0)) (f, None).

End Example_load.
