(* ===== verification/JsonSchema.v ===== *)
(** * The published JSON Schema ([packages/config/jsonschema.go])

    Editors check configuration files against a JSON Schema that Gate generates
    from the types of its configuration.  The schema admits a document exactly
    when the document has the shape of those types, and a document it admits
    has no field the loader does not know.  Regular expressions are a parameter;
    descriptions, which constrain nothing, are left out. *)

From S2P Require Import Prelude Float64 GoLib Policies.
From S2P Require Import Config ConfigFile ConfigCheck ConfigLoad LoadProps.
From Stdlib Require Import Ascii.

Local Open Scope Z_scope.

(** ** Generating the schema *)

(** The keywords of a type that is neither a struct nor a collection. *)
Inductive leaf := LString | LBoolean | LNumber | LUnsigned | LInteger | LPattern (pattern : string).
#[export] Instance leaf_eq : EqDecision leaf.
Proof. solve_decision. Defined.

(** A schema, each with the values of its [enum] keyword, if it has one. *)
Inductive jschema :=
| SRef (enum : list string) (name : string)
| SObject (enum : list string) (props : list (string * jschema)) (required : list string)
| SMapOf (enum : list string) (elem : jschema)
| SArray (enum : list string) (items : jschema)
| SLeaf (enum : list string) (kind : leaf).

Definition enum_of (s : jschema) : list string :=
  match s with SRef e _ | SObject e _ _ | SMapOf e _ | SArray e _ | SLeaf e _ => e end.

(** [withKeyword(s, "enum", e)], when the field has values. *)
Definition with_enum (e : list string) (s : jschema) : jschema :=
  match e with
  | [] => s
  | _ => match s with
         | SRef _ n => SRef e n
         | SObject _ props required => SObject e props required
         | SMapOf _ elem => SMapOf e elem
         | SArray _ items => SArray e items
         | SLeaf _ kind => SLeaf e kind
         end
  end.

Record schemaGen := mkGen {
  sg_defs : gmap string jschema;
  sg_visiting : gset string;
  sg_recursive : gset string;
}.

Definition rate_pattern : string := "^[0-9]+(\.[0-9]+)?/(s|m|h)$".
Definition duration_pattern : string := "^([0-9]+(\.[0-9]+)?(ns|us|µs|ms|s|m|h))+$".

Definition is_required (f : field) : bool := negb (fd_omitempty f) && negb (fd_pointer f).

Section generate.
Variable types : schema.

(** [schemaFor] and, for the fields of a struct, [structSchema]; [None] when
    the fuel runs out. *)
Fixpoint schemaFor (fuel : nat) (t : gotype) (g : schemaGen) : option (jschema * schemaGen) :=
  match fuel with
  | O => None
  | S fuel =>
      match t with
      | TStruct name =>
          if decide (name ∈ sg_visiting g)
          then Some (SRef [] name, mkGen (sg_defs g) (sg_visiting g) ({[name]} ∪ sg_recursive g))
          else if decide (is_Some (sg_defs g !! name)) then Some (SRef [] name, g)
          else
            let fields := yamlFields types name in
            '(props, g) ←
              foldl (λ acc f,
                '(props, g) ← acc;
                '(p, g) ← schemaFor fuel (fd_type f) g;
                Some (props ++ [(fd_name f, with_enum (fd_enum f) p)], g))
                (Some ([], mkGen (sg_defs g) ({[name]} ∪ sg_visiting g) (sg_recursive g))) fields;
            let s := SObject [] props (fd_name <$> filter (λ f, is_required f = true) fields) in
            let g := mkGen (sg_defs g) (sg_visiting g ∖ {[name]}) (sg_recursive g) in
            if decide (name ∈ sg_recursive g)
            then Some (SRef [] name, mkGen (<[name := s]> (sg_defs g)) (sg_visiting g) (sg_recursive g))
            else Some (s, g)
      | TMap elem => '(s, g) ← schemaFor fuel elem g; Some (SMapOf [] s, g)
      | TSlice elem => '(s, g) ← schemaFor fuel elem g; Some (SArray [] s, g)
      | TString => Some (SLeaf [] LString, g)
      | TBool => Some (SLeaf [] LBoolean, g)
      | TFloat => Some (SLeaf [] LNumber, g)
      | TUint => Some (SLeaf [] LUnsigned, g)
      | TInt => Some (SLeaf [] LInteger, g)
      | TDuration => Some (SLeaf [] (LPattern duration_pattern), g)
      | TRate => Some (SLeaf [] (LPattern rate_pattern), g)
      end
  end.
End generate.

(** The schema of a file and its definitions; types nest less than 16 deep. *)
Definition JSONSchema : option (jschema * gmap string jschema) :=
  '(s, g) ← schemaFor file_schema 16 (TStruct "File") (mkGen ∅ ∅ ∅); Some (s, sg_defs g).

(** ** Documents *)

Inductive json := JNull | JBool (b : bool) | JInt (n : Z) | JReal (x : float64) | JString (s : string)
| JArray (l : list json) | JObject (kvs : list (string * json)).

Section documents.
(** Whether a text matches a pattern. *)
Variable matches : string → string → bool.

Definition enum_ok (e : list string) (v : json) : bool :=
  match e with [] => true | _ => match v with JString s => bool_decide (s ∈ e) | _ => false end end.

Definition leaf_ok (k : leaf) (v : json) : bool :=
  match k, v with
  | LString, JString _ => true
  | LBoolean, JBool _ => true
  | LNumber, (JInt _ | JReal _) => true
  | LUnsigned, JInt n => 0 <=? n
  | LInteger, JInt _ => true
  | LPattern p, JString s => matches p s
  | _, _ => false
  end.

(** *** What JSON Schema says of a document *)

Definition present (kvs : list (string * json)) (name : string) : bool := existsb (λ kv, (kv.1 =? name)%string) kvs.

Section admits.
Variable defs : gmap string jschema.

Definition deref_schema (s : jschema) : jschema := match s with SRef _ n => default s (defs !! n) | _ => s end.

Fixpoint admits (s : jschema) (v : json) {struct v} : bool :=
  enum_ok (enum_of s) v && enum_ok (enum_of (deref_schema s)) v
  && match deref_schema s, v with
     | SObject _ props required, JObject kvs =>
         forallb (λ kv, match find (λ p, (p.1 =? kv.1)%string) props with Some p => admits p.2 kv.2 | None => false end) kvs
         && forallb (present kvs) required
     | SMapOf _ elem, JObject kvs => forallb (λ kv, admits elem kv.2) kvs
     | SArray _ items, JArray l => forallb (admits items) l
     | SLeaf _ k, v => leaf_ok k v
     | _, _ => false
     end.
End admits.

(** *** What the types say of it *)

Definition leaf_of (t : gotype) : option leaf :=
  match t with
  | TString => Some LString | TBool => Some LBoolean | TFloat => Some LNumber | TUint => Some LUnsigned | TInt => Some LInteger
  | TDuration => Some (LPattern duration_pattern) | TRate => Some (LPattern rate_pattern)
  | _ => None
  end.

Fixpoint typed (types : schema) (t : gotype) (v : json) {struct v} : bool :=
  match t, v with
  | TStruct name, JObject kvs =>
      forallb (λ kv, match find (λ f, (fd_name f =? kv.1)%string) (yamlFields types name) with
                     | Some f => enum_ok (fd_enum f) kv.2 && typed types (fd_type f) kv.2
                     | None => false
                     end) kvs
      && forallb (λ f, negb (is_required f) || present kvs (fd_name f)) (yamlFields types name)
  | TMap elem, JObject kvs => forallb (λ kv, typed types elem kv.2) kvs
  | TSlice elem, JArray l => forallb (typed types elem) l
  | t, v => match leaf_of t with Some k => leaf_ok k v | None => false end
  end.

(** *** A schema that stands for a type *)

Fixpoint describes (defs : gmap string jschema) (types : schema) (s : jschema) (t : gotype) {struct s} : bool :=
  match s, t with
  | SRef _ n, TStruct m => (n =? m)%string && bool_decide (is_Some (defs !! n))
  | SObject _ props required, TStruct m =>
      (fix go props fields :=
         match props, fields with
         | [], [] => true
         | (name, p) :: props, f :: fields =>
             (name =? fd_name f)%string && bool_decide (enum_of p = fd_enum f) && describes defs types p (fd_type f) && go props fields
         | _, _ => false
         end) props (yamlFields types m)
      && bool_decide (required = fd_name <$> filter (λ f, is_required f = true) (yamlFields types m))
  | SMapOf _ s, TMap t => bool_decide (enum_of s = []) && describes defs types s t
  | SArray _ s, TSlice t => bool_decide (enum_of s = []) && describes defs types s t
  | SLeaf _ k, t => bool_decide (leaf_of t = Some k)
  | _, _ => false
  end.

Definition is_object (s : jschema) : bool := match s with SObject [] _ _ => true | _ => false end.
Definition defs_ok (defs : gmap string jschema) (types : schema) : Prop :=
  map_Forall (λ n d, is_object d = true ∧ describes defs types d (TStruct n) = true) defs.
End documents.

(** The generated schema stands for the type of files. *)
Definition schema_checked (r : option (jschema * gmap string jschema)) : bool :=
  match r with
  | Some (s, defs) =>
      bool_decide (enum_of s = []) && describes defs file_schema s (TStruct "File")
      && forallb (λ nd, is_object nd.2 && describes defs file_schema nd.2 (TStruct nd.1)) (map_to_list defs)
  | None => false
  end.

Lemma JSONSchema_checked : schema_checked JSONSchema = true.
Proof. vm_compute. reflexivity. Qed.

Lemma schema_checked_spec r : schema_checked r = true → ∃ s defs, r = Some (s, defs) ∧ enum_of s = [] ∧
  describes defs file_schema s (TStruct "File") = true ∧ defs_ok defs file_schema.
Proof.
  destruct r as [[s defs]|]; [|done]. cbn [schema_checked]. rewrite !andb_true_iff, bool_decide_eq_true, forallb_forall.
  intros [[He Hs] Hd]. exists s, defs. split_and!; [done..|]. intros n d Hn.
  apply elem_of_map_to_list, list_elem_of_In in Hn. apply Hd in Hn. cbn in Hn. by apply andb_true_iff in Hn.
Qed.

(** ** The schema and the types agree *)

Fixpoint json_size (v : json) : nat :=
  match v with
  | JArray l => S (list_sum (json_size <$> l))
  | JObject kvs => S (list_sum ((λ kv, json_size kv.2) <$> kvs))
  | _ => 1
  end.

Lemma json_size_elem (l : list json) v : v ∈ l → (json_size v ≤ list_sum (json_size <$> l))%nat.
Proof. induction 1; csimpl; lia. Qed.
Lemma json_size_member (kvs : list (string * json)) kv : kv ∈ kvs → (json_size kv.2 ≤ list_sum ((λ kv, json_size kv.2) <$> kvs))%nat.
Proof. induction 1; csimpl; lia. Qed.

Lemma forallb_eq {A} (f g : A → bool) l : (∀ x, x ∈ l → f x = g x) → forallb f l = forallb g l.
Proof.
  induction l as [|x l IH]; intros H; [done|]. cbn. rewrite H by (by left). f_equal. apply IH. intros y Hy. apply H. by right.
Qed.

Section agree.
Variable matches : string → string → bool.
Variable defs : gmap string jschema.
Variable types : schema.
Hypothesis Hdefs : defs_ok defs types.

(** The properties of a struct's schema are its fields, in order. *)
Lemma describes_object e props required m : describes defs types (SObject e props required) (TStruct m) = true →
  Forall2 (λ p f, p.1 = fd_name f ∧ enum_of p.2 = fd_enum f ∧ describes defs types p.2 (fd_type f) = true) props (yamlFields types m)
  ∧ required = fd_name <$> filter (λ f, is_required f = true) (yamlFields types m).
Proof.
  cbn [describes]. rewrite andb_true_iff, bool_decide_eq_true. intros [H ->]. split; [|done].
  generalize (yamlFields types m) H. clear. induction props as [|[name p] props IH]; intros [|f fields] H; try done.
  rewrite !andb_true_iff, bool_decide_eq_true in H. destruct H as [[[Hn He] Hd] H]. apply String.eqb_eq in Hn.
  constructor; [done|by apply IH].
Qed.

Lemma find_field props fields name :
  Forall2 (λ p f, p.1 = fd_name f ∧ enum_of p.2 = fd_enum f ∧ describes defs types p.2 (fd_type f) = true) props fields →
  match find (λ p, (p.1 =? name)%string) props, find (λ f, (fd_name f =? name)%string) fields with
  | Some p, Some f => enum_of p.2 = fd_enum f ∧ describes defs types p.2 (fd_type f) = true
  | None, None => True
  | _, _ => False
  end.
Proof.
  induction 1 as [|[n p] f props fields (Hn & He & Hd) _ IH]; [done|]. cbn in *. subst n. by destruct (fd_name f =? name)%string.
Qed.

Lemma required_present kvs fields :
  forallb (present kvs) (fd_name <$> filter (λ f, is_required f = true) fields)
  = forallb (λ f, negb (is_required f) || present kvs (fd_name f)) fields.
Proof.
  induction fields as [|f fields IH]; [done|]. rewrite filter_cons. cbn [forallb].
  destruct (is_required f) eqn:E; case_decide; try done; cbn; by rewrite IH.
Qed.

Lemma struct_agrees v props required name :
  (∀ s t v', (json_size v' < json_size v)%nat → describes defs types s t = true →
     admits matches defs s v' = enum_ok (enum_of s) v' && typed matches types t v') →
  describes defs types (SObject [] props required) (TStruct name) = true →
  match v with
  | JObject kvs =>
      forallb (λ kv, match find (λ p, (p.1 =? kv.1)%string) props with Some p => admits matches defs p.2 kv.2 | None => false end) kvs
      && forallb (present kvs) required
  | _ => false
  end = typed matches types (TStruct name) v.
Proof using Type.
  intros IH Hd. destruct v as [| | | | | |kvs]; try done. apply describes_object in Hd as [Hf ->]. cbn [typed].
  rewrite required_present. f_equal. apply forallb_eq. intros kv Hkv. pose proof (find_field _ _ kv.1 Hf) as H.
  destruct (find _ props) as [p|], (find _ (yamlFields types name)) as [f|]; try done. destruct H as [He Hp].
  rewrite (IH p.2 (fd_type f)), He; [done| |done]. cbn. apply json_size_member in Hkv. lia.
Qed.

Lemma admits_typed s t v : describes defs types s t = true →
  admits matches defs s v = enum_ok (enum_of s) v && typed matches types t v.
Proof using Hdefs.
  remember (json_size v) as n eqn:Hn. revert s t v Hn. induction n as [n IH] using lt_wf_ind. intros s t v -> Hd.
  assert (IH' : ∀ s t v', (json_size v' < json_size v)%nat → describes defs types s t = true →
     admits matches defs s v' = enum_ok (enum_of s) v' && typed matches types t v') by (intros; by eapply IH).
  assert (Eq : admits matches defs s v = enum_ok (enum_of s) v && enum_ok (enum_of (deref_schema defs s)) v
    && match deref_schema defs s, v with
       | SObject _ props required, JObject kvs =>
           forallb (λ kv, match find (λ p, (p.1 =? kv.1)%string) props with Some p => admits matches defs p.2 kv.2 | None => false end) kvs
           && forallb (present kvs) required
       | SMapOf _ elem, JObject kvs => forallb (λ kv, admits matches defs elem kv.2) kvs
       | SArray _ items, JArray l => forallb (admits matches defs items) l
       | SLeaf _ k, v => leaf_ok matches k v
       | _, _ => false
       end) by (by destruct v).
  rewrite Eq. clear Eq. destruct s as [e m|e props required|e elem|e items|e k], t as [name|t'|t'| | | | | | |]; try done; cbn [deref_schema enum_of];
    try (cbn [describes leaf_of] in Hd; apply bool_decide_eq_true in Hd; simplify_eq; rewrite andb_diag; by destruct v).
  - cbn [describes] in Hd. apply andb_true_iff in Hd as [Hm Hsome]. apply String.eqb_eq in Hm as ->.
    apply bool_decide_eq_true in Hsome as [d Hdn]. rewrite Hdn. cbn [default]. destruct (Hdefs _ _ Hdn) as [Ho Hdesc].
    destruct d as [|[|] props required| | |]; try done. cbn [enum_of enum_ok]. rewrite andb_true_r. f_equal.
    rewrite <- (struct_agrees v props required name IH' Hdesc). by destruct v.
  - rewrite andb_diag. f_equal. pose proof (struct_agrees v props required name IH') as H. rewrite <- H; [by destruct v|].
    exact Hd.
  - cbn [describes] in Hd. apply andb_true_iff in Hd as [He Hd]. apply bool_decide_eq_true in He. rewrite andb_diag. f_equal.
    destruct v; try done. cbn [typed]. apply forallb_eq. intros kv Hkv. rewrite (IH' elem t'), He; [done| |done].
    cbn. apply json_size_member in Hkv. lia.
  - cbn [describes] in Hd. apply andb_true_iff in Hd as [He Hd]. apply bool_decide_eq_true in He. rewrite andb_diag. f_equal.
    destruct v; try done. cbn [typed]. apply forallb_eq. intros x Hx. rewrite (IH' items t'), He; [done| |done].
    cbn. apply json_size_elem in Hx. lia.
Qed.
End agree.

(** ** The schema and the loader *)

(** A node of a document without aliases and merges, and the value it is. *)
Inductive represents (doc : document) : nat → json → Prop :=
| rep_object n kvs :
    yn_Kind (node doc n) = Mapping →
    Forall2 (λ kv x, yn_Value (node doc kv.1) = x.1 ∧ yn_Tag (node doc kv.1) ≠ "!!merge" ∧ represents doc kv.2 x.2)
      (pairs (yn_Content (node doc n))) kvs → represents doc n (JObject kvs)
| rep_array n l :
    yn_Kind (node doc n) = Sequence → Forall2 (represents doc) (yn_Content (node doc n)) l → represents doc n (JArray l)
| rep_scalar n v :
    yn_Kind (node doc n) = Scalar → match v with JObject _ | JArray _ => False | _ => True end → represents doc n v.

Lemma rep_object_inv doc n kvs : represents doc n (JObject kvs) → yn_Kind (node doc n) = Mapping ∧
  Forall2 (λ kv x, yn_Value (node doc kv.1) = x.1 ∧ yn_Tag (node doc kv.1) ≠ "!!merge" ∧ represents doc kv.2 x.2)
    (pairs (yn_Content (node doc n))) kvs.
Proof. by inversion 1. Qed.
Lemma rep_array_inv doc n l : represents doc n (JArray l) → yn_Kind (node doc n) = Sequence ∧ Forall2 (represents doc) (yn_Content (node doc n)) l.
Proof. by inversion 1. Qed.

(** The walk ends and reports nothing new. *)
Definition quiet (r : option parser) (p : parser) : Prop := ∃ p', r = Some p' ∧ ps_problems p' = ps_problems p.

Lemma quiet_each {A} (f : A → parser → option parser) l p :
  (∀ x q, x ∈ l → quiet (f x q) q) → quiet (each f l p) p.
Proof.
  unfold each. revert p. induction l as [|x l IH]; intros p H; [by eexists|]. cbn [foldl mbind option_bind].
  destruct (H x p) as (q & -> & Hq); [by left|]. destruct (IH q) as (r & Hr & E); [intros y s Hy; apply H; by right|].
  exists r. split; [done|]. by rewrite E.
Qed.

Lemma Forall2_l {A B} (R : A → B → Prop) l k x : Forall2 R l k → x ∈ l → ∃ y, y ∈ k ∧ R x y.
Proof. induction 1 as [|a b l k Hab _ IH]; intros Hx; [by apply elem_of_nil in Hx|]. apply elem_of_cons in Hx as [->|Hx]; set_solver. Qed.

Section loader.
Variable matches : string → string → bool.
Variable doc : document.
Variable types : schema.

Lemma typed_quiet fuel n t v path p :
  represents doc n v → typed matches types t v = true → (json_size v < fuel)%nat → quiet (walk doc types fuel n t path p) p.
Proof.
  revert n t v path p. induction fuel as [|fuel IH]; intros n t v path p Hr Ht Hf; [lia|]. cbn [walk].
  set (q := if (path =? "")%string then p else _). assert (Hq : ps_problems q = ps_problems p) by (unfold q; by case_match).
  assert (Hback : ∀ r, quiet r q → quiet r p) by (intros r (p' & -> & E); exists p'; by rewrite E).
  assert (Hk : yn_Kind (node doc n) ≠ Alias) by (by inversion Hr; congruence). rewrite decide_False by done. apply Hback.
  destruct t as [name|elem|elem| | | | | | |]; try (by exists q).
  - destruct v as [| | | | | |kvs]; try done. apply rep_object_inv in Hr as [Hm Hc]. rewrite decide_True by done.
    cbn [typed] in Ht. apply andb_true_iff in Ht as [Ht _]. apply quiet_each. intros [k c] r Hkc.
    destruct (Forall2_l _ _ _ _ Hc Hkc) as ([name' x] & Hx & Hn & Htag & Hrep). cbn in Hn, Htag, Hrep.
    apply String.eqb_neq in Htag as ->. rewrite Hn. pose proof (forallb_elem _ _ _ Ht Hx) as Hfx. cbn in Hfx.
    destruct (find _ (yamlFields types name)) as [f|]; [|done]. apply andb_true_iff in Hfx as [_ Hty].
    apply (IH _ _ x); [done|done|]. apply json_size_member in Hx. cbn in Hx, Hf. lia.
  - destruct v as [| | | | | |kvs]; try done. apply rep_object_inv in Hr as [Hm Hc]. rewrite decide_True by done.
    cbn [typed] in Ht. apply quiet_each. intros [k c] r Hkc. destruct (Forall2_l _ _ _ _ Hc Hkc) as ([name' x] & Hx & _ & _ & Hrep).
    apply (IH _ _ x); [done|exact (forallb_elem _ _ _ Ht Hx)|]. apply json_size_member in Hx. cbn in Hx, Hf. lia.
  - destruct v as [| | | | |l|]; try done. apply rep_array_inv in Hr as [Hm Hc]. rewrite decide_True by done.
    cbn [typed] in Ht. apply quiet_each. intros [i c] r Hic. apply elem_of_zip_r in Hic.
    destruct (Forall2_l _ _ _ _ Hc Hic) as (x & Hx & Hrep).
    apply (IH _ _ x); [done|exact (forallb_elem _ _ _ Ht Hx)|]. apply json_size_elem in Hx. cbn in Hf. lia.
Qed.
End loader.

(** C23: The published schema is the type of configuration files.  It admits a
    JSON document exactly when the document has the shape of the type [File],
    with no unknown and no missing field at any depth, nested descriptor entries
    included; and the loader's walk over a document it admits ends and reports
    nothing. *)
Theorem schema_is_type matches : ∃ s defs, JSONSchema = Some (s, defs) ∧
  (∀ v, admits matches defs s v = typed matches file_schema (TStruct "File") v)
  ∧ (∀ doc n v fuel, admits matches defs s v = true → represents doc n v → (json_size v < fuel)%nat →
       ∃ p, walk doc file_schema fuel n (TStruct "File") "" (mkParser ∅ []) = Some p ∧ ps_problems p = []).
Proof.
  destruct (schema_checked_spec _ JSONSchema_checked) as (s & defs & E & He & Hs & Hd). exists s, defs.
  assert (Ha : ∀ v, admits matches defs s v = typed matches file_schema (TStruct "File") v).
  { intros v. rewrite (admits_typed matches defs file_schema Hd s (TStruct "File") v Hs), He. done. }
  split; [done|]. split; [done|]. intros doc n v fuel Hv Hr Hf. rewrite Ha in Hv.
  by apply (typed_quiet matches doc file_schema fuel n (TStruct "File") v "" (mkParser ∅ [])).
Qed.

(** Nested entries are admitted, a misspelt field in them is not. *)
Lemma schema_is_type_witness :
  let doc name := JObject [("version", JInt 2); ("descriptors", JArray [JObject [("domain", JString "edge");
    ("entries", JArray [JObject [("key", JString "a"); ("entries", JArray [JObject [(name, JString "b")]])]])]])] in
  match JSONSchema with
  | Some (s, defs) => admits (λ _ _, true) defs s (doc "key") = true ∧ admits (λ _ _, true) defs s (doc "kye") = false
  | None => False
  end.
Proof.
  cbv zeta. destruct (schema_is_type (λ _ _, true)) as (s & defs & E & H & _). rewrite E, !H. split; vm_compute; reflexivity.
Defined.
