(* ===== verification/HubConfig.v ===== *)
(** * The hub's configuration ([packages/hub/config.go])

    The checks a compiled configuration passes before the hub serves it, and
    the manager that holds the one in force.  An error is the format of the
    message and its arguments. *)

From S2P Require Import Prelude Float64 GoLib Policies.
From S2P Require Import Config ConfigFile ConfigCheck.

Local Open Scope Z_scope.
Local Open Scope check_scope.

Section hub_config.
(** [url.ParseRequestURI]. *)
Variable ParseRequestURI : string → option URL.

Definition err_if (c : bool) (path format : string) (args : list arg) : option Problem :=
  if c then Some (mkProblem path format args) else None.

Fixpoint check_tiers (svcPath : string) (ti : nat) (seen : gset string) (tiers : list TierConfig)
  : option Problem * gset string :=
  match tiers with
  | [] => (None, seen)
  | tier :: rest =>
      let tierPath := nth_path (svcPath +:+ ".tiers") ti in
      let tierID := TrimSpace (t_TierID tier) in
      match err_if (tierID =? "")%string tierPath "%s.tier_id is required" [] ;;;
            err_if (bool_decide (tierID ∈ seen)) tierPath "%s.tier_id duplicates value %q" [AStr tierID] ;;;
            err_if (t_Quota tier =? 0) tierPath "%s.quota must be > 0" [] with
      | Some e => (Some e, seen)
      | None => check_tiers svcPath (S ti) ({[tierID]} ∪ seen) rest
      end
  end.

Definition check_url (svcPath target : string) : option Problem :=
  match ParseRequestURI target with
  | None => Some (mkProblem svcPath "%s.target_url is invalid: %w" [])
  | Some u =>
      err_if (negb (http_scheme u)) svcPath "%s.target_url must use http or https" [] ;;;
      err_if (TrimSpace (u_Host u) =? "")%string svcPath "%s.target_url host is required" []
  end.

Fixpoint check_retry_statuses (svcPath : string) (ri : nat) (codes : list Z) : option Problem :=
  match codes with
  | [] => None
  | code :: rest =>
      err_if ((code <? 100) || (599 <? code)) svcPath
        "%s.failure.upstream.retry_on_statuses[%d] must be between 100 and 599" [AInt (Z.of_nat ri)] ;;;
      check_retry_statuses svcPath (S ri) rest
  end.

Definition check_policies (svcPath : string) (fc : FailureConfig) : option Problem :=
  let hp := EffectiveHubPolicy fc in
  let strategy := hf_TierLookupStrategy hp in
  let up := EffectiveUpstreamPolicy fc in
  err_if (negb (one_of ["fail-closed"; "default-tier"; "stale-or-default"] strategy)) svcPath
    "%s.failure.hub.tier_lookup_strategy has invalid value %q" [AStr strategy] ;;;
  err_if (one_of ["default-tier"; "stale-or-default"] strategy && (TrimSpace (hf_DefaultTier hp) =? "")%string)
    svcPath "%s.failure.hub.default_tier is required for strategy %q" [AStr strategy] ;;;
  err_if (negb (one_of ["fail-closed"; "fail-open"] (uf_Mode up))) svcPath
    "%s.failure.upstream.mode has invalid value %q" [AStr (uf_Mode up)] ;;;
  check_retry_statuses svcPath 0 (uf_RetryOnStatuses up).

(** One service of a prefix: its error, and the ids seen. *)
Definition check_service (svcPath pfx : string) (seen : gset string) (service : ServiceConfig)
  : option Problem * gset string :=
  let svcID := TrimSpace (sv_ServiceID service) in
  let '(tierErr, tierSeen) := check_tiers svcPath 0 ∅ (sv_Tiers service) in
  (match ServiceConfig_Validate service with
   | Some msg => Some (mkProblem svcPath "%s is invalid: %w" [AStr msg])
   | None => None
   end ;;;
   err_if (svcID =? "")%string svcPath "%s.service_id is required" [] ;;;
   err_if (bool_decide (svcID ∈ seen)) svcPath "%s.service_id duplicates value %q within prefix %q"
     [AStr svcID; AStr pfx] ;;;
   check_url svcPath (sv_TargetURL service) ;;;
   err_if (bool_decide (sv_Tiers service = [])) svcPath "%s.tiers must include at least one tier" [] ;;;
   tierErr ;;;
   match sv_Cache service with
   | Some c => err_if (cc_Enabled c && (cc_TTL c <=? 0)) svcPath "%s.cache.ttl must be > 0 when cache is enabled" []
   | None => None
   end ;;;
   match sv_SafetyTier service with
   | Some t => err_if (bool_decide (TrimSpace (t_TierID t) ∈ tierSeen)) svcPath
                 "%s.safety_tier.tier_id must not duplicate any regular tier id" []
   | None => None
   end ;;;
   check_policies svcPath (sv_Failure service), {[svcID]} ∪ seen).

Fixpoint check_services (path pfx : string) (si : nat) (seen : gset string) (services : list ServiceConfig)
  : option Problem :=
  match services with
  | [] => None
  | service :: rest =>
      let '(e, seen) := check_service (nth_path (path +:+ ".services") si) pfx seen service in
      e ;;; check_services path pfx (S si) seen rest
  end.

Fixpoint check_prefixes (pi : nat) (seen : gset string) (prefixes : list PrefixConfig) : option Problem :=
  match prefixes with
  | [] => None
  | prefix :: rest =>
      let path := nth_path "prefixes" pi in
      let pfx := TrimSpace (px_Prefix prefix) in
      err_if (pfx =? "")%string path "%s.prefix is required" [] ;;;
      err_if (bool_decide (pfx ∈ seen)) path "%s.prefix duplicates value %q" [AStr pfx] ;;;
      err_if (px_QuotaPeriod prefix <=? 0) path "%s.quota_period must be > 0" [] ;;;
      err_if (bool_decide (px_Services prefix = [])) path "%s.services must include at least one service" [] ;;;
      check_services path pfx 0 ∅ (px_Services prefix) ;;;
      check_prefixes (S pi) ({[pfx]} ∪ seen) rest
  end.

Definition ValidateGatewayConfig (cfg : GatewayConfig) : option Problem :=
  match GatewayConfig_Validate cfg with
  | Some msg => Some (mkProblem "" "config validation failed: %w" [AStr msg])
  | None => None
  end ;;;
  err_if (bool_decide (gc_Prefixes cfg = [])) "" "config must include at least one prefix" [] ;;;
  check_prefixes 0 ∅ (gc_Prefixes cfg).

(** ** The manager *)

Record ConfigManager := mkConfigManager {
  cm_filePath : string;
  cm_active : option GatewayConfig; (* atomic.Pointer *)
}.

(** What is wrong with a document: the problems of the file, or the first
    one of the compiled configuration. *)
Inductive load_error := FileProblems (ps : list Problem) | ConfigProblem (p : Problem).

Section load.
Variable range_cost : gmap string Z → list (string * Z).
Variable range_floors : gmap string float64 → list (string * float64).
Variable url_Parse : string → option URL.
Variable regexp_ok : string → bool.

(** [ParseAndCompile] of a document the YAML library has decoded without
    complaint. *)
Definition ParseAndCompile (f : File) : result load_error GatewayConfig :=
  match validate range_cost range_floors url_Parse regexp_ok f with
  | [] => Ok (Compile f)
  | ps => Err (FileProblems ps)
  end.

Definition decodeAndValidateConfig (f : File) : result load_error GatewayConfig :=
  match ParseAndCompile f with
  | Err e => Err e
  | Ok cfg =>
      match ValidateGatewayConfig cfg with
      | Some p => Err (ConfigProblem p)
      | None => Ok cfg
      end
  end.

(** [ReloadFromFile]: the configuration in force changes only to one that
    passes every check. *)
Definition ReloadFromFile (cm : ConfigManager) (f : File) : option load_error * ConfigManager :=
  match decodeAndValidateConfig f with
  | Err e => (Some e, cm)
  | Ok cfg => (None, mkConfigManager (cm_filePath cm) (Some cfg))
  end.
End load.

Definition ReloadFromPayload (cm : ConfigManager) (cfg : GatewayConfig) : option Problem * ConfigManager :=
  let next := mkGateway (gc_Prefixes cfg) (RuntimePolicy_Effective (gc_Runtime cfg)) (gc_Descriptors cfg) in
  match ValidateGatewayConfig next with
  | Some p => (Some p, cm)
  | None => (None, mkConfigManager (cm_filePath cm) (Some next))
  end.
End hub_config.
