(* ===== verification/ConfigProps.v ===== *)
(** * What a checked file compiles to

    [Compile] against a reference that groups the services directly; what the
    hub finds when it looks up a service, a tier or a limit an operator wrote;
    and that a file without problems is accepted by the hub. *)

From S2P Require Import Prelude Float64 GoLib Policies.
From S2P Require Import Config ConfigFile ConfigCheck ConfigAccepted HubConfig.
From stdpp Require Import sorting.
From Stdlib Require Import Ascii.

Local Open Scope Z_scope.

(** ** Compilation by groups *)

(** The groups in order of first appearance. *)
Definition groups_of (ss : list Service) : list string :=
  foldl (λ gs s, if decide (Service_group s ∈ gs) then gs else gs ++ [Service_group s]) [] ss.

Definition in_group (g : string) (ss : list Service) : list Service := filter (λ s, Service_group s = g) ss.

(** A group's prefix: the window and lease size of its first service, and all
    of its services. *)
Definition prefix_of (ss : list Service) (g : string) : PrefixConfig :=
  let l := from_option se_Limits (mkLimits 0 ∅ "" None 0 0 "" "" None None [] None None) (head (in_group g ss)) in
  mkPrefix g (li_Window l) (mkLeasing (li_LeaseSize l) f64_zero 0 0) (map compileService (in_group g ss)).

Lemma groups_of_snoc ss s :
  groups_of (ss ++ [s]) = if decide (Service_group s ∈ groups_of ss) then groups_of ss
                          else groups_of ss ++ [Service_group s].
Proof. unfold groups_of. by rewrite foldl_app. Qed.

Lemma groups_of_NoDup ss : NoDup (groups_of ss).
Proof.
  induction ss as [|s ss IH] using rev_ind; [constructor|]. rewrite groups_of_snoc.
  case_decide; [done|]. apply NoDup_app. split_and!; [done|set_solver|apply NoDup_singleton].
Qed.

Lemma elem_of_groups ss g : g ∈ groups_of ss ↔ ∃ s, s ∈ ss ∧ Service_group s = g.
Proof.
  induction ss as [|s ss IH] using rev_ind; [set_solver|]. rewrite groups_of_snoc.
  case_decide as Hd; set_solver.
Qed.

Lemma in_group_snoc g ss s :
  in_group g (ss ++ [s]) = in_group g ss ++ (if decide (Service_group s = g) then [s] else []).
Proof. unfold in_group. rewrite filter_app, filter_cons. by case_decide. Qed.

Lemma in_group_ne g ss : g ∈ groups_of ss ↔ in_group g ss ≠ [].
Proof.
  rewrite elem_of_groups. unfold in_group. split.
  - intros (s & Hs & Hg) E. assert (Hin : s ∈ filter (λ s, Service_group s = g) ss) by (apply list_elem_of_filter; done).
    rewrite E in Hin. by apply elem_of_nil in Hin.
  - destruct (filter _ ss) as [|s l] eqn:E; [done|]. intros _. exists s.
    assert (Hin : s ∈ filter (λ s, Service_group s = g) ss) by (rewrite E; by left).
    apply list_elem_of_filter in Hin. tauto.
Qed.

Lemma prefix_of_other ss s g : Service_group s ≠ g → prefix_of (ss ++ [s]) g = prefix_of ss g.
Proof. intros Hne. unfold prefix_of. by rewrite in_group_snoc, decide_False, app_nil_r by done. Qed.

Lemma prefix_of_same ss s :
  Service_group s ∈ groups_of ss →
  prefix_of (ss ++ [s]) (Service_group s) = add_service (compileService s) (prefix_of ss (Service_group s)).
Proof.
  intros Hin%in_group_ne. unfold prefix_of, add_service. rewrite in_group_snoc, decide_True by done.
  rewrite map_app. by destruct (in_group (Service_group s) ss).
Qed.

Lemma prefix_of_first ss s :
  Service_group s ∉ groups_of ss →
  prefix_of (ss ++ [s]) (Service_group s)
  = add_service (compileService s) (new_prefix (Service_group s) s).
Proof.
  intros Hin. unfold prefix_of, add_service, new_prefix. rewrite in_group_snoc, decide_True by done.
  destruct (in_group (Service_group s) ss) eqn:E; [done|]. exfalso. apply Hin, in_group_ne. by rewrite E.
Qed.

(** Changing one group's prefix in place. *)
Lemma alter_map_group (gs : list string) (F F' : string → PrefixConfig) h g i :
  NoDup gs → gs !! i = Some g → F' g = h (F g) → (∀ g', g ≠ g' → F' g' = F g') →
  alter h i (F <$> gs) = F' <$> gs.
Proof.
  intros Hnd Hi Hg Ho. apply list_eq. intros j. rewrite list_lookup_alter, !list_lookup_fmap.
  case_decide as Hij.
  - subst j. rewrite Hi. cbn. by rewrite Hg.
  - destruct (gs !! j) as [g'|] eqn:Hj; [|done]. cbn. rewrite Ho; [done|]. intros <-.
    apply Hij. by eapply NoDup_lookup.
Qed.

(** The loop keeps, for each group, the position of its prefix. *)
Lemma Compile_groups ss :
  let st := foldl compile_step (∅, []) ss in
  snd st = (prefix_of ss <$> groups_of ss) ∧
  ∀ g i, fst st !! g = Some i ↔ groups_of ss !! i = Some g.
Proof.
  induction ss as [|s ss IH] using rev_ind; [split; [done|]; intros; cbn; by rewrite lookup_empty, lookup_nil|].
  rewrite foldl_app. cbn [foldl]. cbv zeta in *. destruct IH as [Hps Hix].
  destruct (foldl compile_step (∅, []) ss) as [m ps]. cbn [fst snd] in *. subst ps.
  unfold compile_step. set (g := Service_group s) in *. rewrite groups_of_snoc. fold g.
  assert (Hin : g ∈ groups_of ss ↔ is_Some (m !! g)).
  { rewrite list_elem_of_lookup. unfold is_Some. naive_solver. }
  destruct (m !! g) as [i|] eqn:Em.
  - apply Hix in Em. rewrite decide_True by (rewrite Hin; eauto). cbn [fst snd]. split; [|done].
    eapply alter_map_group; [apply groups_of_NoDup|done|apply prefix_of_same, Hin; eauto|].
    intros g' Hne. by apply prefix_of_other.
  - assert (Hni : g ∉ groups_of ss) by (rewrite Hin; by intros []).
    rewrite decide_False by done. cbn [fst snd]. rewrite length_fmap. split.
    + rewrite fmap_app, alter_app_r_alt by (rewrite length_fmap; lia).
      rewrite length_fmap, Nat.sub_diag. f_equal; [|cbn; f_equal; symmetry; by apply prefix_of_first].
      apply list_fmap_ext. intros j g' Hj. symmetry. apply prefix_of_other. fold g. intros <-.
      apply Hni. by eapply list_elem_of_lookup_2.
    + intros g' i. rewrite lookup_insert. case_decide as Hg.
      * subst g'. split; [intros [= <-]; by apply list_lookup_middle|].
        intros Hl. f_equal. destruct (decide (i < length (groups_of ss))%nat) as [Hlt|Hge].
        -- rewrite lookup_app_l in Hl by done. exfalso. apply Hni. by eapply list_elem_of_lookup_2.
        -- rewrite lookup_app_r in Hl by lia. apply list_lookup_singleton_Some in Hl. lia.
      * rewrite Hix. split; [intros; by apply lookup_app_l_Some|].
        intros [Hl|[Hge Hl]]%lookup_app_Some; [done|].
        apply list_lookup_singleton_Some in Hl as [_ ->]. done.
Qed.

(** Compilation groups the services. *)
Lemma Compile_prefixes f : gc_Prefixes (Compile f) = (prefix_of (f_Services f) <$> groups_of (f_Services f)).
Proof. apply (Compile_groups (f_Services f)). Qed.

Lemma elem_of_in_group g ss s : s ∈ in_group g ss ↔ Service_group s = g ∧ s ∈ ss.
Proof. unfold in_group. by rewrite list_elem_of_filter. Qed.

Lemma in_group_names_NoDup g ss : NoDup (se_Name <$> ss) → NoDup (se_Name <$> in_group g ss).
Proof.
  induction ss as [|s ss IH]; [done|]. intros [Hni Hnd]%NoDup_cons. unfold in_group. rewrite filter_cons.
  case_decide; [|by apply IH]. cbn [fmap list_fmap]. constructor; [|by apply IH]. contradict Hni.
  apply list_elem_of_fmap in Hni as (s' & -> & [_ Hs']%elem_of_in_group). by apply list_elem_of_fmap_2.
Qed.

(** ** The hub's checks on a compiled file *)

Lemma err_if_None c p m a : err_if c p m a = None ↔ c = false.
Proof. by destruct c. Qed.

Lemma validate_all_None {A} what (f : A → option string) i l :
  validate_all what f i l = None ↔ ∀ x, x ∈ l → f x = None.
Proof.
  revert i. induction l as [|x l IH]; intros i; cbn; [set_solver|].
  rewrite or_else_None, at_None, IH. set_solver.
Qed.

(** The tiers' loop, and the names it has seen. *)
Lemma check_tiers_ok path i seen tiers :
  (∀ t, t ∈ tiers → plain_name (t_TierID t) ∧ t_Quota t ≠ 0) →
  NoDup (t_TierID <$> tiers) → (∀ t, t ∈ tiers → t_TierID t ∉ seen) →
  check_tiers path i seen tiers = (None, list_to_set (t_TierID <$> tiers) ∪ seen).
Proof.
  revert i seen. induction tiers as [|t tiers IH]; intros i seen Hok Hnd Hout.
  { cbn. by rewrite union_empty_l_L. }
  destruct (Hok t) as [Hp Hq]; [by left|]. cbn [check_tiers]. rewrite plain_TrimSpace by done.
  destruct Hp as [Hne _]. apply String.eqb_neq in Hne. apply Z.eqb_neq in Hq. rewrite Hne, Hq.
  rewrite bool_decide_false by (apply Hout; by left). cbn [err_if or_else]. cbn in Hnd.
  apply NoDup_cons in Hnd as [Hni Hnd]. rewrite IH; [|intros t' ?; apply Hok; by right|done|].
  - f_equal. cbn. set_solver.
  - intros t' Ht'. assert (t_TierID t' ≠ t_TierID t) by (intros E; apply Hni; rewrite <- E; by apply list_elem_of_fmap_2).
    set_solver.
Qed.

Lemma compiled_tiers s :
  t_TierID <$> sv_Tiers (compileService s) = sortedTierNames (li_Tiers (se_Limits s)).
Proof.
  cbn [compileService sv_Tiers]. change (@map string TierConfig) with (@fmap list _ string TierConfig).
  rewrite <- list_fmap_compose. apply list_fmap_id.
Qed.

Lemma elem_of_compiled_tiers s t :
  t ∈ sv_Tiers (compileService s) ↔
  ∃ name ft, li_Tiers (se_Limits s) !! name = Some ft ∧ t = compileTier name ft (li_Algorithm (se_Limits s)).
Proof.
  cbn. rewrite list_elem_of_fmap. split.
  - intros (name & -> & [ft Hft]%elem_of_sortedTierNames). exists name, ft. by rewrite Hft.
  - intros (name & ft & Hft & ->). exists name. rewrite elem_of_sortedTierNames, Hft. eauto.
Qed.

Lemma service_tiers_checked url_Parse path s :
  service_ok url_Parse s →
  check_tiers path 0 ∅ (sv_Tiers (compileService s))
  = (None, list_to_set (sortedTierNames (li_Tiers (se_Limits s)))).
Proof.
  intros Hs. rewrite check_tiers_ok, compiled_tiers, union_empty_r_L; [done| | |set_solver].
  - intros t (name & ft & Hft & ->)%elem_of_compiled_tiers.
    destruct (ok_tier _ _ Hs _ _ Hft) as [Hre Hq]. eauto with config.
  - rewrite compiled_tiers. apply sortedTierNames_NoDup.
Qed.

Section loads.
Variable url_Parse : string → option URL.
Variable ParseRequestURI : string → option URL.

(** An absolute URL without a fragment is read the same from a request line;
    a host that was given is not blank. *)
Definition url_documented : Prop :=
  (∀ raw u, url_Parse raw = Some u → u_Scheme u ≠ "" → u_Host u ≠ "" → ¬ has_char "#" raw →
    ParseRequestURI raw = Some u) ∧
  (∀ raw u, url_Parse raw = Some u → u_Host u ≠ "" → TrimSpace (u_Host u) ≠ "").
Hypothesis Hurl : url_documented.

Definition no_fragment (s : Service) : Prop := ¬ has_char "#" (sv_TargetURL (compileService s)).

Lemma check_url_ok path s :
  service_ok url_Parse s → no_fragment s → check_url ParseRequestURI path (sv_TargetURL (compileService s)) = None.
Proof using Hurl.
  intros Hs Hf. destruct Hurl as [Hreq Hhost]. destruct (ok_url _ _ Hs) as [u Hu]. unfold check_upstream in Hu.
  destruct (url_Parse _) as [v|] eqn:Ep; [|done]. destruct (http_scheme v) eqn:Esch; [|done]. cbn [andb] in Hu.
  destruct (String.eqb_spec (u_Host v) "") as [|Hh]; [done|]. cbn in Hu. simplify_eq.
  unfold check_url. rewrite (Hreq _ u Ep); [|by intros E; unfold http_scheme in Esch; rewrite E in Esch|done|done].
  rewrite Esch, or_else_None, !err_if_None. split; [done|]. apply String.eqb_neq. eauto.
Qed.

Lemma service_valid s : service_ok url_Parse s → ServiceConfig_Validate (compileService s) = None.
Proof.
  intros Hs. unfold ServiceConfig_Validate. rewrite or_else_None, at_None. split.
  - unfold AnalyticsConfig_Validate. rewrite or_else_None, !fail_if_None. cbn [compileService sv_Analytics]. split.
    + unfold AnalyticsConfig_EffectiveMode. cbn. by destruct (default true _).
    + cbn [an_SamplingRate]. destruct (a ← se_Analytics s; fn_SampleRate a) as [r|] eqn:E; [|vm_compute; done].
      destruct (ok_rate _ _ Hs r E) as [H1 H2]. unfold id. cbn [from_option]. by rewrite H1, H2.
  - cbn [compileService sv_SafetyTier]. destruct (li_WhenHubUnavailable _) as [fb|] eqn:E; [|done]. cbn [fmap option_fmap option_map].
    rewrite or_else_None, !fail_if_None. split; [done|]. apply Z.eqb_neq. cbn. by apply (ok_fallback _ _ Hs).
Qed.

Lemma check_statuses_ok path i codes :
  (∀ code, code ∈ codes → bad_status code = false) → check_retry_statuses path i codes = None.
Proof.
  revert i. induction codes as [|c codes IH]; intros i H; [done|]. cbn. rewrite or_else_None, err_if_None.
  split; [apply H; by left|]. apply IH. intros code Hc. apply H. by right.
Qed.

Lemma policies_checked path s : service_ok url_Parse s → check_policies path (sv_Failure (compileService s)) = None.
Proof.
  intros Hs. unfold check_policies. rewrite !or_else_None, !err_if_None.
  cbn [compileService sv_Failure EffectiveHubPolicy EffectiveUpstreamPolicy fc_Hub fc_Upstream fc_FallbackTier
       hf_TierLookupStrategy hf_DefaultTier compile_hub_policy uf_Mode uf_RetryOnStatuses compile_upstream_policy].
  split_and!.
  - by destruct (li_DefaultTier (se_Limits s) =? "")%string.
  - destruct (ok_default _ _ Hs) as [->|[t Ht]]; [done|]. destruct (ok_tier _ _ Hs _ _ Ht) as [[Hne Hp]%tierRe_plain _].
    apply String.eqb_neq in Hne. rewrite Hne. cbn. rewrite plain_TrimSpace by (split; [by apply String.eqb_neq|done]).
    by rewrite Hne.
  - destruct (se_OnUpstreamError s) as [e|] eqn:E; [|done]. apply (ok_mode _ _ Hs) in E.
    unfold id. cbn [from_option]. unfold upstreamModes in E.
    apply elem_of_cons in E as [->|E]; [done|]. apply list_elem_of_singleton in E as ->. done.
  - apply check_statuses_ok. intros code Hc. destruct (se_Retries s) as [r|] eqn:E; [|by apply elem_of_nil in Hc].
    apply list_elem_of_lookup in Hc as [i Hi]. by eapply (ok_statuses _ _ Hs).
Qed.

Lemma check_service_ok path pfx seen s :
  service_ok url_Parse s → no_fragment s → se_Name s ∉ seen →
  check_service ParseRequestURI path pfx seen (compileService s) = (None, {[se_Name s]} ∪ seen).
Proof using Hurl.
  intros Hs Hf Hseen. unfold check_service. rewrite (service_tiers_checked url_Parse) by done.
  rewrite service_valid, check_url_ok, policies_checked by done.
  change (sv_ServiceID (compileService s)) with (se_Name s).
  assert (Hn := nameRe_plain _ (ok_name _ _ Hs)). rewrite plain_TrimSpace by done. f_equal.
  destruct Hn as [Hne _]. apply String.eqb_neq in Hne. cbn [or_else]. rewrite !or_else_None, !err_if_None.
  split_and!; try done.
  - by rewrite bool_decide_false.
  - apply bool_decide_false. intros E. assert (Et := compiled_tiers s). rewrite E in Et. symmetry in Et.
    apply (ok_tiers _ _ Hs), map_eq. intros name. rewrite lookup_empty. apply eq_None_not_Some.
    rewrite <- elem_of_sortedTierNames. cbn in Et. rewrite Et. apply not_elem_of_nil.
  - cbn [compileService sv_Cache]. destruct (se_Cache s) as [c|] eqn:E; [|done]. cbn.
    apply err_if_None, Z.leb_gt. by apply (ok_cache _ _ Hs).
  - cbn [compileService sv_SafetyTier]. destruct (li_WhenHubUnavailable _) as [fb|]; [|done]. cbn [fmap option_fmap option_map].
    apply err_if_None, bool_decide_false. change (TrimSpace _) with safetyTierID.
    rewrite elem_of_list_to_set, elem_of_sortedTierNames. intros [t Ht].
    destruct (ok_tier _ _ Hs _ _ Ht) as [Hre _]. by rewrite tierRe_safety in Hre.
Qed.

Lemma check_services_ok path pfx i seen ss :
  (∀ s, s ∈ ss → service_ok url_Parse s ∧ no_fragment s ∧ se_Name s ∉ seen) → NoDup (se_Name <$> ss) →
  check_services ParseRequestURI path pfx i seen (map compileService ss) = None.
Proof using Hurl.
  revert i seen. induction ss as [|s ss IH]; intros i seen Hok Hnd; [done|]. cbn [map check_services].
  destruct (Hok s) as (Hs & Hf & Hseen); [by left|]. rewrite check_service_ok by done. cbn [or_else].
  cbn in Hnd. apply NoDup_cons in Hnd as [Hni Hnd]. apply IH; [|done]. intros s' Hs'.
  destruct (Hok s') as (? & ? & ?); [by right|]. split_and!; [done..|].
  assert (se_Name s' ≠ se_Name s) by (intros E; apply Hni; rewrite <- E; by apply list_elem_of_fmap_2). set_solver.
Qed.

Section file.
Context (f : File) (Hok : file_ok url_Parse f).

Lemma file_service s : s ∈ f_Services f → service_ok url_Parse s.
Proof using Hok. intros Hs. by eapply Forall_forall in Hs; [|exact (fk_services _ _ Hok)]. Qed.

(** A group's prefix takes its window and lease size from each service. *)
Lemma prefix_of_service s :
  s ∈ f_Services f →
  px_QuotaPeriod (prefix_of (f_Services f) (Service_group s)) = li_Window (se_Limits s) ∧
  lc_LeaseQuantum (px_Leasing (prefix_of (f_Services f) (Service_group s))) = li_LeaseSize (se_Limits s).
Proof using Hok.
  intros Hs. unfold prefix_of. cbn [px_QuotaPeriod px_Leasing lc_LeaseQuantum].
  destruct (in_group (Service_group s) (f_Services f)) as [|s' l] eqn:E.
  - exfalso. eapply in_group_ne; [|exact E]. apply elem_of_groups. eauto.
  - assert (Hs' : s' ∈ in_group (Service_group s) (f_Services f)) by (rewrite E; by left).
    apply elem_of_in_group in Hs' as [Eg Hin]. cbn. by apply (fk_groups _ _ Hok).
Qed.

Lemma compiled_prefix p :
  p ∈ gc_Prefixes (Compile f) → ∃ s, s ∈ f_Services f ∧ p = prefix_of (f_Services f) (Service_group s).
Proof.
  rewrite Compile_prefixes. intros (g & -> & (s & Hs & <-)%elem_of_groups)%list_elem_of_fmap. eauto.
Qed.

Lemma check_prefixes_ok i seen gs :
  Forall no_fragment (f_Services f) →
  (∀ g, g ∈ gs → g ∈ groups_of (f_Services f) ∧ g ∉ seen) → NoDup gs →
  check_prefixes ParseRequestURI i seen (prefix_of (f_Services f) <$> gs) = None.
Proof using Hurl Hok.
  intros Hfrag. revert i seen. induction gs as [|g gs IH]; intros i seen Hgs Hnd; [done|].
  cbn [fmap list_fmap check_prefixes]. destruct (Hgs g) as [Hg Hseen]; [by left|].
  pose proof Hg as (s & Hs & Eg)%elem_of_groups.
  assert (Hp : plain_name g) by (rewrite <- Eg; apply (ok_plain_group url_Parse), file_service, Hs).
  destruct (prefix_of_service s Hs) as [Hw _]. rewrite Eg in Hw.
  cbn [px_Prefix px_Services prefix_of]. fold (prefix_of (f_Services f) g).
  rewrite plain_TrimSpace by done. apply NoDup_cons in Hnd as [Hni Hnd]. rewrite !or_else_None, !err_if_None.
  split_and!.
  - apply String.eqb_neq, Hp.
  - by apply bool_decide_false.
  - cbn in Hw. apply Z.leb_gt. cbn. rewrite Hw. by apply (ok_window url_Parse), file_service.
  - apply bool_decide_false. intros E. apply in_group_ne in Hg. by destruct (in_group g (f_Services f)).
  - apply check_services_ok; [|apply in_group_names_NoDup, (fk_names _ _ Hok)].
    intros s' [_ Hs']%elem_of_in_group. split_and!; [by apply file_service| |set_solver].
    by eapply Forall_forall in Hs'.
  - apply IH; [|done]. intros g' Hg'. destruct (Hgs g') as [? ?]; [by right|].
    assert (g' ≠ g) by (by intros ->). set_solver.
Qed.

Lemma prefixes_valid p : p ∈ gc_Prefixes (Compile f) → PrefixConfig_Validate p = None.
Proof using Hok.
  intros (s & Hs & ->)%compiled_prefix. destruct (prefix_of_service s Hs) as [_ Hl].
  unfold PrefixConfig_Validate. rewrite !or_else_None, !fail_if_None, validate_all_None. split_and!; try done.
  - rewrite Hl. by apply Z.ltb_ge, (ok_lease url_Parse), file_service.
  - cbn [prefix_of px_Services]. intros sv (s' & -> & [_ Hs']%elem_of_in_group)%list_elem_of_fmap.
    by apply service_valid, file_service.
Qed.

(** The hub accepts what the file check accepts, but for two conditions. *)
Lemma hub_accepts_iff :
  Forall no_fragment (f_Services f) →
  ValidateGatewayConfig ParseRequestURI (Compile f) = None ↔
  f_Services f ≠ [] ∧ limits_consistent (rp_Analytics (gc_Runtime (Compile f))).
Proof using Hurl Hok.
  intros Hfrag. unfold ValidateGatewayConfig, GatewayConfig_Validate.
  destruct (validate_all _ _ _ _) eqn:Ev.
  { exfalso. apply (eq_None_not_Some (validate_all "prefixes" PrefixConfig_Validate 0 (gc_Prefixes (Compile f)))); [|eauto].
    apply validate_all_None. apply prefixes_valid. }
  cbn [or_else]. change (gc_Runtime (Compile f)) with (compileRuntime (f_Runtime f)). unfold compileRuntime.
  match goal with |- context [RuntimePolicy_Effective ?rp] => rewrite <- (effective_valid rp) end.
  rewrite !or_else_None, err_if_None. destruct (at_ _ _) eqn:Ea.
  { rewrite <- (at_None "runtime"), Ea. naive_solver. }
  rewrite at_None in Ea. rewrite Ea, bool_decide_eq_false, Compile_prefixes. split.
  - intros (_ & Hne & _). split; [|done]. intros E. apply Hne. by rewrite E.
  - intros [Hne _]. split_and!; [done| |].
    + intros E. apply fmap_nil_inv in E. destruct (f_Services f) as [|s ss] eqn:Es; [done|].
      apply (not_elem_of_nil (Service_group s)). rewrite <- E, <- Es. apply elem_of_groups. rewrite Es. exists s. split; [by left|done].
    + apply check_prefixes_ok; [done| |apply groups_of_NoDup]. intros g Hg. split; [done|apply not_elem_of_empty].
Qed.
End file.
End loads.

(** ** Lookups in a compiled file *)

Lemma find_by_key {A} (key : A → string) l x :
  NoDup (key <$> l) → x ∈ l → find (λ y, (key y =? key x)%string) l = Some x.
Proof.
  induction l as [|y l IH]; [by intros _ ?%elem_of_nil|]. intros [Hni Hnd]%NoDup_cons Hx. cbn [find].
  destruct (String.eqb_spec (key y) (key x)) as [E|E].
  - apply elem_of_cons in Hx as [->|Hx]; [done|]. exfalso. apply Hni. rewrite E. by apply list_elem_of_fmap_2.
  - apply elem_of_cons in Hx as [->|Hx]; [done|]. auto.
Qed.

Lemma find_elem {A} (p : A → bool) l x : find p l = Some x → x ∈ l ∧ p x = true.
Proof. intros [H1 H2]%find_some. split; [by apply list_elem_of_In|done]. Qed.

Lemma prefix_names ss (gs : list string) : px_Prefix <$> (prefix_of ss <$> gs) = gs.
Proof. rewrite <- list_fmap_compose. apply list_fmap_id. Qed.

Lemma compiled_names ss : sv_ServiceID <$> map compileService ss = se_Name <$> ss.
Proof. change (map compileService ss) with (compileService <$> ss). rewrite <- list_fmap_compose. by apply list_fmap_ext. Qed.

Section found.
Context {url_Parse : string → option URL} (f : File) (Hok : file_ok url_Parse f).

Lemma found_service s :
  s ∈ f_Services f →
  FindService (Compile f) (Service_group s) (se_Name s)
  = Some (prefix_of (f_Services f) (Service_group s), compileService s).
Proof using Hok.
  intros Hs. assert (Hsv := file_service url_Parse f Hok s Hs).
  assert (Hg := ok_plain_group _ _ Hsv). assert (Hn := nameRe_plain _ (ok_name _ _ Hsv)).
  unfold FindService, FindPrefix. rewrite !plain_TrimSpace by done. destruct Hg as [Hne _].
  apply String.eqb_neq in Hne. rewrite Hne, Compile_prefixes.
  rewrite (find_by_key px_Prefix _ (prefix_of (f_Services f) (Service_group s))).
  - cbn [px_Services prefix_of]. change (se_Name s) with (sv_ServiceID (compileService s)).
    rewrite (find_by_key sv_ServiceID _ (compileService s)); [done| |].
    + rewrite compiled_names. apply in_group_names_NoDup, (fk_names _ _ Hok).
    + apply list_elem_of_fmap_2. by apply elem_of_in_group.
  - rewrite prefix_names. apply groups_of_NoDup.
  - apply list_elem_of_fmap_2, elem_of_groups. eauto.
Qed.

Lemma found_only a b p sv :
  FindService (Compile f) a b = Some (p, sv) →
  ∃ s, s ∈ f_Services f ∧ Service_group s = TrimSpace a ∧ se_Name s = TrimSpace b ∧ sv = compileService s.
Proof.
  unfold FindService, FindPrefix. destruct (_ =? "")%string; [done|].
  destruct (find _ (gc_Prefixes _)) as [p'|] eqn:Ep; [|done].
  destruct (find _ (px_Services p')) as [sv'|] eqn:Es; [|done]. intros [= -> ->].
  apply find_elem in Ep as [Hp Eg%String.eqb_eq], Es as [Hsv En%String.eqb_eq].
  apply compiled_prefix in Hp as (s0 & _ & ->). cbn [px_Services px_Prefix prefix_of] in *.
  apply list_elem_of_fmap in Hsv as (s & -> & [Egr Hs]%elem_of_in_group). exists s. split_and!; try done. congruence.
Qed.

Lemma found_tier s name t :
  li_Tiers (se_Limits s) !! name = Some t →
  findTier (compileService s) name = Some (compileTier name t (li_Algorithm (se_Limits s))).
Proof.
  intros Ht. unfold findTier. assert (H := find_by_key t_TierID (sv_Tiers (compileService s))
    (compileTier name t (li_Algorithm (se_Limits s)))).
  change (t_TierID (compileTier _ _ _)) with name in H. rewrite H; [done| |].
  - rewrite compiled_tiers. apply sortedTierNames_NoDup.
  - apply elem_of_compiled_tiers. eauto.
Qed.

Lemma found_limit s a :
  s ∈ f_Services f → a ∈ li_Also (se_Limits s) → findLimit (compileService s) (ex_Name a) = Some (extra_spec a).
Proof using Hok.
  intros Hs Ha. apply (find_by_key ls_ID (map extra_spec (li_Also (se_Limits s))) (extra_spec a)).
  - change (map extra_spec ?l) with (extra_spec <$> l). rewrite <- list_fmap_compose.
    apply (ok_also url_Parse), (file_service url_Parse f Hok s Hs).
  - by apply list_elem_of_fmap_2.
Qed.
End found.

(** ** Theorems *)

Section theorems.
Variable range_cost : gmap string Z → list (string * Z).
Variable range_floors : gmap string float64 → list (string * float64).
Variable url_Parse : string → option URL.
Variable regexp_ok : string → bool.
Variable ParseRequestURI : string → option URL.


(** (lookups) In an accepted file's compiled configuration the hub finds
    every service the operator wrote under its group and name, with its own
    window and lease size, each of its tiers and each further limit under
    their names with the numbers written for them; and it finds nothing
    else. *)
Theorem compiled_service_found f :
  validate range_cost range_floors url_Parse regexp_ok f = [] →
  (∀ s, s ∈ f_Services f → ∃ p,
    FindService (Compile f) (Service_group s) (se_Name s) = Some (p, compileService s) ∧
    px_QuotaPeriod p = li_Window (se_Limits s) ∧
    lc_LeaseQuantum (px_Leasing p) = li_LeaseSize (se_Limits s) ∧
    (∀ name t, li_Tiers (se_Limits s) !! name = Some t →
      findTier (compileService s) name = Some (compileTier name t (li_Algorithm (se_Limits s)))) ∧
    (∀ a, a ∈ li_Also (se_Limits s) → findLimit (compileService s) (ex_Name a) = Some (extra_spec a))) ∧
  (∀ prefix service p sv, FindService (Compile f) prefix service = Some (p, sv) → ∃ s,
    s ∈ f_Services f ∧ Service_group s = TrimSpace prefix ∧ se_Name s = TrimSpace service ∧ sv = compileService s).
Proof.
  intros Hok%validate_file_ok. split; [|intros; by eapply found_only].
  intros s Hs. eexists. split; [by apply (found_service f Hok)|].
  destruct (prefix_of_service _ f Hok s Hs) as [Hw Hl]. split_and!; [done..| |].
  - intros name t. apply found_tier.
  - intros a Ha. by eapply found_limit.
Qed.
End theorems.

(** ** An example *)

(** A URL parser for the example: one URL. *)
Definition sample_parse (raw : string) : option URL :=
  if (raw =? "http://orders:8080")%string then Some (mkURL "http" "orders:8080" "") else None.

Definition sample_runtime : Runtime :=
  mkFileRuntime (mkFileHub "" [] [] 0 0 0 0) (mkFileEdge 50 f64_zero 0 0 0 0 0 0 0 0 0)
    (mkFileAnalyticsRuntime "" "" 0 200 0 0 0 0 0 0 0 0).

Definition sample_limits : Limits :=
  mkLimits Minute {[ "free" := mkFileTier 100 ∅ "" f64_zero 0;
                     "pro" := mkFileTier 0 {[ "POST" := 5 ]} "token_bucket" (f64_of_int 20) 40 ]}
    "free" (Some (mkFallback 10)) 25 0 "" "" None (Some (mkFileOrg 5000 Hour "org"))
    [mkExtra "per-ip" "client_ip" "sliding_window" 300 Hour f64_zero 0 "shadow"] None None.

Definition sample_service : Service :=
  mkFileService "orders" (mkMatch "/v1/orders" ["GET"; "POST"] "") "http://orders:8080" [] "" None 0 0 None None None
    sample_limits (Some (mkCache (30 * Second) "{path}:{key}")) (Some (mkRetries 3 [502; 503] 0 0 false)) None None None.

Definition sample_file : File :=
  mkFile Version [sample_service]
    [mkFileDomain "envoy" [mkFileEntry "remote_address" "" (Some (mkDescriptorLimit "" 100 Minute f64_zero 0)) "" []]]
    sample_runtime.

Lemma sample_checked : validate map_to_list map_to_list sample_parse (λ _, true) sample_file = [].
Proof. vm_compute. reflexivity. Qed.

Lemma sample_parse_documented : url_documented sample_parse sample_parse.
Proof.
  split; intros raw u; unfold sample_parse; destruct (_ =? _)%string; intros [= <-]; [done|].
  intros _. vm_compute. done.
Qed.


Lemma compiled_service_found_witness :
  ∃ p, FindService (Compile sample_file) "v1" "orders" = Some (p, compileService sample_service) ∧
       px_QuotaPeriod p = Minute.
Proof.
  destruct (compiled_service_found map_to_list map_to_list sample_parse (λ _, true) sample_file sample_checked)
    as [H _].
  destruct (H sample_service) as (p & Hf & Hw & _); [by left|]. exists p. split; [exact Hf|exact Hw].
Defined.
