(* ===== verification/ConfigRoundtrip.v ===== *)
(** * Writing a configuration back as a file

    [FromInternal] of a compiled file compiles to the same configuration, for
    the files whose settings it writes back; the conditions name the settings
    it drops. *)

From S2P Require Import Prelude Float64 GoLib Policies.
From S2P Require Import Config ConfigFile ConfigCheck ConfigAccepted ConfigProps.
From stdpp Require Import sorting.
From Stdlib Require Import Ascii.

Local Open Scope Z_scope.

(** ** Numbers and strings *)

Definition uint32_ok (z : Z) : Prop := 0 ≤ z < 2 ^ 32.

Lemma uint32_id z : uint32_ok z → uint32 z = z.
Proof. intros H. by apply Z.mod_small. Qed.

Lemma internalAlgo_idemp a : internalAlgo (internalAlgo a) = internalAlgo a.
Proof. unfold internalAlgo. by destruct (String.eqb_spec a "fixed_window") as [|Hn]; [|rewrite (proj2 (String.eqb_neq _ _) Hn)]. Qed.

Lemma f64_eqb_eq x m e : f64_eqb x (SpecFloat.S754_finite false m e) = true → x = SpecFloat.S754_finite false m e.
Proof.
  unfold f64_eqb, SpecFloat.SFeqb, SpecFloat.SFcompare. destruct x as [[]|[]| |[] mx ex]; try done.
  destruct (Z.compare_spec ex e) as [->| |]; [|done..].
  change (Pos.compare_cont Eq mx m) with (mx ?= m)%positive.
  by destruct (Pos.compare_spec mx m) as [->| |].
Qed.

Lemma f64_eqb_1 x : f64_eqb x (f64_of_int 1) = true → x = f64_of_int 1.
Proof. apply f64_eqb_eq. Qed.

(** ** Runtime settings *)

Lemma diff_num_back z d : 0 < d → or_default (diff_num (or_default z d) d) d = or_default z d.
Proof.
  intros Hd. unfold diff_num. destruct (Z.eqb_spec (or_default z d) d) as [->|]; [done|]. apply or_default_idemp.
Qed.

Lemma diff_strs_back l d : or_list (diff_strs (or_list l d) d) d = or_list l d.
Proof.
  unfold diff_strs, equalStrings. case_bool_decide as H; [|apply or_list_idemp]. by rewrite H.
Qed.

Lemma diff_str_back s d : or_blank (diff_str (or_blank s d) d) d = or_blank s d.
Proof.
  unfold diff_str. destruct (String.eqb_spec (or_blank s d) d) as [->|]; [done|]. apply or_blank_idemp.
Qed.

Lemma low_water_back x m e :
  let d := SpecFloat.S754_finite false m e in
  let v := if low_water_bad x then d else x in
  let y := if f64_eqb v d then f64_zero else v in
  (if low_water_bad y then d else y) = v.
Proof.
  cbv zeta. set (d := SpecFloat.S754_finite false m e). destruct (f64_eqb _ d) eqn:E.
  - apply f64_eqb_eq in E. by rewrite E.
  - destruct (low_water_bad x) eqn:Eb; [|by rewrite Eb]. by destruct (low_water_bad d).
Qed.

(** The settings of a policy whose defaults are filled in. *)
Ltac back_fields :=
  cbn -[or_list or_default or_blank DefaultRuntimePolicy low_water_bad f64_eqb diff_num diff_str diff_strs];
  rewrite ?diff_num_back by (vm_compute; done); rewrite ?diff_strs_back, ?diff_str_back.

Lemma effective_back rp : compileRuntime (runtimeFromInternal (RuntimePolicy_Effective rp)) = RuntimePolicy_Effective rp.
Proof.
  unfold runtimeFromInternal, compileRuntime. rewrite effective_idemp. destruct rp as [h e a].
  unfold RuntimePolicy_Effective. cbn [rp_Hub rp_Edge rp_Analytics]. f_equal.
  - unfold HubRuntimePolicy_Effective. by back_fields.
  - unfold EdgeRuntimePolicy_Effective. back_fields. f_equal. apply low_water_back.
  - unfold AnalyticsRuntimePolicy_Effective. by back_fields.
Qed.

Lemma runtime_back r : compileRuntime (runtimeFromInternal (compileRuntime r)) = compileRuntime r.
Proof. apply effective_back. Qed.

(** ** Cache keys *)

Lemma drop_str_app a b : drop_str (String.length a) (a +:+ b) = b.
Proof. induction a as [|c a IH]; [by destruct b|]. exact IH. Qed.

Lemma Replace_from_nil fuel pairs : Replace_from fuel pairs "" = "".
Proof. by destruct fuel. Qed.

(** What is replaced starts with a dollar. *)
Lemma from_plain_char c t : c ≠ "$"%char → find (λ p, HasPrefix (String c t) (fst p)) fromInternalCacheKey = None.
Proof.
  intros Hc%not_eq_sym. apply Ascii.eqb_neq in Hc. unfold HasPrefix. cbn -[Ascii.eqb]. by rewrite Hc.
Qed.

Lemma from_token old new X fuel :
  (old, new) ∈ toInternalCacheKey →
  Replace_from (S fuel) fromInternalCacheKey (new +:+ X) = old +:+ Replace_from fuel fromInternalCacheKey X ∧
  (0 < String.length new)%nat.
Proof.
  unfold toInternalCacheKey. rewrite !elem_of_cons, elem_of_nil.
  intros H. repeat destruct H as [H|H]; try done; injection H as -> ->; (split; [by destruct X|cbn; lia]).
Qed.

Lemma from_to_key fuel s :
  ¬ has_char "$" s → (String.length s ≤ fuel)%nat →
  ∀ fuel', (String.length (Replace_from fuel toInternalCacheKey s) ≤ fuel')%nat →
  Replace_from fuel' fromInternalCacheKey (Replace_from fuel toInternalCacheKey s) = s.
Proof.
  unfold has_char. revert s. induction fuel as [|fuel IH]; intros s Hs Hl fuel'.
  { destruct s; [|cbn in Hl; lia]. intros _. by rewrite !Replace_from_nil. }
  destruct s as [|c s]; [intros _; by rewrite !Replace_from_nil|]. cbn [Replace_from].
  destruct (find _ toInternalCacheKey) as [[old new]|] eqn:E.
  - apply find_some in E as [Hin%list_elem_of_In Hpre]. cbn [fst] in Hpre. unfold HasPrefix in Hpre.
    apply bool_decide_eq_true in Hpre as [rest Hr]. apply CutPrefix_Some in Hr. rewrite Hr in *.
    rewrite drop_str_app. rewrite chars_app in Hs. rewrite length_app_str in *. intros Hf.
    destruct (from_token old new (Replace_from fuel toInternalCacheKey rest) (pred fuel') Hin) as [Hft Hpos].
    replace fuel' with (S (pred fuel')) by lia. rewrite Hft. f_equal.
    assert (0 < String.length old)%nat by (destruct old; [|cbn; lia]; clear -Hin; set_solver).
    apply IH; [set_solver|lia..].
  - cbn [String.length chars] in *. apply not_elem_of_cons in Hs as [Hc Hs]. intros Hf.
    destruct fuel' as [|fuel']; [lia|]. cbn [Replace_from]. rewrite from_plain_char by done. f_equal. apply IH; [done|lia..].
Qed.

Lemma cache_back c :
  ¬ has_char "$" (ch_Key c) → compile_cache <$> cache_file (compile_cache c) = Some (compile_cache c).
Proof.
  intros Hc. unfold cache_file. cbn [compile_cache cc_Enabled cc_CacheKey cc_TTL]. cbn [fmap option_fmap option_map].
  set (k := orDefault (ch_Key c) defaultCacheKey).
  assert (Hk : ¬ has_char "$" k) by (unfold k, orDefault; destruct (_ =? _)%string; [no_char|done]).
  assert (Hft : Replace fromInternalCacheKey (Replace toInternalCacheKey k) = k) by (unfold Replace; apply from_to_key; [done|lia..]).
  assert (Hne : k ≠ "") by (unfold k, orDefault; by destruct (String.eqb_spec (ch_Key c) "")).
  rewrite Hft. unfold compile_cache. cbn [ch_TTL ch_Key]. fold k. do 3 f_equal. clearbody k. unfold orDefault.
  destruct (String.eqb_spec k defaultCacheKey) as [->|]; [done|]. apply String.eqb_neq in Hne. by rewrite Hne.
Qed.

(** ** Descriptors *)

Lemma limit_back l :
  uint32_ok (dl_Requests l) → uint32_ok (dl_Burst l) →
  ∀ e e', fe_Key e = fe_Key e' → (fe_Mode e =? "shadow")%string = (fe_Mode e' =? "shadow")%string →
  entry_spec e' (limit_file (entry_spec e l)) = entry_spec e l.
Proof.
  intros Hr Hb e e' Hk Hm. unfold limit_file, entry_spec. cbn. rewrite <- Hk, <- Hm.
  destruct (internalAlgo (dl_Algorithm l) =? "token_bucket")%string eqn:E; cbn;
    rewrite internalAlgo_idemp, E, uint32_id by done; done.
Qed.

(** The limits of an entry and those below it are 32 bits wide. *)
Fixpoint entry_widths (e : DescriptorEntry) : Prop :=
  match fe_Limit e with Some l => uint32_ok (dl_Requests l) ∧ uint32_ok (dl_Burst l) | None => True end ∧
  foldr (λ e P, entry_widths e ∧ P) True (fe_Entries e).

Lemma entry_back : ∀ e, entry_widths e → compileEntry (entryFromInternal (compileEntry e)) = compileEntry e.
Proof.
  fix IH 1. intros [k v l m es] [Hl Hes]. cbn [fe_Limit fe_Entries] in Hl, Hes.
  cbn [compileEntry entryFromInternal fe_Key fe_Value fe_Limit fe_Entries fe_Mode de_Key de_Value de_Limit de_Entries].
  f_equal.
  - destruct l as [l|]; [|done]. destruct Hl as [Hr Hb]. cbn [fmap option_fmap option_map]. f_equal.
    apply limit_back; [done..|]. cbn. by destruct (m =? "shadow")%string.
  - clear Hl. revert Hes. induction es as [|e es IHes]; [done|]. cbn [foldr map]. intros [He Hes].
    f_equal; [by apply IH|by apply IHes].
Qed.

(** ** Tiers *)

(** The costs [tierFromInternal] writes give the same costs back: a cost of one
    is left out, so that the cost for all methods must be one as well. *)
Definition costs_kept (t : Tier) : Prop :=
  Forall (λ m, 1 < tier_cost t m ∨ tier_cost t m = 1 ∧ tier_cost t "*" = 1) costMethods.

Lemma add_cost_eq m c costs : add_cost m c costs !! m = if 1 <? c then Some c else costs !! m.
Proof. unfold add_cost. destruct (1 <? c); [apply lookup_insert_eq|done]. Qed.
Lemma add_cost_ne m m' c costs : m ≠ m' → add_cost m c costs !! m' = costs !! m'.
Proof. intros Hne. unfold add_cost. destruct (1 <? c); [by apply lookup_insert_ne|done]. Qed.

Lemma cost_back t m def name :
  costs_kept t → m ∈ costMethods → tier_cost (tierFromInternal (compileTier name t def)) m = tier_cost t m.
Proof.
  intros Hk Hm. unfold costs_kept in Hk. rewrite Forall_forall in Hk.
  assert (Hm1 := Hk m Hm). assert (Hs : "*" ∈ costMethods) by (vm_compute; set_solver).
  apply Hk in Hs. clear Hk. unfold tier_cost at 1. cbn [tierFromInternal compileTier ti_Cost].
  cbn [compileTier t_GetCost t_PostCost t_PutCost t_DeleteCost t_OtherCost].
  unfold costMethods in Hm. rewrite !elem_of_cons in Hm.
  destruct Hm as [->|[->|[->|[->|[->|Hm]]]]]; [..|by apply elem_of_nil in Hm];
    rewrite ?add_cost_eq; rewrite ?add_cost_ne by done; rewrite ?add_cost_eq, ?lookup_empty;
    rewrite ?add_cost_ne by done; rewrite ?add_cost_eq, ?lookup_empty;
    repeat match goal with |- context [1 <? ?c] => destruct (Z.ltb_spec 1 c) end;
    unfold id; cbn [default from_option]; lia.
Qed.

Lemma tier_back name t def :
  costs_kept t → compileTier name (tierFromInternal (compileTier name t def)) "" = compileTier name t def.
Proof.
  intros Hk. unfold compileTier at 1. rewrite !cost_back by (first [done|unfold costMethods; set_solver]).
  cbn [tierFromInternal compileTier ti_Algorithm ti_Requests ti_Rate ti_Burst t_Algorithm t_Quota t_Rate].
  set (a := internalAlgo (orDefault (ti_Algorithm t) def)).
  assert (Ha : internalAlgo (orDefault a "") = a).
  { unfold orDefault at 1. destruct (String.eqb_spec a "") as [Ea|]; [by rewrite Ea|]. apply internalAlgo_idemp. }
  rewrite Ha. unfold compileTier. fold a. by destruct (a =? "token_bucket")%string.
Qed.

(** The tiers a file gets back, by name. *)
Lemma tiers_file_lookup ts name t :
  NoDup (t_TierID <$> ts) → tiers_file ts !! name = Some t ↔ ∃ c, c ∈ ts ∧ t_TierID c = name ∧ t = tierFromInternal c.
Proof.
  unfold tiers_file. induction ts as [|c ts IH] using rev_ind; [intros _; cbn [foldl]; rewrite lookup_empty; set_solver|].
  rewrite fmap_app, foldl_app, NoDup_app. intros (Hnd & Hout & _). cbn [foldl].
  rewrite lookup_insert_Some, (IH Hnd). split.
  - intros [[<- <-]|[_ (c' & ? & ? & ?)]]; [exists c|exists c']; set_solver.
  - intros (c' & [Hc|Hc%list_elem_of_singleton]%elem_of_app & <- & ->); [right|left; by subst].
    split; [|eauto]. intros E. apply (Hout (t_TierID c')); [by apply list_elem_of_fmap_2|]. rewrite <- E. by left.
Qed.

Lemma sortedTierNames_ext m m' :
  (∀ name, is_Some (m !! name) ↔ is_Some (m' !! name)) → sortedTierNames m = sortedTierNames m'.
Proof.
  intros H. apply (Sorted_unique String.le); [apply Sorted_merge_sort, _..|].
  apply NoDup_Permutation; [apply sortedTierNames_NoDup..|]. intros name. by rewrite !elem_of_sortedTierNames.
Qed.

(** The tiers [compileService] makes. *)
Definition tiers_of (m : gmap string Tier) (algo : string) : list TierConfig :=
  (λ name, compileTier name (default (mkFileTier 0 ∅ "" f64_zero 0) (m !! name)) algo) <$> sortedTierNames m.

Lemma tiers_back (m : gmap string Tier) algo :
  (∀ name t, m !! name = Some t → costs_kept t) → tiers_of (tiers_file (tiers_of m algo)) "" = tiers_of m algo.
Proof.
  intros Hk. set (ts := tiers_of m algo).
  assert (Hids : t_TierID <$> ts = sortedTierNames m).
  { unfold ts, tiers_of. rewrite <- list_fmap_compose. apply list_fmap_id. }
  assert (Hnd : NoDup (t_TierID <$> ts)) by (rewrite Hids; apply sortedTierNames_NoDup).
  assert (Hlook : ∀ name t, m !! name = Some t → tiers_file ts !! name = Some (tierFromInternal (compileTier name t algo))).
  { intros name t Ht. apply tiers_file_lookup; [done|]. exists (compileTier name t algo). split_and!; [|done..].
    apply list_elem_of_fmap. exists name. rewrite Ht, elem_of_sortedTierNames, Ht. eauto. }
  unfold tiers_of at 1. rewrite (sortedTierNames_ext (tiers_file ts) m).
  - apply list_fmap_ext. intros i name Hi%list_elem_of_lookup_2. apply elem_of_sortedTierNames in Hi as [t Ht].
    rewrite (Hlook name t Ht), Ht. apply tier_back. by eapply Hk.
  - intros name. split; [|intros [t Ht]; rewrite (Hlook _ _ Ht); eauto].
    intros [t (c & Hc & <- & _)%tiers_file_lookup]; [|done]. rewrite <- elem_of_sortedTierNames, <- Hids.
    by apply list_elem_of_fmap_2.
Qed.

(** ** A service *)

(** What must hold of a service for its settings to be written back: numbers
    of their width, and none of the settings [serviceFromInternal] leaves out. *)
Record service_kept (s : Service) : Prop := {
  kp_costs : ∀ name t, li_Tiers (se_Limits s) !! name = Some t → costs_kept t;
  kp_also : Forall (λ a, uint32_ok (ex_Requests a) ∧ uint32_ok (ex_Burst a)) (li_Also (se_Limits s));
  kp_org : ∀ o, li_Org (se_Limits s) = Some o → uint32_ok (or_Requests o);
  kp_auth : ∀ a, se_Auth s = Some a → fa_Type a ≠ "" ∧ fa_Type a ≠ "api_key";
  kp_analytics : ∀ a, se_Analytics s = Some a → fn_Enabled a = Some false → fn_SampleRate a = None;
  kp_cache : ∀ c, se_Cache s = Some c → ¬ has_char "$" (ch_Key c);
  kp_retries : ∀ r, se_Retries s = Some r → 1 < rt_Attempts r ≤ int64_max ∨ r = mkRetries 1 [] 0 0 false;
  kp_error : ∀ e, se_OnUpstreamError s = Some e → ue_Mode e = "fail-open" ∨ e = mkUpstreamError "fail-closed" 0 "" ∅;
}.

Lemma cors_back c : compile_cors (cors_file (compile_cors c)) = compile_cors c.
Proof.
  destruct c as [os ms hs age]. unfold cors_file, compile_cors, equalStrings. cbn [fo_Origins fo_Methods fo_Headers fo_MaxAge
    co_AllowedOrigins co_AllowedMethods co_AllowedHeaders co_MaxAge]. f_equal.
  - case_bool_decide as H; [by rewrite H|]. by destruct ms.
  - destruct (Z.eqb_spec age 0) as [->|]; [done|]. destruct (Z.eqb_spec age (5 * Minute)) as [->|]; [done|].
    by destruct (Z.eqb_spec age 0).
Qed.

Lemma breaker_back s s' :
  se_Upstreams s' = se_Upstreams s → se_CircuitBreaker s' = breaker_file (compileService s) →
  compile_breaker s' = compile_breaker s.
Proof.
  intros Hu Hb. unfold compile_breaker at 1. rewrite Hu, Hb. unfold breaker_file.
  cbn [compileService sv_CircuitBreaker sv_Upstreams]. unfold compile_breaker.
  destruct (1 <? _) eqn:E; destruct (se_CircuitBreaker s) as [[n d]|]; cbn; rewrite ?E; try done.
  destruct (Z.eqb_spec n 5) as [->|]; [|done]. by destruct (Z.eqb_spec d (10 * Second)) as [->|].
Qed.

Lemma auth_back s :
  service_kept s →
  match auth_file (sv_Auth (compileService s)) with
  | Some a => mkAuth (fa_Type a)
      ((λ j, Config.mkJWT (fj_JWKSURL j) (fj_Issuer j) (fj_Audience j) (fj_TierClaim j)) <$> fa_JWT a)
  | None => mkAuth "" None
  end = sv_Auth (compileService s).
Proof.
  intros Hs. cbn [compileService sv_Auth]. destruct (se_Auth s) as [a|] eqn:E; [|done].
  destruct (kp_auth _ Hs a E) as [H1 H2]. unfold auth_file. cbn [au_Type].
  apply String.eqb_neq in H1, H2. rewrite H1, H2. cbn. by destruct (fa_JWT a) as [[]|].
Qed.

Lemma analytics_back s s' :
  service_kept s → se_Analytics s' = analytics_file (sv_Analytics (compileService s)) →
  sv_Analytics (compileService s') = sv_Analytics (compileService s).
Proof.
  intros Hs E. cbn [compileService sv_Analytics] in *. rewrite E. clear E. unfold analytics_file.
  cbn [an_Enabled an_SamplingRate]. pose proof (kp_analytics _ Hs) as Ha.
  destruct (se_Analytics s) as [[[[]|] r]|].
  2: { assert (r = None) as -> by exact (Ha _ eq_refl eq_refl). done. }
  3: done.
  all: destruct r as [r|]; unfold id; cbn -[f64_of_int f64_eqb]; [|done].
  all: destruct (f64_eqb r _) eqn:E; [apply f64_eqb_1 in E as ->|]; done.
Qed.

Lemma extra_back a : uint32_ok (ex_Requests a) ∧ uint32_ok (ex_Burst a) → extra_spec (extra_file (extra_spec a)) = extra_spec a.
Proof.
  intros [Hr Hb]. unfold extra_file, extra_spec. cbn. rewrite internalAlgo_idemp.
  assert (Hp : orDefault (if (orDefault (ex_Per a) PerKey =? PerKey)%string then "" else orDefault (ex_Per a) PerKey) PerKey
               = orDefault (ex_Per a) PerKey).
  { destruct (String.eqb_spec (orDefault (ex_Per a) PerKey) PerKey) as [->|Hn]; [done|]. unfold orDefault in *.
    destruct (ex_Per a =? "")%string eqn:E; [done|]. by rewrite E. }
  rewrite Hp. destruct (internalAlgo (ex_Algorithm a) =? "token_bucket")%string; rewrite uint32_id by done;
    by destruct (ex_Mode a =? "shadow")%string.
Qed.

Lemma wrap_retries n : 1 < n ≤ int64_max → (n - 1)%i64 = n - 1 ∧ ((n - 1)%Z + 1)%i64 = n ∧ 0 < n - 1.
Proof. intros Hn. unfold i64_add, i64_sub. rewrite !wrap64_small by (unfold is_int64, int64_min, int64_max in *; lia). lia. Qed.

(** A service's retries and its answer to upstream errors, the defaults filled
    in. *)
Definition retries_of (s : Service) : Retries := default (mkRetries 1 [] 0 0 false) (se_Retries s).
Definition error_of (s : Service) : UpstreamError := default (mkUpstreamError "fail-closed" 0 "" ∅) (se_OnUpstreamError s).

Lemma retries_back s s' :
  service_kept s → se_Retries s' = retries_file (compile_upstream_policy s) → retries_of s' = retries_of s.
Proof.
  intros Hs E. pose proof (kp_retries _ Hs) as Hr. unfold retries_of. rewrite E. clear E.
  unfold retries_file, compile_upstream_policy. cbn [uf_MaxRetries uf_RetryOnStatuses uf_RetryBackoff uf_AttemptTimeout
    uf_RetryNonIdempotentMethods].
  destruct (se_Retries s) as [r|]; [|done]. unfold id. cbn [from_option].
  destruct (Hr r eq_refl) as [(Hsub & Hadd & Hpos)%wrap_retries|E]; [|by rewrite E].
  rewrite Hsub, Hadd. apply Z.ltb_lt in Hpos. rewrite Hpos. by destruct r.
Qed.

Lemma error_mode s :
  from_option (λ e, ue_Mode e =? "fail-open")%string false (se_OnUpstreamError s) = (ue_Mode (error_of s) =? "fail-open")%string.
Proof. unfold error_of. by destruct (se_OnUpstreamError s). Qed.

Lemma error_back s s' :
  service_kept s →
  se_OnUpstreamError s' =
    (if (uf_Mode (EffectiveUpstreamPolicy (sv_Failure (compileService s))) =? "fail-open")%string
     then let up := compile_upstream_policy s in
          Some (mkUpstreamError "fail-open" (uf_FallbackStatusCode up) (uf_FallbackBody up) (uf_FallbackHeaders up))
     else None) →
  error_of s' = error_of s.
Proof.
  intros Hs E. pose proof (kp_error _ Hs) as He. unfold error_of. rewrite E. clear E.
  cbn [compileService sv_Failure EffectiveUpstreamPolicy fc_Upstream fc_FailOpen uf_Mode compile_upstream_policy].
  destruct (se_OnUpstreamError s) as [e|] eqn:Es; [|done]. unfold id. cbn [from_option].
  destruct (He e eq_refl) as [E|E]; [|by rewrite E]. rewrite E. cbn. rewrite Es. destruct e. cbn in *. by subst.
Qed.

Lemma tiers_of_compiled s : sv_Tiers (compileService s) = tiers_of (li_Tiers (se_Limits s)) (li_Algorithm (se_Limits s)).
Proof. done. Qed.

Section service_back.
Context (s : Service) (Hs : service_kept s) (g : string) (p : PrefixConfig).
Let s' := serviceFromInternal g p (compileService s).

Lemma limits_back :
  compileLimits (se_Limits s') = compileLimits (se_Limits s).
Proof using Hs.
  unfold compileLimits, s'. cbn [serviceFromInternal se_Limits limitsFromInternal li_Mode li_Leasing li_Org li_Also li_Global li_Cost
    compileService sv_Shadow sv_Lease sv_Org sv_Limits sv_Global sv_Cost compileLimits lf_Shadow lf_Lease lf_Org lf_Limits
    lf_Global lf_Cost].
  f_equal.
  - by destruct (li_Mode (se_Limits s) =? "shadow")%string.
  - case_bool_decide as E; [exact (eq_sym E)|]. by destruct (li_Leasing (se_Limits s)) as [[]|].
  - destruct (li_Org (se_Limits s)) as [o|] eqn:E; [|done]. cbn. by rewrite uint32_id by by apply (kp_org _ Hs).
  - rewrite !map_map. apply map_ext_in. intros a Ha%list_elem_of_In. apply extra_back.
    by eapply Forall_forall in Ha; [|exact (kp_also _ Hs)].
  - by destruct (li_Global (se_Limits s)).
  - by destruct (li_Cost (se_Limits s)) as [[]|].
Qed.

Lemma hub_policy_back : compile_hub_policy (se_Limits s') = compile_hub_policy (se_Limits s).
Proof.
  unfold s', compile_hub_policy. cbn. destruct (li_DefaultTier (se_Limits s) =? "")%string eqn:E.
  - cbn. apply String.eqb_eq in E. rewrite E. by destruct (li_WhenHubUnavailable (se_Limits s)).
  - cbn. rewrite E. cbn. rewrite E. by destruct (li_WhenHubUnavailable (se_Limits s)).
Qed.

Lemma failure_back : sv_Failure (compileService s') = sv_Failure (compileService s).
Proof using Hs.
  assert (Hr : retries_of s' = retries_of s) by (by apply retries_back).
  assert (He : error_of s' = error_of s) by (by apply error_back).
  cbn [compileService sv_Failure]. rewrite !error_mode, He, hub_policy_back. f_equal.
  change (compile_upstream_policy s') with
    (let e := error_of s' in let r := retries_of s' in
     mkUpstreamFailure (ue_Mode e) (rt_Attempts r - 1)%i64 (rt_Backoff r) (rt_Statuses r) (rt_NonIdempotent r)
       (rt_PerAttemptTimeout r) (ue_Status e) (ue_Body e) (ue_Headers e)).
  by rewrite Hr, He.
Qed.

Lemma safety_back : sv_SafetyTier (compileService s') = sv_SafetyTier (compileService s).
Proof. cbn. by destruct (li_WhenHubUnavailable (se_Limits s)). Qed.

Lemma cache_service_back : sv_Cache (compileService s') = sv_Cache (compileService s).
Proof using Hs.
  unfold s'. cbn [serviceFromInternal compileService sv_Cache se_Cache]. destruct (se_Cache s) as [c|] eqn:E; [|done].
  cbn [fmap option_fmap option_map mbind option_bind]. by apply cache_back, (kp_cache _ Hs).
Qed.

Lemma transform_back : sv_Transform (compileService s') = sv_Transform (compileService s).
Proof.
  unfold s'. cbn [serviceFromInternal compileService sv_Transform se_StripPathPrefix se_Headers tf_StripPrefix tf_AddHeaders
    tf_HideHeaders]. f_equal.
  - by destruct (default true (se_StripPathPrefix s)).
  - case_bool_decide as E1; case_bool_decide as E2; cbn; done.
  - case_bool_decide as E1; case_bool_decide as E2; cbn; done.
Qed.

Lemma tiers_service_back : sv_Tiers (compileService s') = sv_Tiers (compileService s).
Proof using Hs. rewrite !tiers_of_compiled. apply tiers_back, (kp_costs _ Hs). Qed.

Lemma service_back : compileService s' = compileService s.
Proof using Hs.
  pose proof limits_back as Hl. pose proof failure_back as Hf. pose proof safety_back as Hsf.
  pose proof cache_service_back as Hc. pose proof transform_back as Ht. pose proof tiers_service_back as Hti.
  pose proof (analytics_back s s' Hs eq_refl) as Ha. pose proof (auth_back s Hs) as Hau.
  pose proof (breaker_back s s' eq_refl eq_refl) as Hb.
  cbn [compileService sv_Failure sv_SafetyTier sv_Cache sv_Transform sv_Tiers sv_Analytics] in Hf, Hsf, Hc, Ht, Hti, Ha.
  unfold compileService at 1. rewrite Hl, Hf, Hsf, Hc, Ht, Hti, Ha, Hb. unfold compileService at 1.
  f_equal; try done.
  - cbn. by destruct (se_Upstreams s).
  - cbn. destruct (se_CORS s); [|done]. cbn. by rewrite cors_back.
Qed.
End service_back.

(** ** Groups *)

Lemma TrimLeft_id c s : ¬ has_char c s → TrimLeft c s = s.
Proof.
  unfold has_char. destruct s as [|d s]; [done|]. cbn [chars TrimLeft]. intros [Hc _]%not_elem_of_cons.
  apply Ascii.eqb_neq in Hc. by rewrite Hc.
Qed.

Lemma TrimRight_app c a b : b ≠ "" → ¬ has_char c b → TrimRight c (a +:+ b) = a +:+ b.
Proof.
  unfold has_char. intros Hb Hc. induction a as [|d a IH].
  - rewrite app_nil_str. induction b as [|d b IH]; [done|]. cbn [chars] in Hc. apply not_elem_of_cons in Hc as [Hd Hc].
    cbn [TrimRight]. destruct (decide (b = "")) as [->|Hne]; [apply Ascii.eqb_neq in Hd; cbn; by rewrite Hd|].
    rewrite IH by done. by destruct b.
  - rewrite app_cons_str. cbn [TrimRight]. rewrite IH. by destruct a, b.
Qed.

Lemma Trim_plain g : plain_name g → Trim "/" g = g.
Proof.
  intros Hg. unfold Trim. rewrite TrimLeft_id by eauto with config.
  rewrite <- (app_nil_str g). apply TrimRight_app; [apply Hg|eauto with config].
Qed.

Lemma Split_head c a b : ¬ has_char c a → ∃ l, Split c (a +:+ String c b) = a :: l.
Proof.
  unfold has_char. induction a as [|d a IH]; intros H.
  - rewrite app_nil_str. cbn [Split]. rewrite Ascii.eqb_refl. eauto.
  - rewrite app_cons_str. cbn [chars] in H. apply not_elem_of_cons in H as [Hd Ha]. cbn [Split].
    apply Ascii.eqb_neq in Hd. rewrite Hd. destruct (IH Ha) as [l ->]. eauto.
Qed.

Lemma group_of_path g n s :
  plain_name g → plain_name n → ma_PathPrefix (se_Match s) = "/" +:+ g +:+ "/" +:+ n → Service_group s = g.
Proof.
  intros Hg Hn E. unfold Service_group. rewrite E. unfold Trim.
  change ("/" +:+ g +:+ "/" +:+ n) with (String "/" (g +:+ String "/" n)). cbn [TrimLeft]. rewrite Ascii.eqb_refl.
  assert (Hl : TrimLeft "/" (g +:+ String "/" n) = g +:+ String "/" n).
  { destruct g as [|c g]; [by destruct Hg|]. apply plain_no_slash in Hg. unfold has_char in Hg. cbn [chars] in Hg.
    apply not_elem_of_cons in Hg as [Hc _]. rewrite app_cons_str. cbn [TrimLeft]. apply Ascii.eqb_neq in Hc. by rewrite Hc. }
  rewrite Hl. assert (Ha : g +:+ String "/" n = (g +:+ "/") +:+ n).
  { apply chars_inj. rewrite !chars_app. cbn [chars]. by rewrite <- (assoc_L (++)). }
  rewrite Ha, TrimRight_app, <- Ha by (first [apply Hn|eauto with config]).
  destruct (Split_head "/" g n) as [l ->]; [eauto with config|done].
Qed.

(** Lists of services, one group after another. *)
Lemma groups_of_app_new ss l g :
  l ≠ [] → Forall (λ s, Service_group s = g) l → g ∉ groups_of ss → groups_of (ss ++ l) = groups_of ss ++ [g].
Proof.
  intros Hl Hall Hg. induction l as [|s l IH] using rev_ind; [done|].
  apply Forall_app in Hall as [Hall [Hs _]%Forall_cons]. rewrite app_assoc, groups_of_snoc. rewrite Hs.
  destruct (decide (l = [])) as [->|Hne]; [by rewrite app_nil_r, decide_False|].
  rewrite IH by done. rewrite decide_True; [done|]. apply elem_of_app. right. by left.
Qed.

Lemma in_group_all g l : Forall (λ s, Service_group s = g) l → in_group g l = l.
Proof. induction 1 as [|s l Hs _ IH]; [done|]. unfold in_group in *. by rewrite filter_cons, decide_True, IH. Qed.
Lemma in_group_none g l : Forall (λ s, Service_group s ≠ g) l → in_group g l = [].
Proof. induction 1 as [|s l Hs _ IH]; [done|]. unfold in_group in *. by rewrite filter_cons, decide_False. Qed.

Section grouped.
Context (L : string → list Service).
Context (HL : ∀ g, Forall (λ s, Service_group s = g) (L g)).

Lemma groups_of_concat gs :
  NoDup gs → (∀ g, g ∈ gs → L g ≠ []) → groups_of (concat (map L gs)) = gs.
Proof using HL.
  induction gs as [|g gs IH] using rev_ind; [done|]. intros (Hnd & Hout & _)%NoDup_app Hne.
  assert (Hgs : groups_of (concat (map L gs)) = gs) by (apply IH; set_solver).
  rewrite map_app, concat_app. cbn [map concat]. rewrite app_nil_r, (groups_of_app_new _ _ g), Hgs; [done| |done|].
  - apply Hne, elem_of_app. right. by left.
  - rewrite Hgs. intros Hg. apply (Hout g Hg). by left.
Qed.

Lemma in_group_differ g g' : g ≠ g' → in_group g (L g') = [].
Proof using HL. intros Hne. apply in_group_none. eapply Forall_impl; [apply HL|]. cbn. congruence. Qed.

Lemma in_group_concat gs g : NoDup gs → g ∈ gs → in_group g (concat (map L gs)) = L g.
Proof using HL.
  assert (Happ : ∀ l l', in_group g (l ++ l') = in_group g l ++ in_group g l') by (intros; apply filter_app).
  assert (Hnone : ∀ gs, g ∉ gs → in_group g (concat (map L gs)) = []).
  { intros gs0. induction gs0 as [|g0 gs0 IH]; [done|]. intros [Hg Hgs]%not_elem_of_cons. cbn [map concat].
    rewrite Happ, in_group_differ, IH by done. done. }
  induction gs as [|g0 gs IH]; [by intros _ ?%elem_of_nil|]. intros [Hni Hnd]%NoDup_cons Hg. cbn [map concat]. rewrite Happ.
  apply elem_of_cons in Hg as [->|Hg].
  - rewrite in_group_all, Hnone, app_nil_r by done. done.
  - rewrite in_group_differ, IH by (done || (intros ->; done)). done.
Qed.
End grouped.

(** ** The file *)

Definition file_kept (f : File) : Prop :=
  Forall service_kept (f_Services f) ∧ Forall (λ d, Forall entry_widths (fd_Entries d)) (f_Descriptors f).

Lemma descriptors_back ds :
  Forall (λ d, Forall entry_widths (fd_Entries d)) ds →
  let compiled := map (λ d, Config.mkDomain (fd_Domain d) (compileEntries (fd_Entries d))) in
  compiled (map (λ d, mkFileDomain (dd_Domain d) (entriesFromInternal (dd_Entries d))) (compiled ds)) = compiled ds.
Proof.
  intros Hall. cbv zeta. rewrite !map_map. apply map_ext_in. intros d Hd%list_elem_of_In. cbn. f_equal.
  eapply Forall_forall in Hd; [|exact Hall]. unfold compileEntries, entriesFromInternal. rewrite !map_map.
  apply map_ext_in. intros e He%list_elem_of_In. apply entry_back. by eapply Forall_forall in He.
Qed.

Section back.
Context {url_Parse : string → option URL} (f : File) (Hok : file_ok url_Parse f) (Hkept : Forall service_kept (f_Services f)).

(** A service as it is written back, and a group's services. *)
Definition back (s : Service) : Service :=
  serviceFromInternal (Trim "/" (Service_group s)) (prefix_of (f_Services f) (Service_group s)) (compileService s).
Definition back_group (g : string) : list Service := map back (in_group g (f_Services f)).

Lemma back_services : f_Services (FromInternal (Compile f)) = concat (map back_group (groups_of (f_Services f))).
Proof.
  unfold FromInternal. cbn [f_Services]. rewrite Compile_prefixes. f_equal. change (prefix_of (f_Services f) <$> ?l) with (map (prefix_of (f_Services f)) l).
  rewrite map_map. apply map_ext. intros g. unfold back_group. cbn [prefix_of px_Prefix px_Services]. rewrite map_map.
  apply map_ext_in. intros s [<- _]%list_elem_of_In%elem_of_in_group. done.
Qed.

Lemma back_group_groups g : Forall (λ s, Service_group s = g) (back_group g).
Proof using Hok.
  apply Forall_forall. intros s' (s & -> & [<- Hs]%elem_of_in_group)%list_elem_of_fmap.
  assert (Hsv := file_service url_Parse f Hok s Hs). assert (Hg := ok_plain_group _ _ Hsv).
  eapply (group_of_path _ (se_Name s)); [done|apply nameRe_plain, (ok_name _ _ Hsv)|]. cbn. by rewrite Trim_plain.
Qed.

Lemma back_compiled s : s ∈ f_Services f → compileService (back s) = compileService s.
Proof using Hkept. intros Hs. apply service_back. by eapply Forall_forall in Hs; [|exact Hkept]. Qed.

Lemma prefix_back g :
  g ∈ groups_of (f_Services f) → prefix_of (f_Services (FromInternal (Compile f))) g = prefix_of (f_Services f) g.
Proof using Hok Hkept.
  intros Hg. unfold prefix_of. rewrite back_services, (in_group_concat _ back_group_groups) by (done || apply groups_of_NoDup).
  assert (Hmap : map compileService (back_group g) = map compileService (in_group g (f_Services f))).
  { unfold back_group. rewrite map_map. apply map_ext_in. intros s [_ Hs]%list_elem_of_In%elem_of_in_group. by apply back_compiled. }
  rewrite Hmap. unfold back_group. apply in_group_ne in Hg. destruct (in_group g (f_Services f)) as [|s l] eqn:E; [done|].
  assert (Hs : s ∈ in_group g (f_Services f)) by (rewrite E; by left). apply elem_of_in_group in Hs as [<- _].
  cbn -[compileService]. unfold prefix_of. by rewrite E.
Qed.

Lemma prefixes_back : gc_Prefixes (Compile (FromInternal (Compile f))) = gc_Prefixes (Compile f).
Proof using Hok Hkept.
  rewrite !Compile_prefixes.
  assert (Hgs : groups_of (f_Services (FromInternal (Compile f))) = groups_of (f_Services f)).
  { rewrite back_services. apply groups_of_concat; [apply back_group_groups|apply groups_of_NoDup|].
    intros g Hg%in_group_ne. unfold back_group. by destruct (in_group g (f_Services f)). }
  rewrite Hgs. apply list_fmap_ext. intros i g Hi%list_elem_of_lookup_2. by apply prefix_back.
Qed.
End back.

(** C24: (round trip) Writing the compiled configuration of an accepted file back
    as a file and compiling that gives the same configuration, for files whose
    numbers have their width and that use none of the settings that are not
    written back: a method's cost of one below a higher cost for all others, a
    spelled-out API-key authentication, a sample rate of disabled analytics, a
    dollar in a cache key, retry settings with one attempt, and an answer to
    upstream errors that is not served. *)
Theorem compile_round_trip range_cost range_floors url_Parse regexp_ok f :
  validate range_cost range_floors url_Parse regexp_ok f = [] → file_kept f → Compile (FromInternal (Compile f)) = Compile f.
Proof.
  intros Hok%validate_file_ok [Hs Hd]. unfold Compile at 1 3. f_equal.
  - exact (prefixes_back f Hok Hs).
  - apply runtime_back.
  - by apply descriptors_back.
Qed.

Lemma sample_kept : file_kept sample_file.
Proof.
  split; apply Forall_singleton.
  - split.
    + intros name t Ht. unfold sample_service, sample_limits in Ht. cbn [se_Limits li_Tiers] in Ht.
      apply lookup_insert_Some in Ht as [[<- <-]|[_ [<- <-]%lookup_singleton_Some]].
      all: refine (bool_decide_eq_true_1 _ _); vm_compute; reflexivity.
    + apply Forall_singleton. vm_compute. done.
    + intros o [= <-]. vm_compute. done.
    + done.
    + done.
    + intros c [= <-]. no_char.
    + intros r [= <-]. left. vm_compute. split; [done|discriminate].
    + done.
  - apply Forall_singleton. vm_compute. done.
Qed.

Lemma compile_round_trip_witness : Compile (FromInternal (Compile sample_file)) = Compile sample_file.
Proof. exact (compile_round_trip map_to_list map_to_list sample_parse (λ _, true) sample_file sample_checked sample_kept). Defined.
