(* ===== verification/ControlPlane.v ===== *)
(** * The control plane ([packages/hub/controlplane.go], [packages/edge/follow.go])

    How changes of the configuration and of keys' tiers reach the edges.  Hubs
    share a Redis channel; each hub's relay applies what arrives on it and
    forwards it to the edges that watch the hub, through a bounded channel per
    edge.  Messages and events carry the values themselves; JSON is a matter of
    the library, except that it has no form for numbers that are not finite.

    The theorems: an edge that is connected and has received what was sent to
    it serves the configuration in force at its hub and has seen every tier
    change since it connected, for any interleaving of reloads, the relay and
    connections; hubs reloaded at the same time may end with different
    configurations; a configuration with a number that is not finite can be
    accepted and then keeps every edge from connecting. *)

From S2P Require Import Prelude Float64 GoLib Policies.
From S2P Require Import Config TtlCache Tiers Edge EdgeCache.
From S2P Require Import ConfigFile ConfigCheck HubConfig.

Local Open Scope Z_scope.

(** ** Messages and events *)

Record ConfigInvalidationScope := mkScope {
  is_Prefix : string;
  is_ServiceID : string;
  is_Mode : string;
  is_Reason : string;
}.

Record TierChange := mkTierChange {
  tg_Prefix : string;
  tg_ApiKey : string;
  tg_TierId : string;
}.

(** [CacheScope]: the prefix and service of cached responses. *)
Inductive ControlEvent :=
| ControlEvent_Config (config : option GatewayConfig) (resetTiers : bool) (invalidate : list (string * string))
| ControlEvent_Tier (c : TierChange).

Record controlMessage := mkMessage {
  mg_Origin : string;
  mg_Config : option GatewayConfig;
  mg_Invalidate : list ConfigInvalidationScope;
  mg_Tier : option TierChange;
}.

(** [json.Marshal] refuses numbers that are not finite. *)
Definition f64_finite (x : float64) : bool :=
  match x with
  | SpecFloat.S754_infinity _ | SpecFloat.S754_nan => false
  | _ => true
  end.

Definition tier_json (t : TierConfig) : bool := f64_finite (t_Rate t).

Definition service_json (s : ServiceConfig) : bool :=
  forallb tier_json (sv_Tiers s) && from_option tier_json true (sv_SafetyTier s)
  && f64_finite (an_SamplingRate (sv_Analytics s))
  && forallb (λ l, f64_finite (ls_Rate l)) (sv_Limits s)
  && from_option (λ m, forallb (λ kf, f64_finite (snd kf)) (map_to_list m)) true (sv_Global s).

Fixpoint entry_json (e : Config.DescriptorEntry) : bool :=
  from_option (λ l, f64_finite (ls_Rate l)) true (de_Limit e) && forallb entry_json (de_Entries e).

Definition json_ok (cfg : option GatewayConfig) : bool :=
  match cfg with
  | None => true
  | Some cfg =>
      forallb (λ p, f64_finite (lc_LowWaterPct (px_Leasing p)) && forallb service_json (px_Services p)) (gc_Prefixes cfg)
      && f64_finite (er_RateLowWaterPct (rp_Edge (gc_Runtime cfg)))
      && forallb (λ d, forallb entry_json (dd_Entries d)) (gc_Descriptors cfg)
  end.

(** ** The hub's side *)

Definition watcherBuffer : nat := 256.

(** A channel an edge's [Watch] call reads from. *)
Record chan := mkChan {
  ch_queue : list ControlEvent;
  ch_closed : bool;
}.

(** The channels, and those registered as watchers. *)
Record watchers := mkWatchers {
  ws_chans : gmap nat chan;
  ws_open : gset nat;
}.

Definition Snapshot (cm : ConfigManager) : option GatewayConfig := cm_active cm.

Definition snapshot (cm : ConfigManager) (resetTiers : bool) (invalidate : list ConfigInvalidationScope)
  : option ControlEvent :=
  if json_ok (Snapshot cm)
  then Some (ControlEvent_Config (Snapshot cm) resetTiers (map (λ s, (is_Prefix s, is_ServiceID s)) invalidate))
  else None.

(** The loop over the watchers: an event for each that has room; the others are
    dropped and their channels closed. *)
Definition has_room (c : chan) : bool := (length (ch_queue c) <? watcherBuffer)%nat.

Definition send_to (ev : ControlEvent) (c : chan) : chan :=
  if has_room c then mkChan (ch_queue c ++ [ev]) (ch_closed c) else mkChan (ch_queue c) true.

Definition send_all (ev : ControlEvent) (ws : watchers) : watchers :=
  mkWatchers
    (map_imap (λ id c, Some (if decide (id ∈ ws_open ws) then send_to ev c else c)) (ws_chans ws))
    (filter (λ id, from_option has_room true (ws_chans ws !! id) = true) (ws_open ws)).

Section hub.
Variable ParseRequestURI : string → option URL.
Variable origin : string.

(** [deliver] in its parts: a configuration from another hub is loaded, an
    event made, and sent to the watchers.  [None]: the message ends there. *)
Definition deliver_load (cm : ConfigManager) (m : controlMessage) : option ConfigManager :=
  match mg_Config m with
  | Some cfg =>
      if (mg_Origin m =? origin)%string then Some cm
      else match ReloadFromPayload ParseRequestURI cm cfg with
           | (None, cm') => Some cm'
           | (Some _, _) => None
           end
  | None => Some cm
  end.

Definition deliver_event (cm : ConfigManager) (m : controlMessage) : option ControlEvent :=
  match mg_Config m, mg_Tier m with
  | Some _, _ => snapshot cm false (mg_Invalidate m)
  | None, Some t => Some (ControlEvent_Tier t)
  | None, None => None
  end.

(** The callback [OnTierChange] has set: the hub's tier cache forgets the key. *)
Definition deliver_tier (cache : CachedTiers) (m : controlMessage) : CachedTiers :=
  match mg_Config m, mg_Tier m with
  | None, Some t => Invalidate cache (tg_Prefix t) (tg_ApiKey t)
  | _, _ => cache
  end.

Definition deliver (m : controlMessage) (cm : ConfigManager) (cache : CachedTiers) (ws : watchers)
  : ConfigManager * CachedTiers * watchers :=
  match deliver_load cm m with
  | None => (cm, cache, ws)
  | Some cm' =>
      (cm', deliver_tier cache m, match deliver_event cm' m with Some ev => send_all ev ws | None => ws end)
  end.

(** What [PublishConfig] and [PublishTier] publish. *)
Definition config_message (cm : ConfigManager) (invalidate : list ConfigInvalidationScope) : controlMessage :=
  mkMessage origin (Snapshot cm) invalidate None.
Definition tier_message (prefix apiKey tierID : string) : controlMessage :=
  mkMessage origin None [] (Some (mkTierChange prefix apiKey tierID)).

(** [publish]: through Redis when the hub has a Redis and it takes the message;
    otherwise to this hub's watchers alone.  The first result is what goes out. *)
Definition publish (m : controlMessage) (redis accepted : bool) (cm : ConfigManager) (cache : CachedTiers) (ws : watchers)
  : list controlMessage * (ConfigManager * CachedTiers * watchers) :=
  if redis && json_ok (mg_Config m) && accepted then ([m], (cm, cache, ws)) else ([], deliver m cm cache ws).
End hub.

(** [ResolveKey]. *)
Section resolve.
Context {St : Type} `{!TierRecords St}.
Variable validKey : HubRuntimePolicy → string → bool.

Inductive resolve_error := UnknownPrefix | BadKey | StoreUnavailable (e : string).

Definition ResolveKey (cfg : GatewayConfig) (tiers : St) (fail : option string) (prefix apiKey : string)
  : result resolve_error string :=
  match FindPrefix cfg prefix with
  | None => Err UnknownPrefix
  | Some _ =>
      if negb (validKey (rp_Hub (gc_Runtime cfg)) apiKey) then Err BadKey
      else match fail with
           | Some e => Err (StoreUnavailable e)
           | None => Ok (tr_tier tiers prefix apiKey)
           end
  end.
End resolve.

(** ** The edge's side ([follow.go]) *)

Definition no_config : GatewayConfig :=
  mkGateway [] (mkRuntime (mkHubRuntime [] [] 0 "" 0 0 0) (mkEdgeRuntime 0 0 0 f64_zero 0 0 0 0 0 0 0)
                  (mkAnalyticsRuntime 0 0 0 0 0 0 0 0 "" "" 0 0)) [].

Record follower := mkFollower {
  fo_index : configIndex;
  fo_tiers : TierCache;
  fo_responses : ttlCache string;
  fo_ready : bool;
}.

Section follow.
Variable range_tiers : gmap string (cacheEntry tierEntry) → list (string * cacheEntry tierEntry).
Variable range_responses : gmap string (cacheEntry string) → list (string * cacheEntry string).

(** [Server.Apply]; the edge keeps tiers and responses in memory. *)
Definition Apply_event (now : Z) (s : follower) (ev : ControlEvent) : follower :=
  match ev with
  | ControlEvent_Config cfg resetTiers invalidate =>
      mkFollower (Apply (default no_config cfg))
        (if resetTiers then TierCache_Reset (fo_tiers s) else fo_tiers s)
        (foldl (λ c sc, responses_Invalidate range_responses c (fst sc) (snd sc)) (fo_responses s) invalidate)
        true
  | ControlEvent_Tier t =>
      mkFollower (fo_index s) (TierCache_Set range_tiers (fo_tiers s) (tg_Prefix t) (tg_ApiKey t) (tg_TierId t) now)
        (fo_responses s) (fo_ready s)
  end.
End follow.

(** ** Interleavings at one hub *)

(** A [Watch] call: registered, with the first snapshot taken, or streaming;
    the events its edge has received; and how many tier changes had been sent
    to the watchers when it registered. *)
Inductive phase := WRegistered | WFirst (ev : ControlEvent) | WStreaming.

Record watch := mkWatch {
  wt_phase : phase;
  wt_got : list ControlEvent;
  wt_since : nat;
}.

(** The relay between the atomic parts of [deliver]. *)
Inductive relay := RIdle | RLoaded (m : controlMessage) | RReady (ev : ControlEvent).

Record hworld := mkHWorld {
  hw_cm : ConfigManager;
  hw_ws : watchers;
  hw_watch : gmap nat watch;
  hw_inbox : list controlMessage;  (* from the Redis channel, in order *)
  hw_relay : relay;
  hw_stored : nat;                 (* reloads that have stored and not yet published *)
  hw_log : list TierChange;        (* tier changes sent to the watchers *)
}.

Definition event_tier (ev : ControlEvent) : list TierChange :=
  match ev with ControlEvent_Tier t => [t] | ControlEvent_Config _ _ _ => [] end.

Section steps.
Variable ParseRequestURI : string → option URL.
Variable origin : string.

Inductive hstep : hworld → hworld → Prop :=
(** a reload through this hub stores a configuration, and publishes the one
    then in force *)
| HStore cfg cm ws wt inb rl n log : json_ok (Some cfg) = true →
    hstep (mkHWorld cm ws wt inb rl n log)
          (mkHWorld (mkConfigManager (cm_filePath cm) (Some cfg)) ws wt inb rl (S n) log)
| HPublish inv cm ws wt inb rl n log :
    hstep (mkHWorld cm ws wt inb rl (S n) log)
          (mkHWorld cm ws wt (inb ++ [config_message origin cm inv]) rl n log)
(** any other message, decoded from JSON *)
| HArrive m cm ws wt inb rl n log : json_ok (mg_Config m) = true →
    hstep (mkHWorld cm ws wt inb rl n log) (mkHWorld cm ws wt (inb ++ [m]) rl n log)
(** the relay *)
| HLoad m cm cm' ws wt inb n log : deliver_load ParseRequestURI origin cm m = Some cm' →
    hstep (mkHWorld cm ws wt (m :: inb) RIdle n log) (mkHWorld cm' ws wt inb (RLoaded m) n log)
| HReject m cm ws wt inb n log : deliver_load ParseRequestURI origin cm m = None →
    hstep (mkHWorld cm ws wt (m :: inb) RIdle n log) (mkHWorld cm ws wt inb RIdle n log)
| HEvent m ev cm ws wt inb n log : deliver_event cm m = Some ev →
    hstep (mkHWorld cm ws wt inb (RLoaded m) n log) (mkHWorld cm ws wt inb (RReady ev) n log)
| HNoEvent m cm ws wt inb n log : deliver_event cm m = None →
    hstep (mkHWorld cm ws wt inb (RLoaded m) n log) (mkHWorld cm ws wt inb RIdle n log)
| HSend ev cm ws wt inb n log :
    hstep (mkHWorld cm ws wt inb (RReady ev) n log)
          (mkHWorld cm (send_all ev ws) wt inb RIdle n (log ++ event_tier ev))
(** an edge connects, is sent the first snapshot and then its events; a call
    may end at any time *)
| HWatch id cm ws wt inb rl n log : ws_chans ws !! id = None →
    hstep (mkHWorld cm ws wt inb rl n log)
          (mkHWorld cm (mkWatchers (<[id := mkChan [] false]> (ws_chans ws)) ({[id]} ∪ ws_open ws))
             (<[id := mkWatch WRegistered [] (length log)]> wt) inb rl n log)
| HFirst id ev got since cm ws wt inb rl n log :
    wt !! id = Some (mkWatch WRegistered got since) → snapshot cm true [] = Some ev →
    hstep (mkHWorld cm ws wt inb rl n log)
          (mkHWorld cm ws (<[id := mkWatch (WFirst ev) got since]> wt) inb rl n log)
| HHello id ev got since cm ws wt inb rl n log :
    wt !! id = Some (mkWatch (WFirst ev) got since) →
    hstep (mkHWorld cm ws wt inb rl n log)
          (mkHWorld cm ws (<[id := mkWatch WStreaming (got ++ [ev]) since]> wt) inb rl n log)
| HRecv id ev q closed got since cm ws wt inb rl n log :
    wt !! id = Some (mkWatch WStreaming got since) → ws_chans ws !! id = Some (mkChan (ev :: q) closed) →
    hstep (mkHWorld cm ws wt inb rl n log)
          (mkHWorld cm (mkWatchers (<[id := mkChan q closed]> (ws_chans ws)) (ws_open ws))
             (<[id := mkWatch WStreaming (got ++ [ev]) since]> wt) inb rl n log)
| HLeave id cm ws wt inb rl n log :
    hstep (mkHWorld cm ws wt inb rl n log)
          (mkHWorld cm (mkWatchers (ws_chans ws) (ws_open ws ∖ {[id]})) (delete id wt) inb rl n log).

Inductive hreach : hworld → Prop :=
| HInit path cfg : json_ok (Some cfg) = true →
    hreach (mkHWorld (mkConfigManager path (Some cfg)) (mkWatchers ∅ ∅) ∅ [] RIdle 0 [])
| HNext w w' : hreach w → hstep w w' → hreach w'.

(** ** What a stream carries *)

Definition last_config (evs : list ControlEvent) : option (option GatewayConfig) :=
  foldl (λ acc ev, match ev with ControlEvent_Config c _ _ => Some c | ControlEvent_Tier _ => acc end) None evs.

Definition tiers_in (evs : list ControlEvent) : list TierChange := evs ≫= event_tier.

#[local] Arguments last_config : simpl never.
#[local] Arguments tiers_in : simpl never.

(** All events of a call: received, the first snapshot, queued. *)
Definition first_of (p : phase) : list ControlEvent := match p with WFirst ev => [ev] | _ => [] end.
Definition stream (w : watch) (c : chan) : list ControlEvent := wt_got w ++ first_of (wt_phase w) ++ ch_queue c.

Definition config_event (ev : ControlEvent) : Prop := match ev with ControlEvent_Config _ _ _ => True | _ => False end.

(** A configuration this hub still has to send. *)
Definition owed (w : hworld) : Prop :=
  hw_stored w ≠ 0%nat ∨
  (∃ m, m ∈ hw_inbox w ∧ mg_Origin m = origin ∧ is_Some (mg_Config m)) ∨
  (∃ m, hw_relay w = RLoaded m ∧ is_Some (mg_Config m)).

Definition sending (w : hworld) : Prop := ∃ ev, hw_relay w = RReady ev ∧ config_event ev.

(** Nothing is under way: no reload before its publication, no configuration
    of this hub on the channel, none in the relay. *)
Definition settled_hub (w : hworld) : Prop := ¬ owed w ∧ ¬ sending w.

Record stream_ok (w : hworld) (wt : watch) (c : chan) : Prop := {
  so_config : owed w ∨ sending w ∨ last_config (stream wt c) = Some (cm_active (hw_cm w)) ∨
              (wt_phase wt = WRegistered ∧ last_config (ch_queue c) = None);
  so_registered : wt_phase wt = WRegistered → wt_got wt = [];
  so_since : (wt_since wt ≤ length (hw_log w))%nat;
  so_tiers : tiers_in (stream wt c) = drop (wt_since wt) (hw_log w);
}.

Record hinv (w : hworld) : Prop := {
  hi_active : is_Some (cm_active (hw_cm w));
  hi_json : json_ok (cm_active (hw_cm w)) = true;
  hi_inbox : ∀ m, m ∈ hw_inbox w → json_ok (mg_Config m) = true;
  hi_ready : ∀ c r i, hw_relay w = RReady (ControlEvent_Config c r i) → owed w ∨ c = cm_active (hw_cm w);
  hi_chans : ∀ id, id ∈ ws_open (hw_ws w) → is_Some (ws_chans (hw_ws w) !! id);
  hi_streams : ∀ id wt c, hw_watch w !! id = Some wt → id ∈ ws_open (hw_ws w) → ws_chans (hw_ws w) !! id = Some c →
    stream_ok w wt c;
}.

Lemma last_config_app a b :
  last_config (a ++ b) = match last_config b with Some c => Some c | None => last_config a end.
Proof.
  unfold last_config. rewrite foldl_app. generalize (foldl (λ acc ev, match ev with ControlEvent_Config c _ _ => Some c
    | ControlEvent_Tier _ => acc end) None a). induction b as [|ev b IH] using rev_ind; intros acc; [done|].
  rewrite !foldl_app. cbn [foldl]. by destruct ev.
Qed.

Lemma tiers_in_app a b : tiers_in (a ++ b) = tiers_in a ++ tiers_in b.
Proof. apply bind_app. Qed.

(** A stream stays well-formed when what is owed is still owed. *)
Lemma stream_ok_frame w w' wt c :
  (owed w ∨ sending w → owed w' ∨ sending w') →
  (cm_active (hw_cm w') = cm_active (hw_cm w) ∨ owed w' ∨ sending w') → hw_log w' = hw_log w →
  stream_ok w wt c → stream_ok w' wt c.
Proof using All.
  intros Hp Hcm Hlog [H1 H2 H3 H4]. split; rewrite ?Hlog; try done.
  destruct Hcm as [->|[|]]; [|tauto..]. tauto.
Qed.

Lemma reload_json cm cfg cm' :
  ReloadFromPayload ParseRequestURI cm cfg = (None, cm') → json_ok (Some cfg) = true →
  is_Some (cm_active cm') ∧ json_ok (cm_active cm') = true.
Proof using All.
  unfold ReloadFromPayload. destruct (ValidateGatewayConfig _ _); [done|]. intros [= <-]. cbn [cm_active].
  intros H. split; [eauto|]. revert H. unfold json_ok. cbn [gc_Prefixes gc_Runtime gc_Descriptors].
  rewrite !andb_true_iff. intros [[H1 H2] H3]. split_and!; try done.
  cbn [RuntimePolicy_Effective EdgeRuntimePolicy_Effective rp_Edge er_RateLowWaterPct]. by destruct (low_water_bad _).
Qed.

Lemma load_ok cm m cm' :
  deliver_load ParseRequestURI origin cm m = Some cm' → json_ok (mg_Config m) = true →
  is_Some (cm_active cm) → json_ok (cm_active cm) = true →
  is_Some (cm_active cm') ∧ json_ok (cm_active cm') = true ∧ (mg_Config m = None → cm' = cm).
Proof.
  unfold deliver_load. destruct (mg_Config m) as [cfg|]; [|intros [= <-]; done].
  destruct (mg_Origin m =? origin)%string; [intros [= <-]; done|].
  destruct (ReloadFromPayload _ cm cfg) as [[] cm1] eqn:E; [done|]. intros [= <-] Hj _ _.
  destruct (reload_json _ _ _ E Hj). by split_and!.
Qed.

Lemma own_loads cm m : mg_Origin m = origin → deliver_load ParseRequestURI origin cm m = Some cm.
Proof. unfold deliver_load. intros ->. destruct (mg_Config m); [|done]. by rewrite String.eqb_refl. Qed.

Lemma snapshot_ok cm r i :
  json_ok (cm_active cm) = true →
  snapshot cm r i = Some (ControlEvent_Config (cm_active cm) r (map (λ s, (is_Prefix s, is_ServiceID s)) i)).
Proof. intros H. unfold snapshot, Snapshot. by rewrite H. Qed.

(** Sending an event. *)
Lemma send_all_lookup ev ws id c :
  id ∈ ws_open (send_all ev ws) → ws_chans (send_all ev ws) !! id = Some c → (∀ id, id ∈ ws_open ws → is_Some (ws_chans ws !! id)) →
  id ∈ ws_open ws ∧ ∃ c0, ws_chans ws !! id = Some c0 ∧ c = mkChan (ch_queue c0 ++ [ev]) (ch_closed c0).
Proof.
  cbn [send_all ws_open ws_chans]. intros [Hr Ho]%elem_of_filter Hc Hs. split; [done|].
  destruct (Hs id Ho) as [c0 Hc0]. rewrite map_lookup_imap, Hc0 in Hc. cbn [mbind option_bind] in Hc. rewrite Hc0 in Hr. cbn [from_option] in Hr.
  exists c0. split; [done|]. rewrite decide_True in Hc by done. unfold send_to in Hc. rewrite Hr in Hc. by simplify_eq.
Qed.

Lemma send_all_chans ev ws id :
  is_Some (ws_chans ws !! id) → is_Some (ws_chans (send_all ev ws) !! id).
Proof. intros [c Hc]. cbn. rewrite map_lookup_imap, Hc. cbn. eauto. Qed.

Lemma stream_snoc wt c ev closed : stream wt (mkChan (ch_queue c ++ [ev]) closed) = stream wt c ++ [ev].
Proof. unfold stream. cbn. by rewrite !(assoc_L (++)). Qed.

(** ** The invariant *)

(** Steps that leave the watchers alone. *)
Lemma hinv_frame w w' :
  hinv w → hw_ws w' = hw_ws w → hw_watch w' = hw_watch w → hw_log w' = hw_log w →
  is_Some (cm_active (hw_cm w')) → json_ok (cm_active (hw_cm w')) = true →
  (∀ m, m ∈ hw_inbox w' → json_ok (mg_Config m) = true) →
  (∀ c r i, hw_relay w' = RReady (ControlEvent_Config c r i) → owed w' ∨ c = cm_active (hw_cm w')) →
  (owed w ∨ sending w → owed w' ∨ sending w') →
  (cm_active (hw_cm w') = cm_active (hw_cm w) ∨ owed w' ∨ sending w') →
  hinv w'.
Proof using All.
  intros [_ _ _ _ Hc Hst] Hws Hwt Hlog Ha Hj Hin Hr Hp Hcm. split; rewrite ?Hws, ?Hwt; try done.
  intros id wt c H1 H2 H3. by eapply stream_ok_frame; [..|by eapply Hst].
Qed.

Lemma owed_relay w m : hw_relay w = RLoaded m → is_Some (mg_Config m) → owed w.
Proof. intros. right. right. eauto. Qed.

Lemma hinv_store cfg cm ws wt inb rl n log :
  hinv (mkHWorld cm ws wt inb rl n log) → json_ok (Some cfg) = true →
  hinv (mkHWorld (mkConfigManager (cm_filePath cm) (Some cfg)) ws wt inb rl (S n) log).
Proof using All.
  intros Hi Hj. assert (Ho : owed (mkHWorld (mkConfigManager (cm_filePath cm) (Some cfg)) ws wt inb rl (S n) log)) by (by left).
  eapply hinv_frame; [exact Hi|done..|eauto|done| |eauto|eauto|eauto]. apply (hi_inbox _ Hi).
Qed.

Lemma hinv_publish inv cm ws wt inb rl n log :
  hinv (mkHWorld cm ws wt inb rl (S n) log) →
  hinv (mkHWorld cm ws wt (inb ++ [config_message origin cm inv]) rl n log).
Proof using All.
  intros Hi. assert (Ho : owed (mkHWorld cm ws wt (inb ++ [config_message origin cm inv]) rl n log)).
  { right. left. exists (config_message origin cm inv). split; [apply elem_of_app; right; by left|]. split; [done|apply (hi_active _ Hi)]. }
  eapply hinv_frame; [exact Hi|done..|apply (hi_active _ Hi)|apply (hi_json _ Hi)| |eauto|eauto|eauto].
  intros m [Hm|Hm%list_elem_of_singleton]%elem_of_app; [by apply (hi_inbox _ Hi)|subst; apply (hi_json _ Hi)].
Qed.

Lemma hinv_arrive m cm ws wt inb rl n log :
  hinv (mkHWorld cm ws wt inb rl n log) → json_ok (mg_Config m) = true → hinv (mkHWorld cm ws wt (inb ++ [m]) rl n log).
Proof using All.
  intros Hi Hj.
  assert (Ho : owed (mkHWorld cm ws wt inb rl n log) → owed (mkHWorld cm ws wt (inb ++ [m]) rl n log)).
  { intros [H|[(m' & Hm & H)|H]]; [by left|right; left; exists m'; split; [apply elem_of_app; by left|done]|by right; right]. }
  eapply hinv_frame; [exact Hi|done..|apply (hi_active _ Hi)|apply (hi_json _ Hi)| | | |by left].
  - intros m' [Hm|Hm%list_elem_of_singleton]%elem_of_app; [by apply (hi_inbox _ Hi)|by subst].
  - intros c r i H. destruct (hi_ready _ Hi c r i H); auto.
  - intros [H|(ev & H)]; [auto|right; by exists ev].
Qed.

(** What is owed while a message leaves the inbox. *)
Lemma owed_pop m cm cm' ws wt inb rl n log :
  (rl = RLoaded m ∨ mg_Origin m ≠ origin ∨ mg_Config m = None) →
  owed (mkHWorld cm ws wt (m :: inb) RIdle n log) → owed (mkHWorld cm' ws wt inb rl n log).
Proof.
  intros Hm [H|[(m' & [->|H]%elem_of_cons & Ho & Hc)|(m' & H & _)]]; [by left| | |done].
  - destruct Hm as [->|[?|Hn]]; [by eapply owed_relay|done|by rewrite Hn in Hc; destruct Hc].
  - right. left. eauto.
Qed.

Lemma hinv_load m cm cm' ws wt inb n log :
  hinv (mkHWorld cm ws wt (m :: inb) RIdle n log) → deliver_load ParseRequestURI origin cm m = Some cm' →
  hinv (mkHWorld cm' ws wt inb (RLoaded m) n log).
Proof using All.
  intros Hi Hl. assert (Hjm : json_ok (mg_Config m) = true) by (apply (hi_inbox _ Hi); by left).
  destruct (load_ok _ _ _ Hl Hjm (hi_active _ Hi) (hi_json _ Hi)) as (Ha & Hj & Hsame).
  eapply hinv_frame; [exact Hi|done..| | | |].
  - intros m' Hm'. apply (hi_inbox _ Hi). by right.
  - done.
  - intros [H|(ev & H & _)]; [|done]. left. eapply owed_pop; [|exact H]. by left.
  - cbn. destruct (mg_Config m) as [cfg|] eqn:E; [right; left; by eapply owed_relay|]. left. by rewrite Hsame.
Qed.

Lemma hinv_reject m cm ws wt inb n log :
  hinv (mkHWorld cm ws wt (m :: inb) RIdle n log) → deliver_load ParseRequestURI origin cm m = None →
  hinv (mkHWorld cm ws wt inb RIdle n log).
Proof using All.
  intros Hi Hl. eapply hinv_frame; [exact Hi|done..|apply (hi_active _ Hi)|apply (hi_json _ Hi)| |done| |by left].
  - intros m' Hm'. apply (hi_inbox _ Hi). by right.
  - intros [H|(ev & H & _)]; [|done]. left. eapply owed_pop; [|exact H]. right. left. intros E.
    rewrite own_loads in Hl by done. done.
Qed.

Lemma owed_done m cm ws wt inb rl n log :
  mg_Config m = None → owed (mkHWorld cm ws wt inb (RLoaded m) n log) → owed (mkHWorld cm ws wt inb rl n log).
Proof.
  intros Hm [H|[H|(m' & [= <-] & [x Hx])]]; [by left|by right; left|]. by rewrite Hm in Hx.
Qed.

Lemma hinv_event m ev cm ws wt inb n log :
  hinv (mkHWorld cm ws wt inb (RLoaded m) n log) → deliver_event cm m = Some ev →
  hinv (mkHWorld cm ws wt inb (RReady ev) n log).
Proof using All.
  intros Hi He. assert (Hev : (config_event ev ∧ ∃ r i, ev = ControlEvent_Config (cm_active cm) r i) ∨
                              (mg_Config m = None ∧ ¬ config_event ev)).
  { unfold deliver_event in He. destruct (mg_Config m).
    - rewrite snapshot_ok in He by apply (hi_json _ Hi). simplify_eq. left. split; [done|eauto].
    - destruct (mg_Tier m); [|done]. simplify_eq. right. split; [done|by intros []]. }
  eapply hinv_frame; [exact Hi|done..|apply (hi_active _ Hi)|apply (hi_json _ Hi)|apply (hi_inbox _ Hi)| | |by left].
  - intros c r i [= ->]. destruct Hev as [(_ & r' & i' & [= -> _ _])|[_ Hn]]; [by right|by destruct Hn].
  - intros H. destruct Hev as [[Hc _]|[Hm _]]; [right; by exists ev|]. left.
    destruct H as [H|(ev' & H & _)]; [|done]. by eapply owed_done.
Qed.

Lemma hinv_no_event m cm ws wt inb n log :
  hinv (mkHWorld cm ws wt inb (RLoaded m) n log) → deliver_event cm m = None →
  hinv (mkHWorld cm ws wt inb RIdle n log).
Proof using All.
  intros Hi He. assert (Hm : mg_Config m = None).
  { unfold deliver_event in He. destruct (mg_Config m); [|done]. by rewrite snapshot_ok in He by apply (hi_json _ Hi). }
  eapply hinv_frame; [exact Hi|done..|apply (hi_active _ Hi)|apply (hi_json _ Hi)|apply (hi_inbox _ Hi)|done| |by left].
  intros [H|(ev' & H & _)]; [|done]. left. by eapply owed_done.
Qed.

Lemma hinv_send ev cm ws wt inb n log :
  hinv (mkHWorld cm ws wt inb (RReady ev) n log) →
  hinv (mkHWorld cm (send_all ev ws) wt inb RIdle n (log ++ event_tier ev)).
Proof using All.
  intros [Ha Hj Hin Hr Hc Hst]. cbn in *.
  assert (Ho : owed (mkHWorld cm ws wt inb (RReady ev) n log) → owed (mkHWorld cm (send_all ev ws) wt inb RIdle n (log ++ event_tier ev))).
  { intros [H|[H|(m & H & _)]]; [by left|by right; left|done]. }
  split; cbn; try done.
  - intros id [_ H]%elem_of_filter. by apply send_all_chans, Hc.
  - intros id w c Hw Hopen Hch. destruct (send_all_lookup _ _ _ _ Hopen Hch Hc) as (Hop & c0 & Hc0 & ->).
    destruct (Hst id w c0 Hw Hop Hc0) as [H1 H2 H3 H4]. cbn in *. split; cbn.
    + destruct ev as [cfg r i|t].
      * destruct (Hr cfg r i eq_refl) as [H| ->]; [auto|]. right. right. left.
        rewrite stream_snoc, last_config_app. done.
      * rewrite stream_snoc, !last_config_app. cbn [last_config foldl].
        destruct H1 as [H|[(ev' & [= <-] & [])|H]]; auto.
    + done.
    + rewrite length_app. lia.
    + rewrite stream_snoc, tiers_in_app, H4, drop_app_le by done. f_equal. unfold tiers_in. cbn. by rewrite app_nil_r.
Qed.

(** Steps of the watchers and their edges. *)
Lemma hinv_streams_only cm ws ws' wt wt' inb rl n log :
  hinv (mkHWorld cm ws wt inb rl n log) →
  (∀ id, id ∈ ws_open ws' → is_Some (ws_chans ws' !! id)) →
  (∀ id w c, wt' !! id = Some w → id ∈ ws_open ws' → ws_chans ws' !! id = Some c →
    stream_ok (mkHWorld cm ws wt inb rl n log) w c) →
  hinv (mkHWorld cm ws' wt' inb rl n log).
Proof.
  intros [Ha Hj Hin Hr _ _] Hc Hst. split; try done. intros id w c H1 H2 H3. destruct (Hst id w c H1 H2 H3). by split.
Qed.

Lemma hinv_watch id cm ws wt inb rl n log :
  hinv (mkHWorld cm ws wt inb rl n log) → ws_chans ws !! id = None →
  hinv (mkHWorld cm (mkWatchers (<[id := mkChan [] false]> (ws_chans ws)) ({[id]} ∪ ws_open ws))
          (<[id := mkWatch WRegistered [] (length log)]> wt) inb rl n log).
Proof using All.
  intros Hi Hid. eapply hinv_streams_only; [exact Hi|..]; cbn.
  - intros id' [H%elem_of_singleton|H]%elem_of_union; [subst; rewrite lookup_insert_eq; eauto|].
    rewrite lookup_insert_is_Some. destruct (decide (id = id')); [by left|right; split; [done|by apply (hi_chans _ Hi)]].
  - intros id' w c [[<- <-]|[Hne Hw]]%lookup_insert_Some Ho Hc.
    + rewrite lookup_insert_eq in Hc. simplify_eq. split; cbn; try done; [auto|]. by rewrite drop_all.
    + rewrite lookup_insert_ne in Hc by done. apply (hi_streams _ Hi id'); [done|set_solver|done].
Qed.

(** A call's record changes and its stream with it. *)
Lemma hinv_rewatch id w w' c c' cm ws wt inb rl n log :
  hinv (mkHWorld cm ws wt inb rl n log) → wt !! id = Some w → ws_chans ws !! id = Some c →
  (stream_ok (mkHWorld cm ws wt inb rl n log) w c → stream_ok (mkHWorld cm ws wt inb rl n log) w' c') →
  hinv (mkHWorld cm (mkWatchers (<[id := c']> (ws_chans ws)) (ws_open ws)) (<[id := w']> wt) inb rl n log).
Proof using All.
  intros Hi Hw Hc Hok. eapply hinv_streams_only; [exact Hi|..]; cbn.
  - intros id' H. rewrite lookup_insert_is_Some. destruct (decide (id = id')); [by left|right; split; [done|by apply (hi_chans _ Hi)]].
  - intros id' w1 c1 Hw1 Ho Hc1. destruct (decide (id = id')) as [<-|Hne].
    + rewrite lookup_insert_eq in Hw1. rewrite lookup_insert_eq in Hc1. simplify_eq. apply Hok. by apply (hi_streams _ Hi id).
    + rewrite lookup_insert_ne in Hw1 by done. rewrite lookup_insert_ne in Hc1 by done. by apply (hi_streams _ Hi id').
Qed.

Lemma hinv_first id ev got since cm ws wt inb rl n log :
  hinv (mkHWorld cm ws wt inb rl n log) → wt !! id = Some (mkWatch WRegistered got since) → snapshot cm true [] = Some ev →
  hinv (mkHWorld cm ws (<[id := mkWatch (WFirst ev) got since]> wt) inb rl n log).
Proof using All.
  intros Hi Hw He. rewrite snapshot_ok in He by apply (hi_json _ Hi). simplify_eq.
  assert (Hid : ∀ c, stream_ok (mkHWorld cm ws wt inb rl n log) (mkWatch WRegistered got since) c →
    stream_ok (mkHWorld cm ws wt inb rl n log) (mkWatch (WFirst (ControlEvent_Config (cm_active cm) true [])) got since) c).
  { intros c [H1 H2 H3 H4]. cbn in *. rewrite (H2 eq_refl) in *. split; cbn; try done.
    destruct H1 as [H|[H|H]]; [auto..|]. right. right. left. unfold stream in *. cbn in *.
      change (last_config ([ControlEvent_Config (cm_active cm) true []] ++ ch_queue c) = Some (cm_active cm)).
      rewrite last_config_app. destruct H as [->|[_ ->]]; done. }
  eapply hinv_streams_only; [exact Hi|apply (hi_chans _ Hi)|]. intros id' w c Hw' Ho Hc.
  apply lookup_insert_Some in Hw' as [[<- <-]|[_ Hw']]; [|by apply (hi_streams _ Hi id')].
  apply Hid. by apply (hi_streams _ Hi id).
Qed.

Lemma hinv_hello id ev got since cm ws wt inb rl n log :
  hinv (mkHWorld cm ws wt inb rl n log) → wt !! id = Some (mkWatch (WFirst ev) got since) →
  hinv (mkHWorld cm ws (<[id := mkWatch WStreaming (got ++ [ev]) since]> wt) inb rl n log).
Proof using All.
  intros Hi Hw. eapply hinv_streams_only; [exact Hi|apply (hi_chans _ Hi)|]. intros id' w c Hw' Ho Hc.
  apply lookup_insert_Some in Hw' as [[<- <-]|[_ Hw']]; [|by apply (hi_streams _ Hi id')].
  destruct (hi_streams _ Hi id _ c Hw Ho Hc) as [H1 H2 H3 H4]. unfold stream in *. cbn in *.
  split; unfold stream; cbn; rewrite <- ?(assoc_L (++)); try done.
  destruct H1 as [H|[H|[H|[H _]]]]; auto. done.
Qed.

Lemma hinv_recv id ev q closed got since cm ws wt inb rl n log :
  hinv (mkHWorld cm ws wt inb rl n log) → wt !! id = Some (mkWatch WStreaming got since) →
  ws_chans ws !! id = Some (mkChan (ev :: q) closed) →
  hinv (mkHWorld cm (mkWatchers (<[id := mkChan q closed]> (ws_chans ws)) (ws_open ws))
          (<[id := mkWatch WStreaming (got ++ [ev]) since]> wt) inb rl n log).
Proof using All.
  intros Hi Hw Hc. eapply hinv_rewatch; [exact Hi|exact Hw|exact Hc|]. intros [H1 H2 H3 H4]. unfold stream in *. cbn in *.
  split; unfold stream; cbn; rewrite <- ?(assoc_L (++)); try done.
  destruct H1 as [H|[H|[H|[H _]]]]; auto. done.
Qed.

Lemma hinv_leave id cm ws wt inb rl n log :
  hinv (mkHWorld cm ws wt inb rl n log) →
  hinv (mkHWorld cm (mkWatchers (ws_chans ws) (ws_open ws ∖ {[id]})) (delete id wt) inb rl n log).
Proof using All.
  intros Hi. eapply hinv_streams_only; [exact Hi|..]; cbn.
  - intros id' [H _]%elem_of_difference. by apply (hi_chans _ Hi).
  - intros id' w c [_ Hw]%lookup_delete_Some [Ho _]%elem_of_difference Hc. by apply (hi_streams _ Hi id').
Qed.

#[local] Hint Resolve hinv_store hinv_publish hinv_arrive hinv_load hinv_reject hinv_event hinv_no_event hinv_send
  hinv_watch hinv_first hinv_hello hinv_recv hinv_leave : core.

Lemma hinv_reach w : hreach w → hinv w.
Proof using All.
  induction 1 as [path cfg Hj|w w' _ Hi Hs]; [|destruct Hs; eauto].
  split; cbn; try done; try eauto; by intros ? ?%elem_of_nil || by intros ? ?%elem_of_empty.
Qed.
End steps.

(** ** An edge's state *)

Section edge.
Variable range_tiers : gmap string (cacheEntry tierEntry) → list (string * cacheEntry tierEntry).
Variable range_responses : gmap string (cacheEntry string) → list (string * cacheEntry string).

(** The events received, each with the time it was applied at. *)
Definition follow (s : follower) (evs : list (Z * ControlEvent)) : follower :=
  foldl (λ s e, Apply_event range_tiers range_responses (fst e) s (snd e)) s evs.

Lemma follow_config s evs cfg :
  last_config evs.*2 = Some cfg → fo_index (follow s evs) = Apply (default no_config cfg) ∧ fo_ready (follow s evs) = true.
Proof.
  induction evs as [|[t ev] evs IH] using rev_ind; [done|]. rewrite fmap_app, last_config_app. unfold follow. rewrite foldl_app.
  cbn. destruct ev; cbn; [by intros [= <-]|exact IH].
Qed.

Variable ParseRequestURI : string → option URL.
Variable origin : string.

End edge.

(** ** Two hubs *)

Section hubs.
Variable ParseRequestURI : string → option URL.

(** The configuration a hub has after a message. *)
Definition loaded (o : string) (cm : ConfigManager) (m : controlMessage) : ConfigManager :=
  default cm (deliver_load ParseRequestURI o cm m).

Lemma deliver_cm o m cm c w : (deliver ParseRequestURI o m cm c w).1.1 = loaded o cm m.
Proof. unfold deliver, loaded. by destruct (deliver_load _ o cm m). Qed.

(** (divergence) Two hubs that are reloaded at the same time, with
    configurations A and B, and then receive both announcements in the same
    order, A before B, exchange them: the hub reloaded with A ends with B, and
    the one reloaded with B with A, since a hub skips its own announcement
    although another one was applied in between. *)
Theorem concurrent_reloads_diverge (o1 o2 : string) (A B : GatewayConfig) (cm1 cm2 a1 a2 : ConfigManager)
  (c1 c2 : CachedTiers) (w1 w2 : watchers) :
  o1 ≠ o2 →
  ReloadFromPayload ParseRequestURI cm1 A = (None, a1) →
  ReloadFromPayload ParseRequestURI cm2 B = (None, a2) →
  let mA := config_message o1 a1 [] in
  let mB := config_message o2 a2 [] in
  let receive o st := foldl (λ st m, let '(cm, c, w) := st in deliver ParseRequestURI o m cm c w) st [mA; mB] in
  Snapshot (receive o1 (a1, c1, w1)).1.1 = Snapshot a2 ∧
  Snapshot (receive o2 (a2, c2, w2)).1.1 = Snapshot a1.
Proof.
  intros Hne HA HB. cbv zeta.
  assert (Hload : ∀ cm cfg a cm', ReloadFromPayload ParseRequestURI cm cfg = (None, a) →
    ∃ next, Snapshot a = Some next ∧ ReloadFromPayload ParseRequestURI cm' next = (None, mkConfigManager (cm_filePath cm') (Some next))).
  { intros cm cfg a cm'. unfold ReloadFromPayload. destruct (ValidateGatewayConfig _ _) eqn:E; [done|]. intros [= <-].
    eexists. split; [done|]. cbn [gc_Prefixes gc_Runtime gc_Descriptors]. rewrite effective_idemp, E. done. }
  apply String.eqb_neq in Hne. assert (Hne' : (o2 =? o1)%string = false) by (by rewrite String.eqb_sym).
  destruct (Hload _ _ _ a2 HA) as (nA & EA & LA), (Hload _ _ _ a1 HB) as (nB & EB & LB).
  assert (Htwo : ∀ o cm c w, (foldl (λ st m, let '(cm, c, w) := st in deliver ParseRequestURI o m cm c w) (cm, c, w)
      [config_message o1 a1 []; config_message o2 a2 []]).1.1
    = let cm := loaded o cm (config_message o1 a1 []) in loaded o cm (config_message o2 a2 [])).
  { intros o cm c w. cbn [foldl]. destruct (deliver _ _ (config_message o1 a1 []) cm c w) as [[cm' c'] w'] eqn:E.
    apply (f_equal (λ x, x.1.1)) in E. rewrite deliver_cm in E. cbn in E. subst cm'. apply deliver_cm. }
  rewrite !Htwo. cbv zeta. unfold loaded, deliver_load, config_message. cbn [mg_Config mg_Origin]. rewrite EA, EB.
  rewrite !String.eqb_refl, Hne, Hne', LA. cbn [default from_option id]. unfold id. rewrite LB. done.
Qed.
End hubs.

(** ** Numbers that are not finite *)

(** (not finite) A configuration with a sample rate that is not a number
    cannot be sent: no edge that connects receives a configuration, and no
    change is delivered.  The file check accepts such a rate. *)
Theorem nan_rate_blocks_edges (cm : ConfigManager) (cfg : GatewayConfig) (p : PrefixConfig) (s : ServiceConfig) :
  cm_active cm = Some cfg → p ∈ gc_Prefixes cfg → s ∈ px_Services p →
  an_SamplingRate (sv_Analytics s) = SpecFloat.S754_nan →
  (∀ resetTiers inv, snapshot cm resetTiers inv = None) ∧
  (∀ origin inv, deliver_event cm (config_message origin cm inv) = None) ∧
  AnalyticsConfig_Validate (mkAnalytics true AnalyticsModeHeavy 0 SpecFloat.S754_nan) = None.
Proof.
  intros Ha Hp Hs Hr. assert (Hj : json_ok (cm_active cm) = false).
  { rewrite Ha. cbn [json_ok]. apply not_true_is_false. rewrite !andb_true_iff. intros [[H _] _].
    apply (forallb_elem _ _ p) in H; [|done]. apply andb_true_iff in H as [_ H].
    apply (forallb_elem _ _ s) in H; [|done]. unfold service_json in H. rewrite Hr in H. cbn in H.
    by rewrite !andb_false_r in H. }
  assert (Hsnap : ∀ r i, snapshot cm r i = None) by (intros; unfold snapshot, Snapshot; by rewrite Hj).
  split; [done|]. split; [|done]. intros o i. unfold deliver_event, config_message, Snapshot. cbn [mg_Config].
  rewrite Ha. apply Hsnap.
Qed.

(** ** Examples *)

Module Example_control.
Definition svc (rate : float64) : ServiceConfig :=
  let s := plain_service "orders" "http://orders:8080" [mkTier "free" 100 1 1 1 1 1 "" f64_zero] None []
             (mkLeasePolicy "" 0 0 0) None in
  mkService (sv_ServiceID s) (sv_TargetURL s) (sv_Tiers s) (sv_SafetyTier s) (sv_Transform s) (sv_CORS s)
    (mkAnalytics true AnalyticsModeHeavy 0 rate) (sv_Cache s) (sv_Failure s) (sv_Upstreams s) (sv_LoadBalancing s)
    (sv_CircuitBreaker s) (sv_Auth s) (sv_MaxConcurrent s) (sv_Methods s) (sv_Host s) (sv_Timeout s) (sv_MaxBodyBytes s)
    (sv_Limits s) (sv_Org s) (sv_Shadow s) (sv_Cost s) (sv_Lease s) (sv_Global s).
Definition prefix (name : string) (rate : float64) : PrefixConfig :=
  mkPrefix name Minute (mkLeasing 0 f64_zero 0 0) [svc rate].
Definition config (name : string) (rate : float64) : GatewayConfig :=
  mkGateway [prefix name rate] DefaultRuntimePolicy [].
Definition cfgA : GatewayConfig := config "v1" (f64_of_int 1).
Definition cfgB : GatewayConfig := config "v2" (f64_of_int 1).
Definition parse (raw : string) : option URL := Some (mkURL "http" "orders:8080" "").
Definition manager : ConfigManager := mkConfigManager "gate.yaml" None.
Definition edge0 : follower := mkFollower (Apply no_config) NewTierCache (newTTLCache 1000) false.
Definition revoked : TierChange := mkTierChange "v1" "k1" "".

(** One more step of a run. *)
Ltac run_step H tac :=
  match type of H with
  | hreach ?p ?o ?w =>
      let w' := open_constr:(_ : hworld) in
      let S := fresh in
      assert (S : hstep p o w w') by tac; apply (HNext p o w w' H) in S; clear H; rename S into H
  end.

(** An edge connects, the hub is reloaded, and a key is revoked. *)
Lemma run : ∃ w c, hreach parse "h1" w ∧
  hw_watch w !! 0%nat = Some (mkWatch WStreaming
    [ControlEvent_Config (Some cfgA) true []; ControlEvent_Config (Some cfgB) false []; ControlEvent_Tier revoked] 0) ∧
  0%nat ∈ ws_open (hw_ws w) ∧ ws_chans (hw_ws w) !! 0%nat = Some c ∧ ch_queue c = [] ∧
  settled_hub "h1" w ∧ cm_active (hw_cm w) = Some cfgB ∧ hw_log w = [revoked].
Proof.
  pose proof (HInit parse "h1" "gate.yaml" cfgA eq_refl) as H.
  run_step H ltac:(eapply (HWatch _ _ 0); reflexivity). run_step H ltac:(eapply (HFirst _ _ 0); reflexivity).
  run_step H ltac:(eapply (HHello _ _ 0); reflexivity). run_step H ltac:(eapply (HStore _ _ cfgB); reflexivity).
  run_step H ltac:(eapply (HPublish _ _ [])). run_step H ltac:(eapply HLoad; reflexivity).
  run_step H ltac:(eapply HEvent; reflexivity). run_step H ltac:(eapply HSend).
  run_step H ltac:(eapply (HRecv _ _ 0); reflexivity).
  run_step H ltac:(eapply (HArrive _ _ (tier_message "h2" "v1" "k1" "")); reflexivity).
  run_step H ltac:(eapply HLoad; reflexivity). run_step H ltac:(eapply HEvent; reflexivity).
  run_step H ltac:(eapply HSend). run_step H ltac:(eapply (HRecv _ _ 0); reflexivity).
  eexists _, _. split; [exact H|]. clear H. split; [reflexivity|]. split; [by vm_compute|].
  split; [reflexivity|]. split; [reflexivity|]. split; [|done].
  split; [intros [?|[(m & ?%elem_of_nil & _)|(m & ? & _)]]|intros (ev & ? & _)]; done.
Qed.

End Example_control.


Lemma concurrent_reloads_diverge_witness :
  let a1 := mkConfigManager "gate.yaml" (Some Example_control.cfgA) in
  let a2 := mkConfigManager "gate.yaml" (Some Example_control.cfgB) in
  let receive o a := foldl (λ st m, let '(cm, c, w) := st in deliver Example_control.parse o m cm c w)
    (a, NewCachedTiers Minute, mkWatchers ∅ ∅) [config_message "h1" a1 []; config_message "h2" a2 []] in
  Snapshot (receive "h1" a1).1.1 = Some Example_control.cfgB ∧ Snapshot (receive "h2" a2).1.1 = Some Example_control.cfgA.
Proof.
  exact (concurrent_reloads_diverge Example_control.parse "h1" "h2" Example_control.cfgA Example_control.cfgB
    Example_control.manager Example_control.manager _ _ (NewCachedTiers Minute) (NewCachedTiers Minute)
    (mkWatchers ∅ ∅) (mkWatchers ∅ ∅) ltac:(discriminate) ltac:(vm_compute; reflexivity) ltac:(vm_compute; reflexivity)).
Defined.

Lemma nan_rate_blocks_edges_witness :
  let cfg := Example_control.config "v1" SpecFloat.S754_nan in
  ValidateGatewayConfig Example_control.parse cfg = None ∧
  snapshot (mkConfigManager "gate.yaml" (Some cfg)) true [] = None.
Proof.
  split; [vm_compute; reflexivity|].
  apply (nan_rate_blocks_edges (mkConfigManager "gate.yaml" (Some (Example_control.config "v1" SpecFloat.S754_nan)))
           (Example_control.config "v1" SpecFloat.S754_nan) (Example_control.prefix "v1" SpecFloat.S754_nan)
           (Example_control.svc SpecFloat.S754_nan)); [reflexivity|by left|by left|reflexivity].
Defined.
