(* ===== verification/ConfigDiff.v ===== *)
(** * What a configuration change makes stale ([packages/hub/config_diff.go])

    The analysis a hub makes of a reload: the cached responses to drop, the
    services it touches, and warnings.  Go ranges over maps in no particular
    order and compares with [reflect.DeepEqual], which also tells nil from
    empty: both are parameters.  The theorem states what is dropped, directly
    from the two configurations and whatever the orders. *)

From S2P Require Import Prelude Float64 GoLib Policies.
From S2P Require Import Config TtlCache Tiers Edge EdgeCache.
From S2P Require Import ConfigFile ConfigCheck HubConfig ControlPlane.
From Stdlib Require Import Ascii.
From stdpp Require Import sorting.

Local Open Scope Z_scope.

Record configUpdateAnalysis := mkAnalysis {
  ua_ChangedSections : list string;
  ua_Invalidations : list ConfigInvalidationScope; (* Invalidations.ResponseCache *)
  ua_Warnings : list string;
  ua_ImpactedPrefixes : list string;
  ua_ImpactedServices : list ConfigInvalidationScope;
  ua_HasQuotaReductionWarning : bool;
}.

Definition scopeKey (s : ConfigInvalidationScope) : string := is_Prefix s +:+ "|" +:+ is_ServiceID s.

Definition addInvalidationScope (m : gmap string ConfigInvalidationScope) (s : ConfigInvalidationScope)
  : gmap string ConfigInvalidationScope :=
  if (is_Prefix s =? "")%string then m
  else match m !! scopeKey s with
       | Some e =>
           <[scopeKey s := mkScope (is_Prefix e) (is_ServiceID e)
               (if (is_Mode e =? "")%string && negb (is_Mode s =? "")%string then is_Mode s else is_Mode e)
               (if (is_Reason e =? "")%string && negb (is_Reason s =? "")%string then is_Reason s else is_Reason e)]> m
       | None => <[scopeKey s := s]> m
       end.

Definition hasQuotaReductionBetween (oldSvc newSvc : ServiceConfig) : bool :=
  let oldTiers := foldl (λ m t, <[t_TierID t := t_Quota t]> m) (∅ : gmap string Z) (sv_Tiers oldSvc) in
  existsb (λ t, match oldTiers !! t_TierID t with Some q => t_Quota t <? q | None => false end) (sv_Tiers newSvc)
  || match sv_SafetyTier oldSvc, sv_SafetyTier newSvc with
     | Some o, Some n => t_Quota n <? t_Quota o
     | _, _ => false
     end.

(** [reflect.DeepEqual] at the types it is used at. *)
Record comparisons := mkComparisons {
  eq_Leasing : LeasingConfig → LeasingConfig → bool;
  eq_Cache : option CacheConfig → option CacheConfig → bool;
  eq_Transform : TransformConfig → TransformConfig → bool;
  eq_Tiers : list TierConfig → list TierConfig → bool;
  eq_SafetyTier : option TierConfig → option TierConfig → bool;
  eq_Analytics : AnalyticsConfig → AnalyticsConfig → bool;
  eq_Runtime : RuntimePolicy → RuntimePolicy → bool;
}.

(** What the loops collect. *)
Record changes := mkChanges {
  cg_sections : gset string;
  cg_scopes : gmap string ConfigInvalidationScope; (* invalidationSet *)
  cg_prefixes : gset string;
  cg_services : gmap string ConfigInvalidationScope;
  cg_reduced : bool;
}.

Definition no_changes : changes := mkChanges ∅ ∅ ∅ ∅ false.

Definition section (name : string) (c : changes) : changes :=
  mkChanges ({[name]} ∪ cg_sections c) (cg_scopes c) (cg_prefixes c) (cg_services c) (cg_reduced c).
Definition touch_prefix (p : string) (c : changes) : changes :=
  mkChanges (cg_sections c) (cg_scopes c) ({[p]} ∪ cg_prefixes c) (cg_services c) (cg_reduced c).
Definition drop_scope (s : ConfigInvalidationScope) (c : changes) : changes :=
  mkChanges (cg_sections c) (addInvalidationScope (cg_scopes c) s) (cg_prefixes c) (cg_services c) (cg_reduced c).
Definition touch_service (s : ConfigInvalidationScope) (c : changes) : changes :=
  mkChanges (cg_sections c) (cg_scopes c) (cg_prefixes c) (<[scopeKey s := s]> (cg_services c)) (cg_reduced c).
Definition reduced (b : bool) (c : changes) : changes :=
  mkChanges (cg_sections c) (cg_scopes c) (cg_prefixes c) (cg_services c) (cg_reduced c || b).

(** A change of a service that makes its responses stale. *)
Definition service_change (name : string) (s : ConfigInvalidationScope) (c : changes) : changes :=
  touch_prefix (is_Prefix s) (touch_service s (drop_scope s (section name c))).

Definition by_prefix (ps : list PrefixConfig) : gmap string PrefixConfig :=
  foldl (λ m p, <[px_Prefix p := p]> m) ∅ ps.
Definition by_service (ss : list ServiceConfig) : gmap string ServiceConfig :=
  foldl (λ m s, <[sv_ServiceID s := s]> m) ∅ ss.

(** The order of scopes: by prefix, then by service. *)
Definition scope_le (a b : ConfigInvalidationScope) : Prop :=
  if decide (is_Prefix a = is_Prefix b) then String.le (is_ServiceID a) (is_ServiceID b)
  else String.le (is_Prefix a) (is_Prefix b).
#[export] Instance scope_le_dec : RelDecision scope_le.
Proof. intros a b. unfold scope_le. destruct (decide (is_Prefix a = is_Prefix b)); apply _. Defined.

Section analysis.
Variable range_prefixes : gmap string PrefixConfig → list (string * PrefixConfig).
Variable range_services : gmap string ServiceConfig → list (string * ServiceConfig).
Variable range_scopes : gmap string ConfigInvalidationScope → list (string * ConfigInvalidationScope).
Variable E : comparisons.

Definition behaviour_changed (o n : ServiceConfig) : bool :=
  negb (eq_Transform E (sv_Transform o) (sv_Transform n)) || negb (sv_TargetURL o =? sv_TargetURL n)%string.
Definition tiers_changed (o n : ServiceConfig) : bool :=
  negb (eq_Tiers E (sv_Tiers o) (sv_Tiers n)) || negb (eq_SafetyTier E (sv_SafetyTier o) (sv_SafetyTier n)).
Definition cache_changed (o n : ServiceConfig) : bool := negb (eq_Cache E (sv_Cache o) (sv_Cache n)).

(** A service of the current configuration. *)
Definition diff_service (prefix : string) (new : gmap string ServiceConfig) (c : changes) (x : string * ServiceConfig)
  : changes :=
  let '(id, o) := x in
  match new !! id with
  | None => service_change "services" (mkScope prefix id "mark-expire" "service_removed") c
  | Some n =>
      let c := if cache_changed o n then service_change "cache" (mkScope prefix id "" "cache_config_changed") c else c in
      let c := if behaviour_changed o n
               then service_change "services" (mkScope prefix id "" "service_behavior_changed") c else c in
      let c := if tiers_changed o n
               then reduced (hasQuotaReductionBetween o n)
                      (service_change "tiers" (mkScope prefix id "" "tiers_changed") c) else c in
      if negb (eq_Analytics E (sv_Analytics o) (sv_Analytics n)) then section "analytics" c else c
  end.

(** A prefix of the current configuration. *)
Definition diff_prefix (next : gmap string PrefixConfig) (c : changes) (x : string * PrefixConfig) : changes :=
  let '(prefix, o) := x in
  match next !! prefix with
  | None => touch_prefix prefix (drop_scope (mkScope prefix "" "mark-expire" "prefix_removed") (section "prefixes" c))
  | Some n =>
      let c := if negb (px_QuotaPeriod o =? px_QuotaPeriod n) || negb (eq_Leasing E (px_Leasing o) (px_Leasing n))
               then touch_prefix prefix (section "prefixes" c) else c in
      let os := by_service (px_Services o) in
      let ns := by_service (px_Services n) in
      let c := foldl (diff_service prefix ns) c (range_services os) in
      foldl (λ c x, if decide (is_Some (os !! x.1)) then c else touch_prefix prefix (section "services" c)) c (range_services ns)
  end.

Definition collect_changes (current next : GatewayConfig) : changes :=
  let cs := by_prefix (gc_Prefixes current) in
  let ns := by_prefix (gc_Prefixes next) in
  let c := foldl (diff_prefix ns) no_changes (range_prefixes cs) in
  let c := foldl (λ c x, if decide (is_Some (cs !! x.1)) then c else section "prefixes" c) c (range_prefixes ns) in
  if negb (eq_Runtime E (gc_Runtime current) (gc_Runtime next)) then section "runtime" c else c.

Definition quota_warning : string :=
  "quota reductions detected; if live usage is already above new quota, requests are denied until counters fall under quota or the window resets".

Definition analyzeConfigUpdate (current next : option GatewayConfig) : configUpdateAnalysis :=
  match next, current with
  | None, _ => mkAnalysis [] [] [] [] [] false
  | Some _, None => mkAnalysis ["initial_load"] [] [] [] [] false
  | Some n, Some o =>
      let c := collect_changes o n in
      {| ua_ChangedSections := merge_sort String.le (elements (cg_sections c));
         ua_Invalidations := merge_sort scope_le (range_scopes (cg_scopes c)).*2;
         ua_Warnings := if cg_reduced c then [quota_warning] else [];
         ua_ImpactedPrefixes := merge_sort String.le (elements (cg_prefixes c));
         ua_ImpactedServices :=
           merge_sort scope_le (filter (λ s, is_ServiceID s ≠ "") (range_scopes (cg_services c)).*2);
         ua_HasQuotaReductionWarning := cg_reduced c |}
  end.
End analysis.

(** ** What is dropped *)

(** The reason recorded first. *)
Definition first_reason (E : comparisons) (o n : ServiceConfig) : option string :=
  if cache_changed E o n then Some "cache_config_changed"
  else if behaviour_changed E o n then Some "service_behavior_changed"
  else if tiers_changed E o n then Some "tiers_changed" else None.

(** A scope a change from [o] to [n] makes stale: a prefix that is gone; a
    service that is gone from a prefix that stays; a service whose cache,
    transformation, target or tiers differ. *)
Inductive stale_scope (E : comparisons) (o n : GatewayConfig) : ConfigInvalidationScope → Prop :=
| StalePrefix p :
    p ∈ gc_Prefixes o → (∀ q, q ∈ gc_Prefixes n → px_Prefix q ≠ px_Prefix p) →
    stale_scope E o n (mkScope (px_Prefix p) "" "mark-expire" "prefix_removed")
| StaleService p q s :
    p ∈ gc_Prefixes o → q ∈ gc_Prefixes n → px_Prefix q = px_Prefix p → s ∈ px_Services p →
    (∀ t, t ∈ px_Services q → sv_ServiceID t ≠ sv_ServiceID s) →
    stale_scope E o n (mkScope (px_Prefix p) (sv_ServiceID s) "mark-expire" "service_removed")
| StaleChange p q s t r :
    p ∈ gc_Prefixes o → q ∈ gc_Prefixes n → px_Prefix q = px_Prefix p → s ∈ px_Services p → t ∈ px_Services q →
    sv_ServiceID t = sv_ServiceID s → first_reason E s t = Some r →
    stale_scope E o n (mkScope (px_Prefix p) (sv_ServiceID s) "" r).

(** Names are what the checks of a configuration make them. *)
Record named_once (cfg : GatewayConfig) : Prop := {
  no_prefixes : NoDup (px_Prefix <$> gc_Prefixes cfg);
  no_services : ∀ p, p ∈ gc_Prefixes cfg → NoDup (sv_ServiceID <$> px_Services p);
  no_names : ∀ p, p ∈ gc_Prefixes cfg → px_Prefix p ≠ "" ∧ ¬ has_char "|" (px_Prefix p);
}.

Section tables.
Context {A : Type} (name : A → string).

Definition table (l : list A) : gmap string A := foldl (λ m x, <[name x := x]> m) ∅ l.

Lemma table_from l (m : gmap string A) :
  NoDup (name <$> l) → (∀ x, x ∈ l → m !! name x = None) →
  foldl (λ m x, <[name x := x]> m) m l = m ∪ list_to_map ((λ x, (name x, x)) <$> l).
Proof.
  revert m. induction l as [|x l IH]; intros m Hl Hd; cbn [foldl].
  - by rewrite fmap_nil, list_to_map_nil, (right_id_L ∅ (∪)).
  - rewrite fmap_cons in Hl. apply NoDup_cons in Hl as [Hx Hl]. rewrite IH; [|done|].
    + rewrite fmap_cons, list_to_map_cons, <- insert_union_l. apply insert_union_r, Hd. by left.
    + intros y Hy. rewrite lookup_insert_ne; [by apply Hd; right|]. intros E.
      apply Hx, list_elem_of_fmap. eauto.
Qed.

Lemma table_rev l : NoDup (name <$> l) → table l = list_to_map ((λ x, (name x, x)) <$> l).
Proof. intros Hl. unfold table. rewrite table_from by (done || intros; apply lookup_empty). apply (left_id_L ∅ (∪)). Qed.

Lemma table_list l : NoDup (name <$> l) → map_to_list (table l) ≡ₚ (λ x, (name x, x)) <$> l.
Proof.
  intros Hl. rewrite table_rev by done. apply map_to_list_to_map. by rewrite <- list_fmap_compose.
Qed.

Lemma table_Some l k x : NoDup (name <$> l) → table l !! k = Some x ↔ x ∈ l ∧ name x = k.
Proof.
  intros Hl. rewrite <- elem_of_map_to_list, (table_list l Hl), list_elem_of_fmap. naive_solver.
Qed.

Lemma table_None l k : NoDup (name <$> l) → table l !! k = None ↔ ∀ x, x ∈ l → name x ≠ k.
Proof.
  intros Hl. rewrite eq_None_not_Some. split.
  - intros H x Hx E. apply H. exists x. by apply table_Some.
  - intros H [x [Hx E]%table_Some]; [|done]. by apply (H x).
Qed.

Lemma named_unique l x y : NoDup (name <$> l) → x ∈ l → y ∈ l → name x = name y → x = y.
Proof.
  intros Hl Hx Hy Exy. assert (Ex : table l !! name y = Some x) by by apply table_Some.
  assert (Ey : table l !! name y = Some y) by by apply table_Some. congruence.
Qed.

(** Names may repeat as long as each names one thing. *)
Lemma table_fun l k x :
  (∀ a b, a ∈ l → b ∈ l → name a = name b → a = b) → table l !! k = Some x ↔ x ∈ l ∧ name x = k.
Proof.
  unfold table. induction l as [|y l IH] using rev_ind; intros Hf.
  - cbn. rewrite lookup_empty. set_solver.
  - rewrite foldl_app. cbn [foldl]. rewrite elem_of_app, list_elem_of_singleton.
    destruct (decide (name y = k)) as [<-|Hk].
    + rewrite lookup_insert_eq. split; [intros [= ->]; auto|]. intros [Hx Ex]. f_equal.
      symmetry. apply Hf; [set_solver..|done].
    + rewrite lookup_insert_ne by done. rewrite IH by set_solver. naive_solver.
Qed.
End tables.

Lemma scopeKey_inj a b :
  ¬ has_char "|" (is_Prefix a) → ¬ has_char "|" (is_Prefix b) → scopeKey a = scopeKey b →
  is_Prefix a = is_Prefix b ∧ is_ServiceID a = is_ServiceID b.
Proof.
  intros Ha Hb E. apply (f_equal (GoLib.Cut "|")) in E. unfold scopeKey in E.
  change ("|" +:+ is_ServiceID a) with (String "|" (is_ServiceID a)) in E.
  change ("|" +:+ is_ServiceID b) with (String "|" (is_ServiceID b)) in E.
  rewrite !Cut_app in E by done. by injection E.
Qed.

(** Adding scopes one after the other. *)
Notation record_scopes := (foldl (λ m s, <[scopeKey s := s]> m)).

Lemma record_scopes_None L (m : gmap string ConfigInvalidationScope) k :
  m !! k = None → (∀ s, s ∈ L → scopeKey s ≠ k) → record_scopes m L !! k = None.
Proof.
  revert m. induction L as [|s L IH]; intros m Hm HL; [done|]. cbn [foldl]. apply IH.
  - rewrite lookup_insert_ne; [done|]. apply HL. by left.
  - intros t Ht. apply HL. by right.
Qed.

Lemma add_fresh m s :
  is_Prefix s ≠ "" → m !! scopeKey s = None → addInvalidationScope m s = <[scopeKey s := s]> m.
Proof. intros Hp Hm. unfold addInvalidationScope. apply String.eqb_neq in Hp. by rewrite Hp, Hm. Qed.

(** A second reason for a service is not recorded. *)
Lemma add_again m p id r r' :
  p ≠ "" → r ≠ "" →
  addInvalidationScope (<[scopeKey (mkScope p id "" r) := mkScope p id "" r]> m) (mkScope p id "" r') =
  <[scopeKey (mkScope p id "" r) := mkScope p id "" r]> m.
Proof.
  intros Hp Hr. unfold addInvalidationScope. cbn [is_Prefix is_Mode is_Reason]. apply String.eqb_neq in Hp, Hr.
  change (scopeKey (mkScope p id "" r')) with (scopeKey (mkScope p id "" r)).
  rewrite Hp, lookup_insert_eq. cbn [is_Prefix is_ServiceID is_Mode is_Reason].
  rewrite Hr. cbn. by rewrite insert_insert_eq.
Qed.

Section exact.
Variable range_prefixes : gmap string PrefixConfig → list (string * PrefixConfig).
Variable range_services : gmap string ServiceConfig → list (string * ServiceConfig).
Variable range_scopes : gmap string ConfigInvalidationScope → list (string * ConfigInvalidationScope).
Variable E : comparisons.
Hypothesis prefixes_perm : ∀ m, range_prefixes m ≡ₚ map_to_list m.
Hypothesis services_perm : ∀ m, range_services m ≡ₚ map_to_list m.
Hypothesis scopes_perm : ∀ m, range_scopes m ≡ₚ map_to_list m.

Definition service_scope (p : string) (new : gmap string ServiceConfig) (x : string * ServiceConfig)
  : option ConfigInvalidationScope :=
  match new !! x.1 with
  | None => Some (mkScope p x.1 "mark-expire" "service_removed")
  | Some n => mkScope p x.1 "" <$> first_reason E x.2 n
  end.

Definition prefix_scopes (next : gmap string PrefixConfig) (x : string * PrefixConfig) : list ConfigInvalidationScope :=
  match next !! x.1 with
  | None => [mkScope x.1 "" "mark-expire" "prefix_removed"]
  | Some n => omap (service_scope x.1 (by_service (px_Services n))) (range_services (by_service (px_Services x.2)))
  end.

Lemma service_scope_of p new x s : service_scope p new x = Some s → is_Prefix s = p ∧ is_ServiceID s = x.1.
Proof.
  unfold service_scope. destruct (new !! x.1) as [n|]; [|by intros [= <-]].
  destruct (first_reason E x.2 n); by intros [= <-].
Qed.

Lemma prefix_scopes_of next x s : s ∈ prefix_scopes next x → is_Prefix s = x.1.
Proof.
  unfold prefix_scopes. destruct (next !! x.1) as [n|].
  - intros (y & _ & H)%list_elem_of_omap. by apply service_scope_of in H as [? _].
  - by intros ->%list_elem_of_singleton.
Qed.

Lemma diff_service_scopes p new c id o :
  p ≠ "" → cg_scopes c !! scopeKey (mkScope p id "" "") = None →
  cg_scopes (diff_service E p new c (id, o)) = record_scopes (cg_scopes c) (option_list (service_scope p new (id, o))).
Proof.
  intros Hp Hf. unfold diff_service, service_scope, first_reason. cbn [fst snd].
  destruct (new !! id) as [n|]; cbn [cg_scopes service_change touch_prefix touch_service drop_scope section];
    [|by rewrite add_fresh].
  destruct (cache_changed E o n), (behaviour_changed E o n), (tiers_changed E o n), (eq_Analytics E _ _);
    cbn [negb cg_scopes reduced service_change touch_prefix touch_service drop_scope section option_list fmap
         option_fmap option_map foldl is_Prefix];
    rewrite ?(add_fresh (cg_scopes c)) by done; rewrite ?add_again by done; done.
Qed.

Lemma diff_services_scopes p new l c :
  p ≠ "" → ¬ has_char "|" p → NoDup l.*1 → (∀ id, cg_scopes c !! scopeKey (mkScope p id "" "") = None) →
  cg_scopes (foldl (diff_service E p new) c l) = record_scopes (cg_scopes c) (omap (service_scope p new) l).
Proof using E.
  intros Hp Hs Hl Hf.
  assert (Hf' : ∀ x, x ∈ l → cg_scopes c !! scopeKey (mkScope p x.1 "" "") = None) by auto. clear Hf.
  revert c Hf'. induction l as [|[id o] l IH]; intros c Hf; [done|]. rewrite fmap_cons in Hl.
  apply NoDup_cons in Hl as [Hx Hl]. cbn [foldl].
  assert (Hd := diff_service_scopes p new c id o Hp (Hf (id, o) (list_elem_of_here _ _))).
  rewrite IH; [|done|].
  - rewrite Hd, <- foldl_app. f_equal. cbn [omap list_omap]. by destruct (service_scope p new (id, o)).
  - intros y Hy. rewrite Hd. apply record_scopes_None; [apply Hf; by right|].
    intros s Hin Eq. destruct (service_scope p new (id, o)) as [s'|] eqn:Es; cbn in Hin; [|by apply elem_of_nil in Hin].
    apply list_elem_of_singleton in Hin as ->. apply service_scope_of in Es as [E1 E2].
    apply scopeKey_inj in Eq as [_ Eq]; [|by rewrite E1|done]. apply Hx. apply list_elem_of_fmap. exists y.
    split; [|done]. rewrite <- E2. cbn in Eq |- *. by rewrite Eq.
Qed.

Lemma rest_scopes (g : changes → string * ServiceConfig → changes) l c :
  (∀ c x, cg_scopes (g c x) = cg_scopes c) → cg_scopes (foldl g c l) = cg_scopes c.
Proof. intros Hg. revert c. induction l as [|x l IH]; intros c; [done|]. cbn [foldl]. by rewrite IH. Qed.

Lemma diff_prefix_scopes next c p o :
  p ≠ "" → ¬ has_char "|" p → (∀ id, cg_scopes c !! scopeKey (mkScope p id "" "") = None) →
  cg_scopes (diff_prefix range_services E next c (p, o)) = record_scopes (cg_scopes c) (prefix_scopes next (p, o)).
Proof using services_perm.
  intros Hp Hs Hf. unfold diff_prefix, prefix_scopes. cbn [fst snd].
  destruct (next !! p) as [n|]; [|cbn [cg_scopes touch_prefix drop_scope section foldl]; rewrite add_fresh;
    [done|done|apply (Hf "")]].
  rewrite rest_scopes by (intros c' x; by destruct (decide _)). rewrite diff_services_scopes; [|done..| |].
  - by destruct (_ || _).
  - rewrite services_perm. apply NoDup_fst_map_to_list.
  - intros id. by destruct (_ || _).
Qed.

Lemma diff_prefixes_scopes next l c :
  NoDup l.*1 → (∀ x, x ∈ l → x.1 ≠ "" ∧ ¬ has_char "|" x.1) →
  (∀ x id, x ∈ l → cg_scopes c !! scopeKey (mkScope x.1 id "" "") = None) →
  cg_scopes (foldl (diff_prefix range_services E next) c l) = record_scopes (cg_scopes c) (l ≫= prefix_scopes next).
Proof using services_perm.
  revert c. induction l as [|[p o] l IH]; intros c Hl Hok Hf; [done|]. rewrite fmap_cons in Hl.
  apply NoDup_cons in Hl as [Hx Hl]. cbn [foldl]. destruct (Hok (p, o) (list_elem_of_here _ _)) as [Hp Hs].
  assert (Hd : cg_scopes (diff_prefix range_services E next c (p, o)) =
               record_scopes (cg_scopes c) (prefix_scopes next (p, o))).
  { apply diff_prefix_scopes; [done..|]. intros id. apply (Hf (p, o)). by left. }
  rewrite IH; [|done|intros; apply Hok; by right|].
  - by rewrite Hd, <- foldl_app, bind_cons.
  - intros y id Hy. rewrite Hd. apply record_scopes_None; [apply Hf; by right|].
    intros s Hin Eq. apply prefix_scopes_of in Hin. apply scopeKey_inj in Eq as [Eq _];
      [|by rewrite Hin|apply Hok; by right].
    apply Hx, list_elem_of_fmap. exists y. split; [|done]. cbn in Hin, Eq |- *. by rewrite <- Hin.
Qed.

Lemma added_scopes (g : changes → string * PrefixConfig → changes) l c :
  (∀ c x, cg_scopes (g c x) = cg_scopes c) → cg_scopes (foldl g c l) = cg_scopes c.
Proof. intros Hg. revert c. induction l as [|x l IH]; intros c; [done|]. cbn [foldl]. by rewrite IH. Qed.

(** The scopes recorded for a change. *)
Definition all_scopes (o n : GatewayConfig) : list ConfigInvalidationScope :=
  range_prefixes (by_prefix (gc_Prefixes o)) ≫= prefix_scopes (by_prefix (gc_Prefixes n)).

Lemma range_prefix cfg x : named_once cfg →
  x ∈ range_prefixes (by_prefix (gc_Prefixes cfg)) ↔ x.2 ∈ gc_Prefixes cfg ∧ x.1 = px_Prefix x.2.
Proof using prefixes_perm.
  intros Hc. rewrite prefixes_perm. destruct x as [k p]. rewrite elem_of_map_to_list.
  rewrite (table_Some px_Prefix _ _ _ (no_prefixes _ Hc)). naive_solver.
Qed.

Lemma collect_scopes o n : named_once o →
  cg_scopes (collect_changes range_prefixes range_services E o n) = table scopeKey (all_scopes o n).
Proof using prefixes_perm services_perm.
  intros Ho. unfold collect_changes, table, all_scopes.
  set (c := foldl _ (foldl _ _ _) _).
  assert (Hc : cg_scopes c = record_scopes ∅ (range_prefixes (by_prefix (gc_Prefixes o)) ≫=
                 prefix_scopes (by_prefix (gc_Prefixes n)))).
  { unfold c. rewrite added_scopes by (intros c' x; by destruct (decide _)). rewrite diff_prefixes_scopes; [done|..].
    - rewrite prefixes_perm. apply NoDup_fst_map_to_list.
    - intros x [Hx ->]%(range_prefix o); [|done]. by apply (no_names o).
    - intros. apply lookup_empty. }
  rewrite <- Hc. by destruct (negb _).
Qed.

Lemma range_service p x : NoDup (sv_ServiceID <$> px_Services p) →
  x ∈ range_services (by_service (px_Services p)) ↔ x.2 ∈ px_Services p ∧ x.1 = sv_ServiceID x.2.
Proof using services_perm.
  intros Hc. rewrite services_perm. destruct x as [k s]. rewrite elem_of_map_to_list.
  rewrite (table_Some sv_ServiceID _ _ _ Hc). naive_solver.
Qed.

Lemma all_scopes_stale o n sc : named_once o → named_once n → sc ∈ all_scopes o n → stale_scope E o n sc.
Proof using prefixes_perm services_perm.
  intros Ho Hn. unfold all_scopes. intros ([k p] & Hsc & [Hp Ek]%range_prefix)%list_elem_of_bind; [|done].
  cbn in Hp, Ek. subst k. unfold prefix_scopes in Hsc. cbn [fst snd] in Hsc.
  destruct (by_prefix (gc_Prefixes n) !! px_Prefix p) as [q|] eqn:Eq.
  - apply (table_Some px_Prefix) in Eq as [Hq Eq]; [|apply (no_prefixes _ Hn)].
    apply list_elem_of_omap in Hsc as ([id s] & Hs & Hsc).
    apply range_service in Hs as [Hs Es]; [|by apply (no_services _ Ho)]. cbn in Hs, Es. subst id.
    unfold service_scope in Hsc. cbn [fst snd] in Hsc.
    destruct (by_service (px_Services q) !! sv_ServiceID s) as [t|] eqn:Et.
    + apply (table_Some sv_ServiceID) in Et as [Ht Et]; [|by apply (no_services _ Hn)].
      destruct (first_reason E s t) as [r|] eqn:Er; [|done]. injection Hsc as <-. by eapply StaleChange.
    + injection Hsc as <-. eapply StaleService; [done..|].
      apply (table_None sv_ServiceID); [by apply (no_services _ Hn)|done].
  - apply list_elem_of_singleton in Hsc as ->. apply StalePrefix; [done|].
    apply (table_None px_Prefix); [apply (no_prefixes _ Hn)|done].
Qed.

Lemma in_all_scopes o n p sc : named_once o →
  p ∈ gc_Prefixes o → sc ∈ prefix_scopes (by_prefix (gc_Prefixes n)) (px_Prefix p, p) → sc ∈ all_scopes o n.
Proof using prefixes_perm.
  intros Ho Hp H. apply list_elem_of_bind. exists (px_Prefix p, p). split; [done|]. by apply range_prefix.
Qed.

Lemma stale_all_scopes o n sc : named_once o → named_once n → stale_scope E o n sc → sc ∈ all_scopes o n.
Proof using prefixes_perm services_perm.
  intros Ho Hn. destruct 1 as [p Hp Hq|p q s Hp Hq Eq Hs Ht|p q s t r Hp Hq Eq Hs Ht Et Er];
    apply (in_all_scopes _ _ p _ Ho Hp); unfold prefix_scopes; cbn [fst snd].
  - apply (table_None px_Prefix) in Hq; [|apply (no_prefixes _ Hn)].
    unfold by_prefix. unfold table in Hq. rewrite Hq. by left.
  - assert (Hl : by_prefix (gc_Prefixes n) !! px_Prefix p = Some q) by (apply (table_Some px_Prefix); [apply Hn|done]).
    rewrite Hl. apply list_elem_of_omap. exists (sv_ServiceID s, s).
    split; [apply range_service; [by apply Ho|done]|]. unfold service_scope. cbn [fst].
    apply (table_None sv_ServiceID) in Ht; [|by apply Hn]. unfold by_service. unfold table in Ht. by rewrite Ht.
  - assert (Hl : by_prefix (gc_Prefixes n) !! px_Prefix p = Some q) by (apply (table_Some px_Prefix); [apply Hn|done]).
    rewrite Hl. apply list_elem_of_omap. exists (sv_ServiceID s, s).
    split; [apply range_service; [by apply Ho|done]|]. unfold service_scope. cbn [fst snd].
    assert (Hm : by_service (px_Services q) !! sv_ServiceID s = Some t)
      by (apply (table_Some sv_ServiceID); [by apply Hn|done]).
    by rewrite Hm, Er.
Qed.

(** A scope is stale for one reason. *)
Lemma stale_unique o n a b : named_once o → named_once n → stale_scope E o n a → stale_scope E o n b →
  is_Prefix a = is_Prefix b → is_ServiceID a = is_ServiceID b → a = b.
Proof using Type.
  intros Ho Hn.
  assert (Up : ∀ p p', p ∈ gc_Prefixes o → p' ∈ gc_Prefixes o → px_Prefix p = px_Prefix p' → p = p')
    by (intros; by apply (named_unique px_Prefix (gc_Prefixes o)); [apply Ho|..]).
  assert (Uq : ∀ p p', p ∈ gc_Prefixes n → p' ∈ gc_Prefixes n → px_Prefix p = px_Prefix p' → p = p')
    by (intros; by apply (named_unique px_Prefix (gc_Prefixes n)); [apply Hn|..]).
  assert (Us : ∀ p s s', p ∈ gc_Prefixes o → s ∈ px_Services p → s' ∈ px_Services p →
            sv_ServiceID s = sv_ServiceID s' → s = s')
    by (intros p **; by apply (named_unique sv_ServiceID (px_Services p)); [apply Ho|..]).
  assert (Ut : ∀ p s s', p ∈ gc_Prefixes n → s ∈ px_Services p → s' ∈ px_Services p →
            sv_ServiceID s = sv_ServiceID s' → s = s')
    by (intros p **; by apply (named_unique sv_ServiceID (px_Services p)); [apply Hn|..]).
  destruct 1 as [p Hp Hq|p q s Hp Hq Eq Hs Ht|p q s t r Hp Hq Eq Hs Ht Et Er];
    destruct 1 as [p' Hp' Hq'|p' q' s' Hp' Hq' Eq' Hs' Ht'|p' q' s' t' r' Hp' Hq' Eq' Hs' Ht' Et' Er'];
    cbn [is_Prefix is_ServiceID]; intros E1 E2; assert (p = p') as <- by (by apply Up);
    try done; try (by exfalso; eapply Hq; [eassumption|congruence]); try (by exfalso; eapply Hq'; [eassumption|congruence]);
    assert (q = q') as <- by (apply Uq; congruence); assert (s = s') as <- by (by apply (Us p)).
  - done.
  - exfalso. by eapply Ht.
  - exfalso. by eapply Ht'.
  - assert (t = t') as <- by (apply (Ut q); congruence). congruence.
Qed.

Lemma stale_prefix o n a : named_once o → stale_scope E o n a → ¬ has_char "|" (is_Prefix a).
Proof using Type. intros Ho. by destruct 1; cbn; apply Ho. Qed.

Lemma recorded_scopes o n sc : named_once o → named_once n →
  sc ∈ (range_scopes (cg_scopes (collect_changes range_prefixes range_services E o n))).*2 ↔ stale_scope E o n sc.
Proof using prefixes_perm services_perm scopes_perm.
  intros Ho Hn. rewrite scopes_perm, collect_scopes by done.
  assert (Hs : ∀ s, s ∈ all_scopes o n ↔ stale_scope E o n s)
    by (split; [by apply all_scopes_stale|by apply stale_all_scopes]).
  assert (Hf : ∀ k x, table scopeKey (all_scopes o n) !! k = Some x ↔ x ∈ all_scopes o n ∧ scopeKey x = k).
  { intros k x. apply table_fun. intros a b Ha%Hs Hb%Hs Eq.
    apply scopeKey_inj in Eq as [? ?];
      [|exact (stale_prefix o n a Ho Ha)|exact (stale_prefix o n b Ho Hb)]. by apply (stale_unique o n). }
  rewrite list_elem_of_fmap. split.
  - intros ([k x] & -> & H%elem_of_map_to_list). apply Hf in H as [H _]. by apply Hs.
  - intros H. exists (scopeKey sc, sc). split; [done|]. apply elem_of_map_to_list, Hf. split; [|done]. by apply Hs.
Qed.
End exact.

#[export] Instance scope_le_total : Total scope_le.
Proof.
  intros a b. unfold scope_le. destruct (decide (is_Prefix a = is_Prefix b)) as [E|E].
  - rewrite decide_True by done. apply total, _.
  - rewrite decide_False by done. apply total, _.
Qed.

#[export] Instance scope_le_trans : Transitive scope_le.
Proof.
  intros a b c. unfold scope_le.
  destruct (decide (is_Prefix a = is_Prefix b)) as [E|E], (decide (is_Prefix b = is_Prefix c)) as [F|F];
    intros H K.
  - rewrite decide_True by congruence. by etrans.
  - rewrite decide_False by congruence. by rewrite E.
  - rewrite decide_False by congruence. by rewrite <- F.
  - destruct (decide (is_Prefix a = is_Prefix c)) as [G|_]; [|by etrans].
    exfalso. apply E. apply (anti_symm String.le); [done|]. by rewrite G.
Qed.

(** C32: (what goes stale) The scopes a reload invalidates are, sorted and each
    once, exactly those the change makes stale: prefixes that are gone, services
    gone from prefixes that stay, services whose cache, transformation, target
    or tiers differ, with the first of these reasons; for every order in which
    Go ranges over its maps. *)
Theorem invalidation_exact range_prefixes range_services range_scopes (E : comparisons) (o n : GatewayConfig) :
  (∀ m, range_prefixes m ≡ₚ map_to_list m) → (∀ m, range_services m ≡ₚ map_to_list m) →
  (∀ m, range_scopes m ≡ₚ map_to_list m) → named_once o → named_once n →
  let inv := ua_Invalidations (analyzeConfigUpdate range_prefixes range_services range_scopes E (Some o) (Some n)) in
  StronglySorted scope_le inv ∧ NoDup (scopeKey <$> inv) ∧ ∀ sc, sc ∈ inv ↔ stale_scope E o n sc.
Proof.
  intros Hp Hs Hr Ho Hn. cbn [analyzeConfigUpdate ua_Invalidations].
  set (m := cg_scopes _). split; [apply (StronglySorted_merge_sort scope_le)|]. split.
  - rewrite (merge_sort_Permutation scope_le), Hr.
    assert (Hk : ∀ k s, m !! k = Some s → scopeKey s = k).
    { intros k s. unfold m. rewrite collect_scopes by done. unfold table.
      assert (Hg : ∀ L (m : gmap string ConfigInvalidationScope), (∀ k s, m !! k = Some s → scopeKey s = k) →
                ∀ k s, foldl (λ m s, <[scopeKey s := s]> m) m L !! k = Some s → scopeKey s = k).
      { intros L. induction L as [|x L IH]; intros m' Hm; [done|]. cbn [foldl]. apply IH.
        intros k' s' [[<- ->]|[_ H]]%lookup_insert_Some; [done|by apply Hm]. }
      apply Hg. intros ?? H. by rewrite lookup_empty in H. }
    assert (Heq : scopeKey <$> (map_to_list m).*2 = (map_to_list m).*1).
    { rewrite <- list_fmap_compose. apply list_fmap_ext. intros i [k s] H%list_elem_of_lookup_2%elem_of_map_to_list.
      by apply Hk. }
    rewrite Heq. apply NoDup_fst_map_to_list.
  - intros sc. rewrite (merge_sort_Permutation scope_le). by apply recorded_scopes.
Qed.

(** ** At the edges *)

Section delete.
Context {V : Type} (range : gmap string (cacheEntry V) → list (string * cacheEntry V)).
Hypothesis range_perm : ∀ m, range m ≡ₚ map_to_list m.

Lemma delete_fold (f : string → bool) l (s : cacheShard V) k :
  sh_entries (foldl (λ (s : cacheShard V) (ke : string * cacheEntry V),
    if f ke.1 then mkShard (delete ke.1 (sh_entries s)) (sh_cost s - ce_cost ke.2)%i64 else s) s l) !! k =
  if decide (f k = true ∧ k ∈ l.*1) then None else sh_entries s !! k.
Proof using Type.
  revert s. induction l as [|[k' e] l IH]; intros s; cbn [foldl].
  - rewrite decide_False; [done|]. by intros [_ ?%elem_of_nil].
  - rewrite IH. rewrite fmap_cons. cbn [fst].
    destruct (decide (f k = true ∧ k ∈ l.*1)) as [[Hf Hk]|Hn].
    + rewrite decide_True; [done|]. split; [done|by right].
    + destruct (f k') eqn:Ek'; cbn [sh_entries].
      * destruct (decide (k' = k)) as [->|Hne].
        -- rewrite lookup_delete_eq, decide_True; [done|]. split; [done|by left].
        -- rewrite lookup_delete_ne by done. rewrite decide_False; [done|].
           intros [? [?|?]%elem_of_cons]; [congruence|]. by apply Hn.
      * rewrite decide_False; [done|]. intros [? [?|?]%elem_of_cons]; [congruence|]. by apply Hn.
Qed.

Lemma shard_delete_lookup (f : string → bool) (s : cacheShard V) k :
  sh_entries (shard_delete range s f) !! k = if f k then None else sh_entries s !! k.
Proof using range_perm.
  unfold shard_delete. rewrite delete_fold. destruct (f k); [|by rewrite decide_False by naive_solver].
  destruct (decide (true = true ∧ _)) as [_|Hn]; [done|].
  destruct (sh_entries s !! k) as [e|] eqn:Ek; [|done]. exfalso. apply Hn. split; [done|].
  rewrite range_perm. apply list_elem_of_fmap. exists (k, e). split; [done|]. by apply elem_of_map_to_list.
Qed.

Lemma ttl_get_delete (c : ttlCache V) (f : string → bool) k now :
  ttl_get (ttl_delete range c f) k now = if f k then None else ttl_get c k now.
Proof using range_perm.
  unfold ttl_get, ttl_delete. cbn [tc_shards]. rewrite list_lookup_fmap.
  destruct (tc_shards c !! shard k) as [s|]; cbn; [|by destruct (f k)].
  rewrite shard_delete_lookup. by destruct (f k).
Qed.
End delete.

Section edges.
Variable range_tiers : gmap string (cacheEntry tierEntry) → list (string * cacheEntry tierEntry).
Variable range_responses : gmap string (cacheEntry string) → list (string * cacheEntry string).
Hypothesis responses_perm : ∀ m, range_responses m ≡ₚ map_to_list m.

Lemma responses_Get_Invalidate c p s k now :
  responses_Get (responses_Invalidate range_responses c p s) k now =
  if HasPrefix k (scopePattern p s) then None else responses_Get c k now.
Proof using responses_perm.
  unfold responses_Get, responses_Invalidate. rewrite ttl_get_delete by done. by destruct (HasPrefix _ _).
Qed.

Lemma responses_Get_all l c k now :
  responses_Get (foldl (λ c sc, responses_Invalidate range_responses c (fst sc) (snd sc)) c l) k now =
  if existsb (λ sc, HasPrefix k (scopePattern (fst sc) (snd sc))) l then None else responses_Get c k now.
Proof using responses_perm.
  revert c. induction l as [|sc l IH]; intros c; [done|]. cbn [foldl existsb]. rewrite IH, responses_Get_Invalidate.
  destruct (HasPrefix _ _), (existsb _ _); done.
Qed.

(** C29: (no stale response) The event a reload from [o] to [n] sends makes an
    edge serve [n], and forget every cached response under a scope the change
    makes stale, and no other. *)
Theorem stale_responses_dropped range_prefixes range_services range_scopes (E : comparisons) (o n : GatewayConfig)
    (cm : ConfigManager) (ev : ControlEvent) (now t : Z) (s : follower) (key : string) :
  (∀ m, range_prefixes m ≡ₚ map_to_list m) → (∀ m, range_services m ≡ₚ map_to_list m) →
  (∀ m, range_scopes m ≡ₚ map_to_list m) → named_once o → named_once n → cm_active cm = Some n →
  snapshot cm false
    (ua_Invalidations (analyzeConfigUpdate range_prefixes range_services range_scopes E (Some o) (Some n))) = Some ev →
  let s' := Apply_event range_tiers range_responses now s ev in
  let stale := ∃ sc, stale_scope E o n sc ∧ HasPrefix key (scopePattern (is_Prefix sc) (is_ServiceID sc)) = true in
  fo_index s' = Apply n ∧ (stale → responses_Get (fo_responses s') key t = None) ∧
  (¬ stale → responses_Get (fo_responses s') key t = responses_Get (fo_responses s) key t).
Proof using responses_perm.
  intros Hp Hs Hr Ho Hn Hcm. set (inv := ua_Invalidations _). unfold snapshot, Snapshot. rewrite Hcm. destruct (json_ok (Some n)); [|done]. intros [= <-].
  cbn [Apply_event fo_index fo_responses default from_option]. split; [done|]. rewrite responses_Get_all.
  assert (Hi : ∀ sc, sc ∈ inv ↔ stale_scope E o n sc).
  { intros sc. unfold inv. cbn [analyzeConfigUpdate ua_Invalidations]. rewrite (merge_sort_Permutation scope_le).
    by apply recorded_scopes. }
  destruct (existsb _ _) eqn:Ex; split; try done.
  - intros Hns. apply existsb_exists in Ex as (x & Hx%list_elem_of_In & Hk). exfalso. apply Hns.
    apply list_elem_of_In, in_map_iff in Hx as (sc & <- & Hx%list_elem_of_In). exists sc. split; [by apply Hi|done].
  - intros (sc & Hsc%Hi & Hk). apply not_true_iff_false in Ex. exfalso. apply Ex, existsb_exists.
    exists (is_Prefix sc, is_ServiceID sc). split; [|done].
    apply in_map_iff. exists sc. split; [done|]. by apply list_elem_of_In.
Qed.
End edges.

(** ** Examples *)

Module Example_diff.
Definition svc (quota : Z) : ServiceConfig :=
  plain_service "orders" "http://orders:8080" [mkTier "free" quota 1 1 1 1 1 "" f64_zero] None []
    (mkLeasePolicy "" 0 0 0) None.
Definition prefix (name : string) (quota : Z) : PrefixConfig :=
  mkPrefix name Minute (mkLeasing 0 f64_zero 0 0) [svc quota].
Definition before : GatewayConfig := mkGateway [prefix "v1" 100; prefix "v2" 100] DefaultRuntimePolicy [].
Definition after : GatewayConfig := mkGateway [prefix "v1" 50] DefaultRuntimePolicy [].
Definition same : comparisons :=
  mkComparisons (λ _ _, true) (λ _ _, true) (λ _ _, true) (λ a b, bool_decide (map t_Quota a = map t_Quota b))
    (λ _ _, true) (λ _ _, true) (λ _ _, true).
Definition cached : ttlCache string :=
  responses_Set map_to_list (newTTLCache 100000) "c:/v1/orders/7:1f" "body" (3600 * Second) 0.
Definition edge : follower := mkFollower (Apply before) NewTierCache cached true.

Lemma named : named_once before ∧ named_once after.
Proof.
  split; split; cbn.
  all: try (repeat constructor; set_solver).
  all: intros p Hp; repeat apply elem_of_cons in Hp as [->|Hp]; try (by apply elem_of_nil in Hp); cbn;
    first [by repeat constructor; set_solver | split; [done|]; unfold has_char; cbn; set_solver].
Qed.
End Example_diff.

Lemma invalidation_exact_witness :
  ua_Invalidations (analyzeConfigUpdate map_to_list map_to_list map_to_list Example_diff.same
    (Some Example_diff.before) (Some Example_diff.after)) =
    [mkScope "v1" "orders" "" "tiers_changed"; mkScope "v2" "" "mark-expire" "prefix_removed"] ∧
  stale_scope Example_diff.same Example_diff.before Example_diff.after (mkScope "v1" "orders" "" "tiers_changed").
Proof.
  split; [vm_compute; reflexivity|]. destruct Example_diff.named as [Ho Hn].
  apply (invalidation_exact map_to_list map_to_list map_to_list Example_diff.same Example_diff.before Example_diff.after);
    [done..|]. apply list_elem_of_In. vm_compute. by left.
Defined.

Lemma stale_responses_dropped_witness :
  responses_Get (fo_responses Example_diff.edge) "c:/v1/orders/7:1f" 5 = Some "body" ∧
  ∃ ev, responses_Get (fo_responses (Apply_event map_to_list map_to_list 3 Example_diff.edge ev)) "c:/v1/orders/7:1f" 5 = None.
Proof.
  split; [vm_compute; reflexivity|]. destruct Example_diff.named as [Ho Hn]. eexists.
  eapply (stale_responses_dropped map_to_list map_to_list (λ m, reflexivity _) map_to_list map_to_list map_to_list
    Example_diff.same Example_diff.before Example_diff.after (mkConfigManager "gate.yaml" (Some Example_diff.after)));
    [done|done|done|exact Ho|exact Hn|reflexivity|reflexivity|].
  exists (mkScope "v1" "orders" "" "tiers_changed"). split; [|vm_compute; reflexivity].
  apply (StaleChange _ _ _ (Example_diff.prefix "v1" 100) (Example_diff.prefix "v1" 50) (Example_diff.svc 100)
    (Example_diff.svc 50)); [by left|by left|reflexivity|by left|by left|reflexivity|vm_compute; reflexivity].
Defined.
