(* ===== verification/AdminApi.v ===== *)
(** * The hub's admin API ([packages/hub/server.go], [keys.go], [packages/keys])

    Handlers are programs over the commands they issue: Redis commands, the
    hub's tier cache, the configuration in force and the control plane.  A
    program goes on with whatever a command answers, so that the same handler
    is run alone, with commands that fail, or interleaved with others command
    by command.  A Redis command may be carried out, refused, or carried out
    with its answer lost.

    Bodies are the values the JSON library decodes them to; random strings and
    the time of a request come with it; the text of error messages is left out. *)

From S2P Require Import Prelude Float64 GoLib Policies.
From S2P Require Import Config TtlCache Tiers Edge EdgeCache.
From S2P Require Import ConfigFile ConfigCheck HubConfig ControlPlane ConfigDiff.
From Stdlib Require Import Ascii.

Local Open Scope Z_scope.

(** ** Keys *)

Record KeyRecord := mkKey {
  kr_ID : string;
  kr_Group : string;
  kr_Tier : string;
  kr_Owner : string;
  kr_Name : string;
  kr_CreatedAt : Z;
  kr_RotatedAt : option Z;
  kr_Hash : string;
}.

(** The JSON form shown to clients leaves the hash out. *)
Definition key_json (r : KeyRecord) : KeyRecord :=
  mkKey (kr_ID r) (kr_Group r) (kr_Tier r) (kr_Owner r) (kr_Name r) (kr_CreatedAt r) (kr_RotatedAt r) "".

Definition key_prefix : string := "gk_".

Definition keys_Short (hash : string) : string :=
  if (12 <? String.length hash)%nat then String.substring 0 12 hash else hash.

(** [New] and [Rotate], from the strings [randomHex] returns. *)
Definition keys_Rotate (id random : string) : string := key_prefix +:+ id +:+ "_" +:+ random.
Definition keys_New (randomID random : string) : string * string := (randomID, keys_Rotate randomID random).

Definition keys_ID (raw : string) : string :=
  match CutPrefix raw key_prefix with
  | None => ""
  | Some rest => match GoLib.Cut "_" rest with (id, Some _) => id | (_, None) => "" end
  end.

Record AuditEntry := mkAudit {
  ae_ID : string;
  ae_Time : Z;
  ae_Actor : string;
  ae_Action : string;
  ae_Target : string;
  ae_Detail : string;
  ae_RequestID : string;
}.

(** ** Commands and programs *)

Inductive command : Type → Type :=
(* key records: a record and its place in the index are written together *)
| GetKey (id : string) : command (result string (option KeyRecord))
| SaveKey (id : string) (r : KeyRecord) : command (result string unit)
| DropKey (id : string) : command (result string unit)
| Members : command (result string (list string))
(* the layout before *)
| LegacyMembers : command (result string (list string))
| LegacyGet (id : string) : command (result string (option KeyRecord))
| LegacyDel (id : string) : command (result string unit)
| LegacyDropIndex : command (result string unit)
(* the tier store, and the hub's cache of it *)
| StoreGetTier (prefix apiKey : string) : command (result string string)
| StoreSetTier (prefix apiKey tierID : string) : command (result string unit)
| StoreDeleteTier (prefix apiKey : string) : command (result string unit)
| StoreSetOwner (prefix apiKey owner : string) : command (result string unit)
| CacheLookup (prefix apiKey : string) (now : Z) : command (option string)
| CacheGen : command Z
| CacheStore (prefix apiKey : string) (gen now : Z) (tier : string) : command unit
| CacheInvalidate (prefix apiKey : string) : command unit
(* the configuration in force *)
| ReadConfig : command (option GatewayConfig)
| LoadFile : command (option GatewayConfig)
| StoreFile : command bool
| StorePayload (cfg : GatewayConfig) : command bool
(* the control plane, the audit stream, readiness *)
| Publish (m : controlMessage) : command unit
| Watchers : command Z
| XAdd (e : AuditEntry) : command (result string unit)
| XRevRangeN (count : nat) : command (result string (list AuditEntry))
| ReadReady : command (bool * string).

Inductive prog (A : Type) : Type :=
| Ret (a : A)
| Do {B : Type} (c : command B) (k : B → prog A).
Arguments Ret {A}.
Arguments Do {A B}.

Fixpoint bind {A B} (p : prog A) (f : A → prog B) : prog B :=
  match p with
  | Ret a => f a
  | Do c k => Do c (λ b, bind (k b) f)
  end.

Notation "'let*' x ':=' c 'in' k" := (Do c (λ x, k)) (at level 200, x pattern, c at level 100, k at level 200).
Notation "'call' x ':=' p 'in' k" := (bind p (λ x, k)) (at level 200, x pattern, p at level 100, k at level 200).

(** ** Requests and responses *)

Record keyRequest := mkKeyRequest {
  kq_Group : option string;
  kq_Tier : option string;
  kq_Owner : option string;
  kq_Name : option string;
}.

(** A reload's body: unreadable, blank, or a document. *)
Inductive reload_body := ReloadUnreadable | ReloadBlank | ReloadDocument (f : File).

Record admin_request := mkAdminRequest {
  aq_Method : string;
  aq_Path : string;        (* URL.Path *)
  aq_EscapedPath : string; (* URL.EscapedPath() *)
  aq_Header : Header;
  aq_Group : string;       (* query parameters *)
  aq_Count : string;
  aq_Length : Z;           (* ContentLength *)
  aq_Key : option keyRequest;   (* the body decoded as a key request *)
  aq_TierID : option string;    (* ... as {"tier_id": ...} *)
  aq_Reload : reload_body;
  aq_Now : Z;
  aq_RandomID : string;    (* randomHex(6), randomHex(20) *)
  aq_Random : string;
  aq_RequestID : string;
}.

Inductive admin_body :=
| BNone
| BText
| BProblem (code : string)
| BHealth (status : string) (missing : option string)
| BConfig (cfg : option GatewayConfig)
| BReport (mode : string) (analysis : configUpdateAnalysis)
| BStatus (edges : Z) (ready : bool)
| BTier (tier : string)
| BKey (r : KeyRecord)
| BIssued (r : KeyRecord) (secret : string)
| BKeys (rs : list KeyRecord)
| BAudit (es : list AuditEntry).

Record admin_response := mkAdminResponse {
  ap_Status : Z;
  ap_Header : Header;
  ap_Body : admin_body;
}.

Definition problem (status : Z) (code : string) : admin_response :=
  mkAdminResponse status
    (header_set (header_set ∅ "Content-Type" "application/problem+json") "X-Content-Type-Options" "nosniff")
    (BProblem code).
(** [httpx.Error], for the statuses the hub uses. *)
Definition http_error (status : Z) : admin_response :=
  problem status
    (if status =? 400 then "bad_request" else if status =? 500 then "internal"
     else if status =? 401 then "unauthorized" else if status =? 403 then "forbidden"
     else if status =? 405 then "method_not_allowed" else "unavailable").
Definition json_response (status : Z) (b : admin_body) : admin_response :=
  mkAdminResponse status (header_set ∅ "Content-Type" "application/json") b.
Definition empty_response (status : Z) : admin_response := mkAdminResponse status ∅ BNone.
(** [http.Error] and [http.NotFound] of the library. *)
Definition text_response (status : Z) : admin_response :=
  mkAdminResponse status
    (header_set (header_set ∅ "Content-Type" "text/plain; charset=utf-8") "X-Content-Type-Options" "nosniff") BText.

(** ** The server *)

Record corsPolicy := mkCORSPolicy {
  cp_allowed : gset string;
  cp_allowHeaders : list string;
  cp_allowMethods : list string;
  cp_maxAge : Z; (* time.Duration *)
}.

Record HubServer := mkHubServer {
  hs_redis : bool;     (* rdb is set *)
  hs_authToken : string;
  hs_readToken : string;
  hs_control : bool;   (* control is set *)
  hs_origin : string;  (* control.origin *)
  hs_cors : corsPolicy;
  hs_apiKeyPattern : string → bool; (* the compiled pattern *)
}.

Definition default_cors : corsPolicy :=
  mkCORSPolicy ∅ ["Authorization"; "Content-Type"; "X-API-Key"] ["GET"; "POST"; "PUT"; "DELETE"; "OPTIONS"] (5 * Minute).

Definition SetReadToken (s : HubServer) (token : string) : HubServer :=
  mkHubServer (hs_redis s) (hs_authToken s) token (hs_control s) (hs_origin s) (hs_cors s) (hs_apiKeyPattern s).
Definition set_cors (s : HubServer) (p : corsPolicy) : HubServer :=
  mkHubServer (hs_redis s) (hs_authToken s) (hs_readToken s) (hs_control s) (hs_origin s) p (hs_apiKeyPattern s).

Definition origin_of (v : string) : string := TrimSpace (GoLib.TrimSuffix "/" v).

Definition SetCORSAllowedOrigins (s : HubServer) (origins : list string) : HubServer :=
  set_cors s (mkCORSPolicy
    (foldl (λ m o, let v := origin_of o in if (v =? "")%string then m else {[v]} ∪ m) ∅ origins)
    (cp_allowHeaders (hs_cors s)) (cp_allowMethods (hs_cors s)) (cp_maxAge (hs_cors s))).

Definition SetCORSPreflightPolicy (s : HubServer) (headers methods : list string) (maxAge : Z) : HubServer :=
  let c := hs_cors s in
  set_cors s (mkCORSPolicy (cp_allowed c)
    (if bool_decide (headers = []) then cp_allowHeaders c else headers)
    (if bool_decide (methods = []) then cp_allowMethods c else methods)
    (if 0 <? maxAge then maxAge else cp_maxAge c)).

(** [None]: the pattern does not compile. *)
Definition SetAPIKeyPattern (regexp_Compile : string → option (string → bool)) (s : HubServer) (pattern : string)
  : option HubServer :=
  let v := TrimSpace pattern in
  if (v =? "")%string then Some s
  else match regexp_Compile v with
       | None => None
       | Some re => Some (mkHubServer (hs_redis s) (hs_authToken s) (hs_readToken s) (hs_control s) (hs_origin s)
                            (hs_cors s) re)
       end.

Definition pendingDependencyValue (dep : string) : string :=
  let dep := TrimSpace dep in if (dep =? "")%string then "unknown" else dep.

(** ** Handlers *)

(** What the handlers take from libraries: the hash of a key, URLs, patterns,
    comparisons, the orders Go and Redis list maps and sets in. *)
Record libs := mkLibs {
  lb_Hash : string → string; (* hex of SHA-256 *)
  lb_ParseRequestURI : string → option URL;
  lb_url_Parse : string → option URL;
  lb_regexp_ok : string → bool;
  lb_equal : comparisons;
  lb_pathUnescape : string → string;
  lb_redirectStatus : Z;     (* of the multiplexer's redirect to a clean path *)
  lb_range_cost : gmap string Z → list (string * Z);
  lb_range_floors : gmap string float64 → list (string * float64);
  lb_range_prefixes : gmap string PrefixConfig → list (string * PrefixConfig);
  lb_range_services : gmap string ServiceConfig → list (string * ServiceConfig);
  lb_range_scopes : gmap string ConfigInvalidationScope → list (string * ConfigInvalidationScope);
  lb_members : gset string → list string; (* the order of SMEMBERS *)
  lb_stream_id : nat → string;            (* the ids of the audit stream *)
}.

Definition decode (L : libs) (f : File) : option GatewayConfig :=
  match decodeAndValidateConfig (lb_ParseRequestURI L) (lb_range_cost L) (lb_range_floors L) (lb_url_Parse L)
          (lb_regexp_ok L) f with
  | Ok cfg => Some cfg
  | Err _ => None
  end.

Definition analyze (L : libs) (current next : option GatewayConfig) : configUpdateAnalysis :=
  analyzeConfigUpdate (lb_range_prefixes L) (lb_range_services L) (lb_range_scopes L) (lb_equal L) current next.

Section handlers.
Variable L : libs.

Section server.
Variable s : HubServer.
Variable r : admin_request.

Definition internal_error : prog admin_response := Ret (http_error 500). (* writeInternalError *)
Definition method_not_allowed : prog admin_response := Ret (http_error 405).

(** The roles are put in the request's context by [ServeHTTP]. *)
Definition audit (role action target detail : string) : prog unit :=
  if negb (hs_redis s) then Ret ()
  else let* _ := XAdd (mkAudit "" (aq_Now r) role action target detail (aq_RequestID r)) in Ret ().

Definition publishTier (prefix apiKey tierID : string) : prog unit :=
  if hs_control s then let* _ := Publish (tier_message (hs_origin s) prefix apiKey tierID) in Ret () else Ret ().

(** The tier store as the server has it: [CachedTiers]. *)
Definition invalidating (write : command (result string unit)) (prefix apiKey : string) : prog (result string unit) :=
  let* e := write in
  let* _ := CacheInvalidate prefix apiKey in
  Ret e.
Definition tiers_GetTier (prefix apiKey : string) : prog (result string string) :=
  let* hit := CacheLookup prefix apiKey (aq_Now r) in
  match hit with
  | Some tier => Ret (Ok tier)
  | None =>
      let* gen := CacheGen in
      let* tier := StoreGetTier prefix apiKey in
      match tier with
      | Ok t => if (t =? "")%string then Ret tier
                else let* _ := CacheStore prefix apiKey gen (aq_Now r) t in Ret tier
      | Err _ => Ret tier
      end
  end.

Definition assign (group hash tier : string) (owner : option string) : prog (result string unit) :=
  let owner := if (tier =? "")%string then Some "" else owner in
  call err := invalidating (if (tier =? "")%string then StoreDeleteTier group hash else StoreSetTier group hash tier) group hash in
  call err :=
    match err, owner with
    | Ok _, Some o => invalidating (StoreSetOwner group hash o) group hash
    | _, _ => Ret err
    end in
  match err with
  | Ok _ => call _ := publishTier group hash tier in Ret err
  | Err _ => Ret err
  end.

Definition isAllowedPrefix (prefix : string) : prog bool :=
  let* cfg := ReadConfig in
  Ret (bool_decide (is_Some (cfg ≫= λ cfg, FindPrefix cfg prefix))).

Definition tierDefinedInPrefix (prefix tierID : string) : prog bool :=
  if (tierID =? "")%string then Ret false
  else
    let* cfg := ReadConfig in
    Ret (match cfg ≫= λ cfg, FindPrefix cfg prefix with
         | None => false
         | Some p => existsb (λ svc, bool_decide (is_Some (findTier svc tierID))) (px_Services p)
         end).

Definition deref (p : option string) : string := match p with None => "" | Some v => TrimSpace v end.

Definition decodeKeyRequest : option keyRequest :=
  if aq_Length r =? 0 then Some (mkKeyRequest None None None None) else aq_Key r.

(** *** Keys *)

Definition createKey (role : string) : prog admin_response :=
  match decodeKeyRequest with
  | None => Ret (problem 400 "bad_request")
  | Some req =>
      let group := deref (kq_Group req) in
      let tier := deref (kq_Tier req) in
      call allowed := isAllowedPrefix group in
      if negb allowed then Ret (problem 400 "unknown_group")
      else
        call defined := tierDefinedInPrefix group tier in
        if negb defined then Ret (problem 400 "unknown_tier")
        else
          let '(id, secret) := keys_New (aq_RandomID r) (aq_Random r) in
          let rec := mkKey id group tier (deref (kq_Owner req)) (deref (kq_Name req)) (aq_Now r) None (lb_Hash L secret) in
          let* err := SaveKey id rec in
          match err with
          | Err _ => internal_error
          | Ok _ =>
              call err := assign group (kr_Hash rec) tier (Some (kr_Owner rec)) in
              match err with
              | Err _ => internal_error
              | Ok _ =>
                  call _ := audit role "key.create" id ("group=" +:+ group +:+ " tier=" +:+ tier) in
                  Ret (json_response 201 (BIssued (key_json rec) secret))
              end
          end
  end.

(** The records of [ids], leaving out those that are gone or cannot be read. *)
Fixpoint load_keys (ids : list string) (group : string) (out : list KeyRecord) : prog (list KeyRecord) :=
  match ids with
  | [] => Ret out
  | id :: ids =>
      let* rec := GetKey id in
      match rec with
      | Ok (Some rec) =>
          load_keys ids group
            (if (group =? "")%string || (kr_Group rec =? group)%string then out ++ [key_json rec] else out)
      | _ => load_keys ids group out
      end
  end.

Definition listKeys : prog admin_response :=
  let* ids := Members in
  match ids with
  | Err _ => internal_error
  | Ok ids => call out := load_keys ids (aq_Group r) [] in Ret (json_response 200 (BKeys out))
  end.

Definition keyFromPath (id : string) (k : KeyRecord → prog admin_response) : prog admin_response :=
  let* rec := GetKey id in
  match rec with
  | Ok None => Ret (problem 404 "no_such_key")
  | Err _ => internal_error
  | Ok (Some rec) => k rec
  end.

Definition getKey (id : string) : prog admin_response :=
  keyFromPath id (λ rec, Ret (json_response 200 (BKey (key_json rec)))).

(** The end of [updateKey]: the record with its changes made. *)
Definition save_update (role : string) (rec : KeyRecord) (reassign : bool) : prog admin_response :=
  let* err := SaveKey (kr_ID rec) rec in
  match err with
  | Err _ => internal_error
  | Ok _ =>
      call err := (if reassign then assign (kr_Group rec) (kr_Hash rec) (kr_Tier rec) (Some (kr_Owner rec)) else Ret (Ok ())) in
      match err with
      | Err _ => internal_error
      | Ok _ =>
          call _ := audit role "key.update" (kr_ID rec) ("tier=" +:+ kr_Tier rec) in
          Ret (json_response 200 (BKey (key_json rec)))
      end
  end.

Definition relabel (rec : KeyRecord) (req : keyRequest) (tier : string) : KeyRecord :=
  mkKey (kr_ID rec) (kr_Group rec) tier
    (if kq_Owner req then deref (kq_Owner req) else kr_Owner rec)
    (if kq_Name req then deref (kq_Name req) else kr_Name rec)
    (kr_CreatedAt rec) (kr_RotatedAt rec) (kr_Hash rec).

Definition updateKey (role id : string) : prog admin_response :=
  keyFromPath id (λ rec,
    match decodeKeyRequest with
    | None => Ret (problem 400 "bad_request")
    | Some req =>
        if kq_Group req then Ret (problem 400 "immutable_group")
        else
          let ownerChanged := if kq_Owner req then true else false in
          let tier := deref (kq_Tier req) in
          let tierChanged := if kq_Tier req then negb (tier =? kr_Tier rec)%string else false in
          if tierChanged then
            call defined := tierDefinedInPrefix (kr_Group rec) tier in
            if negb defined then Ret (problem 400 "unknown_tier")
            else save_update role (relabel rec req tier) true
          else save_update role (relabel rec req (kr_Tier rec)) ownerChanged
    end).

Definition rotateKey (role id : string) : prog admin_response :=
  keyFromPath id (λ rec,
    let oldHash := kr_Hash rec in
    let secret := keys_Rotate (kr_ID rec) (aq_Random r) in
    let rec := mkKey (kr_ID rec) (kr_Group rec) (kr_Tier rec) (kr_Owner rec) (kr_Name rec) (kr_CreatedAt rec)
                 (Some (aq_Now r)) (lb_Hash L secret) in
    let* err := SaveKey (kr_ID rec) rec in
    match err with
    | Err _ => internal_error
    | Ok _ =>
        call err := assign (kr_Group rec) (kr_Hash rec) (kr_Tier rec) (Some (kr_Owner rec)) in
        match err with
        | Err _ => internal_error
        | Ok _ =>
            call err := assign (kr_Group rec) oldHash "" None in
            match err with
            | Err _ => internal_error
            | Ok _ =>
                call _ := audit role "key.rotate" (kr_ID rec) "" in
                Ret (json_response 200 (BIssued (key_json rec) secret))
            end
        end
    end).

Definition deleteKey (role id : string) : prog admin_response :=
  keyFromPath id (λ rec,
    call err := assign (kr_Group rec) (kr_Hash rec) "" None in
    match err with
    | Err _ => internal_error
    | Ok _ =>
        let* err := DropKey (kr_ID rec) in
        match err with
        | Err _ => internal_error
        | Ok _ =>
            call _ := audit role "key.revoke" (kr_ID rec) "" in
            Ret (empty_response 204)
        end
    end).

(** [strconv.Atoi]: 0 with an error, so that any failure means the default. *)
Definition audit_count : nat :=
  match ParseInt (aq_Count r) with
  | Some n => if (n <=? 0) || (1000 <? n) then 50 else Z.to_nat n
  | None => 50
  end.

Definition listAudit : prog admin_response :=
  let* es := XRevRangeN audit_count in
  match es with
  | Err _ => internal_error
  | Ok es => Ret (json_response 200 (BAudit es))
  end.

(** *** Health, configuration, tiers *)

Definition is_method (m : string) : bool := (aq_Method r =? m)%string.

Definition handleHealth : prog admin_response :=
  if negb (is_method "GET") then method_not_allowed
  else Ret (json_response 200 (BHealth "ok" None)).

Definition handleReady : prog admin_response :=
  if negb (is_method "GET") then method_not_allowed
  else
    let* st := ReadReady in
    if negb (fst st) then Ret (json_response 503 (BHealth "pending" (Some (pendingDependencyValue (snd st)))))
    else Ret (json_response 200 (BHealth "ready" None)).

Definition handleStatus : prog admin_response :=
  if negb (is_method "GET") then method_not_allowed
  else
    call edges := (if hs_control s then let* n := Watchers in Ret n else Ret 0) in
    let* st := ReadReady in
    Ret (json_response 200 (BStatus edges (fst st))).

Definition handleConfig : prog admin_response :=
  if negb (is_method "GET") then method_not_allowed
  else
    let* cfg := ReadConfig in
    if json_ok cfg then Ret (mkAdminResponse 200 ∅ (BConfig cfg)) else internal_error.

(** The target of a reload and its mode; [None]: an error. *)
Definition resolveReloadTargetConfig : prog (option (GatewayConfig * string)) :=
  match aq_Reload r with
  | ReloadUnreadable => Ret None
  | ReloadDocument f => Ret ((λ cfg, (cfg, "payload")) <$> decode L f)
  | ReloadBlank => let* cfg := LoadFile in Ret ((λ cfg, (cfg, "file")) <$> cfg)
  end.

Definition reload_method : bool := is_method "POST" || is_method "PUT".

Definition handleConfigReload (role : string) : prog admin_response :=
  if negb reload_method then method_not_allowed
  else
    call target := resolveReloadTargetConfig in
    match target with
    | None => Ret (http_error 400)
    | Some (nextCfg, mode) =>
        let* current := ReadConfig in
        let analysis := analyze L current (Some nextCfg) in
        let* ok := (if (mode =? "payload")%string then StorePayload nextCfg else StoreFile) in
        if negb ok then Ret (http_error 400)
        else
          call _ := (if hs_control s
                     then let* cfg := ReadConfig in
                          let* _ := Publish (mkMessage (hs_origin s) cfg (ua_Invalidations analysis) None) in Ret ()
                     else Ret ()) in
          call _ := audit role "config.reload" mode (Join (ua_ChangedSections analysis) ",") in
          Ret (empty_response 204)
    end.

Definition handleConfigReloadDryRun : prog admin_response :=
  if negb reload_method then method_not_allowed
  else
    call target := resolveReloadTargetConfig in
    match target with
    | None => Ret (http_error 400)
    | Some (nextCfg, mode) =>
        let* current := ReadConfig in
        Ret (json_response 200 (BReport mode (analyze L current (Some nextCfg))))
    end.

Definition set_tier (role prefix hash : string) : prog admin_response :=
  match aq_TierID r with
  | None => Ret (http_error 400)
  | Some tierID =>
      let tierID := TrimSpace tierID in
      call defined := tierDefinedInPrefix prefix tierID in
      if negb defined then Ret (http_error 400)
      else
        call err := assign prefix hash tierID None in
        match err with
        | Err _ => internal_error
        | Ok _ =>
            call _ := audit role "tier.set" (prefix +:+ "/" +:+ keys_Short hash) ("tier=" +:+ tierID) in
            Ret (empty_response 200)
        end
  end.

Definition handleTiers (role : string) (params : list string) : prog admin_response :=
  match params with
  | prefix :: apiKey :: _ =>
      call allowed := isAllowedPrefix prefix in
      if negb allowed || negb (hs_apiKeyPattern s apiKey) then Ret (http_error 400)
      else
        let hash := lb_Hash L apiKey in
        if is_method "GET" then
          call tier := tiers_GetTier prefix hash in
          match tier with
          | Err _ => internal_error
          | Ok tier => Ret (json_response 200 (BTier tier))
          end
        else if is_method "POST" || is_method "PUT" then set_tier role prefix hash
        else if is_method "DELETE" then
          call err := assign prefix hash "" None in
          match err with
          | Err _ => internal_error
          | Ok _ =>
              call _ := audit role "tier.revoke" (prefix +:+ "/" +:+ keys_Short hash) "" in
              Ret (empty_response 204)
          end
        else method_not_allowed
  | _ => Ret (http_error 400)
  end.

(** *** Routing *)

Inductive v2_route :=
| RCreate | RList | RGet (id : string) | RUpdate (id : string) | RRotate (id : string) | RDelete (id : string)
| RAudit | RMethodNotAllowed | RRedirect | RNotFound.

(** The library's multiplexer works on the escaped path: a path that is not
    clean is redirected; segments are unescaped before they are matched;
    patterns with GET also take HEAD; a path known for other methods only is
    refused. *)
Definition is_get : bool := is_method "GET" || is_method "HEAD".

Definition v2Routes : v2_route :=
  match GoLib.Split "/" (aq_EscapedPath r) with
  | "" :: segments =>
      if negb (clean_segments segments) && negb (is_method "CONNECT") then RRedirect
      else match lb_pathUnescape L <$> segments with
           | [v2; "keys"] =>
               if negb (v2 =? "v2")%string then RNotFound
               else if is_method "POST" then RCreate else if is_get then RList else RMethodNotAllowed
           | [v2; "audit"] =>
               if negb (v2 =? "v2")%string then RNotFound else if is_get then RAudit else RMethodNotAllowed
           | [v2; "keys"; id] =>
               if negb (v2 =? "v2")%string || (id =? "")%string then RNotFound
               else if is_get then RGet id else if is_method "PATCH" then RUpdate id
                 else if is_method "DELETE" then RDelete id else RMethodNotAllowed
           | [v2; "keys"; id; "rotate"] =>
               if negb (v2 =? "v2")%string || (id =? "")%string then RNotFound
               else if is_method "POST" then RRotate id else RMethodNotAllowed
           | _ => RNotFound
           end
  | _ => RNotFound
  end.

Definition v2_ServeHTTP (role : string) : prog admin_response :=
  match v2Routes with
  | RCreate => createKey role
  | RList => listKeys
  | RGet id => getKey id
  | RUpdate id => updateKey role id
  | RRotate id => rotateKey role id
  | RDelete id => deleteKey role id
  | RAudit => listAudit
  | RMethodNotAllowed => Ret (text_response 405)
  | RRedirect => Ret (mkAdminResponse (lb_redirectStatus L) ∅ BText)
  | RNotFound => Ret (text_response 404)
  end.

(** [authorize]: the role of the token; [None]: none. *)
Definition authorize : option string :=
  if (hs_authToken s =? "")%string then Some "admin"
  else match CutPrefix (header_get (aq_Header r) "Authorization") "Bearer " with
       | None => None
       | Some got =>
           if (got =? hs_authToken s)%string then Some "admin"
           else if negb (hs_readToken s =? "")%string && (got =? hs_readToken s)%string then Some "read-only"
           else None
       end.

(** [handleCORS]: headers for the response, or the response itself. *)
Definition handleCORS : Header + admin_response :=
  let origin := origin_of (header_get (aq_Header r) "Origin") in
  if (origin =? "")%string then inl ∅
  else if negb (bool_decide (origin ∈ cp_allowed (hs_cors s))) then inr (http_error 403)
  else
    let h := header_set (header_set (header_set ∅ "Vary" "Origin") "Access-Control-Allow-Origin" origin)
               "Access-Control-Allow-Credentials" "true" in
    if is_method "OPTIONS" then
      let c := hs_cors s in
      inr (mkAdminResponse 204
        (header_set (header_set (header_set h "Access-Control-Allow-Methods" (Join (cp_allowMethods c) ", "))
           "Access-Control-Allow-Headers" (Join (cp_allowHeaders c) ", "))
           "Access-Control-Max-Age" (itoa (f64_to_int (Duration_Seconds (cp_maxAge c))))) BNone)
    else inl h.

Definition dispatch (role : string) (parts : list string) : prog admin_response :=
  match parts with
  | "config" :: _ => handleConfig
  | "config-reload" :: "dry-run" :: _ => handleConfigReloadDryRun
  | "config-reload" :: _ => handleConfigReload role
  | "status" :: _ => handleStatus
  | "tiers" :: params => handleTiers role params
  | "v2" :: _ => v2_ServeHTTP role
  | _ => Ret (text_response 404)
  end.

Definition admin_route : prog admin_response :=
  let parts := GoLib.Split "/" (GoLib.Trim "/" (aq_Path r)) in
  match parts with
  | [] | "" :: _ => Ret (text_response 404)
  | "healthz" :: _ => handleHealth
  | "readyz" :: _ => handleReady
  | _ =>
      match authorize with
      | None => Ret (http_error 401)
      | Some role =>
          if (role =? "read-only")%string && negb (is_method "GET") && negb (is_method "HEAD")
          then Ret (problem 403 "read_only_token")
          else dispatch role parts
      end
  end.

Definition with_headers (h : Header) (resp : admin_response) : admin_response :=
  mkAdminResponse (ap_Status resp) (ap_Header resp ∪ h) (ap_Body resp).

Definition ServeHTTP : prog admin_response :=
  match handleCORS with
  | inr resp => Ret resp
  | inl h => call resp := admin_route in Ret (with_headers h resp)
  end.
End server.
End handlers.

(** ** Moving records to the layout of today *)

Fixpoint migrate_keys (ids : list string) : prog (result string unit) :=
  match ids with
  | [] => Do LegacyDropIndex Ret
  | id :: ids =>
      let* b := LegacyGet id in
      match b with
      | Ok None => migrate_keys ids
      | Err e => Ret (Err e)
      | Ok (Some b) =>
          let* err := SaveKey id b in
          match err with
          | Err e => Ret (Err e)
          | Ok _ =>
              let* err := LegacyDel id in
              match err with Err e => Ret (Err e) | Ok _ => migrate_keys ids end
          end
      end
  end.

Definition MigrateKeyLayout : prog (result string unit) :=
  let* ids := LegacyMembers in
  match ids with
  | Err e => Ret (Err e)
  | Ok [] => Ret (Ok ())
  | Ok ids => migrate_keys ids
  end.

(** ** Running programs *)

(** What becomes of a Redis command. *)
Inductive outcome := Done | Lost (e : string) | Refused (e : string).

Definition answer {A} (o : outcome) (a : A) : result string A :=
  match o with Done => Ok a | Lost e | Refused e => Err e end.
Definition applied {W} (o : outcome) (w w' : W) : W := match o with Refused _ => w | _ => w' end.

Definition head_outcome (os : list outcome) : outcome := match os with [] => Done | o :: _ => o end.

Record hub (St : Type) := mkHub {
  h_records : gmap string KeyRecord;
  h_index : gset string;
  h_legacy : gmap string KeyRecord;
  h_legacyIndex : gset string;
  h_tiers : St;
  h_audit : list AuditEntry;  (* the newest last *)
  h_cache : CachedTiers;
  h_cm : ConfigManager;
  h_file : File;              (* the document at cm_filePath *)
  h_sent : list controlMessage;
  h_watchers : Z;
  h_ready : bool * string;
}.
Arguments mkHub {St}.
Arguments h_records {St}.
Arguments h_index {St}.
Arguments h_legacy {St}.
Arguments h_legacyIndex {St}.
Arguments h_tiers {St}.
Arguments h_audit {St}.
Arguments h_cache {St}.
Arguments h_cm {St}.
Arguments h_file {St}.
Arguments h_sent {St}.
Arguments h_watchers {St}.
Arguments h_ready {St}.

Section exec.
Context {St : Type} `{!TierRecords St}.
Variable L : libs.

Notation hub := (hub St).

Definition with_keys (w : hub) (m : gmap string KeyRecord) (i : gset string) : hub :=
  mkHub m i (h_legacy w) (h_legacyIndex w) (h_tiers w) (h_audit w) (h_cache w) (h_cm w) (h_file w) (h_sent w)
    (h_watchers w) (h_ready w).
Definition with_legacy (w : hub) (m : gmap string KeyRecord) (i : gset string) : hub :=
  mkHub (h_records w) (h_index w) m i (h_tiers w) (h_audit w) (h_cache w) (h_cm w) (h_file w) (h_sent w)
    (h_watchers w) (h_ready w).
Definition with_tiers (w : hub) (t : St) : hub :=
  mkHub (h_records w) (h_index w) (h_legacy w) (h_legacyIndex w) t (h_audit w) (h_cache w) (h_cm w) (h_file w)
    (h_sent w) (h_watchers w) (h_ready w).
Definition with_audit (w : hub) (a : list AuditEntry) : hub :=
  mkHub (h_records w) (h_index w) (h_legacy w) (h_legacyIndex w) (h_tiers w) a (h_cache w) (h_cm w) (h_file w)
    (h_sent w) (h_watchers w) (h_ready w).
Definition with_cache (w : hub) (c : CachedTiers) : hub :=
  mkHub (h_records w) (h_index w) (h_legacy w) (h_legacyIndex w) (h_tiers w) (h_audit w) c (h_cm w) (h_file w)
    (h_sent w) (h_watchers w) (h_ready w).
Definition with_config (w : hub) (cm : ConfigManager) : hub :=
  mkHub (h_records w) (h_index w) (h_legacy w) (h_legacyIndex w) (h_tiers w) (h_audit w) (h_cache w) cm (h_file w)
    (h_sent w) (h_watchers w) (h_ready w).
Definition with_sent (w : hub) (l : list controlMessage) : hub :=
  mkHub (h_records w) (h_index w) (h_legacy w) (h_legacyIndex w) (h_tiers w) (h_audit w) (h_cache w) (h_cm w)
    (h_file w) l (h_watchers w) (h_ready w).

(** Redis trims the audit stream to about [auditMaxLen] entries at its own
    time, which is left out. *)
Definition exec (o : outcome) {B} (c : command B) (w : hub) : B * hub :=
  match c with
  | GetKey id => (answer o (h_records w !! id), w)
  | SaveKey id r => (answer o (), applied o w (with_keys w (<[id := r]> (h_records w)) ({[id]} ∪ h_index w)))
  | DropKey id => (answer o (), applied o w (with_keys w (delete id (h_records w)) (h_index w ∖ {[id]})))
  | Members => (answer o (lb_members L (h_index w)), w)
  | LegacyMembers => (answer o (lb_members L (h_legacyIndex w)), w)
  | LegacyGet id => (answer o (h_legacy w !! id), w)
  | LegacyDel id => (answer o (), applied o w (with_legacy w (delete id (h_legacy w)) (h_legacyIndex w)))
  | LegacyDropIndex => (answer o (), applied o w (with_legacy w (h_legacy w) ∅))
  | StoreGetTier p k => (answer o (tr_tier (h_tiers w) p k), w)
  | StoreSetTier p k t => (answer o (), applied o w (with_tiers w (tr_set_tier (h_tiers w) p k t)))
  | StoreDeleteTier p k => (answer o (), applied o w (with_tiers w (tr_del_tier (h_tiers w) p k)))
  | StoreSetOwner p k x => (answer o (), applied o w (with_tiers w (tr_set_owner (h_tiers w) p k x)))
  | CacheLookup p k now => (tier_hit (h_cache w) (cacheKey p k) now, w)
  | CacheGen => (cc_gen (h_cache w), w)
  | CacheStore p k gen now t => ((), with_cache w (tier_store (h_cache w) (cacheKey p k) gen now t))
  | CacheInvalidate p k => ((), with_cache w (Invalidate (h_cache w) p k))
  | ReadConfig => (Snapshot (h_cm w), w)
  | LoadFile => (match o with Done => decode L (h_file w) | _ => None end, w)
  | StoreFile =>
      match o, decode L (h_file w) with
      | Done, Some cfg => (true, with_config w (mkConfigManager (cm_filePath (h_cm w)) (Some cfg)))
      | _, _ => (false, w)
      end
  | StorePayload cfg =>
      let '(e, cm) := ReloadFromPayload (lb_ParseRequestURI L) (h_cm w) cfg in
      (bool_decide (e = None), with_config w cm)
  | Publish m => ((), with_sent w (h_sent w ++ [m]))
  | Watchers => (h_watchers w, w)
  | XAdd e =>
      (answer o (), applied o w (with_audit w (h_audit w ++
         [mkAudit (lb_stream_id L (length (h_audit w))) (ae_Time e) (ae_Actor e) (ae_Action e) (ae_Target e) (ae_Detail e)
            (ae_RequestID e)])))
  | XRevRangeN n => (answer o (take n (reverse (h_audit w))), w)
  | ReadReady => (h_ready w, w)
  end.

(** Alone: one outcome per command, [Done] when there are no more. *)
Fixpoint run {A} (p : prog A) (os : list outcome) (w : hub) : A * hub :=
  match p with
  | Ret a => (a, w)
  | Do c k => let '(b, w') := exec (head_outcome os) c w in run (k b) (tail os) w'
  end.
End exec.
