(* ===== verification/AdminProps.v ===== *)
(** * The admin API: who may change what

    Only the admin token changes anything, whatever becomes of the commands a
    handler issues. *)

From S2P Require Import Prelude Float64 GoLib Policies.
From S2P Require Import Config TtlCache Tiers Edge EdgeCache.
From S2P Require Import ConfigFile ConfigCheck ConfigAccepted HubConfig ConfigProps ControlPlane ConfigDiff AdminApi.
From Stdlib Require Import Ascii.

Local Open Scope Z_scope.

(** ** Programs that only read *)

Definition is_read {B} (c : command B) : bool :=
  match c with
  | GetKey _ | Members | LegacyMembers | LegacyGet _ | StoreGetTier _ _ | CacheLookup _ _ _ | CacheGen
  | CacheStore _ _ _ _ _ | ReadConfig | LoadFile | Watchers | XRevRangeN _ | ReadReady => true
  | _ => false
  end.

(** Whatever the commands answer. *)
Fixpoint reads {A} (p : prog A) : Prop :=
  match p with
  | Ret _ => True
  | Do c k => is_read c = true ∧ ∀ b, reads (k b)
  end.

Lemma reads_bind {A B} (p : prog A) (f : A → prog B) : reads p → (∀ a, reads (f a)) → reads (bind p f).
Proof. intros Hp Hf. induction p as [a|C c k IH]; cbn in *; [done|]. destruct Hp. split; auto. Qed.

Section readers.
Variable L : libs.
Variable s : HubServer.
Variable r : admin_request.

Lemma load_keys_reads ids group out : reads (load_keys ids group out).
Proof. revert out. induction ids as [|id ids IH]; intros out; cbn; [done|]. split; [done|]. intros [[rec|]|e]; apply IH. Qed.

Lemma listKeys_reads : reads (listKeys r).
Proof. split; [done|]. intros [ids|e]; [|done]. apply reads_bind; [apply load_keys_reads|done]. Qed.

Lemma getKey_reads id : reads (getKey id).
Proof. split; [done|]. by intros [[rec|]|e]. Qed.

Lemma listAudit_reads : reads (listAudit r).
Proof. split; [done|]. by intros [es|e]. Qed.

Lemma isAllowedPrefix_reads p : reads (isAllowedPrefix p).
Proof. by split. Qed.

Lemma tiers_GetTier_reads p k : reads (tiers_GetTier r p k).
Proof.
  split; [done|]. intros [t|]; [done|]. split; [done|]. intros g. split; [done|]. intros [t|e]; [|done].
  by destruct (t =? "")%string.
Qed.

Definition get_or_head : Prop := aq_Method r = "GET" ∨ aq_Method r = "HEAD".

Lemma not_write m : get_or_head → m ≠ "GET" → m ≠ "HEAD" → is_method r m = false.
Proof. intros [E|E] H1 H2; unfold is_method; rewrite E; by apply String.eqb_neq. Qed.

Lemma handleTiers_reads role params : get_or_head → reads (handleTiers L s r role params).
Proof.
  intros Hm. unfold handleTiers. destruct params as [|p [|k params]]; try done.
  apply reads_bind; [apply isAllowedPrefix_reads|]. intros allowed. destruct (_ || _); [done|].
  rewrite !(not_write "POST"), !(not_write "PUT"), !(not_write "DELETE") by done. destruct (is_method r "GET"); [|done].
  apply reads_bind; [apply tiers_GetTier_reads|]. by intros [t|e].
Qed.

Lemma v2_reads role : get_or_head → reads (v2_ServeHTTP L s r role).
Proof.
  intros Hm. unfold v2_ServeHTTP. destruct (v2Routes L r) eqn:E; try done;
    [exfalso|apply listKeys_reads|apply getKey_reads|exfalso..|apply listAudit_reads];
    revert E; unfold v2Routes;
    rewrite !(not_write "POST"), ?(not_write "PATCH"), ?(not_write "DELETE") by done;
    repeat case_match; congruence.
Qed.

Lemma dispatch_reads role parts : get_or_head → reads (dispatch L s r role parts).
Proof.
  intros Hm. assert (Hw : reload_method r = false)
    by (unfold reload_method; by rewrite !(not_write "POST"), !(not_write "PUT")).
  unfold dispatch.
  assert (H1 : reads (handleConfig r)).
  { unfold handleConfig. destruct (negb _); [done|]. split; [done|]. intros c. by destruct (json_ok c). }
  assert (H2 : reads (handleStatus s r)).
  { unfold handleStatus. destruct (negb _); [done|]. apply reads_bind; [by destruct (hs_control s)|]. by split. }
  assert (H3 : reads (handleConfigReload L s r role)) by (unfold handleConfigReload; by rewrite Hw).
  assert (H4 : reads (handleConfigReloadDryRun L r)) by (unfold handleConfigReloadDryRun; by rewrite Hw).
  assert (H5 := v2_reads role Hm). assert (H6 := λ ps, handleTiers_reads role ps Hm).
  repeat case_match; done || apply H6.
Qed.
End readers.

Section runs.
Context {St : Type} `{!TierRecords St}.
Variable L : libs.

Lemma exec_read o {B} (c : command B) (w : hub St) :
  is_read c = true → ∃ cache, (exec L o c w).2 = with_cache w cache.
Proof. destruct w, c; cbn; intros; try done; by eexists. Qed.

Lemma run_reads {A} (p : prog A) os (w : hub St) : reads p → ∃ cache, (run L p os w).2 = with_cache w cache.
Proof.
  revert os w. induction p as [a|B c k IH]; intros os w; cbn; [intros _; exists (h_cache w); by destruct w|].
  intros [Hc Hk]. destruct (exec_read (head_outcome os) c w Hc) as [cache Ec].
  destruct (exec L (head_outcome os) c w) as [b w']. cbn in Ec. subst w'.
  destruct (IH b (tail os) (with_cache w cache) (Hk b)) as [cache' E]. exists cache'. rewrite E. by destruct w.
Qed.

Lemma run_bind_Ret {A B} (p : prog A) (f : A → B) os (w : hub St) :
  run L (call a := p in Ret (f a)) os w = (f (run L p os w).1, (run L p os w).2).
Proof.
  revert os w. induction p as [a|C c k IH]; intros os w; cbn; [done|].
  destruct (exec L (head_outcome os) c w) as [b w']. apply IH.
Qed.

(** What a client without a token may learn. *)
Definition public_body (b : admin_body) : Prop :=
  match b with BNone | BText | BProblem _ | BHealth _ _ => True | _ => False end.

Lemma public_with_headers h resp : public_body (ap_Body resp) → public_body (ap_Body (with_headers h resp)).
Proof. done. Qed.

(** C10: (who may change what) Whatever becomes of its commands, a request
    without the admin token leaves everything but the hub's own cache of tiers
    as it was: key records, tiers, owners, the configuration, what edges are
    told, the audit stream.  Without any token it changes nothing at all and
    is told no key, tier, configuration or audit entry. *)
Theorem admin_only (s : HubServer) (r : admin_request) (os : list outcome) (w : hub St) :
  authorize s r ≠ Some "admin" →
  (∃ cache, (run L (ServeHTTP L s r) os w).2 = with_cache w cache) ∧
  (authorize s r = None →
   (run L (ServeHTTP L s r) os w).2 = w ∧ public_body (ap_Body (run L (ServeHTTP L s r) os w).1)).
Proof.
  intros Ha. unfold ServeHTTP. destruct (handleCORS s r) as [h|resp] eqn:Ec.
  2: { split; [exists (h_cache w); by destruct w|]. intros _. split; [done|]. revert Ec. unfold handleCORS.
       repeat case_match; intros [= <-]; done. }
  rewrite run_bind_Ret. cbn [fst snd with_headers ap_Body].
  assert (Hpub : ∀ p : prog admin_response, (∀ os w, (run L p os w).2 = w ∧ public_body (ap_Body (run L p os w).1)) →
    (∃ cache, (run L p os w).2 = with_cache w cache) ∧
    (authorize s r = None → (run L p os w).2 = w ∧ public_body (ap_Body (run L p os w).1))).
  { intros p Hp. split; [|by intros]. exists (h_cache w). destruct (Hp os w) as [-> _]. by destruct w. }
  assert (Hhealth : ∀ os w, (run L (handleHealth r) os w).2 = w ∧ public_body (ap_Body (run L (handleHealth r) os w).1)).
  { intros. unfold handleHealth. by destruct (negb _). }
  assert (Hready : ∀ os w, (run L (handleReady r) os w).2 = w ∧ public_body (ap_Body (run L (handleReady r) os w).1)).
  { intros os' w'. unfold handleReady. destruct (negb _); [done|]. cbn. by destruct (negb (h_ready w').1). }
  assert (Hrest : ∀ parts, let p := match authorize s r with
      | None => Ret (http_error 401)
      | Some role => if (role =? "read-only")%string && negb (is_method r "GET") && negb (is_method r "HEAD")
                     then Ret (problem 403 "read_only_token") else dispatch L s r role parts end in
    (∃ cache, (run L p os w).2 = with_cache w cache) ∧
    (authorize s r = None → (run L p os w).2 = w ∧ public_body (ap_Body (run L p os w).1))).
  { intros parts p. unfold p. destruct (authorize s r) as [role|] eqn:Er; [|by apply Hpub].
    split; [|done]. apply run_reads.
    assert (role = "read-only") as ->.
    { revert Er Ha. unfold authorize. repeat case_match; congruence. }
    destruct (negb (is_method r "GET")) eqn:E1; [destruct (negb (is_method r "HEAD")) eqn:E2; [done|]|];
      cbn [String.eqb Ascii.eqb Bool.eqb andb]; apply dispatch_reads.
    - right. by apply negb_false_iff, String.eqb_eq in E2.
    - left. by apply negb_false_iff, String.eqb_eq in E1. }
  unfold admin_route. destruct (GoLib.Split "/" (GoLib.Trim "/" (aq_Path r))) as [|x parts]; [by apply Hpub|].
  repeat case_match; try done; first [by apply Hpub|by apply (Hrest (x :: parts))|apply Hrest].
Qed.
End runs.

(** ** Examples *)

Module Example_admin.
(** A hash without collisions: the bits of a string. *)
Definition bit (b : bool) : ascii := if b then "1" else "0".
Fixpoint hash (s : string) : string :=
  match s with
  | EmptyString => ""
  | String (Ascii b0 b1 b2 b3 b4 b5 b6 b7) s =>
      String (bit b0) (String (bit b1) (String (bit b2) (String (bit b3) (String (bit b4) (String (bit b5)
        (String (bit b6) (String (bit b7) (hash s))))))))
  end.

Lemma bit_inj b b' : bit b = bit b' → b = b'.
Proof. by destruct b, b'. Qed.

Lemma bit_space b : is_space (bit b) = false.
Proof. by destruct b. Qed.

Lemma hash_inj : Inj (=) (=) hash.
Proof.
  intros s. induction s as [|[] s IH]; intros [|[] t] E; try done. cbn in E. injection E as E0 E1 E2 E3 E4 E5 E6 E7 E.
  apply bit_inj in E0, E1, E2, E3, E4, E5, E6, E7. apply IH in E. by subst.
Qed.

Lemma hash_chars s : forallb (λ c, negb (is_space c)) (chars (hash s)) = true.
Proof. induction s as [|[] s IH]; [done|]. cbn [hash chars forallb]. by rewrite IH, !bit_space. Qed.

Definition L : libs :=
  mkLibs hash sample_parse sample_parse (λ _, true) Example_diff.same (λ x, x) 307 map_to_list map_to_list map_to_list
    map_to_list map_to_list elements (λ n, itoa (Z.of_nat n)).

Definition cors : corsPolicy := default_cors.
Definition server : HubServer := mkHubServer true "root" "look" true "h1" cors (λ _, true).
Definition start : hub TierManager :=
  mkHub ∅ ∅ ∅ ∅ (mkTierManager ∅) [] (NewCachedTiers (30 * Second)) (mkConfigManager "gate.yaml" (Some (Compile sample_file)))
    sample_file [] 0 (true, "").

Definition request (token method path : string) (body : option keyRequest) (n : nat) : admin_request :=
  mkAdminRequest method path path (header_set ∅ "Authorization" ("Bearer " +:+ token)) "" "" 1 body None ReloadBlank
    (Z.of_nat n) ("id" +:+ itoa (Z.of_nat n)) ("r" +:+ itoa (Z.of_nat n)) "".

Definition create : admin_request :=
  request "root" "POST" "/v2/keys" (Some (mkKeyRequest (Some "v1") (Some "free") (Some "acme") None)) 0.
Definition rotate : admin_request := request "root" "POST" "/v2/keys/id0/rotate" None 1.
End Example_admin.

Lemma admin_only_witness :
  let r := Example_admin.request "look" "DELETE" "/v2/keys/id0" None 3 in
  authorize Example_admin.server r = Some "read-only" ∧
  ∃ cache, (run Example_admin.L (ServeHTTP Example_admin.L Example_admin.server r) [] Example_admin.start).2 =
           with_cache Example_admin.start cache.
Proof.
  split; [vm_compute; reflexivity|].
  apply (admin_only Example_admin.L Example_admin.server (Example_admin.request "look" "DELETE" "/v2/keys/id0" None 3) []
           Example_admin.start). vm_compute. discriminate.
Defined.
