(* ===== verification/KeyLife.v ===== *)
(** * The life of an issued key ([packages/hub/keys.go])

    Requests served one after the other, with no command failing: every
    secret the hub has issued resolves, in the tier store and in what edges
    have been told, to the tier of its record as long as it is the record's
    secret, and to nothing after it was rotated or revoked. *)

From S2P Require Import Prelude Float64 GoLib Policies.
From S2P Require Import Config TtlCache Tiers Edge EdgeCache.
From S2P Require Import ConfigFile ConfigCheck ConfigAccepted HubConfig ConfigProps ControlPlane ConfigDiff.
From S2P Require Import AdminApi AdminProps.
From Stdlib Require Import Ascii.

Local Open Scope Z_scope.

(** ** Names *)

Lemma trim_left_head s : match trim_left s with String c _ => is_space c = false | EmptyString => True end.
Proof. induction s as [|c s IH]; cbn; [done|]. by destruct (is_space c) eqn:E. Qed.

Lemma trim_right_head s : match trim_right s with String c _ => is_space c = false | EmptyString => True end →
  trim_left (trim_right s) = trim_right s.
Proof. destruct (trim_right s) as [|c t]; [done|]. cbn. by intros ->. Qed.

Lemma trim_right_first c s : is_space c = false → ∃ t, trim_right (String c s) = String c t.
Proof. intros H. cbn. destruct (trim_right s); [rewrite H|]; by eexists. Qed.

Lemma trim_right_idemp s : trim_right (trim_right s) = trim_right s.
Proof.
  induction s as [|c s IH]; [done|]. cbn. destruct (trim_right s) as [|d t] eqn:E.
  - destruct (is_space c) eqn:Ec; [done|]. cbn. by rewrite Ec.
  - change (trim_right (String c (String d t))) with
      (match trim_right (String d t) with
       | EmptyString => if is_space c then EmptyString else String c EmptyString
       | r => String c r end). by rewrite IH.
Qed.

Lemma TrimSpace_idemp s : TrimSpace (TrimSpace s) = TrimSpace s.
Proof.
  unfold TrimSpace. assert (H := trim_left_head s). destruct (trim_left s) as [|c t]; [done|].
  destruct (trim_right_first c t H) as [u E].
  rewrite trim_right_head; [apply trim_right_idemp|]. by rewrite E.
Qed.

Lemma deref_trim p : TrimSpace (deref p) = deref p.
Proof. destruct p; [apply TrimSpace_idemp|done]. Qed.

(** A segment has none of the characters that separate fields of keys. *)
Definition segment_char (c : ascii) : bool := negb (c =? ":")%char && negb (c =? "|")%char.

Lemma segment_chars s : segmentRe s = true → ¬ has_char ":" s ∧ ¬ has_char "|" s.
Proof.
  intros H. apply (re_match_all segment_char) in H as [_ H]; [|intros c; by_chars c..].
  rewrite forallb_forall in H. split; intros Hin%list_elem_of_In%H; done.
Qed.

Section decoded.
Variable L : libs.

Lemma decode_file f cfg : decode L f = Some cfg → file_ok (lb_url_Parse L) f ∧ cfg = Compile f.
Proof.
  unfold decode, decodeAndValidateConfig, ParseAndCompile.
  destruct (validate _ _ _ _ f) eqn:Ev; [|done]. destruct (ValidateGatewayConfig _ _); [done|]. intros [= <-].
  split; [|done]. by eapply validate_file_ok.
Qed.

Lemma decoded_prefix f cfg p : decode L f = Some cfg → p ∈ gc_Prefixes cfg →
  TrimSpace (px_Prefix p) = px_Prefix p ∧ px_Prefix p ≠ "" ∧ ¬ has_char ":" (px_Prefix p) ∧ ¬ has_char "|" (px_Prefix p).
Proof.
  intros [Hok ->]%decode_file Hp. apply compiled_prefix in Hp as (s & Hs & ->).
  pose proof (fk_services _ _ Hok) as Hsv. rewrite Forall_forall in Hsv. specialize (Hsv s Hs). cbn [px_Prefix prefix_of].
  pose proof (ok_plain_group _ _ Hsv) as Hpl. destruct (ok_segments _ _ Hsv) as (g & E & Hg).
  split; [by apply plain_TrimSpace|]. split; [apply Hpl|]. unfold Service_group. rewrite E. by apply segment_chars.
Qed.

(** Accepted configurations name things once. *)
Lemma decoded_named f cfg : decode L f = Some cfg → named_once cfg.
Proof.
  intros Hd. pose proof (decode_file _ _ Hd) as [Hok ->]. split.
  - rewrite Compile_prefixes, <- list_fmap_compose. rewrite (list_fmap_ext _ id), list_fmap_id; [|done].
    apply groups_of_NoDup.
  - intros p (s & Hs & ->)%compiled_prefix. cbn [px_Services prefix_of]. rewrite compiled_names.
    apply in_group_names_NoDup, (fk_names _ _ Hok).
  - intros p Hp. by destruct (decoded_prefix _ _ _ Hd Hp) as (_ & ? & _ & ?).
Qed.
End decoded.

(** ** Programs without failures *)

(** What a program may return. *)
Fixpoint rets {A} (P : A → Prop) (p : prog A) : Prop :=
  match p with Ret a => P a | Do c k => ∀ b, rets P (k b) end.

Lemma rets_bind {A B} (P : B → Prop) (p : prog A) (f : A → prog B) : (∀ a, rets P (f a)) → rets P (bind p f).
Proof. intros Hf. induction p as [a|C c k IH]; cbn; auto. Qed.

Section run_alone.
Context {St : Type} `{!TierRecords St}.
Variable L : libs.

Lemma run_rets {A} (P : A → Prop) (p : prog A) os (w : hub St) : rets P p → P (run L p os w).1.
Proof.
  revert os w. induction p as [a|C c k IH]; intros os w; cbn; [done|]. intros H.
  destruct (exec L (head_outcome os) c w) as [b w']. apply IH, H.
Qed.

Lemma run_bind {A B} (p : prog A) (f : A → prog B) (w : hub St) :
  run L (bind p f) [] w = let '(a, w') := run L p [] w in run L (f a) [] w'.
Proof.
  revert w. induction p as [a|C c k IH]; intros w; cbn; [done|]. destruct (exec L Done c w) as [b w']. apply IH.
Qed.

Variable s : HubServer.

(** What [assign] does to the tier store, and what it tells the edges. *)
Definition assigned (T : St) (g h t : string) (o : option string) : St :=
  let T' := if (t =? "")%string then tr_del_tier T g h else tr_set_tier T g h t in
  match (if (t =? "")%string then Some "" else o) with Some o => tr_set_owner T' g h o | None => T' end.
Definition told (g h t : string) : list controlMessage :=
  if hs_control s then [tier_message (hs_origin s) g h t] else [].

Definition after_assign (w : hub St) (g h t : string) (o : option string) : hub St :=
  with_sent (with_tiers w (assigned (h_tiers w) g h t o)) (h_sent w ++ told g h t).

Lemma run_assign g h t o (w : hub St) :
  ∃ c, run L (assign s g h t o) [] w = (Ok (), with_cache (after_assign w g h t o) c).
Proof.
  unfold assign, after_assign, assigned, told, publishTier. destruct w, (t =? "")%string, o, (hs_control s);
    eexists; cbn; unfold with_sent, with_tiers, with_cache; cbn; rewrite ?app_nil_r; reflexivity.
Qed.

Lemma run_audit r role action target detail (w : hub St) :
  ∃ a, run L (audit s r role action target detail) [] w = ((), with_audit w a).
Proof. unfold audit. destruct w, (hs_redis s); by eexists. Qed.

Lemma run_allowed p (w : hub St) :
  run L (isAllowedPrefix p) [] w = (bool_decide (is_Some (cm_active (h_cm w) ≫= λ cfg, FindPrefix cfg p)), w).
Proof. done. Qed.

Lemma run_defined p t (w : hub St) : ∃ b, run L (tierDefinedInPrefix p t) [] w = (b, w) ∧
  (b = true → t ≠ "" ∧ is_Some (cm_active (h_cm w) ≫= λ cfg, FindPrefix cfg p)).
Proof.
  unfold tierDefinedInPrefix. destruct (String.eqb_spec t "") as [->|Ht]; [by eexists|]. eexists. split; [done|].
  cbn. unfold Snapshot. destruct (cm_active (h_cm w)) as [cfg|]; cbn; [|done]. destruct (FindPrefix cfg p); [|done].
  intros _. split; [done|by eexists].
Qed.
End run_alone.

(** ** What edges are told last about a key *)

Definition tell (g h : string) (acc : string) (m : controlMessage) : string :=
  match mg_Config m, mg_Tier m with
  | None, Some t => if decide (tg_Prefix t = g ∧ tg_ApiKey t = h) then tg_TierId t else acc
  | _, _ => acc
  end.
Definition last_told (l : list controlMessage) (g h : string) : string := foldl (tell g h) "" l.

Lemma last_told_assign s l g h t g' h' : hs_control s = true →
  last_told (l ++ told s g h t) g' h' = if decide (g' = g ∧ h' = h) then t else last_told l g' h'.
Proof.
  intros Hc. unfold last_told, told. rewrite Hc, foldl_app. cbn. unfold tell at 1. cbn.
  destruct (decide (g' = g ∧ h' = h)) as [[-> ->]|Hn].
  - by rewrite decide_True.
  - rewrite decide_False; [done|]. intros [-> ->]. by apply Hn.
Qed.

Section store.
Context {St : Type} `{!TierRecords St} `{!TierRecordsLaws St}.

Lemma tier_assigned (T : St) g h t o g' h' : tr_key g h → tr_key g' h' → TrimSpace t = t →
  tr_tier (assigned T g h t o) g' h' = if decide (g' = g ∧ h' = h) then t else tr_tier T g' h'.
Proof using All.
  intros Hk Hk' Ht. unfold assigned. destruct (String.eqb_spec t "") as [->|Hne].
  - rewrite tr_tier_frame. by apply tr_tier_del.
  - destruct o; rewrite ?tr_tier_frame; by apply tr_tier_set.
Qed.

Lemma owner_assigned (T : St) g h t o g' h' : tr_key g h → tr_key g' h' → t ≠ "" →
  tr_owner (assigned T g h t (Some o)) g' h' = if decide (g' = g ∧ h' = h) then o else tr_owner T g' h'.
Proof using All.
  intros Hk Hk' Ht. unfold assigned. apply String.eqb_neq in Ht. rewrite Ht, tr_owner_set by done.
  by rewrite tr_owner_frame.
Qed.

Lemma owner_assigned_ne (T : St) g h t o g' h' : tr_key g h → tr_key g' h' → h' ≠ h →
  tr_owner (assigned T g h t o) g' h' = tr_owner T g' h'.
Proof using All.
  intros Hk Hk' Hne. unfold assigned. assert (Hd : ¬ (g' = g ∧ h' = h)) by (by intros [_ ?]).
  destruct (t =? "")%string, o; rewrite ?tr_owner_set, ?decide_False, ?tr_owner_frame, ?tr_owner_del by done; done.
Qed.
End store.

(** ** The invariant *)

(** An issued secret: the id of its key, the group and the hash. *)
Notation issue := (string * string * string)%type.

Section life.
Context {St : Type} `{!TierRecords St} `{!TierRecordsLaws St}.
Variable s : HubServer.

(** The record a secret belongs to resolves; any other secret does not. *)
Record alive (T : St) (rec : KeyRecord) : Prop := {
  al_name : kr_Tier rec ≠ "" ∧ TrimSpace (kr_Tier rec) = kr_Tier rec;
  al_tier : tr_tier T (kr_Group rec) (kr_Hash rec) = kr_Tier rec;
  al_owner : tr_owner T (kr_Group rec) (kr_Hash rec) = kr_Owner rec;
}.

Record kinv (issued : list issue) (m : gmap string KeyRecord) (T : St) (l : list controlMessage) : Prop := {
  ki_key : ∀ id g h, (id, g, h) ∈ issued → tr_key g h;
  ki_one : ∀ id g h id' g', (id, g, h) ∈ issued → (id', g', h) ∈ issued → id = id' ∧ g = g';
  ki_rec : ∀ id rec, m !! id = Some rec → kr_ID rec = id ∧ (id, kr_Group rec, kr_Hash rec) ∈ issued ∧ alive T rec;
  ki_dead : ∀ id g h, (id, g, h) ∈ issued → (∀ rec, m !! id = Some rec → kr_Hash rec ≠ h) → tr_tier T g h = "";
  ki_told : hs_control s = true → ∀ id g h, (id, g, h) ∈ issued → last_told l g h = tr_tier T g h;
}.

Lemma alive_other T rec g h t o : tr_key g h → tr_key (kr_Group rec) (kr_Hash rec) → TrimSpace t = t →
  kr_Hash rec ≠ h → alive T rec → alive (assigned T g h t o) rec.
Proof using All.
  intros Hk Hk' Ht Hne [Hn Hti Ho]. split; [done|..].
  - rewrite tier_assigned by done. rewrite decide_False; [done|]. by intros [_ ?].
  - by rewrite owner_assigned_ne.
Qed.

Lemma alive_assigned T rec : tr_key (kr_Group rec) (kr_Hash rec) →
  kr_Tier rec ≠ "" → TrimSpace (kr_Tier rec) = kr_Tier rec →
  alive (assigned T (kr_Group rec) (kr_Hash rec) (kr_Tier rec) (Some (kr_Owner rec))) rec.
Proof using All.
  intros Hk Hne Ht. split; [done|..].
  - rewrite tier_assigned by done. by rewrite decide_True.
  - rewrite owner_assigned by done. by rewrite decide_True.
Qed.

(** A new secret for a key that has none. *)
Lemma kinv_issue issued m T l rec : kinv issued m T l →
  tr_key (kr_Group rec) (kr_Hash rec) → kr_Tier rec ≠ "" → TrimSpace (kr_Tier rec) = kr_Tier rec →
  (∀ id g, (id, g, kr_Hash rec) ∉ issued) → m !! kr_ID rec = None →
  kinv ((kr_ID rec, kr_Group rec, kr_Hash rec) :: issued) (<[kr_ID rec := rec]> m)
    (assigned T (kr_Group rec) (kr_Hash rec) (kr_Tier rec) (Some (kr_Owner rec)))
    (l ++ told s (kr_Group rec) (kr_Hash rec) (kr_Tier rec)).
Proof using All.
  intros [Hkey Hone Hrec Hdead Htold] Hk Hne Ht Hf Hid. split.
  - intros id g h [[= -> -> ->]|H]%elem_of_cons; [done|eauto].
  - intros id g h id' g' [[= -> -> ->]|H]%elem_of_cons [E|H']%elem_of_cons; simplify_eq; try done.
    + by destruct (Hf id' g').
    + by destruct (Hf id g).
    + eauto.
  - intros id rec' [[<- <-]|[Hi H]]%lookup_insert_Some.
    + split; [done|]. split; [by left|]. by apply alive_assigned.
    + destruct (Hrec _ _ H) as (? & Hin & ?). split; [done|]. split; [by right|].
      apply alive_other; [done|eauto|done| |done]. intros E. apply (Hf id (kr_Group rec')). by rewrite <- E.
  - intros id g h [[= -> -> ->]|H]%elem_of_cons Hnone.
    + exfalso. apply (Hnone rec); [|done]. by rewrite lookup_insert_eq.
    + rewrite tier_assigned by eauto. rewrite decide_False; [|intros [_ ->]; by apply (Hf id g)].
      apply (Hdead id); [done|]. intros rec' Hr. apply Hnone. rewrite lookup_insert_ne; [done|]. congruence.
  - intros Hc id g h [[= -> -> ->]|H]%elem_of_cons; rewrite last_told_assign, tier_assigned by eauto;
      [by rewrite !decide_True|]. case_decide; [done|]. eauto.
Qed.

(** The current secret of a key is assigned again, with new labels. *)
Lemma kinv_relabel issued m T l old rec : kinv issued m T l → m !! kr_ID rec = Some old →
  kr_Group rec = kr_Group old → kr_Hash rec = kr_Hash old →
  kr_Tier rec ≠ "" → TrimSpace (kr_Tier rec) = kr_Tier rec →
  kinv issued (<[kr_ID rec := rec]> m)
    (assigned T (kr_Group rec) (kr_Hash rec) (kr_Tier rec) (Some (kr_Owner rec)))
    (l ++ told s (kr_Group rec) (kr_Hash rec) (kr_Tier rec)).
Proof using All.
  intros [Hkey Hone Hrec Hdead Htold] Hold Eg Eh Hne Ht.
  destruct (Hrec _ _ Hold) as (Eid & Hin & Hal). rewrite <- Eg, <- Eh in Hin. assert (Hk := Hkey _ _ _ Hin).
  split; [done|done|..].
  - intros id rec' [[<- <-]|[Hi H]]%lookup_insert_Some.
    + split; [done|]. split; [done|]. by apply alive_assigned.
    + destruct (Hrec _ _ H) as (? & Hin' & ?). split; [done|]. split; [done|].
      apply alive_other; [done|eauto|done| |done]. intros E. rewrite E in Hin'.
      destruct (Hone _ _ _ _ _ Hin Hin') as [? _]. congruence.
  - intros id g h H Hnone. rewrite tier_assigned by eauto. rewrite decide_False.
    + apply (Hdead id); [done|]. intros rec' Hr. destruct (decide (id = kr_ID rec)) as [->|Hi].
      * simplify_eq. rewrite <- Eh. apply Hnone. by rewrite lookup_insert_eq.
      * apply Hnone. by rewrite lookup_insert_ne.
    + intros [-> ->]. destruct (Hone _ _ _ _ _ Hin H) as [<- _]. apply (Hnone rec); [|done]. by rewrite lookup_insert_eq.
  - intros Hc id g h H. rewrite last_told_assign, tier_assigned by eauto. case_decide; [done|]. eauto.
Qed.

(** A name alone. *)
Lemma kinv_rename issued m T l old rec : kinv issued m T l → m !! kr_ID rec = Some old →
  kr_Group rec = kr_Group old → kr_Hash rec = kr_Hash old → kr_Tier rec = kr_Tier old → kr_Owner rec = kr_Owner old →
  kinv issued (<[kr_ID rec := rec]> m) T l.
Proof using Type.
  intros [Hkey Hone Hrec Hdead Htold] Hold Eg Eh Et Eo. destruct (Hrec _ _ Hold) as (Eid & Hin & [Hn Hti Ho]).
  split; [done|done|..|done].
  - intros id rec' [[<- <-]|[Hi H]]%lookup_insert_Some; [|eauto].
    split; [done|]. split; [congruence|]. split; congruence.
  - intros id g h H Hnone. apply (Hdead id); [done|]. intros rec' Hr.
    destruct (decide (id = kr_ID rec)) as [->|Hi].
    + simplify_eq. rewrite <- Eh. apply Hnone. by rewrite lookup_insert_eq.
    + apply Hnone. by rewrite lookup_insert_ne.
Qed.

(** A secret that is no record's is revoked, or its key is dropped with it. *)
Lemma kinv_revoke issued m T l id g h : kinv issued m T l → (id, g, h) ∈ issued →
  (∀ rec, m !! id = Some rec → kr_Hash rec = h) →
  kinv issued (delete id m) (assigned T g h "" None) (l ++ told s g h "").
Proof using All.
  intros [Hkey Hone Hrec Hdead Htold] Hin Hcur. assert (Hk := Hkey _ _ _ Hin). split; [done|done|..].
  - intros id' rec' [Hi H]%lookup_delete_Some. destruct (Hrec _ _ H) as (? & Hin' & ?). split; [done|]. split; [done|].
    apply alive_other; [done|eauto|done| |done]. intros E. rewrite E in Hin'.
    destruct (Hone _ _ _ _ _ Hin Hin') as [? _]. congruence.
  - intros id' g' h' H Hnone. rewrite tier_assigned by eauto. case_decide as Hd; [done|].
    apply (Hdead id'); [done|]. intros rec' Hr Eh. destruct (decide (id' = id)) as [->|Hi].
    + apply Hcur in Hr. assert (h' = h) as -> by congruence. destruct (Hone _ _ _ _ _ Hin H) as [_ <-]. by apply Hd.
    + apply (Hnone rec'); [|done]. by rewrite lookup_delete_ne.
  - intros Hc id' g' h' H. rewrite last_told_assign, tier_assigned by eauto. case_decide; [done|]. eauto.
Qed.

(** A secret nobody was issued. *)
Lemma kinv_operator issued m T l g h t : kinv issued m T l → tr_key g h → TrimSpace t = t →
  (∀ id g', (id, g', h) ∉ issued) → kinv issued m (assigned T g h t None) (l ++ told s g h t).
Proof using All.
  intros [Hkey Hone Hrec Hdead Htold] Hk Ht Hf.
  assert (Hne : ∀ id g' h', (id, g', h') ∈ issued → ¬ (g' = g ∧ h' = h)) by (intros id g' h' H [-> ->]; by apply (Hf id g)).
  split; [done|done|..].
  - intros id rec H. destruct (Hrec _ _ H) as (? & Hin & ?). split; [done|]. split; [done|].
    apply alive_other; [done|eauto|done| |done]. intros E. apply (Hf id (kr_Group rec)). by rewrite <- E.
  - intros id g' h' H Hnone. rewrite tier_assigned by eauto. rewrite decide_False; eauto.
  - intros Hc id g' h' H. rewrite last_told_assign, tier_assigned by eauto. rewrite !decide_False; eauto.
Qed.

(** Only what resolves matters of the store. *)
Lemma kinv_obs issued m T T' l l' :
  (∀ id g h, (id, g, h) ∈ issued → tr_tier T' g h = tr_tier T g h ∧ tr_owner T' g h = tr_owner T g h ∧
     (hs_control s = true → last_told l' g h = last_told l g h)) →
  kinv issued m T l → kinv issued m T' l'.
Proof using Type.
  intros Ho [Hkey Hone Hrec Hdead Htold]. split; [done|done|..].
  - intros id rec H. destruct (Hrec _ _ H) as (? & Hin & [? ? ?]). destruct (Ho _ _ _ Hin) as (E1 & E2 & _).
    split; [done|]. split; [done|]. split; congruence.
  - intros id g h H Hn. destruct (Ho _ _ _ H) as (-> & _). eauto.
  - intros Hc id g h H. destruct (Ho _ _ _ H) as (-> & _ & ->); eauto.
Qed.

(** A rotation: a new secret for a key, and the old one revoked. *)
Lemma kinv_rotate issued m T l old rec : kinv issued m T l → m !! kr_ID rec = Some old →
  kr_Group rec = kr_Group old → kr_Tier rec = kr_Tier old →
  tr_key (kr_Group rec) (kr_Hash rec) → (∀ id g, (id, g, kr_Hash rec) ∉ issued) →
  kinv ((kr_ID rec, kr_Group rec, kr_Hash rec) :: issued) (<[kr_ID rec := rec]> m)
    (assigned (assigned T (kr_Group rec) (kr_Hash rec) (kr_Tier rec) (Some (kr_Owner rec))) (kr_Group rec) (kr_Hash old) "" None)
    ((l ++ told s (kr_Group rec) (kr_Hash rec) (kr_Tier rec)) ++ told s (kr_Group rec) (kr_Hash old) "").
Proof using All.
  intros Hinv Hold Eg Et Hk Hf. destruct (ki_rec _ _ _ _ Hinv _ _ Hold) as (Eid & Hin & [[Hne Htr] _ _]).
  rewrite <- Eg in Hin. rewrite <- Et in Hne, Htr. assert (Hk0 := ki_key _ _ _ _ Hinv _ _ _ Hin).
  assert (Hh : kr_Hash rec ≠ kr_Hash old) by (intros E; rewrite <- E in Hin; by apply Hf in Hin).
  assert (Hrev : kinv issued (delete (kr_ID rec) m) (assigned T (kr_Group rec) (kr_Hash old) "" None)
                   (l ++ told s (kr_Group rec) (kr_Hash old) "")).
  { eapply kinv_revoke; [done|done|]. intros rec' Hr. congruence. }
  apply (kinv_issue _ _ _ _ rec) in Hrev; [|done..|apply lookup_delete_eq]. rewrite insert_delete_eq in Hrev.
  revert Hrev. apply kinv_obs. intros id g h H.
  assert (Hkg : tr_key g h) by (apply elem_of_cons in H as [[= -> -> ->]|H]; [done|by eapply ki_key]).
  split_and!.
  - rewrite !tier_assigned by done. repeat case_decide; naive_solver.
  - destruct (decide (h = kr_Hash old)) as [->|Hne0].
    + rewrite (owner_assigned_ne _ _ (kr_Hash rec)) by done. unfold assigned at 1 3. cbn.
      rewrite !tr_owner_set by done. case_decide; [done|]. by rewrite !tr_owner_del, owner_assigned_ne.
    + rewrite (owner_assigned_ne _ _ (kr_Hash old)), !owner_assigned by done. case_decide; [done|].
      by rewrite owner_assigned_ne.
  - intros Hc. rewrite !last_told_assign by done. repeat case_decide; naive_solver.
Qed.
End life.

(** ** Requests *)

Section serve.
Context {St : Type} `{!TierRecords St} `{!TierRecordsLaws St}.
Variable L : libs.
Variable s : HubServer.
Hypothesis keys_apart : ∀ f cfg p x,
  decode L f = Some cfg → p ∈ gc_Prefixes cfg → tr_key (px_Prefix p) (lb_Hash L x).

Definition cfg_ok (cm : ConfigManager) : Prop :=
  ∀ cfg p x, cm_active cm = Some cfg → p ∈ gc_Prefixes cfg → tr_key (px_Prefix p) (lb_Hash L x).

Definition winv (issued : list issue) (w : hub St) : Prop :=
  kinv s issued (h_records w) (h_tiers w) (h_sent w) ∧ cfg_ok (h_cm w) ∧
  ∀ id g h x, (id, g, h) ∈ issued → tr_key g (lb_Hash L x).

(** The secrets a response hands out. *)
Definition issued_by (resp : admin_response) : list issue :=
  match ap_Body resp with
  | BIssued rec secret => [(kr_ID rec, kr_Group rec, lb_Hash L secret)]
  | _ => []
  end.

Section request.
Variable r : admin_request.

(** After a request. *)
Definition served (issued : list issue) (w : hub St) (x : admin_response * hub St) : Prop :=
  winv (issued_by x.1 ++ issued) x.2 ∧ dom (h_records x.2) ⊆ {[aq_RandomID r]} ∪ dom (h_records w).

(** The random strings of a request are new. *)
Definition fresh (issued : list issue) (w : hub St) : Prop :=
  (∀ id g id', (id, g, lb_Hash L (keys_Rotate id' (aq_Random r))) ∉ issued) ∧ h_records w !! aq_RandomID r = None.

Lemma found_key cm g x : cfg_ok cm → TrimSpace g = g → is_Some (cm_active cm ≫= λ cfg, FindPrefix cfg g) →
  tr_key g (lb_Hash L x).
Proof using Type.
  intros Hc Hg [p Hp]. destruct (cm_active cm) as [cfg|] eqn:E; cbn in Hp; [|done]. unfold FindPrefix in Hp.
  rewrite Hg in Hp. destruct (g =? "")%string; [done|]. apply find_some in Hp as [Hp <-%String.eqb_eq].
  apply (Hc cfg); [done|]. by apply list_elem_of_In.
Qed.

Lemma served_same issued w resp w' :
  issued_by resp = [] → winv issued w' → h_records w' = h_records w → served issued w (resp, w').
Proof using Type. intros E Hw Er. split; cbn; [by rewrite E|]. rewrite Er. apply union_subseteq_r. Qed.

Lemma dom_insert_known (m : gmap string KeyRecord) id rec old x :
  m !! id = Some old → dom (<[id := rec]> m) ⊆ {[x]} ∪ dom m.
Proof using Type. intros H. rewrite dom_insert_lookup_L by done. apply union_subseteq_r. Qed.

#[local] Arguments assign : simpl never.
#[local] Arguments audit : simpl never.
#[local] Arguments deref : simpl never.
#[local] Arguments isAllowedPrefix : simpl never.
#[local] Arguments tierDefinedInPrefix : simpl never.
#[local] Arguments keys_Rotate : simpl never.

(** Run the next call of a handler. *)
Ltac next_assign :=
  rewrite run_bind;
  match goal with |- context [run ?L (assign ?s ?g ?h ?t ?o) [] ?w] =>
    let c := fresh "c" in let H := fresh "Hc" in destruct (run_assign L s g h t o w) as [c H]; rewrite H; clear H end.
Ltac next_audit :=
  rewrite run_bind;
  match goal with |- context [run ?L (audit ?s ?r ?ro ?a ?t ?d) [] ?w] =>
    let c := fresh "a" in let H := fresh "Ha" in destruct (run_audit L s r ro a t d w) as [c H]; rewrite H; clear H end.
Ltac next_defined :=
  rewrite run_bind;
  match goal with |- context [run ?L (tierDefinedInPrefix ?p ?t) [] ?w] =>
    let b := fresh "b" in let H := fresh "Hdef" in let E := fresh "E" in
    destruct (run_defined L p t w) as (b & E & H); rewrite E; clear E; destruct b; cbn [negb]; [destruct (H eq_refl) as [? ?]|] end.

Lemma create_served issued w role : winv issued w → fresh issued w → served issued w (run L (createKey L s r role) [] w).
Proof using All.
  intros (Hk & Hcfg & Hgr) [Hf Hid]. unfold createKey. destruct (decodeKeyRequest r) as [req|]; [|by apply served_same].
  rewrite run_bind, run_allowed. case_bool_decide as Hall; cbn [negb]; [|by apply served_same].
  next_defined; [|by apply served_same]. cbn [keys_New run exec head_outcome answer applied tail].
  set (rec := mkKey _ _ _ _ _ _ _ _). next_assign. cbn [fst]. next_audit. cbn [run].
  assert (Hkey : ∀ x, tr_key (kr_Group rec) (lb_Hash L x)).
  { intros x. apply (found_key _ _ _ Hcfg); [apply deref_trim|done]. }
  split; [split_and!|]; cbn [fst snd issued_by ap_Body json_response app].
  - apply (kinv_issue s _ _ _ _ rec Hk); [apply Hkey|done|apply deref_trim|intros; apply Hf|done].
  - done.
  - intros id g h x [[= -> -> ->]|?]%elem_of_cons; [apply Hkey|eauto].
  - cbn. rewrite dom_insert. set_solver.
Qed.

(** A request for the key [id]. *)
Lemma key_served issued w id k : winv issued w →
  (∀ rec, h_records w !! id = Some rec → kr_ID rec = id → (id, kr_Group rec, kr_Hash rec) ∈ issued →
     alive (h_tiers w) rec → served issued w (run L (k rec) [] w)) →
  served issued w (run L (keyFromPath id k) [] w).
Proof using Type.
  intros Hw Hrec. cbn [keyFromPath run exec head_outcome answer tail].
  destruct (h_records w !! id) as [rec|] eqn:E; [|by apply served_same].
  destruct (ki_rec _ _ _ _ _ (proj1 Hw) _ _ E) as (? & ? & ?). by apply Hrec.
Qed.

Lemma save_update_served issued w role old rec reassign :
  winv issued w → h_records w !! kr_ID rec = Some old → alive (h_tiers w) old →
  kr_Group rec = kr_Group old → kr_Hash rec = kr_Hash old → kr_Tier rec ≠ "" → TrimSpace (kr_Tier rec) = kr_Tier rec →
  (reassign = true ∨ kr_Tier rec = kr_Tier old ∧ kr_Owner rec = kr_Owner old) →
  served issued w (run L (save_update s r role rec reassign) [] w).
Proof using All.
  intros (Hk & Hcfg & Hgr) Hold Hal Eg Eh Hne Ht Hre. cbn [save_update run exec head_outcome answer applied tail].
  destruct reassign.
  - next_assign. cbn [fst]. next_audit. cbn [run].
    split; [split_and!|]; cbn [fst snd issued_by ap_Body json_response app].
    + by apply (kinv_relabel s _ _ _ _ old rec Hk).
    + done.
    + done.
    + by eapply dom_insert_known.
  - destruct Hre as [?|[Et Eo]]; [done|]. rewrite run_bind. cbn [run]. next_audit. cbn [run].
    split; [split_and!|]; cbn [fst snd issued_by ap_Body json_response app].
    + by apply (kinv_rename s _ _ _ _ old rec Hk).
    + done.
    + done.
    + by eapply dom_insert_known.
Qed.

Lemma update_served issued w role id : winv issued w → served issued w (run L (updateKey s r role id) [] w).
Proof using All.
  intros Hw. apply key_served; [done|]. intros rec Hrec Eid Hin Hal. pose proof (al_name _ _ Hal) as [Hne Ht].
  destruct (decodeKeyRequest r) as [req|]; [|by apply served_same].
  destruct (kq_Group req); [by apply served_same|].
  assert (Hsame : ∀ o, o = (if kq_Owner req then true else false) →
    served issued w (run L (save_update s r role (relabel rec req (kr_Tier rec)) o) [] w)).
  { intros o ->. apply (save_update_served _ _ _ rec); [done|by cbn; rewrite Eid|done..|].
    cbn. destruct (kq_Owner req); [by left|by right]. }
  cbv zeta beta. destruct (kq_Tier req) as [t|]; [|by apply Hsame].
  destruct (negb (deref (Some t) =? kr_Tier rec)%string); [|by apply Hsame].
  next_defined; [|by apply served_same].
  apply (save_update_served _ _ _ rec); [done|by cbn; rewrite Eid|done..|apply deref_trim|by left].
Qed.

Lemma rotate_served issued w role id : winv issued w → fresh issued w → served issued w (run L (rotateKey L s r role id) [] w).
Proof using All.
  intros Hw [Hf _]. apply key_served; [done|]. intros old Hold Eid Hin Hal. destruct Hw as (Hk & Hcfg & Hgr).
  cbn [run exec head_outcome answer applied tail]. set (rec := mkKey _ _ _ _ _ _ _ _).
  next_assign. cbn [fst]. next_assign. cbn [fst]. next_audit. cbn [run].
  split; [split_and!|]; cbn [fst snd issued_by ap_Body json_response app].
  - refine (kinv_rotate s _ _ _ _ old rec Hk _ eq_refl eq_refl _ _); [by cbn; rewrite Eid|by eapply Hgr|intros; apply Hf].
  - done.
  - intros i g h x [[= -> -> ->]|?]%elem_of_cons; by eapply Hgr.
  - change (kr_ID rec) with (kr_ID old). rewrite Eid. by eapply dom_insert_known.
Qed.

Lemma delete_served issued w role id : winv issued w → served issued w (run L (deleteKey s r role id) [] w).
Proof using All.
  intros Hw. apply key_served; [done|]. intros old Hold Eid Hin Hal. destruct Hw as (Hk & Hcfg & Hgr).
  next_assign. cbn [fst run exec head_outcome answer applied tail]. next_audit. cbn [run].
  split; [split_and!|]; cbn [fst snd issued_by ap_Body empty_response app].
  - rewrite Eid. refine (kinv_revoke s _ _ _ _ id _ _ Hk Hin _). intros rec Hrec. by simplify_eq.
  - done.
  - done.
  - cbn. rewrite dom_delete. set_solver.
Qed.

(** Requests that read. *)
Notation no_issue := (rets (λ a, issued_by a = [])).

Lemma reads_served issued w p : winv issued w → reads p → no_issue p → served issued w (run L p [] w).
Proof using Type.
  intros Hw Hr Hn. destruct (run_reads L p [] w Hr) as [c Ec]. pose proof (run_rets L _ p [] w Hn) as E.
  destruct (run L p [] w) as [a w']. cbn in *. subst w'. by apply served_same.
Qed.

(** A request for an operator's key: the prefix and the key of its path. *)
Definition operator : option (string * string) :=
  match GoLib.Split "/" (GoLib.Trim "/" (aq_Path r)) with
  | "tiers" :: p :: k :: _ => Some (p, k)
  | _ => None
  end.

(** An operator names configured prefixes as they are, and keys of its own. *)
Definition operator_ok (issued : list issue) : Prop :=
  ∀ p k, operator = Some (p, k) → TrimSpace p = p ∧ ∀ id g, (id, g, lb_Hash L k) ∉ issued.

Lemma assign_served issued w role p k t action target detail resp :
  winv issued w → tr_key p (lb_Hash L k) → TrimSpace t = t → (∀ id g, (id, g, lb_Hash L k) ∉ issued) →
  issued_by resp = [] →
  served issued w (run L (call err := assign s p (lb_Hash L k) t None in
    match err with
    | Err _ => internal_error
    | Ok _ => call _ := audit s r role action target detail in Ret resp
    end) [] w).
Proof using All.
  intros (Hk & Hcfg & Hgr) Hkey Ht Hf Hr. next_assign. next_audit. cbn [run].
  apply served_same; [done| |done]. split_and!; [|done|done]. by apply kinv_operator.
Qed.

Lemma tiers_served issued w role p k rest :
  winv issued w → TrimSpace p = p → (∀ id g, (id, g, lb_Hash L k) ∉ issued) →
  served issued w (run L (handleTiers L s r role (p :: k :: rest)) [] w).
Proof using All.
  intros Hw Hp Hf. unfold handleTiers. rewrite run_bind, run_allowed. case_bool_decide as Hall; [|by apply served_same].
  assert (Hkey : ∀ x, tr_key p (lb_Hash L x)) by (intros x; by apply (found_key (h_cm w)); [apply Hw|..]).
  cbn [negb orb]. destruct (negb (hs_apiKeyPattern s k)); [by apply served_same|].
  destruct (is_method r "GET"); [|destruct (_ || _); [|destruct (is_method r "DELETE"); [|by apply served_same]]].
  - apply reads_served; [done|apply reads_bind; [apply tiers_GetTier_reads|by intros []]|].
    apply rets_bind. by intros [].
  - unfold set_tier. destruct (aq_TierID r) as [t|]; [|by apply served_same].
    next_defined; [|by apply served_same]. by apply assign_served; [| |apply TrimSpace_idemp|..].
  - by apply assign_served.
Qed.

Lemma cfg_ok_payload cm cfg : (∀ p x, p ∈ gc_Prefixes cfg → tr_key (px_Prefix p) (lb_Hash L x)) → cfg_ok cm →
  cfg_ok (ReloadFromPayload (lb_ParseRequestURI L) cm cfg).2.
Proof using Type.
  intros Hok Hcm. unfold ReloadFromPayload. destruct (ValidateGatewayConfig _ _); [done|].
  intros cfg' p x [= <-] Hp. by apply Hok.
Qed.

(** A stored configuration is published. *)
Lemma config_told l o cfg inv g h : last_told (l ++ [mkMessage o cfg inv None]) g h = last_told l g h.
Proof. unfold last_told. rewrite foldl_app. cbn. unfold tell at 1. by destruct cfg. Qed.

Lemma publish_served issued w cm analysis role mode detail : winv issued w → cfg_ok cm →
  served issued w (run L (call _ := (if hs_control s
      then let* cfg := ReadConfig in
           let* _ := Publish (mkMessage (hs_origin s) cfg (ua_Invalidations analysis) None) in Ret ()
      else Ret ()) in
    call _ := audit s r role "config.reload" mode detail in Ret (empty_response 204)) [] (with_config w cm)).
Proof using Type.
  intros (Hk & Hcfg & Hgr) Hcm. rewrite run_bind. destruct (hs_control s) eqn:Hc; cbn [run exec head_outcome tail].
  - next_audit. cbn [run]. apply served_same; [done| |done]. split_and!; [|done|done].
    revert Hk. apply kinv_obs. intros id g h _. split_and!; [done|done|]. intros _. apply config_told.
  - next_audit. cbn [run]. by apply served_same.
Qed.

Lemma reload_served issued w role : winv issued w → served issued w (run L (handleConfigReload L s r role) [] w).
Proof using keys_apart.
  intros Hw. unfold handleConfigReload. destruct (negb _); [by apply served_same|]. rewrite run_bind.
  assert (Hcm : cfg_ok (h_cm w)) by apply Hw.
  destruct (aq_Reload r) as [| |f] eqn:Er; unfold resolveReloadTargetConfig; rewrite Er; cbn [run]; [by apply served_same|..].
  - cbn [run exec head_outcome tail]. destruct (decode L (h_file w)) as [cfg|] eqn:Ed; [|by apply served_same].
    cbn [fmap option_fmap option_map run exec head_outcome tail String.eqb Ascii.eqb Bool.eqb]. rewrite Ed. cbn [negb].
    apply publish_served; [done|]. intros cfg' p x [= <-]. by apply (keys_apart (h_file w)).
  - destruct (decode L f) as [cfg|] eqn:Ed; [|by apply served_same].
    cbn [fmap option_fmap option_map run exec head_outcome tail String.eqb Ascii.eqb Bool.eqb].
    assert (Hok := cfg_ok_payload (h_cm w) cfg (λ p x, keys_apart f cfg p x Ed) Hcm).
    destruct (ReloadFromPayload _ _ _) as [e cm]. cbn in Hok. case_bool_decide; cbn [negb].
    + by apply publish_served.
    + apply served_same; [done| |done]. by split_and!; [apply Hw|..|apply Hw].
Qed.

Lemma v2_served issued w role : winv issued w → fresh issued w → served issued w (run L (v2_ServeHTTP L s r role) [] w).
Proof using All.
  intros Hw Hf. unfold v2_ServeHTTP. destruct (v2Routes L r).
  - by apply create_served.
  - apply reads_served; [done|apply listKeys_reads|]. intros [ids|e]; [|done]. by apply rets_bind.
  - apply reads_served; [done|apply getKey_reads|]. by intros [[rec|]|e].
  - by apply update_served.
  - by apply rotate_served.
  - by apply delete_served.
  - apply reads_served; [done|apply listAudit_reads|]. by intros [es|e].
  - by apply served_same.
  - by apply served_same.
  - by apply served_same.
Qed.

Lemma dry_run_served issued w : winv issued w → served issued w (run L (handleConfigReloadDryRun L r) [] w).
Proof using Type.
  intros Hw. apply reads_served; [done|..]; unfold handleConfigReloadDryRun; destruct (negb _); try done.
  - apply reads_bind; [unfold resolveReloadTargetConfig; by destruct (aq_Reload r)|]. intros [[cfg mode]|]; [|done]. by split.
  - apply rets_bind. by intros [[cfg mode]|].
Qed.

Lemma status_served issued w : winv issued w → served issued w (run L (handleStatus s r) [] w).
Proof using Type.
  intros Hw. apply reads_served; [done|..]; unfold handleStatus; destruct (negb _); try done.
  - apply reads_bind; [by destruct (hs_control s)|]. by split.
  - by apply rets_bind.
Qed.

Lemma config_served issued w : winv issued w → served issued w (run L (handleConfig r) [] w).
Proof using Type.
  intros Hw. apply reads_served; [done|..]; unfold handleConfig; destruct (negb _); try done.
  - split; [done|]. intros c. by destruct (json_ok c).
  - intros c. by destruct (json_ok c).
Qed.

Lemma dispatch_served issued w role : winv issued w → fresh issued w → operator_ok issued →
  served issued w (run L (dispatch L s r role (GoLib.Split "/" (GoLib.Trim "/" (aq_Path r)))) [] w).
Proof using All.
  intros Hw Hf Hop. assert (H1 := v2_served issued w role Hw Hf). assert (H2 := dry_run_served issued w Hw).
  assert (H3 := status_served issued w Hw). assert (H4 := config_served issued w Hw).
  assert (H5 := reload_served issued w role Hw).
  assert (H0 : served issued w (run L (Ret (text_response 404)) [] w)) by by apply served_same.
  assert (Htiers : ∀ ps, GoLib.Split "/" (GoLib.Trim "/" (aq_Path r)) = "tiers" :: ps →
            served issued w (run L (handleTiers L s r role ps) [] w)).
  { intros [|p [|k rest]] E; [by apply served_same..|].
    destruct (Hop p k) as [Hp Hk]; [by unfold operator; rewrite E|]. by apply tiers_served. }
  unfold dispatch. destruct (GoLib.Split "/" (GoLib.Trim "/" (aq_Path r))) as [|x ps] eqn:E; [done|].
  revert E Htiers. repeat case_match; intros Eparts Htiers; try done. by apply Htiers.
Qed.

(** One request. *)
Lemma request_served issued w : winv issued w → fresh issued w → operator_ok issued →
  served issued w (run L (ServeHTTP L s r) [] w).
Proof using All.
  intros Hw Hf Hop. unfold ServeHTTP. destruct (handleCORS s r) as [h|resp] eqn:Ec.
  2: { apply served_same; [|done|done]. revert Ec. unfold handleCORS. repeat case_match; intros [= <-]; done. }
  rewrite run_bind_Ret. assert (Hroute : served issued w (run L (admin_route L s r) [] w)); [|done].
  assert (Hd := λ role, dispatch_served issued w role Hw Hf Hop).
  assert (H0 : ∀ resp, issued_by resp = [] → served issued w (run L (Ret resp) [] w)) by (intros; by apply served_same).
  assert (H1 : served issued w (run L (handleHealth r) [] w)) by (unfold handleHealth; destruct (negb _); by apply H0).
  assert (H2 : served issued w (run L (handleReady r) [] w)).
  { apply reads_served; [done|..]; unfold handleReady; destruct (negb _); try done.
    - split; [done|]. intros b. by destruct (negb b.1).
    - intros b. by destruct (negb b.1). }
  unfold admin_route. revert Hd. destruct (GoLib.Split "/" (GoLib.Trim "/" (aq_Path r))) as [|x ps]; intros Hd; [by apply H0|].
  assert (Hrest : served issued w (run L (match authorize s r with
      | None => Ret (http_error 401)
      | Some role => if (role =? "read-only")%string && negb (is_method r "GET") && negb (is_method r "HEAD")
                     then Ret (problem 403 "read_only_token") else dispatch L s r role (x :: ps) end) [] w)).
  { destruct (authorize s r); [|by apply H0]. destruct (_ && _); [by apply H0|done]. }
  repeat case_match; try done; by apply H0.
Qed.
End request.
End serve.

(** ** Secrets *)

(** A request's responses hand out secrets made of its random string. *)
Definition own_secret (r : admin_request) (a : admin_response) : Prop :=
  ∀ rec secret, ap_Body a = BIssued rec secret → ∃ id, secret = keys_Rotate id (aq_Random r).

Section secrets.
Variable L : libs.
Variable s : HubServer.
Variable r : admin_request.
Notation own := (rets (own_secret r)).

Lemma own_key id k : (∀ rec, own (k rec)) → own (keyFromPath id k).
Proof. intros Hk [[rec|]|e]; [apply Hk|done|done]. Qed.

Lemma own_assign g h t o k : (∀ e, own (k e)) → own (call err := assign s g h t o in k err).
Proof. intros. by apply rets_bind. Qed.

Lemma own_issued role a t d rec id : own (call _ := audit s r role a t d in
  Ret (json_response 200 (BIssued rec (keys_Rotate id (aq_Random r))))).
Proof. apply rets_bind. intros _ rec' secret [= _ <-]. by eexists. Qed.

Lemma v2_own role : own (v2_ServeHTTP L s r role).
Proof.
  unfold v2_ServeHTTP. destruct (v2Routes L r); try done.
  - unfold createKey. destruct (decodeKeyRequest r); [|done]. apply rets_bind. intros b. destruct (negb b); [done|].
    apply rets_bind. intros b'. destruct (negb b'); [done|]. intros [u|e]; [|done]. apply own_assign. intros [u'|e]; [|done].
    apply rets_bind. intros _ rec' secret [= _ <-]. by eexists.
  - intros [ids|e]; [|done]. by apply rets_bind.
  - by apply own_key.
  - apply own_key. intros rec. destruct (decodeKeyRequest r) as [req|]; [|done]. destruct (kq_Group req); [done|].
    assert (Hsave : ∀ rec o, own (save_update s r role rec o)).
    { intros rec' o [u|e]; [|done]. apply rets_bind. intros [u'|e]; [|done]. by apply rets_bind. }
    cbv zeta. destruct (kq_Tier req) as [t|]; [|apply Hsave]. destruct (negb (deref (Some t) =? kr_Tier rec)%string); [|apply Hsave].
    apply rets_bind. intros b. destruct (negb b); [done|apply Hsave].
  - apply own_key. intros rec [u|e]; [|done]. apply own_assign. intros [u'|e]; [|done].
    apply own_assign. intros [u''|e]; [|done]. apply own_issued.
  - apply own_key. intros rec. apply own_assign. intros [u|e]; [|done]. intros [u'|e]; [|done]. by apply rets_bind.
  - by intros [es|e].
Qed.

Lemma dispatch_own role parts : own (dispatch L s r role parts).
Proof.
  assert (H1 := v2_own role).
  assert (H2 : own (handleConfigReloadDryRun L r)).
  { unfold handleConfigReloadDryRun. destruct (negb _); [done|]. apply rets_bind. by intros [[cfg mode]|]. }
  assert (H3 : own (handleStatus s r)) by (unfold handleStatus; destruct (negb _); [done|]; by apply rets_bind).
  assert (H4 : own (handleConfig r)) by (unfold handleConfig; destruct (negb _); [done|]; intros c; by destruct (json_ok c)).
  assert (H5 : own (handleConfigReload L s r role)).
  { unfold handleConfigReload. destruct (negb _); [done|]. apply rets_bind. intros [[cfg mode]|]; [|done].
    intros c b. destruct (negb b); [done|]. apply rets_bind. intros _. by apply rets_bind. }
  assert (Htiers : ∀ ps, own (handleTiers L s r role ps)).
  { intros [|p [|k ps]]; [done..|]. apply rets_bind. intros b. destruct (_ || _); [done|].
    destruct (is_method r "GET"); [apply rets_bind; by intros []|].
    assert (Hend : ∀ a t d resp, own_secret r resp → own (call _ := audit s r role a t d in Ret resp))
      by (intros; by apply rets_bind).
    destruct (_ || _); [unfold set_tier; destruct (aq_TierID r); [|done]|destruct (is_method r "DELETE"); [|done]].
    - apply rets_bind. intros b'. destruct (negb b'); [done|]. apply own_assign. by intros [u|e]; [apply Hend|].
    - apply own_assign. by intros [u|e]; [apply Hend|]. }
  unfold dispatch. repeat case_match; done || apply Htiers.
Qed.

Lemma ServeHTTP_own : own (ServeHTTP L s r).
Proof.
  unfold ServeHTTP. destruct (handleCORS s r) as [h|resp] eqn:Ec.
  2: { revert Ec. unfold handleCORS. repeat case_match; intros [= <-]; done. }
  assert (Hr : own (admin_route L s r)).
  { assert (Hd := dispatch_own). assert (H1 : own (handleHealth r)) by (unfold handleHealth; by destruct (negb _)).
    assert (H2 : own (handleReady r)) by (unfold handleReady; destruct (negb _); [done|]; intros b; by destruct (negb b.1)).
    assert (Hrest : ∀ parts, own (match authorize s r with
      | None => Ret (http_error 401)
      | Some role => if (role =? "read-only")%string && negb (is_method r "GET") && negb (is_method r "HEAD")
                     then Ret (problem 403 "read_only_token") else dispatch L s r role parts end))
      by (intros parts; destruct (authorize s r); [destruct (_ && _)|]; done || apply Hd).
    unfold admin_route. repeat case_match; done || apply Hrest || apply Hd. }
  induction (admin_route L s r) as [a|B c k IH]; cbn in *; [done|]. intros b. by apply IH.
Qed.
End secrets.

Lemma keys_Rotate_inj id id' x y : ¬ has_char "_" x → ¬ has_char "_" y → keys_Rotate id x = keys_Rotate id' y → x = y.
Proof.
  intros Hx Hy E. unfold keys_Rotate in E. apply (f_equal chars) in E. rewrite !chars_app in E. cbn in E.
  injection E as E. apply (split_last "_"%char) in E as [_ E]; [|done..]. by apply (inj chars).
Qed.

(** ** Any sequence of requests *)

Section sequence.
Context {St : Type} `{!TierRecords St}.
Variable L : libs.
Variable s : HubServer.

Definition serve (st : list admin_response * hub St) (r : admin_request) : list admin_response * hub St :=
  let '(a, w) := run L (ServeHTTP L s r) [] st.2 in (st.1 ++ [a], w).
Definition serve_all (rs : list admin_request) (w : hub St) : list admin_response * hub St := foldl serve ([], w) rs.
End sequence.

(** Random strings are not repeated, and have the alphabet of hexadecimal
    numbers; an operator names prefixes as they are configured, and chooses
    other keys than the hub. *)
Record requests_ok (rs : list admin_request) : Prop := {
  rk_ids : NoDup (aq_RandomID <$> rs);
  rk_random : NoDup (aq_Random <$> rs);
  rk_hex : ∀ r, r ∈ rs → ¬ has_char "_" (aq_Random r);
  rk_operator : ∀ r p k, r ∈ rs → operator r = Some (p, k) →
    TrimSpace p = p ∧ ∀ r' id, r' ∈ rs → k ≠ keys_Rotate id (aq_Random r');
}.

Lemma requests_ok_snoc rs r : requests_ok (rs ++ [r]) → requests_ok rs ∧ aq_RandomID r ∉ (aq_RandomID <$> rs) ∧
  aq_Random r ∉ (aq_Random <$> rs).
Proof.
  intros [H1 H2 H3 H4]. rewrite fmap_app in H1, H2. apply NoDup_app in H1 as (H1 & N1 & _), H2 as (H2 & N2 & _).
  split; [split|split].
  - done.
  - done.
  - intros r' Hr. apply H3. apply elem_of_app. by left.
  - intros r' p k Hr Ho. destruct (H4 r' p k) as [Hp Hk]; [apply elem_of_app; by left|done|].
    split; [done|]. intros r'' id Hr'. apply Hk. apply elem_of_app. by left.
  - intros Hin. apply (N1 _ Hin). by left.
  - intros Hin. apply (N2 _ Hin). by left.
Qed.

Section life_all.
Context {St : Type} `{!TierRecords St} `{!TierRecordsLaws St}.
Variable L : libs.
Variable s : HubServer.
Hypothesis keys_apart : ∀ f cfg p x,
  decode L f = Some cfg → p ∈ gc_Prefixes cfg → tr_key (px_Prefix p) (lb_Hash L x).
Hypothesis Hash_inj : Inj (=) (=) (lb_Hash L).

(** All secrets handed out. *)
Definition all_issued (resps : list admin_response) : list issue := reverse resps ≫= issued_by L.

Lemma all_issued_snoc resps a : all_issued (resps ++ [a]) = issued_by L a ++ all_issued resps.
Proof. unfold all_issued. by rewrite reverse_snoc, bind_cons. Qed.

Lemma sequence_inv (w0 : hub St) rs :
  requests_ok rs → h_records w0 = ∅ → cfg_ok L (h_cm w0) → let st := serve_all L s rs w0 in
  winv L s (all_issued st.1) st.2 ∧ dom (h_records st.2) ⊆ list_to_set (aq_RandomID <$> rs) ∧
  (∀ id g h, (id, g, h) ∈ all_issued st.1 → ∃ r id', r ∈ rs ∧ h = lb_Hash L (keys_Rotate id' (aq_Random r))).
Proof using All.
  intros Hok Hr0 Hcfg. induction rs as [|r rs IH] using rev_ind.
  - cbn. unfold winv. rewrite Hr0. split_and!; [|done|intros ???? []%elem_of_nil|by rewrite dom_empty|intros ??? []%elem_of_nil].
    split; intros; try (by match goal with H : _ ∈ [] |- _ => apply elem_of_nil in H end). done.
  - pose proof (requests_ok_snoc _ _ Hok) as (Hok' & Hid & Hra). destruct (IH Hok') as (Hw & Hdom & Hfrom).
    unfold serve_all. rewrite foldl_app. cbn [foldl]. fold (serve_all L s rs w0).
    destruct (serve_all L s rs w0) as [resps w]. cbn [fst snd] in *. unfold serve. cbn [fst snd].
    assert (Hin : r ∈ rs ++ [r]) by (apply elem_of_app; right; by left).
    assert (Hfr : fresh L r (all_issued resps) w).
    { split.
      - intros id g id' (r' & id'' & Hr' & E%(inj _))%Hfrom. apply keys_Rotate_inj in E;
          [|apply (rk_hex _ Hok); done|apply (rk_hex _ Hok'); done]. apply Hra. rewrite E. by apply list_elem_of_fmap_2.
      - apply not_elem_of_dom. intros Hd%Hdom%elem_of_list_to_set. done. }
    assert (Hop : operator_ok L r (all_issued resps)).
    { intros p k Ho. destruct (rk_operator _ Hok r p k Hin Ho) as [Hp Hk]. split; [done|].
      intros id g (r' & id' & Hr' & E%(inj _))%Hfrom. apply (Hk r' id'); [|done]. apply elem_of_app. by left. }
    assert (Hown := run_rets L _ _ [] w (ServeHTTP_own L s r)).
    destruct (request_served L s keys_apart r _ _ Hw Hfr Hop) as [Hw' Hdom'].
    destruct (run L (ServeHTTP L s r) [] w) as [a w']. cbn [fst snd] in *. rewrite all_issued_snoc. split_and!.
    + done.
    + rewrite fmap_app, list_to_set_app_L. set_solver.
    + intros id g h [H|H]%elem_of_app.
      * unfold issued_by in H. destruct (ap_Body a) eqn:Eb; try (by apply elem_of_nil in H).
        apply list_elem_of_singleton in H as [= -> -> ->]. destruct (Hown _ _ Eb) as [id' ->]. eauto.
      * destruct (Hfrom _ _ _ H) as (r' & id' & Hr' & ->). exists r', id'. split; [apply elem_of_app; by left|done].
Qed.
End life_all.

(** In the Redis store, groups of accepted configurations and hashes without
    spaces keep records apart. *)
Lemma redis_keys_apart L : (∀ x, TrimSpace (lb_Hash L x) = lb_Hash L x) →
  ∀ f cfg p x, decode L f = Some cfg → p ∈ gc_Prefixes cfg → tr_key (St := TierManager) (px_Prefix p) (lb_Hash L x).
Proof. intros Hh f cfg p x Hd Hp. by destruct (decoded_prefix L f cfg p Hd Hp) as (? & _ & ? & _). Qed.

(** C8: (a key's life) Start from any hub without issued keys and serve any
    sequence of requests, reloads included, without failures.  A secret the
    hub has handed out resolves to its record's tier and owner if it is the
    record's current one, and to no tier after it was rotated or its key
    revoked; edges were last told the same.  The hypotheses: SHA-256 has no
    collisions and hexadecimal digits only, random strings are new, and an
    operator does not choose a key of the hub's form. *)
Theorem issued_keys_resolve (L : libs) (s : HubServer) (w0 : hub TierManager) (f : File) (cfg : GatewayConfig)
    (rs : list admin_request) (resp : admin_response) (rec : KeyRecord) (secret : string) :
  Inj (=) (=) (lb_Hash L) → (∀ x, TrimSpace (lb_Hash L x) = lb_Hash L x) →
  decode L f = Some cfg → cm_active (h_cm w0) = Some cfg → h_records w0 = ∅ → requests_ok rs →
  let '(resps, w) := serve_all L s rs w0 in
  resp ∈ resps → ap_Body resp = BIssued rec secret →
  let g := kr_Group rec in
  let h := lb_Hash L secret in
  (∀ cur, h_records w !! kr_ID rec = Some cur → kr_Hash cur = h →
     kr_Tier cur ≠ "" ∧ tr_tier (h_tiers w) g h = kr_Tier cur ∧ tr_owner (h_tiers w) g h = kr_Owner cur) ∧
  ((∀ cur, h_records w !! kr_ID rec = Some cur → kr_Hash cur ≠ h) → tr_tier (h_tiers w) g h = "") ∧
  (hs_control s = true → last_told (h_sent w) g h = tr_tier (h_tiers w) g h).
Proof.
  intros Hinj Hhex Hd Hcm Hr Hok. pose proof (redis_keys_apart L Hhex) as Hka.
  assert (Hcfg : cfg_ok L (h_cm w0)) by (intros cfg' p x E; rewrite Hcm in E; injection E as <-; by apply (Hka f)).
  destruct (sequence_inv L s Hka Hinj w0 rs Hok Hr Hcfg) as ((Hk & _ & _) & _ & _).
  destruct (serve_all L s rs w0) as [resps w]. cbn [fst snd] in Hk. intros Hin Hb g h.
  assert (Hiss : (kr_ID rec, g, h) ∈ all_issued L resps).
  { apply list_elem_of_bind. exists resp. split; [|by apply elem_of_reverse]. unfold issued_by. rewrite Hb. by left. }
  split_and!.
  - intros cur Hcur Eh. destruct (ki_rec _ _ _ _ _ Hk _ _ Hcur) as (_ & Hin' & [[Hne _] Ht Ho]).
    rewrite Eh in *. destruct (ki_one _ _ _ _ _ Hk _ _ _ _ _ Hiss Hin') as [_ ->]. by split_and!.
  - by apply (ki_dead _ _ _ _ _ Hk).
  - intros Hc. by apply (ki_told _ _ _ _ _ Hk Hc (kr_ID rec)).
Qed.

(** ** Examples *)

Module Example_life.
Definition requests : list admin_request := [Example_admin.create; Example_admin.rotate].
Definition life : list admin_response * hub TierManager :=
  serve_all Example_admin.L Example_admin.server requests Example_admin.start.

Definition first_issue (l : list admin_response) : option (string * string * string) :=
  match l with
  | a :: _ => match ap_Body a with BIssued rec secret => Some (kr_ID rec, kr_Group rec, secret) | _ => None end
  | [] => None
  end.

Lemma issues : first_issue life.1 = Some ("id0", "v1", "gk_id0_r0").
Proof. vm_compute. reflexivity. Qed.

Lemma current : kr_Hash <$> h_records life.2 !! "id0" = Some (Example_admin.hash "gk_id0_r1").
Proof. vm_compute. reflexivity. Qed.

Lemma decoded : decode Example_admin.L sample_file = Some (Compile sample_file).
Proof. vm_compute. reflexivity. Qed.

Lemma requests_fit : requests_ok requests.
Proof.
  split.
  - apply (bool_decide_unpack _). by vm_compute.
  - apply (bool_decide_unpack _). by vm_compute.
  - unfold requests. intros r. rewrite !elem_of_cons. intros [->|[->|?%elem_of_nil]]; [no_char|no_char|done].
  - unfold requests. intros r p k. rewrite !elem_of_cons. intros [->|[->|?%elem_of_nil]]; by vm_compute.
Qed.
End Example_life.

Lemma issued_keys_resolve_witness :
  let w := Example_life.life.2 in
  tr_tier (h_tiers w) "v1" (Example_admin.hash "gk_id0_r0") = "" ∧
  last_told (h_sent w) "v1" (Example_admin.hash "gk_id0_r0") = "".
Proof.
  pose proof Example_life.issues as Hi. pose proof Example_life.current as Hc.
  assert (H := λ resp rec, issued_keys_resolve Example_admin.L Example_admin.server Example_admin.start sample_file
    (Compile sample_file) Example_life.requests resp rec "gk_id0_r0" Example_admin.hash_inj
    (λ x, TrimSpace_id _ (Example_admin.hash_chars x)) Example_life.decoded eq_refl eq_refl Example_life.requests_fit).
  fold Example_life.life in H. destruct Example_life.life as [[|a resps] w]; cbn [fst snd Example_life.first_issue] in *; [done|].
  destruct (ap_Body a) as [| | | | | | | | |rec secret| |] eqn:Eb; try done. injection Hi as Eid Eg ->.
  destruct (H a rec) as (_ & Hdead & Htold); [by left|exact Eb|]. cbv zeta in Hdead, Htold. rewrite Eg in *.
  specialize (Htold eq_refl). change (lb_Hash Example_admin.L) with Example_admin.hash in *.
  rewrite Htold. split; apply Hdead; intros cur Hcur Eh; rewrite Eid in Hcur; rewrite Hcur in Hc; cbn in Hc;
    rewrite Eh in Hc; vm_compute in Hc; discriminate.
Defined.
