(* ===== verification/KeyRaces.v ===== *)
(** * When rotating a key goes wrong ([packages/hub/keys.go])

    A rotation saves the new hash before it revokes the old one, and reads the
    record it replaces without holding it.  When its last commands fail, or
    when another rotation comes in between, a secret is left that works and
    that no record knows of.  The migration of the old layout moves every
    record. *)

From S2P Require Import Prelude Float64 GoLib Policies.
From S2P Require Import Config TtlCache Tiers Edge EdgeCache.
From S2P Require Import ConfigFile ConfigCheck ConfigAccepted HubConfig ControlPlane ConfigDiff.
From S2P Require Import AdminApi AdminProps KeyLife.

Local Open Scope Z_scope.

(** ** Handlers that run at the same time *)

Section pool.
Context {St : Type} `{!TierRecords St}.
Variable L : libs.

(** One command of one handler; none fails. *)
Inductive pstep : list (prog admin_response) * hub St → list (prog admin_response) * hub St → Prop :=
| PStep i {B} (c : command B) k ps w b w' :
    ps !! i = Some (Do c k) → exec L Done c w = (b, w') → pstep (ps, w) (<[i := k b]> ps, w').

(** A handler that goes on alone. *)
Lemma run_psteps i p ps w : ps !! i = Some p →
  rtc pstep (ps, w) (<[i := Ret (run L p [] w).1]> ps, (run L p [] w).2).
Proof.
  revert ps w. induction p as [a|B c k IH]; intros ps w Hi; cbn [run head_outcome tail].
  - cbn. by rewrite list_insert_id.
  - destruct (exec L Done c w) as [b w'] eqn:E. eapply rtc_l; [by apply (PStep i c k ps w b w')|].
    assert (Hb : <[i := k b]> ps !! i = Some (k b)) by (apply list_lookup_insert_eq; by eapply lookup_lt_Some).
    specialize (IH b (<[i := k b]> ps) w' Hb). by rewrite list_insert_insert_eq in IH.
Qed.
End pool.

Section rotation.
Context {St : Type} `{!TierRecords St} `{!TierRecordsLaws St}.
Variable L : libs.
Variable s : HubServer.

(** The record a rotation saves. *)
Definition rotated (rec : KeyRecord) (r : admin_request) : KeyRecord :=
  mkKey (kr_ID rec) (kr_Group rec) (kr_Tier rec) (kr_Owner rec) (kr_Name rec) (kr_CreatedAt rec) (Some (aq_Now r))
    (lb_Hash L (keys_Rotate (kr_ID rec) (aq_Random r))).

(** What is left of a rotation once it has read [rec]. *)
Definition rotate_rest (role : string) (rec : KeyRecord) (r : admin_request) : prog admin_response :=
  let* err := SaveKey (kr_ID rec) (rotated rec r) in
  match err with
  | Err _ => internal_error
  | Ok _ =>
      call err := assign s (kr_Group rec) (kr_Hash (rotated rec r)) (kr_Tier rec) (Some (kr_Owner rec)) in
      match err with
      | Err _ => internal_error
      | Ok _ =>
          call err := assign s (kr_Group rec) (kr_Hash rec) "" None in
          match err with
          | Err _ => internal_error
          | Ok _ =>
              call _ := audit s r role "key.rotate" (kr_ID rec) "" in
              Ret (json_response 200 (BIssued (key_json (rotated rec r)) (keys_Rotate (kr_ID rec) (aq_Random r))))
          end
      end
  end.

Lemma run_rotate_rest role rec r (w : hub St) : ∃ w',
  run L (rotate_rest role rec r) [] w =
    (json_response 200 (BIssued (key_json (rotated rec r)) (keys_Rotate (kr_ID rec) (aq_Random r))), w') ∧
  h_records w' = <[kr_ID rec := rotated rec r]> (h_records w) ∧
  h_tiers w' = assigned (assigned (h_tiers w) (kr_Group rec) (kr_Hash (rotated rec r)) (kr_Tier rec) (Some (kr_Owner rec)))
                 (kr_Group rec) (kr_Hash rec) "" None.
Proof.
  unfold rotate_rest. cbn [run exec head_outcome answer applied tail]. rewrite run_bind.
  match goal with |- context [run L (assign s ?g ?h ?t ?o) [] ?w] => destruct (run_assign L s g h t o w) as [c ->] end.
  rewrite run_bind.
  match goal with |- context [run L (assign s ?g ?h ?t ?o) [] ?w] => destruct (run_assign L s g h t o w) as [c' ->] end.
  rewrite run_bind.
  match goal with |- context [run L (audit s ?r ?ro ?a ?t ?d) [] ?w] => destruct (run_audit L s r ro a t d w) as [a' ->] end.
  eexists. split; [reflexivity|]. split; reflexivity.
Qed.

Lemma run_delete role rec (r : admin_request) (w : hub St) : h_records w !! kr_ID rec = Some rec → ∃ w',
  run L (deleteKey s r role (kr_ID rec)) [] w = (empty_response 204, w') ∧
  h_records w' = delete (kr_ID rec) (h_records w) ∧
  h_tiers w' = assigned (h_tiers w) (kr_Group rec) (kr_Hash rec) "" None.
Proof.
  intros Hrec. cbn [deleteKey keyFromPath run exec head_outcome answer tail]. rewrite Hrec, run_bind.
  match goal with |- context [run L (assign s ?g ?h ?t ?o) [] ?w] => destruct (run_assign L s g h t o w) as [c ->] end.
  cbn [run exec head_outcome answer applied tail]. rewrite run_bind.
  match goal with |- context [run L (audit s ?r ?ro ?a ?t ?d) [] ?w] => destruct (run_audit L s r ro a t d w) as [a' ->] end.
  eexists. split; [reflexivity|]. split; reflexivity.
Qed.

(** The commands of a rotation up to the one that revokes the old secret. *)
Definition before_revoke : nat := if hs_control s then 7 else 6.

(** When the command that revokes the old secret
    fails, the client is told of an error and is not given the new secret; the
    old one still resolves, and deleting the key afterwards, with success,
    leaves it resolving: no record has its hash any more. *)
Theorem failed_rotation_keeps_old_secret (w : hub St) (rec : KeyRecord) (r r' : admin_request) (role e : string) :
  h_records w !! kr_ID rec = Some rec → alive (h_tiers w) rec →
  tr_key (kr_Group rec) (kr_Hash rec) → tr_key (kr_Group rec) (kr_Hash (rotated rec r)) →
  kr_Hash (rotated rec r) ≠ kr_Hash rec →
  let '(a, w1) := run L (rotateKey L s r role (kr_ID rec)) (replicate before_revoke Done ++ [Refused e]) w in
  let '(b, w2) := run L (deleteKey s r' role (kr_ID rec)) [] w1 in
  a = http_error 500 ∧ b = empty_response 204 ∧ h_records w2 !! kr_ID rec = None ∧
  tr_tier (h_tiers w1) (kr_Group rec) (kr_Hash rec) = kr_Tier rec ∧
  tr_tier (h_tiers w2) (kr_Group rec) (kr_Hash rec) = kr_Tier rec ∧ kr_Tier rec ≠ "".
Proof using All.
  intros Hrec [[Hne Ht] Hti _] Hk Hk' Hh.
  assert (Hrot : ∃ w1, run L (rotateKey L s r role (kr_ID rec)) (replicate before_revoke Done ++ [Refused e]) w =
      (http_error 500, w1) ∧ h_records w1 = <[kr_ID rec := rotated rec r]> (h_records w) ∧
      h_tiers w1 = assigned (h_tiers w) (kr_Group rec) (kr_Hash (rotated rec r)) (kr_Tier rec) (Some (kr_Owner rec))).
  { unfold rotateKey, keyFromPath, before_revoke, assigned, assign. pose proof Hne as Hne'. apply String.eqb_neq in Hne'.
    destruct w, (hs_control s) eqn:Ec; cbn in Hrec |- *; rewrite Hrec; cbn; rewrite Hne'; cbn;
      unfold publishTier; rewrite Ec; cbn.
    all: eexists. all: split; [reflexivity|]. all: cbn; rewrite ?Hne'; done. }
  destruct Hrot as (w1 & -> & Er & Et).
  destruct (run_delete role (rotated rec r) r' w1) as (w2 & Hd & Er2 & Et2).
  { rewrite Er. apply lookup_insert_eq. }
  change (kr_ID (rotated rec r)) with (kr_ID rec) in *. rewrite Hd, Er2, Et2, Et, lookup_delete_eq.
  change (kr_Group (rotated rec r)) with (kr_Group rec).
  assert (Hd' : ¬ (kr_Group rec = kr_Group rec ∧ kr_Hash rec = kr_Hash (rotated rec r))) by naive_solver.
  rewrite !tier_assigned by done. rewrite !decide_False by done. done.
Qed.

(** (two rotations at once) Two rotations of a key that both read its
    record before either saves it both succeed and hand out a secret each.
    Both secrets resolve although the record has one of them only; deleting the
    key, with success, leaves the other one resolving. *)
Theorem concurrent_rotations_leave_secret (w : hub St) (rec : KeyRecord) (r1 r2 r : admin_request) (role : string) :
  h_records w !! kr_ID rec = Some rec → alive (h_tiers w) rec →
  (∀ x, x ∈ [rec; rotated rec r1; rotated rec r2] → tr_key (kr_Group rec) (kr_Hash x)) →
  NoDup (kr_Hash <$> [rec; rotated rec r1; rotated rec r2]) →
  ∃ a1 a2 w1,
  rtc (pstep L) ([rotateKey L s r1 role (kr_ID rec); rotateKey L s r2 role (kr_ID rec)], w) ([Ret a1; Ret a2], w1) ∧
  ap_Body a1 = BIssued (key_json (rotated rec r1)) (keys_Rotate (kr_ID rec) (aq_Random r1)) ∧
  ap_Body a2 = BIssued (key_json (rotated rec r2)) (keys_Rotate (kr_ID rec) (aq_Random r2)) ∧
  let '(b, w2) := run L (deleteKey s r role (kr_ID rec)) [] w1 in
  b = empty_response 204 ∧ h_records w2 !! kr_ID rec = None ∧
  tr_tier (h_tiers w1) (kr_Group rec) (kr_Hash (rotated rec r1)) = kr_Tier rec ∧
  tr_tier (h_tiers w1) (kr_Group rec) (kr_Hash (rotated rec r2)) = kr_Tier rec ∧
  tr_tier (h_tiers w2) (kr_Group rec) (kr_Hash (rotated rec r1)) = kr_Tier rec ∧
  tr_tier (h_tiers w2) (kr_Group rec) (kr_Hash (rotated rec r2)) = "".
Proof using All.
  intros Hrec [[Hne Ht] Hti _] Hk Hnd.
  assert (K0 : tr_key (kr_Group rec) (kr_Hash rec)) by (apply Hk; by left).
  assert (K1 : tr_key (kr_Group rec) (kr_Hash (rotated rec r1))) by (apply Hk; by right; left).
  assert (K2 : tr_key (kr_Group rec) (kr_Hash (rotated rec r2))) by (apply Hk; by right; right; left).
  assert (N : kr_Hash rec ≠ kr_Hash (rotated rec r1) ∧ kr_Hash rec ≠ kr_Hash (rotated rec r2) ∧
              kr_Hash (rotated rec r1) ≠ kr_Hash (rotated rec r2)).
  { cbn [fmap list_fmap] in Hnd. rewrite !NoDup_cons in Hnd. set_solver. }
  destruct (run_rotate_rest role rec r1 w) as (wa & Ra & Era & Eta).
  destruct (run_rotate_rest role rec r2 wa) as (w1 & Rb & Erb & Etb).
  destruct (run_delete role (rotated rec r2) r w1) as (w2 & Hd & Er2 & Et2).
  { rewrite Erb. apply lookup_insert_eq. }
  change (kr_ID (rotated rec r2)) with (kr_ID rec) in *. change (kr_Group (rotated rec r2)) with (kr_Group rec) in *.
  exists (json_response 200 (BIssued (key_json (rotated rec r1)) (keys_Rotate (kr_ID rec) (aq_Random r1)))),
    (json_response 200 (BIssued (key_json (rotated rec r2)) (keys_Rotate (kr_ID rec) (aq_Random r2)))), w1.
  split; [|split; [reflexivity|split; [reflexivity|]]].
  - eapply rtc_l; [eapply (PStep L 0%nat); [reflexivity|cbn; reflexivity]|].
    eapply rtc_l; [eapply (PStep L 1%nat); [reflexivity|cbn; reflexivity]|]. rewrite Hrec. cbn [list_insert insert].
    etrans; [apply (run_psteps L 0%nat (rotate_rest role rec r1)); reflexivity|]. rewrite Ra. cbn [fst snd].
    etrans; [apply (run_psteps L 1%nat (rotate_rest role rec r2)); reflexivity|]. rewrite Rb. reflexivity.
  - rewrite Hd, Er2, Et2, Etb, Eta, lookup_delete_eq. rewrite !tier_assigned by done.
    repeat case_decide; naive_solver.
Qed.
End rotation.

(** ** Moving the records of the old layout *)

Section migration.
Context {St : Type} `{!TierRecords St}.
Variable L : libs.

(** Record [id] after the records of [ids] have been moved. *)
Definition moved (ids : list string) (w : hub St) (id : string) : option KeyRecord :=
  match h_legacy w !! id with
  | Some b => if decide (id ∈ ids) then Some b else h_records w !! id
  | None => h_records w !! id
  end.

Lemma run_migrate_keys ids (w : hub St) : NoDup ids → ∃ w',
  run L (migrate_keys ids) [] w = (Ok (), w') ∧ h_legacyIndex w' = ∅ ∧ (∀ id, h_records w' !! id = moved ids w id) ∧
  (∀ id, h_legacy w' !! id = if decide (id ∈ ids) then None else h_legacy w !! id).
Proof.
  revert w. induction ids as [|i ids IH]; intros w Hnd.
  - eexists. split; [reflexivity|]. split; [done|]. split; intros id; cbn; [|by rewrite decide_False by apply not_elem_of_nil].
    unfold moved. destruct (h_legacy w !! id); [|done]. by rewrite decide_False by apply not_elem_of_nil.
  - apply NoDup_cons in Hnd as [Hi Hnd]. cbn [migrate_keys run exec head_outcome answer tail].
    destruct (h_legacy w !! i) as [b|] eqn:Eb.
    + cbn [run exec head_outcome answer applied tail].
      match goal with |- context [run L (migrate_keys ids) [] ?w1] => destruct (IH w1 Hnd) as (w' & E & Hx & Hr & Hl) end.
      exists w'. split; [exact E|]. split; [done|]. split; intros id; [rewrite Hr; unfold moved|rewrite Hl]; cbn.
      * destruct (decide (id = i)) as [->|Hne].
        -- rewrite lookup_delete_eq, lookup_insert_eq, Eb, decide_True; [done|by left].
        -- rewrite lookup_delete_ne, lookup_insert_ne by done. destruct (h_legacy w !! id); [|done].
           by rewrite (decide_ext _ (id ∈ i :: ids)) by (rewrite elem_of_cons; naive_solver).
      * destruct (decide (id = i)) as [->|Hne].
        -- rewrite lookup_delete_eq, (decide_True (P := i ∈ i :: ids)) by (by left). by case_decide.
        -- rewrite lookup_delete_ne by done. by rewrite (decide_ext _ (id ∈ i :: ids)) by (rewrite elem_of_cons; naive_solver).
    + destruct (IH w Hnd) as (w' & E & Hx & Hr & Hl). exists w'. split; [exact E|]. split; [done|].
      split; intros id; [rewrite Hr; unfold moved|rewrite Hl].
      * destruct (decide (id = i)) as [->|Hne]; [by rewrite Eb|]. destruct (h_legacy w !! id); [|done].
        by rewrite (decide_ext _ (id ∈ i :: ids)) by (rewrite elem_of_cons; naive_solver).
      * destruct (decide (id = i)) as [->|Hne]; [rewrite Eb; by repeat case_decide|].
        by rewrite (decide_ext _ (id ∈ i :: ids)) by (rewrite elem_of_cons; naive_solver).
Qed.

(** A migration without failures moves every record the old index names and
    empties that index; running it again changes nothing. *)
Theorem migration_moves_all (w : hub St) : (∀ X, lb_members L X ≡ₚ elements X) →
  ∃ w', run L MigrateKeyLayout [] w = (Ok (), w') ∧
  (∀ id, id ∈ h_legacyIndex w → h_records w' !! id = from_option Some (h_records w !! id) (h_legacy w !! id)) ∧
  (∀ id, id ∉ h_legacyIndex w → h_records w' !! id = h_records w !! id) ∧
  run L MigrateKeyLayout [] w' = (Ok (), w').
Proof.
  intros Hm. unfold MigrateKeyLayout at 1. cbn [run exec head_outcome answer tail].
  assert (Hin : ∀ id, id ∈ lb_members L (h_legacyIndex w) ↔ id ∈ h_legacyIndex w)
    by (intros id; rewrite Hm; apply elem_of_elements).
  assert (Hnd : NoDup (lb_members L (h_legacyIndex w))) by (rewrite Hm; apply NoDup_elements).
  assert (Hno : ∀ w' : hub St, h_legacyIndex w' = ∅ → run L MigrateKeyLayout [] w' = (Ok (), w')).
  { intros w' Hw. cbn. rewrite Hw. destruct (lb_members L ∅) as [|x l] eqn:E; [done|]. exfalso.
    apply (not_elem_of_empty (C := gset string) x), elem_of_elements. rewrite <- Hm, E. by left. }
  destruct (lb_members L (h_legacyIndex w)) as [|i ids] eqn:E.
  - exists w. split; [done|]. split; [intros id []%Hin%not_elem_of_nil|]. split; [done|]. apply Hno.
    apply set_eq. intros id. rewrite <- Hin. split; [by intros ?%elem_of_nil|by intros ?%not_elem_of_empty].
  - destruct (run_migrate_keys (i :: ids) w Hnd) as (w' & Er & Hx & Hr & _). exists w'. split; [exact Er|].
    split_and!; [intros id Hid|intros id Hid|by apply Hno]; rewrite Hr; unfold moved; destruct (h_legacy w !! id); cbn; try done.
    + rewrite decide_True; [done|by apply Hin].
    + rewrite decide_False; [done|by rewrite Hin].
Qed.
End migration.

(** ** Examples *)

Module Example_races.
Definition rec : KeyRecord := mkKey "id0" "v1" "free" "acme" "" 0 None (Example_admin.hash "gk_id0_r0").
Definition w : hub TierManager :=
  with_tiers (with_keys Example_admin.start {["id0" := rec]} {["id0"]})
    (assigned (mkTierManager ∅) "v1" (Example_admin.hash "gk_id0_r0") "free" (Some "acme")).
Definition rotate (n : nat) : admin_request := Example_admin.request "root" "POST" "/v2/keys/id0/rotate" None n.
Definition drop : admin_request := Example_admin.request "root" "DELETE" "/v2/keys/id0" None 9.

Lemma rec_alive : alive (h_tiers w) rec.
Proof. by split; vm_compute. Qed.

Lemma apart h : tr_key (St := TierManager) "v1" (Example_admin.hash h).
Proof. split; [no_char|]. split; [done|]. apply TrimSpace_id, Example_admin.hash_chars. Qed.
End Example_races.

Lemma failed_rotation_keeps_old_secret_witness :
  ∃ w2, h_records w2 !! "id0" = None ∧
        tr_tier (St := TierManager) (h_tiers w2) "v1" (Example_admin.hash "gk_id0_r0") = "free".
Proof.
  assert (H := failed_rotation_keeps_old_secret Example_admin.L Example_admin.server Example_races.w Example_races.rec
    (Example_races.rotate 1) Example_races.drop "admin" "i/o timeout" eq_refl Example_races.rec_alive
    (Example_races.apart _) (Example_races.apart _) ltac:(by vm_compute)).
  destruct (run _ (rotateKey _ _ _ _ _) _ _) as [a w1]. destruct (run _ (deleteKey _ _ _ _) _ w1) as [b w2].
  destruct H as (_ & _ & Hn & _ & Ht & _). exists w2. split; [exact Hn|exact Ht].
Defined.

Lemma concurrent_rotations_leave_secret_witness :
  ∃ w2, h_records w2 !! "id0" = None ∧
        tr_tier (St := TierManager) (h_tiers w2) "v1" (Example_admin.hash "gk_id0_r1") = "free".
Proof.
  assert (Hk : ∀ x, x ∈ [Example_races.rec; rotated Example_admin.L Example_races.rec (Example_races.rotate 1);
                         rotated Example_admin.L Example_races.rec (Example_races.rotate 2)] →
               tr_key (St := TierManager) (kr_Group Example_races.rec) (kr_Hash x)).
  { intros x. rewrite !elem_of_cons. intros [->|[->|[->|?%elem_of_nil]]]; [apply Example_races.apart..|done]. }
  assert (Hnd : NoDup (kr_Hash <$> [Example_races.rec; rotated Example_admin.L Example_races.rec (Example_races.rotate 1);
                                    rotated Example_admin.L Example_races.rec (Example_races.rotate 2)]))
    by (apply (bool_decide_unpack _); by vm_compute).
  destruct (concurrent_rotations_leave_secret Example_admin.L Example_admin.server Example_races.w Example_races.rec
    (Example_races.rotate 1) (Example_races.rotate 2) Example_races.drop "admin" eq_refl Example_races.rec_alive Hk
    Hnd) as (a1 & a2 & w1 & _ & _ & _ & H).
  destruct (run _ (deleteKey _ _ _ _) _ w1) as [b w2]. destruct H as (_ & Hn & _ & _ & Ht & _).
  exists w2. split; [exact Hn|exact Ht].
Defined.
