(* ===== verification/Cli.v ===== *)
(** * The command line ([cmd/gate], [internal/app/devstack])

    What `gate` does with its arguments: the commands, the flags (the library's
    [flag] package on string and integer flags), the requests [gate ctl] sends
    to a hub and how it reads the answers, migration and validation of
    configuration files, and what [gate dev] sets up.  The requests are
    followed into the hub's admin API. *)

From S2P Require Import Prelude Float64 LuaNum GoLib TextForms Policies.
From S2P Require Import Config TtlCache Tiers Edge EdgeCache.
From S2P Require Import ConfigFile ConfigCheck ConfigAccepted ConfigLoad HubConfig ConfigProps ConfigRoundtrip ControlPlane ConfigDiff AdminApi.
From S2P Require Import AdminProps Startup.
From Stdlib Require Import Ascii.

Local Open Scope Z_scope.

(** ** Flags *)

(** [strconv.ParseInt(s, 0, 64)], which integer flags use: the base from the
    prefix, underscores between digits. *)
Definition any_digit (c : ascii) : option Z :=
  let n := Z.of_nat (nat_of_ascii (lower c)) in
  if (48 <=? n) && (n <=? 57) then Some (n - 48) else if (97 <=? n) && (n <=? 122) then Some (n - 87) else None.

Fixpoint base_digits (base acc : Z) (s : string) : option Z :=
  match s with
  | EmptyString => Some acc
  | String c s =>
      if (c =? "_")%char then base_digits base acc s
      else d ← any_digit c; if base <=? d then None else base_digits base (acc * base + d) s
  end.

(** The base and the digits after its prefix. *)
Definition base_of (s : string) : Z * string :=
  match s with
  | String z rest =>
      if negb (z =? "0")%char then (10, s)
      else match rest with
           | String c (String _ _ as digits) =>
               let c := lower c in
               if (c =? "b")%char then (2, digits) else if (c =? "o")%char then (8, digits)
               else if (c =? "x")%char then (16, digits) else (8, rest)
           | _ => (8, rest)
           end
  | EmptyString => (10, s)
  end.

(** [underscoreOK]: the kinds of character seen are a digit or a base prefix,
    an underscore, the start, or anything else. *)
Inductive seen := SeenStart | SeenDigit | SeenUnderscore | SeenOther.
Fixpoint underscores_ok (hex : bool) (i : seen) (s : string) : bool :=
  match s with
  | EmptyString => match i with SeenUnderscore => false | _ => true end
  | String c s =>
      let digit := match any_digit c with Some d => (d <? 10) || (hex && (d <? 16)) | None => false end in
      if digit then underscores_ok hex SeenDigit s
      else if (c =? "_")%char then match i with SeenDigit => underscores_ok hex SeenUnderscore s | _ => false end
      else match i with SeenUnderscore => false | _ => underscores_ok hex SeenOther s end
  end.
Definition underscoreOK (s : string) : bool :=
  match s with
  | String z (String c rest) =>
      let c := lower c in
      if (z =? "0")%char && ((c =? "b")%char || (c =? "o")%char || (c =? "x")%char)
      then underscores_ok (c =? "x")%char SeenDigit rest else underscores_ok false SeenStart s
  | _ => underscores_ok false SeenStart s
  end.

Definition ParseInt0 (s : string) : option Z :=
  let '(neg, s) := match s with
                   | String c t => if (c =? "-")%char then (true, t) else if (c =? "+")%char then (false, t) else (false, s)
                   | _ => (false, s)
                   end in
  if (s =? "")%string then None
  else
    let '(base, ds) := base_of s in
    n ← base_digits base 0 ds;
    if bool_decide (has_char "_" s) && negb (underscoreOK s) then None
    else
      let n := if neg then - n else n in
      if (int64_min <=? n) && (n <=? int64_max) then Some n else None.

(** The flags of a command: their names, and whether their values are
    integers; the values set so far. *)
Definition flag_set : Type := list (string * bool).
Inductive flag_outcome := FlagsHelp | FlagsBad | FlagsOk (values : gmap string string) (rest : list string).

(** [FlagSet.Parse], one argument or two at a time. *)
Fixpoint flag_Parse (fuel : nat) (flags : flag_set) (values : gmap string string) (args : list string) : flag_outcome :=
  match fuel with
  | O => FlagsOk values args
  | S fuel =>
      match args with
      | [] => FlagsOk values []
      | arg :: rest =>
          match arg with
          | String d1 (String c1 tail as one) =>
              if negb (d1 =? "-")%char then FlagsOk values args
              else if (c1 =? "-")%char && (tail =? "")%string then FlagsOk values rest
              else
                let name := if (c1 =? "-")%char then tail else one in
                match name with
                | EmptyString => FlagsBad
                | String n0 _ =>
                    if (n0 =? "-")%char || (n0 =? "=")%char then FlagsBad
                    else
                      let '(name, value) := Cut "=" name in
                      match find (λ f, (fst f =? name)%string) flags with
                      | None => if bool_decide (name ∈ ["help"; "h"]) then FlagsHelp else FlagsBad
                      | Some (_, integer) =>
                          let '(value, rest) := match value, rest with
                                                | None, v :: rest => (Some v, rest)
                                                | _, _ => (value, rest)
                                                end in
                          match value with
                          | None => FlagsBad
                          | Some v =>
                              if integer && bool_decide (ParseInt0 v = None) then FlagsBad
                              else flag_Parse fuel flags (<[name := v]> values) rest
                          end
                      end
                end
          | _ => FlagsOk values args
          end
      end
  end.

(** Each turn takes an argument: as many turns as arguments are enough. *)
Definition parse_flags (flags : flag_set) (args : list string) : flag_outcome := flag_Parse (S (length args)) flags ∅ args.

(** ** [gate ctl] ([ctl.go]) *)

Inductive ctl_command :=
| KeysCreate (group tier owner name : string)
| KeysList (group : string)
| KeysSetTier (id tier : string)
| KeysRotate (id : string)
| KeysRevoke (id : string)
| CtlStatus
| CtlAudit (n : Z)
| CtlDiff (text : string)
| CtlApply (text : string).

(** What the arguments come to: a command, the help text, or an error. *)
Inductive ctl_parsed := CtlRun (c : ctl_command) | CtlHelp | CtlUsage | CtlBadFlags | CtlUnreadable.

Definition with_flags (flags : flag_set) (args : list string) (f : gmap string string → ctl_command) : ctl_parsed :=
  match parse_flags flags args with
  | FlagsHelp => CtlHelp
  | FlagsBad => CtlBadFlags
  | FlagsOk values _ => CtlRun (f values)
  end.
Definition flag_string (values : gmap string string) (name : string) : string := default "" (values !! name).
Definition flag_int (values : gmap string string) (name : string) (def : Z) : Z := default def (values !! name ≫= ParseInt0).

Definition keys_parse (args : list string) : ctl_parsed :=
  match args with
  | "create" :: rest =>
      with_flags [("group", false); ("tier", false); ("owner", false); ("name", false)] rest
        (λ v, KeysCreate (flag_string v "group") (flag_string v "tier") (flag_string v "owner") (flag_string v "name"))
  | "list" :: rest => with_flags [("group", false)] rest (λ v, KeysList (flag_string v "group"))
  | "set-tier" :: rest => match rest with [id; tier] => CtlRun (KeysSetTier id tier) | _ => CtlUsage end
  | "rotate" :: rest => match rest with [id] => CtlRun (KeysRotate id) | _ => CtlUsage end
  | "revoke" :: rest => match rest with [id] => CtlRun (KeysRevoke id) | _ => CtlUsage end
  | _ => CtlUsage
  end.

(** [runCtl] up to the request; [read]: the file system. *)
Definition ctl_parse (read : string → option string) (args : list string) : ctl_parsed :=
  match args with
  | "keys" :: rest => keys_parse rest
  | "status" :: _ => CtlRun CtlStatus
  | "audit" :: rest => with_flags [("n", true)] rest (λ v, CtlAudit (flag_int v "n" 20))
  | "config" :: rest =>
      match rest with
      | [verb; file] =>
          if negb ((verb =? "diff")%string || (verb =? "apply")%string) then CtlUsage
          else match read file with
               | None => CtlUnreadable
               | Some body => CtlRun (if (verb =? "apply")%string then CtlApply body else CtlDiff body)
               end
      | _ => CtlUsage
      end
  | cmd :: _ => if bool_decide (cmd ∈ ["help"; "-h"; "--help"]) then CtlHelp else CtlUsage
  | [] => CtlUsage
  end.

(** The request of a command: method, the part of the URL after the hub's
    address, and the body. *)
Inductive ctl_body := KeyBody (group tier owner name : string) | TierBody (tier : string) | FileBody (text : string).
Record ctl_call := mkCall { cc_Method : string; cc_Target : string; cc_Body : option ctl_body }.

Definition call_of (c : ctl_command) : ctl_call :=
  match c with
  | KeysCreate g t o n => mkCall "POST" "/v2/keys" (Some (KeyBody g t o n))
  | KeysList g => mkCall "GET" ("/v2/keys?group=" +:+ g) None
  | KeysSetTier id tier => mkCall "PATCH" ("/v2/keys/" +:+ id) (Some (TierBody tier))
  | KeysRotate id => mkCall "POST" ("/v2/keys/" +:+ id +:+ "/rotate") None
  | KeysRevoke id => mkCall "DELETE" ("/v2/keys/" +:+ id) None
  | CtlStatus => mkCall "GET" "/status" None
  | CtlAudit n => mkCall "GET" ("/v2/audit?count=" +:+ itoa n) None
  | CtlDiff text => mkCall "POST" "/config-reload/dry-run" (Some (FileBody text))
  | CtlApply text => mkCall "POST" "/config-reload" (Some (FileBody text))
  end.

(** Where the requests go and the token they carry. *)
Definition ctl_env (env : environment) : string * string :=
  let envOr key def := let v := default "" (env key) in if (v =? "")%string then def else v in
  (TrimRight "/" (envOr "GATE_HUB" "http://localhost:8081"), envOr "GATE_TOKEN" (default "" (env "HUB_AUTH_TOKEN"))).

(** [do]'s reading of the answer: the status and the bytes; [problem]: the
    JSON decoding of a problem's title, detail and code. *)
Inductive ctl_error := Unreachable | HubProblem (title code detail : string) | HubStatus (status : Z) (text : string).
Definition ctl_answer (problem : string → option (string * string * string)) (answer : option (Z * string)) : result ctl_error string :=
  match answer with
  | None => Err Unreachable
  | Some (status, data) =>
      if status `quot` 100 =? 2 then Ok data
      else match problem data with
           | Some (title, detail, code) => if (code =? "")%string then Err (HubStatus status (TrimSpace data)) else Err (HubProblem title code detail)
           | None => Err (HubStatus status (TrimSpace data))
           end
  end.

(** *** The request at the hub *)

(** [net/url]: the escaped path and the query of a URL's part after the
    authority; a value of the query. *)
Definition url_parts (target : string) : string * string :=
  let '(target, _) := Cut "#" target in let '(path, query) := Cut "?" target in (path, default "" query).
Definition query_value (key query : string) : string :=
  default "" (head (omap (λ kv, match Cut "=" kv with (k, v) => if (k =? key)%string then Some (default "" v) else None end) (GoLib.Split "&" query))).

Section request.
Variable L : libs.
(** How the hub reads a document sent to it, and what the transport adds. *)
Variable document_of : string → reload_body.
Variable base : admin_request.

Definition request_of (token : string) (c : ctl_call) : admin_request :=
  let '(path, query) := url_parts (cc_Target c) in
  mkAdminRequest (cc_Method c) (lb_pathUnescape L path) path
    (let h := match cc_Body c with Some _ => header_set ∅ "Content-Type" "application/json" | None => ∅ end in
     if (token =? "")%string then h else header_set h "Authorization" ("Bearer " +:+ token))
    (query_value "group" query) (query_value "count" query)
    (match cc_Body c with None => 0 | Some _ => aq_Length base end)
    (match cc_Body c with
     | Some (KeyBody g t o n) => Some (mkKeyRequest (Some g) (Some t) (Some o) (Some n))
     | Some (TierBody t) => Some (mkKeyRequest None (Some t) None None)
     | _ => None
     end)
    None
    (match cc_Body c with
     | Some (FileBody text) => if (TrimSpace text =? "")%string then ReloadBlank else document_of text
     | _ => ReloadBlank
     end)
    (aq_Now base) (aq_RandomID base) (aq_Random base) (aq_RequestID base).
End request.

(** ** From a command to the hub's handler *)

Definition url_safe (c : ascii) : bool :=
  let n := Z.of_nat (nat_of_ascii c) in
  ((48 <=? n) && (n <=? 57)) || ((65 <=? n) && (n <=? 90)) || ((97 <=? n) && (n <=? 122)) || (n =? 45) || (n =? 95).
(** IDs and groups as the hub makes them: letters, digits, '-' and '_'. *)
Definition safe_name (s : string) : Prop := s ≠ "" ∧ Forall (λ c, url_safe c = true) (chars s).

Lemma safe_no c s : safe_name s → url_safe c = false → ¬ has_char c s.
Proof. intros [_ Hs] Hc Hin. unfold has_char in Hin. eapply Forall_forall in Hin; [|exact Hs]. cbn in Hin. congruence. Qed.

Lemma Split_none c s : ¬ has_char c s → GoLib.Split c s = [s].
Proof.
  unfold has_char. induction s as [|d s IH]; [done|]. cbn [chars]. intros [Hd Hs]%not_elem_of_cons. cbn [GoLib.Split].
  apply Ascii.eqb_neq in Hd. rewrite Hd, IH by done. done.
Qed.
Lemma Split_sep c a b : ¬ has_char c a → GoLib.Split c (a +:+ String c b) = a :: GoLib.Split c b.
Proof.
  unfold has_char. induction a as [|d a IH]; intros H.
  - rewrite app_nil_str. cbn [GoLib.Split]. by rewrite Ascii.eqb_refl.
  - rewrite app_cons_str. cbn [chars] in H. apply not_elem_of_cons in H as [Hd Ha]. cbn [GoLib.Split].
    apply Ascii.eqb_neq in Hd. rewrite Hd, (IH Ha). done.
Qed.

(** The handler a command is meant for. *)
Definition handler_of (L : libs) (s : HubServer) (r : admin_request) (c : ctl_command) : prog admin_response :=
  match c with
  | KeysCreate _ _ _ _ => createKey L s r "admin"
  | KeysList _ => listKeys r
  | KeysSetTier id _ => updateKey s r "admin" id
  | KeysRotate id => rotateKey L s r "admin" id
  | KeysRevoke id => deleteKey s r "admin" id
  | CtlStatus => handleStatus s r
  | CtlAudit _ => listAudit r
  | CtlDiff _ => handleConfigReloadDryRun L r
  | CtlApply _ => handleConfigReload L s r "admin"
  end.

(** The names in a command's URL are safe ones. *)
Definition safe_command (c : ctl_command) : Prop :=
  match c with
  | KeysList g => g = "" ∨ safe_name g
  | KeysSetTier id _ | KeysRotate id | KeysRevoke id => safe_name id
  | _ => True
  end.

(** The request a command's call becomes has its path and its query. *)
Lemma parts_plain path : ¬ has_char "#" path → ¬ has_char "?" path → url_parts path = (path, "").
Proof. intros H1 H2. unfold url_parts. by rewrite (Cut_none "#"), (Cut_none "?") by done. Qed.
Lemma parts_query path query : ¬ has_char "#" path → ¬ has_char "?" path → ¬ has_char "#" query →
  url_parts (path +:+ String "?" query) = (path, query).
Proof.
  intros H1 H2 H3. unfold url_parts. rewrite (Cut_none "#"), (Cut_app "?") by
    (done || rewrite has_char_app; unfold has_char in *; cbn [chars]; rewrite elem_of_cons; intuition congruence). done.
Qed.

Lemma key_segments id : ¬ has_char "/" id → GoLib.Split "/" ("v2/keys/" +:+ id) = ["v2"; "keys"; id].
Proof.
  intros Hn. change ("v2/keys/" +:+ id) with ("v2" +:+ String "/" ("keys" +:+ String "/" id)).
  rewrite !Split_sep, Split_none; [done|done|unfold has_char; cbn; set_solver..].
Qed.
Lemma rotate_segments id : ¬ has_char "/" id → GoLib.Split "/" ("v2/keys/" +:+ id +:+ "/rotate") = ["v2"; "keys"; id; "rotate"].
Proof.
  intros Hn. change ("v2/keys/" +:+ id +:+ "/rotate") with ("v2" +:+ String "/" ("keys" +:+ String "/" (id +:+ String "/" "rotate"))).
  rewrite !Split_sep; [done|done|unfold has_char; cbn; set_solver..].
Qed.

Lemma trim_key id : safe_name id → GoLib.Trim "/" ("/v2/keys/" +:+ id) = "v2/keys/" +:+ id.
Proof.
  intros Hs. assert (Hn := safe_no "/" id Hs eq_refl). destruct Hs as [Hne _].
  unfold GoLib.Trim. change (TrimLeft "/" ("/v2/keys/" +:+ id)) with ("v2/keys/" +:+ id). by rewrite TrimRight_app.
Qed.
Lemma trim_rotate id : GoLib.Trim "/" ("/v2/keys/" +:+ id +:+ "/rotate") = "v2/keys/" +:+ id +:+ "/rotate".
Proof.
  unfold GoLib.Trim. change (TrimLeft "/" ("/v2/keys/" +:+ id +:+ "/rotate")) with ("v2/keys/" +:+ id +:+ "/rotate").
  replace ("v2/keys/" +:+ id +:+ "/rotate") with (("v2/keys/" +:+ id +:+ "/") +:+ "rotate") by (by rewrite <- !app_assoc_str).
  apply TrimRight_app; [done|]. unfold has_char; cbn; set_solver.
Qed.

Lemma list_parts g : g = "" ∨ safe_name g → url_parts ("/v2/keys?group=" +:+ g) = ("/v2/keys", "group=" +:+ g).
Proof.
  intros Hg. change ("/v2/keys?group=" +:+ g) with ("/v2/keys" +:+ String "?" ("group=" +:+ g)). apply parts_query; [no_char|no_char|].
  rewrite has_char_app. intros [H|H]; [contradict H; no_char|]. destruct Hg as [->|Hg]; [contradict H; no_char|by apply (safe_no "#" g Hg) in H].
Qed.
Lemma audit_parts n : url_parts ("/v2/audit?count=" +:+ itoa n) = ("/v2/audit", "count=" +:+ itoa n).
Proof.
  change ("/v2/audit?count=" +:+ itoa n) with ("/v2/audit" +:+ String "?" ("count=" +:+ itoa n)). apply parts_query; [no_char|no_char|].
  rewrite has_char_app. intros [H|H]; [contradict H; no_char|]. revert H. apply itoa_sep. unfold is_sep. tauto.
Qed.

Section reaching.
Variable L : libs.
Variable s : HubServer.
Variable document_of : string → reload_body.
Variable base : admin_request.
(** A string without escapes stands for itself. *)
Hypothesis unescape_plain : ∀ x, ¬ has_char "%" x → lb_pathUnescape L x = x.

Notation sent c := (request_of L document_of base (hs_authToken s) (call_of c)).

Lemma sent_admin c : authorize s (sent c) = Some "admin".
Proof using Type.
  unfold authorize. destruct (String.eqb_spec (hs_authToken s) "") as [|Hne]; [done|].
  unfold request_of. destruct (url_parts _) as [path query]. cbn [aq_Header].
  apply String.eqb_neq in Hne. rewrite Hne. unfold header_get, header_set. rewrite lookup_insert_eq. cbn [from_option id].
  rewrite CutPrefix_app, String.eqb_refl. done.
Qed.

Lemma sent_path c path query : url_parts (cc_Target (call_of c)) = (path, query) → ¬ has_char "%" path →
  aq_Path (sent c) = path ∧ aq_EscapedPath (sent c) = path ∧ aq_Method (sent c) = cc_Method (call_of c).
Proof using unescape_plain. intros Hp Hn. unfold request_of. rewrite Hp. cbn. by rewrite unescape_plain. Qed.

(** The first segment decides where a request goes. *)
Lemma sent_v2 c parts :
  GoLib.Split "/" (GoLib.Trim "/" (aq_Path (sent c))) = "v2" :: parts → admin_route L s (sent c) = v2_ServeHTTP L s (sent c) "admin".
Proof using Type. intros Hp. unfold admin_route. rewrite Hp, sent_admin. done. Qed.


Lemma safe_segment id : safe_name id → id ≠ "." ∧ id ≠ "..".
Proof using Type. intros [_ Hs]. split; intros ->; apply Forall_cons in Hs as [H _]; done. Qed.

(** A request for a key by its ID. *)
Lemma sent_key c id : safe_name id → cc_Target (call_of c) = "/v2/keys/" +:+ id →
  admin_route L s (sent c) = v2_ServeHTTP L s (sent c) "admin" ∧
  aq_Method (sent c) = cc_Method (call_of c) ∧ GoLib.Split "/" (aq_EscapedPath (sent c)) = ["" ; "v2"; "keys"; id] ∧
  lb_pathUnescape L <$> ["v2"; "keys"; id] = ["v2"; "keys"; id] ∧ clean_segments ["v2"; "keys"; id] = true.
Proof using unescape_plain.
  intros Hs Ht. assert (Hno := λ c, safe_no c id Hs).
  destruct (sent_path c ("/v2/keys/" +:+ id) "") as (H1 & H2 & H3).
  { rewrite Ht. apply parts_plain; rewrite has_char_app; intros [H|H]; try (by apply Hno in H); unfold has_char in H; cbn in H; set_solver. }
  { rewrite has_char_app; intros [H|H]; [unfold has_char in H; cbn in H; set_solver|by apply Hno in H]. }
  rewrite (sent_v2 c ["keys"; id]) by (rewrite H1, trim_key by done; by apply key_segments, Hno).
  split_and!; [done|done| | |].
  - rewrite H2. change ("/v2/keys/" +:+ id) with (String "/" ("v2/keys/" +:+ id)). cbn [GoLib.Split]. by rewrite Ascii.eqb_refl, key_segments by by apply Hno.
  - cbn. rewrite !unescape_plain; [done|by apply Hno|unfold has_char; cbn; set_solver..].
  - destruct (safe_segment id Hs) as [Hd Hdd]. cbn. apply String.eqb_neq in Hd, Hdd. by rewrite Hd, Hdd.
Qed.

Lemma sent_rotate id : safe_name id →
  admin_route L s (sent (KeysRotate id)) = v2_ServeHTTP L s (sent (KeysRotate id)) "admin" ∧ aq_Method (sent (KeysRotate id)) = "POST" ∧
  GoLib.Split "/" (aq_EscapedPath (sent (KeysRotate id))) = ["" ; "v2"; "keys"; id; "rotate"] ∧
  lb_pathUnescape L <$> ["v2"; "keys"; id; "rotate"] = ["v2"; "keys"; id; "rotate"] ∧ clean_segments ["v2"; "keys"; id; "rotate"] = true.
Proof using unescape_plain.
  intros Hs. assert (Hno := λ c, safe_no c id Hs).
  assert (∀ c, url_safe c = false → c ≠ "/"%char → ¬ has_char c ("/v2/keys/" +:+ id +:+ "/rotate")) as Hall.
  { intros c Hc Hsl. rewrite !has_char_app. intros [H|[H|H]]; [|by apply Hno in H|]; unfold has_char in H; cbn in H;
      repeat (apply elem_of_cons in H as [->|H]; [done|]); by apply elem_of_nil in H. }
  destruct (sent_path (KeysRotate id) ("/v2/keys/" +:+ id +:+ "/rotate") "") as (H1 & H2 & H3); [by apply parts_plain; apply Hall|by apply Hall|].
  rewrite (sent_v2 _ ["keys"; id; "rotate"]) by (rewrite H1, trim_rotate; by apply rotate_segments, Hno).
  split_and!; [done|done| | |].
  - rewrite H2. change ("/v2/keys/" +:+ id +:+ "/rotate") with (String "/" ("v2/keys/" +:+ id +:+ "/rotate")). cbn [GoLib.Split].
    by rewrite Ascii.eqb_refl, rotate_segments by by apply Hno.
  - cbn. rewrite !unescape_plain; [done|..]; (by apply Hno) || (unfold has_char; cbn; set_solver).
  - destruct (safe_segment id Hs) as [Hd Hdd]. cbn. destruct Hs as [Hne _]. apply String.eqb_neq in Hd, Hdd, Hne. by rewrite Hd, Hdd, Hne.
Qed.

(** A request whose path is a fixed one. *)
Lemma sent_fixed c path query : url_parts (cc_Target (call_of c)) = (path, query) → ¬ has_char "%" path →
  aq_Path (sent c) = path ∧ aq_EscapedPath (sent c) = path ∧ aq_Method (sent c) = cc_Method (call_of c) ∧
  (∀ x, x ∈ ["v2"; "keys"; "audit"] → lb_pathUnescape L x = x).
Proof using unescape_plain.
  intros Hp Hn. destruct (sent_path c path query Hp Hn) as (H1 & H2 & H3). split_and!; [done..|].
  intros x Hx. apply unescape_plain. unfold has_char.
  repeat (apply elem_of_cons in Hx as [->|Hx]; [cbn; set_solver|]). by apply elem_of_nil in Hx.
Qed.

Lemma reach_keys c id : safe_name id → cc_Target (call_of c) = "/v2/keys/" +:+ id →
  admin_route L s (sent c) =
  if (cc_Method (call_of c) =? "PATCH")%string then updateKey s (sent c) "admin" id
  else if (cc_Method (call_of c) =? "DELETE")%string then deleteKey s (sent c) "admin" id
  else admin_route L s (sent c).
Proof using unescape_plain.
  intros Hs Ht. destruct (sent_key c id Hs Ht) as (-> & Hm & Hp & Hu & Hc).
  unfold v2_ServeHTTP, v2Routes, is_get, is_method. rewrite Hp, Hm, Hu, Hc. cbn [negb andb].
  destruct Hs as [Hne _]. apply String.eqb_neq in Hne.
  destruct (String.eqb_spec (cc_Method (call_of c)) "PATCH") as [->|]; cbn; [by rewrite Hne|].
  destruct (String.eqb_spec (cc_Method (call_of c)) "DELETE") as [->|]; cbn; [by rewrite Hne|]. done.
Qed.

(** C9: a command of gate ctl does at the hub what it says.  For every command
    whose group or key ID consists of letters, digits, '-' and '_', as those
    the hub makes do, the request sent with the hub's token passes
    authorization as an administrator and reaches exactly the handler of that
    command, for the key that was named. *)
Theorem ctl_reaches c : safe_command c → admin_route L s (sent c) = handler_of L s (sent c) c.
Proof using unescape_plain.
  destruct c as [g t o n|g|id t|id|id| |n|text|text]; cbn [safe_command handler_of]; intros Hs.
  - destruct (sent_fixed (KeysCreate g t o n) "/v2/keys" "") as (H1 & H2 & H3 & H4); [done|no_char|].
    rewrite (sent_v2 _ ["keys"]) by by rewrite H1. unfold v2_ServeHTTP, v2Routes, is_method. rewrite H2, H3. cbn. by rewrite !H4 by set_solver.
  - destruct (sent_fixed (KeysList g) _ _ (list_parts g Hs)) as (H1 & H2 & H3 & H4); [no_char|].
    rewrite (sent_v2 _ ["keys"]) by by rewrite H1. unfold v2_ServeHTTP, v2Routes, is_get, is_method. rewrite H2, H3. cbn. by rewrite !H4 by set_solver.
  - by apply (reach_keys (KeysSetTier id t)).
  - destruct (sent_rotate id Hs) as (-> & Hm & Hp & Hu & Hc). unfold v2_ServeHTTP, v2Routes, is_get, is_method. rewrite Hp, Hm, Hu, Hc.
    destruct Hs as [Hne _]. apply String.eqb_neq in Hne. cbn. by rewrite Hne.
  - by apply (reach_keys (KeysRevoke id)).
  - destruct (sent_fixed CtlStatus "/status" "") as (H1 & H2 & H3 & _); [done|no_char|]. unfold admin_route. by rewrite H1, sent_admin.
  - destruct (sent_fixed (CtlAudit n) _ _ (audit_parts n)) as (H1 & H2 & H3 & H4); [no_char|].
    rewrite (sent_v2 _ ["audit"]) by by rewrite H1. unfold v2_ServeHTTP, v2Routes, is_get, is_method. rewrite H2, H3. cbn. by rewrite !H4 by set_solver.
  - destruct (sent_fixed (CtlDiff text) "/config-reload/dry-run" "") as (H1 & H2 & H3 & _); [done|no_char|]. unfold admin_route. by rewrite H1, sent_admin.
  - destruct (sent_fixed (CtlApply text) "/config-reload" "") as (H1 & H2 & H3 & _); [done|no_char|]. unfold admin_route. by rewrite H1, sent_admin.
Qed.
End reaching.

(** ** Configuration files ([gate config], [migrate.go]) *)

Section config.
(** The libraries: JSON for files of version 1; YAML, which writes a file and
    reads a text as a document, its root or a syntax error, and the file the
    document decodes to. *)
Variable v1_Unmarshal : string → option GatewayConfig.
Variable Marshal : File → option string.
Variable yaml : string → document * (string + option nat) * (File * option decode_error).
Variable url_Parse ParseRequestURI : string → option URL.
Variable regexp_ok : string → bool.
Variable range_cost : gmap string Z → list (string * Z).
Variable range_floors : gmap string float64 → list (string * float64).

(** [config.Parse]: aliases apart, a document is as deep as it has nodes. *)
Definition parse_text (text name : string) : option (result Error File) :=
  let '(doc, unmarshalled, decoded) := yaml text in
  Parse doc file_schema range_cost range_floors url_Parse regexp_ok (S (length doc)) name unmarshalled decoded.

Inductive migrate_error := NotVersion1 | NoPrefixes | MarshalFailed | NeedsFixes (e : Error) | ParseDiverges.

(** [MigrateV1]: the file, when there is one, and the error. *)
Definition MigrateV1 (data : string) : option File * option migrate_error :=
  match v1_Unmarshal data with
  | None => (None, Some NotVersion1)
  | Some v1 =>
      if bool_decide (gc_Prefixes v1 = []) then (None, Some NoPrefixes)
      else
        let f := FromInternal v1 in
        match Marshal f with
        | None => (None, Some MarshalFailed)
        | Some out =>
            match parse_text out "migrated config" with
            | Some (Ok _) => (Some f, None)
            | Some (Err e) => (Some f, Some (NeedsFixes e))
            | None => (Some f, Some ParseDiverges)
            end
        end
  end.

(** [runConfig]: what is printed, and whether there is an error. *)
Inductive config_outcome :=
| ConfigUsage
| ConfigUnreadable
| ConfigRefused (e : Error + Problem)
| ConfigDiverges
| ConfigValid (services : nat)
| ConfigMigrated (out : option string) (e : option migrate_error)
| ConfigSchema.

Definition runConfig (read : string → option string) (args : list string) : config_outcome :=
  match args with
  | ["validate"; file] =>
      match read file with
      | None => ConfigUnreadable
      | Some text =>
          match parse_text text file with
          | None => ConfigDiverges
          | Some (Err e) => ConfigRefused (inl e)
          | Some (Ok f) =>
              let cfg := Compile f in
              match ValidateGatewayConfig ParseRequestURI cfg with
              | Some p => ConfigRefused (inr p)
              | None => ConfigValid (sum_list_with (λ p, length (px_Services p)) (gc_Prefixes cfg))
              end
          end
      end
  | ["migrate"; file] =>
      match read file with
      | None => ConfigUnreadable
      | Some data =>
          match MigrateV1 data with
          | (None, e) => ConfigMigrated None e
          | (Some f, e) => match Marshal f with None => ConfigMigrated None (Some MarshalFailed) | Some out => ConfigMigrated (Some out) e end
          end
      end
  | ["schema"] => ConfigSchema
  | _ => ConfigUsage
  end.

(** What a migration prints without an error is a file that the hub's reader
    accepts, with the settings of the configuration that was migrated. *)
Lemma migrated_loads read file out :
  (∀ f text, Marshal f = Some text → fst (snd (yaml text)) = f) →
  runConfig read ["migrate"; file] = ConfigMigrated (Some out) None →
  ∃ data v1, read file = Some data ∧ v1_Unmarshal data = Some v1 ∧ parse_text out "migrated config" = Some (Ok (FromInternal v1)).
Proof.
  intros Hy H. cbn in H. destruct (read file) as [data|]; [|done]. unfold MigrateV1 in H.
  destruct (v1_Unmarshal data) as [v1|] eqn:Hv; [|done]. case_bool_decide; [done|].
  destruct (Marshal (FromInternal v1)) as [text|] eqn:Hm; [|done].
  destruct (parse_text text "migrated config") as [[f|e]|] eqn:Hp; rewrite Hm in H; simplify_eq.
  exists data, v1. split_and!; [done..|]. rewrite Hp. do 2 f_equal. specialize (Hy _ _ Hm).
  unfold parse_text in Hp. destruct (yaml out) as [[doc u] dec]. cbn in Hy. subst. unfold Parse in Hp.
  repeat (case_match; try done; simplify_eq); apply bind_Some in Hp as (p & _ & Hp); by case_match; simplify_eq.
Qed.
End config.

(** ** [gate dev] ([devstack.go]) *)

(** The -keys flag: [None] when a pair is not key=tier. *)
Fixpoint dev_keys (keys : gmap string string) (pairs : list string) : option (gmap string string) :=
  match pairs with
  | [] => Some keys
  | kv :: pairs =>
      match Cut "=" (TrimSpace kv) with
      | (k, Some t) => if (k =? "")%string || (t =? "")%string then None else dev_keys (<[k := t]> keys) pairs
      | _ => None
      end
  end.

Definition alnum (c : ascii) : bool := url_safe c && negb (c =? "-")%char && negb (c =? "_")%char.
Fixpoint keep_chars (f : ascii → bool) (s : string) : string :=
  match s with EmptyString => EmptyString | String c s => if f c then String c (keep_chars f s) else keep_chars f s end.

Definition default_key (tierID : string) : string := ToLower (keep_chars alnum tierID) +:+ "key".
Definition defaultKeys (cfg : option GatewayConfig) : gmap string string :=
  match cfg with
  | Some cfg =>
      match gc_Prefixes cfg with
      | [] => ∅
      | p :: _ => foldl (λ keys t, <[default_key (t_TierID t) := t_TierID t]> keys) ∅ (px_Services p ≫= sv_Tiers)
      end
  | None => ∅
  end.

Definition firstRoute (cfg : option GatewayConfig) : string * string :=
  match gc_Prefixes <$> cfg with
  | Some (p :: _) => match px_Services p with svc :: _ => (px_Prefix p, sv_ServiceID svc) | [] => ("", "") end
  | _ => ("", "")
  end.

(** [seedKeys]: the request for a key, with the body {"tier_id": tier}. *)
Definition seed_target (prefix key : string) : string := "/tiers/" +:+ prefix +:+ "/" +:+ key.

(** [waitReady] against the answers of the server: each is a status, and
    whether the deadline has passed when it has been read.  [None]: still
    waiting. *)
Fixpoint waitReady (answers : list (option Z * bool)) : option bool :=
  match answers with
  | [] => None
  | (status, late) :: answers => if bool_decide (status = Some 200) then Some true else if late then Some false else waitReady answers
  end.

Record dev_options := mkDevOptions {
  dv_ConfigPath : string; dv_EdgeAddr : string; dv_HubAddr : string; dv_AnalyticsAddr : string; dv_LimiterAddr : string; dv_LimiterGRPC : string;
}.

(** The configurations of the processes; [redis], [nats]: where the embedded
    servers listen; [token]: the random one; [hubURL], [hubGRPC]: where the
    hub listens. *)
Section dev.
Context (o : dev_options) (cfgPath redis nats token hubURL hubGRPC : string).

Definition dev_hub : hub_Config := {|
  hb_HTTPAddr := dv_HubAddr o; hb_GRPCAddr := "127.0.0.1:0"; hb_ConfigPath := cfgPath; hb_AuthToken := token; hb_ReadToken := "";
  hb_RedisAddr := redis; hb_RedisAddrs := []; hb_EnforceNoEviction := false; hb_EdgeOrigins := []; hb_MetricsAddr := "";
  hb_TLSCertFile := ""; hb_TLSKeyFile := ""; hb_TLSCAFile := ""; hb_GRPCClientAuthMode := ""; hb_Region := ""; hb_RegionPeers := ∅; hb_RegionServerName := "" |}.

Definition dev_edge : edge_Config := {|
  ec_HTTPAddr := dv_EdgeAddr o; ec_EdgeID := "dev-edge"; ec_HubGRPCAddr := hubGRPC; ec_HubGRPCServerName := "";
  ec_TLSCertFile := ""; ec_TLSKeyFile := ""; ec_TLSCAFile := ""; ec_RedisAddr := ""; ec_CacheBytes := Z.shiftl 16 20;
  ec_Limiter := ""; ec_LimiterRedis := ""; ec_LeaseSize := 0; ec_LeaseLowWaterPct := f64_zero;
  ec_AnalyticsEnabled := negb (dv_AnalyticsAddr o =? "")%string; ec_NATSURL := nats; ec_AnalyticsSubject := "";
  ec_BootstrapConfigFile := ""; ec_AdminToken := ""; ec_MetricsAddr := "" |}.

Definition dev_analytics : analytics_Config := {|
  an_HTTPAddr := dv_AnalyticsAddr o; an_HubAddr := hubURL; an_HubToken := token; an_APIToken := ""; an_ClickHouseDSN := ""; an_ClickHouseTable := "";
  an_RetentionDays := 0; an_RedisAddr := redis; an_NATSURL := nats; an_NATSSubject := ""; an_NATSQueue := ""; an_MetricsAddr := ""; an_PrometheusURL := "" |}.

Definition dev_limiter : limiter_Config := {|
  lc_HTTPAddr := dv_LimiterAddr o; lc_GRPCAddr := (if (dv_LimiterGRPC o =? "")%string then "127.0.0.1:0" else dv_LimiterGRPC o); lc_ID := "dev-limiter";
  lc_HubGRPCAddr := hubGRPC; lc_HubGRPCServerName := ""; lc_TLSCertFile := ""; lc_TLSKeyFile := ""; lc_TLSCAFile := "";
  lc_Secret := token; lc_Token := ""; lc_MetricsAddr := "" |}.

(** Every process [gate dev] starts passes its own checks, given a loadable
    configuration and embedded servers that listen on the machine itself. *)
Lemma dev_valid files loads :
  token ≠ "" → cfgPath ≠ "" → loads cfgPath = true → IsLoopback hubGRPC = true → redis ≠ "" → nats ≠ "" →
  HasPrefix hubURL "http://" = true →
  hub_Validate files loads dev_hub = [] ∧ edge_Validate dev_edge = [] ∧ limiter_Validate dev_limiter = [] ∧ analytics_Validate dev_analytics = [].
Proof.
  intros Ht Hc Hl Hg Hr Hn Hu. apply String.eqb_neq in Ht, Hc, Hr, Hn.
  assert ((hubGRPC =? "")%string = false) as Hg0 by (apply String.eqb_neq; intros ->; done).
  assert ((hubURL =? "")%string = false) as Hu0 by (apply String.eqb_neq; intros ->; done).
  unfold hub_Validate, edge_Validate, limiter_Validate, analytics_Validate, check_hub_connection. cbn [dev_hub dev_edge dev_limiter dev_analytics
    hb_AuthToken hb_ConfigPath hb_GRPCAddr ec_HubGRPCAddr ec_HubGRPCServerName ec_NATSURL lc_HubGRPCAddr an_ClickHouseDSN an_RedisAddr an_NATSURL an_HubAddr
    lc_HTTPAddr lc_GRPCAddr].
  rewrite Ht, Hc, Hl, Hg, Hg0, Hr, Hn, Hu, Hu0. cbn. rewrite andb_false_r. split_and!; [done|done| |done].
  destruct (dv_LimiterGRPC o =? "")%string eqn:E; [by rewrite andb_false_r|]. by rewrite E, andb_false_r.
Qed.
End dev.

(** Demo keys satisfy the hub's default pattern for keys: letters and digits,
    at least three of them. *)
Lemma default_key_chars tierID : Forall (λ c, alnum c = true) (chars (default_key tierID)) ∧ (3 ≤ String.length (default_key tierID))%nat.
Proof.
  unfold default_key. rewrite length_app_str. split; [|cbn; lia].
  induction tierID as [|c s IH]; [by repeat constructor|]. cbn [keep_chars]. destruct (alnum c) eqn:E; [|done].
  cbn [ToLower]. rewrite app_cons_str. cbn [chars]. constructor; [|done]. clear IH. revert E. clear.
  destruct c as [[] [] [] [] [] [] [] []]; vm_compute; done.
Qed.

(** Tiers whose names differ in punctuation or case only share one key. *)
Example default_keys_collide : default_key "free-1" = default_key "Free1".
Proof. reflexivity. Qed.

(** ** [gate] ([main.go]) *)

Inductive gate_command := GateUsage | GateDev | GateHub | GateEdge | GateAnalytics | GateLimiter | GateEcho | GateConfig | GateCtl | GateVersion | GateHelp | GateUnknown.
Definition gate_run (args : list string) : gate_command :=
  match args with
  | [] => GateUsage
  | cmd :: _ =>
      match cmd with
      | "dev" => GateDev | "hub" => GateHub | "edge" => GateEdge | "analytics" => GateAnalytics | "limiter" => GateLimiter
      | "echo" => GateEcho | "config" => GateConfig | "ctl" => GateCtl | "version" | "--version" => GateVersion
      | "help" | "-h" | "--help" => GateHelp | _ => GateUnknown
      end
  end.

(** [noFlags]: the service runs unless a flag is given. *)
Definition noFlags {A} (args : list string) (fn : A) : option (result string A) :=
  match parse_flags [] args with FlagsHelp => None | FlagsBad => Some (Err "bad flag") | FlagsOk _ _ => Some (Ok fn) end.

(** ** Examples *)

Definition ctl_sent (c : ctl_command) : admin_request :=
  request_of Example_admin.L (λ _, ReloadUnreadable) Example_admin.create "root" (call_of c).

Lemma ctl_reaches_witness :
  admin_route Example_admin.L Example_admin.server (ctl_sent (KeysRotate "id0"))
  = rotateKey Example_admin.L Example_admin.server (ctl_sent (KeysRotate "id0")) "admin" "id0".
Proof.
  apply (ctl_reaches Example_admin.L Example_admin.server (λ _, ReloadUnreadable) Example_admin.create (λ x _, eq_refl) (KeysRotate "id0")).
  split; [discriminate|]. repeat constructor.
Defined.

(** The arguments of a command line, with flags in both forms. *)
Example create_args :
  ctl_parse (λ _, None) ["keys"; "create"; "-group"; "v1"; "--tier=pro"; "-name=a=b"] = CtlRun (KeysCreate "v1" "pro" "" "a=b") ∧
  ctl_parse (λ _, None) ["audit"; "-n"; "0x1_0"] = CtlRun (CtlAudit 16) ∧ ctl_parse (λ _, None) ["audit"; "-n=1_"] = CtlBadFlags ∧
  ctl_parse (λ _, None) ["keys"; "list"; "-h"] = CtlHelp ∧ ctl_parse (λ _, None) ["keys"; "rotate"] = CtlUsage.
Proof. vm_compute. done. Qed.

(** An ID is put into the URL as it is: what follows a '#' or a '?' does not
    reach the hub, which revokes the key named before it. *)
Example revoke_cuts_id :
  v2Routes Example_admin.L (ctl_sent (KeysRevoke "id0#old")) = RDelete "id0" ∧
  v2Routes Example_admin.L (ctl_sent (KeysSetTier "id0?x" "pro")) = RUpdate "id0".
Proof. vm_compute. done. Qed.

(** Applying a blank file is the request that makes the hub reload its own. *)
Example apply_blank : aq_Reload (ctl_sent (CtlApply "  ")) = ReloadBlank ∧ aq_Path (ctl_sent (CtlApply "  ")) = "/config-reload".
Proof. vm_compute. done. Qed.
