(* ===== verification/Analytics.v ===== *)
(** * Analytics: from events to summaries ([packages/analytics/server.go])

    Events of requests are counted in buckets of time, and summaries are made
    from the buckets; latencies are kept in a bounded sample.  Times are
    nanoseconds since 1970, as integers without bound; counters have the width
    they have in Go.  The store in Redis is a list of events, the newest last. *)

From S2P Require Import Prelude Float64 GoLib.
From Stdlib Require Import Ascii.
From stdpp Require Import sorting.

Local Open Scope Z_scope.

Record AnalyticsEntry := mkEvent {
  ev_Prefix : string;
  ev_Service : string;
  ev_EdgeID : string;
  ev_Timestamp : Z;
  ev_Method : string;
  ev_Tier : string;
  ev_TotalLatency : Z;     (* time.Duration *)
  ev_UpstreamLatency : Z;
  ev_CacheHit : bool;
  ev_LimitUsed : Z;
  ev_LimitUsedOfTotal : float64;
  ev_RequestSize : Z;      (* uint64 *)
  ev_ResponseSize : Z;
  ev_ResponseCode : Z;     (* uint16 *)
  ev_UpstreamError : bool;
}.

(** ** Times *)

(** [Truncate] counts from the zero time, the first of January of year 1. *)
Definition zero_time : Z := - (62135596800 * Second).
Definition Truncate (t d : Z) : Z := if d <=? 0 then t else t - (t - zero_time) `mod` d.
Definition Unix (t : Z) : Z := t / Second.
Definition Microseconds (d : Z) : Z := (d / 1000)%i64.

Definition supportedIntervals : list (string * Z) :=
  [("1m", Minute); ("5m", 5 * Minute); ("15m", 15 * Minute); ("1h", Hour)].
Definition intervalRangeWindow : list (string * Z) :=
  [("1m", Hour); ("5m", 6 * Hour); ("15m", 24 * Hour); ("1h", 7 * 24 * Hour)].
Definition supportedGroupBy : list string := ["prefix"; "service"; "edge_id"; "tier"; "method"].
Definition defaultHistoryWindow : Z := 7 * 24 * Hour.
Definition defaultPercentileCap : Z := 2048.

(** A lookup in one of these tables; the zero value when there is no entry. *)
Definition duration_of (l : list (string * Z)) (k : string) : Z :=
  match find (λ x, (x.1 =? k)%string) l with Some x => x.2 | None => 0 end.

Definition normalizeInterval (raw : string) : string :=
  let clean := TrimSpace (ToLower raw) in
  if existsb (λ x, (x.1 =? clean)%string) supportedIntervals then clean else "1m".

(** ** Samples of latencies *)

Definition u64 (z : Z) : Z := z `mod` 2 ^ 64.

Record boundedPercentiles := mkPercentiles {
  bp_capacity : Z;
  bp_count : Z;      (* int64 *)
  bp_values : list Z;
  bp_rng : Z;        (* uint64 *)
}.

Definition golden : Z := 0x9e3779b97f4a7c15.

Definition newBoundedPercentiles (capacity : Z) : boundedPercentiles :=
  mkPercentiles (if capacity <=? 0 then defaultPercentileCap else capacity) 0 [] golden.

(** The index, and the state of the generator after it. *)
Definition nextIndex (rng n : Z) : Z * Z :=
  if n <=? 0 then (-1, rng)
  else
    let rng := u64 (rng + golden) in
    let z := u64 (Z.lxor rng (Z.shiftr rng 30) * 0xbf58476d1ce4e5b9) in
    let z := u64 (Z.lxor z (Z.shiftr z 27) * 0x94d049bb133111eb) in
    let z := Z.lxor z (Z.shiftr z 31) in
    (z `mod` n, rng).

Definition bp_add (bp : boundedPercentiles) (v : Z) : boundedPercentiles :=
  let count := (bp_count bp + 1)%i64 in
  if Z.of_nat (length (bp_values bp)) <? bp_capacity bp
  then mkPercentiles (bp_capacity bp) count (bp_values bp ++ [v]) (bp_rng bp)
  else
    let '(idx, rng) := nextIndex (bp_rng bp) count in
    mkPercentiles (bp_capacity bp) count
      (if (0 <=? idx) && (idx <? bp_capacity bp) then <[Z.to_nat idx := v]> (bp_values bp) else bp_values bp) rng.

Definition bp_merge (bp other : boundedPercentiles) : boundedPercentiles :=
  let bp := foldl bp_add bp (bp_values other) in
  let n := Z.of_nat (length (bp_values other)) in
  if n <? bp_count other
  then mkPercentiles (bp_capacity bp) (bp_count bp + (bp_count other - n))%i64 (bp_values bp) (bp_rng bp)
  else bp.

(** Interpolated between the two nearest of the sorted sample. *)
Definition percentile (bp : option boundedPercentiles) (p : float64) : float64 :=
  match bp with
  | None => f64_zero
  | Some bp =>
      let sorted := merge_sort Z.le (bp_values bp) in
      match sorted with
      | [] => f64_zero
      | _ =>
          let n := Z.of_nat (length sorted) in
          let rank := f64_mul (f64_div p (f64_of_int 100)) (f64_of_int (n - 1)) in
          let lo := f64_to_int rank in
          let hi := lo + 1 in
          let at_ i := f64_of_int (nth (Z.to_nat i) sorted 0) in
          if n <=? hi then at_ lo
          else
            let frac := f64_sub rank (f64_of_int lo) in
            f64_add (f64_mul (at_ lo) (f64_sub (f64_of_int 1) frac)) (f64_mul (at_ hi) frac)
      end
  end.

(** ** Accumulators *)

Record statsAccumulator := mkStats {
  sa_Count : Z;
  sa_TotalLatencyUsSum : Z;
  sa_UpstreamLatencySum : Z;
  sa_UpstreamSamples : Z;
  sa_RateLimiterUsSum : Z;
  sa_Totals : option boundedPercentiles;
  sa_RateLimiter : option boundedPercentiles;
  sa_CacheHits : Z;
  sa_Successes : Z;
  sa_RequestBytesTotal : Z;  (* uint64 *)
  sa_ResponseBytesTotal : Z;
  sa_ActiveTiers : gset string;
  sa_RateLimitedCount : Z;
  sa_UpstreamErrorCount : Z;
}.

Definition stats_zero : statsAccumulator := mkStats 0 0 0 0 0 None None 0 0 0 0 ∅ 0 0.

Definition sample (bp : option boundedPercentiles) : boundedPercentiles :=
  default (newBoundedPercentiles defaultPercentileCap) bp.

Definition StatusTooManyRequests : Z := 429.

Definition stats_add (a : statsAccumulator) (e : AnalyticsEntry) : statsAccumulator :=
  let totalUs := Microseconds (ev_TotalLatency e) in
  let upstreamUs := Microseconds (ev_UpstreamLatency e) in
  let rateLimiterUs := Z.max (totalUs - upstreamUs)%i64 0 in
  let limited := ev_ResponseCode e =? StatusTooManyRequests in
  let reached := negb (ev_CacheHit e) && negb limited in
  let count (b : bool) (n : Z) := if b then (n + 1)%i64 else n in
  mkStats (sa_Count a + 1)%i64
    (sa_TotalLatencyUsSum a + totalUs)%i64
    (if reached then (sa_UpstreamLatencySum a + upstreamUs)%i64 else sa_UpstreamLatencySum a)
    (count reached (sa_UpstreamSamples a))
    (sa_RateLimiterUsSum a + rateLimiterUs)%i64
    (Some (bp_add (sample (sa_Totals a)) totalUs))
    (Some (bp_add (sample (sa_RateLimiter a)) rateLimiterUs))
    (count (ev_CacheHit e) (sa_CacheHits a))
    (count ((200 <=? ev_ResponseCode e) && (ev_ResponseCode e <? 300)) (sa_Successes a))
    (u64 (sa_RequestBytesTotal a + ev_RequestSize e))
    (u64 (sa_ResponseBytesTotal a + ev_ResponseSize e))
    ({[ev_Tier e]} ∪ sa_ActiveTiers a)
    (count limited (sa_RateLimitedCount a))
    (count (ev_UpstreamError e) (sa_UpstreamErrorCount a)).

Definition stats_merge (a other : statsAccumulator) : statsAccumulator :=
  if sa_Count other =? 0 then a
  else
    let merge (x y : option boundedPercentiles) :=
      Some (match y with None => sample x | Some y => bp_merge (sample x) y end) in
    mkStats (sa_Count a + sa_Count other)%i64
      (sa_TotalLatencyUsSum a + sa_TotalLatencyUsSum other)%i64
      (sa_UpstreamLatencySum a + sa_UpstreamLatencySum other)%i64
      (sa_UpstreamSamples a + sa_UpstreamSamples other)%i64
      (sa_RateLimiterUsSum a + sa_RateLimiterUsSum other)%i64
      (merge (sa_Totals a) (sa_Totals other))
      (merge (sa_RateLimiter a) (sa_RateLimiter other))
      (sa_CacheHits a + sa_CacheHits other)%i64
      (sa_Successes a + sa_Successes other)%i64
      (u64 (sa_RequestBytesTotal a + sa_RequestBytesTotal other))
      (u64 (sa_ResponseBytesTotal a + sa_ResponseBytesTotal other))
      (sa_ActiveTiers other ∪ sa_ActiveTiers a)
      (sa_RateLimitedCount a + sa_RateLimitedCount other)%i64
      (sa_UpstreamErrorCount a + sa_UpstreamErrorCount other)%i64.

Record summary := mkSummary {
  sm_Count : Z;
  sm_AvgTotalLatencyMs : float64;
  sm_AvgUpstreamLatencyMs : float64;
  sm_AvgRateLimiterMs : float64;
  sm_P95RateLimiterMs : float64;
  sm_CacheHitRatePct : float64;
  sm_SuccessRatePct : float64;
  sm_AvgRequestSizeBytes : float64;
  sm_AvgResponseSizeBytes : float64;
  sm_ActiveTiersCount : Z;
  sm_RateLimitedCount : Z;
  sm_UpstreamErrorCount : Z;
}.

Definition microsecondsToMilliseconds (us : float64) : float64 := f64_div us (f64_of_int 1000).

Definition toSummary (a : statsAccumulator) : summary :=
  let z := f64_zero in
  if sa_Count a =? 0 then mkSummary 0 z z z z z z z z 0 0 0
  else
    let avg n k := f64_div (f64_of_int n) (f64_of_int k) in
    let n := sa_Count a in
    mkSummary n
      (microsecondsToMilliseconds (avg (sa_TotalLatencyUsSum a) n))
      (if 0 <? sa_UpstreamSamples a
       then microsecondsToMilliseconds (avg (sa_UpstreamLatencySum a) (sa_UpstreamSamples a)) else z)
      (microsecondsToMilliseconds (avg (sa_RateLimiterUsSum a) n))
      (microsecondsToMilliseconds (percentile (sa_RateLimiter a) (f64_of_int 95)))
      (f64_mul (avg (sa_CacheHits a) n) (f64_of_int 100))
      (f64_mul (avg (sa_Successes a) n) (f64_of_int 100))
      (avg (sa_RequestBytesTotal a) n)
      (avg (sa_ResponseBytesTotal a) n)
      (Z.of_nat (size (sa_ActiveTiers a)))
      (sa_RateLimitedCount a)
      (sa_UpstreamErrorCount a).

Definition computeSummary (entries : list AnalyticsEntry) : summary := toSummary (foldl stats_add stats_zero entries).

(** ** Buckets *)

Record bucketAggregation := mkBucket {
  ba_total : statsAccumulator;
  ba_groups : gmap string (gmap string statsAccumulator);
}.

Definition no_groups : gmap string (gmap string statsAccumulator) :=
  list_to_map ((λ g, (g, ∅)) <$> supportedGroupBy).

Definition newBucketAggregation : bucketAggregation := mkBucket stats_zero no_groups.

Definition groupKey (e : AnalyticsEntry) (groupBy : string) : string :=
  if (groupBy =? "prefix")%string then ev_Prefix e
  else if (groupBy =? "service")%string then ev_Service e
  else if (groupBy =? "edge_id")%string then ev_EdgeID e
  else if (groupBy =? "tier")%string then ev_Tier e
  else if (groupBy =? "method")%string then ev_Method e
  else "unknown".

Definition addGroup (e : AnalyticsEntry) (groups : gmap string (gmap string statsAccumulator)) (group : string)
  : gmap string (gmap string statsAccumulator) :=
  let key := groupKey e group in
  let key := if (key =? "")%string then "unknown" else key in
  let m := default ∅ (groups !! group) in
  <[group := <[key := stats_add (default stats_zero (m !! key)) e]> m]> groups.

Definition bucket_add (b : bucketAggregation) (e : AnalyticsEntry) : bucketAggregation :=
  mkBucket (stats_add (ba_total b) e) (foldl (addGroup e) (ba_groups b) supportedGroupBy).

Record intervalAggregation := mkInterval {
  ia_bucketSize : Z;
  ia_buckets : gmap Z bucketAggregation; (* by the start of the bucket, in seconds *)
}.

Definition prune (ia : intervalAggregation) (now : Z) : intervalAggregation :=
  let cutoff := Unix (now - defaultHistoryWindow) in
  mkInterval (ia_bucketSize ia) (filter (λ kb, cutoff ≤ kb.1) (ia_buckets ia)).

Definition ingest (ia : intervalAggregation) (ts : Z) (e : AnalyticsEntry) : intervalAggregation :=
  let bucketStart := Unix (Truncate ts (ia_bucketSize ia)) in
  let bucket := default newBucketAggregation (ia_buckets ia !! bucketStart) in
  prune (mkInterval (ia_bucketSize ia) (<[bucketStart := bucket_add bucket e]> (ia_buckets ia))) ts.

(** ** Summaries *)

Record bucketValues := mkBucketValues {
  bv_AvgTotalLatencyMs : float64;
  bv_P50TotalLatencyMs : float64;
  bv_P90TotalLatencyMs : float64;
  bv_CacheHitRatePct : float64;
  bv_SuccessRatePct : float64;
}.

Record summaryBucket := mkSummaryBucket {
  sb_BucketStart : Z;
  sb_Count : Z;
  sb_CacheHitCount : Z;
  sb_RateLimitedCount : Z;
  sb_UpstreamErrorCount : Z;
  sb_values : option bucketValues; (* the pointers, which are set together *)
}.

Record summaryResponse := mkSummaryResponse {
  sr_summary : summary;
  sr_Interval : string;
  sr_GeneratedAt : Z;
  sr_Series : list summaryBucket;
}.

(** A bucket's point in the series. *)
Definition bucket_point (bucketStart : Z) (bucket : option bucketAggregation) : summaryBucket :=
  match bucket with
  | None => mkSummaryBucket bucketStart 0 0 0 0 None
  | Some b =>
      let s := toSummary (ba_total b) in
      mkSummaryBucket bucketStart (sm_Count s) (sa_CacheHits (ba_total b)) (sm_RateLimitedCount s) (sm_UpstreamErrorCount s)
        (if 0 <? sm_Count s
         then Some (mkBucketValues (sm_AvgTotalLatencyMs s)
                      (microsecondsToMilliseconds (percentile (sa_Totals (ba_total b)) (f64_of_int 50)))
                      (microsecondsToMilliseconds (percentile (sa_Totals (ba_total b)) (f64_of_int 90)))
                      (sm_CacheHitRatePct s) (sm_SuccessRatePct s))
         else None)
  end.

(** The accumulators of each group, with those of a bucket merged in. *)
Definition merge_group (acc values : gmap string statsAccumulator) : gmap string statsAccumulator :=
  merge (λ a v, match v with None => a | Some v => Some (stats_merge (default stats_zero a) v) end) acc values.
Definition merge_groups (acc groups : gmap string (gmap string statsAccumulator))
  : gmap string (gmap string statsAccumulator) :=
  merge (λ a g, match g with None => a | Some g => Some (merge_group (default ∅ a) g) end) acc groups.

(** The starts of the buckets of a snapshot. *)
Definition snapshot_starts (intervalID : string) (bucketSize now : Z) : list Z :=
  let window := duration_of intervalRangeWindow intervalID in
  let window := if window <=? 0 then Hour else window in
  let end_ := Truncate now bucketSize in
  let bucketsCount := (window / bucketSize)%i64 in
  let start := end_ - (bucketsCount - 1) * bucketSize in
  (λ i, start + Z.of_nat i * bucketSize) <$> seq 0 (Z.to_nat bucketsCount).

Definition buildSnapshot (intervalID : string) (interval : intervalAggregation) (now : Z)
  : summaryResponse * gmap string (gmap string summary) :=
  let starts := snapshot_starts intervalID (ia_bucketSize interval) now in
  let bucket t := ia_buckets interval !! Unix t in
  let total := foldl (λ acc t, match bucket t with None => acc | Some b => stats_merge acc (ba_total b) end) stats_zero starts in
  let groups := foldl (λ acc t, match bucket t with None => acc | Some b => merge_groups acc (ba_groups b) end) no_groups starts in
  (mkSummaryResponse (toSummary total) intervalID now ((λ t, bucket_point t (bucket t)) <$> starts),
   (λ g : gmap string statsAccumulator, toSummary <$> g) <$> groups).

Definition buildFilteredSummary (entries : list AnalyticsEntry) (intervalID : string) (reference : Z) : summaryResponse :=
  let agg := foldl (λ ia e, if ev_Timestamp e =? zero_time then ia else ingest ia (ev_Timestamp e) e)
               (mkInterval (duration_of supportedIntervals intervalID) ∅) entries in
  (buildSnapshot intervalID agg reference).1.

Definition summarizeByGroup (entries : list AnalyticsEntry) (groupBy : string) : gmap string summary :=
  toSummary <$>
    foldl (λ m e, let k := groupKey e groupBy in <[k := stats_add (default stats_zero (m !! k)) e]> m) ∅ entries.

(** ** The server's aggregates *)

Record aggregates := mkAggregates {
  ag_data : gmap string intervalAggregation;      (* aggData *)
  ag_summary : gmap string summaryResponse;       (* summaryCache *)
  ag_groups : gmap string (gmap string (gmap string summary));
  ag_ready : bool;
}.

Definition fresh_data : gmap string intervalAggregation :=
  list_to_map ((λ x, (x.1, mkInterval x.2 ∅)) <$> supportedIntervals).

(** [ingestEntry]: an event without a time is taken for one of [now]. *)
Definition ingestEntry (now : Z) (data : gmap string intervalAggregation) (e : AnalyticsEntry)
  : gmap string intervalAggregation :=
  let ts := if ev_Timestamp e =? zero_time then now else ev_Timestamp e in
  (λ ia, ingest ia ts e) <$> data.

(** [refreshSummaryCache] with the events the store has loaded ([None]: the
    store fails, and nothing changes). *)
Definition refreshSummaryCache (now : Z) (loaded : option (list AnalyticsEntry)) (ag : aggregates) : aggregates :=
  match loaded with
  | None => ag
  | Some entries =>
      let data := foldl (ingestEntry now) fresh_data entries in
      mkAggregates data
        (map_imap (λ id ia, Some (buildSnapshot id ia now).1) data)
        (map_imap (λ id ia, Some (buildSnapshot id ia now).2) data)
        true
  end.

Definition clear_aggregates (ag : aggregates) : aggregates := mkAggregates fresh_data ∅ ∅ false.

(** ** Queries *)

Definition parseIntWithBounds (raw : string) (def min max : Z) : Z :=
  if (raw =? "")%string then def
  else match ParseInt raw with
       | None => def
       | Some v => if v <? min then min else if max <? v then max else v
       end.

Definition parseOptionalInt64 (raw : string) : option Z :=
  if (TrimSpace raw =? "")%string then None else ParseInt raw.
Definition parseOptionalBool (raw : string) : option bool :=
  let v := TrimSpace (ToLower raw) in
  if existsb (String.eqb v) ["true"; "1"; "yes"] then Some true
  else if existsb (String.eqb v) ["false"; "0"; "no"] then Some false else None.

Definition csvFilterSet (raw : string) : list string :=
  filter (λ v, v ≠ "") (map TrimSpace (GoLib.Split "," raw)).

Section queries.
Variable ParseFloat : string → option float64.
Variable time_Parse : string → option Z. (* by the layouts of [parseOptionalTime], in turn *)

Definition parseOptionalFloat64 (raw : string) : option float64 :=
  if (TrimSpace raw =? "")%string then None else ParseFloat raw.
Definition parseOptionalTime (raw : string) : option Z :=
  let v := TrimSpace raw in
  if (v =? "")%string then None
  else match ParseInt v with
       | Some unixSec => Some (unixSec * Second)
       | None => time_Parse v
       end.

(** Query parameters: the values of each key, in order. *)
Definition Values : Type := gmap string (list string).
Definition query_get (q : Values) (key : string) : string := default "" (default [] (q !! key) !! 0%nat).

(** Whether an event passes a filter that may be absent. *)
Definition in_set (set : list string) (v : string) : bool := bool_decide (set = []) || existsb (String.eqb v) set.
Definition passes {A} (f : A → bool) (x : option A) : bool := match x with None => true | Some x => f x end.

Definition entry_passes (q : Values) (e : AnalyticsEntry) : bool :=
  let get := query_get q in
  let ms := microsecondsToMilliseconds (f64_of_int (Microseconds (ev_TotalLatency e))) in
  in_set (csvFilterSet (get "prefix")) (ev_Prefix e)
  && in_set (csvFilterSet (get "service")) (ev_Service e)
  && in_set (csvFilterSet (get "edge_id")) (ev_EdgeID e)
  && in_set (csvFilterSet (get "tier")) (ev_Tier e)
  && in_set (csvFilterSet (get "method")) (ev_Method e)
  && passes (λ m, negb (ev_ResponseCode e <? m)) (parseOptionalInt64 (get "response_code_min"))
  && passes (λ m, negb (m <? ev_ResponseCode e)) (parseOptionalInt64 (get "response_code_max"))
  && passes (Bool.eqb (ev_CacheHit e)) (parseOptionalBool (get "cache_hit"))
  && passes (Bool.eqb (ev_UpstreamError e)) (parseOptionalBool (get "upstream_error"))
  && passes (λ m, negb (f64_ltb ms m)) (parseOptionalFloat64 (get "total_latency_ms_min"))
  && passes (λ m, negb (f64_ltb m ms)) (parseOptionalFloat64 (get "total_latency_ms_max"))
  && passes (λ t, negb (ev_Timestamp e <? t)) (parseOptionalTime (get "start"))
  && passes (λ t, negb (t <? ev_Timestamp e)) (parseOptionalTime (get "end")).

Definition filterEntries (q : Values) (entries : list AnalyticsEntry) : list AnalyticsEntry :=
  List.filter (entry_passes q) entries.

Definition filter_keys : list string :=
  ["prefix"; "service"; "edge_id"; "tier"; "method"; "response_code_min"; "response_code_max"; "cache_hit";
   "upstream_error"; "total_latency_ms_min"; "total_latency_ms_max"; "start"; "end"].
Definition hasSummaryFilters (q : Values) : bool :=
  existsb (λ k, negb (TrimSpace (query_get q k) =? "")%string) filter_keys.
End queries.

(** ** The list in Redis *)

(** [LRANGE key start stop] for indices that are not negative. *)
Definition LRange {A} (l : list A) (start stop : Z) : list A :=
  take (Z.to_nat (stop - start + 1)) (drop (Z.to_nat start) l).

(** [ListEntries] and [readWindow]: a page counted from the newest event. *)
Definition ListEntries {A} (l : list A) (limit offset : Z) : list A :=
  if limit <=? 0 then []
  else
    let length_ := Z.of_nat (length l) in
    if length_ <=? offset then []
    else
      let end_ := length_ - 1 - offset in
      let start := Z.max (end_ - limit + 1) 0 in
      LRange l start end_.

Definition defaultBootstrapLoadLimit : Z := 100000.

Definition LoadRecentEntries (l : list AnalyticsEntry) (start end_ limit : Z) : list AnalyticsEntry :=
  let limit := if limit <=? 0 then defaultBootstrapLoadLimit else limit in
  List.filter (λ e, negb (negb (start =? zero_time) && (ev_Timestamp e <? start))
                 && negb (negb (end_ =? zero_time) && (end_ <? ev_Timestamp e))) (ListEntries l limit 0).

(** ** Taking events in *)

Definition ingestMaxRetries : nat := 2.
Definition defaultIngestQueueSize : nat := 2048.

Record ingestion := mkIngestion {
  ig_queue : list AnalyticsEntry;
  ig_stored : list AnalyticsEntry;
  ig_received : Z;
  ig_invalid : Z;       (* messages that do not decode; counted by telemetry *)
  ig_enqueued : Z;
  ig_dropped : Z;
  ig_persisted : Z;
  ig_persistFails : Z;
  ig_retries : Z;
}.

(** A message from the bus ([None]: it does not decode). *)
Definition receive (s : ingestion) (m : option AnalyticsEntry) : ingestion :=
  match m with
  | None => mkIngestion (ig_queue s) (ig_stored s) (ig_received s + 1) (ig_invalid s + 1) (ig_enqueued s) (ig_dropped s)
              (ig_persisted s) (ig_persistFails s) (ig_retries s)
  | Some e =>
      if (length (ig_queue s) <? defaultIngestQueueSize)%nat
      then mkIngestion (ig_queue s ++ [e]) (ig_stored s) (ig_received s + 1) (ig_invalid s) (ig_enqueued s + 1)
             (ig_dropped s) (ig_persisted s) (ig_persistFails s) (ig_retries s)
      else mkIngestion (ig_queue s) (ig_stored s) (ig_received s + 1) (ig_invalid s) (ig_enqueued s) (ig_dropped s + 1)
             (ig_persisted s) (ig_persistFails s) (ig_retries s)
  end.

(** What becomes of an attempt to store an event: stored; an error with or
    without the event stored.  [canceled]: the context ends during the wait
    before the next attempt. *)
Inductive store_attempt := Stored | NotStored (written canceled : bool).

(** The loop of [persistAnalyticsEntry], from attempt [n]: whether the event
    was stored, the retries counted, and how often it was written. *)
Fixpoint persist (fuel : nat) (n : nat) (tries : nat → store_attempt) : bool * nat * nat :=
  match tries n with
  | Stored => (true, n, 1%nat)
  | NotStored written canceled =>
      let w := if written then 1%nat else 0%nat in
      match fuel with
      | O => (false, n, w)
      | S fuel =>
          if canceled then (false, 0%nat, w)
          else let '(ok, r, w') := persist fuel (S n) tries in (ok, r, (w + w')%nat)
      end
  end.

Definition persistAnalyticsEntry (s : ingestion) (e : AnalyticsEntry) (rest : list AnalyticsEntry) (tries : nat → store_attempt)
  : ingestion :=
  let '(ok, retries, written) := persist ingestMaxRetries 0 tries in
  mkIngestion rest (ig_stored s ++ replicate written e) (ig_received s) (ig_invalid s) (ig_enqueued s) (ig_dropped s)
    (if ok then ig_persisted s + 1 else ig_persisted s) (if ok then ig_persistFails s else ig_persistFails s + 1)
    (ig_retries s + Z.of_nat retries).
