(* ===== verification/AnalyticsProps.v ===== *)
(** * What a summary counts

    A summary counts every event of its window, once and in its bucket,
    whatever the order events came in, as long as none is from the future; the
    sample of latencies is bounded and holds only latencies seen; every message
    taken in is accounted for; pages of the stored events are what they say. *)

From S2P Require Import Prelude Float64 GoLib Analytics.
From stdpp Require Import sorting.

Local Open Scope Z_scope.

(** ** Sums that wrap *)

Lemma u64_add_l a b : u64 (u64 a + b) = u64 (a + b).
Proof. apply Zplus_mod_idemp_l. Qed.

Lemma u64_add a b : u64 (u64 a + u64 b) = u64 (a + b).
Proof. symmetry. apply Zplus_mod. Qed.

(** ** The sample of latencies *)

Definition sample_ok (seen : list Z) (bp : boundedPercentiles) : Prop :=
  Z.of_nat (length (bp_values bp)) ≤ Z.max 0 (bp_capacity bp) ∧ ∀ v, v ∈ bp_values bp → v ∈ seen.

(** However many latencies are added, the sample stays within its capacity
    and holds only latencies that were added. *)
Lemma sample_bounded capacity vs : sample_ok vs (foldl bp_add (newBoundedPercentiles capacity) vs).
Proof.
  induction vs as [|v vs [Hl Hin]] using rev_ind; [by split; [cbn; lia|set_solver]|].
  rewrite foldl_snoc. set (bp := foldl _ _ _) in *. clearbody bp. unfold bp_add.
  destruct (Z.ltb_spec (Z.of_nat (length (bp_values bp))) (bp_capacity bp)).
  - split; cbn; [rewrite length_app; cbn; lia|set_solver].
  - destruct (nextIndex _ _) as [idx rng]. split; cbn; case_match; rewrite ?length_insert; try done; [|set_solver].
    intros w [j Hj]%list_elem_of_lookup_1. apply list_lookup_insert_Some in Hj as [(_ & <- & _)|[_ Hj]]; [set_solver|].
    apply list_elem_of_lookup_2 in Hj. set_solver.
Qed.

(** ** What an accumulator stands for *)

Definition one (b : bool) : Z := if b then 1 else 0.
Definition total_us (e : AnalyticsEntry) : Z := Microseconds (ev_TotalLatency e).
Definition upstream_us (e : AnalyticsEntry) : Z := Microseconds (ev_UpstreamLatency e).
Definition limiter_us (e : AnalyticsEntry) : Z := Z.max (total_us e - upstream_us e)%i64 0.
Definition is_limited (e : AnalyticsEntry) : bool := ev_ResponseCode e =? StatusTooManyRequests.
Definition is_reached (e : AnalyticsEntry) : bool := negb (ev_CacheHit e) && negb (is_limited e).
Definition is_success (e : AnalyticsEntry) : bool := (200 <=? ev_ResponseCode e) && (ev_ResponseCode e <? 300).

(** The counters of [a] are those of the events [l]. *)
Record counts (a : statsAccumulator) (l : list AnalyticsEntry) : Prop := {
  ct_count : sa_Count a = wrap64 (Z.of_nat (length l));
  ct_total : sa_TotalLatencyUsSum a = wrap64 (sumZ total_us l);
  ct_upstream : sa_UpstreamLatencySum a = wrap64 (sumZ (λ e, one (is_reached e) * upstream_us e) l);
  ct_samples : sa_UpstreamSamples a = wrap64 (sumZ (λ e, one (is_reached e)) l);
  ct_limiter : sa_RateLimiterUsSum a = wrap64 (sumZ limiter_us l);
  ct_hits : sa_CacheHits a = wrap64 (sumZ (λ e, one (ev_CacheHit e)) l);
  ct_successes : sa_Successes a = wrap64 (sumZ (λ e, one (is_success e)) l);
  ct_request : sa_RequestBytesTotal a = u64 (sumZ ev_RequestSize l);
  ct_response : sa_ResponseBytesTotal a = u64 (sumZ ev_ResponseSize l);
  ct_tiers : ∀ t, t ∈ sa_ActiveTiers a ↔ t ∈ ev_Tier <$> l;
  ct_limited : sa_RateLimitedCount a = wrap64 (sumZ (λ e, one (is_limited e)) l);
  ct_errors : sa_UpstreamErrorCount a = wrap64 (sumZ (λ e, one (ev_UpstreamError e)) l);
}.

Lemma counts_zero : counts stats_zero [].
Proof. split; done || (intros t; split; set_solver). Qed.

Lemma counts_perm a l l' : l ≡ₚ l' → counts a l → counts a l'.
Proof.
  intros Hp []. split; try (rewrite <- (sumZ_perm _ l l' Hp); done).
  - by rewrite <- Hp.
  - intros t. by rewrite <- Hp.
Qed.

(** A counter after one more event. *)
Lemma count_snoc (f : AnalyticsEntry → bool) n l e :
  n = wrap64 (sumZ (λ e, one (f e)) l) → (if f e then (n + 1)%i64 else n) = wrap64 (sumZ (λ e, one (f e)) (l ++ [e])).
Proof.
  intros ->. rewrite sumZ_app. cbn. unfold i64_add. destruct (f e); cbn [one];
    [by rewrite wrap64_add_l, Z.add_0_r|by rewrite !Z.add_0_r].
Qed.

Lemma sum_snoc (f : AnalyticsEntry → Z) n l e :
  n = wrap64 (sumZ f l) → (n + f e)%i64 = wrap64 (sumZ f (l ++ [e])).
Proof. intros ->. rewrite sumZ_app. cbn. unfold i64_add. by rewrite wrap64_add_l, Z.add_0_r. Qed.

Lemma counts_add a l e : counts a l → counts (stats_add a e) (l ++ [e]).
Proof.
  intros []. unfold stats_add. split; cbn.
  - rewrite length_app, Nat2Z.inj_add. cbn. rewrite ct_count0. unfold i64_add. by rewrite wrap64_add_l.
  - by apply (sum_snoc total_us).
  - fold (is_limited e) (is_reached e) (upstream_us e).
    pose proof (sum_snoc (λ e, one (is_reached e) * upstream_us e) _ _ e ct_upstream0) as H. cbn in H.
    rewrite <- H. destruct (is_reached e); cbn [one]; rewrite ?Z.mul_1_l, ?Z.mul_0_l; [done|].
    rewrite ct_upstream0. unfold i64_add. by rewrite wrap64_add_l, Z.add_0_r.
  - by apply (count_snoc is_reached).
  - by apply (sum_snoc limiter_us).
  - by apply (count_snoc ev_CacheHit).
  - by apply (count_snoc is_success).
  - rewrite sumZ_app. cbn. rewrite ct_request0, u64_add_l. f_equal. lia.
  - rewrite sumZ_app. cbn. rewrite ct_response0, u64_add_l. f_equal. lia.
  - intros t. rewrite fmap_app, elem_of_app, elem_of_union, ct_tiers0. set_solver.
  - by apply (count_snoc is_limited).
  - by apply (count_snoc ev_UpstreamError).
Qed.

Lemma counts_fold a l l' : counts a l → counts (foldl stats_add a l') (l ++ l').
Proof.
  revert a l. induction l' as [|e l' IH]; intros a l H; cbn; [by rewrite app_nil_r|].
  rewrite (cons_middle e l l'), app_assoc. by apply IH, counts_add.
Qed.

Lemma counts_all l : counts (foldl stats_add stats_zero l) l.
Proof. apply (counts_fold _ []), counts_zero. Qed.

(** Merging accumulators adds up what they stand for. *)
Lemma counts_merge a b l l' : counts a l → counts b l' → Z.of_nat (length l') < 2 ^ 63 → counts (stats_merge a b) (l ++ l').
Proof.
  intros Ha Hb Hl. unfold stats_merge. rewrite (ct_count b l' Hb), wrap64_small by (unfold is_int64, int64_min, int64_max; lia).
  destruct (decide (l' = [])) as [->|Hne]; [by rewrite app_nil_r|].
  assert (Hz : (Z.of_nat (length l') =? 0) = false) by (apply Z.eqb_neq; destruct l'; cbn; [done|lia]).
  rewrite Hz. destruct Ha, Hb.
  split; cbn; unfold i64_add; rewrite ?sumZ_app.
  - rewrite length_app, Nat2Z.inj_add, ct_count0. by rewrite wrap64_add_l.
  - by rewrite ct_total0, ct_total1, wrap64_add.
  - by rewrite ct_upstream0, ct_upstream1, wrap64_add.
  - by rewrite ct_samples0, ct_samples1, wrap64_add.
  - by rewrite ct_limiter0, ct_limiter1, wrap64_add.
  - by rewrite ct_hits0, ct_hits1, wrap64_add.
  - by rewrite ct_successes0, ct_successes1, wrap64_add.
  - by rewrite ct_request0, ct_request1, u64_add.
  - by rewrite ct_response0, ct_response1, u64_add.
  - intros t. rewrite fmap_app, elem_of_app, elem_of_union, ct_tiers0, ct_tiers1. tauto.
  - by rewrite ct_limited0, ct_limited1, wrap64_add.
  - by rewrite ct_errors0, ct_errors1, wrap64_add.
Qed.

(** ** Samples that are still whole *)

(** As long as there are no more latencies than the capacity, all are kept. *)
Definition kept (bp : option boundedPercentiles) (l : list Z) : Prop :=
  bp_capacity (sample bp) = defaultPercentileCap
  ∧ (Z.of_nat (length l) ≤ defaultPercentileCap → bp_values (sample bp) ≡ₚ l ∧ bp_count (sample bp) = Z.of_nat (length l)).

Lemma bp_add_capacity bp v : bp_capacity (bp_add bp v) = bp_capacity bp.
Proof. unfold bp_add. case_match; [done|]. by case_match. Qed.

Lemma bp_adds_capacity bp vs : bp_capacity (foldl bp_add bp vs) = bp_capacity bp.
Proof. revert bp. induction vs as [|v vs IH]; intros bp; cbn; [done|]. by rewrite IH, bp_add_capacity. Qed.

Lemma kept_add bp l v : kept bp l → kept (Some (bp_add (sample bp) v)) (l ++ [v]).
Proof.
  intros [Hc Hk]. split; [by cbn; rewrite bp_add_capacity|]. rewrite length_app. cbn. intros Hl.
  destruct Hk as [Hp Hn]; [lia|]. unfold bp_add. rewrite Hc.
  assert (Hlen : length (bp_values (sample bp)) = length l) by by rewrite Hp.
  destruct (Z.ltb_spec (Z.of_nat (length (bp_values (sample bp)))) defaultPercentileCap); [|lia].
  cbn. split; [by rewrite Hp|]. rewrite Hn. unfold i64_add, defaultPercentileCap in *.
  rewrite wrap64_small by (unfold is_int64, int64_min, int64_max; lia). lia.
Qed.

Lemma kept_adds bp l vs : kept bp l → kept (Some (foldl bp_add (sample bp) vs)) (l ++ vs).
Proof.
  revert bp l. induction vs as [|v vs IH]; intros bp l H; cbn; [by rewrite app_nil_r; destruct bp|].
  rewrite (cons_middle v l vs), app_assoc. apply (IH (Some (bp_add (sample bp) v))), kept_add, H.
Qed.

Lemma bp_merge_capacity x y : bp_capacity (bp_merge x y) = bp_capacity x.
Proof. unfold bp_merge. case_match; cbn; apply bp_adds_capacity. Qed.

Lemma kept_perm bp l l' : l ≡ₚ l' → kept bp l → kept bp l'.
Proof.
  intros Hp [Hc Hk]. split; [done|]. rewrite <- (Permutation_length Hp).
  intros Hl. destruct (Hk Hl). split; [by rewrite <- Hp|done].
Qed.

Lemma kept_merge x y l l' : kept x l → kept y l' → kept (Some (bp_merge (sample x) (sample y))) (l ++ l').
Proof.
  intros Hx Hy. split; [cbn; rewrite bp_merge_capacity; apply Hx|].
  intros Hl. pose proof Hl as Hl'. rewrite length_app in Hl'. destruct Hy as [_ [Hp Hn]]; [lia|].
  unfold bp_merge. rewrite Hn, (Permutation_length Hp), Z.ltb_irrefl.
  destruct (kept_perm _ _ (l ++ l') (Permutation_app_head l Hp) (kept_adds x l (bp_values (sample y)) Hx)) as [_ H].
  by apply H.
Qed.

Lemma percentile_kept x y l p :
  kept x l → kept y l → Z.of_nat (length l) ≤ defaultPercentileCap → percentile x p = percentile y p.
Proof.
  intros [_ Hx] [_ Hy] Hl. destruct (Hx Hl) as [Hpx _], (Hy Hl) as [Hpy _].
  assert (forall z, percentile z p = percentile (Some (sample z)) p) as Hs by by intros [].
  rewrite (Hs x), (Hs y). unfold percentile.
  by rewrite (StronglySorted_unique Z.le _ _ (StronglySorted_merge_sort _ (bp_values (sample x)))
                (StronglySorted_merge_sort _ (bp_values (sample y))))
    by by rewrite !merge_sort_Permutation, Hpx, Hpy.
Qed.

(** ** Accumulators that stand for the same events *)

Definition stands (a : statsAccumulator) (l : list AnalyticsEntry) : Prop :=
  counts a l ∧ kept (sa_Totals a) (total_us <$> l) ∧ kept (sa_RateLimiter a) (limiter_us <$> l).

Lemma stands_zero : stands stats_zero [].
Proof. split; [apply counts_zero|]. by split; split. Qed.

Lemma stands_add a l e : stands a l → stands (stats_add a e) (l ++ [e]).
Proof.
  intros (Hc & Ht & Hr). split; [by apply counts_add|]. rewrite !fmap_app. split; cbn.
  - by apply (kept_add _ _ (total_us e)).
  - by apply (kept_add _ _ (limiter_us e)).
Qed.

Lemma stands_all l : stands (foldl stats_add stats_zero l) l.
Proof.
  induction l as [|e l IH] using rev_ind; [apply stands_zero|]. rewrite foldl_snoc. by apply stands_add.
Qed.

Lemma stands_perm a l l' : l ≡ₚ l' → stands a l → stands a l'.
Proof.
  intros Hp (Hc & Ht & Hr). split; [by eapply counts_perm|].
  split; (eapply kept_perm; [|done]); by rewrite Hp.
Qed.

Lemma stands_merge a b l l' :
  stands a l → stands b l' → Z.of_nat (length l') < 2 ^ 63 → stands (stats_merge a b) (l ++ l').
Proof.
  intros (Hc & Ht & Hr) (Hc' & Ht' & Hr') Hl. split; [by apply counts_merge|].
  unfold stats_merge. rewrite (ct_count b l' Hc'), wrap64_small by (unfold is_int64, int64_min, int64_max; lia).
  rewrite !fmap_app. destruct (Z.eqb_spec (Z.of_nat (length l')) 0) as [Hz|_].
  - destruct l'; [|cbn in Hz; lia]. cbn. by rewrite !app_nil_r.
  - assert (Hm : ∀ x y, Some (match y with None => sample x | Some y => bp_merge (sample x) y end)
                        = Some (bp_merge (sample x) (sample y))) by by intros x [].
    cbn [sa_Totals sa_RateLimiter]. rewrite !Hm. split; by apply kept_merge.
Qed.

Definition without_p95 (s : summary) : summary :=
  mkSummary (sm_Count s) (sm_AvgTotalLatencyMs s) (sm_AvgUpstreamLatencyMs s) (sm_AvgRateLimiterMs s) f64_zero
    (sm_CacheHitRatePct s) (sm_SuccessRatePct s) (sm_AvgRequestSizeBytes s) (sm_AvgResponseSizeBytes s)
    (sm_ActiveTiersCount s) (sm_RateLimitedCount s) (sm_UpstreamErrorCount s).

(** The summaries of two accumulators for the same events agree. *)
Lemma stands_summary a b l :
  stands a l → stands b l →
  without_p95 (toSummary a) = without_p95 (toSummary b)
  ∧ (Z.of_nat (length l) ≤ defaultPercentileCap → toSummary a = toSummary b).
Proof.
  intros (Ha & _ & Hra) (Hb & _ & Hrb).
  assert (Ht : sa_ActiveTiers a = sa_ActiveTiers b).
  { apply set_eq. intros t. by rewrite (ct_tiers a l Ha), (ct_tiers b l Hb). }
  destruct Ha, Hb. unfold toSummary, without_p95.
  rewrite ct_count0, ct_count1, ct_total0, ct_total1, ct_upstream0, ct_upstream1, ct_samples0, ct_samples1,
    ct_limiter0, ct_limiter1, ct_hits0, ct_hits1, ct_successes0, ct_successes1, ct_request0, ct_request1,
    ct_response0, ct_response1, ct_limited0, ct_limited1, ct_errors0, ct_errors1, Ht.
  case_match; [done|]. split; [done|]. intros Hl.
  by rewrite (percentile_kept (sa_RateLimiter a) (sa_RateLimiter b) (limiter_us <$> l)) by (rewrite ?length_fmap; done).
Qed.

(** ** Buckets of time *)

Definition dated (e : AnalyticsEntry) : bool := negb (ev_Timestamp e =? zero_time).
(** The events of [l] at [a] or later and before [b]. *)
Definition within (a b : Z) (l : list AnalyticsEntry) : list AnalyticsEntry :=
  List.filter (λ e, (a <=? ev_Timestamp e) && (ev_Timestamp e <? b)) l.
Definition between (a b : Z) (l : list AnalyticsEntry) : list AnalyticsEntry := within a b (List.filter dated l).

Lemma filter_twice {A} (f g : A → bool) l : List.filter f (List.filter g l) = List.filter (λ x, g x && f x) l.
Proof. induction l as [|x l IH]; [done|]. cbn. destruct (g x); cbn; by rewrite IH. Qed.

(** A whole number of seconds, which a bucket's size is. *)
Definition seconds (d : Z) : Prop := d `mod` Second = 0.
Definition aligned (bs t : Z) : Prop := (t - zero_time) `mod` bs = 0.

Lemma Truncate_aligned t bs : 0 < bs → aligned bs (Truncate t bs).
Proof.
  intros H. unfold aligned, Truncate. destruct (Z.leb_spec bs 0); [lia|].
  rewrite (Z.mod_eq (t - zero_time)) by lia.
  generalize ((t - zero_time) / bs). intros q.
  replace (t - (t - zero_time - bs * q) - zero_time) with (q * bs) by ring. apply Z.mod_mul. lia.
Qed.

Lemma Truncate_spec t bs : 0 < bs → Truncate t bs ≤ t < Truncate t bs + bs.
Proof.
  intros H. unfold Truncate. destruct (Z.leb_spec bs 0); [lia|].
  pose proof (Z.mod_pos_bound (t - zero_time) bs). lia.
Qed.

Lemma aligned_add bs t k : 0 < bs → aligned bs t → aligned bs (t + k * bs).
Proof. unfold aligned. intros H Ha. replace (t + k * bs - zero_time) with (t - zero_time + k * bs) by lia. by rewrite Z_mod_plus_full. Qed.

Lemma aligned_close bs s t : 0 < bs → aligned bs s → aligned bs t → s < t + bs → t < s + bs → s = t.
Proof.
  unfold aligned. intros H Hs Ht Hlt Hgt.
  pose proof (Z.div_mod (s - zero_time) bs ltac:(lia)). pose proof (Z.div_mod (t - zero_time) bs ltac:(lia)).
  assert ((s - zero_time) / bs = (t - zero_time) / bs) by nia. nia.
Qed.

(** Starts of buckets are whole seconds, so [Unix] tells them apart. *)
Lemma Unix_aligned bs s t : 0 < bs → seconds bs → aligned bs s → aligned bs t → Unix s = Unix t → s = t.
Proof.
  unfold seconds, aligned, Unix. intros H Hb Hs Ht E.
  assert (Hm : ∀ x, (x - zero_time) `mod` bs = 0 → x `mod` Second = 0).
  { intros x Hx. apply Z.mod_divide in Hx as [q Hq]; [|lia]. apply Z.mod_divide in Hb as [c Hc]; [|done].
    apply Z.mod_divide; [done|]. exists (q * c - 62135596800). unfold zero_time in Hq. rewrite Hc in Hq. lia. }
  rewrite (Z.div_mod s Second), (Z.div_mod t Second), (Hm s), (Hm t), E by done. done.
Qed.

Lemma bucket_of_time bs t ts :
  0 < bs → seconds bs → aligned bs t → Unix (Truncate ts bs) = Unix t ↔ t ≤ ts < t + bs.
Proof.
  intros H Hb Ht. pose proof (Truncate_spec ts bs H). split.
  - intros E. by rewrite <- (Unix_aligned bs _ _ H Hb (Truncate_aligned ts bs H) Ht E).
  - intros Hts. f_equal. apply (aligned_close bs); [done|by apply Truncate_aligned|done|lia|lia].
Qed.

Lemma bucket_spans bs t ts :
  0 < bs → seconds bs → aligned bs t → (Unix (Truncate ts bs) =? Unix t) = (t <=? ts) && (ts <? t + bs).
Proof.
  intros H Hb Ht. pose proof (bucket_of_time bs t ts H Hb Ht) as Hi.
  destruct (Z.eqb_spec (Unix (Truncate ts bs)) (Unix t)) as [E|E], (Z.leb_spec t ts), (Z.ltb_spec ts (t + bs)); cbn;
    done || (apply Hi in E; lia) || (exfalso; apply E, Hi; lia).
Qed.

(** The bucket that holds the events [es]. *)
Definition bucket_of (es : list AnalyticsEntry) : option bucketAggregation :=
  match es with [] => None | _ => Some (foldl bucket_add newBucketAggregation es) end.

Lemma bucket_of_snoc es e : bucket_of (es ++ [e]) = Some (bucket_add (default newBucketAggregation (bucket_of es)) e).
Proof. destruct es as [|x es]; [done|]. cbn. by rewrite foldl_app. Qed.

Definition in_bucket (bs k : Z) (e : AnalyticsEntry) : bool := dated e && (Unix (Truncate (ev_Timestamp e) bs) =? k).
Definition ingest_dated (ia : intervalAggregation) (e : AnalyticsEntry) : intervalAggregation :=
  if ev_Timestamp e =? zero_time then ia else ingest ia (ev_Timestamp e) e.

Lemma ingest_size bs l : ia_bucketSize (foldl ingest_dated (mkInterval bs ∅) l) = bs.
Proof.
  induction l as [|e l IH] using rev_ind; [done|]. rewrite foldl_snoc. unfold ingest_dated at 1. by case_match.
Qed.

(** No event before [last] prunes a bucket of the history up to [last]. *)
Lemma buckets_exact bs l k last :
  Forall (λ e, ev_Timestamp e < last) l → Unix (last - defaultHistoryWindow) ≤ k →
  ia_buckets (foldl ingest_dated (mkInterval bs ∅) l) !! k = bucket_of (List.filter (in_bucket bs k) l).
Proof.
  intros Hl Hk. induction l as [|e l IH] using rev_ind; [done|].
  apply Forall_app in Hl as [Hl He]. apply Forall_inv in He. specialize (IH Hl).
  rewrite foldl_snoc, List.filter_app. unfold ingest_dated at 1. cbn [List.filter].
  unfold in_bucket at 2, dated. destruct (Z.eqb_spec (ev_Timestamp e) zero_time); [by rewrite app_nil_r|].
  cbn [negb andb]. unfold ingest, prune. cbn [ia_buckets ia_bucketSize]. rewrite ingest_size.
  assert (Hc : Unix (ev_Timestamp e - defaultHistoryWindow) ≤ k).
  { etrans; [|exact Hk]. unfold Unix. apply Z.div_le_mono; [done|lia]. }
  destruct (Z.eqb_spec (Unix (Truncate (ev_Timestamp e) bs)) k) as [<-|Hne].
  - rewrite bucket_of_snoc, <- IH. apply map_lookup_filter_Some. split; [by rewrite lookup_insert_eq|done].
  - rewrite app_nil_r, <- IH. apply option_eq. intros b.
    rewrite map_lookup_filter_Some, lookup_insert_ne by done. naive_solver.
Qed.

(** ** The snapshot *)

Lemma bucket_total es b : bucket_of es = Some b → ba_total b = foldl stats_add stats_zero es.
Proof.
  assert (H : ∀ b, ba_total (foldl bucket_add b es) = foldl stats_add (ba_total b) es).
  { induction es as [|e es IH]; intros b'; [done|]. cbn. by rewrite IH. }
  destruct es as [|e es]; [done|]. cbn [bucket_of]. intros [= <-]. apply (H newBucketAggregation).
Qed.

(** The total over buckets stands for the events of all of them. *)
Lemma total_stands {A} (get : A → list AnalyticsEntry) (bucket : A → option bucketAggregation) starts :
  (∀ t, bucket t = bucket_of (get t)) →
  (∀ t, t ∈ starts → Z.of_nat (length (get t)) < 2 ^ 63) →
  stands (foldl (λ acc t, match bucket t with None => acc | Some b => stats_merge acc (ba_total b) end)
            stats_zero starts)
    (concat (get <$> starts)).
Proof.
  intros Hb Hl. induction starts as [|t starts IH] using rev_ind; [apply stands_zero|].
  rewrite foldl_snoc, fmap_app, concat_app. cbn. rewrite app_nil_r.
  specialize (IH ltac:(intros; apply Hl; set_solver)).
  rewrite Hb. destruct (bucket_of (get t)) as [b|] eqn:Eb.
  - rewrite (bucket_total _ _ Eb). apply stands_merge; [done|apply stands_all|apply Hl; set_solver].
  - destruct (get t); [by rewrite app_nil_r|done].
Qed.

Lemma filter_split {A} (P Q R : A → bool) l :
  (∀ x, R x = P x || Q x) → (∀ x, P x && Q x = false) →
  List.filter P l ++ List.filter Q l ≡ₚ List.filter R l.
Proof.
  intros HR HD. induction l as [|x l IH]; [done|]. cbn. rewrite HR. specialize (HD x).
  destruct (P x), (Q x); cbn in *; try done; [by rewrite IH|by rewrite <- Permutation_middle, IH].
Qed.

(** Consecutive spans of time partition the events. *)
Lemma within_concat bs s n l : 0 < bs →
  concat ((λ i, within (s + Z.of_nat i * bs) (s + Z.of_nat i * bs + bs) l) <$> seq 0 n) ≡ₚ within s (s + Z.of_nat n * bs) l.
Proof.
  intros H. induction n as [|n IH].
  - cbn. unfold within. rewrite Z.add_0_r. induction l as [|e l IH]; [done|]. cbn.
    destruct (Z.leb_spec s (ev_Timestamp e)), (Z.ltb_spec (ev_Timestamp e) s); cbn; done || lia.
  - rewrite seq_S, fmap_app, concat_app, IH. cbn. rewrite app_nil_r. apply filter_split; intros e.
    + destruct (Z.leb_spec s (ev_Timestamp e)), (Z.ltb_spec (ev_Timestamp e) (s + Z.of_nat n * bs)),
        (Z.ltb_spec (ev_Timestamp e) (s + Z.of_nat (S n) * bs)), (Z.leb_spec (s + Z.of_nat n * bs) (ev_Timestamp e)),
        (Z.ltb_spec (ev_Timestamp e) (s + Z.of_nat n * bs + bs)); cbn; done || lia.
    + destruct (Z.leb_spec s (ev_Timestamp e)), (Z.ltb_spec (ev_Timestamp e) (s + Z.of_nat n * bs)),
        (Z.leb_spec (s + Z.of_nat n * bs) (ev_Timestamp e)); cbn; done || lia.
Qed.

Lemma supported_facts id bs : (id, bs) ∈ supportedIntervals →
  0 < bs ∧ seconds bs ∧ duration_of supportedIntervals id = bs
  ∧ ∃ n : nat, duration_of intervalRangeWindow id = Z.of_nat n * bs ∧ Z.of_nat n * bs ≤ defaultHistoryWindow
      ∧ (∀ now, snapshot_starts id bs now = (λ i, Truncate now bs + bs - Z.of_nat n * bs + Z.of_nat i * bs) <$> seq 0 n).
Proof.
  assert (Hs : ∀ id bs (n : nat), duration_of intervalRangeWindow id = Z.of_nat n * bs → 0 < bs → (0 < n)%nat →
    is_int64 (Z.of_nat n * bs) →
    ∀ now, snapshot_starts id bs now = (λ i, Truncate now bs + bs - Z.of_nat n * bs + Z.of_nat i * bs) <$> seq 0 n).
  { intros id' bs' n Hw Hb Hn Hi now. unfold snapshot_starts. rewrite Hw.
    destruct (Z.leb_spec (Z.of_nat n * bs') 0); [nia|]. unfold i64_div.
    rewrite Z.quot_mul, wrap64_small, Nat2Z.id by (unfold is_int64, int64_min, int64_max in *; nia).
    apply list_fmap_ext. intros i t _. lia. }
  unfold supportedIntervals. intros H. repeat (apply elem_of_cons in H as [[= -> ->]|H]); [..|by apply elem_of_nil in H];
    (split_and!; [done|done|done|]);
    [exists 60%nat|exists 72%nat|exists 96%nat|exists 168%nat]; (split_and!; [done|done|apply Hs; done || lia || by split]).
Qed.

(** The point of a series for the events [es], which start at [t]. *)
Definition point_of (t : Z) (es : list AnalyticsEntry) : summaryBucket :=
  let how_many (f : AnalyticsEntry → bool) := Z.of_nat (length (List.filter f es)) in
  let s := computeSummary es in
  let ms p := microsecondsToMilliseconds (percentile (sa_Totals (foldl stats_add stats_zero es)) (f64_of_int p)) in
  mkSummaryBucket t (Z.of_nat (length es)) (how_many ev_CacheHit) (how_many is_limited) (how_many ev_UpstreamError)
    (if bool_decide (es = []) then None
     else Some (mkBucketValues (sm_AvgTotalLatencyMs s) (ms 50) (ms 90) (sm_CacheHitRatePct s) (sm_SuccessRatePct s))).

Lemma sum_one (f : AnalyticsEntry → bool) l : sumZ (λ e, one (f e)) l = Z.of_nat (length (List.filter f l)).
Proof. induction l as [|e l IH]; [done|]. rewrite sumZ_cons, IH. cbn. destruct (f e); cbn; lia. Qed.

Lemma how_many_le {A} (f : A → bool) l : (length (List.filter f l) ≤ length l)%nat.
Proof. induction l as [|x l IH]; [done|]. cbn. destruct (f x); cbn; lia. Qed.

Lemma bucket_point_exact t es : Z.of_nat (length es) < 2 ^ 63 → bucket_point t (bucket_of es) = point_of t es.
Proof.
  intros Hl. destruct (bucket_of es) as [b|] eqn:Eb; [|by destruct es].
  assert (Hne : es ≠ []) by by intros ->.
  unfold bucket_point, point_of, computeSummary. rewrite (bucket_total _ _ Eb), bool_decide_false by done.
  destruct (counts_all es).
  assert (Hw : ∀ f : AnalyticsEntry → bool, wrap64 (sumZ (λ e, one (f e)) es) = Z.of_nat (length (List.filter f es))).
  { intros f. rewrite sum_one. apply wrap64_small. pose proof (how_many_le f es). unfold is_int64, int64_min, int64_max. lia. }
  rewrite Hw in *. rewrite wrap64_small in ct_count0 by (unfold is_int64, int64_min, int64_max; lia).
  assert (Hz : 0 < Z.of_nat (length es)) by (destruct es; [done|cbn; lia]).
  unfold toSummary. rewrite ct_count0. destruct (Z.eqb_spec (Z.of_nat (length es)) 0); [lia|].
  cbn [sm_Count sm_RateLimitedCount sm_UpstreamErrorCount]. rewrite ct_hits0, ct_limited0, ct_errors0.
  by destruct (Z.ltb_spec 0 (Z.of_nat (length es))); [|lia].
Qed.

(** A bucket of the window holds the events of its span. *)
Lemma buckets_between bs n now l (i : nat) :
  0 < bs → seconds bs → Z.of_nat n * bs ≤ defaultHistoryWindow →
  Forall (λ e, ev_Timestamp e < Truncate now bs + bs) l →
  let t := Truncate now bs + bs - Z.of_nat n * bs + Z.of_nat i * bs in
  ia_buckets (foldl ingest_dated (mkInterval bs ∅) l) !! Unix t = bucket_of (between t (t + bs) l).
Proof.
  intros Hb Hs Hn Hl t. rewrite (buckets_exact bs l _ (Truncate now bs + bs)); [|done|].
  - f_equal. unfold between, within. rewrite filter_twice. apply List.filter_ext. intros e. unfold in_bucket.
    f_equal. apply bucket_spans; [done..|]. unfold t.
    replace (_ + _ - _ + _) with (Truncate now bs + (1 - Z.of_nat n + Z.of_nat i) * bs) by ring.
    by apply aligned_add, Truncate_aligned.
  - unfold Unix. apply Z.div_le_mono; [done|]. unfold t. lia.
Qed.

Lemma window_concat bs start n st l : 0 < bs → (∀ i, st i = start + Z.of_nat i * bs) →
  concat ((λ i, between (st i) (st i + bs) l) <$> seq 0 n) ≡ₚ between start (start + Z.of_nat n * bs) l.
Proof.
  intros Hb Hst. rewrite <- (within_concat bs start n (List.filter dated l) Hb).
  erewrite list_fmap_ext; [done|]. intros _ i _. cbv beta. by rewrite Hst.
Qed.

(** The buckets of a snapshot, each with the events of its span. *)
Lemma window_buckets id bs now l :
  (id, bs) ∈ supportedIntervals → Z.of_nat (length l) < 2 ^ 63 →
  Forall (λ e, ev_Timestamp e < Truncate now bs + bs) l →
  ∃ (n : nat) (st : nat → Z), duration_of intervalRangeWindow id = Z.of_nat n * bs ∧ 0 < bs
    ∧ (∀ i, st i = Truncate now bs + bs - Z.of_nat n * bs + Z.of_nat i * bs)
    ∧ snapshot_starts id bs now = st <$> seq 0 n
    ∧ (∀ i, ia_buckets (foldl ingest_dated (mkInterval bs ∅) l) !! Unix (st i) = bucket_of (between (st i) (st i + bs) l))
    ∧ (∀ i, Z.of_nat (length (between (st i) (st i + bs) l)) < 2 ^ 63).
Proof.
  intros Hid Hl Hpast. destruct (supported_facts id bs Hid) as (Hb & Hsec & Hd & n & Hw & Hle & Hstarts).
  exists n, (λ i, Truncate now bs + bs - Z.of_nat n * bs + Z.of_nat i * bs). split_and!; [done..| |].
  - intros i. by apply buckets_between.
  - intros i. set (t := _ + _ - _ + _).
    pose proof (how_many_le (λ e, (t <=? ev_Timestamp e) && (ev_Timestamp e <? t + bs)) (List.filter dated l)).
    pose proof (how_many_le dated l). unfold between, within. lia.
Qed.

(** C30: A summary of the Redis-backed store counts exactly the events of its
    window: for every supported interval, if no event is later than the
    current bucket, the totals that are merged from the buckets are those of
    adding up the events of the window one by one (the percentile too, up to
    the sample's 2048 latencies), and the series has one point per bucket of the
    window, consecutive, each with the numbers of its own events. *)
Theorem summary_exact id bs now l :
  (id, bs) ∈ supportedIntervals →
  Z.of_nat (length l) < 2 ^ 63 →
  Forall (λ e, ev_Timestamp e < Truncate now bs + bs) l →
  let r := buildFilteredSummary l id now in
  let window := duration_of intervalRangeWindow id in
  let start := Truncate now bs + bs - window in
  let es := between start (start + window) l in
  without_p95 (sr_summary r) = without_p95 (computeSummary es)
  ∧ (Z.of_nat (length es) ≤ defaultPercentileCap → sr_summary r = computeSummary es)
  ∧ sr_Series r = (λ i, let t := start + Z.of_nat i * bs in point_of t (between t (t + bs) l)) <$> seq 0 (Z.to_nat (window / bs)).
Proof.
  intros Hid Hl Hpast. destruct (window_buckets id bs now l Hid Hl Hpast) as (n & st & Hw & Hb & Hst & Hstarts & Hbucket & Hlen).
  destruct (supported_facts id bs Hid) as (_ & _ & Hd & _).
  cbv zeta. unfold buildFilteredSummary, buildSnapshot. rewrite Hd.
  change (λ ia e, if ev_Timestamp e =? zero_time then ia else ingest ia (ev_Timestamp e) e) with ingest_dated.
  cbn [fst sr_summary sr_Series]. rewrite ingest_size, Hstarts, Hw, Z.div_mul, Nat2Z.id by lia.
  rewrite !foldl_fmap, <- list_fmap_compose.
  assert (Ht := total_stands (λ i, between (st i) (st i + bs) l) _ (seq 0 n) Hbucket (λ i _, Hlen i)).
  eapply stands_perm in Ht; [|by apply window_concat].
  destruct (stands_summary _ _ _ Ht (stands_all _)) as [H1 H2].
  split_and!; [exact H1|exact H2|]. apply list_fmap_ext. intros j i _. unfold compose.
  rewrite Hbucket, <- Hst. apply bucket_point_exact, Hlen.
Qed.


(** Three requests in the last hour, one more than an hour old. *)
Module Example_summary.
Definition noon : Z := 1700049600 * Second.
Definition event (ago code : Z) (hit : bool) : AnalyticsEntry :=
  mkEvent "k1" "api" "e1" (noon - ago) "GET" "free" (20 * 1000000) (5 * 1000000) hit 1 f64_zero 100 200 code false.
Definition events : list AnalyticsEntry :=
  [event (2 * Hour) 200 false; event Minute 200 false; event 5000000000 429 false; event 0 200 true].

Lemma summary_exact_witness :
  let r := buildFilteredSummary events "1m" noon in
  sr_summary r = computeSummary (tail events) ∧ sm_Count (sr_summary r) = 3 ∧ length (sr_Series r) = 60%nat.
Proof.
  destruct (summary_exact "1m" Minute noon events) as (_ & H & Hs).
  - left.
  - vm_compute. reflexivity.
  - repeat constructor; vm_compute; reflexivity.
  - cbv zeta in *. split; [exact (H ltac:(vm_compute; discriminate))|].
    split; [vm_compute; reflexivity|]. rewrite Hs. vm_compute. reflexivity.
Defined.
End Example_summary.

(** ** Ingestion *)

Inductive ingest_step : ingestion → ingestion → Prop :=
| step_message s m : ingest_step s (receive s m)
| step_worker s e rest tries : ig_queue s = e :: rest → ingest_step s (persistAnalyticsEntry s e rest tries).

Definition ingestion_start : ingestion := mkIngestion [] [] 0 0 0 0 0 0 0.

(** The attempts at an event are at most [1 + ingestMaxRetries], and one that
    counts as persisted was written. *)
Lemma persist_bounds fuel n tries ok r w :
  persist fuel n tries = (ok, r, w) → (w ≤ S fuel)%nat ∧ (r ≤ n + fuel)%nat ∧ (ok = true → (1 ≤ w)%nat).
Proof.
  revert n ok r w. induction fuel as [|fuel IH]; intros n ok r w; cbn; destruct (tries n) as [|[] []]; intros E; simplify_eq.
  all: try (split_and!; [lia|lia|done]).
  all: destruct (persist fuel (S n) tries) as [[ok' r'] w'] eqn:Ep; simplify_eq; destruct (IH _ _ _ _ Ep) as (? & ? & Hok).
  all: split_and!; [lia|lia|]; intros Ht; specialize (Hok Ht); lia.
Qed.

Record accounted (s : ingestion) : Prop := {
  ac_received : ig_received s = ig_invalid s + ig_enqueued s + ig_dropped s;
  ac_enqueued : ig_enqueued s = ig_persisted s + ig_persistFails s + Z.of_nat (length (ig_queue s));
  ac_queue : (length (ig_queue s) ≤ defaultIngestQueueSize)%nat;
  ac_stored : ig_persisted s ≤ Z.of_nat (length (ig_stored s)) ≤ 3 * (ig_persisted s + ig_persistFails s);
  ac_retries : 0 ≤ ig_retries s ≤ 2 * (ig_persisted s + ig_persistFails s);
}.

Lemma accounted_message s m : accounted s → accounted (receive s m).
Proof.
  intros []. unfold receive. destruct m as [e|]; [|split; cbn; lia].
  destruct (Nat.ltb_spec (length (ig_queue s)) defaultIngestQueueSize); split; cbn; rewrite ?length_app; cbn; lia.
Qed.

Lemma accounted_worker s e rest tries :
  ig_queue s = e :: rest → accounted s → accounted (persistAnalyticsEntry s e rest tries).
Proof.
  intros Hq [H1 H2 H3 H4 H5]. rewrite Hq in H2, H3. cbn [length] in *. unfold persistAnalyticsEntry.
  destruct (persist ingestMaxRetries 0 tries) as [[ok r] w] eqn:Ep.
  destruct (persist_bounds _ _ _ _ _ _ Ep) as (Hw & Hr & Hok). unfold ingestMaxRetries in *.
  destruct ok; [specialize (Hok eq_refl)|clear Hok]; split; cbn; rewrite ?length_app, ?length_replicate; lia.
Qed.



(** ** Pages of stored events *)

(** The page at [offset] of [limit] events, counted from the newest, oldest
    first. *)
Lemma page_exact {A} (l : list A) limit offset :
  0 < limit → 0 ≤ offset →
  ListEntries l limit offset = reverse (take (Z.to_nat limit) (drop (Z.to_nat offset) (reverse l))).
Proof.
  intros Hlim Hoff. unfold ListEntries, LRange. destruct (Z.leb_spec limit 0); [lia|].
  unfold reverse. rewrite <- !rev_alt, skipn_rev, firstn_rev, rev_involutive, length_take.
  destruct (Z.leb_spec (Z.of_nat (length l)) offset) as [Ho|Ho].
  - replace (length l - Z.to_nat offset)%nat with 0%nat by lia. done.
  - set (n := (length l - Z.to_nat offset)%nat). set (k := (n - Z.to_nat limit)%nat).
    replace (Z.to_nat (Z.max _ 0)) with k by lia. replace (min n (length l) - Z.to_nat limit)%nat with k by lia.
    rewrite skipn_firstn_comm. f_equal. lia.
Qed.
