(* ===== verification/EdgeAnalytics.v ===== *)
(** * Observing requests at an edge ([packages/edge/analytics.go])

    What is recorded of a response as it streams, which requests become
    analytics events, and the bounded buffer they are published from.  A step is
    one call of [Capture] or one turn of the publisher, with the counters it
    moves.  The NATS client and JSON are parameters; a handler that panics is
    not observed, in the code as in the model. *)

From S2P Require Import Prelude Float64 GoLib Policies Config Upstream Analytics AnalyticsProps.

Local Open Scope Z_scope.

(** ** The response as it streams *)

Record statusRecorder := mkRecorder { sr_status : Z; sr_bytes : Z (* int64 *) }.

Definition rec_WriteHeader (w : statusRecorder) (code : Z) : statusRecorder :=
  if (sr_status w =? 0) && ((200 <=? code) || (code =? StatusSwitchingProtocols))
  then mkRecorder code (sr_bytes w) else w.

(** [Write], of which the underlying writer takes [n] bytes. *)
Definition rec_Write (w : statusRecorder) (n : Z) : statusRecorder :=
  mkRecorder (if sr_status w =? 0 then 200 else sr_status w) (sr_bytes w + n)%i64.

Inductive response_op := OpHeader (code : Z) | OpWrite (n : Z).
Definition rec_op (w : statusRecorder) (op : response_op) : statusRecorder :=
  match op with OpHeader code => rec_WriteHeader w code | OpWrite n => rec_Write w n end.

(** ** Sampling *)

(** [sampled]; [random] is the draw from [0, 1). *)
Definition sampled (svc : option ServiceConfig) (random : float64) : bool :=
  match svc with
  | None => false
  | Some svc =>
      let rate := an_SamplingRate (sv_Analytics svc) in
      an_Enabled (sv_Analytics svc)
      && (f64_leb (f64_of_int 1) rate || (f64_ltb f64_zero rate && f64_ltb random rate))
  end.

(** [time.Since], which saturates. *)
Definition Since (now t : Z) : Z := Z.max int64_min (Z.min int64_max (now - t)).

(** [observe], once the handler has returned after the calls [ops] on its
    response: the status that is counted, and the event that is captured.
    [entry] and [svc] are those of the request's state, [now] the clock. *)
Definition observe (ops : list response_op) (entry : option AnalyticsEntry) (svc : option ServiceConfig)
  (random : float64) (now : Z) : Z * option AnalyticsEntry :=
  let rec := foldl rec_op (mkRecorder 0 0) ops in
  let code := if sr_status rec =? 0 then 499 else sr_status rec in
  (code,
   match entry with
   | None => None
   | Some e =>
       if negb (sampled svc random) then None
       else
         Some (mkEvent (ev_Prefix e) (ev_Service e) (ev_EdgeID e) (ev_Timestamp e) (ev_Method e) (ev_Tier e)
                 (Since now (ev_Timestamp e)) (ev_UpstreamLatency e) (ev_CacheHit e) (ev_LimitUsed e) (ev_LimitUsedOfTotal e)
                 (ev_RequestSize e) (u64 (sr_bytes rec)) (code `mod` 2 ^ 16) (ev_UpstreamError e))
   end).

(** ** The buffer *)

Record AnalyticsManager := mkManager {
  am_buffer : list AnalyticsEntry;
  am_capacity : nat;
  am_connected : bool;         (* nc is not nil *)
  am_captured : Z;             (* atomic.Uint64, as the next three *)
  am_dropped : Z;
  am_published : Z;
  am_publishFailures : Z;
}.

Definition NewAnalyticsManagerWithNATSOptions (bufferSize : Z) (connected : bool) : AnalyticsManager :=
  let bufferSize := if bufferSize <=? 0 then er_AnalyticsBufferSize (rp_Edge DefaultRuntimePolicy) else bufferSize in
  mkManager [] (Z.to_nat bufferSize) connected 0 0 0 0.

Definition Capture (m : AnalyticsManager) (e : AnalyticsEntry) : AnalyticsManager :=
  let captured := u64 (am_captured m + 1) in
  if (length (am_buffer m) <? am_capacity m)%nat
  then mkManager (am_buffer m ++ [e]) (am_capacity m) (am_connected m) captured (am_dropped m) (am_published m) (am_publishFailures m)
  else mkManager (am_buffer m) (am_capacity m) (am_connected m) captured (u64 (am_dropped m + 1)) (am_published m) (am_publishFailures m).

(** [publish]: whether it gives an error, and what it hands to the bus.
    [marshal] encodes an event, [accept] is whether the client library takes
    the message. *)
Definition publish (marshal : AnalyticsEntry → option string) (accept : bool) (m : AnalyticsManager) (e : AnalyticsEntry) : bool * list string :=
  match marshal e with
  | None => (true, [])
  | Some b => if negb (am_connected m) then (false, []) else if accept then (false, [b]) else (true, [])
  end.

(** One turn of [StartPublisher]'s loop on an event; nothing without one. *)
Definition publisher_turn (marshal : AnalyticsEntry → option string) (accept : bool) (m : AnalyticsManager) : AnalyticsManager * list string :=
  match am_buffer m with
  | [] => (m, [])
  | e :: rest =>
      let '(failed, sent) := publish marshal accept m e in
      (mkManager rest (am_capacity m) (am_connected m) (am_captured m) (am_dropped m)
         (if failed then am_published m else u64 (am_published m + 1))
         (if failed then u64 (am_publishFailures m + 1) else am_publishFailures m), sent)
  end.

(** ** What is recorded *)

(** The first final status of a response. *)
Fixpoint final_status (ops : list response_op) : Z :=
  match ops with
  | [] => 0
  | OpHeader code :: ops => if (200 <=? code) || (code =? StatusSwitchingProtocols) then code else final_status ops
  | OpWrite _ :: _ => 200
  end.

Lemma rec_status ops w : sr_status w ≠ 0 → sr_status (foldl rec_op w ops) = sr_status w.
Proof.
  revert w. induction ops as [|[code|n] ops IH]; intros w Hw; [done|..]; cbn [foldl rec_op].
  - rewrite IH; unfold rec_WriteHeader; by destruct (Z.eqb_spec (sr_status w) 0).
  - rewrite IH; unfold rec_Write; by destruct (Z.eqb_spec (sr_status w) 0).
Qed.

(** The recorder notes the first status that is not informational (other than
    a switch of protocols), and 200 for a body without one. *)
Lemma recorded_status ops b : sr_status (foldl rec_op (mkRecorder 0 b) ops) = final_status ops.
Proof.
  revert b. induction ops as [|[code|n] ops IH]; intros b; [done|..]; cbn [foldl rec_op final_status].
  - unfold rec_WriteHeader. cbn [sr_status sr_bytes Z.eqb andb].
    destruct ((200 <=? code) || (code =? StatusSwitchingProtocols)) eqn:E; [|apply IH].
    rewrite rec_status; [done|]. cbn. apply orb_true_iff in E as [E%Z.leb_le|E%Z.eqb_eq]; unfold StatusSwitchingProtocols in *; lia.
  - by rewrite rec_status.
Qed.

(** ** The buffer's accounts *)

Section manager.
Context (marshal : AnalyticsEntry → option string).

(** A step, and the messages it sends: one call of [Capture], or one turn of
    the publisher. *)
Inductive manager_step : AnalyticsManager → list string → AnalyticsManager → Prop :=
| step_capture m e : manager_step m [] (Capture m e)
| step_publish m accept : manager_step m (publisher_turn marshal accept m).2 (publisher_turn marshal accept m).1.

Inductive manager_run : AnalyticsManager → list string → AnalyticsManager → Prop :=
| run_none m : manager_run m [] m
| run_step m1 s1 m2 s2 m3 : manager_run m1 s1 m2 → manager_step m2 s2 m3 → manager_run m1 (s1 ++ s2) m3.

Record manager_ok (m : AnalyticsManager) (sent : list string) : Prop := {
  mo_captured : am_captured m = u64 (am_dropped m + am_published m + am_publishFailures m + Z.of_nat (length (am_buffer m)));
  mo_buffer : (length (am_buffer m) ≤ am_capacity m)%nat;
  mo_sent : am_connected m = true → am_published m = u64 (Z.of_nat (length sent));
  mo_lost : am_connected m = false → sent = [];
}.

Lemma new_manager_ok size connected : manager_ok (NewAnalyticsManagerWithNATSOptions size connected) [].
Proof. by split; [| cbn; lia | |]. Qed.

(** Sums that differ only in where they wrap. *)
Ltac wrapped_sums :=
  repeat match goal with
  | |- context [u64 ?s] =>
      match s with
      | context C [u64 ?x] => let r := context C [0] in replace s with (u64 x + r) by lia; rewrite (u64_add_l x r)
      end
  end; f_equal; lia.

Lemma Capture_ok m sent e : manager_ok m sent → manager_ok (Capture m e) sent.
Proof.
  intros [H1 H2 H3 H4]. unfold Capture.
  destruct (Nat.ltb_spec (length (am_buffer m)) (am_capacity m)); split; cbn; rewrite ?length_app; cbn; try done; try lia;
    rewrite H1; wrapped_sums.
Qed.

Lemma publisher_ok m sent accept :
  manager_ok m sent → manager_ok (publisher_turn marshal accept m).1 (sent ++ (publisher_turn marshal accept m).2).
Proof.
  intros [H1 H2 H3 H4]. unfold publisher_turn.
  destruct (am_buffer m) as [|e rest] eqn:Eb; [cbn [fst snd]; rewrite app_nil_r; split; rewrite ?Eb; done|]. cbn in H1, H2. unfold publish.
  destruct (marshal e) as [b|], (am_connected m) eqn:Ec, accept;
    split; cbn; rewrite ?app_nil_r, ?length_app; cbn; rewrite ?Ec; try done; try lia; try (rewrite H1; wrapped_sums).
  intros _. rewrite H3 by done. wrapped_sums.
Qed.

(** Whatever the interleaving of requests and publisher, every captured event
    is published, dropped, failed or still in the buffer (the counters wrap),
    the buffer keeps its size, and the published count is the number of
    messages the bus took; without a connection, nothing is ever sent. *)
Theorem captures_accounted size connected sent m :
  manager_run (NewAnalyticsManagerWithNATSOptions size connected) sent m → manager_ok m sent.
Proof.
  intros H. remember (NewAnalyticsManagerWithNATSOptions size connected) as m0 eqn:E.
  induction H as [m|m1 s1 m2 s2 m3 _ IH Hs]; subst; [apply new_manager_ok|]. destruct Hs; [rewrite app_nil_r; by apply Capture_ok, IH|by apply publisher_ok, IH].
Qed.

(** Without a connection an event that could be encoded is lost, and counted
    as published. *)
Theorem lost_events_count_as_published m e rest b accept :
  am_connected m = false → am_buffer m = e :: rest → marshal e = Some b →
  ∃ m', publisher_turn marshal accept m = (m', []) ∧ am_published m' = u64 (am_published m + 1)
    ∧ am_publishFailures m' = am_publishFailures m.
Proof. intros Hc Hb Hm. unfold publisher_turn, publish. rewrite Hb, Hm, Hc. by eexists. Qed.
End manager.
