(* ===== verification/Overview.v ===== *)
(** * The dashboard's overview ([packages/analytics/overview.go])

    The numbers of one window and of the one before it, a series with a point
    per bucket, and breakdowns by tier, service and edge, from the events of a
    store that aggregates in the process.  Sorting is [merge_sort] where the
    order decides between all the elements that differ, as it does for latencies
    (which are never negative zeros) and for rows; the order of the most recent
    events, which leaves ties open, is a parameter. *)

From S2P Require Import Prelude Float64 GoLib Analytics.
From Stdlib Require Import Ascii SpecFloat.
From stdpp Require Import sorting.

Local Open Scope Z_scope.

(** ** The query *)

Definition overviewRanges : list (string * (Z * Z)) :=
  [("15m", (15 * Minute, 15 * Second)); ("1h", (Hour, Minute)); ("6h", (6 * Hour, 5 * Minute));
   ("24h", (24 * Hour, 15 * Minute)); ("7d", (7 * 24 * Hour, Hour))].

Definition overviewEntryLimit : Z := 200000.

Record analyticsFilterSpec := mkFilterSpec {
  fs_Services : list string;
  fs_Tiers : list string;
  fs_EdgeIDs : list string;
}.

Record overviewSpec := mkSpec {
  os_Range : string;
  os_Span : Z;
  os_Bucket : Z;
  os_Start : Z;
  os_End : Z;
  os_PrevStart : Z;
  os_Filters : analyticsFilterSpec;
}.

Definition sliceQueryValues (q : Values) (key : string) : list string :=
  filter (λ v, v ≠ "") (TrimSpace <$> concat (GoLib.Split "," <$> default [] (q !! key))).

Definition parseOverviewQuery (q : Values) (now : Z) : result string overviewSpec :=
  let rng := TrimSpace (query_get q "range") in
  let rng := if (rng =? "")%string then "1h" else rng in
  match find (λ x, (x.1 =? rng)%string) overviewRanges with
  | None => Err ("unsupported range " +:+ rng)
  | Some (_, (span, bucket)) =>
      let end_ := Truncate now bucket + bucket in
      let start := end_ - span in
      Ok (mkSpec rng span bucket start end_ (start - span)
            (mkFilterSpec (sliceQueryValues q "service") (sliceQueryValues q "tier") (sliceQueryValues q "edge_id")))
  end.

(** ** Numbers of a window *)

Inductive outcome_kind := outcomeOK | outcomeRateLimited | outcomeClientError | outcomeUpstreamError.

#[export] Instance outcome_kind_eq : EqDecision outcome_kind.
Proof. solve_decision. Defined.

Definition outcomeOf (e : AnalyticsEntry) : outcome_kind :=
  if ev_ResponseCode e =? StatusTooManyRequests then outcomeRateLimited
  else if ev_UpstreamError e || (500 <=? ev_ResponseCode e) then outcomeUpstreamError
  else if 400 <=? ev_ResponseCode e then outcomeClientError
  else outcomeOK.

Definition ms (d : Z) : float64 := f64_div (f64_of_int d) (f64_of_int Millisecond).

(** [sort.Float64s], on values that are neither NaN nor a negative zero. *)
Definition f64_le (x y : float64) : Prop := f64_leb x y = true.
#[export] Instance f64_le_dec x y : Decision (f64_le x y).
Proof. unfold f64_le. apply _. Defined.
Definition Float64s (l : list float64) : list float64 := merge_sort f64_le l.

Definition quantile (sorted : list float64) (q : float64) : float64 :=
  match sorted with
  | [] => f64_zero
  | _ =>
      let n := Z.of_nat (length sorted) in
      let i := f64_to_int (f64_ceil (f64_mul q (f64_of_int n))) - 1 in
      nth (Z.to_nat (Z.max 0 (Z.min i (n - 1)))) sorted f64_zero
  end.

(** 0.5, 0.9 and 0.99 as the doubles nearest to them. *)
Definition q50 : float64 := f64_dyadic 1 (-1).
Definition q90 : float64 := f64_dyadic 0x1ccccccccccccd (-53).
Definition q99 : float64 := f64_dyadic 0x1fae147ae147ae (-53).

Definition ratio (a b : float64) : float64 := if f64_eqb b f64_zero then f64_zero else f64_div a b.
Definition finite (v : float64) : float64 :=
  match v with S754_nan | S754_infinity _ => f64_zero | _ => v end.

Record windowStats := mkWindow {
  ws_Requests : Z;
  ws_RateLimited : Z;
  ws_UpstreamErrors : Z;
  ws_ClientErrors : Z;
  ws_CacheHits : Z;
  ws_P50Ms : float64;
  ws_P99Ms : float64;
  ws_OverheadP90Ms : float64;
  ws_Edges : Z;
}.

Definition proxied (e : AnalyticsEntry) : bool :=
  negb (ev_CacheHit e) && negb (ev_ResponseCode e =? StatusTooManyRequests) && (0 <? ev_UpstreamLatency e).

(** One more when the condition holds. *)
Definition tally (b : bool) (n : Z) : Z := if b then (n + 1)%i64 else n.
Definition is_outcome (o : outcome_kind) (e : AnalyticsEntry) : bool := bool_decide (outcomeOf e = o).

(** The loop of [statsOf]: the counters, the latencies, the overheads and the
    edges so far. *)
Definition stats_step (st : windowStats * list float64 * list float64 * gset string) (e : AnalyticsEntry)
  : windowStats * list float64 * list float64 * gset string :=
  let '(w, lat, overhead, edges) := st in
  (mkWindow (ws_Requests w + 1)%i64
     (tally (is_outcome outcomeRateLimited e) (ws_RateLimited w))
     (tally (is_outcome outcomeUpstreamError e) (ws_UpstreamErrors w))
     (tally (is_outcome outcomeClientError e) (ws_ClientErrors w))
     (tally (ev_CacheHit e) (ws_CacheHits w))
     (ws_P50Ms w) (ws_P99Ms w) (ws_OverheadP90Ms w) (ws_Edges w),
   lat ++ [ms (ev_TotalLatency e)],
   (if proxied e then overhead ++ [ms (ev_TotalLatency e - ev_UpstreamLatency e)%i64] else overhead),
   (if (ev_EdgeID e =? "")%string then edges else {[ev_EdgeID e]} ∪ edges)).

Definition window_zero : windowStats := mkWindow 0 0 0 0 0 f64_zero f64_zero f64_zero 0.

Definition statsOf (entries : list AnalyticsEntry) : windowStats :=
  let '(w, lat, overhead, edges) := foldl stats_step (window_zero, [], [], ∅) entries in
  let lat := Float64s lat in
  let overhead := Float64s overhead in
  mkWindow (ws_Requests w) (ws_RateLimited w) (ws_UpstreamErrors w) (ws_ClientErrors w) (ws_CacheHits w)
    (quantile lat q50) (quantile lat q99) (quantile overhead q90) (Z.of_nat (size edges)).

Definition kpis (w : windowStats) (span : Z) : gmap string float64 :=
  let n := f64_of_int (ws_Requests w) in
  list_to_map
    [("requests", n);
     ("rps", f64_div n (Duration_Seconds span));
     ("success_rate", ratio (f64_sub n (f64_of_int (ws_UpstreamErrors w))) n);
     ("rate_limited_share", ratio (f64_of_int (ws_RateLimited w)) n);
     ("p50_ms", ws_P50Ms w);
     ("p99_ms", ws_P99Ms w);
     ("gateway_overhead_p90_ms", ws_OverheadP90Ms w);
     ("cache_hit_rate", ratio (f64_of_int (ws_CacheHits w)) n);
     ("edges_active", f64_of_int (ws_Edges w))].

(** ** Series *)

Record overviewPoint := mkPoint {
  pt_T : Z;
  pt_OK : Z;
  pt_RateLimited : Z;
  pt_ClientError : Z;
  pt_UpstreamError : Z;
  pt_P50Ms : float64;
  pt_P99Ms : float64;
}.

(** The zero value of a point; its time is [zero_time]. *)
Definition point_zero : overviewPoint := mkPoint zero_time 0 0 0 0 f64_zero f64_zero.

Definition point_step (p : overviewPoint) (e : AnalyticsEntry) : overviewPoint :=
  mkPoint (pt_T p)
    (tally (is_outcome outcomeOK e) (pt_OK p))
    (tally (is_outcome outcomeRateLimited e) (pt_RateLimited p))
    (tally (is_outcome outcomeClientError e) (pt_ClientError p))
    (tally (is_outcome outcomeUpstreamError e) (pt_UpstreamError p))
    (pt_P50Ms p) (pt_P99Ms p).

(** The point of the events of one bucket. *)
Definition bucket_overview (es : list AnalyticsEntry) : overviewPoint :=
  let p := foldl point_step point_zero es in
  let lat := Float64s ((λ e, ms (ev_TotalLatency e)) <$> es) in
  mkPoint (pt_T p) (pt_OK p) (pt_RateLimited p) (pt_ClientError p) (pt_UpstreamError p) (quantile lat q50) (quantile lat q99).

(** The events by the start of their bucket. *)
Definition bucket_events (bucket : Z) (cur : list AnalyticsEntry) : gmap Z (list AnalyticsEntry) :=
  foldl (λ m e, let k := Unix (Truncate (ev_Timestamp e) bucket) in <[k := default [] (m !! k) ++ [e]]> m) ∅ cur.

(** The loop of [fillSeries] from [t]. *)
Fixpoint fill_from (fuel : nat) (spec : overviewSpec) (byBucket : gmap Z overviewPoint) (t : Z) : list overviewPoint :=
  match fuel with
  | O => []
  | S fuel =>
      if t <? os_End spec then
        let p := default point_zero (byBucket !! Unix t) in
        mkPoint t (pt_OK p) (pt_RateLimited p) (pt_ClientError p) (pt_UpstreamError p) (pt_P50Ms p) (pt_P99Ms p)
          :: fill_from fuel spec byBucket (t + os_Bucket spec)
      else []
  end.
Definition fillSeries (spec : overviewSpec) (byBucket : gmap Z overviewPoint) : list overviewPoint :=
  fill_from (S (Z.to_nat ((os_End spec - os_Start spec) / os_Bucket spec))) spec byBucket (os_Start spec).

(** ** Breakdowns *)

Record overviewRow := mkRow {
  row_Name : string;
  row_Requests : Z;
  row_Share : float64;
  row_RateLimitedShare : float64;
  row_ErrorShare : float64;
  row_CacheHitRate : float64;
  row_P90Ms : float64;
}.

Definition bump_if (b : bool) (x : float64) : float64 := if b then f64_add x (f64_of_int 1) else x.

Definition row_step (key : AnalyticsEntry → string) (groups : gmap string (overviewRow * list float64)) (e : AnalyticsEntry)
  : gmap string (overviewRow * list float64) :=
  let k := key e in
  let k := if (k =? "")%string then "(none)" else k in
  let z := f64_zero in
  let '(r, lat) := default (mkRow k 0 z z z z z, []) (groups !! k) in
  <[k := (mkRow (row_Name r) (row_Requests r + 1)%i64 (row_Share r)
            (bump_if (is_outcome outcomeRateLimited e) (row_RateLimitedShare r))
            (bump_if (is_outcome outcomeUpstreamError e) (row_ErrorShare r))
            (bump_if (ev_CacheHit e) (row_CacheHitRate r)) (row_P90Ms r),
          lat ++ [ms (ev_TotalLatency e)])]> groups.

Definition row_done (a : overviewRow * list float64) : overviewRow :=
  let '(r, lat) := a in
  let n := f64_of_int (row_Requests r) in
  mkRow (row_Name r) (row_Requests r) (row_Share r) (f64_div (row_RateLimitedShare r) n) (f64_div (row_ErrorShare r) n)
    (f64_div (row_CacheHitRate r) n) (quantile (Float64s lat) q90).

(** Busier rows first, then by name. *)
Definition row_le (r r' : overviewRow) : Prop :=
  row_Requests r' < row_Requests r ∨ (row_Requests r = row_Requests r' ∧ String.le (row_Name r) (row_Name r')).
#[export] Instance row_le_dec r r' : Decision (row_le r r').
Proof. unfold row_le. apply _. Defined.

Definition finishRows (rows : list overviewRow) (total : Z) : list overviewRow :=
  (λ r, mkRow (row_Name r) (row_Requests r) (ratio (f64_of_int (row_Requests r)) (f64_of_int total))
          (row_RateLimitedShare r) (row_ErrorShare r) (row_CacheHitRate r) (row_P90Ms r)) <$> merge_sort row_le rows.

Definition rowsBy (entries : list AnalyticsEntry) (key : AnalyticsEntry → string) : list overviewRow :=
  let groups := foldl (row_step key) ∅ entries in
  finishRows (row_done <$> (map_to_list groups).*2) (Z.of_nat (length entries)).

(** ** The response *)

Record overviewEvent := mkOverviewEvent {
  oe_Time : Z; oe_Method : string; oe_Service : string; oe_Tier : string; oe_Edge : string;
  oe_Status : Z; oe_LatencyMs : float64; oe_CacheHit : bool;
}.

Definition eventOf (e : AnalyticsEntry) : overviewEvent :=
  mkOverviewEvent (ev_Timestamp e) (ev_Method e) (ev_Service e) (ev_Tier e) (ev_EdgeID e) (ev_ResponseCode e)
    (ms (ev_TotalLatency e)) (ev_CacheHit e).

Record overviewFilters := mkOverviewFilters { of_Services : list string; of_Tiers : list string; of_Edges : list string }.

Record overviewResponse := mkOverview {
  or_Range : string;
  or_BucketSec : Z;
  or_Start : Z;
  or_End : Z;
  or_KPIs : gmap string (float64 * float64);  (* value and previous *)
  or_Series : list overviewPoint;
  or_ByTier : list overviewRow;
  or_ByService : list overviewRow;
  or_ByEdge : list overviewRow;
  or_Recent : list overviewEvent;
  or_Filters : overviewFilters;
}.

(** The part of [newOverview] that is not replaced by [buildOverview]. *)
Definition overview_kpis (spec : overviewSpec) (cur prev : windowStats) : gmap string (float64 * float64) :=
  let pk := kpis prev (os_Span spec) in
  map_imap (λ k v, Some (finite v, finite (default f64_zero (pk !! k)))) (kpis cur (os_Span spec)).

Definition matchesOverviewFilters (e : AnalyticsEntry) (f : analyticsFilterSpec) : bool :=
  in_set (fs_Services f) (ev_Service e) && in_set (fs_Tiers f) (ev_Tier e) && in_set (fs_EdgeIDs f) (ev_EdgeID e).

Definition inCur (spec : overviewSpec) (e : AnalyticsEntry) : bool :=
  negb (ev_Timestamp e <? os_Start spec) && (ev_Timestamp e <? os_End spec).
Definition inPrev (spec : overviewSpec) (e : AnalyticsEntry) : bool :=
  negb (ev_Timestamp e <? os_PrevStart spec) && (ev_Timestamp e <? os_Start spec).

Definition sortedKeys (m : gset string) : list string := merge_sort String.le (filter (λ k, k ≠ "") (elements m)).

(** The events of the current window and of the previous one. *)
Definition cur_events (spec : overviewSpec) (entries : list AnalyticsEntry) : list AnalyticsEntry :=
  List.filter (λ e, matchesOverviewFilters e (os_Filters spec) && inCur spec e) entries.
Definition prev_events (spec : overviewSpec) (entries : list AnalyticsEntry) : list AnalyticsEntry :=
  List.filter (λ e, matchesOverviewFilters e (os_Filters spec) && (negb (inCur spec e) && inPrev spec e)) entries.

Section overview.
(** [sort.Slice] by descending time. *)
Variable newest_first : list AnalyticsEntry → list AnalyticsEntry.

Definition buildOverview (spec : overviewSpec) (entries : list AnalyticsEntry) : overviewResponse :=
  let cur := cur_events spec entries in
  let prev := prev_events spec entries in
  let options (f : AnalyticsEntry → string) := sortedKeys (list_to_set (f <$> List.filter (inCur spec) entries)) in
  mkOverview (os_Range spec) (f64_to_int (Duration_Seconds (os_Bucket spec))) (os_Start spec) (os_End spec)
    (overview_kpis spec (statsOf cur) (statsOf prev))
    (fillSeries spec (bucket_overview <$> bucket_events (os_Bucket spec) cur))
    (rowsBy cur ev_Tier) (rowsBy cur ev_Service) (rowsBy cur ev_EdgeID)
    (eventOf <$> take 15 (newest_first cur))
    (mkOverviewFilters (options ev_Service) (options ev_Tier) (options ev_EdgeID)).
End overview.
