(* ===== verification/OverviewProps.v ===== *)
(** * The overview's numbers agree

    Every event of the window is in one point of the series, one row of each
    breakdown and the totals, and in no other. *)

From S2P Require Import Prelude Float64 GoLib Analytics AnalyticsProps Overview.
From stdpp Require Import sorting.

Local Open Scope Z_scope.

Definition how_many (f : AnalyticsEntry → bool) (es : list AnalyticsEntry) : Z := Z.of_nat (length (List.filter f es)).

Lemma how_many_snoc f es e : how_many f (es ++ [e]) = how_many f es + (if f e then 1 else 0).
Proof. unfold how_many. rewrite List.filter_app, length_app. cbn. destruct (f e); cbn; lia. Qed.

Lemma how_many_range f es : 0 ≤ how_many f es ≤ Z.of_nat (length es).
Proof. unfold how_many. pose proof (how_many_le f es). lia. Qed.

Lemma how_many_perm f l l' : l ≡ₚ l' → how_many f l = how_many f l'.
Proof.
  unfold how_many. induction 1 as [|x l l' _ IH|x y l|l1 l2 l3 _ IH1 _ IH2]; cbn; [done| | |by rewrite IH1].
  - destruct (f x); cbn; lia.
  - by destruct (f x), (f y).
Qed.

Lemma tally_exact f es e n :
  Z.of_nat (length (es ++ [e])) < 2 ^ 63 → n = how_many f es → tally (f e) n = how_many f (es ++ [e]).
Proof.
  intros Hl ->. rewrite how_many_snoc. unfold tally. pose proof (how_many_range f es). rewrite length_app in Hl. cbn in Hl.
  destruct (f e); [|lia]. unfold i64_add. apply wrap64_small. unfold is_int64, int64_min, int64_max. lia.
Qed.

(** Every event has exactly one outcome. *)
Lemma outcomes_partition es :
  how_many (is_outcome outcomeOK) es + how_many (is_outcome outcomeRateLimited) es
  + how_many (is_outcome outcomeClientError) es + how_many (is_outcome outcomeUpstreamError) es = Z.of_nat (length es).
Proof.
  induction es as [|e es IH] using rev_ind; [done|]. rewrite !how_many_snoc, length_app. cbn.
  unfold is_outcome in *. destruct (outcomeOf e); repeat case_bool_decide; simplify_eq; lia.
Qed.

(** ** Points *)

Definition point_at (t : Z) (es : list AnalyticsEntry) : overviewPoint :=
  let lat := Float64s ((λ e, ms (ev_TotalLatency e)) <$> es) in
  mkPoint t (how_many (is_outcome outcomeOK) es) (how_many (is_outcome outcomeRateLimited) es)
    (how_many (is_outcome outcomeClientError) es) (how_many (is_outcome outcomeUpstreamError) es)
    (quantile lat q50) (quantile lat q99).

Lemma point_counts es : Z.of_nat (length es) < 2 ^ 63 →
  foldl point_step point_zero es
  = mkPoint zero_time (how_many (is_outcome outcomeOK) es) (how_many (is_outcome outcomeRateLimited) es)
      (how_many (is_outcome outcomeClientError) es) (how_many (is_outcome outcomeUpstreamError) es) f64_zero f64_zero.
Proof.
  induction es as [|e es IH] using rev_ind; [done|]. intros Hl. rewrite foldl_snoc, IH by (rewrite length_app in Hl; lia).
  unfold point_step. cbn. by rewrite !(tally_exact _ es e) by done.
Qed.

Lemma bucket_overview_exact es : Z.of_nat (length es) < 2 ^ 63 → bucket_overview es = point_at zero_time es.
Proof. intros Hl. unfold bucket_overview, point_at. by rewrite point_counts. Qed.

Definition nonempty (es : list AnalyticsEntry) : option (list AnalyticsEntry) := match es with [] => None | _ => Some es end.

Lemma bucket_events_exact bs cur k :
  bucket_events bs cur !! k = nonempty (List.filter (λ e, Unix (Truncate (ev_Timestamp e) bs) =? k) cur).
Proof.
  unfold bucket_events. induction cur as [|e cur IH] using rev_ind; [done|].
  rewrite foldl_snoc, List.filter_app. cbn. set (m := foldl _ _ _) in *.
  destruct (Z.eqb_spec (Unix (Truncate (ev_Timestamp e) bs)) k) as [<-|Hne].
  - rewrite lookup_insert_eq, IH. by destruct (List.filter _ _).
  - rewrite lookup_insert_ne, app_nil_r by done. exact IH.
Qed.

(** ** The series *)

Definition point_in (byBucket : gmap Z overviewPoint) (t : Z) : overviewPoint :=
  let p := default point_zero (byBucket !! Unix t) in
  mkPoint t (pt_OK p) (pt_RateLimited p) (pt_ClientError p) (pt_UpstreamError p) (pt_P50Ms p) (pt_P99Ms p).

Lemma fill_from_S fuel spec byBucket t :
  fill_from (S fuel) spec byBucket t
  = if t <? os_End spec then point_in byBucket t :: fill_from fuel spec byBucket (t + os_Bucket spec) else [].
Proof. done. Qed.

Lemma fill_from_exact spec byBucket n : 0 < os_Bucket spec →
  ∀ fuel t, (n ≤ fuel)%nat → os_End spec = t + Z.of_nat n * os_Bucket spec →
  fill_from (S fuel) spec byBucket t = (λ i, point_in byBucket (t + Z.of_nat i * os_Bucket spec)) <$> seq 0 n.
Proof.
  intros Hb. induction n as [|n IH]; intros fuel t Hf He; rewrite fill_from_S.
  - destruct (Z.ltb_spec t (os_End spec)); [lia|done].
  - destruct fuel as [|fuel]; [lia|]. destruct (Z.ltb_spec t (os_End spec)); [|nia].
    cbn [seq fmap list_fmap]. f_equal; [by rewrite Z.add_0_r|].
    rewrite IH by lia. rewrite <- (seq_shift n 0), <- list_fmap_compose. apply list_fmap_ext.
    intros _ i _. unfold compose. f_equal. lia.
Qed.

(** What a query gives: a window of whole buckets that ends with the current
    one, and one of the same length before it. *)
Lemma parse_facts q now spec : parseOverviewQuery q now = Ok spec →
  0 < os_Bucket spec ∧ seconds (os_Bucket spec) ∧ aligned (os_Bucket spec) (os_Start spec)
  ∧ os_Start spec = os_PrevStart spec + os_Span spec
  ∧ os_Start spec + os_Span spec = os_End spec ∧ os_End spec - os_Bucket spec ≤ now < os_End spec
  ∧ ∃ n : nat, os_Span spec = Z.of_nat n * os_Bucket spec.
Proof.
  unfold parseOverviewQuery. intros H.
  destruct (find _ overviewRanges) as [[rng [span bucket]]|] eqn:Ef; [|done]. simplify_eq. cbn.
  apply List.find_some in Ef as [Hin _].
  assert (Hr : 0 < bucket ∧ seconds bucket ∧ ∃ n : nat, span = Z.of_nat n * bucket).
  { repeat (destruct Hin as [[= <- <- <-]|Hin]); [..|done]; (split; [done|]); (split; [done|]);
      [exists 60%nat|exists 60%nat|exists 72%nat|exists 96%nat|exists 168%nat]; done. }
  destruct Hr as (Hb & Hs & n & Hn). pose proof (Truncate_spec now bucket Hb).
  split_and!; [done|done| |lia|lia|lia|lia|by exists n].
  rewrite Hn. replace (_ + _ - _) with (Truncate now bucket + (1 - Z.of_nat n) * bucket) by ring.
  by apply aligned_add, Truncate_aligned.
Qed.

(** The series of the current events has one point per bucket, with the
    numbers of the events of that bucket. *)
Lemma series_exact spec n cur :
  0 < os_Bucket spec → seconds (os_Bucket spec) → aligned (os_Bucket spec) (os_Start spec) →
  os_End spec = os_Start spec + Z.of_nat n * os_Bucket spec → Z.of_nat (length cur) < 2 ^ 63 →
  fillSeries spec (bucket_overview <$> bucket_events (os_Bucket spec) cur)
  = (λ i, let t := os_Start spec + Z.of_nat i * os_Bucket spec in point_at t (within t (t + os_Bucket spec) cur)) <$> seq 0 n.
Proof.
  intros Hb Hs Ha He Hl. unfold fillSeries. rewrite He, Z.add_simpl_l, Z.div_mul, Nat2Z.id by lia.
  rewrite (fill_from_exact _ _ n) by lia. apply list_fmap_ext. intros _ i _. cbv zeta.
  set (t := os_Start spec + Z.of_nat i * os_Bucket spec). unfold point_in.
  rewrite lookup_fmap, bucket_events_exact.
  rewrite (List.filter_ext _ (λ e, (t <=? ev_Timestamp e) && (ev_Timestamp e <? t + os_Bucket spec)))
    by (intros e; apply bucket_spans; [done..|by apply aligned_add]).
  fold (within t (t + os_Bucket spec) cur). pose proof (how_many_le (λ e, (t <=? ev_Timestamp e) && (ev_Timestamp e <? t + os_Bucket spec)) cur).
  destruct (within t (t + os_Bucket spec) cur) as [|e es] eqn:Ew; [done|]. cbn [nonempty fmap option_fmap option_map default].
  rewrite bucket_overview_exact; [done|]. rewrite <- Ew. unfold within. lia.
Qed.

(** ** Totals *)

Lemma stats_counts es : Z.of_nat (length es) < 2 ^ 63 →
  let w := statsOf es in
  ws_Requests w = Z.of_nat (length es)
  ∧ ws_RateLimited w = how_many (is_outcome outcomeRateLimited) es
  ∧ ws_UpstreamErrors w = how_many (is_outcome outcomeUpstreamError) es
  ∧ ws_ClientErrors w = how_many (is_outcome outcomeClientError) es
  ∧ ws_CacheHits w = how_many ev_CacheHit es.
Proof.
  intros Hl.
  assert (H : ∃ lat over edges, foldl stats_step (window_zero, [], [], ∅) es
    = (mkWindow (Z.of_nat (length es)) (how_many (is_outcome outcomeRateLimited) es)
         (how_many (is_outcome outcomeUpstreamError) es) (how_many (is_outcome outcomeClientError) es)
         (how_many ev_CacheHit es) f64_zero f64_zero f64_zero 0, lat, over, edges)).
  { induction es as [|e es IH] using rev_ind; [by repeat eexists|]. pose proof Hl as Hl'. rewrite length_app in Hl'. cbn in Hl'.
    destruct IH as (lat & over & edges & E); [lia|]. rewrite foldl_snoc, E. unfold stats_step. cbn.
    rewrite !(tally_exact _ es e) by done. unfold i64_add. rewrite wrap64_small by (unfold is_int64, int64_min, int64_max; lia).
    replace (Z.of_nat (length es) + 1) with (Z.of_nat (length (es ++ [e]))) by (rewrite length_app; cbn; lia).
    by repeat eexists. }
  destruct H as (lat & over & edges & E). cbv zeta. unfold statsOf. by rewrite E.
Qed.

(** ** Rows *)

Definition name_of (key : AnalyticsEntry → string) (e : AnalyticsEntry) : string :=
  if (key e =? "")%string then "(none)" else key e.
Definition named (key : AnalyticsEntry → string) (k : string) (e : AnalyticsEntry) : bool := (name_of key e =? k)%string.

(** What the groups hold after the events [es]. *)
Record grouped (key : AnalyticsEntry → string) (es : list AnalyticsEntry) (g : gmap string (overviewRow * list float64)) : Prop := {
  gr_row : ∀ k r lat, g !! k = Some (r, lat) → row_Name r = k ∧ row_Requests r = how_many (named key k) es ∧ 0 < row_Requests r;
  gr_none : ∀ k, g !! k = None → how_many (named key k) es = 0;
  gr_sum : sumZ (λ kr, row_Requests kr.2.1) (map_to_list g) = Z.of_nat (length es);
}.

Lemma grouped_step key es g e :
  Z.of_nat (length (es ++ [e])) < 2 ^ 63 → grouped key es g → grouped key (es ++ [e]) (row_step key g e).
Proof.
  intros Hl [Hrow Hnone Hsum]. pose proof Hl as Hl'. rewrite length_app in Hl'. cbn in Hl'.
  unfold row_step. fold (name_of key e). set (k := name_of key e).
  set (z := default _ _). destruct z as [r lat] eqn:Ez.
  assert (Hr : row_Name r = k ∧ row_Requests r = how_many (named key k) es
               ∧ row_Requests r = match g !! k with Some r' => row_Requests r'.1 | None => 0 end).
  { unfold z in Ez. destruct (g !! k) as [[r' lat']|] eqn:Eg; cbn in Ez; simplify_eq.
    - by destruct (Hrow _ _ _ Eg) as (? & ? & ?).
    - cbn. by rewrite (Hnone _ Eg). }
  destruct Hr as (Hn & Hc & Hold). pose proof (how_many_range (named key k) es).
  assert (Hadd : (row_Requests r + 1)%i64 = row_Requests r + 1).
  { apply wrap64_small. unfold is_int64, int64_min, int64_max. lia. }
  assert (Hk : ∀ k', how_many (named key k') (es ++ [e]) = how_many (named key k') es + if decide (k = k') then 1 else 0).
  { intros k'. rewrite how_many_snoc. unfold named at 2. fold k. by destruct (String.eqb_spec k k'), (decide (k = k')). }
  split.
  - intros k' r' lat' Hg. rewrite Hk. destruct (decide (k = k')) as [<-|Hne].
    + rewrite lookup_insert_eq in Hg. simplify_eq. cbn. rewrite Hadd. split_and!; [done|lia|lia].
    + rewrite lookup_insert_ne in Hg by done. rewrite Z.add_0_r. by apply (Hrow k' r' lat').
  - intros k' Hg. rewrite Hk. destruct (decide (k = k')) as [<-|Hne]; [by rewrite lookup_insert_eq in Hg|].
    rewrite lookup_insert_ne in Hg by done. rewrite Z.add_0_r. by apply Hnone.
  - rewrite (sumZ_map_delete _ g k) in Hsum. rewrite sumZ_map_insert, length_app. cbn. rewrite Hadd.
    destruct (g !! k); cbn in *; lia.
Qed.

Lemma grouped_all key es : Z.of_nat (length es) < 2 ^ 63 → grouped key es (foldl (row_step key) ∅ es).
Proof.
  induction es as [|e es IH] using rev_ind; intros Hl; [by split|].
  rewrite foldl_snoc. apply grouped_step; [done|]. apply IH. rewrite length_app in Hl. lia.
Qed.

#[export] Instance row_le_trans : Transitive row_le.
Proof. intros x y z [?|[? ?]] [?|[? ?]]; unfold row_le; [left; lia|left; lia|left; lia|right; split; [lia|by etrans]]. Qed.
#[export] Instance row_le_total : Total row_le.
Proof.
  intros x y. unfold row_le. destruct (Z.lt_trichotomy (row_Requests x) (row_Requests y)) as [|[|]]; [tauto| |tauto].
  destruct (total String.le (row_Name x) (row_Name y)); [left|right]; right; done.
Qed.

(** The rows of a breakdown. *)
Record breakdown (key : AnalyticsEntry → string) (es : list AnalyticsEntry) (rows : list overviewRow) : Prop := {
  bd_names : NoDup (row_Name <$> rows);
  bd_rows : Forall (λ r, row_Requests r = how_many (named key (row_Name r)) es ∧ 0 < row_Requests r) rows;
  bd_sum : sumZ row_Requests rows = Z.of_nat (length es);
  bd_sorted : StronglySorted row_le rows;
}.

Lemma breakdown_exact key es : Z.of_nat (length es) < 2 ^ 63 → breakdown key es (rowsBy es key).
Proof.
  intros Hl. destruct (grouped_all key es Hl) as [Hrow _ Hsum]. unfold rowsBy, finishRows.
  set (g := foldl _ _ _) in *. set (rows := row_done <$> (map_to_list g).*2).
  assert (Hrows : rows = (λ kr, row_done kr.2) <$> map_to_list g) by (unfold rows; by rewrite <- list_fmap_compose).
  assert (Hp : merge_sort row_le rows ≡ₚ rows) by apply merge_sort_Permutation.
  split.
  - rewrite <- list_fmap_compose. unfold compose. cbn. rewrite Hp, Hrows, <- list_fmap_compose.
    rewrite (list_fmap_ext _ fst); [apply NoDup_fst_map_to_list|].
    intros _ [k [r lat]] Hin%list_elem_of_lookup_2%elem_of_map_to_list. cbn. by destruct (Hrow _ _ _ Hin).
  - rewrite Forall_fmap, Hp, Hrows, Forall_fmap, Forall_forall. intros [k [r lat]] Hin%elem_of_map_to_list. cbn.
    destruct (Hrow _ _ _ Hin) as (-> & H). done.
  - rewrite <- Hsum, sumZ_fmap. cbn. rewrite (sumZ_perm _ _ _ Hp), Hrows, sumZ_fmap. apply sumZ_ext. by intros [k [r lat]] _.
  - apply (StronglySorted_fmap _ row_le); [done|apply (StronglySorted_merge_sort row_le)].
Qed.

(** ** The overview *)

(** The events the filters let through. *)
Definition matching (spec : overviewSpec) (entries : list AnalyticsEntry) : list AnalyticsEntry :=
  List.filter (λ e, matchesOverviewFilters e (os_Filters spec)) entries.

Lemma current_within spec entries : cur_events spec entries = within (os_Start spec) (os_End spec) (matching spec entries).
Proof.
  unfold cur_events, within, matching. rewrite filter_twice. apply List.filter_ext. intros e.
  unfold inCur. by rewrite <- Z.leb_antisym.
Qed.

Lemma previous_within spec entries : prev_events spec entries = within (os_PrevStart spec) (os_Start spec) (matching spec entries).
Proof.
  unfold prev_events, within, matching. rewrite filter_twice. apply List.filter_ext. intros e.
  unfold inCur, inPrev. rewrite <- !Z.leb_antisym. f_equal.
  destruct (Z.leb_spec (os_Start spec) (ev_Timestamp e)), (Z.ltb_spec (ev_Timestamp e) (os_Start spec)); [lia| | |lia];
    cbn; by rewrite ?andb_false_r.
Qed.

Lemma within_length a b l : (length (within a b l) ≤ length l)%nat.
Proof. apply how_many_le. Qed.

Lemma within_idem a b a' b' l : a ≤ a' → b' ≤ b → within a' b' (within a b l) = within a' b' l.
Proof.
  intros Ha Hb. unfold within. rewrite filter_twice. apply List.filter_ext. intros e.
  destruct (Z.leb_spec a (ev_Timestamp e)), (Z.leb_spec a' (ev_Timestamp e)), (Z.ltb_spec (ev_Timestamp e) b),
    (Z.ltb_spec (ev_Timestamp e) b'); cbn; done || lia.
Qed.

(** Sums over consecutive spans of time. *)
Lemma how_many_concat {A} f (g : A → list AnalyticsEntry) l : how_many f (concat (g <$> l)) = sumZ (λ x, how_many f (g x)) l.
Proof.
  induction l as [|x l IH]; [done|]. rewrite fmap_cons, sumZ_cons, <- IH. unfold how_many. cbn.
  rewrite List.filter_app, length_app. lia.
Qed.

Lemma series_sum f bs s n l : 0 < bs →
  sumZ (λ i, how_many f (within (s + Z.of_nat i * bs) (s + Z.of_nat i * bs + bs) l)) (seq 0 n)
  = how_many f (within s (s + Z.of_nat n * bs) l).
Proof. intros H. rewrite <- how_many_concat. by apply how_many_perm, within_concat. Qed.

Lemma finite_of_int n : f64_small n → finite (f64_of_int n) = f64_of_int n.
Proof.
  intros H. destruct (decide (n = 0)) as [->|Hn]; [done|]. by destruct (f64_of_int_finite n H Hn) as (? & ? & ? & -> & _).
Qed.

(** C31: The dashboard's overview is exact and its parts agree.  For every
    query that parses, with the events that pass its filters: the series has one point
    per bucket of the window, with the numbers of the events of that bucket by
    outcome; the points add up to the window's totals, of all requests and of
    those rate limited or failed; each breakdown has one row per name, the
    busiest first, with the number of its events, and adds up to the same total;
    and the requests shown are those of the window and of the window of the
    same length before it. *)
Theorem overview_consistent newest_first q now spec entries :
  parseOverviewQuery q now = Ok spec → Z.of_nat (length entries) ≤ overviewEntryLimit →
  let r := buildOverview newest_first spec entries in
  let cur := within (os_Start spec) (os_Start spec + os_Span spec) (matching spec entries) in
  let prev := within (os_Start spec - os_Span spec) (os_Start spec) (matching spec entries) in
  or_Series r = (λ i, let t := os_Start spec + Z.of_nat i * os_Bucket spec in
                      point_at t (within t (t + os_Bucket spec) cur)) <$> seq 0 (Z.to_nat (os_Span spec / os_Bucket spec))
  ∧ sumZ (λ p, pt_OK p + pt_RateLimited p + pt_ClientError p + pt_UpstreamError p) (or_Series r) = Z.of_nat (length cur)
  ∧ sumZ pt_RateLimited (or_Series r) = ws_RateLimited (statsOf cur)
  ∧ sumZ pt_UpstreamError (or_Series r) = ws_UpstreamErrors (statsOf cur)
  ∧ breakdown ev_Tier cur (or_ByTier r) ∧ breakdown ev_Service cur (or_ByService r) ∧ breakdown ev_EdgeID cur (or_ByEdge r)
  ∧ or_KPIs r !! "requests" = Some (f64_of_int (Z.of_nat (length cur)), f64_of_int (Z.of_nat (length prev))).
Proof.
  intros Hq Hl. destruct (parse_facts q now spec Hq) as (Hb & Hs & Ha & Hprev & Hend & _ & n & Hn). cbv zeta.
  unfold buildOverview. rewrite current_within, previous_within, <- Hend.
  replace (os_PrevStart spec) with (os_Start spec - os_Span spec) by lia.
  set (ms := matching spec entries). set (cur := within _ (os_Start spec + _) ms). set (prev := within _ (os_Start spec) ms).
  assert (Hms : (length ms ≤ length entries)%nat) by apply how_many_le.
  pose proof (within_length (os_Start spec) (os_Start spec + os_Span spec) ms) as Hcur. fold cur in Hcur.
  pose proof (within_length (os_Start spec - os_Span spec) (os_Start spec) ms) as Hpr. fold prev in Hpr.
  unfold overviewEntryLimit in Hl.
  assert (Hbig : Z.of_nat (length cur) < 2 ^ 63) by lia.
  destruct (stats_counts cur Hbig) as (Hreq & Hrl & Hue & _). destruct (stats_counts prev) as (Hreq' & _); [lia|].
  cbn [or_Series or_ByTier or_ByService or_ByEdge or_KPIs].
  rewrite (series_exact spec n cur) by (done || lia). rewrite Hn, Z.div_mul, Nat2Z.id, !sumZ_fmap by lia.
  assert (Hsum : ∀ f, sumZ (λ i, how_many f (within (os_Start spec + Z.of_nat i * os_Bucket spec)
      (os_Start spec + Z.of_nat i * os_Bucket spec + os_Bucket spec) cur)) (seq 0 n) = how_many f cur).
  { intros f. rewrite series_sum by done. unfold cur. rewrite within_idem, <- Hn by lia. done. }
  rewrite Hrl, Hue. split_and!; [done| |apply Hsum|apply Hsum|by apply breakdown_exact..|].
  - cbn [pt_OK pt_RateLimited pt_ClientError pt_UpstreamError point_at]. by rewrite !sumZ_add, !Hsum, outcomes_partition.
  - unfold overview_kpis. rewrite map_lookup_imap.
    assert (Hk : ∀ w d, kpis w d !! "requests" = Some (f64_of_int (ws_Requests w))) by done.
    rewrite !Hk, Hreq, Hreq'. cbn [mbind option_bind default].
    unfold id. by rewrite !finite_of_int by (unfold f64_small, f64_max_int; lia).
Qed.

Module Example_overview.
Definition events : list AnalyticsEntry := Example_summary.event (90 * Minute) 500 false :: Example_summary.events.
Definition query : Values := {[ "range" := ["1h"]; "tier" := ["free,pro"] ]}.

Lemma overview_consistent_witness :
  match parseOverviewQuery query Example_summary.noon with
  | Ok spec =>
      let r := buildOverview (λ l, l) spec events in
      sumZ (λ p, pt_OK p + pt_RateLimited p + pt_ClientError p + pt_UpstreamError p) (or_Series r) = 3
      ∧ sumZ pt_RateLimited (or_Series r) = 1 ∧ sumZ row_Requests (or_ByService r) = 3
      ∧ or_KPIs r !! "requests" = Some (f64_of_int 3, f64_of_int 1)
  | Err _ => False
  end.
Proof.
  pose proof (overview_consistent (λ l, l) query Example_summary.noon) as H.
  destruct (parseOverviewQuery query Example_summary.noon) as [spec|] eqn:E; [|vm_compute in E; discriminate].
  destruct (H spec events eq_refl) as (_ & Hs & Hr & _ & _ & [_ _ Hb _] & _ & Hk); [vm_compute; discriminate|].
  vm_compute in E. injection E as <-. cbv zeta in *. rewrite Hs, Hr, Hb, Hk. split_and!; vm_compute; reflexivity.
Defined.
End Example_overview.
