(* ===== verification/AnalyticsApi.v ===== *)
(** * The analytics server ([packages/analytics/server.go], [contract.go], [scaling.go])

    The HTTP handlers over the Redis-backed store, the background refresh and
    the numbers read from Prometheus.  One request is one step: what the
    outside world does during it (the clock, whether a command of the store succeeds, what Prometheus
    answers) is the argument [io]. *)

From S2P Require Import Prelude Float64 GoLib Policies Analytics Overview.

Local Open Scope Z_scope.

(** ** The summary query *)

Record analyticsSummaryQuerySpec := mkSummarySpec {
  qs_Interval : string;
  qs_BucketSize : Z;
  qs_WindowStart : Z;
  qs_WindowEnd : Z;
  qs_PreviousStart : Z;
  qs_PreviousEnd : Z;
  qs_GroupBy : string;
}.

(** ** Prometheus *)

Definition scalingQueries : list string :=
  ["edge_rps"; "hub_lease_rps"; "waiting_rps"; "key_lookup_rps"; "edges_connected"; "edges_serving"; "hubs_serving"].
Definition scalingCacheTTL : Z := 5 * Second.

Record scalingResponse := mkScaling {
  sc_Enabled : bool;
  sc_Error : string;
  sc_Values : gmap string float64;
  sc_HubWorkPerRequest : float64;
}.

Record prometheus := mkPrometheus { pm_cached : scalingResponse; pm_fetched : Z }.

(** [snapshot]; [query] is what Prometheus answers to the query of a name
    ([None]: it fails, which ends the round). *)
Definition scaling_snapshot (now : Z) (query : string → option float64) (p : prometheus) : scalingResponse * prometheus :=
  if now - pm_fetched p <? scalingCacheTTL then (pm_cached p, p)
  else
    let resp :=
      match mapM (λ name, v ← query name; Some (name, v)) scalingQueries with
      | None => mkScaling true "prometheus unreachable" ∅ f64_zero
      | Some values =>
          let m : gmap string float64 := list_to_map values in
          let get k := default f64_zero (m !! k) in
          mkScaling true "" m (ratio (f64_add (get "hub_lease_rps") (get "key_lookup_rps")) (get "edge_rps"))
      end in
    (resp, mkPrometheus resp now).

(** ** The server *)

Record Server := mkServer {
  sv_store : list AnalyticsEntry;
  sv_aggregates : aggregates;
  sv_ingestion : ingestion;
  sv_prom : option prometheus;
  sv_authToken : string;
  sv_policy : AnalyticsRuntimePolicy;
  sv_allowTestingClear : bool;
  sv_hubReady : bool;
  sv_pendingDependency : string;
  sv_ingestStarted : bool;
  sv_subscriberUp : bool;
}.

Definition NewServerWithStore (store : list AnalyticsEntry) (authToken : string) (policy : AnalyticsRuntimePolicy)
    (allowTestingClear : bool) : Server :=
  mkServer store (mkAggregates fresh_data ∅ ∅ false) (mkIngestion [] store 0 0 0 0 0 0 0) None (TrimSpace authToken)
    (AnalyticsRuntimePolicy_Effective policy (rp_Analytics DefaultRuntimePolicy)) allowTestingClear true "hub_readyz" false false.

Definition set_store (s : Server) (store : list AnalyticsEntry) : Server :=
  mkServer store (sv_aggregates s) (sv_ingestion s) (sv_prom s) (sv_authToken s) (sv_policy s) (sv_allowTestingClear s) (sv_hubReady s)
    (sv_pendingDependency s) (sv_ingestStarted s) (sv_subscriberUp s).
Definition set_aggregates (s : Server) (ag : aggregates) : Server :=
  mkServer (sv_store s) ag (sv_ingestion s) (sv_prom s) (sv_authToken s) (sv_policy s) (sv_allowTestingClear s) (sv_hubReady s)
    (sv_pendingDependency s) (sv_ingestStarted s) (sv_subscriberUp s).
Definition set_prom (s : Server) (p : option prometheus) : Server :=
  mkServer (sv_store s) (sv_aggregates s) (sv_ingestion s) p (sv_authToken s) (sv_policy s) (sv_allowTestingClear s) (sv_hubReady s)
    (sv_pendingDependency s) (sv_ingestStarted s) (sv_subscriberUp s).

Definition SetPendingDependency (s : Server) (dependency : string) : Server :=
  let v := TrimSpace dependency in
  mkServer (sv_store s) (sv_aggregates s) (sv_ingestion s) (sv_prom s) (sv_authToken s) (sv_policy s) (sv_allowTestingClear s)
    (sv_hubReady s) (if (v =? "")%string then "unknown" else v) (sv_ingestStarted s) (sv_subscriberUp s).

Definition pendingDependencyValue (s : Server) : string :=
  let dep := TrimSpace (sv_pendingDependency s) in if (dep =? "")%string then "unknown" else dep.

Record analytics_request := mkAnalyticsRequest {
  rq_Method : string;
  rq_Path : string;
  rq_Query : Values;
  rq_Authorization : string;
}.

Inductive answer :=
| Failed (status : Z) (msg : string)
| NotFound
| Frontend (path : string)
| Health (status : Z) (state : string) (missing : option string)
| Features (testing_clear_enabled : bool)
| Metrics (m : ingestion)
| Events (events : list AnalyticsEntry)
| Summary (r : summaryResponse)
| Grouped (g : gmap string summary)
| Processing (interval : string)
| OverviewOf (r : overviewResponse)
| Scaling (r : scalingResponse)
| Cleared.

(** What happens outside while a request is served. *)
Record io := mkIO {
  io_now : Z;
  io_ping : bool;                    (* the store answers *)
  io_read : bool;                    (* reading the store succeeds *)
  io_clear : bool;                   (* the command that clears the store succeeds *)
  io_cleared : bool;                 (* ... and when it does not, it has taken effect *)
  io_query : string → option float64; (* Prometheus *)
}.

Definition authorize (s : Server) (r : analytics_request) : bool :=
  (sv_authToken s =? "")%string
  || (HasPrefix (rq_Authorization r) "Bearer " && (TrimPrefix (rq_Authorization r) "Bearer " =? sv_authToken s)%string).

Definition not_allowed : answer := Failed 405 "method not allowed".
Definition unauthorized : answer := Failed 401 "unauthorized".
Definition storage_error : answer := Failed 500 "analytics storage error".
Definition is_get (r : analytics_request) : bool := (rq_Method r =? "GET")%string.

Definition handleHealth (r : analytics_request) : answer := if is_get r then Health 200 "ok" None else not_allowed.

(** [handleReady] with the Redis-backed store; what is missing is named
    after the other store all the same. *)
Definition handleReady (env : io) (s : Server) (r : analytics_request) : answer * Server :=
  if negb (is_get r) then (not_allowed, s)
  else if negb (sv_hubReady s) then (Health 503 "pending" (Some (pendingDependencyValue s)), s)
  else if negb (io_ping env) then (Health 503 "pending" (Some "clickhouse"), SetPendingDependency s "clickhouse")
  else if negb (sv_ingestStarted s) || negb (sv_subscriberUp s)
  then (Health 503 "pending" (Some "nats_subscriber"), SetPendingDependency s "nats_subscriber")
  else (Health 200 "ready" None, SetPendingDependency s "").

Definition handleFeatures (s : Server) (r : analytics_request) : answer :=
  if is_get r then Features (sv_allowTestingClear s) else not_allowed.
Definition handleIngestionMetrics (s : Server) (r : analytics_request) : answer :=
  if is_get r then Metrics (sv_ingestion s) else not_allowed.

Definition readEntries (env : io) (s : Server) (limit offset : Z) : option (list AnalyticsEntry) :=
  if io_read env then Some (ListEntries (sv_store s) limit offset) else None.

Section handlers.
Variable ParseFloat : string → option float64.
Variable time_Parse : string → option Z.
Variable newest_first : list AnalyticsEntry → list AnalyticsEntry.

Definition parseAnalyticsSummaryQuery (q : Values) (now : Z) : result string analyticsSummaryQuerySpec :=
  let interval := normalizeInterval (query_get q "interval") in
  let bucketSize := duration_of supportedIntervals interval in
  if bucketSize <=? 0 then Err ("unsupported interval " +:+ interval)
  else
    let groupBy := TrimSpace (query_get q "group_by") in
    if negb (groupBy =? "")%string && negb (existsb (String.eqb groupBy) supportedGroupBy)
    then Err ("unsupported group_by " +:+ groupBy)
    else
      let window := duration_of intervalRangeWindow interval in
      let window := if window <=? 0 then Hour else window in
      let windowEnd := Truncate now bucketSize in
      let windowStart := default (windowEnd - window) (parseOptionalTime time_Parse (query_get q "start")) in
      let windowEnd := default windowEnd (parseOptionalTime time_Parse (query_get q "end")) in
      if windowEnd <=? windowStart then Err "end must be after start"
      else
        let span := windowEnd - windowStart in
        Ok (mkSummarySpec interval bucketSize windowStart windowEnd (windowStart - span) windowStart groupBy).

Definition queryEvents (env : io) (s : Server) (r : analytics_request) : answer :=
  let q := rq_Query r in
  let limit := parseIntWithBounds (query_get q "limit") (ar_DefaultEventsLimit (sv_policy s)) 1 (ar_MaxEventsLimit (sv_policy s)) in
  let offset := parseIntWithBounds (query_get q "offset") 0 0 (ar_MaxEventsOffset (sv_policy s)) in
  match readEntries env s limit offset with
  | None => storage_error
  | Some entries => Events (filterEntries ParseFloat time_Parse q entries)
  end.

Definition handleSummary (env : io) (s : Server) (r : analytics_request) : answer :=
  let q := rq_Query r in
  if negb (is_get r) then not_allowed
  else match parseAnalyticsSummaryQuery q (io_now env) with
  | Err msg => Failed 400 msg
  | Ok spec =>
      let groupBy := qs_GroupBy spec in
      if hasSummaryFilters q then
        let limit := parseIntWithBounds (query_get q "limit") (ar_DefaultSummaryLimit (sv_policy s)) 1 (ar_MaxSummaryLimit (sv_policy s)) in
        let offset := parseIntWithBounds (query_get q "offset") 0 0 (ar_MaxEventsOffset (sv_policy s)) in
        match readEntries env s limit offset with
        | None => storage_error
        | Some entries =>
            let entries := filterEntries ParseFloat time_Parse q entries in
            if (groupBy =? "")%string then Summary (buildFilteredSummary entries (qs_Interval spec) (qs_WindowEnd spec))
            else Grouped (summarizeByGroup entries groupBy)
        end
      else
        let ag := sv_aggregates s in
        match ag_ready ag, ag_summary ag !! qs_Interval spec with
        | true, Some snap =>
            if (groupBy =? "")%string then Summary snap
            else Grouped (default ∅ (default ∅ (ag_groups ag !! qs_Interval spec) !! groupBy))
        | _, _ => Processing (qs_Interval spec)
        end
  end.

Definition handleOverview (env : io) (s : Server) (r : analytics_request) : answer :=
  if negb (is_get r) then not_allowed
  else match parseOverviewQuery (rq_Query r) (io_now env) with
  | Err msg => Failed 400 msg
  | Ok spec =>
      if io_read env
      then OverviewOf (buildOverview newest_first spec
                         (LoadRecentEntries (sv_store s) (os_PrevStart spec) (os_End spec) overviewEntryLimit))
      else storage_error
  end.

Definition handleScaling (env : io) (s : Server) : answer * Server :=
  match sv_prom s with
  | None => (Scaling (mkScaling false "" ∅ f64_zero), s)
  | Some p => let '(resp, p) := scaling_snapshot (io_now env) (io_query env) p in (Scaling resp, set_prom s (Some p))
  end.

Definition handleClear (env : io) (s : Server) (r : analytics_request) : answer * Server :=
  if negb (rq_Method r =? "POST")%string then (not_allowed, s)
  else if negb (sv_allowTestingClear s) then (Failed 403 "clear endpoint disabled", s)
  else if negb (io_clear env) then (storage_error, if io_cleared env then set_store s [] else s)
  else (Cleared, set_aggregates (set_store s []) (clear_aggregates (sv_aggregates s))).

Definition ServeHTTP (env : io) (s : Server) (r : analytics_request) : answer * Server :=
  let path := rq_Path r in
  let at_ p := (path =? p)%string in
  let guarded (k : answer * Server) := if authorize s r then k else (unauthorized, s) in
  if at_ "/" || at_ "/index.html" || at_ "/assets/style.css" || at_ "/assets/app.js" then (Frontend path, s)
  else if at_ "/healthz" then (handleHealth r, s)
  else if at_ "/readyz" then handleReady env s r
  else if at_ "/analytics/features" then (handleFeatures s r, s)
  else if at_ "/analytics/ingestion-metrics" then guarded (handleIngestionMetrics s r, s)
  else if at_ "/analytics/events" then guarded (if is_get r then queryEvents env s r else not_allowed, s)
  else if at_ "/analytics/overview" then guarded (handleOverview env s r, s)
  else if at_ "/analytics/scaling" then guarded (handleScaling env s)
  else if at_ "/analytics/summary" then guarded (handleSummary env s r, s)
  else if at_ "/analytics/clear" then guarded (handleClear env s r)
  else (NotFound, s).
End handlers.

(** A tick of the background aggregator. *)
Definition refresh (now : Z) (read : bool) (s : Server) : Server :=
  let loaded :=
    if read then Some (LoadRecentEntries (sv_store s) (now - defaultHistoryWindow) now defaultBootstrapLoadLimit) else None in
  set_aggregates s (refreshSummaryCache now loaded (sv_aggregates s)).
