(* ===== verification/AnalyticsServed.v ===== *)
(** * What the analytics server serves

    Summaries from the background aggregates are those of the events the last
    refresh read, by group as well as in total; nothing is disclosed or changed
    without the token. *)

From S2P Require Import Prelude Float64 GoLib Policies Analytics AnalyticsProps Overview AnalyticsApi.

Local Open Scope Z_scope.

(** ** Groups *)

Definition group_name (g : string) (e : AnalyticsEntry) : string :=
  if (groupKey e g =? "")%string then "unknown" else groupKey e g.
Definition of_group (g k : string) (es : list AnalyticsEntry) : list AnalyticsEntry :=
  List.filter (λ e, (group_name g e =? k)%string) es.

Lemma addGroups_lookup e names groups g :
  NoDup names →
  foldl (addGroup e) groups names !! g =
  if decide (g ∈ names)
  then let m := default ∅ (groups !! g) in Some (<[group_name g e := stats_add (default stats_zero (m !! group_name g e)) e]> m)
  else groups !! g.
Proof.
  revert groups. induction names as [|x names IH]; intros groups Hnd; [done|].
  apply NoDup_cons in Hnd as [Hx Hnd]. cbn [foldl]. rewrite IH by done. unfold addGroup. fold (group_name x e).
  destruct (decide (g = x)) as [->|Hne].
  - rewrite (decide_False (P := x ∈ names)), (decide_True (P := x ∈ x :: names)) by set_solver. by rewrite lookup_insert_eq.
  - rewrite lookup_insert_ne by done. destruct (decide (g ∈ names)), (decide (g ∈ x :: names)); done || set_solver.
Qed.

Definition group_total (es : list AnalyticsEntry) : option statsAccumulator :=
  match es with [] => None | _ => Some (foldl stats_add stats_zero es) end.

Lemma group_total_snoc es e : group_total (es ++ [e]) = Some (stats_add (default stats_zero (group_total es)) e).
Proof. destruct es as [|x es]; [done|]. cbn. by rewrite foldl_app. Qed.

(** The groups of a bucket. *)
Lemma bucket_groups es g : g ∈ supportedGroupBy →
  ∃ m, ba_groups (foldl bucket_add newBucketAggregation es) !! g = Some m ∧ ∀ k, m !! k = group_total (of_group g k es).
Proof.
  intros Hg. induction es as [|e es (m & Hm & IH)] using rev_ind.
  - exists ∅. split; [|done]. unfold supportedGroupBy in Hg.
    repeat (apply elem_of_cons in Hg as [->|Hg]; [done|]). by apply elem_of_nil in Hg.
  - rewrite foldl_snoc. cbn [bucket_add ba_groups]. rewrite addGroups_lookup by (by apply (bool_decide_unpack _); vm_compute).
    rewrite decide_True by done. rewrite Hm. eexists. split; [done|]. intros k. cbn [default]. unfold id, of_group.
    rewrite List.filter_app. cbn. destruct (String.eqb_spec (group_name g e) k) as [<-|Hne].
    + rewrite lookup_insert_eq, group_total_snoc, IH. done.
    + by rewrite lookup_insert_ne, app_nil_r.
Qed.

(** The accumulators of a group stand for its events, and there is one
    exactly for the names that occur. *)
Definition group_stands (g : string) (es : list AnalyticsEntry) (m : gmap string statsAccumulator) : Prop :=
  ∀ k, match m !! k with None => of_group g k es = [] | Some a => of_group g k es ≠ [] ∧ stands a (of_group g k es) end.

Lemma of_group_app g k l l' : of_group g k (l ++ l') = of_group g k l ++ of_group g k l'.
Proof. apply List.filter_app. Qed.

Lemma of_group_length g k l : (length (of_group g k l) ≤ length l)%nat.
Proof. apply how_many_le. Qed.

Lemma merge_group_stands g m l mb es :
  group_stands g l m → (∀ k, mb !! k = group_total (of_group g k es)) → Z.of_nat (length es) < 2 ^ 63 →
  group_stands g (l ++ es) (merge_group m mb).
Proof.
  intros Hm Hmb Hl k. unfold merge_group. rewrite lookup_merge, of_group_app, Hmb. specialize (Hm k).
  destruct (of_group g k es) as [|e es'] eqn:Ee.
  - cbn. rewrite app_nil_r. by destruct (m !! k).
  - pose proof (of_group_length g k es). unfold group_total. rewrite <- Ee in *.
    assert (Hs : ∀ a, stands a (of_group g k l) →
      stands (stats_merge a (foldl stats_add stats_zero (of_group g k es))) (of_group g k l ++ of_group g k es)).
    { intros a Ha. apply stands_merge; [done|apply stands_all|lia]. }
    rewrite Ee in *. destruct (m !! k) as [a|]; cbn.
    + destruct Hm as [Hne Ha]. split; [by destruct (of_group g k l)|]. by apply Hs.
    + rewrite Hm in *. split; [done|]. apply (Hs stats_zero), stands_zero.
Qed.

Lemma merge_groups_lookup acc groups g :
  merge_groups acc groups !! g
  = match groups !! g with None => acc !! g | Some gb => Some (merge_group (default ∅ (acc !! g)) gb) end.
Proof. unfold merge_groups. rewrite lookup_merge. by destruct (acc !! g), (groups !! g). Qed.

Lemma groups_stand {A} (get : A → list AnalyticsEntry) (bucket : A → option bucketAggregation) starts g :
  g ∈ supportedGroupBy → (∀ t, bucket t = bucket_of (get t)) → (∀ t, Z.of_nat (length (get t)) < 2 ^ 63) →
  ∃ m, foldl (λ acc t, match bucket t with None => acc | Some b => merge_groups acc (ba_groups b) end) no_groups starts !! g = Some m
       ∧ group_stands g (concat (get <$> starts)) m.
Proof.
  intros Hg Hb Hl. induction starts as [|t starts (m & Hm & IH)] using rev_ind.
  - destruct (bucket_groups [] g Hg) as (m & Hm & Hk). exists m. split; [exact Hm|]. intros k. by rewrite Hk.
  - rewrite foldl_snoc, fmap_app, concat_app. cbn [fmap list_fmap concat]. rewrite app_nil_r, Hb.
    destruct (get t) as [|e es] eqn:Et; [exists m; by rewrite app_nil_r|].
    destruct (bucket_groups (e :: es) g Hg) as (mb & Hmb & Hk).
    exists (merge_group m mb). split; [|apply merge_group_stands; [done|done|by rewrite <- Et]].
    cbn [bucket_of]. by rewrite merge_groups_lookup, Hm, Hmb.
Qed.

Lemma of_group_perm g k l l' : l ≡ₚ l' → of_group g k l ≡ₚ of_group g k l'.
Proof.
  unfold of_group. induction 1 as [|x l l' _ IH|x y l|l1 l2 l3 _ IH1 _ IH2]; cbn; [done| | |by rewrite IH1].
  - destruct (_ =? _)%string; by rewrite IH.
  - destruct (group_name g x =? k)%string, (group_name g y =? k)%string; done || apply Permutation_swap.
Qed.

(** The groups of a snapshot, for the events of its window. *)
Lemma snapshot_groups id bs now l g :
  (id, bs) ∈ supportedIntervals → Z.of_nat (length l) < 2 ^ 63 →
  Forall (λ e, ev_Timestamp e < Truncate now bs + bs) l → g ∈ supportedGroupBy →
  let window := duration_of intervalRangeWindow id in
  let start := Truncate now bs + bs - window in
  let es := between start (start + window) l in
  ∃ m, (buildSnapshot id (foldl ingest_dated (mkInterval bs ∅) l) now).2 !! g = Some m
       ∧ ∀ k, match m !! k with
              | None => of_group g k es = []
              | Some sm => of_group g k es ≠ [] ∧ without_p95 sm = without_p95 (computeSummary (of_group g k es))
              end.
Proof.
  intros Hid Hl Hpast Hg. destruct (window_buckets id bs now l Hid Hl Hpast) as (n & st & Hw & Hb & Hst & Hstarts & Hbucket & Hlen).
  cbv zeta. unfold buildSnapshot. cbn [snd]. rewrite ingest_size, Hstarts, lookup_fmap, foldl_fmap, Hw.
  destruct (groups_stand (λ i, between (st i) (st i + bs) l) _ (seq 0 n) g Hg Hbucket Hlen) as (m & -> & Hm).
  eexists. split; [done|]. intros k. rewrite lookup_fmap. specialize (Hm k).
  pose proof (of_group_perm g k _ _ (window_concat bs _ n st l Hb Hst)) as Hp.
  destruct (m !! k) as [a|]; cbn.
  - destruct Hm as [Hne Ha]. split; [intros E; rewrite E in Hp; by apply Permutation_nil_r in Hp|].
    by destruct (stands_summary _ _ _ (stands_perm _ _ _ Hp Ha) (stands_all _)).
  - rewrite Hm in Hp. by apply Permutation_nil_l in Hp.
Qed.

(** ** The background aggregates *)

Lemma LoadRecent_range l start end_ limit e :
  zero_time < start → zero_time < end_ → e ∈ LoadRecentEntries l start end_ limit → start ≤ ev_Timestamp e ≤ end_.
Proof.
  intros Hs He Hin. apply list_elem_of_In, List.filter_In in Hin as [_ H]. revert H.
  destruct (Z.eqb_spec start zero_time), (Z.eqb_spec end_ zero_time), (Z.ltb_spec (ev_Timestamp e) start),
    (Z.ltb_spec end_ (ev_Timestamp e)); cbn; done || lia.
Qed.

Lemma LoadRecent_length l start end_ limit : 0 < limit → Z.of_nat (length (LoadRecentEntries l start end_ limit)) ≤ limit.
Proof.
  intros Hl. unfold LoadRecentEntries. destruct (Z.leb_spec limit 0); [lia|].
  set (es := ListEntries l limit 0). assert (Z.of_nat (length es) ≤ limit).
  { unfold es. rewrite page_exact by lia. rewrite length_reverse, length_take. lia. }
  pose proof (how_many_le (λ e, negb (negb (start =? zero_time) && (ev_Timestamp e <? start))
                                && negb (negb (end_ =? zero_time) && (end_ <? ev_Timestamp e))) es). lia.
Qed.

Lemma ingestEntries_lookup now data l id :
  Forall (λ e, ev_Timestamp e ≠ zero_time) l →
  foldl (ingestEntry now) data l !! id = (λ ia, foldl ingest_dated ia l) <$> data !! id.
Proof.
  intros Hd. revert data. induction l as [|e l IH]; intros data; cbn; [by destruct (data !! id)|].
  apply Forall_cons in Hd as [He Hd]. rewrite IH by done. unfold ingestEntry. rewrite lookup_fmap.
  unfold ingest_dated at 3. destruct (Z.eqb_spec (ev_Timestamp e) zero_time); [done|]. by destruct (data !! id).
Qed.

Lemma normalize_supported raw : ∃ bs, (normalizeInterval raw, bs) ∈ supportedIntervals.
Proof.
  unfold normalizeInterval. set (c := TrimSpace _). destruct (existsb _ _) eqn:E; [|exists Minute; left].
  apply List.existsb_exists in E as ([id bs] & Hin & Heq%String.eqb_eq). cbn in Heq. subst. exists bs. by apply list_elem_of_In.
Qed.

Lemma fresh_lookup id bs : (id, bs) ∈ supportedIntervals → fresh_data !! id = Some (mkInterval bs ∅).
Proof.
  unfold supportedIntervals. intros H. repeat (apply elem_of_cons in H as [[= -> ->]|H]; [done|]). by apply elem_of_nil in H.
Qed.

(** Without filters the query is valid unless it names no group. *)
Lemma parse_unfiltered time_Parse q now :
  hasSummaryFilters q = false →
  let g := TrimSpace (query_get q "group_by") in
  match parseAnalyticsSummaryQuery time_Parse q now with
  | Ok spec => qs_Interval spec = normalizeInterval (query_get q "interval") ∧ qs_GroupBy spec = g ∧ (g = "" ∨ g ∈ supportedGroupBy)
  | Err _ => g ≠ "" ∧ g ∉ supportedGroupBy
  end.
Proof.
  intros Hf. cbv zeta. unfold parseAnalyticsSummaryQuery. destruct (normalize_supported (query_get q "interval")) as [bs Hid].
  destruct (supported_facts _ _ Hid) as (Hb & _ & Hd & n & Hw & _). rewrite Hd. destruct (Z.leb_spec bs 0); [lia|].
  assert (Hblank : ∀ k, k ∈ filter_keys → parseOptionalTime time_Parse (query_get q k) = None).
  { intros k Hk. unfold parseOptionalTime. destruct (TrimSpace (query_get q k) =? "")%string eqn:E; [done|].
    assert (hasSummaryFilters q = true) by (apply List.existsb_exists; exists k; rewrite E; by rewrite <- list_elem_of_In). congruence. }
  rewrite !Hblank by (unfold filter_keys; set_solver). cbn [default]. unfold id.
  set (g := TrimSpace (query_get q "group_by")).
  assert (He : existsb (String.eqb g) supportedGroupBy = bool_decide (g ∈ supportedGroupBy)).
  { apply eq_bool_prop_intro. rewrite bool_decide_spec, Is_true_true, List.existsb_exists. split.
    - intros (x & Hx & ->%String.eqb_eq). by apply list_elem_of_In.
    - intros Hg. exists g. by rewrite String.eqb_refl, <- list_elem_of_In. }
  set (w := if _ <=? 0 then Hour else _).
  assert (Hpos : 0 < w) by (unfold w, Hour; destruct (Z.leb_spec (duration_of intervalRangeWindow (normalizeInterval (query_get q "interval"))) 0); lia).
  rewrite He. destruct (Z.leb_spec (Truncate now bs) (Truncate now bs - w)); [lia|].
  destruct (String.eqb_spec g ""), (bool_decide_reflect (g ∈ supportedGroupBy)); cbn; tauto.
Qed.

(** C39: What [GET /analytics/summary] answers from the background aggregates,
    for a query without filters and whatever the store holds: the summary that
    a direct computation over the events read by the last refresh gives; with
    [group_by], one summary per name that occurs among the events of the
    window and for no other, each with the totals of adding up that name's events; an error exactly
    when the grouping is not supported. *)
Theorem summary_served ParseFloat time_Parse env s r now :
  zero_time < now - defaultHistoryWindow → is_get r = true → hasSummaryFilters (rq_Query r) = false →
  let id := normalizeInterval (query_get (rq_Query r) "interval") in
  let g := TrimSpace (query_get (rq_Query r) "group_by") in
  let l := LoadRecentEntries (sv_store s) (now - defaultHistoryWindow) now defaultBootstrapLoadLimit in
  let bs := duration_of supportedIntervals id in
  let window := duration_of intervalRangeWindow id in
  let start := Truncate now bs + bs - window in
  let es := between start (start + window) l in
  match handleSummary ParseFloat time_Parse env (refresh now true s) r with
  | Summary snap => g = "" ∧ snap = buildFilteredSummary l id now
  | Grouped m =>
      g ∈ supportedGroupBy
      ∧ ∀ k, match m !! k with
             | None => of_group g k es = []
             | Some sm => of_group g k es ≠ [] ∧ without_p95 sm = without_p95 (computeSummary (of_group g k es))
             end
  | Failed status _ => status = 400 ∧ g ≠ "" ∧ g ∉ supportedGroupBy
  | _ => False
  end.
Proof.
  intros Hnow Hget Hf. cbv zeta. unfold handleSummary. rewrite Hget, Hf. cbn [negb].
  pose proof (parse_unfiltered time_Parse (rq_Query r) (io_now env) Hf) as Hp. cbv zeta in Hp.
  destruct (parseAnalyticsSummaryQuery _ _ _) as [spec|msg]; [|done]. destruct Hp as (-> & -> & Hg).
  set (g := TrimSpace _) in *. set (id := normalizeInterval _).
  destruct (normalize_supported (query_get (rq_Query r) "interval")) as [bs Hid]. fold id in Hid.
  destruct (supported_facts id bs Hid) as (Hb & _ & Hd & _). rewrite Hd.
  set (l := LoadRecentEntries _ _ _ _). unfold refresh. fold l. cbn [sv_aggregates set_aggregates refreshSummaryCache ag_ready ag_summary ag_groups].
  assert (Hdated : Forall (λ e, ev_Timestamp e ≠ zero_time) l ∧ Forall (λ e, ev_Timestamp e < Truncate now bs + bs) l).
  { rewrite !Forall_forall. pose proof (Truncate_spec now bs Hb).
    split; intros e He; destruct (LoadRecent_range (sv_store s) (now - defaultHistoryWindow) now defaultBootstrapLoadLimit e Hnow ltac:(assert (0 < defaultHistoryWindow) by done; lia) He); lia. }
  destruct Hdated as [Hdated Hpast]. pose proof (LoadRecent_length (sv_store s) (now - defaultHistoryWindow) now defaultBootstrapLoadLimit eq_refl) as Hlen.
  fold l in Hlen. unfold defaultBootstrapLoadLimit in Hlen.
  rewrite !map_lookup_imap, ingestEntries_lookup, (fresh_lookup id bs) by done. cbn [fmap option_fmap option_map mbind option_bind].
  destruct (String.eqb_spec g "") as [Hg0|Hg0].
  - split; [done|]. unfold buildFilteredSummary. by rewrite Hd.
  - destruct Hg as [|Hg]; [done|]. split; [done|]. cbn [default]. unfold Datatypes.id.
    destruct (snapshot_groups id bs now l g Hid ltac:(lia) Hpast Hg) as (m & -> & Hm). exact Hm.
Qed.

(** ** Access *)

(** Answers that hold numbers or events of requests. *)
Definition discloses (a : answer) : bool :=
  match a with Metrics _ | Events _ | Summary _ | Grouped _ | Processing _ | OverviewOf _ | Scaling _ => true | _ => false end.

Lemma authorize_exact s r :
  authorize s r = true ↔ sv_authToken s = "" ∨ rq_Authorization r = "Bearer " +:+ sv_authToken s.
Proof.
  unfold authorize. rewrite orb_true_iff, andb_true_iff, !String.eqb_eq. unfold HasPrefix, TrimPrefix.
  rewrite bool_decide_eq_true. destruct (CutPrefix (rq_Authorization r) "Bearer ") as [rest|] eqn:E; cbn.
  - apply CutPrefix_Some in E. rewrite E. split; [intros [|[_ ->]]; tauto|].
    intros [|Eq]; [by left|]. right. split; [done|]. by simplify_eq/=.
  - split; [by intros [|[[? ?] _]]; [left|]|]. intros [|E']; [by left|]. by rewrite E', CutPrefix_app in E.
Qed.

(** What a request leaves alone. *)
Definition keeps (s s' : Server) : Prop := sv_store s' = sv_store s ∧ sv_aggregates s' = sv_aggregates s.

Lemma ready_keeps env s r : keeps s (handleReady env s r).2 ∧ discloses (handleReady env s r).1 = false.
Proof. unfold handleReady. by repeat case_match. Qed.

Lemma scaling_keeps env s : keeps s (handleScaling env s).2.
Proof. unfold handleScaling. destruct (sv_prom s) as [p|]; [|done]. by destruct (scaling_snapshot _ _ p). Qed.

Lemma clear_keeps env s r :
  keeps s (handleClear env s r).2 ∨ (rq_Method r = "POST" ∧ sv_allowTestingClear s = true).
Proof.
  unfold handleClear. destruct (String.eqb_spec (rq_Method r) "POST"), (sv_allowTestingClear s); cbn; try (by left). by right.
Qed.

(** Who may read and change the analytics data.  Without the token no
    answer holds events or numbers and nothing stored or aggregated changes;
    and with or without it only a POST to the clear endpoint, where that is
    enabled, changes them. *)
Theorem analytics_guarded ParseFloat time_Parse newest_first env s r :
  let out := ServeHTTP ParseFloat time_Parse newest_first env s r in
  (sv_authToken s ≠ "" ∧ rq_Authorization r ≠ "Bearer " +:+ sv_authToken s → discloses out.1 = false ∧ keeps s out.2)
  ∧ (keeps s out.2 ∨ (rq_Path r = "/analytics/clear" ∧ rq_Method r = "POST" ∧ sv_allowTestingClear s = true)).
Proof.
  pose proof (ready_keeps env s r) as [Hr Hd]. pose proof (scaling_keeps env s) as Hs. pose proof (clear_keeps env s r) as Hc.
  cbv zeta. unfold ServeHTTP, handleHealth, handleFeatures, not_allowed, unauthorized. split.
  - intros [Ht Hne]. destruct (authorize s r) eqn:Ea; [apply authorize_exact in Ea as [?|?]; congruence|].
    repeat (case_match; cbn; try done).
  - destruct (authorize s r); repeat (case_match; try (by left)).
    destruct (String.eqb_spec (rq_Path r) "/analytics/clear"); [|done]. tauto.
Qed.

Module Example_served.
Import Example_summary.
Definition server : Server := NewServerWithStore events "secret" (rp_Analytics DefaultRuntimePolicy) false.
Definition grouped_request : analytics_request :=
  mkAnalyticsRequest "GET" "/analytics/summary" {[ "interval" := ["1m"]; "group_by" := ["tier"] ]} "Bearer secret".
Definition env : io := mkIO (noon + Second) true true true false (λ _, None).

Definition served : answer := handleSummary (λ _, None) (λ _, None) env (refresh noon true server) grouped_request.

Lemma served_free : match served with Grouped m => bool_decide (is_Some (m !! "free")) | _ => false end = true.
Proof. vm_compute. reflexivity. Qed.

Lemma summary_served_witness :
  match served with
  | Grouped m => match m !! "free" with
                 | Some sm => without_p95 sm = without_p95 (computeSummary (tail events))
                 | None => False
                 end
  | _ => False
  end.
Proof.
  pose proof (summary_served (λ _, None) (λ _, None) env server grouped_request noon eq_refl eq_refl eq_refl) as H.
  pose proof served_free as Hf. unfold served in *. cbv zeta in H.
  destruct (handleSummary _ _ _ _ _) as [| | | | | | | |m| | | |]; try done.
  destruct H as [_ H]. specialize (H "free"). destruct (m !! "free") as [sm|]; [|done].
  destruct H as [_ ->]. vm_compute. reflexivity.
Defined.
End Example_served.
