(* ===== verification/Readiness.v ===== *)
(** * Readiness and reconnection ([packages/common/ready/watcher.go], [packages/edge/server.go], [hubclient.go], [internal/app])

    When a process reports itself ready and how it waits for what it depends
    on: the watcher that hub and analytics share, the edge's hold during
    start-up and the probe of its response cache, the decision service's first
    configuration, and the hub client's stream of events with its backoff.
    What the outside answers to one round of probes, and the events of one
    connection, are inputs; so is the order in which they happen. *)

From S2P Require Import Prelude Float64 GoLib Policies.
From S2P Require Import Analytics Overview AnalyticsApi.
From Stdlib Require Import Ascii.

Local Open Scope Z_scope.

(** ** The watcher ([watcher.go]) *)

Definition defaultInitialBackoff : Z := 500 * Millisecond.
Definition defaultMaxBackoff : Z := 5 * Second.

Record ReadyWatcher := mkWatcher { rw_initial : Z; rw_max : Z }.

Definition NewReadyWatcher (initialBackoff maxBackoff : Z) : ReadyWatcher :=
  let initialBackoff := if initialBackoff <=? 0 then defaultInitialBackoff else initialBackoff in
  let maxBackoff := if maxBackoff <=? 0 then defaultMaxBackoff else maxBackoff in
  let maxBackoff := if maxBackoff <? initialBackoff then initialBackoff else maxBackoff in
  mkWatcher initialBackoff maxBackoff.

Section watcher.
(** The state the probes work on, and what the outside answers in a round. *)
Context {S E : Type}.

(** A check's probe, when it has one. *)
Definition probe : Type := option (E → S → bool * S).

(** The checks of one round, up to the first that fails. *)
Fixpoint run_checks (checks : list probe) (e : E) (s : S) : bool * S :=
  match checks with
  | [] => (true, s)
  | None :: _ => (false, s)
  | Some p :: checks => let '(ok, s) := p e s in if ok then run_checks checks e s else (false, s)
  end.

Variable w : ReadyWatcher.
Variable checks : list probe.
Variable onReady : bool → S → S.

(** One turn of the loop: the time to the next one, and the state. *)
Definition watch_round (x : Z * S) (e : E) : Z * S :=
  let '(backoff, s) := x in
  let '(allReady, s) := run_checks checks e s in
  let s := onReady allReady s in
  if allReady then (rw_initial w, s)
  else
    let backoff := (backoff * 2)%i64 in
    (if rw_max w <? backoff then rw_max w else backoff, s).

(** The rounds until the context ends. *)
Definition WatchAll (s : S) (rounds : list E) : Z * S :=
  if bool_decide (checks = []) then (rw_initial w, onReady true s) else foldl watch_round (rw_initial w, s) rounds.
End watcher.

(** ** The hub ([hubapp.go]) *)

(** What Redis answers to a round: the pings of the shards and the settings
    the masters report, one of each without a cluster. *)
Record redis_round := mkRedisRound { rr_pings : list bool; rr_settings : list (option (gmap string string)) }.
Record hub_status := mkHubStatus { hs_healthy : bool; hs_waiting : string }.

Definition checkNoEviction (settings : option (gmap string string)) : bool :=
  match settings with
  | None => false
  | Some res => (TrimSpace (default "" (res !! "maxmemory-policy")) =? "noeviction")%string
  end.

Definition hub_probe (enforce : bool) : probe := Some (λ r (s : hub_status),
  if negb (forallb id (rr_pings r)) then (false, s)
  else if enforce then (forallb checkNoEviction (rr_settings r), s)
  else (true, s)).

(** [SetPendingDependency] of the hub's server. *)
Definition pending_text (dependency : string) : string :=
  let v := TrimSpace dependency in if (v =? "")%string then "unknown" else v.

Definition hub_onReady (isReady : bool) (_ : hub_status) : hub_status :=
  mkHubStatus isReady (if isReady then pending_text "" else pending_text "redis").

Definition hub_watchReadiness (enforce : bool) : hub_status → list redis_round → Z * hub_status :=
  WatchAll (NewReadyWatcher (500 * Millisecond) (5 * Second)) [hub_probe enforce] hub_onReady.

(** ** Analytics ([analyticsapp.go]) *)

(** What hub, store and NATS answer to a round: the status of the hub's
    /readyz, whether the store answers, whether a subscription can be made. *)
Record analytics_round := mkAnalyticsRound { nr_hub : option Z; nr_store : bool; nr_nats : bool }.

(** The server, whether the watcher has subscribed, and how many times it
    started to ingest. *)
Record analytics_status := mkAnalyticsStatus { as_server : Server; as_subscribed : bool; as_started : nat }.

Definition with_server (s : analytics_status) (f : Server → Server) : analytics_status :=
  mkAnalyticsStatus (f (as_server s)) (as_subscribed s) (as_started s).

Definition SetHubReady (s : Server) (ready : bool) : Server :=
  mkServer (sv_store s) (sv_aggregates s) (sv_ingestion s) (sv_prom s) (sv_authToken s) (sv_policy s) (sv_allowTestingClear s)
    ready (sv_pendingDependency s) (sv_ingestStarted s) (sv_subscriberUp s).

(** [StartNATSSubscriber]: the ingestion worker runs from the first call on. *)
Definition StartNATSSubscriber (ok : bool) (s : Server) : Server :=
  mkServer (sv_store s) (sv_aggregates s) (sv_ingestion s) (sv_prom s) (sv_authToken s) (sv_policy s) (sv_allowTestingClear s)
    (sv_hubReady s) (sv_pendingDependency s) true ok.

(** The probes; [url_ok]: whether the hub's address makes a request. *)
Definition hub_readyz_probe (url_ok : bool) : probe := Some (λ r s,
  if negb url_ok then (false, s)
  else if bool_decide (nr_hub r = Some 200) then (true, s)
  else (false, with_server s (λ v, SetPendingDependency v "hub_readyz"))).
Definition store_probe : probe := Some (λ r s,
  if nr_store r then (true, s) else (false, with_server s (λ v, SetPendingDependency v "store"))).
Definition nats_probe : probe := Some (λ r s,
  if as_subscribed s then (true, s)
  else
    let s := with_server s (StartNATSSubscriber (nr_nats r)) in
    if nr_nats r then (true, mkAnalyticsStatus (as_server s) true (S (as_started s)))
    else (false, with_server s (λ v, SetPendingDependency v "nats"))).

Definition analytics_onReady (isReady : bool) (s : analytics_status) : analytics_status :=
  with_server s (λ v, let v := SetHubReady v isReady in if isReady then SetPendingDependency v "" else v).

Definition analytics_watchReadiness (url_ok : bool) : analytics_status → list analytics_round → Z * analytics_status :=
  WatchAll (NewReadyWatcher (500 * Millisecond) (5 * Second)) [hub_readyz_probe url_ok; store_probe; nats_probe] analytics_onReady.

(** What [Start] hands to the watcher. *)
Definition analytics_initial (v : Server) : analytics_status :=
  mkAnalyticsStatus (SetPendingDependency (SetHubReady v false) "hub_readyz") false 0.

(** ** The edge ([server.go], [follow.go], [edgeapp.go]) *)

Record Options := mkOptions {
  op_EdgeID : string; op_UpstreamTimeout : Z; op_UpstreamMaxIdleConns : Z; op_UpstreamIdleConnTimeout : Z;
  op_MaxCacheableBytes : Z; op_MaxRequestBodyBytes : Z; op_AdminToken : string;
}.

Definition edge_orDefault (v def : string) : string := if (v =? "")%string then def else v.

(** The options [NewServer] works with. *)
Definition NewServer_options (o : Options) : Options :=
  let def := rp_Edge DefaultRuntimePolicy in {|
  op_EdgeID := edge_orDefault (op_EdgeID o) "unknown-edge";
  op_UpstreamTimeout := if op_UpstreamTimeout o <=? 0 then er_UpstreamClientTimeout def else op_UpstreamTimeout o;
  op_UpstreamMaxIdleConns := if op_UpstreamMaxIdleConns o <=? 0 then er_UpstreamMaxIdleConns def else op_UpstreamMaxIdleConns o;
  op_UpstreamIdleConnTimeout := if op_UpstreamIdleConnTimeout o <=? 0 then er_UpstreamIdleConnTimeout def else op_UpstreamIdleConnTimeout o;
  op_MaxCacheableBytes := if op_MaxCacheableBytes o <=? 0 then er_CacheMaxObjectBytes def else op_MaxCacheableBytes o;
  op_MaxRequestBodyBytes := if op_MaxRequestBodyBytes o <=? 0 then Z.shiftl 10 20 else op_MaxRequestBodyBytes o;
  op_AdminToken := op_AdminToken o |}.

Record edge_status := mkEdgeStatus { es_startupReady : bool; es_localHealthy : bool; es_pending : string; es_failures : Z }.

Definition edge_SetPendingDependency (s : edge_status) (dep : string) : edge_status :=
  mkEdgeStatus (es_startupReady s) (es_localHealthy s) (edge_orDefault dep "unknown") (es_failures s).
Definition edge_SetStartupReady (s : edge_status) (ready : bool) : edge_status :=
  mkEdgeStatus ready (es_localHealthy s) (es_pending s) (es_failures s).

(** [NewServer], and [Start] with or without a bootstrap configuration. *)
Definition edge_new : edge_status := edge_SetPendingDependency (mkEdgeStatus true true "" 0) "".
Definition edge_started (bootstrap : bool) : edge_status :=
  if bootstrap then edge_new else edge_SetPendingDependency (edge_SetStartupReady edge_new false) "hub_config".

Definition readyProbeFailures : Z := 3.

(** A turn of [StartReadinessProbe]. *)
Definition edge_probe (s : edge_status) (ok : bool) : edge_status :=
  if ok then mkEdgeStatus (es_startupReady s) true (es_pending s) 0
  else
    let s := mkEdgeStatus (es_startupReady s) (es_localHealthy s) (es_pending s) (es_failures s + 1) in
    if readyProbeFailures <=? es_failures s
    then let s := edge_SetPendingDependency s "response_cache" in mkEdgeStatus (es_startupReady s) false (es_pending s) (es_failures s)
    else s.

(** What [Apply] does to readiness; [decodes]: the snapshot's JSON. *)
Definition edge_config (s : edge_status) (decodes : bool) : edge_status :=
  if decodes && negb (es_startupReady s) then edge_SetStartupReady (edge_SetPendingDependency s "") true else s.

Inductive edge_event := ProbeResult (ok : bool) | Snapshot (decodes : bool) | TierEvent.
Definition edge_step (s : edge_status) (ev : edge_event) : edge_status :=
  match ev with ProbeResult ok => edge_probe s ok | Snapshot d => edge_config s d | TierEvent => s end.
Definition edge_run (bootstrap : bool) (evs : list edge_event) : edge_status := foldl edge_step (edge_started bootstrap) evs.

(** [readyz]: the status and the dependency that is missing. *)
Definition edge_readyz (s : edge_status) : Z * option string :=
  if negb (es_startupReady s) || negb (es_localHealthy s) then (503, Some (es_pending s)) else (200, None).

(** [analyticsMetrics]; [stats] of a sink that has them, with its token from
    the Authorization header. *)
Inductive metrics_answer (A : Type) := MetricsNotFound | MetricsDisabled | MetricsStats (stats : A).
Arguments MetricsNotFound {A}. Arguments MetricsDisabled {A}. Arguments MetricsStats {A} stats.
Definition analyticsMetrics {A} (o : Options) (authorization : string) (stats : option A) : metrics_answer A :=
  match CutPrefix authorization "Bearer " with
  | Some token =>
      if (op_AdminToken o =? "")%string || negb (token =? op_AdminToken o)%string then MetricsNotFound
      else match stats with Some st => MetricsStats st | None => MetricsDisabled end
  | None => MetricsNotFound
  end.

(** The routes of an edge's server, for a path in the mux's clean form. *)
Inductive edge_endpoint := EdgeHealth | EdgeReady | EdgeMetrics | EdgeGateway.
Definition edge_mux (path : string) : edge_endpoint :=
  if (path =? "/healthz")%string then EdgeHealth else if (path =? "/readyz")%string then EdgeReady
  else if (path =? "/analytics/metrics")%string then EdgeMetrics else EdgeGateway.

(** ** The stream of events ([hubclient.go]) *)

Section watch.
Context {Ev S : Type}.
Variable handle : S → Ev → S.

Definition watchBackoff : Z := 250 * Millisecond.
Definition watchMaxBackoff : Z := 5 * Second.

(** One connection: the events received until it fails (none when it cannot
    be made).  The result is the wait before the next one, the backoff after
    it, and the state. *)
Definition watch_connection (x : Z * S) (events : list Ev) : Z * (Z * S) :=
  let '(backoff, s) := foldl (λ x ev, (watchBackoff, handle (snd x) ev)) x events in
  (backoff, (Z.min (backoff * 2)%i64 watchMaxBackoff, s)).

(** [Watch]: the waits between the connections, and the state at the end. *)
Fixpoint hub_Watch (x : Z * S) (connections : list (list Ev)) : list Z * S :=
  match connections with
  | [] => ([], snd x)
  | events :: connections =>
      let '(wait, x) := watch_connection x events in
      let '(waits, s) := hub_Watch x connections in (wait :: waits, s)
  end.
End watch.

(** ** The decision service ([limiterapp.go]) *)

Section service.
Context {Cfg : Type}.
(** The configuration served and whether one has arrived. *)
Record service_status := mkServiceStatus { ss_cfg : Cfg; ss_ready : bool }.

(** [apply]: an event without a snapshot, or whose snapshot does not decode,
    changes nothing. *)
Definition service_apply (s : service_status) (snap : option (option Cfg)) : service_status :=
  match snap with Some (Some cfg) => mkServiceStatus cfg true | _ => s end.

Definition service_readyz (s : service_status) : Z * option string :=
  if ss_ready s then (200, None) else (503, Some "hub_config").
End service.

(** ** Request IDs ([httpx.go]) *)

Definition printable (c : ascii) : bool := let n := Z.of_nat (nat_of_ascii c) in (32 <? n) && (n <=? 126).
Fixpoint all_chars (f : ascii → bool) (s : string) : bool :=
  match s with EmptyString => true | String c s => f c && all_chars f s end.

(** A byte that is not ASCII belongs to a rune beyond '~', or is an error. *)
Definition validRequestID (id : string) : bool :=
  negb (id =? "")%string && (String.length id <=? 128)%nat && all_chars printable id.

Definition hex_char (n : Z) : ascii := ascii_of_nat (Z.to_nat (if n <? 10 then 48 + n else 87 + n)).
Fixpoint hex_encode (bytes : list Z) : string :=
  match bytes with [] => "" | b :: bytes => String (hex_char (b / 16)) (String (hex_char (b mod 16)) (hex_encode bytes)) end.

(** [WithRequestID]: the ID that request, response and context carry; [random]
    are the 12 random bytes. *)
Definition newRequestID (random : list Z) : string := hex_encode random.
Definition WithRequestID (random : list Z) (header : string) : string :=
  if validRequestID header then header else newRequestID random.

(** ** Properties of the watcher *)

Definition watcher_ok (w : ReadyWatcher) : Prop := 0 < rw_initial w ∧ rw_initial w ≤ rw_max w.

Lemma NewReadyWatcher_ok i m : watcher_ok (NewReadyWatcher i m).
Proof.
  unfold watcher_ok, NewReadyWatcher. cbn.
  assert (0 < defaultInitialBackoff) by done.
  destruct (Z.leb_spec i 0), (Z.leb_spec m 0); case_match; lia.
Qed.

(** How many rounds in a row have failed at the end. *)
Definition trailing (l : list bool) : nat := foldl (λ n (b : bool), if b then O else S n) O l.

Lemma trailing_app l b : trailing (l ++ [b]) = if b then O else S (trailing l).
Proof. unfold trailing. by rewrite foldl_app. Qed.

Section watching.
Context {S E : Type}.
Variable w : ReadyWatcher.
Variable checks : list (@probe S E).
Variable onReady : bool → S → S.

(** The results of the rounds. *)
Fixpoint round_results (s : S) (rounds : list E) : list bool :=
  match rounds with
  | [] => []
  | e :: rounds => let '(ok, s) := run_checks checks e s in ok :: round_results (onReady ok s) rounds
  end.

Lemma watch_round_eq x e :
  watch_round w checks onReady x e =
  let r := run_checks checks e (snd x) in
  (if fst r then rw_initial w else let b := (fst x * 2)%i64 in if rw_max w <? b then rw_max w else b, onReady (fst r) (snd r)).
Proof. destruct x as [b s]. unfold watch_round. cbn. destruct (run_checks checks e s) as [[|] s']; done. Qed.

Lemma round_results_snoc s rounds e b :
  round_results s (rounds ++ [e]) =
  round_results s rounds ++ [fst (run_checks checks e (snd (foldl (watch_round w checks onReady) (b, s) rounds)))].
Proof.
  revert s b. induction rounds as [|e' rounds IH]; intros s b; cbn [round_results foldl app snd].
  - by destruct (run_checks checks e s).
  - rewrite watch_round_eq. cbn [fst snd]. destruct (run_checks checks e' s) as [ok s']. cbn [fst snd app]. f_equal. apply IH.
Qed.

(** Doubling from the initial backoff, capped. *)
Definition backoff_after (n : nat) : Z := Z.min (rw_initial w * 2 ^ Z.of_nat n) (rw_max w).

Lemma backoff_S n : watcher_ok w → backoff_after (Datatypes.S n) = Z.min (backoff_after n * 2) (rw_max w).
Proof.
  intros [H1 H2]. unfold backoff_after. rewrite Nat2Z.inj_succ, Z.pow_succ_r by lia.
  assert (0 < 2 ^ Z.of_nat n) by (apply Z.pow_pos_nonneg; lia). nia.
Qed.

Lemma backoff_range n : watcher_ok w → rw_initial w ≤ backoff_after n ≤ rw_max w.
Proof.
  intros [H1 H2]. unfold backoff_after. assert (0 < 2 ^ Z.of_nat n) by (apply Z.pow_pos_nonneg; lia). nia.
Qed.

(** After any rounds the wait is the initial one, doubled for each failure
    since the last success and capped. *)
Lemma watch_backoff s rounds :
  watcher_ok w → rw_max w ≤ 2 ^ 61 →
  fst (foldl (watch_round w checks onReady) (rw_initial w, s) rounds) = backoff_after (trailing (round_results s rounds)).
Proof.
  intros Hw Hm. induction rounds as [|e rounds IH] using rev_ind.
  - destruct Hw. unfold backoff_after, trailing. cbn. lia.
  - rewrite foldl_app, (round_results_snoc _ _ _ (rw_initial w)), trailing_app. cbn [foldl].
    rewrite watch_round_eq. cbn [fst snd].
    destruct (fst (run_checks checks e _)) eqn:Er.
    + destruct Hw. unfold backoff_after. cbn. lia.
    + rewrite IH, backoff_S by done. pose proof (backoff_range (trailing (round_results s rounds)) Hw). destruct Hw.
      unfold i64_mul. rewrite wrap64_small by (unfold is_int64, int64_min, int64_max; lia). case_match; lia.
Qed.

(** The state after the last round is what its probes left, told their result. *)
Lemma watch_last rounds e x :
  let s' := snd (foldl (watch_round w checks onReady) x rounds) in
  snd (foldl (watch_round w checks onReady) x (rounds ++ [e])) = onReady (fst (run_checks checks e s')) (snd (run_checks checks e s')).
Proof. cbn zeta. rewrite foldl_app. cbn [foldl]. by rewrite watch_round_eq. Qed.
End watching.

(** ** Hub and analytics *)

Definition redis_fit (enforce : bool) (r : redis_round) : bool :=
  forallb id (rr_pings r) && (negb enforce || forallb checkNoEviction (rr_settings r)).

(** After a round the hub is ready exactly when every shard answered and,
    unless the operator gave the check up, no master evicts keys. *)
Lemma hub_ready_after enforce s rounds r :
  snd (hub_watchReadiness enforce s (rounds ++ [r]))
  = mkHubStatus (redis_fit enforce r) (if redis_fit enforce r then "unknown" else "redis").
Proof.
  unfold hub_watchReadiness, WatchAll. cbn [bool_decide]. rewrite bool_decide_false by done. rewrite watch_last.
  generalize (snd (foldl (watch_round (NewReadyWatcher (500 * Millisecond) (5 * Second)) [hub_probe enforce] hub_onReady)
    (rw_initial (NewReadyWatcher (500 * Millisecond) (5 * Second)), s) rounds)). intros s'.
  unfold redis_fit. cbn. destruct (forallb id (rr_pings r)); cbn; [|done]. destruct enforce; cbn; [|done].
  by destruct (forallb checkNoEviction (rr_settings r)).
Qed.

Section analytics.
Variable url_ok : bool.

Definition hub_and_store (r : analytics_round) : bool := url_ok && bool_decide (nr_hub r = Some 200) && nr_store r.

(** The watcher has subscribed if a round got as far as NATS and NATS took
    the subscription; the server's flags follow. *)
Definition analytics_inv (rounds : list analytics_round) (s : analytics_status) : Prop :=
  as_subscribed s = existsb (λ r, hub_and_store r && nr_nats r) rounds ∧
  as_started s = (if as_subscribed s then 1 else 0)%nat ∧
  (as_subscribed s = true → sv_ingestStarted (as_server s) = true ∧ sv_subscriberUp (as_server s) = true).

Definition analytics_checks : list probe := [hub_readyz_probe url_ok; store_probe; nats_probe].

Lemma analytics_checks_step rounds s r :
  analytics_inv rounds s →
  let o := run_checks analytics_checks r s in
  analytics_inv (rounds ++ [r]) (analytics_onReady (fst o) (snd o)) ∧
  fst o = hub_and_store r && as_subscribed (snd o).
Proof.
  unfold analytics_inv, hub_and_store. intros (Hsub & Hst & Hfl). rewrite existsb_app. cbn [existsb].
  rewrite <- Hsub, orb_false_r. destruct s as [v sub st]. cbn in Hsub, Hst, Hfl |- *. clear Hsub.
  destruct url_ok; cbn; [|by rewrite orb_false_r; subst].
  case_bool_decide; cbn; [|by rewrite orb_false_r; subst].
  destruct (nr_store r); cbn; [|by rewrite orb_false_r; subst].
  destruct sub; cbn; [by subst|]. destruct (nr_nats r); cbn; by subst.
Qed.

Lemma analytics_inv_after v rounds :
  analytics_inv rounds (snd (analytics_watchReadiness url_ok (analytics_initial v) rounds)).
Proof.
  unfold analytics_watchReadiness, WatchAll. rewrite bool_decide_false by done.
  induction rounds as [|r rounds IH] using rev_ind; [done|].
  rewrite watch_last. by apply analytics_checks_step.
Qed.

(** Analytics is ready when its dependencies are.  After the rounds of the
    watcher that have passed, /readyz answers 200 exactly when in the last
    round the hub answered 200 and the store answered, some round up to now
    reached NATS and subscribed, and the store answers the request's own ping;
    and however often dependencies come and go, ingestion is started at most
    once, so that a server never holds two subscriptions. *)
Theorem analytics_readiness (v : Server) (rounds : list analytics_round) (r : analytics_round) (env : io) (q : analytics_request) :
  is_get q = true →
  let s := snd (analytics_watchReadiness url_ok (analytics_initial v) (rounds ++ [r])) in
  (fst (handleReady env (as_server s) q) = Health 200 "ready" None ↔
   hub_and_store r = true ∧ Exists (λ r', hub_and_store r' = true ∧ nr_nats r' = true) (rounds ++ [r]) ∧ io_ping env = true) ∧
  (as_started s ≤ 1)%nat.
Proof.
  intros Hq s. pose proof (analytics_inv_after v (rounds ++ [r])) as (Hsub & Hst & Hfl). fold s in Hsub, Hst, Hfl.
  assert (sv_hubReady (as_server s) = hub_and_store r && as_subscribed s) as Hr.
  { pose proof (analytics_inv_after v rounds) as Hi. unfold s, analytics_watchReadiness, WatchAll in *.
    rewrite bool_decide_false in Hi |- * by done. rewrite watch_last.
    pose proof (analytics_checks_step _ _ r Hi) as [_ He]. unfold analytics_checks in He.
    destruct (run_checks _ r _) as [[|] s'] eqn:E; cbn [fst snd] in *; exact He. }
  split; [|rewrite Hst; by destruct (as_subscribed s); lia].
  assert (as_subscribed s = true ↔ Exists (λ r', hub_and_store r' = true ∧ nr_nats r' = true) (rounds ++ [r])) as Hex.
  { rewrite Hsub, existsb_exists, List.Exists_exists.
    split; intros (x & Hx & Hp); exists x; (split; [done|]); by apply andb_true_iff. }
  rewrite <- Hex. unfold handleReady. rewrite Hq, Hr. cbn [negb].
  destruct (hub_and_store r), (as_subscribed s), (io_ping env); cbn; try naive_solver.
  destruct (Hfl eq_refl) as [-> ->]. naive_solver.
Qed.
End analytics.

(** The hub comes up in the second round; the subscription made then holds
    while NATS is away in the third. *)
Lemma analytics_readiness_witness :
  let v := NewServerWithStore [] "" (rp_Analytics DefaultRuntimePolicy) false in
  let s := snd (analytics_watchReadiness true (analytics_initial v)
    ([mkAnalyticsRound (Some 503) true true; mkAnalyticsRound (Some 200) true true] ++ [mkAnalyticsRound (Some 200) true false])) in
  fst (handleReady (mkIO 0 true true true true (λ _, None)) (as_server s) (mkAnalyticsRequest "GET" "/readyz" ∅ "")) = Health 200 "ready" None.
Proof.
  apply (analytics_readiness true (NewServerWithStore [] "" (rp_Analytics DefaultRuntimePolicy) false)
    [mkAnalyticsRound (Some 503) true true; mkAnalyticsRound (Some 200) true true] (mkAnalyticsRound (Some 200) true false)); [reflexivity|].
  split_and!; [reflexivity| |reflexivity]. apply Exists_cons_tl, Exists_cons_hd. split; reflexivity.
Defined.

(** ** The edge *)

Definition probe_results (evs : list edge_event) : list bool :=
  omap (λ ev, match ev with ProbeResult ok => Some ok | _ => None end) evs.
Definition decodable_snapshot (ev : edge_event) : bool := match ev with Snapshot d => d | _ => false end.

Lemma edge_run_trace bootstrap evs :
  let s := edge_run bootstrap evs in
  es_startupReady s = bootstrap || existsb decodable_snapshot evs ∧
  es_failures s = Z.of_nat (trailing (probe_results evs)) ∧
  es_localHealthy s = (es_failures s <? readyProbeFailures).
Proof.
  cbn zeta. induction evs as [|ev evs (IH1 & IH2 & IH3)] using rev_ind; [by destruct bootstrap|].
  unfold edge_run in *. rewrite foldl_app, existsb_app. unfold probe_results in *. rewrite omap_app. cbn [foldl existsb].
  rewrite orb_false_r. destruct (foldl edge_step (edge_started bootstrap) evs) as [st hl pd fl].
  cbn [es_startupReady es_failures es_localHealthy] in *. destruct ev as [ok|d|]; cbn [edge_step decodable_snapshot].
  - rewrite orb_false_r. cbn [omap list_omap]. rewrite trailing_app. destruct ok; [done|].
    unfold edge_probe. cbn [es_failures]. unfold readyProbeFailures in *.
    destruct (Z.leb_spec 3 (fl + 1)); cbn; (split_and!; [done|lia|]); [by rewrite (proj2 (Z.ltb_ge _ _)) by lia|].
    rewrite IH3. by rewrite !(proj2 (Z.ltb_lt _ _)) by lia.
  - cbn [omap list_omap]. rewrite app_nil_r. unfold edge_config. destruct d; cbn [andb es_startupReady].
    + destruct st; cbn; rewrite ?orb_true_r; auto.
    + rewrite orb_false_r. done.
  - rewrite orb_false_r. cbn [omap list_omap]. by rewrite app_nil_r.
Qed.

(** C14: an edge takes traffic from its first configuration on, and one slow
    answer of its cache does not take it out of rotation.  After any
    interleaving of probes of the response cache, configuration snapshots and
    tier changes, requests are held exactly while the edge was started without
    a bootstrap configuration and no snapshot that decodes has arrived; and
    /readyz answers 200 exactly when they are not held and fewer than three
    probes in a row have failed at the end.  Nothing the hub does later, and
    no probe, closes an edge that has opened. *)
Theorem edge_readiness bootstrap evs :
  let s := edge_run bootstrap evs in
  es_startupReady s = bootstrap || existsb decodable_snapshot evs ∧
  (fst (edge_readyz s) = 200 ↔ es_startupReady s = true ∧ (trailing (probe_results evs) < 3)%nat) ∧
  (∀ more, es_startupReady s = true → es_startupReady (edge_run bootstrap (evs ++ more)) = true).
Proof.
  cbn zeta. pose proof (edge_run_trace bootstrap evs) as (H1 & H2 & H3). split_and!; [done| |].
  - unfold edge_readyz. rewrite H3, H2. unfold readyProbeFailures.
    destruct (es_startupReady _); cbn [negb orb]; [|by split; [|intros []]].
    destruct (Z.ltb_spec (Z.of_nat (trailing (probe_results evs))) 3); cbn; split; try done; lia.
  - intros more Hs. rewrite H1 in Hs. destruct (edge_run_trace bootstrap (evs ++ more)) as [-> _].
    rewrite existsb_app, orb_assoc, Hs. done.
Qed.

(** While the edge is held, its answer may name the cache instead of the
    configuration it waits for. *)
Example held_for_the_wrong_reason :
  edge_readyz (edge_run false [ProbeResult false; ProbeResult false; ProbeResult false; ProbeResult true]) = (503, Some "response_cache").
Proof. reflexivity. Qed.

(** Metrics are out of reach without the operator's token. *)
Lemma metrics_guarded {A} o authorization (stats : option A) st :
  analyticsMetrics o authorization stats = MetricsStats st →
  op_AdminToken o ≠ "" ∧ authorization = "Bearer " +:+ op_AdminToken o ∧ stats = Some st.
Proof.
  unfold analyticsMetrics. destruct (CutPrefix authorization "Bearer ") as [token|] eqn:E; [|done].
  apply CutPrefix_Some in E. destruct (String.eqb_spec (op_AdminToken o) ""); [done|].
  destruct (String.eqb_spec token (op_AdminToken o)); cbn; [|done]. destruct stats; intros; simplify_eq. done.
Qed.

(** ** The stream of events *)

Section stream.
Context {Ev S : Type}.
Variable handle : S → Ev → S.

(** The backoff the client has when a connection ends, after so many
    connections without an event. *)
Definition watch_wait (n : nat) : Z := Z.min (watchBackoff * 2 ^ Z.of_nat n) watchMaxBackoff.

Lemma watch_wait_S n : Z.min (watch_wait n * 2)%i64 watchMaxBackoff = watch_wait (Datatypes.S n).
Proof using.
  unfold watch_wait, i64_mul. rewrite Nat2Z.inj_succ, Z.pow_succ_r by lia.
  assert (0 < 2 ^ Z.of_nat n) by (apply Z.pow_pos_nonneg; lia).
  change watchBackoff with 250000000. change watchMaxBackoff with 5000000000.
  rewrite wrap64_small by (unfold is_int64, int64_min, int64_max; lia). lia.
Qed.

(** The connections without events before each wait. *)
Fixpoint idle_runs (n : nat) (connections : list (list Ev)) : list nat :=
  match connections with
  | [] => []
  | events :: connections => let n := if bool_decide (events = []) then n else O in n :: idle_runs (Datatypes.S n) connections
  end.

Lemma connection_events b s events :
  foldl (λ x ev, (watchBackoff, handle (snd x) ev)) (b, s) events
  = (if bool_decide (events = []) then b else watchBackoff, foldl handle s events).
Proof.
  revert b s. induction events as [|ev events IH]; intros b s; [done|]. cbn [foldl snd]. rewrite IH.
  rewrite (bool_decide_false (ev :: events = [])) by done. by case_bool_decide.
Qed.

Lemma watch_from n s connections :
  hub_Watch handle (watch_wait n, s) connections = (watch_wait <$> idle_runs n connections, foldl handle s (concat connections)).
Proof.
  revert n s. induction connections as [|events connections IH]; intros n s; [done|].
  cbn [hub_Watch idle_runs concat]. unfold watch_connection. rewrite connection_events.
  assert ((if bool_decide (events = []) then watch_wait n else watchBackoff) = watch_wait (if bool_decide (events = []) then n else O)) as ->
    by by case_bool_decide.
  rewrite watch_wait_S, IH, foldl_app. done.
Qed.

(** The hub's events reach the edge once each and in order across
    reconnections, and reconnecting neither floods the hub nor gives up.
    Whatever the connections deliver before they break, the handler has run on
    exactly their events in their order; the wait before each reconnection is a
    quarter of a second doubled for every connection since the last event that
    delivered none, and never more than five seconds. *)
Theorem watch_delivers s connections :
  hub_Watch handle (watchBackoff, s) connections = (watch_wait <$> idle_runs 0 connections, foldl handle s (concat connections)) ∧
  (∀ wait, wait ∈ fst (hub_Watch handle (watchBackoff, s) connections) → watchBackoff ≤ wait ≤ watchMaxBackoff).
Proof.
  rewrite (watch_from 0 s connections : hub_Watch handle (watchBackoff, s) connections = _). split; [done|]. cbn [fst].
  intros wait (n & -> & _)%list_elem_of_fmap. unfold watch_wait.
  assert (0 < 2 ^ Z.of_nat n) by (apply Z.pow_pos_nonneg; lia).
  change watchBackoff with 250000000. change watchMaxBackoff with 5000000000. lia.
Qed.
End stream.

(** The decision service is ready from the first snapshot that decodes on,
    and serves the last one. *)
Lemma service_follows {Cfg} (c0 : Cfg) snaps :
  foldl service_apply (mkServiceStatus c0 false) snaps =
  match last (omap (λ s, mjoin s) snaps) with Some cfg => mkServiceStatus cfg true | None => mkServiceStatus c0 false end.
Proof.
  induction snaps as [|sn snaps IH] using rev_ind; [done|]. rewrite foldl_app, omap_app, IH. cbn.
  destruct sn as [[cfg|]|]; cbn; rewrite ?app_nil_r; [by rewrite last_snoc|done..].
Qed.

(** ** Request IDs *)

Lemma hex_char_printable n : 0 ≤ n < 16 → printable (hex_char n) = true.
Proof.
  intros H. unfold printable, hex_char. rewrite nat_ascii_embedding by (case_match; lia). rewrite Z2Nat.id by (case_match; lia).
  destruct (Z.ltb_spec n 10); apply andb_true_iff; split; [apply Z.ltb_lt|apply Z.leb_le|apply Z.ltb_lt|apply Z.leb_le]; lia.
Qed.

Lemma hex_encode_ok bytes :
  Forall (λ b, 0 ≤ b < 256) bytes → String.length (hex_encode bytes) = (2 * length bytes)%nat ∧ all_chars printable (hex_encode bytes) = true.
Proof.
  induction 1 as [|b bytes Hb _ [IH1 IH2]]; [done|]. cbn. rewrite IH1, IH2. split; [lia|].
  rewrite !hex_char_printable; [done|apply Z.mod_pos_bound; lia|]. split; [apply Z.div_pos; lia|apply Z.div_lt_upper_bound; lia].
Qed.

(** Whatever a client sends as its request ID, the one that is used, echoed
    and passed upstream is printable ASCII of 1 to 128 characters. *)
Lemma request_id_valid random header :
  length random = 12%nat → Forall (λ b, 0 ≤ b < 256) random → validRequestID (WithRequestID random header) = true.
Proof.
  intros Hl Hb. unfold WithRequestID. destruct (validRequestID header) eqn:E; [done|].
  destruct (hex_encode_ok random Hb) as [H1 H2]. unfold validRequestID, newRequestID. rewrite H2, H1, Hl. cbn.
  destruct (String.eqb_spec (hex_encode random) "") as [E0|]; [|done]. rewrite E0, Hl in H1. done.
Qed.
