(* ===== verification/Contract.v ===== *)
(** * Summaries from ClickHouse ([packages/analytics/store.go], [contract.go])

    How a query's filters become the condition of an SQL statement and its
    arguments, and how the answers of the statements become the response.  The
    statements themselves run in ClickHouse: what they answer is a parameter. *)

From S2P Require Import Prelude Float64 GoLib Analytics AnalyticsProps Overview AnalyticsApi.
From Stdlib Require Import Ascii.

Local Open Scope Z_scope.

(** ** Conditions *)

Record contractFilters := mkContractFilters {
  cf_Prefixes : list string;
  cf_Services : list string;
  cf_EdgeIDs : list string;
  cf_Tiers : list string;
  cf_Methods : list string;
  cf_ResponseCodeMin : option Z;
  cf_ResponseCodeMax : option Z;
  cf_CacheHit : option bool;
  cf_UpstreamError : option bool;
  cf_LatencyMinMs : option float64;
  cf_LatencyMaxMs : option float64;
}.

(** The filters of [parseAnalyticsSummaryQuery]. *)
Definition contract_filters (ParseFloat : string → option float64) (q : Values) : contractFilters :=
  mkContractFilters (sliceQueryValues q "prefix") (sliceQueryValues q "service") (sliceQueryValues q "edge_id")
    (sliceQueryValues q "tier") (sliceQueryValues q "method")
    (parseOptionalInt64 (query_get q "response_code_min")) (parseOptionalInt64 (query_get q "response_code_max"))
    (parseOptionalBool (query_get q "cache_hit")) (parseOptionalBool (query_get q "upstream_error"))
    (parseOptionalFloat64 ParseFloat (query_get q "total_latency_ms_min"))
    (parseOptionalFloat64 ParseFloat (query_get q "total_latency_ms_max")).

Inductive sql_arg := ATime (t : Z) | AText (s : string) | AInt (n : Z) | AFloat (x : float64).

Definition boolToUInt8 (v : bool) : Z := if v then 1 else 0.

(** The clauses and arguments so far. *)
Definition where_state : Type := list string * list sql_arg.

Definition appendInClause (column : string) (values : list string) (st : where_state) : where_state :=
  let clean := filter (λ v, v ≠ "") (TrimSpace <$> values) in
  match clean with
  | [] => st
  | _ => (st.1 ++ [column +:+ " IN (" +:+ Join ((λ _, "?") <$> clean) "," +:+ ")"], st.2 ++ (AText <$> clean))
  end.

Definition appendClause {A} (clause : string) (arg : A → sql_arg) (v : option A) (st : where_state) : where_state :=
  match v with None => st | Some x => (st.1 ++ [clause], st.2 ++ [arg x]) end.

Definition where_clauses (start end_ : Z) (f : contractFilters) : where_state :=
  let million := f64_of_int 1000000 in
  let st := (["timestamp >= ?"; "timestamp < ?"], [ATime start; ATime end_]) in
  let st := appendInClause "prefix" (cf_Prefixes f) st in
  let st := appendInClause "service" (cf_Services f) st in
  let st := appendInClause "edge_id" (cf_EdgeIDs f) st in
  let st := appendInClause "tier" (cf_Tiers f) st in
  let st := appendInClause "method" (cf_Methods f) st in
  let st := appendClause "response_code >= ?" AInt (cf_ResponseCodeMin f) st in
  let st := appendClause "response_code <= ?" AInt (cf_ResponseCodeMax f) st in
  let st := appendClause "cache_hit = ?" (λ b, AInt (boolToUInt8 b)) (cf_CacheHit f) st in
  let st := appendClause "upstream_error = ?" (λ b, AInt (boolToUInt8 b)) (cf_UpstreamError f) st in
  let st := appendClause "toFloat64(total_latency_ns) >= ?" (λ x, AFloat (f64_mul x million)) (cf_LatencyMinMs f) st in
  appendClause "toFloat64(total_latency_ns) <= ?" (λ x, AFloat (f64_mul x million)) (cf_LatencyMaxMs f) st.

Definition buildClickHouseWhere (start end_ : Z) (f : contractFilters) : string * list sql_arg :=
  let st := where_clauses start end_ f in (Join st.1 " AND ", st.2).

(** ** Buckets and trends *)

(** The loop of [enumerateBuckets] from [cursor]. *)
Fixpoint buckets_from (fuel : nat) (cursor end_ interval : Z) : list Z :=
  match fuel with
  | O => []
  | S fuel => if cursor <? end_ then cursor :: buckets_from fuel (cursor + interval) end_ interval else []
  end.

Definition enumerateBuckets (start end_ interval : Z) : list Z :=
  if (interval <=? 0) || negb (start <? end_) then []
  else
    let cursor := Truncate start interval in
    let cursor := if cursor <? start then cursor + interval else cursor in
    buckets_from (S (Z.to_nat ((end_ - start) / interval))) cursor end_ interval.

Definition trendDelta (current previous : float64) : float64 :=
  if f64_eqb previous f64_zero then f64_zero else f64_div (f64_sub current previous) previous.

Definition trendDeltaWithRecentFallback (currentWindow previousWindow : float64) (hasBucketPair : bool)
    (latestBucketValue previousBucketValue : float64) : float64 :=
  let trend := trendDelta currentWindow previousWindow in
  if negb (f64_eqb trend f64_zero) || negb (f64_eqb previousWindow f64_zero) then trend
  else if negb hasBucketPair then trend
  else trendDelta latestBucketValue previousBucketValue.

Record contractWindowAggregate := mkWindowAggregate {
  wa_Requests : float64;
  wa_LatencyTotalP50 : float64;
  wa_LatencyTotalP90 : float64;
  wa_LatencyTotalP95 : float64;
  wa_LatencyUpstreamP50 : float64;
  wa_LatencyUpstreamP90 : float64;
  wa_LatencyUpstreamP95 : float64;
  wa_VolumeRequestAvg : float64;
  wa_VolumeResponseAvg : float64;
  wa_RatesCacheHit : float64;
  wa_RatesUpstreamErr : float64;
  wa_RatesRateLimited : float64;
}.

Record contractBucketAggregate := mkBucketAggregate {
  cb_SampleCount : Z;
  cb_Bucket : Z;
  cb_LatencyTotalP50 : float64;
  cb_LatencyTotalP90 : float64;
  cb_LatencyTotalP95 : float64;
  cb_LatencyUpstreamP50 : float64;
  cb_LatencyUpstreamP90 : float64;
  cb_LatencyUpstreamP95 : float64;
  cb_VolumeRequestAvg : float64;
  cb_VolumeResponseAvg : float64;
  cb_RatesCacheHit : float64;
  cb_RatesUpstreamErr : float64;
  cb_RatesRateLimited : float64;
}.

(** The newest buckets with samples, newest first. *)
Definition sampled (buckets : gmap Z contractBucketAggregate) (ordered : list Z) : list contractBucketAggregate :=
  omap (λ t, b ← buckets !! Unix t; if cb_SampleCount b <=? 0 then None else Some b) (reverse ordered).
Definition lastTwoSampledBuckets (buckets : gmap Z contractBucketAggregate) (ordered : list Z)
  : option (contractBucketAggregate * contractBucketAggregate) :=
  match sampled buckets ordered with latest :: previous :: _ => Some (latest, previous) | _ => None end.

(** ** The response *)

Record contractMetric := mkMetric { cm_LastValue : float64; cm_Trend : float64 }.

(** A cell of a row: its time, or a number. *)
Inductive cell := CTime (t : Z) | CCount (x : float64).

Record contractLatencyPoint := mkLatencyPoint {
  lp_SampleCount : Z; lp_Time : Z; lp_LatencyTotalP90 : float64; lp_LatencyUpstreamP90 : float64; lp_LatencyAddedP90 : float64;
}.
Record contractVolumePoint := mkVolumePoint { vp_SampleCount : Z; vp_Time : Z; vp_RequestAvg : float64; vp_ResponseAvg : float64 }.
Record contractRatesPoint := mkRatesPoint {
  rp_SampleCount : Z; rp_Time : Z; rp_CacheHit : float64; rp_UpstreamErr : float64; rp_RateLimited : float64;
}.

Record contractSeries := mkSeries {
  cs_Latency : list contractLatencyPoint;
  cs_Volume : list contractVolumePoint;
  cs_Rates : list contractRatesPoint;
  cs_Prefixes : list (gmap string cell);
  cs_Services : list (gmap string cell);
  cs_Edges : list (gmap string cell);
  cs_Tiers : list (gmap string cell);
}.

Record contractSummaryResponse := mkContractSummary { ct_Summary : gmap string contractMetric; ct_Series : contractSeries }.

(** What the statements answer; [None] is an error. *)
Record ch_answers := mkAnswers {
  an_window : Z → Z → option contractWindowAggregate;
  an_buckets : option (gmap Z contractBucketAggregate);
  an_counts : string → Z → Z → option (gmap string float64);
  an_series : string → option (gmap Z (gmap string float64));
}.

(** The metric of a number of the window, with a fallback to the last two
    buckets. *)
Definition metric (current previous : float64) (pair : option (contractBucketAggregate * contractBucketAggregate))
    (value : contractBucketAggregate → float64) : contractMetric :=
  mkMetric current
    (trendDeltaWithRecentFallback current previous (bool_decide (is_Some pair))
       (match pair with Some (l, _) => value l | None => f64_zero end)
       (match pair with Some (_, p) => value p | None => f64_zero end)).

Definition added_p90 (total upstream : float64) : float64 := f64_sub total upstream.

(** A row: its time, then the numbers of its names over it. *)
Definition series_row (values : gmap Z (gmap string float64)) (t : Z) : gmap string cell :=
  (CCount <$> default ∅ (values !! Unix t)) ∪ {[ "time" := CTime t ]}.

Definition window_metrics (current previous : contractWindowAggregate)
    (pair : option (contractBucketAggregate * contractBucketAggregate)) : list (string * contractMetric) :=
  let both (f : contractWindowAggregate → float64) := metric (f current) (f previous) pair in
  [("requests", both wa_Requests (λ b, f64_of_int (cb_SampleCount b)));
   ("latency_total_p90", both wa_LatencyTotalP90 cb_LatencyTotalP90);
   ("latency_added_p90", both (λ w, added_p90 (wa_LatencyTotalP90 w) (wa_LatencyUpstreamP90 w))
                            (λ b, added_p90 (cb_LatencyTotalP90 b) (cb_LatencyUpstreamP90 b)));
   ("volume_request_avg", both wa_VolumeRequestAvg cb_VolumeRequestAvg);
   ("volume_response_avg", both wa_VolumeResponseAvg cb_VolumeResponseAvg);
   ("rates_cache_hit", both wa_RatesCacheHit cb_RatesCacheHit);
   ("rates_upstream_err", both wa_RatesUpstreamErr cb_RatesUpstreamErr);
   ("rates_rate_limited", both wa_RatesRateLimited cb_RatesRateLimited)].

(** The metrics of the names of a dimension. *)
Definition dimension_metrics (label : string) (current previous : gmap string float64) : list (string * contractMetric) :=
  (λ kv, (label +:+ kv.1, mkMetric kv.2 (trendDelta kv.2 (default f64_zero (previous !! kv.1))))) <$> map_to_list current.

Definition latency_point (buckets : gmap Z contractBucketAggregate) (t : Z) : contractLatencyPoint :=
  match buckets !! Unix t with
  | None => mkLatencyPoint 0 t f64_zero f64_zero f64_zero
  | Some b => mkLatencyPoint (cb_SampleCount b) t (cb_LatencyTotalP90 b) (cb_LatencyUpstreamP90 b)
                (added_p90 (cb_LatencyTotalP90 b) (cb_LatencyUpstreamP90 b))
  end.
Definition volume_point (buckets : gmap Z contractBucketAggregate) (t : Z) : contractVolumePoint :=
  match buckets !! Unix t with
  | None => mkVolumePoint 0 t f64_zero f64_zero
  | Some b => mkVolumePoint (cb_SampleCount b) t (cb_VolumeRequestAvg b) (cb_VolumeResponseAvg b)
  end.
Definition rates_point (buckets : gmap Z contractBucketAggregate) (t : Z) : contractRatesPoint :=
  match buckets !! Unix t with
  | None => mkRatesPoint 0 t f64_zero f64_zero f64_zero
  | Some b => mkRatesPoint (cb_SampleCount b) t (cb_RatesCacheHit b) (cb_RatesUpstreamErr b) (cb_RatesRateLimited b)
  end.

(** [QueryContractSummary], with what its statements answer. *)
Definition QueryContractSummary (an : ch_answers) (spec : analyticsSummaryQuerySpec) : option contractSummaryResponse :=
  let cur dim := an_counts an dim (qs_WindowStart spec) (qs_WindowEnd spec) in
  let prev dim := an_counts an dim (qs_PreviousStart spec) (qs_PreviousEnd spec) in
  current ← an_window an (qs_WindowStart spec) (qs_WindowEnd spec);
  previous ← an_window an (qs_PreviousStart spec) (qs_PreviousEnd spec);
  buckets ← an_buckets an;
  let bucketTimes := enumerateBuckets (qs_WindowStart spec) (qs_WindowEnd spec) (qs_BucketSize spec) in
  let pair := lastTwoSampledBuckets buckets bucketTimes in
  prefixCurrent ← cur "prefix"; prefixPrevious ← prev "prefix";
  serviceCurrent ← cur "service"; servicePrevious ← prev "service";
  edgeCurrent ← cur "edge_id"; edgePrevious ← prev "edge_id";
  tierCurrent ← cur "tier"; tierPrevious ← prev "tier";
  prefixSeries ← an_series an "prefix"; serviceSeries ← an_series an "service";
  edgeSeries ← an_series an "edge_id"; tierSeries ← an_series an "tier";
  Some (mkContractSummary
    (list_to_map
       (dimension_metrics "tiers_" tierCurrent tierPrevious ++ dimension_metrics "edges_" edgeCurrent edgePrevious
        ++ dimension_metrics "services_" serviceCurrent servicePrevious ++ dimension_metrics "prefixes_" prefixCurrent prefixPrevious
        ++ window_metrics current previous pair))
    (mkSeries (latency_point buckets <$> bucketTimes) (volume_point buckets <$> bucketTimes) (rates_point buckets <$> bucketTimes)
       (series_row prefixSeries <$> bucketTimes) (series_row serviceSeries <$> bucketTimes) (series_row edgeSeries <$> bucketTimes)
       (series_row tierSeries <$> bucketTimes))).

(** ** Conditions are parameterised *)

Definition clean (values : list string) : list string := filter (λ v, v ≠ "") (TrimSpace <$> values).

(** What of the filters shows in the text of the condition: how many values a
    list has, and whether a bound is there. *)
Definition shape (f : contractFilters) : list nat * list bool :=
  let n values := length (clean values) in
  let has {A} (x : option A) := bool_decide (is_Some x) in
  ([n (cf_Prefixes f); n (cf_Services f); n (cf_EdgeIDs f); n (cf_Tiers f); n (cf_Methods f)],
   [has (cf_ResponseCodeMin f); has (cf_ResponseCodeMax f); has (cf_CacheHit f); has (cf_UpstreamError f);
    has (cf_LatencyMinMs f); has (cf_LatencyMaxMs f)]).

(** The placeholders of a text. *)
Fixpoint placeholders (s : string) : nat :=
  match s with EmptyString => 0 | String c s => ((if (c =? "?")%char then 1 else 0) + placeholders s)%nat end.

Lemma placeholders_app s t : placeholders (s +:+ t) = (placeholders s + placeholders t)%nat.
Proof. induction s as [|c s IH]; [done|]. rewrite app_cons_str. cbn [placeholders]. rewrite IH. lia. Qed.

Lemma placeholders_join l sep : placeholders sep = 0%nat → placeholders (Join l sep) = sum_list_with placeholders l.
Proof.
  intros Hs. induction l as [|x l IH]; [done|]. destruct l as [|y l]; [cbn; lia|].
  change (Join (x :: y :: l) sep) with (x +:+ sep +:+ Join (y :: l) sep). rewrite !placeholders_app, IH, Hs. done.
Qed.

(** As many placeholders as arguments so far. *)
Definition bound (st : where_state) : Prop := sum_list_with placeholders st.1 = length st.2.

(** The clause for a list, by the number of its values. *)
Definition in_clause (column : string) (n : nat) : list string :=
  match n with O => [] | _ => [column +:+ " IN (" +:+ Join (replicate n "?") "," +:+ ")"] end.

Lemma appendIn_exact column values st :
  appendInClause column values st = (st.1 ++ in_clause column (length (clean values)), st.2 ++ (AText <$> clean values)).
Proof.
  unfold appendInClause. fold (clean values). destruct (clean values) as [|v l]; cbn; [by rewrite !app_nil_r; destruct st|].
  do 6 f_equal. by rewrite (const_fmap _ l "?").
Qed.

Lemma in_clause_bound column n : placeholders column = 0%nat → sum_list_with placeholders (in_clause column n) = n.
Proof.
  intros Hc. destruct n as [|n]; [done|]. cbn [in_clause sum_list_with].
  rewrite !placeholders_app, placeholders_join, Hc by done. cbn [placeholders].
  assert (H : ∀ m, sum_list_with placeholders (replicate m "?") = m) by (intros m; induction m; cbn in *; lia).
  rewrite H. cbn. lia.
Qed.

Lemma appendIn_bound column values st : placeholders column = 0%nat → bound st → bound (appendInClause column values st).
Proof.
  unfold bound. intros Hc Hb. rewrite appendIn_exact. cbn.
  rewrite sum_list_with_app, in_clause_bound, length_app, length_fmap by done. lia.
Qed.

Lemma appendClause_bound {A} clause (arg : A → sql_arg) v st :
  placeholders clause = 1%nat → bound st → bound (appendClause clause arg v st).
Proof.
  unfold bound, appendClause. intros Hc Hb. destruct v; [|done]. cbn. rewrite sum_list_with_app, length_app. cbn. lia.
Qed.

Lemma appendIn_text column values st : (appendInClause column values st).1 = st.1 ++ in_clause column (length (clean values)).
Proof. by rewrite appendIn_exact. Qed.

Lemma appendClause_text {A} clause (arg : A → sql_arg) v st :
  (appendClause clause arg v st).1 = st.1 ++ (if bool_decide (is_Some v) then [clause] else []).
Proof. destruct v; cbn; [done|by rewrite app_nil_r]. Qed.

(** The condition is safe to run: it has exactly one placeholder per argument,
    and its text depends only on how many values each filter has, never on a
    value that a client sends. *)
Theorem where_parameterised start end_ f :
  placeholders (buildClickHouseWhere start end_ f).1 = length (buildClickHouseWhere start end_ f).2
  ∧ ∀ start' end_' f', shape f' = shape f → (buildClickHouseWhere start' end_' f').1 = (buildClickHouseWhere start end_ f).1.
Proof.
  split.
  - unfold buildClickHouseWhere. cbn [fst snd]. rewrite placeholders_join by done.
    assert (H : bound (where_clauses start end_ f)) by (unfold where_clauses; cbv zeta;
      repeat first [apply appendClause_bound; [reflexivity|] | apply appendIn_bound; [reflexivity|]]; reflexivity).
    exact H.
  - intros start' end_' f' Hs. unfold buildClickHouseWhere. cbn [fst]. f_equal.
    unfold shape in Hs. injection Hs as H1 H2 H3 H4 H5 B1 B2 B3 B4 B5 B6.
    unfold where_clauses. cbv zeta. rewrite !appendClause_text, !appendIn_text.
    by rewrite H1, H2, H3, H4, H5, B1, B2, B3, B4, B5, B6.
Qed.

(** ** Buckets of a window *)

Lemma buckets_from_exact interval end_ : 0 < interval → ∀ fuel cursor,
  end_ ≤ cursor + Z.of_nat fuel * interval →
  buckets_from fuel cursor end_ interval
  = (λ i, cursor + Z.of_nat i * interval) <$> seq 0 (Z.to_nat ((end_ - cursor + interval - 1) / interval)).
Proof.
  intros Hi. induction fuel as [|fuel IH]; intros cursor Hf; cbn [buckets_from].
  - replace (Z.to_nat _) with 0%nat; [done|]. assert ((end_ - cursor + interval - 1) / interval < 1) by (apply Z.div_lt_upper_bound; lia). lia.
  - destruct (Z.ltb_spec cursor end_) as [Hlt|Hge].
    + rewrite IH by lia. replace (end_ - cursor + interval - 1) with (end_ - (cursor + interval) + interval - 1 + 1 * interval) by lia.
      rewrite Z.div_add by lia.
      assert (0 ≤ (end_ - (cursor + interval) + interval - 1) / interval) by (apply Z.div_pos; lia).
      rewrite Z2Nat.inj_add, Nat.add_1_r by lia. cbn [seq fmap list_fmap]. f_equal; [lia|].
      rewrite <- (seq_shift _ 0), <- list_fmap_compose. apply list_fmap_ext. intros _ i _. unfold compose. lia.
    + replace (Z.to_nat _) with 0%nat; [done|]. assert ((end_ - cursor + interval - 1) / interval < 1) by (apply Z.div_lt_upper_bound; lia). lia.
Qed.

Lemma enumerate_eq start end_ interval : 0 < interval →
  ∃ cursor n, enumerateBuckets start end_ interval = (λ i, cursor + Z.of_nat i * interval) <$> seq 0 n
    ∧ aligned interval cursor ∧ start ≤ cursor < start + interval ∧ (start < end_ → end_ ≤ cursor + Z.of_nat n * interval)
    ∧ (∀ i, (i < n)%nat → cursor + Z.of_nat i * interval < end_).
Proof.
  intros Hi. pose proof (Truncate_spec start interval Hi) as Ht. pose proof (Truncate_aligned start interval Hi) as Ha.
  set (cursor := if Truncate start interval <? start then Truncate start interval + interval else Truncate start interval).
  assert (Hc : aligned interval cursor ∧ start ≤ cursor < start + interval).
  { unfold cursor. destruct (Z.ltb_spec (Truncate start interval) start); split; try lia; [|done].
    replace (_ + interval) with (Truncate start interval + 1 * interval) by lia. by apply aligned_add. }
  unfold enumerateBuckets. fold cursor. destruct (Z.leb_spec interval 0); [lia|]. cbn [orb].
  destruct (Z.ltb_spec start end_) as [Hlt|Hge]; cbn [negb].
  - exists cursor, (Z.to_nat ((end_ - cursor + interval - 1) / interval)).
    pose proof (Z.div_mod (end_ - start) interval ltac:(lia)). pose proof (Z.mod_pos_bound (end_ - start) interval Hi).
    assert (0 ≤ (end_ - start) / interval) by (apply Z.div_pos; lia).
    split; [apply buckets_from_exact; [done|nia]|]. destruct Hc as [Hc1 Hc2]. split_and!; [done|lia|lia| |].
    + intros _. pose proof (Z.div_mod (end_ - cursor + interval - 1) interval ltac:(lia)).
      pose proof (Z.mod_pos_bound (end_ - cursor + interval - 1) interval Hi). nia.
    + intros i Hn. pose proof (Z.div_mod (end_ - cursor + interval - 1) interval ltac:(lia)).
      pose proof (Z.mod_pos_bound (end_ - cursor + interval - 1) interval Hi). nia.
  - exists cursor, 0%nat. destruct Hc as [Hc1 Hc2]. split_and!; [done|done|lia|lia|lia|lia].
Qed.

(** The buckets of a window are exactly the bucket starts inside it; so when
    the window starts with a bucket, every event of it falls in one that is shown. *)
Theorem buckets_enumerated start end_ interval : 0 < interval →
  (∀ t, t ∈ enumerateBuckets start end_ interval ↔ aligned interval t ∧ start ≤ t < end_)
  ∧ (aligned interval start → ∀ ts, start ≤ ts < end_ → Truncate ts interval ∈ enumerateBuckets start end_ interval).
Proof.
  intros Hi. destruct (enumerate_eq start end_ interval Hi) as (cursor & n & He & Ha & Hc & Hend & Hin).
  assert (H : ∀ t, t ∈ enumerateBuckets start end_ interval ↔ aligned interval t ∧ start ≤ t < end_).
  { intros t. rewrite He, list_elem_of_fmap. split.
    - intros (i & -> & Hs%elem_of_seq). split; [by apply aligned_add|]. specialize (Hin i). lia.
    - intros [Ht Hr]. exists (Z.to_nat ((t - cursor) / interval)).
      unfold aligned in Ht, Ha. apply Z.mod_divide in Ht as [a Ht]; [|lia]. apply Z.mod_divide in Ha as [b Ha]; [|lia].
      assert (Hd : t - cursor = (a - b) * interval) by lia. rewrite Hd, Z.div_mul by lia.
      assert (0 ≤ a - b) by nia. rewrite Z2Nat.id by lia. split; [lia|]. apply elem_of_seq.
      assert (a - b < Z.of_nat n) by nia. lia. }
  split; [done|]. intros Has ts Hts. apply H. split; [by apply Truncate_aligned|].
  pose proof (Truncate_spec ts interval Hi). split; [|lia].
  destruct (Z.le_gt_cases start (Truncate ts interval)) as [|Hlt]; [done|].
  enough (start = Truncate ts interval) by lia. apply (aligned_close interval); [done|done|by apply Truncate_aligned|lia|lia].
Qed.

(** A row keeps its time exactly when none of its names is the word [time]. *)
Theorem row_time values t :
  series_row values t !! "time" = Some (CTime t) ↔ default ∅ (values !! Unix t) !! "time" = None.
Proof.
  unfold series_row. rewrite lookup_union, lookup_fmap, lookup_singleton_eq.
  destruct (default ∅ (values !! Unix t) !! "time"); by split.
Qed.
